(* ===== verification/_CoqProject ===== *)
-Q . S2P
Prelude.v
Rust.v
Float64.v
Net.v
Paths.v
Config.v
ConfigCorrect.v
Admission.v
AdmissionCorrect.v
LogLimiter.v
Metrics.v
AuthorizedKeys.v
Sftp.v
Preauth.v
Session.v
Server.v
Daemon.v
LogText.v
Framing.v
Process.v
OutputSide.v
PtySession.v
PipedSession.v
WindowsProcess.v
Executor.v
ExecutorOrder.v
ExecutorLifetime.v
Spawn.v
Forwarding.v
InProcess.v
EndToEnd.v
Sandbox.v
Confinement.v
Startup.v
Logging.v
WindowsService.v
SessionLauncher.v
Cli.v
UnitTests.v
IntegrationTests.v
