(* ===== verification/Prelude.v ===== *)
(** * narrowd: a verification library

    narrowd is a single-user SSH daemon written in Rust.  The SSH protocol itself
    is the russh library's; the repository's own code (src/src) decides who may
    connect, who is authenticated, what an authenticated client may start, and
    runs it in a separate executor process.  This library models that code and
    proves what makes it correct.

    ** The program and the files that model it

    - Admission control (admission.rs): a controller behind a mutex counts the
      unauthenticated connections in total, per address and per subnet, spends
      tokens of a bucket per address and bans addresses that fail to
      authenticate.  [Admission] has its state and operations, the invariant
      that ties the counters to the guards alive, and the abstract controller
      (a multiset of guards); [AdmissionCorrect] has the theorems.
    - Authorized keys (authorized_keys.rs): the cache of accepted keys, its
      debounced reload and its last-known-good behaviour are [AuthorizedKeys].
    - Configuration (config.rs): directives, value parsers, paths, defaults and
      the sample file are [Config]; [ConfigCorrect] has the theorems.
    - [LogLimiter] (log_limiter.rs), [Metrics] (metrics.rs) and [Logging]
      (logging.rs: the rotating file, the initialisation, the bootstrap error
      line) are the observability parts.
    - [Sftp] (sftp.rs) is the SFTP server, over an abstract operating system.
    - sshd.rs is modelled in seven files.  [Preauth]: the stream that enforces
      the deadlines before authentication.  [Session]: the handlers of channel
      and forwarding requests ([ClientHandler]).  [Server]: the shared
      [AppState], authentication, the pre-authentication context and the course
      of a connection ([serve_connection]), which compose [Admission],
      [AuthorizedKeys], [LogLimiter] and [Metrics].  [Daemon]: the accept loop
      and its supervised connections as a step relation, with their panics, and
      what the SSH library is configured with.  [LogText]: the text
      of the lines they log.  [Startup]: bootstrap and the order of start-up, on
      Unix and elsewhere.  Its process bridge is in [Process].
    - executor.rs is modelled in twelve files.  [Framing]: the messages of a
      process session and their length-prefixed encoding, both sides.
      [Process]: how children are launched and the tasks of a process session,
      in the executor and in the daemon, on Unix.  [OutputSide], [PtySession] and
      [PipedSession]: the tasks of a session with and without a terminal run side
      by side, a turn of a task being a step, over a stream to the daemon that may
      be full or break.  [WindowsProcess]: the same
      tasks on Windows, where they differ.  [Executor]: the control channel, with
      the daemon's client, the executor's loop and the packets between them as a
      step relation: packets are cut at 64 KiB, and what cannot be read or answered
      ends the loop.  [ExecutorOrder]: the order of requests and answers on it.
      [ExecutorLifetime]: who keeps the executor alive.  [Spawn]: how the executor
      process is started and which descriptors it and its children get.  [InProcess]: the executor of targets
      other than Unix, inside the daemon.  [Forwarding]: what both executors
      promise of remote forwards, as a class ([ForwardTable]) with an instance
      for each; its theorems are stated of the two systems themselves in
      [InProcess].  [EndToEnd] composes [Session], [Executor] and [Process].
    - [Sandbox] (sandbox.rs): the seccomp filters and the directory Landlock
      leaves readable.  [Confinement] puts them on a process, with the kernel's
      answers and with the access rights that the ruleset's ABI does not know, and
      has the probes.
    - [Cli] (main.rs): the modes of the program.  [WindowsService]
      (windows_service_runtime.rs): the service, its control handler turn by
      turn and the status it reports.  [SessionLauncher] (bin/narrowd-session-launcher.rs):
      the launcher of a Windows session and the configuration it generates.
    - [UnitTests]: the unit tests of the sources, run on the model;
      [IntegrationTests]: those of src/tests that drive the server's own code.
    - [Prelude] (this file) has results, panics, mutexes, tactics and generic
      lemmas; [Rust] the standard library as far as it is used (integers at
      their width, time, strings, integer parsing and printing, errors);
      [Float64] binary64 arithmetic of the token bucket on SpecFloat; [Net]
      addresses; [Paths] Unix paths.

    ** How code becomes definitions

    A function of the source is a definition of the same name where Rocq allows
    it; a method that mutates is a function that returns the new state; the order
    of tests and early returns is the source's.  [Result] is [result], a
    computation that may panic is in [run], and a panic under a lock poisons the
    [mutex].  Integers are [Z] with their width written out ([usize] and [u64]
    counters wrap or saturate as the code does); instants and durations are
    nanoseconds with the ranges of the standard library; strings are lists of
    Unicode scalar values, bytes lists of numbers below 256; an [anyhow::Error]
    is its chain of causes; a [HashMap] is a [gmap], and where its iteration
    order shows, the order is a parameter.

    What is not in src/ is a parameter with the answers it gives: the clock (one
    reading per operation), the file system, the operating system calls of the
    executor and of SFTP, the parser of ssh_key, serde_json (class [Serde], with
    the round trip as a law), dirs, clap, env_logger, the service control manager
    of Windows, the kernel under its filters, and the inner transport.
    Concurrency is interleaving: the operations of a shared component are atomic
    (they run under its lock or in one task turn) and theorems quantify over
    every sequence of them, as step relations or as lists of events.

    ** What the theorems show

    - Admission: the limits hold in every reachable state, the counters are
      exactly the guards alive, and the controller refines its abstract
      specification; bans come at the threshold and are enforced while they
      last; a new peer below the limits is admitted; operations return for the
      configurations the parser accepts; guards release once; subnets are the
      /24 and /64 prefixes.
    - Authentication: a key is accepted exactly for the daemon's user, with an
      allowed algorithm, when the last good load of the file has it as a plain
      entry; a failed reload keeps that load; rejected keys count towards a ban.
    - Server: through every interleaving of connections and every way they end,
      the gauge of unauthenticated connections, the admission controller's count
      and the connections alive agree; no client takes the daemon down; and
      before authentication no client can break a line of the log.
    - Confinement: on Linux the daemon serves nobody before it is confined; the
      two filters are one policy; a confined process opens for reading beneath one
      directory, and of the rights Landlock knows today has beyond that only those
      which the first ABI leaves alone, so that an open may still empty a file
      there; only in the order of the code does confining work; the probes report
      exactly that.
    - Sessions: what the executor is asked for is permitted by the
      configuration, at most one start per channel, forwards are cancelled once,
      the variables set over the environment the child inherits are filtered.  What
      a child writes reaches the client in order with its exit status last; what a
      client sends reaches the child as far as the stream holds it and the writes
      succeed; a terminal's child is killed at the end exactly when its input was
      closed or ended cleanly and no write to the terminal failed; a piped child does not outlive the input.
      However its tasks are scheduled, a session comes to rest, and when its child
      has exited and nobody holds its streams it rests only with no task left,
      unless it waits for a daemon that does not read, and with everything
      delivered, unless the stream to the daemon broke; a piped child does not
      outlive its client while it reads its input.  On Windows input does the same but for signals, and a
      terminal's output ends with its child.
    - Executor: every caller gets its own answer, once, and while the control
      channel is whole nobody waits when nothing is in flight; requests are served, and callers answered, in turn;
      no descriptor of a packet is lost or closed twice; the executor is killed
      exactly when nobody refers to it any more; frames round-trip and readers are
      bounded; the executor gets its end of the channel and nothing else, and its children
      nothing of it; a permitted exec request that fits a control packet runs the
      configured shell, in the user's home, with the filtered variables; both executors accept
      forwarded connections only while the forward is active.
    - Windows: the statuses the service reports are a lifecycle of the service
      manager (with one race) and end at Stopped where the code comes to report
      it; a stop delivered to the handler ends the service whatever becomes of the
      handler's own report; and the
      generated configuration is read back as what it was generated from.
    - Configuration: a loaded configuration is the defaults changed by the
      directives of a file all of whose lines were understood, and is well formed; the sample is the
      default, password authentication cannot be enabled, values are exact; the
      sample the program prints is accepted by the program.
    - SFTP: paths resolve lexically, handles are never reused and stay closed,
      reads are capped.  Logs: the limiter's table is bounded, warnings are
      spaced, the log file is bounded.
    - Behaviour that surprises is stated as it is: a bucket that is forgotten
      between connections, a control packet that is too long and stops the
      executor, calls that wait for a reader that is gone, an oversized ban
      window that aborts the daemon, a slow request that holds up all others, an
      executor that its clients cannot end, a child killed for closing its
      input, a child that does not read and outlives its client, a client that does
      not read and keeps its session, a file that an open may empty, signals sent
      after the child was waited for, a forwarded connection that comes too
      early, a timeout that goes uncounted, an executor that exits early and hangs the start-up, a doubled slash in a home path, a
      comment sign in a generated path, a request on a started channel, a status
      reported late, a failed log rotation.

    ** Bounds and fuel

    Recursion on data is structural.  Fuel appears where it is not: decimal
    printing takes one more step than the binary logarithm, hexadecimal four
    digits; the read loop of frames takes one more step than the bytes
    available, since a message takes at least four ([Framing.read_loop_ends]);
    the search for a directory one more than the path's length, since a parent
    is shorter ([Sandbox.parent_shorter]).  The turns of a process session and of the
    executor take no fuel: each lowers a weight ([PtySession.turn_lighter],
    [PipedSession.piped_turn_lighter], [Executor.executor_turn_lighter]).  The executor's theorems assume fewer
    than 2^64 requests, which is where its counter would wrap.

    ** What is not modelled

    The byte copying between two streams (copy_bidirectional of the runtime) and
    with it the end of a proxied connection; the lines logged at the level debug,
    those of start-up and those of the executor process; the constants with which
    SFTP answers its first and its unknown requests; unit and integration tests of
    live sockets, processes and the kernel. *)

From Stdlib Require Export ZArith Lia.
From stdpp Require Export base tactics option gmap sets fin_maps strings numbers.
From stdpp Require Export list.

(** ** Results and panics

    A Rust [Result<A, E>] is a value of [result E A]; a computation that may
    panic (an arithmetic overflow check of the standard library, an [expect] on
    a poisoned lock) is a value of [run A].  Both are monads, used through
    stdpp's [x ← m; k] notation, so that [?] reads as a bind. *)

Inductive result (E A : Type) : Type :=
| Ok (a : A)
| Err (e : E).
Arguments Ok {E A} a.
Arguments Err {E A} e.

Inductive run (A : Type) : Type :=
| Ret (a : A)
| Panic (message : string).
Arguments Ret {A} a.
Arguments Panic {A} message.

#[global] Instance result_ret {E} : MRet (result E) := λ A a, Ok a.
#[global] Instance result_bind {E} : MBind (result E) := λ A B k m,
  match m with Ok a => k a | Err e => Err e end.

#[global] Instance run_ret : MRet run := λ A a, Ret a.
#[global] Instance run_bind : MBind run := λ A B k m,
  match m with Ret a => k a | Panic s => Panic s end.

(** [Result::map], and the same on panicking computations. *)
Definition map_ok {E A B} (f : A → B) (r : result E A) : result E B :=
  match r with Ok a => Ok (f a) | Err e => Err e end.
Definition map_run {A B} (f : A → B) (r : run A) : run B :=
  match r with Ret a => Ret (f a) | Panic s => Panic s end.

Definition is_ok {E A} (r : result E A) : bool :=
  match r with Ok _ => true | Err _ => false end.

Definition map_err {E F A} (f : E → F) (r : result E A) : result F A :=
  match r with Ok a => Ok a | Err e => Err (f e) end.

(** [Option::ok_or]. *)
Definition ok_or {E A} (e : E) (o : option A) : result E A :=
  match o with Some a => Ok a | None => Err e end.

(** [Result::ok]. *)
Definition ok {E A} (r : result E A) : option A :=
  match r with Ok a => Some a | Err _ => None end.

#[global] Instance result_eq_dec `{EqDecision E, EqDecision A} : EqDecision (result E A).
Proof. solve_decision. Defined.

Lemma result_bind_Ok {E A B} (m : result E A) (k : A → result E B) b :
  (m ≫= k) = Ok b ↔ ∃ a, m = Ok a ∧ k a = Ok b.
Proof. unfold mbind, result_bind. destruct m; split; [eauto|by intros (?&[= ->]&?)|done|by intros (?&?&?)]. Qed.

Lemma run_bind_Ret {A B} (m : run A) (k : A → run B) b :
  (m ≫= k) = Ret b ↔ ∃ a, m = Ret a ∧ k a = Ret b.
Proof. unfold mbind, run_bind. destruct m; split; [eauto|by intros (?&[= ->]&?)|done|by intros (?&?&?)]. Qed.

Lemma map_err_Ok {E F A} (f : E → F) (r : result E A) a :
  map_err f r = Ok a ↔ r = Ok a.
Proof. destruct r; naive_solver. Qed.

Lemma ok_or_Ok {E A} (e : E) (o : option A) a : ok_or e o = Ok a ↔ o = Some a.
Proof. destruct o; naive_solver. Qed.

(** ** Mutexes

    [std::sync::Mutex]: a panic while the guard is alive poisons the mutex, and
    every later [lock().expect(..)] panics. *)

Inductive mutex (A : Type) : Type :=
| Unpoisoned (a : A)
| Poisoned.
Arguments Unpoisoned {A} a.
Arguments Poisoned {A}.

Definition with_lock {S A} (poisoned : string) (m : mutex S) (body : S → run (S * A))
  : mutex S * run A :=
  match m with
  | Poisoned => (Poisoned, Panic poisoned)
  | Unpoisoned s =>
      match body s with
      | Ret (s', a) => (Unpoisoned s', Ret a)
      | Panic e => (Poisoned, Panic e)
      end
  end.

(** An operation under the lock that returns found and left it healthy. *)
Lemma with_lock_Ret {S A} p (m m' : mutex S) body (a : A) :
  with_lock p m body = (m', Ret a) ↔
  ∃ s s', m = Unpoisoned s ∧ m' = Unpoisoned s' ∧ body s = Ret (s', a).
Proof.
  unfold with_lock. split.
  - destruct m as [s|]; [|done]. destruct (body s) as [[s' a']|e] eqn:E; [|done].
    intros [= <- <-]. eauto.
  - by intros (s & s' & -> & -> & ->).
Qed.

(** ** Automation *)

Create HintDb narrowd.

(** Boolean tests of the code, as the propositions they decide. *)
Ltac bool_to_prop :=
  repeat match goal with
  | H : _ && _ = true |- _ => apply andb_true_iff in H; destruct H
  | H : _ || _ = false |- _ => apply orb_false_iff in H; destruct H
  | H : negb _ = true |- _ => apply negb_true_iff in H
  | H : negb _ = false |- _ => apply negb_false_iff in H
  | H : bool_decide _ = true |- _ => apply bool_decide_eq_true in H
  | H : bool_decide _ = false |- _ => apply bool_decide_eq_false in H
  | H : (_ <? _)%Z = true |- _ => apply Z.ltb_lt in H
  | H : (_ <? _)%Z = false |- _ => apply Z.ltb_ge in H
  | H : (_ <=? _)%Z = true |- _ => apply Z.leb_le in H
  | H : (_ <=? _)%Z = false |- _ => apply Z.leb_gt in H
  | H : (_ =? _)%Z = true |- _ => apply Z.eqb_eq in H
  | H : (_ =? _)%Z = false |- _ => apply Z.eqb_neq in H
  | H : (_ >=? _)%Z = _ |- _ => rewrite Z.geb_leb in H
  | H : (_ >? _)%Z = _ |- _ => rewrite Z.gtb_ltb in H
  | H : (_ <? _)%N = true |- _ => apply N.ltb_lt in H
  | H : (_ <? _)%N = false |- _ => apply N.ltb_ge in H
  | H : (_ <=? _)%N = true |- _ => apply N.leb_le in H
  | H : (_ <=? _)%N = false |- _ => apply N.leb_gt in H
  | H : (_ =? _)%N = true |- _ => apply N.eqb_eq in H
  | H : (_ =? _)%N = false |- _ => apply N.eqb_neq in H
  end.

(** Inversion of monadic hypotheses [m ≫= k = Ok _] and [m ≫= k = Ret _]. *)
Ltac inv_bind :=
  repeat match goal with
  | H : _ ≫= _ = Ok _ |- _ => apply result_bind_Ok in H; destruct H as (? & ? & H)
  | H : _ ≫= _ = Ret _ |- _ => apply run_bind_Ret in H; destruct H as (? & ? & H)
  | H : map_err _ _ = Ok _ |- _ => apply map_err_Ok in H
  | H : ok_or _ _ = Ok _ |- _ => apply ok_or_Ok in H
  | H : mret _ = Ok _ |- _ => unfold mret, result_ret in H
  | H : mret _ = Ret _ |- _ => unfold mret, run_ret in H
  | H : @Ok _ _ _ = Ok _ |- _ => injection H as H; subst
  | H : @Ret _ _ = Ret _ |- _ => injection H as H; subst
  end.

(** Case split on the scrutinee of the first [if] or [match] of a hypothesis
    or the goal, keeping the equation. *)
Ltac split_ifs :=
  repeat match goal with
  | |- context [if ?b then _ else _] => destruct b eqn:?
  | H : context [if ?b then _ else _] |- _ => destruct b eqn:?
  end; bool_to_prop.

(** ** Lists *)

(** Longest prefix satisfying a boolean predicate, and the rest. *)
Fixpoint span {A} (p : A → bool) (l : list A) : list A * list A :=
  match l with
  | [] => ([], [])
  | x :: l' => if p x then let '(a, b) := span p l' in (x :: a, b) else ([], l)
  end.

Definition drop_while {A} (p : A → bool) (l : list A) : list A := (span p l).2.

Lemma span_app {A} (p : A → bool) l : (span p l).1 ++ (span p l).2 = l.
Proof. induction l as [|x l IH]; simpl; [done|]. destruct (p x), (span p l); simpl in *; congruence. Qed.

Lemma span_all {A} (p : A → bool) l : Forall (λ x, p x = true) (span p l).1.
Proof.
  induction l as [|x l IH]; simpl; [constructor|].
  destruct (p x) eqn:E, (span p l); simpl in *; by constructor.
Qed.

Lemma span_prefix {A} (p : A → bool) l1 l2 :
  Forall (λ x, p x = true) l1 →
  match l2 with [] => True | y :: _ => p y = false end →
  span p (l1 ++ l2) = (l1, l2).
Proof.
  intros H1 H2. induction H1 as [|x l1 Hx H1 IH]; simpl.
  - destruct l2 as [|y l2]; simpl; [done|by rewrite H2].
  - by rewrite Hx, IH.
Qed.

Lemma drop_while_head {A} (p : A → bool) l x l' : drop_while p l = x :: l' → p x = false.
Proof.
  unfold drop_while. induction l as [|y l IH]; simpl; [done|].
  destruct (p y) eqn:E; [destruct (span p l); simpl in *; auto|].
  simpl. intros [= -> ->]. done.
Qed.

Lemma drop_while_suffix {A} (p : A → bool) l : ∃ k, l = k ++ drop_while p l.
Proof. exists (span p l).1. unfold drop_while. by rewrite span_app. Qed.

(** Number of occurrences, in [Z]. *)
Definition countZ {A} (p : A → bool) (l : list A) : Z := Z.of_nat (length (List.filter p l)).

Section CountZ.
Context {A : Type}.
Implicit Types (p : A → bool) (l : list A).
Local Open Scope Z_scope.

Lemma countZ_nil p : countZ p [] = 0.
Proof. done. Qed.

Lemma countZ_cons p x l : countZ p (x :: l) = (if p x then 1 else 0) + countZ p l.
Proof. unfold countZ. simpl. destruct (p x); simpl length; lia. Qed.

Lemma countZ_nonneg p l : 0 ≤ countZ p l.
Proof. unfold countZ. lia. Qed.

Lemma countZ_app p l1 l2 : countZ p (l1 ++ l2) = countZ p l1 + countZ p l2.
Proof. unfold countZ. rewrite List.filter_app, length_app. lia. Qed.

Lemma countZ_le_length p l : countZ p l ≤ Z.of_nat (length l).
Proof. induction l; [done|]. rewrite countZ_cons. simpl length. destruct (p a); lia. Qed.

Lemma countZ_pos p l : 0 < countZ p l ↔ ∃ x, x ∈ l ∧ p x = true.
Proof.
  induction l as [|x l IH].
  - rewrite countZ_nil. split; [lia|]. intros (x & Hx & _). by apply not_elem_of_nil in Hx.
  - rewrite countZ_cons. pose proof (countZ_nonneg p l).
    setoid_rewrite elem_of_cons. destruct (p x) eqn:E.
    + split; [|lia]. intros _. exists x. auto.
    + rewrite Z.add_0_l, IH. split; intros (y & Hy & Hp); exists y; [auto|].
      destruct Hy as [->|]; [congruence|auto].
Qed.

Lemma countZ_perm p l1 l2 : l1 ≡ₚ l2 → countZ p l1 = countZ p l2.
Proof. induction 1; rewrite ?countZ_cons in *; lia. Qed.
End CountZ.

(** ** Finite maps *)

(** [HashMap::retain] with a closure that updates the value and decides whether
    it is kept ([Some]) or dropped ([None]), and that may panic. *)
Definition map_retain `{Countable K} {V} (f : V → run (option V)) (m : gmap K V)
  : run (gmap K V) :=
  map_fold (λ k v acc,
    m' ← acc; r ← f v;
    mret (match r with Some v' => <[k:=v']> m' | None => m' end)) (mret ∅) m.

Definition run_or_none {V} (r : run (option V)) : option V :=
  match r with Ret o => o | Panic _ => None end.

Section MapRetain.
Context `{Countable K} {V : Type} (f : V → run (option V)).

(** When it returns, the closure returned on every entry and the result is
    the pointwise image. *)
Lemma map_retain_Ret (m m' : gmap K V) :
  map_retain f m = Ret m' →
  (∀ k v, m !! k = Some v → ∃ o, f v = Ret o) ∧
  (∀ k, m' !! k = m !! k ≫= λ v, run_or_none (f v)).
Proof.
  revert m'. unfold map_retain.
  apply (map_fold_weak_ind (λ (acc : run (gmap K V)) (m : gmap K V), ∀ m', acc = Ret m' →
    (∀ k v, m !! k = Some v → ∃ o, f v = Ret o) ∧
    (∀ k, m' !! k = m !! k ≫= λ v, run_or_none (f v)))).
  - intros m' [= <-]. split; intros k; [intros v|]; rewrite !lookup_empty; done.
  - intros k v m1 acc Hk IH m' Hacc.
    destruct acc as [m1'|]; [|done]. destruct (IH m1' eq_refl) as [Hret Hlook].
    unfold mbind, run_bind in Hacc. destruct (f v) as [o|] eqn:Hf; [|done].
    injection Hacc as <-. split.
    + intros k' v0. rewrite lookup_insert. case_decide; naive_solver.
    + intros k'. rewrite lookup_insert. destruct (decide (k = k')) as [<-|Hne].
      * simpl. rewrite Hf. simpl.
        destruct o; [by rewrite lookup_insert_eq|by rewrite Hlook, Hk].
      * destruct o; [rewrite lookup_insert_ne by done|]; apply Hlook.
Qed.

(** It returns when the closure does. *)
Lemma map_retain_total (m : gmap K V) :
  (∀ k v, m !! k = Some v → ∃ o, f v = Ret o) → ∃ m', map_retain f m = Ret m'.
Proof.
  unfold map_retain.
  apply (map_fold_weak_ind
    (λ (acc : run (gmap K V)) m, (∀ k v, m !! k = Some v → ∃ o, f v = Ret o) → ∃ m', acc = Ret m')).
  - by eexists.
  - intros k v m1 acc Hk IH Hf.
    destruct IH as [m1' ->].
    { intros k' v' Hk'. apply (Hf k'). rewrite lookup_insert_ne; [done|congruence]. }
    destruct (Hf k v) as [o ->]; [by rewrite lookup_insert_eq|]. by eexists.
Qed.
End MapRetain.
