(* ===== verification/Rust.v ===== *)
(** * The parts of Rust's standard library the daemon uses

    Machine integers at their width, [Duration] and [Instant], strings as
    sequences of Unicode scalar values with the [str] methods of the code,
    integer parsing and printing, and the error types ([std::io::Error],
    [anyhow::Error] as its chain of causes). *)

From S2P Require Import Prelude.

Local Open Scope Z_scope.

(** ** Machine integers *)

Definition u8_max : Z := 255.
Definition u16_max : Z := 65535.
Definition u32_max : Z := 4294967295.
Definition u64_max : Z := 18446744073709551615.
(** The supported targets (x86_64, aarch64, riscv64) are 64-bit. *)
Definition usize_max : Z := u64_max.

(** Wrapping addition of a type whose largest value is [max]: what [+=] and
    [fetch_add] do in a release build. *)
Definition wrapping_add (max a b : Z) : Z := (a + b) mod (max + 1).
Definition saturating_add (max a b : Z) : Z := Z.min (a + b) max.
Definition saturating_sub (a b : Z) : Z := Z.max 0 (a - b).
Definition saturating_mul (max a b : Z) : Z := Z.min (a * b) max.
Definition checked_mul (max a b : Z) : option Z := if a * b <=? max then Some (a * b) else None.
(** [uN::try_from]. *)
Definition try_from (max a : Z) : option Z := if (0 <=? a) && (a <=? max) then Some a else None.

Lemma wrapping_add_small max a b : 0 ≤ a + b ≤ max → wrapping_add max a b = a + b.
Proof. intros. unfold wrapping_add. apply Z.mod_small. lia. Qed.

Lemma wrapping_add_range max a b : 0 ≤ max → 0 ≤ wrapping_add max a b ≤ max.
Proof. intros. unfold wrapping_add. pose proof (Z.mod_pos_bound (a + b) (max + 1)). lia. Qed.

Lemma try_from_Some max a b : try_from max a = Some b ↔ b = a ∧ 0 ≤ a ≤ max.
Proof.
  unfold try_from. destruct (_ && _) eqn:E; bool_to_prop; [naive_solver lia|].
  apply andb_false_iff in E. rewrite !Z.leb_gt in E. naive_solver lia.
Qed.

(** ** Time

    A [Duration] is a number of nanoseconds, at most [u64::MAX] seconds and
    999999999 nanoseconds.  An [Instant] of a Unix target is a [timespec] with
    a signed 64-bit number of seconds; adding or subtracting a [Duration]
    panics when the seconds leave that range. *)

Abbreviation Duration := Z (only parsing).
Abbreviation Instant := Z (only parsing).

Definition NANOS_PER_SEC : Z := 1000000000.
Definition duration_max : Duration := u64_max * NANOS_PER_SEC + 999999999.
Definition instant_max : Instant := (2 ^ 63 - 1) * NANOS_PER_SEC + 999999999.
Definition instant_min : Instant := - 2 ^ 63 * NANOS_PER_SEC.

Definition from_secs (s : Z) : Duration := s * NANOS_PER_SEC.
Definition from_millis (ms : Z) : Duration := ms * 1000000.
Definition as_millis (d : Duration) : Z := d / 1000000.
Definition duration_saturating_mul (d : Duration) (k : Z) : Duration :=
  saturating_mul duration_max d k.

Definition instant_add (t : Instant) (d : Duration) : run Instant :=
  if t + d <=? instant_max then Ret (t + d)
  else Panic "overflow when adding duration to instant".

Definition instant_sub (t : Instant) (d : Duration) : run Instant :=
  if instant_min <=? t - d then Ret (t - d)
  else Panic "overflow when subtracting duration from instant".

(** [Instant::duration_since] and [saturating_duration_since] agree: an
    earlier [t] gives the zero duration. *)
Definition duration_since (t earlier : Instant) : Duration := Z.max 0 (t - earlier).

Definition valid_duration (d : Duration) : Prop := 0 ≤ d ≤ duration_max.
Definition valid_instant (t : Instant) : Prop := instant_min ≤ t ≤ instant_max.

Lemma instant_add_Ret t d t' : instant_add t d = Ret t' ↔ t' = t + d ∧ t + d ≤ instant_max.
Proof. unfold instant_add. destruct (_ <=? _) eqn:E; bool_to_prop; naive_solver lia. Qed.

Lemma instant_sub_Ret t d t' : instant_sub t d = Ret t' ↔ t' = t - d ∧ instant_min ≤ t - d.
Proof. unfold instant_sub. destruct (_ <=? _) eqn:E; bool_to_prop; naive_solver lia. Qed.

(** ** Strings

    A [char] is a Unicode scalar value and a [str] the list of its chars.
    [lit] turns an ASCII literal into a [str]. *)

Abbreviation char := N (only parsing).
Abbreviation str := (list N) (only parsing).

Fixpoint lit (s : string) : str :=
  match s with
  | EmptyString => []
  | String c s' => Ascii.N_of_ascii c :: lit s'
  end.
Arguments lit _%_string_scope.

(** [char::is_whitespace]: the Unicode property White_Space. *)
Definition is_whitespace (c : char) : bool :=
  ((9 <=? c) && (c <=? 13) || (c =? 32) || (c =? 133) || (c =? 160) || (c =? 5760)
   || (8192 <=? c) && (c <=? 8202) || (c =? 8232) || (c =? 8233) || (c =? 8239)
   || (c =? 8287) || (c =? 12288))%N.

Definition is_ascii_digit (c : char) : bool := ((48 <=? c) && (c <=? 57))%N.

Definition ascii_lower (c : char) : char :=
  if ((65 <=? c) && (c <=? 90))%N then (c + 32)%N else c.
Definition to_ascii_lowercase (s : str) : str := map ascii_lower s.

Definition trim_start (s : str) : str := drop_while is_whitespace s.
Definition trim_end (s : str) : str := reverse (drop_while is_whitespace (reverse s)).
Definition trim (s : str) : str := trim_end (trim_start s).

(** [str::split] on a char predicate: always at least one piece. *)
Fixpoint split_by (p : char → bool) (s : str) : list str :=
  match s with
  | [] => [[]]
  | c :: s' =>
      if p c then [] :: split_by p s'
      else match split_by p s' with
           | [] => [[c]]
           | w :: ws => (c :: w) :: ws
           end
  end.

Definition split_whitespace (s : str) : list str :=
  List.filter (λ w, negb (bool_decide (w = []))) (split_by is_whitespace s).

(** [str::lines]: pieces ended by a newline, with one carriage return before
    it dropped; text after the last newline is a line unless it is empty. *)
Definition strip_cr (s : str) : str :=
  match reverse s with
  | c :: r => if (c =? 13)%N then reverse r else s
  | [] => s
  end.

Fixpoint lines_go (pieces : list str) : list str :=
  match pieces with
  | [] => []
  | [w] => if bool_decide (w = []) then [] else [w]
  | w :: ws => strip_cr w :: lines_go ws
  end.

Definition lines (s : str) : list str := lines_go (split_by (λ c, (c =? 10)%N) s).

(** [[T]::join] for strings. *)
Fixpoint join_with (sep : str) (ws : list str) : str :=
  match ws with
  | [] => []
  | [w] => w
  | w :: ws' => w ++ sep ++ join_with sep ws'
  end.

Fixpoint starts_with (pre s : str) : bool :=
  match pre, s with
  | [], _ => true
  | _ :: _, [] => false
  | a :: pre', b :: s' => (a =? b)%N && starts_with pre' s'
  end.

(** [str::contains] for a string pattern. *)
Fixpoint contains (pat s : str) : bool :=
  starts_with pat s || match s with [] => false | _ :: s' => contains pat s' end.

Lemma join_with_cons sep w w' ws :
  join_with sep (w :: w' :: ws) = w ++ sep ++ join_with sep (w' :: ws).
Proof. done. Qed.

Section SplitJoin.
Context (p : char → bool).

Lemma split_by_prefix w c s :
  Forall (λ x, p x = false) w → p c = true → split_by p (w ++ c :: s) = w :: split_by p s.
Proof.
  induction 1 as [|x w Hx Hw IH]; intros Hc; cbn; [by rewrite Hc|].
  by rewrite Hx, IH.
Qed.

Lemma split_by_none w : Forall (λ x, p x = false) w → split_by p w = [w].
Proof. induction 1 as [|x w Hx Hw IH]; cbn; [done|]. by rewrite Hx, IH. Qed.

(** Joining pieces that contain no separator is undone by splitting. *)
Lemma split_by_join sep ws :
  p sep = true → ws ≠ [] → Forall (Forall (λ x, p x = false)) ws →
  split_by p (join_with [sep] ws) = ws.
Proof.
  intros Hsep Hne H. induction H as [|w ws Hw Hws IH]; [done|].
  destruct ws as [|w' ws]; [by apply split_by_none|].
  rewrite join_with_cons. cbn [app]. by rewrite split_by_prefix, IH.
Qed.

(** The pieces contain no separator. *)
Lemma split_by_pieces s : Forall (Forall (λ x, p x = false)) (split_by p s).
Proof.
  induction s as [|c s IH]; cbn; [by repeat constructor|].
  destruct (p c) eqn:Hc; [by repeat constructor|].
  destruct (split_by p s) as [|w ws]; [by repeat constructor|].
  apply Forall_cons_1 in IH as [Hw Hws]. by repeat constructor.
Qed.
End SplitJoin.

(** ** Integer parsing and printing *)

Inductive IntErrorKind := Empty | InvalidDigit | PosOverflow.

Definition int_error_message (e : IntErrorKind) : str :=
  match e with
  | Empty => lit "cannot parse integer from empty string"
  | InvalidDigit => lit "invalid digit found in string"
  | PosOverflow => lit "number too large to fit in target type"
  end.

(** The digit loop of [uN::from_str_radix(_, 10)] for a type with largest
    value [max]: at each char the digit test comes before the overflow test. *)
Fixpoint parse_digits (max : Z) (acc : Z) (s : str) : result IntErrorKind Z :=
  match s with
  | [] => Ok acc
  | c :: s' =>
      if is_ascii_digit c then
        if acc * 10 <=? max then
          if acc * 10 + (Z.of_N c - 48) <=? max
          then parse_digits max (acc * 10 + (Z.of_N c - 48)) s'
          else Err PosOverflow
        else Err PosOverflow
      else Err InvalidDigit
  end.

(** [str::parse::<uN>()]: a leading [+] is accepted, a lone sign is not. *)
Definition parse_uint (max : Z) (s : str) : result IntErrorKind Z :=
  match s with
  | [] => Err Empty
  | c :: s' =>
      if (c =? 43)%N
      then match s' with [] => Err InvalidDigit | _ => parse_digits max 0 s' end
      else parse_digits max 0 s
  end.

(** Decimal rendering ([Display] of the unsigned integers). *)
Fixpoint dec_go (fuel : nat) (n : Z) (acc : str) : str :=
  match fuel with
  | O => acc
  | S fuel' =>
      let acc' := (48 + Z.to_N (n mod 10))%N :: acc in
      if n <? 10 then acc' else dec_go fuel' (n / 10) acc'
  end.

(** Twenty digits are enough for a 64-bit value. *)
Definition dec (n : Z) : str := dec_go (S (Z.to_nat (Z.log2 n))) n [].

(** Parsing never leaves the range of the type, and printing is parsed back. *)

Lemma parse_digits_range max acc s v :
  0 ≤ acc ≤ max → parse_digits max acc s = Ok v → 0 ≤ v ≤ max.
Proof.
  revert acc. induction s as [|c s IH]; intros acc Hacc; simpl; [intros [= <-]; done|].
  intros H. unfold is_ascii_digit in H. split_ifs; try done. eapply IH; [|done]. lia.
Qed.

Lemma parse_uint_range max s v : 0 ≤ max → parse_uint max s = Ok v → 0 ≤ v ≤ max.
Proof.
  unfold parse_uint. intros Hmax H. repeat case_match; try done;
    by (eapply parse_digits_range; [|done]; lia).
Qed.

Lemma parse_uint_digits max c s :
  is_ascii_digit c = true → parse_uint max (c :: s) = parse_digits max 0 (c :: s).
Proof.
  unfold parse_uint, is_ascii_digit. intros H. bool_to_prop.
  by rewrite (proj2 (N.eqb_neq c 43)) by lia.
Qed.

Lemma dec_go_digits fuel n acc :
  0 ≤ n → Forall (λ c, is_ascii_digit c = true) acc →
  Forall (λ c, is_ascii_digit c = true) (dec_go fuel n acc).
Proof.
  revert n acc. induction fuel as [|fuel IH]; intros n acc Hn Hacc; simpl; [done|].
  assert (is_ascii_digit (48 + Z.to_N (n mod 10))%N = true).
  { unfold is_ascii_digit. pose proof (Z.mod_pos_bound n 10).
    apply andb_true_iff. rewrite !N.leb_le. lia. }
  case_match; [by constructor|]. apply IH; [apply Z.div_pos; lia|by constructor].
Qed.

Lemma dec_digits n : 0 ≤ n → Forall (λ c, is_ascii_digit c = true) (dec n).
Proof. intros. by apply dec_go_digits. Qed.

Lemma dec_go_length fuel n acc : (length acc ≤ length (dec_go fuel n acc))%nat.
Proof.
  revert n acc. induction fuel as [|fuel IH]; intros n acc; simpl; [done|].
  case_match; [simpl; lia|]. etrans; [|apply IH]. simpl. lia.
Qed.

Lemma dec_cons n : 0 ≤ n → ∃ c s, dec n = c :: s ∧ is_ascii_digit c = true.
Proof.
  intros Hn. pose proof (dec_digits n Hn) as Hd. unfold dec in *.
  assert (0 < length (dec_go (S (Z.to_nat (Z.log2 n))) n []))%nat as Hlen.
  { simpl. case_match; [simpl; lia|].
    eapply Nat.lt_le_trans; [|apply dec_go_length]. simpl. lia. }
  destruct (dec_go _ n []) as [|c s]; [simpl in *; lia|].
  inversion Hd; eauto.
Qed.

Lemma parse_digits_dec_go max fuel n acc :
  0 ≤ n ≤ max → n < 10 ^ Z.of_nat fuel → (0 < fuel)%nat →
  parse_digits max 0 (dec_go fuel n acc) = parse_digits max n acc.
Proof.
  revert n acc. induction fuel as [|fuel IH]; intros n acc Hn Hf Hpos; [lia|]. cbn [dec_go].
  pose proof (Z.mod_pos_bound n 10) as Hm. pose proof (Z.div_mod n 10) as Hdm.
  assert (is_ascii_digit (48 + Z.to_N (n mod 10))%N = true) as Hd.
  { unfold is_ascii_digit. apply andb_true_iff. rewrite !N.leb_le. lia. }
  assert (Hstep : ∀ a, a * 10 + n mod 10 = n → 0 ≤ a →
    parse_digits max a ((48 + Z.to_N (n mod 10))%N :: acc) = parse_digits max n acc).
  { intros a Ha Ha0. cbn [parse_digits]. rewrite Hd.
    rewrite N2Z.inj_add, Z2N.id by lia.
    replace (a * 10 + (Z.of_N 48 + n mod 10 - 48)) with n by lia.
    by rewrite !(proj2 (Z.leb_le _ _)) by lia. }
  case_match; bool_to_prop.
  - rewrite <- (Hstep 0) by (rewrite ?Z.mod_small; lia). done.
  - destruct fuel as [|fuel]; [simpl in Hf; lia|].
    rewrite Nat2Z.inj_succ, Z.pow_succ_r in Hf by lia.
    rewrite IH; [apply Hstep| | |lia]; [lia|apply Z.div_pos; lia| |].
    + split; [apply Z.div_pos; lia|]. etrans; [|apply Hn]. apply Z.div_le_upper_bound; lia.
    + apply Z.div_lt_upper_bound; lia.
Qed.

Lemma dec_fuel n : 0 ≤ n → n < 10 ^ Z.of_nat (S (Z.to_nat (Z.log2 n))).
Proof.
  intros Hn. rewrite Nat2Z.inj_succ, Z2Nat.id by apply Z.log2_nonneg.
  destruct (decide (n = 0)) as [->|Hn0]; [done|].
  pose proof (Z.log2_spec n ltac:(lia)) as [_ Hlog]. pose proof (Z.log2_nonneg n).
  eapply Z.lt_le_trans; [exact Hlog|]. apply Z.pow_le_mono_l. lia.
Qed.

Lemma parse_digits_dec max n s :
  0 ≤ n ≤ max → parse_digits max 0 (dec n ++ s) = parse_digits max n s.
Proof.
  intros Hn. assert (Happ : ∀ fuel m acc, dec_go fuel m acc ++ s = dec_go fuel m (acc ++ s)).
  { induction fuel as [|fuel IH]; intros m acc; simpl; [done|]. case_match; [done|apply IH]. }
  unfold dec. rewrite Happ. apply parse_digits_dec_go; [lia|apply dec_fuel; lia|lia].
Qed.

Lemma parse_uint_dec max n : 0 ≤ n ≤ max → parse_uint max (dec n) = Ok n.
Proof.
  intros Hn. destruct (dec_cons n) as (c & s & Heq & Hc); [lia|].
  rewrite Heq, parse_uint_digits, <- Heq by done.
  rewrite <- (app_nil_r (dec n)). by rewrite parse_digits_dec.
Qed.

#[export] Hint Resolve parse_uint_range parse_uint_dec : narrowd.

(** ** Errors *)

Inductive ErrorKind :=
| NotFound | PermissionDenied | AlreadyExists | UnexpectedEof | TimedOut | Interrupted
| OtherKind.

#[global] Instance ErrorKind_eq_dec : EqDecision ErrorKind.
Proof. solve_decision. Defined.

Record io_error := IoError { kind : ErrorKind; io_message : str }.

#[global] Instance io_error_eq_dec : EqDecision io_error.
Proof. solve_decision. Defined.

(** The variants of [russh::Error] the daemon names; every other one is
    [RusshOther]. *)
Inductive russh_error :=
| Version | PacketAuth | PacketSize (n : Z) | DecryptionError | StrictKeyExchangeViolation
| SshEncoding | Inconsistent | KexInit | RusshOther (message : str).

(** An [anyhow::Error] as its chain, outermost cause first. *)
Inductive cause :=
| Msg (m : str)
| IoCause (e : io_error)
| RusshCause (e : russh_error).

Abbreviation anyhow := (list cause) (only parsing).

(** [bail!] and [anyhow!]. *)
Definition bail {A} (m : str) : result anyhow A := Err [Msg m].
(** [.with_context(..)]. *)
Definition with_context {A} (m : str) (r : result anyhow A) : result anyhow A :=
  map_err (cons (Msg m)) r.
(** [?] on an [io::Result] inside a function returning [anyhow::Result]. *)
Definition io_result {A} (r : result io_error A) : result anyhow A :=
  map_err (λ e, [IoCause e]) r.
Definition int_result {A} (r : result IntErrorKind A) : result anyhow A :=
  map_err (λ e, [Msg (int_error_message e)]) r.

Lemma with_context_Ok {A} m (r : result anyhow A) a : with_context m r = Ok a ↔ r = Ok a.
Proof. apply map_err_Ok. Qed.

(** [format!("{err:#}")]: the causes, joined.  No error of the SSH library
    reaches a place that prints one this way. *)
Definition cause_text (c : cause) : str :=
  match c with
  | Msg m => m
  | IoCause e => io_message e
  | RusshCause _ => lit "SSH error"
  end.
Definition error_text (e : anyhow) : str := join_with (lit ": ") (map cause_text e).
