(* ===== verification/Float64.v ===== *)
(** * IEEE-754 binary64 arithmetic, as [f64] computes it

    The token bucket of the admission controller keeps its tokens in an [f64].
    The operations are the standard library's specification of binary64
    ([SpecFloat] at precision 53 and exponent bound 1024), which computes, so
    rounding is modelled exactly.  The lemmas say what the bucket relies on:
    converting an unsigned integer never yields NaN, [min] bounds its result,
    and the integers below 2^53 are represented, compared and decremented
    exactly. *)

From S2P Require Import Prelude Rust.
From Stdlib Require Import SpecFloat.

Local Open Scope Z_scope.

Abbreviation f64 := spec_float (only parsing).

Definition f64_prec : Z := 53.
Definition f64_emax : Z := 1024.

Definition f64_add : f64 → f64 → f64 := SFadd f64_prec f64_emax.
Definition f64_sub : f64 → f64 → f64 := SFsub f64_prec f64_emax.
Definition f64_mul : f64 → f64 → f64 := SFmul f64_prec f64_emax.
Definition f64_div : f64 → f64 → f64 := SFdiv f64_prec f64_emax.
#[global] Instance spec_float_eq_dec : EqDecision spec_float.
Proof. solve_decision. Defined.

(** [a >= b]: false when either is NaN. *)
Definition f64_ge (a b : f64) : bool := SFleb b a.

(** [f64::min]: if one argument is NaN, the other one. *)
Definition f64_min (a b : f64) : f64 :=
  match a, b with
  | S754_nan, _ => b
  | _, S754_nan => a
  | _, _ => if SFltb b a then b else a
  end.

(** [n as f64] for an unsigned integer: round to nearest, ties to even. *)
Definition f64_of_Z (n : Z) : f64 := binary_normalize f64_prec f64_emax n 0 false.

Definition f64_one : f64 := f64_of_Z 1.
Definition f64_sixty : f64 := f64_of_Z 60.

(** [Duration::as_secs_f64]. *)
Definition as_secs_f64 (d : Duration) : f64 :=
  f64_add (f64_of_Z (d / NANOS_PER_SEC))
          (f64_div (f64_of_Z (d mod NANOS_PER_SEC)) (f64_of_Z NANOS_PER_SEC)).

(** ** Conversion from unsigned integers *)

(** Zero of either sign, positive finite, or positive infinity; not NaN. *)
Definition f64_nonneg (x : f64) : bool :=
  match x with
  | S754_zero _ => true
  | S754_infinity s => negb s
  | S754_finite s _ _ => negb s
  | S754_nan => false
  end.

Section Rounding.
Implicit Types (r : shr_record).

Lemma shr_1_nonneg r : 0 ≤ shr_m r → 0 ≤ shr_m (shr_1 r).
Proof. destruct r as [[|[p|p|]|[p|p|]] b s]; simpl; lia. Qed.

Lemma iter_shr_1_nonneg p r : 0 ≤ shr_m r → 0 ≤ shr_m (iter_pos shr_1 p r).
Proof. revert r. induction p; simpl; auto using shr_1_nonneg. Qed.

Lemma shr_nonneg r e n : 0 ≤ shr_m r → 0 ≤ shr_m (shr r e n).1.
Proof. destruct n; simpl; auto using iter_shr_1_nonneg. Qed.

Lemma shr_record_of_loc_m m l : shr_m (shr_record_of_loc m l) = m.
Proof. by destruct l as [|[]]. Qed.

Lemma shr_fexp_nonneg m e l : 0 ≤ m → 0 ≤ shr_m (shr_fexp f64_prec f64_emax m e l).1.
Proof. intros. unfold shr_fexp. apply shr_nonneg. by rewrite shr_record_of_loc_m. Qed.

Lemma round_nearest_even_nonneg m l : 0 ≤ m → 0 ≤ round_nearest_even m l.
Proof. intros. destruct l as [|[]]; simpl; try case_match; lia. Qed.

(** Rounding a non-negative magnitude with a positive sign stays
    non-negative, and never produces NaN. *)
Lemma binary_round_aux_nonneg m e l :
  0 ≤ m → f64_nonneg (binary_round_aux f64_prec f64_emax false m e l) = true.
Proof.
  intros Hm. unfold binary_round_aux.
  pose proof (shr_fexp_nonneg m e l Hm) as H1.
  destruct (shr_fexp _ _ m e l) as [r1 e1]; simpl in H1.
  match goal with |- context [shr_fexp _ _ ?m2 e1 loc_Exact] =>
    pose proof (shr_fexp_nonneg m2 e1 loc_Exact) as H2 end.
  destruct (shr_fexp _ _ _ e1 loc_Exact) as [r2 e2]; simpl in H2.
  specialize (H2 ltac:(by apply round_nearest_even_nonneg)).
  destruct (shr_m r2); [done| |lia]. by case_match.
Qed.

Lemma binary_normalize_nonneg m e :
  0 ≤ m → f64_nonneg (binary_normalize f64_prec f64_emax m e false) = true.
Proof.
  intros Hm. destruct m; [done| |lia]. unfold binary_normalize, binary_round.
  destruct (shl_align _ _ _). by apply binary_round_aux_nonneg.
Qed.
End Rounding.

Lemma f64_of_Z_nonneg n : 0 ≤ n → f64_nonneg (f64_of_Z n) = true.
Proof. apply binary_normalize_nonneg. Qed.

Lemma f64_of_Z_not_nan n : 0 ≤ n → f64_of_Z n ≠ S754_nan.
Proof. intros Hn Heq. pose proof (f64_of_Z_nonneg n Hn) as H. by rewrite Heq in H. Qed.

(** ** [min] *)

Lemma SFcompare_antisym x y c : SFcompare x y = Some c → SFcompare y x = Some (CompOpp c).
Proof.
  destruct x as [[]|[]| |[] mx ex], y as [[]|[]| |[] my ey]; simpl; try (by intros [= <-]).
  all: intros [= <-]; change (Pos.compare_cont Eq) with Pos.compare;
    rewrite (Z.compare_antisym ex ey), (Pos.compare_antisym mx my);
    destruct (ex ?= ey)%Z; simpl; rewrite ?CompOpp_involutive; done.
Qed.

Lemma SFcompare_refl x : x ≠ S754_nan → SFcompare x x = Some Eq.
Proof.
  destruct x as [[]|[]| |[] m e]; try done; intros _; simpl; rewrite Z.compare_refl;
    by rewrite (Pos.compare_refl m : Pos.compare_cont Eq m m = Eq).
Qed.

Lemma SFcompare_Some x y : x ≠ S754_nan → y ≠ S754_nan → ∃ c, SFcompare x y = Some c.
Proof. destruct x, y; simpl; eauto; done. Qed.

Lemma f64_min_unfold x y :
  x ≠ S754_nan → y ≠ S754_nan → f64_min x y = if SFltb y x then y else x.
Proof. by destruct x, y. Qed.

(** The result is at most the bound, whatever is compared with it. *)
Lemma f64_min_le_r x b : b ≠ S754_nan → SFleb (f64_min x b) b = true.
Proof.
  intros Hb. destruct (decide (x = S754_nan)) as [->|Hx].
  { unfold SFleb. simpl. by rewrite SFcompare_refl. }
  rewrite f64_min_unfold by done. unfold SFltb, SFleb.
  destruct (SFcompare_Some b x Hb Hx) as [[] E]; rewrite E.
  - by rewrite (SFcompare_antisym _ _ _ E).
  - by rewrite SFcompare_refl.
  - by rewrite (SFcompare_antisym _ _ _ E).
Qed.

(** ** Exact integers

    [f64_int n] is the binary64 value of an integer below 2^53: the mantissa
    scaled to 53 bits. *)

Definition f64_int (n : Z) : f64 :=
  if n =? 0 then S754_zero false
  else S754_finite false (Z.to_pos (n * 2 ^ (52 - Z.log2 n))) (Z.log2 n - 52).

Lemma digits2_pos_log2 p : Z.pos (digits2_pos p) = Z.log2 (Z.pos p) + 1.
Proof.
  induction p as [p IH|p IH|]; [| |done].
  - rewrite (Pos2Z.inj_xI p), Z.log2_succ_double by lia. cbn [digits2_pos]. lia.
  - rewrite (Pos2Z.inj_xO p), Z.log2_double by lia. cbn [digits2_pos]. lia.
Qed.

Lemma shr_1_double m : 0 ≤ m →
  shr_1 {| shr_m := 2 * m; shr_r := false; shr_s := false |}
  = {| shr_m := m; shr_r := false; shr_s := false |}.
Proof. destruct m; [done|done|lia]. Qed.

Lemma iter_shr_exact p m : 0 ≤ m →
  iter_pos shr_1 p {| shr_m := m * 2 ^ Z.pos p; shr_r := false; shr_s := false |}
  = {| shr_m := m; shr_r := false; shr_s := false |}.
Proof.
  revert m. induction p as [p IH|p IH|]; intros m Hm; cbn [iter_pos].
  - replace (m * 2 ^ Z.pos p~1) with (2 * (m * 2 ^ Z.pos p * 2 ^ Z.pos p)).
    + rewrite shr_1_double, !IH; auto; nia.
    + replace (Z.pos p~1) with (Z.pos p + Z.pos p + 1) by lia.
      rewrite !Z.pow_add_r by lia. lia.
  - replace (m * 2 ^ Z.pos p~0) with (m * 2 ^ Z.pos p * 2 ^ Z.pos p).
    + rewrite !IH; auto; nia.
    + replace (Z.pos p~0) with (Z.pos p + Z.pos p) by lia. rewrite !Z.pow_add_r by lia. lia.
  - rewrite Z.pow_1_r, Z.mul_comm. by apply shr_1_double.
Qed.

Lemma shr_exact m e t : 0 ≤ m → 0 ≤ t →
  shr {| shr_m := m * 2 ^ t; shr_r := false; shr_s := false |} e t
  = ({| shr_m := m; shr_r := false; shr_s := false |}, e + t).
Proof.
  intros Hm Ht. destruct t as [|t|t]; simpl; [|by rewrite iter_shr_exact|lia].
  by rewrite Z.mul_1_r, Z.add_0_r.
Qed.

Lemma Zdigits2_log2 m : 0 < m → Zdigits2 m = Z.log2 m + 1.
Proof. destruct m; try lia. intros _. simpl Zdigits2. apply digits2_pos_log2. Qed.

Lemma fexp_int e : -52 ≤ e → fexp f64_prec f64_emax (e + 53) = e.
Proof. intros. unfold fexp, emin, f64_prec, f64_emax. lia. Qed.

(** Rounding an exact multiple of a 53-bit mantissa gives that mantissa back. *)
Lemma binary_round_aux_exact n t :
  0 < n < 2 ^ 53 → 0 ≤ t →
  binary_round_aux f64_prec f64_emax false
    (n * 2 ^ (52 - Z.log2 n) * 2 ^ t) (Z.log2 n - 52 - t) loc_Exact
  = S754_finite false (Z.to_pos (n * 2 ^ (52 - Z.log2 n))) (Z.log2 n - 52).
Proof.
  intros Hn Ht. pose proof (Z.log2_nonneg n) as Hl0.
  assert (Z.log2 n < 53) as Hl1 by (apply Z.log2_lt_pow2; lia).
  set (M := n * 2 ^ (52 - Z.log2 n)).
  assert (0 < M) as HM by (unfold M; pose proof (Z.pow_pos_nonneg 2 (52 - Z.log2 n)); nia).
  assert (Z.log2 M = 52) as HlM by (unfold M; rewrite Z.log2_mul_pow2; lia).
  assert (Z.log2 (M * 2 ^ t) = 52 + t) as HlMt by (rewrite Z.log2_mul_pow2; lia).
  assert (0 < M * 2 ^ t) as HMt by (pose proof (Z.pow_pos_nonneg 2 t); nia).
  assert (Hfirst : shr_fexp f64_prec f64_emax (M * 2 ^ t) (Z.log2 n - 52 - t) loc_Exact
    = ({| shr_m := M; shr_r := false; shr_s := false |}, Z.log2 n - 52)).
  { unfold shr_fexp. rewrite Zdigits2_log2, HlMt by done.
    replace (52 + t + 1 + (Z.log2 n - 52 - t)) with (Z.log2 n - 52 + 53) by lia.
    rewrite fexp_int by lia. simpl shr_record_of_loc.
    replace (Z.log2 n - 52 - (Z.log2 n - 52 - t)) with t by lia.
    rewrite shr_exact by lia. f_equal. lia. }
  assert (Hsecond : shr_fexp f64_prec f64_emax M (Z.log2 n - 52) loc_Exact
    = ({| shr_m := M; shr_r := false; shr_s := false |}, Z.log2 n - 52)).
  { unfold shr_fexp. rewrite Zdigits2_log2, HlM by done.
    replace (52 + 1 + (Z.log2 n - 52)) with (Z.log2 n - 52 + 53) by lia.
    by rewrite fexp_int, Z.sub_diag by lia. }
  unfold binary_round_aux. rewrite Hfirst. cbn [loc_of_shr_record round_nearest_even shr_m].
  rewrite Hsecond. cbn [shr_m]. destruct M as [|m|m] eqn:EM; [lia| |lia].
  rewrite (proj2 (Z.leb_le _ _)) by (unfold f64_emax, f64_prec; lia). done.
Qed.

Lemma iter_xO_pow p d : Z.pos (Pos.iter xO p d) = Z.pos p * 2 ^ Z.pos d.
Proof.
  induction d as [|d IH] using Pos.peano_ind; [by rewrite Z.mul_comm|].
  rewrite Pos.iter_succ, Pos2Z.inj_xO, IH, Pos2Z.inj_succ, Z.pow_succ_r by lia. lia.
Qed.

(** [n * 2^k] scaled by [2^-k] normalises to [n], exactly. *)
Lemma normalize_scaled n k :
  0 ≤ n < 2 ^ 53 → 0 ≤ k → binary_normalize f64_prec f64_emax (n * 2 ^ k) (- k) false = f64_int n.
Proof.
  intros Hn Hk. unfold f64_int. case_match; bool_to_prop; [by subst|].
  pose proof (Z.log2_nonneg n) as Hl0.
  assert (Z.log2 n < 53) as Hl1 by (apply Z.log2_lt_pow2; lia).
  pose proof (Z.pow_pos_nonneg 2 k ltac:(lia) Hk) as Hpk.
  destruct (n * 2 ^ k) as [|m|m] eqn:Em; [nia| |nia]. unfold binary_normalize, binary_round.
  rewrite digits2_pos_log2, <- Em, Z.log2_mul_pow2 by lia.
  replace (k + Z.log2 n + 1 + - k) with (Z.log2 n - 52 + 53) by lia.
  rewrite fexp_int by lia. unfold shl_align.
  destruct (Z.log2 n - 52 - - k) as [|t|d] eqn:Et.
  - rewrite <- Em, <- (binary_round_aux_exact n 0) by lia. f_equal; [|lia].
    rewrite Z.mul_1_r. f_equal. f_equal. lia.
  - rewrite <- Em, <- (binary_round_aux_exact n (Z.pos t)) by lia. f_equal; [|lia].
    rewrite <- Z.mul_assoc, <- Z.pow_add_r by lia. f_equal. f_equal. lia.
  - rewrite iter_xO_pow, <- Em, <- (binary_round_aux_exact n 0) by lia. f_equal; [|lia].
    rewrite Z.mul_1_r, <- Z.mul_assoc, <- Z.pow_add_r by lia. f_equal. f_equal. lia.
Qed.

Lemma f64_of_Z_int n : 0 ≤ n < 2 ^ 53 → f64_of_Z n = f64_int n.
Proof.
  intros Hn. rewrite <- (normalize_scaled n 0) by lia.
  unfold f64_of_Z. by rewrite Z.pow_0_r, Z.mul_1_r.
Qed.

(** Subtracting one from an integer-valued [f64] is exact. *)
Lemma f64_int_pred n : 0 < n < 2 ^ 53 → f64_sub (f64_int n) f64_one = f64_int (n - 1).
Proof.
  intros Hn. unfold f64_one. rewrite f64_of_Z_int by lia. unfold f64_int at 1 2. simpl (1 =? 0).
  rewrite (proj2 (Z.eqb_neq n 0)) by lia. cbv iota.
  pose proof (Z.log2_nonneg n) as Hl0.
  assert (Z.log2 n < 53) as Hl1 by (apply Z.log2_lt_pow2; lia).
  set (M := n * 2 ^ (52 - Z.log2 n)).
  assert (0 < M) as HM by (unfold M; pose proof (Z.pow_pos_nonneg 2 (52 - Z.log2 n)); nia).
  change (Z.log2 1 - 52) with (-52). unfold f64_sub, SFsub.
  rewrite Z.min_r by lia. rewrite <- (normalize_scaled (n - 1) 52) by lia.
  change (-(52)) with (-52). f_equal. unfold cond_Zopp. f_equal.
  assert (HmM : Z.pos (Z.to_pos M) = M) by (apply Z2Pos.id; lia).
  replace ((n - 1) * 2 ^ 52) with (n * 2 ^ 52 - 2 ^ 52) by lia. f_equal.
  unfold shl_align. destruct (-52 - (Z.log2 n - 52)) as [|d|d] eqn:Ed; simpl fst.
  - rewrite HmM. unfold M. f_equal. f_equal. lia.
  - lia.
  - rewrite iter_xO_pow, HmM. unfold M. rewrite <- Z.mul_assoc, <- Z.pow_add_r by lia.
    f_equal. f_equal. lia.
Qed.

(** Integer-valued [f64]s compare as the integers do. *)
Lemma f64_int_compare a b :
  0 ≤ a < 2 ^ 53 → 0 ≤ b < 2 ^ 53 → SFcompare (f64_int a) (f64_int b) = Some (a ?= b)%Z.
Proof.
  intros Ha Hb. unfold f64_int.
  destruct (a =? 0) eqn:Ea, (b =? 0) eqn:Eb; bool_to_prop; subst; cbn [SFcompare]; f_equal.
  - symmetry. apply Z.compare_lt_iff. lia.
  - symmetry. apply Z.compare_gt_iff. lia.
  - change (Pos.compare_cont Eq) with Pos.compare.
    assert (Z.log2 a < 53) by (apply Z.log2_lt_pow2; lia).
    assert (Z.log2 b < 53) by (apply Z.log2_lt_pow2; lia).
    destruct (Z.compare_spec (Z.log2 a - 52) (Z.log2 b - 52)) as [Heq|Hlt|Hgt].
    + replace (Z.log2 b) with (Z.log2 a) by lia.
      pose proof (Z.pow_pos_nonneg 2 (52 - Z.log2 a)).
      rewrite Pos2Z.inj_compare, !Z2Pos.id by nia.
      symmetry. apply Zmult_compare_compat_r. lia.
    + symmetry. apply Z.compare_lt_iff. apply Z.log2_lt_cancel. lia.
    + symmetry. apply Z.compare_gt_iff. apply Z.log2_lt_cancel. lia.
Qed.

(** ** The refill rate is finite

    A quotient of an integer below 2^53 by sixty neither overflows nor is NaN,
    so multiplying it by a zero elapsed time gives zero. *)

Definition f64_finite (x : f64) : bool :=
  match x with S754_zero _ | S754_finite _ _ _ => true | _ => false end.

Lemma shr_1_le r : 0 ≤ shr_m r → shr_m (shr_1 r) ≤ shr_m r.
Proof. destruct r as [[|[p|p|]|p] b s]; cbn; lia. Qed.

Lemma iter_shr_1_le p r : 0 ≤ shr_m r → shr_m (iter_pos shr_1 p r) ≤ shr_m r.
Proof.
  revert r. induction p as [p IH|p IH|]; intros r Hr; cbn [iter_pos]; [| |by apply shr_1_le].
  - pose proof (shr_1_nonneg r Hr). pose proof (shr_1_le r Hr).
    pose proof (iter_shr_1_nonneg p (shr_1 r) ltac:(done)).
    pose proof (IH (shr_1 r) ltac:(done)). pose proof (IH (iter_pos shr_1 p (shr_1 r)) ltac:(done)).
    lia.
  - pose proof (iter_shr_1_nonneg p r Hr). pose proof (IH r Hr).
    pose proof (IH (iter_pos shr_1 p r) ltac:(done)). lia.
Qed.

(** One shift keeps the mantissa below its bound and moves the exponent at most
    to where the mantissa has 53 bits. *)
Lemma shr_fexp_bounds m e l k :
  0 ≤ m < 2 ^ k → 0 < k →
  0 ≤ shr_m (shr_fexp f64_prec f64_emax m e l).1 < 2 ^ k ∧
  (shr_fexp f64_prec f64_emax m e l).2 ≤ Z.max e (Z.max (k + e) (-1074)).
Proof.
  intros Hm Hk. split.
  - split; [apply shr_fexp_nonneg; lia|]. eapply Z.le_lt_trans; [|apply Hm].
    unfold shr_fexp, shr. case_match; cbn; rewrite ?shr_record_of_loc_m; [done| |done].
    etrans; [apply iter_shr_1_le|]; by rewrite shr_record_of_loc_m; lia.
  - assert (Zdigits2 m ≤ k).
    { destruct (decide (m = 0)) as [->|]; [cbn; lia|]. rewrite Zdigits2_log2 by lia.
      pose proof (proj1 (Z.log2_lt_pow2 m k ltac:(lia))). lia. }
    unfold shr_fexp, shr, fexp, emin, f64_prec, f64_emax. case_match eqn:E; cbn; lia.
Qed.

Lemma binary_round_aux_finite m e l :
  0 ≤ m < 2 ^ 200 → e ≤ 100 →
  f64_finite (binary_round_aux f64_prec f64_emax false m e l) = true.
Proof.
  intros Hm He. unfold binary_round_aux.
  destruct (shr_fexp_bounds m e l 200 Hm ltac:(lia)) as [H1 H1e].
  destruct (shr_fexp _ _ m e l) as [r1 e1]; cbn [fst snd] in *.
  set (m2 := round_nearest_even _ _).
  assert (0 ≤ m2 < 2 ^ 201).
  { unfold m2. split; [apply round_nearest_even_nonneg; lia|].
    unfold round_nearest_even. repeat case_match; lia. }
  destruct (shr_fexp_bounds m2 e1 loc_Exact 201 ltac:(done) ltac:(lia)) as [H2 H2e].
  destruct (shr_fexp _ _ m2 e1 loc_Exact) as [r2 e2]; cbn [fst snd] in *.
  destruct (shr_m r2); [done| |lia].
  rewrite (proj2 (Z.leb_le _ _)) by (unfold f64_emax, f64_prec; lia). done.
Qed.

Lemma f64_rate_finite n : 0 ≤ n < 2 ^ 53 → f64_finite (f64_div (f64_of_Z n) f64_sixty) = true.
Proof.
  intros Hn. rewrite f64_of_Z_int by done. unfold f64_int. case_match; bool_to_prop; [done|].
  change f64_sixty with (S754_finite false 8444249301319680 (-47)).
  pose proof (Z.log2_nonneg n) as Hl0.
  assert (Z.log2 n < 53) as Hl1 by (apply Z.log2_lt_pow2; lia).
  set (M := n * 2 ^ (52 - Z.log2 n)).
  assert (0 < M < 2 ^ 53) as HM.
  { unfold M. pose proof (Z.log2_spec n ltac:(lia)) as [_ Hs].
    pose proof (Z.pow_pos_nonneg 2 (52 - Z.log2 n)).
    replace (2 ^ 53) with (2 ^ Z.succ (Z.log2 n) * 2 ^ (52 - Z.log2 n)); [nia|].
    rewrite <- Z.pow_add_r by lia. f_equal. lia. }
  unfold f64_div, SFdiv. rewrite Z2Pos.id by lia.
  destruct (SFdiv_core_binary _ _ _ _ _ _) as [[q e2] l] eqn:E. unfold SFdiv_core_binary in E.
  rewrite Zdigits2_log2 in E by lia.
  assert (Z.log2 M = 52) as HlM by (unfold M; rewrite Z.log2_mul_pow2; lia).
  rewrite HlM in E. change (Zdigits2 8444249301319680) with 53 in E.
  replace (52 + 1 + (Z.log2 n - 52) - (53 + -47)) with (Z.log2 n - 58 + 53) in E by lia.
  unfold fexp, emin, f64_prec, f64_emax in E.
  replace (Z.max (Z.log2 n - 58 + 53 - 53) (3 - 1024 - 53)) with (Z.log2 n - 58) in E by lia.
  rewrite Z.min_l in E by lia.
  replace (Z.log2 n - 52 - -47 - (Z.log2 n - 58)) with 53 in E by lia.
  pose proof (Z_div_mod (Z.shiftl M 53) 8444249301319680 ltac:(lia)) as Hdm.
  destruct (Z.div_eucl (Z.shiftl M 53) 8444249301319680) as [q' r']. injection E as <- <- _.
  rewrite Z.shiftl_mul_pow2 in Hdm by lia. apply binary_round_aux_finite; lia.
Qed.
