(* ===== verification/Net.v ===== *)
(** * IP addresses

    [std::net::IpAddr] with decidable equality and an encoding as a countable
    type, so that it can key a finite map, and [SocketAddr]. *)

From S2P Require Import Prelude Rust.

Local Open Scope Z_scope.

(** Octets of an IPv4 address; 16-bit segments of an IPv6 address. *)
Record Ipv4Addr := V4Octets { o0 : Z; o1 : Z; o2 : Z; o3 : Z }.
Record Ipv6Addr := V6Segments
  { s0 : Z; s1 : Z; s2 : Z; s3 : Z; s4 : Z; s5 : Z; s6 : Z; s7 : Z }.

Inductive IpAddr := V4 (ip : Ipv4Addr) | V6 (ip : Ipv6Addr).

Record SocketAddr := { sock_ip : IpAddr; sock_port : Z }.

#[global] Instance Ipv4Addr_eq_dec : EqDecision Ipv4Addr.
Proof. solve_decision. Defined.
#[global] Instance Ipv6Addr_eq_dec : EqDecision Ipv6Addr.
Proof. solve_decision. Defined.
#[global] Instance IpAddr_eq_dec : EqDecision IpAddr.
Proof. solve_decision. Defined.
#[global] Instance SocketAddr_eq_dec : EqDecision SocketAddr.
Proof. solve_decision. Defined.

#[global] Instance Ipv4Addr_countable : Countable Ipv4Addr.
Proof.
  apply (inj_countable' (λ a, (o0 a, o1 a, o2 a, o3 a))
    (λ '(a, b, c, d), V4Octets a b c d)). by intros [].
Defined.

#[global] Instance Ipv6Addr_countable : Countable Ipv6Addr.
Proof.
  apply (inj_countable' (λ a, (s0 a, s1 a, s2 a, s3 a, (s4 a, s5 a, s6 a, s7 a)))
    (λ '(a, b, c, d, (e, f, g, h)), V6Segments a b c d e f g h)). by intros [].
Defined.

#[global] Instance IpAddr_countable : Countable IpAddr.
Proof.
  apply (inj_countable' (λ a, match a with V4 ip => inl ip | V6 ip => inr ip end)
    (λ a, match a with inl ip => V4 ip | inr ip => V6 ip end)). by intros [].
Defined.

(** ** [Display] of addresses *)

(** Lower-case hexadecimal ([{:x}]) of a 16-bit segment. *)
Fixpoint hex_go (fuel : nat) (n : Z) (acc : str) : str :=
  match fuel with
  | O => acc
  | S fuel' =>
      let d := Z.to_N (n mod 16) in
      let acc' := (if (d <? 10)%N then 48 + d else 87 + d)%N :: acc in
      if n <? 16 then acc' else hex_go fuel' (n / 16) acc'
  end.

(** Four digits are enough for 16 bits. *)
Definition hex16 (n : Z) : str := hex_go 4 n [].

Definition segments (ip : Ipv6Addr) : list Z :=
  [s0 ip; s1 ip; s2 ip; s3 ip; s4 ip; s5 ip; s6 ip; s7 ip].

Definition ipv4_to_string (ip : Ipv4Addr) : str :=
  join_with (lit ".") [dec (o0 ip); dec (o1 ip); dec (o2 ip); dec (o3 ip)].

(** The first longest run of zero segments, as start and length. *)
Fixpoint zeroes_go (i : nat) (current longest : nat * nat) (segs : list Z) : nat * nat :=
  match segs with
  | [] => longest
  | seg :: segs' =>
      if seg =? 0 then
        let current := ((if (current.2 =? 0)%nat then i else current.1), S current.2) in
        let longest := if (longest.2 <? current.2)%nat then current else longest in
        zeroes_go (S i) current longest segs'
      else zeroes_go (S i) (0, 0)%nat longest segs'
  end.

Definition ipv6_to_string (ip : Ipv6Addr) : str :=
  let segs := segments ip in
  if bool_decide (take 6 segs = [0; 0; 0; 0; 0; 65535]) then
    lit "::ffff:" ++ ipv4_to_string
      (V4Octets (s6 ip / 256) (s6 ip mod 256) (s7 ip / 256) (s7 ip mod 256))
  else
    let '(start, n) := zeroes_go 0 (0, 0)%nat (0, 0)%nat segs in
    let fmt := λ l, join_with (lit ":") (hex16 <$> l) in
    if (1 <? n)%nat then fmt (take start segs) ++ lit "::" ++ fmt (drop (start + n) segs)
    else fmt segs.

Definition ip_to_string (ip : IpAddr) : str :=
  match ip with V4 ip => ipv4_to_string ip | V6 ip => ipv6_to_string ip end.

Example ipv4_display : ip_to_string (V4 (V4Octets 203 0 113 7)) = lit "203.0.113.7".
Proof. reflexivity. Qed.

Example ipv6_display :
  ip_to_string (V6 (V6Segments 0x2001 0xdb8 0 0 1 0 0 0)) = lit "2001:db8:0:0:1::".
Proof. reflexivity. Qed.

Example ipv6_mapped_display :
  ip_to_string (V6 (V6Segments 0 0 0 0 0 65535 0x7f00 1)) = lit "::ffff:127.0.0.1".
Proof. reflexivity. Qed.

Example ipv6_unspecified : ip_to_string (V6 (V6Segments 0 0 0 0 0 0 0 0)) = lit "::".
Proof. reflexivity. Qed.
