(* ===== verification/Paths.v ===== *)
(** * Unix paths

    [std::path::Path] on a Unix target: a path is its text, and [components],
    [join], [parent], [file_name] and [file_stem] read it the way the standard
    library does (repeated separators and inner dots are skipped, a leading dot
    of a relative path is a component). *)

From S2P Require Import Prelude Rust.

Inductive Component := RootDir | CurDir | ParentDir | Normal (name : str).

#[global] Instance Component_eq_dec : EqDecision Component.
Proof. solve_decision. Defined.

Definition SEP : char := 47%N.
Definition DOT : char := 46%N.

Definition is_absolute (p : str) : bool :=
  match p with c :: _ => (c =? SEP)%N | [] => false end.

(** A relative path that is a dot, or starts with a dot and a separator. *)
Definition include_cur_dir (p : str) : bool :=
  match p with
  | [c] => (c =? DOT)%N
  | c :: d :: _ => (c =? DOT)%N && (d =? SEP)%N
  | [] => false
  end.

(** The part before the body: the root, or the leading dot. *)
Definition path_prefix (p : str) : str :=
  if is_absolute p || include_cur_dir p then take 1 p else [].
Definition body (p : str) : str :=
  if is_absolute p || include_cur_dir p then drop 1 p else p.
Definition pieces (p : str) : list str := split_by (λ c, (c =? SEP)%N) (body p).

(** A piece that is no component: empty, or an inner dot. *)
Definition skipped (w : str) : bool := bool_decide (w = []) || bool_decide (w = [DOT]).

Definition piece_component (w : str) : Component :=
  if bool_decide (w = [DOT; DOT]) then ParentDir else Normal w.

Definition prefix_components (p : str) : list Component :=
  if is_absolute p then [RootDir] else if include_cur_dir p then [CurDir] else [].

Definition components (p : str) : list Component :=
  prefix_components p
    ++ (piece_component <$> List.filter (λ w, negb (skipped w)) (pieces p)).

(** [Path::join]. *)
Definition join (base p : str) : str :=
  if is_absolute p then p
  else match last base with
       | Some c => if (c =? SEP)%N then base ++ p else base ++ SEP :: p
       | None => p
       end.

(** [Path::parent]: the text without its last component, and without trailing
    separators and dots. *)
Definition trim_pieces (ws : list str) : list str :=
  reverse (drop_while skipped (reverse ws)).

Definition parent (p : str) : option str :=
  match reverse (trim_pieces (pieces p)) with
  | _ :: ws =>
      Some (path_prefix p ++ join_with [SEP] (trim_pieces (reverse ws)))
  | [] => if is_absolute p then None else if include_cur_dir p then Some [] else None
  end.

Definition file_name (p : str) : option str :=
  match last (components p) with Some (Normal w) => Some w | _ => None end.

(** The text before and after the last dot, when there is one. *)
Definition rsplit_dot (w : str) : option (str * str) :=
  let '(after, rest) := span (λ c, negb (c =? DOT)%N) (reverse w) in
  match rest with
  | _ :: before => Some (reverse before, reverse after)
  | [] => None
  end.

Definition file_stem (p : str) : option str :=
  w ← file_name p;
  match rsplit_dot w with
  | Some (before, _) => if bool_decide (before = []) then Some w else Some before
  | None => Some w
  end.

(** ** Lemmas *)

Lemma join_absolute base p : is_absolute p = true → join base p = p.
Proof. unfold join. by intros ->. Qed.

Lemma last_snoc_app (a b : str) : b ≠ [] → last (a ++ b) = last b.
Proof.
  destruct b as [|c b]; [done|]. intros _. rewrite last_app.
  destruct (last (c :: b)) eqn:E; [done|]. apply last_None in E. done.
Qed.

(** Joining one relative path after the other is joining both at once. *)
Lemma join_join base p q :
  is_absolute p = false → is_absolute q = false → p ≠ [] →
  last p ≠ Some SEP → join (join base p) q = join base (p ++ SEP :: q).
Proof.
  intros Hp Hq Hne Hl. destruct p as [|c p]; [done|].
  assert (is_absolute ((c :: p) ++ SEP :: q) = false) as Hpq by done.
  unfold join. rewrite Hp, Hq, Hpq.
  destruct (last (c :: p)) as [d|] eqn:Hd; [|by apply last_None in Hd].
  assert ((d =? SEP)%N = false) as Hsep by (apply N.eqb_neq; congruence).
  destruct (last base) as [b|]; [destruct (b =? SEP)%N|].
  - rewrite last_snoc_app, Hd, Hsep, <- app_assoc by done. done.
  - replace (base ++ SEP :: c :: p) with ((base ++ [SEP]) ++ c :: p) by (by rewrite <- app_assoc).
    rewrite last_snoc_app, Hd, Hsep by done. by rewrite <- !app_assoc.
  - by rewrite Hd, Hsep.
Qed.

(** ** Absolute paths in normal form *)

(** A name that is a component of its own: not empty, no dots, no separator. *)
Definition clean_name (w : str) : Prop :=
  skipped w = false ∧ w ≠ [DOT; DOT] ∧ Forall (λ c, (c =? SEP)%N = false) w.

Definition render (ns : list str) : str := SEP :: join_with [SEP] ns.

Lemma clean_name_nonempty w : clean_name w → w ≠ [].
Proof. by intros (Hs & _ & _) ->. Qed.

Lemma clean_name_relative w : clean_name w → is_absolute w = false.
Proof. intros (_ & _ & H). destruct H; [done|]. cbn. by apply N.eqb_neq, N.eqb_neq. Qed.

Lemma last_clean w : clean_name w → ∃ c, last w = Some c ∧ (c =? SEP)%N = false.
Proof.
  intros Hw. destruct (last w) as [c|] eqn:Hl.
  - exists c. split; [done|]. destruct Hw as (_ & _ & H). rewrite Forall_forall in H.
    apply H. by apply last_Some_elem_of.
  - apply last_None in Hl. by apply clean_name_nonempty in Hw.
Qed.

Lemma pieces_render ns : ns ≠ [] → Forall clean_name ns → pieces (render ns) = ns.
Proof.
  intros Hne Hns. unfold pieces, body. cbn [is_absolute render].
  change (SEP =? SEP)%N with true. cbn [orb drop].
  apply split_by_join; [done|done|]. eapply Forall_impl; [exact Hns|]. by intros w (_ & _ & ?).
Qed.

Lemma not_skipped_filter ns :
  Forall clean_name ns → List.filter (λ w, negb (skipped w)) ns = ns.
Proof. induction 1 as [|w ns (Hw & _) Hns IH]; cbn; [done|]. by rewrite Hw, IH. Qed.

Lemma components_render ns :
  Forall clean_name ns → components (render ns) = RootDir :: (Normal <$> ns).
Proof.
  intros Hns. unfold components, prefix_components. cbn [is_absolute render].
  change (SEP =? SEP)%N with true. cbn [app]. f_equal. destruct ns as [|w ns]; [done|].
  rewrite pieces_render, not_skipped_filter by done. apply list_fmap_ext. intros i x Hx.
  unfold piece_component. rewrite bool_decide_eq_false_2; [done|].
  rewrite Forall_lookup in Hns. by destruct (Hns i x Hx) as (_ & ? & _).
Qed.

Lemma components_clean p w : Normal w ∈ components p → clean_name w.
Proof.
  unfold components. rewrite elem_of_app, list_elem_of_fmap. intros [Hp|(w' & Hw & Hin)].
  - unfold prefix_components in Hp. repeat case_match; set_solver.
  - apply list_elem_of_In, filter_In in Hin as [Hin Hs]. apply list_elem_of_In in Hin.
    unfold piece_component in Hw. case_bool_decide as Hd; [done|]. injection Hw as ->.
    split; [by apply negb_true_iff|]. split; [done|].
    pose proof (split_by_pieces (λ c, (c =? SEP)%N) (body p)) as Hall.
    rewrite Forall_forall in Hall. by apply Hall.
Qed.

Lemma join_with_snoc sep ns w :
  ns ≠ [] → join_with sep (ns ++ [w]) = join_with sep ns ++ sep ++ w.
Proof.
  intros Hne. induction ns as [|n ns IH]; [done|]. destruct ns as [|n' ns]; [done|].
  cbn [app] in *. rewrite !join_with_cons, IH by done. by rewrite <- !app_assoc.
Qed.

Lemma join_render ns w :
  Forall clean_name ns → clean_name w → join (render ns) w = render (ns ++ [w]).
Proof.
  intros Hns Hw. unfold join. rewrite clean_name_relative by done.
  destruct ns as [|n ns _] using rev_ind; [done|].
  apply Forall_app in Hns as [Hns [Hn _]%Forall_cons_1].
  destruct (last_clean n Hn) as (c & Hl & Hc).
  assert (last (render (ns ++ [n])) = Some c) as ->.
  { destruct ns as [|n' ns]; unfold render.
    - cbn [app join_with]. change (SEP :: n) with ([SEP] ++ n).
      rewrite last_snoc_app; [done|by apply clean_name_nonempty].
    - rewrite join_with_snoc by done. rewrite app_comm_cons, app_assoc.
      rewrite last_snoc_app; [done|by apply clean_name_nonempty]. }
  rewrite Hc. unfold render. rewrite (join_with_snoc _ (ns ++ [n])) by (by destruct ns). done.
Qed.

Lemma trim_pieces_clean ns : Forall clean_name ns → trim_pieces ns = ns.
Proof.
  intros H%Forall_reverse. unfold trim_pieces.
  assert (drop_while skipped (reverse ns) = reverse ns) as ->; [|apply reverse_involutive].
  unfold drop_while. destruct H as [|w l (Hw & _) _]; cbn; [done|by rewrite Hw].
Qed.

Lemma parent_render_snoc ns w :
  Forall clean_name (ns ++ [w]) → parent (render (ns ++ [w])) = Some (render ns).
Proof.
  intros H. unfold parent. rewrite pieces_render, trim_pieces_clean by (done || by destruct ns).
  apply Forall_app in H as [Hns _].
  rewrite reverse_snoc, reverse_involutive, trim_pieces_clean by done. done.
Qed.

Lemma parent_root : parent (render []) = None.
Proof. done. Qed.

Example components_example :
  components (lit "/a//b/./../c/") =
  [RootDir; Normal (lit "a"); Normal (lit "b"); ParentDir; Normal (lit "c")].
Proof. reflexivity. Qed.

Example parent_examples :
  parent (lit "/a/b//") = Some (lit "/a") ∧ parent (lit "/a") = Some (lit "/") ∧
  parent (lit "narrowd.conf") = Some [] ∧ parent (lit "/") = None ∧
  parent (lit "./x") = Some (lit ".") ∧ parent (lit "/a//b/c") = Some (lit "/a//b").
Proof. by repeat split. Qed.

Example file_stem_examples :
  file_stem (lit "C/powershell.exe") = Some (lit "powershell") ∧
  file_stem (lit "/bin/bash") = Some (lit "bash") ∧
  file_stem (lit ".profile") = Some (lit ".profile") ∧ file_stem (lit "/x/..") = None.
Proof. by repeat split. Qed.
