(* ===== verification/Config.v ===== *)
(** * Configuration (src/src/config.rs)

    The directives of narrowd.conf: [AppConfig] with its defaults, the parser of
    a configuration text ([apply_text]) with its values (booleans, integers,
    durations, byte sizes, paths), the validation, and [load], which puts them
    together.  The home and the configuration directory come from the dirs
    crate, and the file system answers [exists] and [read_to_string]: both are
    arguments. *)

From S2P Require Import Prelude Rust Paths.

Local Open Scope Z_scope.

Module Config.

(** ** Data *)

Inductive LogLevel := LevelError | LevelWarn | LevelInfo | LevelDebug | LevelTrace.

Inductive ExecMode := ShellLogin | ShellCommand | PowerShell | Cmd.

#[global] Instance LogLevel_eq_dec : EqDecision LogLevel.
Proof. solve_decision. Defined.
#[global] Instance ExecMode_eq_dec : EqDecision ExecMode.
Proof. solve_decision. Defined.

Record AppConfig := {
  listen_address : str;
  port : Z;
  host_key : str;
  authorized_keys_file : str;
  shell : str;
  exec_mode : ExecMode;
  permit_tty : bool;
  permit_exec : bool;
  sftp_enabled : bool;
  allow_tcp_forwarding : bool;
  allow_remote_forwarding : bool;
  gateway_ports : bool;
  max_unauth_connections_global : Z;
  max_unauth_connections_per_ip : Z;
  max_unauth_connections_per_subnet : Z;
  new_connections_per_minute_per_ip : Z;
  new_connections_burst_per_ip : Z;
  login_grace_time : Duration;
  client_banner_timeout : Duration;
  kex_start_timeout : Duration;
  max_auth_attempts : Z;
  auth_rejection_time : Duration;
  auth_failure_ban_threshold : Z;
  auth_failure_ban_window : Duration;
  auth_failure_ban_duration : Duration;
  inactivity_timeout : Duration;
  keepalive_interval : Duration;
  keepalive_max : Z;
  channel_buffer_size : Z;
  event_buffer_size : Z;
  window_size : Z;
  maximum_packet_size : Z;
  nodelay : bool;
  authorized_keys_max_size : Z;
  authorized_keys_max_entries : Z;
  authorized_keys_reload_interval : Duration;
  log_level : LogLevel;
}.

(** Assignment to one field of the configuration. *)
Ltac fill c f v p := first [constr_eq p f; exact v | exact (p c)].
Ltac set_field c f v :=
  simple refine (Build_AppConfig _ _ _ _ _ _ _ _ _ _ _ _ _ _ _ _ _ _ _ _ _ _ _ _ _ _ _ _ _ _ _ _ _ _ _ _ _);
  [ fill c f v listen_address | fill c f v port | fill c f v host_key | fill c f v
  authorized_keys_file | fill c f v shell | fill c f v exec_mode | fill c f v permit_tty | fill
  c f v permit_exec | fill c f v sftp_enabled | fill c f v allow_tcp_forwarding | fill c f v
  allow_remote_forwarding | fill c f v gateway_ports | fill c f v
  max_unauth_connections_global | fill c f v max_unauth_connections_per_ip | fill c f v
  max_unauth_connections_per_subnet | fill c f v new_connections_per_minute_per_ip |
  fill c f v new_connections_burst_per_ip | fill c f v login_grace_time | fill c f v
  client_banner_timeout | fill c f v kex_start_timeout | fill c f v max_auth_attempts | fill c f
  v auth_rejection_time | fill c f v auth_failure_ban_threshold | fill c f v
  auth_failure_ban_window | fill c f v auth_failure_ban_duration | fill c f v
  inactivity_timeout | fill c f v keepalive_interval | fill c f v keepalive_max | fill c f v
  channel_buffer_size | fill c f v event_buffer_size | fill c f v window_size | fill c f v
  maximum_packet_size | fill c f v nodelay | fill c f v authorized_keys_max_size | fill c f v
  authorized_keys_max_entries | fill c f v authorized_keys_reload_interval | fill c f v
  log_level ].

Definition set_listen_address (v : str) (c : AppConfig) : AppConfig := ltac:(set_field c listen_address v).
Definition set_port (v : Z) (c : AppConfig) : AppConfig := ltac:(set_field c port v).
Definition set_host_key (v : str) (c : AppConfig) : AppConfig := ltac:(set_field c host_key v).
Definition set_authorized_keys_file (v : str) (c : AppConfig) : AppConfig := ltac:(set_field c authorized_keys_file v).
Definition set_shell (v : str) (c : AppConfig) : AppConfig := ltac:(set_field c shell v).
Definition set_exec_mode (v : ExecMode) (c : AppConfig) : AppConfig := ltac:(set_field c exec_mode v).
Definition set_permit_tty (v : bool) (c : AppConfig) : AppConfig := ltac:(set_field c permit_tty v).
Definition set_permit_exec (v : bool) (c : AppConfig) : AppConfig := ltac:(set_field c permit_exec v).
Definition set_sftp_enabled (v : bool) (c : AppConfig) : AppConfig := ltac:(set_field c sftp_enabled v).
Definition set_allow_tcp_forwarding (v : bool) (c : AppConfig) : AppConfig := ltac:(set_field c allow_tcp_forwarding v).
Definition set_allow_remote_forwarding (v : bool) (c : AppConfig) : AppConfig := ltac:(set_field c allow_remote_forwarding v).
Definition set_gateway_ports (v : bool) (c : AppConfig) : AppConfig := ltac:(set_field c gateway_ports v).
Definition set_max_unauth_connections_global (v : Z) (c : AppConfig) : AppConfig := ltac:(set_field c max_unauth_connections_global v).
Definition set_max_unauth_connections_per_ip (v : Z) (c : AppConfig) : AppConfig := ltac:(set_field c max_unauth_connections_per_ip v).
Definition set_max_unauth_connections_per_subnet (v : Z) (c : AppConfig) : AppConfig := ltac:(set_field c max_unauth_connections_per_subnet v).
Definition set_new_connections_per_minute_per_ip (v : Z) (c : AppConfig) : AppConfig := ltac:(set_field c new_connections_per_minute_per_ip v).
Definition set_new_connections_burst_per_ip (v : Z) (c : AppConfig) : AppConfig := ltac:(set_field c new_connections_burst_per_ip v).
Definition set_login_grace_time (v : Duration) (c : AppConfig) : AppConfig := ltac:(set_field c login_grace_time v).
Definition set_client_banner_timeout (v : Duration) (c : AppConfig) : AppConfig := ltac:(set_field c client_banner_timeout v).
Definition set_kex_start_timeout (v : Duration) (c : AppConfig) : AppConfig := ltac:(set_field c kex_start_timeout v).
Definition set_max_auth_attempts (v : Z) (c : AppConfig) : AppConfig := ltac:(set_field c max_auth_attempts v).
Definition set_auth_rejection_time (v : Duration) (c : AppConfig) : AppConfig := ltac:(set_field c auth_rejection_time v).
Definition set_auth_failure_ban_threshold (v : Z) (c : AppConfig) : AppConfig := ltac:(set_field c auth_failure_ban_threshold v).
Definition set_auth_failure_ban_window (v : Duration) (c : AppConfig) : AppConfig := ltac:(set_field c auth_failure_ban_window v).
Definition set_auth_failure_ban_duration (v : Duration) (c : AppConfig) : AppConfig := ltac:(set_field c auth_failure_ban_duration v).
Definition set_inactivity_timeout (v : Duration) (c : AppConfig) : AppConfig := ltac:(set_field c inactivity_timeout v).
Definition set_keepalive_interval (v : Duration) (c : AppConfig) : AppConfig := ltac:(set_field c keepalive_interval v).
Definition set_keepalive_max (v : Z) (c : AppConfig) : AppConfig := ltac:(set_field c keepalive_max v).
Definition set_channel_buffer_size (v : Z) (c : AppConfig) : AppConfig := ltac:(set_field c channel_buffer_size v).
Definition set_event_buffer_size (v : Z) (c : AppConfig) : AppConfig := ltac:(set_field c event_buffer_size v).
Definition set_window_size (v : Z) (c : AppConfig) : AppConfig := ltac:(set_field c window_size v).
Definition set_maximum_packet_size (v : Z) (c : AppConfig) : AppConfig := ltac:(set_field c maximum_packet_size v).
Definition set_nodelay (v : bool) (c : AppConfig) : AppConfig := ltac:(set_field c nodelay v).
Definition set_authorized_keys_max_size (v : Z) (c : AppConfig) : AppConfig := ltac:(set_field c authorized_keys_max_size v).
Definition set_authorized_keys_max_entries (v : Z) (c : AppConfig) : AppConfig := ltac:(set_field c authorized_keys_max_entries v).
Definition set_authorized_keys_reload_interval (v : Duration) (c : AppConfig) : AppConfig := ltac:(set_field c authorized_keys_reload_interval v).
Definition set_log_level (v : LogLevel) (c : AppConfig) : AppConfig := ltac:(set_field c log_level v).

(** ** Log levels and execution modes *)

(** Equality of a text with a literal of the code. *)
Definition eqs (s : str) (l : string) : bool := bool_decide (s = lit l).
Arguments eqs _ _%_string_scope.

Definition LogLevel_parse (input : str) : result anyhow LogLevel :=
  let s := to_ascii_lowercase (trim input) in
  if eqs s "error" then Ok LevelError
  else if eqs s "warn" || eqs s "warning" then Ok LevelWarn
  else if eqs s "info" then Ok LevelInfo
  else if eqs s "debug" then Ok LevelDebug
  else if eqs s "trace" then Ok LevelTrace
  else bail (lit "unsupported LogLevel value: " ++ s).

(** [log::LevelFilter]. *)
Inductive LevelFilter := FilterOff | FilterError | FilterWarn | FilterInfo | FilterDebug | FilterTrace.

Definition to_level_filter (l : LogLevel) : LevelFilter :=
  match l with
  | LevelError => FilterError
  | LevelWarn => FilterWarn
  | LevelInfo => FilterInfo
  | LevelDebug => FilterDebug
  | LevelTrace => FilterTrace
  end.

Definition LogLevel_display (l : LogLevel) : str :=
  match l with
  | LevelError => lit "error"
  | LevelWarn => lit "warn"
  | LevelInfo => lit "info"
  | LevelDebug => lit "debug"
  | LevelTrace => lit "trace"
  end.

Definition ExecMode_parse (input : str) : result anyhow ExecMode :=
  let s := to_ascii_lowercase (trim input) in
  if eqs s "shell-login" || eqs s "login-shell" then Ok ShellLogin
  else if eqs s "shell-command" || eqs s "command-shell" || eqs s "shell" then Ok ShellCommand
  else if eqs s "powershell" || eqs s "pwsh" then Ok PowerShell
  else if eqs s "cmd" || eqs s "cmd.exe" then Ok Cmd
  else bail (lit "unsupported ExecMode value: " ++ s).

Definition ExecMode_display (m : ExecMode) : str :=
  match m with
  | ShellLogin => lit "shell-login"
  | ShellCommand => lit "shell-command"
  | PowerShell => lit "powershell"
  | Cmd => lit "cmd"
  end.

(** On a Unix target. *)
Definition default_for_current_platform : ExecMode := ShellLogin.

Definition command_flag (m : ExecMode) : str :=
  match m with
  | ShellLogin => lit "-lc"
  | ShellCommand => lit "-c"
  | PowerShell => lit "-Command"
  | Cmd => lit "/C"
  end.

Definition validate_shell (m : ExecMode) (shell : str) : result anyhow unit :=
  let shell_name := to_ascii_lowercase <$> file_stem shell in
  match m with
  | PowerShell =>
      if negb match shell_name with Some s => eqs s "powershell" || eqs s "pwsh" | None => false end
      then bail (lit "ExecMode powershell requires Shell to point to powershell.exe or pwsh, got "
                 ++ shell)
      else Ok tt
  | Cmd =>
      if negb match shell_name with Some s => eqs s "cmd" | None => false end
      then bail (lit "ExecMode cmd requires Shell to point to cmd.exe, got " ++ shell)
      else Ok tt
  | ShellLogin | ShellCommand => Ok tt
  end.

(** ** Values *)

Definition parse_bool (input : str) : result anyhow bool :=
  let s := to_ascii_lowercase (trim input) in
  if eqs s "yes" || eqs s "true" || eqs s "on" || eqs s "1" then Ok true
  else if eqs s "no" || eqs s "false" || eqs s "off" || eqs s "0" then Ok false
  else bail (lit "expected yes/no boolean, got " ++ s).

Definition parse_duration (input : str) : result anyhow Duration :=
  let input := trim input in
  if bool_decide (input = []) then bail (lit "duration must not be empty")
  else
    let '(digits, suffix) := span is_ascii_digit input in
    if bool_decide (digits = []) then bail (lit "duration must start with digits")
    else
      value ← int_result (parse_uint u64_max digits);
      let s := to_ascii_lowercase suffix in
      if eqs s "" || eqs s "s" then Ok (from_secs value)
      else if eqs s "ms" then Ok (from_millis value)
      else if eqs s "m" then Ok (from_secs (saturating_mul u64_max value 60))
      else if eqs s "h" then Ok (from_secs (saturating_mul u64_max value (60 * 60)))
      else bail (lit "unsupported duration suffix: " ++ s).

Definition parse_byte_size (input : str) : result anyhow Z :=
  let input := trim input in
  if bool_decide (input = []) then bail (lit "byte size must not be empty")
  else
    let '(digits, suffix) := span is_ascii_digit input in
    if bool_decide (digits = []) then bail (lit "byte size must start with digits")
    else
      value ← int_result (parse_uint usize_max digits);
      let s := to_ascii_lowercase suffix in
      multiplier ← (if eqs s "" || eqs s "b" then Ok 1
                    else if eqs s "k" || eqs s "kb" then Ok 1000
                    else if eqs s "ki" || eqs s "kib" then Ok 1024
                    else if eqs s "m" || eqs s "mb" then Ok 1000000
                    else if eqs s "mi" || eqs s "mib" then Ok 1048576
                    else bail (lit "unsupported byte size suffix: " ++ s));
      ok_or [Msg (lit "byte size is too large")] (checked_mul usize_max value multiplier).

(** ** Paths of the user *)

(** What the dirs crate knows about the user. *)
Record user_dirs := { home_dir : option str; config_dir : option str }.

Definition require_home (d : user_dirs) : result anyhow str :=
  ok_or [Msg (lit "unable to determine home directory")] (home_dir d).

(** [trim_start_matches("~/")]: every leading repetition. *)
Fixpoint trim_home_prefix (s : str) : str :=
  match s with
  | a :: ((b :: s') as rest) => if ((a =? 126) && (b =? 47))%N then trim_home_prefix s' else s
  | _ => s
  end.

Definition expand_home (d : user_dirs) (path : str) : result anyhow str :=
  if eqs path "~" || starts_with (lit "~/") path then
    home ← require_home d;
    if eqs path "~" then Ok home else Ok (join home (trim_home_prefix path))
  else Ok path.

Definition resolve_config_path (d : user_dirs) (input base_dir : str) : result anyhow str :=
  path ← expand_home d input;
  if is_absolute path then Ok path else Ok (join base_dir path).

Definition resolve_shell_command_or_path (d : user_dirs) (input base_dir : str)
  : result anyhow str :=
  path ← expand_home d input;
  if is_absolute path then Ok path
  else match components path !! 1%nat with
       | None => Ok path
       | Some _ => Ok (join base_dir path)
       end.

Definition config_root (d : user_dirs) (home : str) : str :=
  default (join home (lit ".config")) (config_dir d).

Definition default_config_path (d : user_dirs) : result anyhow (option str) :=
  home ← require_home d;
  Ok (Some (join (config_root d home) (lit "narrowd/narrowd.conf"))).

(** ** Defaults *)

(** The literal of [defaults], for a home and a configuration directory. *)
Definition default_config (home root : str) : AppConfig := {|
  listen_address := lit "0.0.0.0";
  port := 2222;
  host_key := join root (lit "narrowd/ssh_host_ed25519_key");
  authorized_keys_file := join home (lit ".ssh/authorized_keys");
  shell := lit "/bin/bash";
  exec_mode := default_for_current_platform;
  permit_tty := true;
  permit_exec := true;
  sftp_enabled := true;
  allow_tcp_forwarding := true;
  allow_remote_forwarding := true;
  gateway_ports := true;
  max_unauth_connections_global := 16;
  max_unauth_connections_per_ip := 3;
  max_unauth_connections_per_subnet := 8;
  new_connections_per_minute_per_ip := 12;
  new_connections_burst_per_ip := 4;
  login_grace_time := from_secs 15;
  client_banner_timeout := from_secs 5;
  kex_start_timeout := from_secs 5;
  max_auth_attempts := 4;
  auth_rejection_time := from_secs 2;
  auth_failure_ban_threshold := 8;
  auth_failure_ban_window := from_secs (10 * 60);
  auth_failure_ban_duration := from_secs (15 * 60);
  inactivity_timeout := from_secs (15 * 60);
  keepalive_interval := from_secs 30;
  keepalive_max := 3;
  channel_buffer_size := 32;
  event_buffer_size := 16;
  window_size := 1048576;
  maximum_packet_size := 32768;
  nodelay := true;
  authorized_keys_max_size := 256 * 1024;
  authorized_keys_max_entries := 128;
  authorized_keys_reload_interval := from_secs 2;
  log_level := LevelInfo;
|}.

Definition defaults (d : user_dirs) : result anyhow AppConfig :=
  home ← require_home d;
  Ok (default_config home (config_root d home)).

(** ** Directives *)

(** [.with_context(|| format!("invalid {name} on line {line_number}"))]. *)
Definition invalid {A} (name : string) (line_number : Z) (r : result anyhow A) : result anyhow A :=
  with_context (lit "invalid " ++ lit name ++ lit " on line " ++ dec line_number) r.

Section Directives.
Context (d : user_dirs) (base_dir : str) (line_number : Z).
Context (key : str) (value : str) (values : list str) (c : AppConfig).

(** [values[0].parse::<uN>().with_context(..)?], and the other value types. *)
Definition int_value (max : Z) (name : string) (set : Z → AppConfig → AppConfig)
  : option (result anyhow AppConfig) :=
  Some (v ← invalid name line_number (int_result (parse_uint max value)); Ok (set v c)).
Definition bool_value (name : string) (set : bool → AppConfig → AppConfig)
  : option (result anyhow AppConfig) :=
  Some (v ← invalid name line_number (parse_bool value); Ok (set v c)).
Definition duration_value (name : string) (set : Duration → AppConfig → AppConfig)
  : option (result anyhow AppConfig) :=
  Some (v ← invalid name line_number (parse_duration value); Ok (set v c)).

(** The arms of the [match] on the key, from Port to GatewayPorts; [None] when
    no arm of the group has the key.  [value] is [values[0]]. *)
Definition apply_session_directive : option (result anyhow AppConfig) :=
  if eqs key "port" then int_value u16_max "Port" set_port
  else if eqs key "listenaddress" then
    Some (Ok (set_listen_address (join_with (lit " ") values) c))
  else if eqs key "hostkey" then
    Some (p ← resolve_config_path d (join_with (lit " ") values) base_dir; Ok (set_host_key p c))
  else if eqs key "authorizedkeysfile" then
    Some (p ← resolve_config_path d (join_with (lit " ") values) base_dir;
          Ok (set_authorized_keys_file p c))
  else if eqs key "shell" then
    Some (p ← resolve_shell_command_or_path d (join_with (lit " ") values) base_dir;
          Ok (set_shell p c))
  else if eqs key "execmode" then
    Some (m ← invalid "ExecMode" line_number (ExecMode_parse value); Ok (set_exec_mode m c))
  else if eqs key "permittty" then bool_value "PermitTTY" set_permit_tty
  else if eqs key "permitexec" then bool_value "PermitExec" set_permit_exec
  else if eqs key "sftpenabled" then bool_value "SftpEnabled" set_sftp_enabled
  else if eqs key "subsystem" then
    Some (Ok (if eqs value "sftp" then set_sftp_enabled true c else c))
  else if eqs key "allowtcpforwarding" then
    bool_value "AllowTcpForwarding" set_allow_tcp_forwarding
  else if eqs key "allowremoteforwarding" then
    bool_value "AllowRemoteForwarding" set_allow_remote_forwarding
  else if eqs key "gatewayports" then bool_value "GatewayPorts" set_gateway_ports
  else None.

(** From MaxUnauthConnectionsGlobal to AuthFailureBanDuration. *)
Definition apply_limit_directive : option (result anyhow AppConfig) :=
  if eqs key "maxunauthconnectionsglobal" then
    int_value usize_max "MaxUnauthConnectionsGlobal" set_max_unauth_connections_global
  else if eqs key "maxunauthconnectionsperip" then
    int_value usize_max "MaxUnauthConnectionsPerIp" set_max_unauth_connections_per_ip
  else if eqs key "maxunauthconnectionspersubnet" then
    int_value usize_max "MaxUnauthConnectionsPerSubnet" set_max_unauth_connections_per_subnet
  else if eqs key "newconnectionsperminuteperip" then
    int_value usize_max "NewConnectionsPerMinutePerIp" set_new_connections_per_minute_per_ip
  else if eqs key "newconnectionsburstperip" then
    int_value usize_max "NewConnectionsBurstPerIp" set_new_connections_burst_per_ip
  else if eqs key "logingracetime" then duration_value "LoginGraceTime" set_login_grace_time
  else if eqs key "clientbannertimeout" then
    duration_value "ClientBannerTimeout" set_client_banner_timeout
  else if eqs key "kexstarttimeout" then duration_value "KexStartTimeout" set_kex_start_timeout
  else if eqs key "maxauthattempts" then int_value usize_max "MaxAuthAttempts" set_max_auth_attempts
  else if eqs key "authrejectiontime" then
    duration_value "AuthRejectionTime" set_auth_rejection_time
  else if eqs key "authfailurebanthreshold" then
    int_value usize_max "AuthFailureBanThreshold" set_auth_failure_ban_threshold
  else if eqs key "authfailurebanwindow" then
    duration_value "AuthFailureBanWindow" set_auth_failure_ban_window
  else if eqs key "authfailurebanduration" then
    duration_value "AuthFailureBanDuration" set_auth_failure_ban_duration
  else None.

(** From InactivityTimeout to LogLevel. *)
Definition apply_runtime_directive : option (result anyhow AppConfig) :=
  if eqs key "inactivitytimeout" then duration_value "InactivityTimeout" set_inactivity_timeout
  else if eqs key "keepaliveinterval" then
    duration_value "KeepaliveInterval" set_keepalive_interval
  else if eqs key "keepalivemax" then int_value usize_max "KeepaliveMax" set_keepalive_max
  else if eqs key "channelbuffersize" then
    int_value usize_max "ChannelBufferSize" set_channel_buffer_size
  else if eqs key "eventbuffersize" then int_value usize_max "EventBufferSize" set_event_buffer_size
  else if eqs key "windowsize" then int_value u32_max "WindowSize" set_window_size
  else if eqs key "maximumpacketsize" then
    int_value u32_max "MaximumPacketSize" set_maximum_packet_size
  else if eqs key "nodelay" then bool_value "NoDelay" set_nodelay
  else if eqs key "authorizedkeysmaxsize" then
    Some (n ← invalid "AuthorizedKeysMaxSize" line_number (parse_byte_size value);
          Ok (set_authorized_keys_max_size n c))
  else if eqs key "authorizedkeysmaxentries" then
    int_value usize_max "AuthorizedKeysMaxEntries" set_authorized_keys_max_entries
  else if eqs key "authorizedkeysreloadinterval" then
    duration_value "AuthorizedKeysReloadInterval" set_authorized_keys_reload_interval
  else if eqs key "pubkeyauthentication" then
    Some (enabled ← invalid "PubkeyAuthentication" line_number (parse_bool value);
          if negb enabled then bail (lit "PubkeyAuthentication no is unsupported") else Ok c)
  else if eqs key "passwordauthentication" then
    Some (enabled ← invalid "PasswordAuthentication" line_number (parse_bool value);
          if enabled : bool then bail (lit "PasswordAuthentication yes is unsupported") else Ok c)
  else if eqs key "permitopen" then Some (Ok c)
  else if eqs key "loglevel" then
    Some (l ← invalid "LogLevel" line_number (LogLevel_parse value); Ok (set_log_level l c))
  else None.

Definition apply_directive : result anyhow AppConfig :=
  match apply_session_directive with
  | Some r => r
  | None =>
      match apply_limit_directive with
      | Some r => r
      | None =>
          match apply_runtime_directive with
          | Some r => r
          | None => bail (lit "unsupported directive " ++ key ++ lit " on line " ++ dec line_number)
          end
      end
  end.
End Directives.

(** The words of a line: comment and surrounding blanks dropped. *)
Definition line_words (raw_line : str) : list str :=
  let line := trim (default [] (head (split_by (λ c, (c =? 35)%N) raw_line))) in
  split_whitespace line.

(** One iteration of the loop of [apply_text]. *)
Definition apply_line (d : user_dirs) (base_dir : str) (line_number : Z) (raw_line : str)
  (c : AppConfig) : result anyhow AppConfig :=
  match line_words raw_line with
  | [] => Ok c
  | [key] => bail (lit "missing value for directive " ++ key ++ lit " on line " ++ dec line_number)
  | key :: value :: rest =>
      apply_directive d base_dir line_number (to_ascii_lowercase key) value (value :: rest) c
  end.

Fixpoint apply_lines (d : user_dirs) (base_dir : str) (line_number : Z) (ls : list str)
  (c : AppConfig) : result anyhow AppConfig :=
  match ls with
  | [] => Ok c
  | l :: ls => c ← apply_line d base_dir line_number l c; apply_lines d base_dir (line_number + 1) ls c
  end.

(** [AppConfig::apply_text].  The caller gives the configuration up on an
    error, so that the assignments made before it do not matter. *)
Definition apply_text (d : user_dirs) (text base_dir : str) (c : AppConfig)
  : result anyhow AppConfig := apply_lines d base_dir 1 (lines text) c.

Definition validate (c : AppConfig) : result anyhow unit :=
  if permit_exec c then validate_shell (exec_mode c) (shell c) else Ok tt.

(** [AppConfig::load], with the answers of the file system. *)
Definition load (d : user_dirs) (exists_ : str → bool) (read_to_string : str → result io_error str)
  (requested_path : option str) : result anyhow AppConfig :=
  c ← defaults d;
  config_path ← match requested_path with
                | Some path => p ← expand_home d path; Ok (Some p)
                | None => o ← default_config_path d;
                          Ok (match o with Some p => if exists_ p then Some p else None
                              | None => None end)
                end;
  c ← match config_path with
      | Some path =>
          text ← with_context (lit "failed to read config file " ++ path)
                   (io_result (read_to_string path));
          apply_text d text (default (lit ".") (parent path)) c
      | None => Ok c
      end;
  _ ← validate c;
  Ok c.

(** The sample configuration: its lines, each ended by a newline. *)
Definition SAMPLE_CONFIG : str := join_with [10%N] [
  lit "# narrowd sample config";
  lit "# single-user SSH daemon";
  lit "Port 2222";
  lit "ListenAddress 0.0.0.0";
  lit "";
  lit "HostKey ~/.config/narrowd/ssh_host_ed25519_key";
  lit "AuthorizedKeysFile ~/.ssh/authorized_keys";
  lit "";
  lit "Shell /bin/bash";
  lit "ExecMode shell-login";
  lit "PermitTTY yes";
  lit "PermitExec yes";
  lit "";
  lit "Subsystem sftp internal-sftp";
  lit "AllowTcpForwarding yes";
  lit "AllowRemoteForwarding yes";
  lit "GatewayPorts yes";
  lit "";
  lit "# Public exposure hardening defaults";
  lit "MaxUnauthConnectionsGlobal 16";
  lit "MaxUnauthConnectionsPerIp 3";
  lit "MaxUnauthConnectionsPerSubnet 8";
  lit "NewConnectionsPerMinutePerIp 12";
  lit "NewConnectionsBurstPerIp 4";
  lit "LoginGraceTime 15s";
  lit "ClientBannerTimeout 5s";
  lit "KexStartTimeout 5s";
  lit "MaxAuthAttempts 4";
  lit "AuthRejectionTime 2s";
  lit "AuthFailureBanThreshold 8";
  lit "AuthFailureBanWindow 10m";
  lit "AuthFailureBanDuration 15m";
  lit "InactivityTimeout 15m";
  lit "KeepaliveInterval 30s";
  lit "KeepaliveMax 3";
  lit "ChannelBufferSize 32";
  lit "EventBufferSize 16";
  lit "WindowSize 1048576";
  lit "MaximumPacketSize 32768";
  lit "NoDelay yes";
  lit "AuthorizedKeysMaxSize 256KiB";
  lit "AuthorizedKeysMaxEntries 128";
  lit "AuthorizedKeysReloadInterval 2s";
  lit "";
  lit "LogLevel info";
  [] ].

End Config.
