(* ===== verification/ConfigCorrect.v ===== *)
(** * Correctness of the configuration (src/src/config.rs)

    Every accepted configuration comes from the defaults and the directives of a
    file all of whose lines were understood, is within the ranges of its types and
    passed the validation; the sample configuration describes the defaults; password
    authentication cannot be switched on; the values of durations and byte sizes
    are exact or refused. *)

From S2P Require Import Prelude Rust Paths Config.
Import Config.

Local Open Scope Z_scope.

(** ** Ranges *)

(** The fields of machine-integer and duration type, with their largest value. *)
Definition numeric_fields (c : AppConfig) : list (Z * Z) := [
  (port c, u16_max);
  (max_unauth_connections_global c, usize_max);
  (max_unauth_connections_per_ip c, usize_max);
  (max_unauth_connections_per_subnet c, usize_max);
  (new_connections_per_minute_per_ip c, usize_max);
  (new_connections_burst_per_ip c, usize_max);
  (max_auth_attempts c, usize_max);
  (auth_failure_ban_threshold c, usize_max);
  (keepalive_max c, usize_max);
  (channel_buffer_size c, usize_max);
  (event_buffer_size c, usize_max);
  (authorized_keys_max_size c, usize_max);
  (authorized_keys_max_entries c, usize_max);
  (window_size c, u32_max);
  (maximum_packet_size c, u32_max);
  (login_grace_time c, duration_max);
  (client_banner_timeout c, duration_max);
  (kex_start_timeout c, duration_max);
  (auth_rejection_time c, duration_max);
  (auth_failure_ban_window c, duration_max);
  (auth_failure_ban_duration c, duration_max);
  (inactivity_timeout c, duration_max);
  (keepalive_interval c, duration_max);
  (authorized_keys_reload_interval c, duration_max) ].

Definition in_range (p : Z * Z) : Prop := 0 ≤ p.1 ≤ p.2.
Definition config_wf (c : AppConfig) : Prop := Forall in_range (numeric_fields c).

Lemma from_secs_range v : 0 ≤ v ≤ u64_max → 0 ≤ from_secs v ≤ duration_max.
Proof. unfold from_secs, duration_max, NANOS_PER_SEC. lia. Qed.

Lemma from_millis_range v : 0 ≤ v ≤ u64_max → 0 ≤ from_millis v ≤ duration_max.
Proof. unfold from_millis, duration_max, NANOS_PER_SEC. lia. Qed.

Lemma saturating_mul_range max a b : 0 ≤ a → 0 ≤ b → 0 ≤ max → 0 ≤ saturating_mul max a b ≤ max.
Proof. unfold saturating_mul. lia. Qed.

Lemma parse_duration_range s v : parse_duration s = Ok v → 0 ≤ v ≤ duration_max.
Proof.
  unfold parse_duration. intros H. destruct (bool_decide _); [done|].
  destruct (span _ _) as [digits suffix]. destruct (bool_decide _); [done|].
  apply result_bind_Ok in H as (n & Hn & H). apply map_err_Ok, parse_uint_range in Hn; [|done].
  generalize dependent (to_ascii_lowercase suffix). intros s' H.
  destruct (eqs s' "" || _); [injection H as <-; by apply from_secs_range|].
  destruct (eqs s' "ms"); [injection H as <-; by apply from_millis_range|].
  destruct (eqs s' "m"); [injection H as <-; apply from_secs_range, saturating_mul_range; [apply Hn|done|done]|].
  destruct (eqs s' "h"); [injection H as <-; apply from_secs_range, saturating_mul_range; [apply Hn|done|done]|done].
Qed.

Lemma parse_byte_size_range s v : parse_byte_size s = Ok v → 0 ≤ v ≤ usize_max.
Proof.
  unfold parse_byte_size. intros H. destruct (bool_decide _); [done|].
  destruct (span _ _) as [digits suffix]. destruct (bool_decide _); [done|].
  apply result_bind_Ok in H as (n & Hn & H). apply map_err_Ok, parse_uint_range in Hn; [|done].
  apply result_bind_Ok in H as (k & Hk & H). apply ok_or_Ok in H. unfold checked_mul in H.
  destruct (n * k <=? usize_max) eqn:E; bool_to_prop; [injection H as <-|done].
  generalize dependent (to_ascii_lowercase suffix). intros s' Hk.
  assert (0 ≤ k) by (repeat case_match; simplify_eq; lia). lia.
Qed.

(** Assigning a value in range to one numeric field. *)
Ltac wf_set :=
  unfold config_wf, numeric_fields in *; cbn;
  repeat match goal with H : Forall _ (_ :: _) |- _ => apply Forall_cons_1 in H as [? H] end;
  repeat (apply Forall_cons; split; [done|]); apply Forall_nil_2.

Ltac value_range :=
  repeat match goal with
  | H : invalid _ _ _ = Ok _ |- _ => apply with_context_Ok in H
  | H : int_result (parse_uint _ _) = Ok _ |- _ => apply map_err_Ok, parse_uint_range in H; [|done]
  | H : parse_duration _ = Ok _ |- _ => apply parse_duration_range in H
  | H : parse_byte_size _ = Ok _ |- _ => apply parse_byte_size_range in H
  end.

(** What a directive does to a configuration. *)
Lemma apply_directive_wf d base n key v vs c c' :
  config_wf c → apply_directive d base n key v vs c = Ok c' → config_wf c'.
Proof.
  intros Hwf. unfold apply_directive, apply_session_directive, apply_limit_directive,
    apply_runtime_directive, int_value, bool_value, duration_value.
  repeat match goal with
  | |- (match (if ?b then _ else _) with _ => _ end) = _ → _ => destruct b
  end; intros H; inv_bind; repeat case_match; simplify_eq; value_range; try done; try wf_set.
Qed.

Lemma apply_line_wf d base n l c c' :
  config_wf c → apply_line d base n l c = Ok c' → config_wf c'.
Proof.
  unfold apply_line. intros Hwf H. repeat case_match; simplify_eq; eauto using apply_directive_wf.
Qed.

Lemma apply_lines_wf d base n ls c c' :
  config_wf c → apply_lines d base n ls c = Ok c' → config_wf c'.
Proof.
  revert n c. induction ls as [|l ls IH]; intros n c Hwf H; cbn in H; [by simplify_eq|].
  inv_bind. eauto using apply_line_wf.
Qed.

Lemma defaults_wf d c : defaults d = Ok c → config_wf c.
Proof.
  unfold defaults. intros H. inv_bind.
  unfold config_wf, numeric_fields. repeat (apply Forall_cons; split; [by vm_compute|]).
  apply Forall_nil_2.
Qed.

(** ** Lines *)

(** A line that the parser took, in some configuration. *)
Definition line_accepted (d : user_dirs) (base l : str) : Prop :=
  ∃ n c c', apply_line d base n l c = Ok c'.

Lemma apply_lines_accepted d base n ls c c' :
  apply_lines d base n ls c = Ok c' → Forall (line_accepted d base) ls.
Proof.
  revert n c. induction ls as [|l ls IH]; intros n c H; cbn in H; [constructor|].
  inv_bind. constructor; [by exists n, c, x|eauto].
Qed.

(** The directives there are, in lower case. *)
Definition directives : list string :=
  ["port"; "listenaddress"; "hostkey"; "authorizedkeysfile"; "shell"; "execmode"; "permittty";
   "permitexec"; "sftpenabled"; "subsystem"; "allowtcpforwarding"; "allowremoteforwarding";
   "gatewayports"; "maxunauthconnectionsglobal"; "maxunauthconnectionsperip";
   "maxunauthconnectionspersubnet"; "newconnectionsperminuteperip";
   "newconnectionsburstperip"; "logingracetime"; "clientbannertimeout"; "kexstarttimeout";
   "maxauthattempts"; "authrejectiontime"; "authfailurebanthreshold"; "authfailurebanwindow";
   "authfailurebanduration"; "inactivitytimeout"; "keepaliveinterval"; "keepalivemax";
   "channelbuffersize"; "eventbuffersize"; "windowsize"; "maximumpacketsize"; "nodelay";
   "authorizedkeysmaxsize"; "authorizedkeysmaxentries"; "authorizedkeysreloadinterval";
   "pubkeyauthentication"; "passwordauthentication"; "permitopen"; "loglevel"]%string.

(** A line the daemon knows the meaning of: blank, a comment, or a directive with
    a value. *)
Definition understood (l : str) : Prop :=
  match line_words l with
  | [] => True
  | [_] => False
  | key :: _ :: _ => existsb (eqs (to_ascii_lowercase key)) directives = true
  end.

Lemma apply_directive_known d base n key v vs c c' :
  apply_directive d base n key v vs c = Ok c' → existsb (eqs key) directives = true.
Proof.
  unfold apply_directive, apply_session_directive, apply_limit_directive, apply_runtime_directive. cbn [existsb directives].
  repeat match goal with
  | |- (match (if ?b then _ else _) with _ => _ end) = _ → _ =>
      destruct b; [intros _; by rewrite ?orb_true_r|cbn [orb]]
  end; done.
Qed.

Lemma line_accepted_understood d base l : line_accepted d base l → understood l.
Proof.
  intros (n & c & c' & H). unfold apply_line, understood in *.
  destruct (line_words l) as [|key [|value rest]]; [done..|]. by eapply apply_directive_known.
Qed.

Lemma apply_lines_app d base n l1 l2 c :
  apply_lines d base n (l1 ++ l2) c
  = (c ← apply_lines d base n l1 c; apply_lines d base (n + Z.of_nat (length l1)) l2 c).
Proof.
  revert n c. induction l1 as [|l l1 IH]; intros n c; cbn [app apply_lines length].
  - cbn. by rewrite Z.add_0_r.
  - unfold mbind, result_bind at 1 2. destruct (apply_line d base n l c); [|done].
    rewrite IH. by replace (n + 1 + Z.of_nat (length l1)) with (n + Z.of_nat (S (length l1))) by lia.
Qed.

(** Comparisons of two literals, evaluated. *)
Ltac eqs_lit :=
  repeat match goal with
  | H : context [eqs (lit ?a) ?b] |- _ =>
      let r := eval vm_compute in (eqs (lit a) b) in
      replace (eqs (lit a) b) with r in H by (vm_compute; reflexivity)
  | |- context [eqs (lit ?a) ?b] =>
      let r := eval vm_compute in (eqs (lit a) b) in
      replace (eqs (lit a) b) with r by (vm_compute; reflexivity)
  end.

(** ** Loading *)

Lemma validate_shell_Ok m p :
  validate_shell m p = Ok tt ↔
  match m with
  | PowerShell => ∃ s, file_stem p = Some s ∧
      (to_ascii_lowercase s = lit "powershell" ∨ to_ascii_lowercase s = lit "pwsh")
  | Cmd => ∃ s, file_stem p = Some s ∧ to_ascii_lowercase s = lit "cmd"
  | _ => True
  end.
Proof.
  unfold validate_shell, eqs. destruct m; try done; destruct (file_stem p) as [s|]; cbn.
  2,4: split; [done|by intros (? & ? & _)].
  - rewrite <- bool_decide_or. case_bool_decide; cbn; split; [eauto|done|done|].
    intros (? & [= <-] & ?). done.
  - case_bool_decide; cbn; split; [eauto|done|done|]. intros (? & [= <-] & ?). done.
Qed.

(** C34: a configuration that [load] returns is well formed and comes from where it
    should.  Every numeric field is within the range of its type, every duration
    representable, and command execution in a PowerShell or cmd mode is allowed
    only with such a shell.  It is the defaults, when no file was asked for and
    there is none at the default place, or else the defaults with the lines of the
    file asked for, or of that at the default place, applied to them; and every
    line of that file was understood: it is blank, a comment, or one of the
    directives with a value. *)
Theorem loaded_config_is_well_formed d exists_ read req c :
  load d exists_ read req = Ok c →
  config_wf c ∧
  (permit_exec c = true →
   match exec_mode c with
   | PowerShell => ∃ s, file_stem (shell c) = Some s ∧
       (to_ascii_lowercase s = lit "powershell" ∨ to_ascii_lowercase s = lit "pwsh")
   | Cmd => ∃ s, file_stem (shell c) = Some s ∧ to_ascii_lowercase s = lit "cmd"
   | _ => True
   end) ∧
  ∃ c0, defaults d = Ok c0 ∧
    (req = None ∧ (∀ path, default_config_path d = Ok (Some path) → exists_ path = false) ∧ c = c0 ∨
     ∃ path text,
       match req with
       | Some p => expand_home d p = Ok path
       | None => default_config_path d = Ok (Some path) ∧ exists_ path = true
       end ∧
       read path = Ok text ∧ apply_text d text (default (lit ".") (parent path)) c0 = Ok c ∧
       Forall understood (lines text)).
Proof.
  unfold load. intros H. inv_bind.
  match goal with H : defaults _ = _ |- _ => apply defaults_wf in H as Hwf end. split_and!.
  - destruct x0; inv_bind; simplify_eq; [by eapply apply_lines_wf|done].
  - intros Hp. apply validate_shell_Ok.
    match goal with H : validate c = _ |- _ => unfold validate in H; rewrite Hp in H end.
    by destruct x2.
  - exists x. split; [done|]. destruct x0 as [path|].
    + right. inv_bind. match goal with H : with_context _ _ = _ |- _ => apply with_context_Ok, map_err_Ok in H end.
      exists path, x0. split_and!; [|done|done|].
      * destruct req; inv_bind; simplify_eq; [done|]. repeat case_match; by simplify_eq.
      * eapply Forall_impl; [by eapply apply_lines_accepted|]. intros l. apply line_accepted_understood.
    + left. destruct req; inv_bind; simplify_eq. split_and!; [done| |done].
      intros path Hp. rewrite Hp in H. simplify_eq. by destruct (exists_ path).
Qed.

Definition demo_dirs : user_dirs := {| home_dir := Some (lit "/home/alice"); config_dir := None |}.

Definition demo_config : str := lit "Port 2022" ++ [10%N] ++ lit "PasswordAuthentication no  # never".

Definition demo_defaults : AppConfig :=
  default_config (lit "/home/alice") (lit "/home/alice/.config").

Definition demo_loaded : result anyhow AppConfig :=
  load demo_dirs (λ _, true) (λ _, Ok demo_config) None.

Lemma loaded_config_is_well_formed_witness :
  ∃ c, demo_loaded = Ok c ∧ config_wf c ∧ port c = 2022.
Proof.
  eexists. split; [vm_compute; reflexivity|]. split; [|reflexivity].
  apply (loaded_config_is_well_formed demo_dirs (λ _, true) (λ _, Ok demo_config) None).
  vm_compute. reflexivity.
Defined.

(** In a text that is accepted no line switches password authentication on
    or public-key authentication off, in any spelling of the keyword and of the
    boolean. *)
Theorem password_authentication_never_enabled d text base c c' l key value rest :
  apply_text d text base c = Ok c' → l ∈ lines text →
  line_words l = key :: value :: rest →
  (to_ascii_lowercase key = lit "passwordauthentication" → parse_bool value = Ok false) ∧
  (to_ascii_lowercase key = lit "pubkeyauthentication" → parse_bool value = Ok true).
Proof.
  intros H%apply_lines_accepted Hl Hw. rewrite Forall_forall in H.
  apply H in Hl as (n & c1 & c2 & Hline). unfold apply_line in Hline. rewrite Hw in Hline.
  split; intros Hkey; rewrite Hkey in Hline; unfold apply_directive, apply_session_directive,
    apply_limit_directive, apply_runtime_directive in Hline; eqs_lit; inv_bind;
    match goal with H : invalid _ _ _ = _ |- _ => apply with_context_Ok in H end;
    destruct x; done.
Qed.

Lemma password_authentication_never_enabled_witness : parse_bool (lit "no") = Ok false.
Proof.
  destruct (password_authentication_never_enabled demo_dirs demo_config (lit "/etc")
    (demo_defaults)
    (set_port 2022 (demo_defaults))
    (lit "PasswordAuthentication no  # never") (lit "PasswordAuthentication") (lit "no") [])
    as [H _].
  - vm_compute. reflexivity.
  - apply list_elem_of_In. vm_compute. auto.
  - vm_compute. reflexivity.
  - apply H. vm_compute. reflexivity.
Defined.

(** ** The sample configuration *)

Lemma is_absolute_join home p : is_absolute home = true → is_absolute (join home p) = true.
Proof.
  intros H. unfold join. destruct (is_absolute p) eqn:Hp; [done|].
  destruct home as [|c h]; [done|]. destruct (last (c :: h)) as [e|] eqn:E; [|by apply last_None in E].
  by case_match.
Qed.

Lemma sample_lines_split :
  lines SAMPLE_CONFIG =
  take 5 (lines SAMPLE_CONFIG)
  ++ [lit "HostKey ~/.config/narrowd/ssh_host_ed25519_key";
      lit "AuthorizedKeysFile ~/.ssh/authorized_keys"]
  ++ drop 7 (lines SAMPLE_CONFIG).
Proof. vm_compute. reflexivity. Qed.

(** The lines around the two paths only repeat the defaults. *)
Lemma sample_head d base home root :
  apply_lines d base 1 (take 5 (lines SAMPLE_CONFIG)) (default_config home root)
  = Ok (default_config home root).
Proof. vm_compute. reflexivity. Qed.

Lemma sample_tail d base n home root :
  apply_lines d base n (drop 7 (lines SAMPLE_CONFIG)) (default_config home root)
  = Ok (default_config home root).
Proof. vm_compute. reflexivity. Qed.

(** A path under the home directory. *)
Lemma resolve_home_path d home base p :
  home_dir d = Some home → is_absolute home = true → starts_with (lit "~/") p = false →
  resolve_config_path d (lit "~/" ++ p) base = Ok (join home p).
Proof.
  intros Hd Hh Hp. unfold resolve_config_path, expand_home, require_home. rewrite Hd.
  replace (eqs (lit "~/" ++ p) "~") with false
    by (symmetry; apply bool_decide_eq_false; by destruct p).
  change (starts_with (lit "~/") (lit "~/" ++ p)) with true. cbn [orb].
  replace (trim_home_prefix (lit "~/" ++ p)) with p.
  { unfold mbind, result_bind. cbn [ok_or]. by rewrite is_absolute_join. }
  change (lit "~/") with [126%N; 47%N] in *.
  destruct p as [|a [|b p]]; try done.
  cbn [starts_with] in Hp. rewrite andb_true_r in Hp.
  cbn [app trim_home_prefix]. change ((126 =? 126) && (47 =? 47))%N with true. cbv iota.
  rewrite (N.eqb_sym a), (N.eqb_sym b). by rewrite Hp.
Qed.

Lemma sample_paths d base home root :
  home_dir d = Some home → is_absolute home = true →
  apply_lines d base 6
    [lit "HostKey ~/.config/narrowd/ssh_host_ed25519_key";
     lit "AuthorizedKeysFile ~/.ssh/authorized_keys"] (default_config home root)
  = Ok (set_host_key (join home (lit ".config/narrowd/ssh_host_ed25519_key"))
          (default_config home root)).
Proof.
  intros Hd Hh. cbn [apply_lines]. unfold apply_line.
  replace (line_words (lit "HostKey ~/.config/narrowd/ssh_host_ed25519_key"))
    with [lit "HostKey"; lit "~/" ++ lit ".config/narrowd/ssh_host_ed25519_key"]
    by (vm_compute; reflexivity).
  replace (line_words (lit "AuthorizedKeysFile ~/.ssh/authorized_keys"))
    with [lit "AuthorizedKeysFile"; lit "~/" ++ lit ".ssh/authorized_keys"]
    by (vm_compute; reflexivity).
  change (to_ascii_lowercase (lit "HostKey")) with (lit "hostkey").
  change (to_ascii_lowercase (lit "AuthorizedKeysFile")) with (lit "authorizedkeysfile").
  unfold apply_directive, apply_session_directive. eqs_lit. cbn [join_with].
  rewrite (resolve_home_path d home) by done. unfold mbind, result_bind.
  by rewrite (resolve_home_path d home).
Qed.

(** Applying the sample configuration to the defaults. *)
Lemma sample_config_applied home base :
  is_absolute home = true →
  apply_text {| home_dir := Some home; config_dir := None |} SAMPLE_CONFIG base
    (default_config home (join home (lit ".config")))
  = Ok (default_config home (join home (lit ".config"))).
Proof.
  intros Hh. unfold apply_text. rewrite sample_lines_split, apply_lines_app.
  rewrite sample_head. unfold mbind at 1, result_bind at 1. rewrite apply_lines_app.
  replace (1 + Z.of_nat (length (take 5 (lines SAMPLE_CONFIG)))) with 6
    by (vm_compute; reflexivity).
  rewrite (sample_paths _ _ home) by done. unfold mbind, result_bind.
  replace (set_host_key _ _) with (default_config home (join home (lit ".config")));
    [apply sample_tail|].
  unfold default_config, set_host_key. cbn [host_key]. f_equal.
  by rewrite join_join.
Qed.

(** The sample configuration that is shipped describes the defaults: for
    every user whose home is an absolute path, applying it to the defaults
    changes nothing. *)
Theorem sample_config_is_the_default home base :
  is_absolute home = true →
  apply_text {| home_dir := Some home; config_dir := None |} SAMPLE_CONFIG base
    (default_config home (join home (lit ".config")))
  = Ok (default_config home (join home (lit ".config"))).
Proof. apply sample_config_applied. Qed.

Lemma sample_config_is_the_default_witness :
  apply_text demo_dirs SAMPLE_CONFIG (lit "/etc") demo_defaults = Ok demo_defaults.
Proof. apply (sample_config_is_the_default (lit "/home/alice") (lit "/etc")). reflexivity. Defined.

(** ** Durations and byte sizes *)

Lemma drop_while_none {A} (p : A → bool) l : Forall (λ x, p x = false) l → drop_while p l = l.
Proof. unfold drop_while. destruct 1 as [|x l Hx]; cbn; [done|by rewrite Hx]. Qed.

Lemma trim_no_whitespace s : Forall (λ c, is_whitespace c = false) s → trim s = s.
Proof.
  intros H. unfold trim, trim_end, trim_start. rewrite (drop_while_none _ s) by done.
  rewrite drop_while_none by (by rewrite Forall_reverse). apply reverse_involutive.
Qed.

(** An ASCII letter, in either case: neither a blank nor a digit. *)
Definition is_letter (c : char) : bool := ((97 <=? ascii_lower c) && (ascii_lower c <=? 122))%N.

Lemma letter_not_blank c : is_letter c = true → is_whitespace c = false.
Proof.
  unfold is_letter, ascii_lower, is_whitespace. intros H.
  destruct ((65 <=? c) && (c <=? 90))%N eqn:E; bool_to_prop;
    repeat (apply orb_false_iff; split); try apply andb_false_iff;
    rewrite ?N.leb_gt, ?N.eqb_neq; lia.
Qed.

Lemma letter_not_digit c : is_letter c = true → is_ascii_digit c = false.
Proof.
  unfold is_letter, ascii_lower, is_ascii_digit. intros H. apply andb_false_iff.
  destruct ((65 <=? c) && (c <=? 90))%N eqn:E; bool_to_prop; rewrite !N.leb_gt; lia.
Qed.

Lemma digit_not_blank c : is_ascii_digit c = true → is_whitespace c = false.
Proof.
  unfold is_ascii_digit, is_whitespace. intros H. bool_to_prop.
  repeat (apply orb_false_iff; split); try apply andb_false_iff; rewrite ?N.leb_gt, ?N.eqb_neq; lia.
Qed.

(** A suffix spelled in any case has the letters of its lower-case form. *)
Lemma lowercase_letters suf l :
  to_ascii_lowercase suf = l → forallb (λ c, (97 <=? c) && (c <=? 122))%N l = true →
  Forall (λ c, is_letter c = true) suf.
Proof.
  intros <- H. induction suf as [|c suf IH]; [constructor|]. cbn in H. bool_to_prop.
  constructor; [|auto]. unfold is_letter. by rewrite (proj2 (N.leb_le _ _)), (proj2 (N.leb_le _ _)).
Qed.

(** A number followed by letters splits into the two. *)
Lemma number_with_suffix n suf :
  0 ≤ n → Forall (λ c, is_letter c = true) suf →
  trim (dec n ++ suf) = dec n ++ suf ∧ bool_decide (dec n ++ suf = []) = false ∧
  span is_ascii_digit (dec n ++ suf) = (dec n, suf) ∧ bool_decide (dec n = []) = false.
Proof.
  intros Hn Hs. destruct (dec_cons n Hn) as (c & s & Hdec & _). split_and!.
  - apply trim_no_whitespace, Forall_app. split.
    + eapply Forall_impl; [by apply dec_digits|]. apply digit_not_blank.
    + eapply Forall_impl; [exact Hs|]. apply letter_not_blank.
  - rewrite Hdec. by apply bool_decide_eq_false.
  - apply span_prefix; [by apply dec_digits|].
    destruct Hs; [done|]. by apply letter_not_digit.
  - rewrite Hdec. by apply bool_decide_eq_false.
Qed.

Lemma parse_duration_number n suf :
  0 ≤ n ≤ u64_max → Forall (λ c, is_letter c = true) suf →
  parse_duration (dec n ++ suf) =
    let s := to_ascii_lowercase suf in
    if eqs s "" || eqs s "s" then Ok (from_secs n)
    else if eqs s "ms" then Ok (from_millis n)
    else if eqs s "m" then Ok (from_secs (saturating_mul u64_max n 60))
    else if eqs s "h" then Ok (from_secs (saturating_mul u64_max n (60 * 60)))
    else bail (lit "unsupported duration suffix: " ++ s).
Proof.
  intros Hn Hs. destruct (number_with_suffix n suf ltac:(lia) Hs) as (H1 & H2 & H3 & H4).
  unfold parse_duration. rewrite H1, H2, H3, H4, parse_uint_dec by done. reflexivity.
Qed.

(** A number of seconds, milliseconds, minutes or hours with its suffix in
    any case is read exactly; minutes and hours that exceed 64 bits of seconds
    are cut to the largest duration of whole seconds; any other suffix made of
    letters is refused. *)
Theorem durations_are_exact n suf :
  0 ≤ n ≤ u64_max →
  (to_ascii_lowercase suf = [] ∨ to_ascii_lowercase suf = lit "s" →
   parse_duration (dec n ++ suf) = Ok (n * NANOS_PER_SEC)) ∧
  (to_ascii_lowercase suf = lit "ms" → parse_duration (dec n ++ suf) = Ok (n * 1000000)) ∧
  (to_ascii_lowercase suf = lit "m" →
   parse_duration (dec n ++ suf) = Ok (Z.min (n * 60) u64_max * NANOS_PER_SEC)) ∧
  (to_ascii_lowercase suf = lit "h" →
   parse_duration (dec n ++ suf) = Ok (Z.min (n * 3600) u64_max * NANOS_PER_SEC)) ∧
  (Forall (λ c, is_letter c = true) suf →
   to_ascii_lowercase suf ∉ [[]; lit "s"; lit "ms"; lit "m"; lit "h"] →
   is_ok (parse_duration (dec n ++ suf)) = false).
Proof.
  intros Hn. split_and!; [intros [Hs|Hs]|intros Hs..|intros Hs Hno].
  1-5: rewrite parse_duration_number by (done || by eapply lowercase_letters; [exact Hs|]);
    rewrite Hs; change (@nil N) with (lit ""); cbv zeta; eqs_lit; reflexivity.
  rewrite parse_duration_number by done. cbv zeta. unfold eqs.
  rewrite !bool_decide_eq_false_2 by (intros Heq; rewrite Heq in Hno; apply Hno;
    apply list_elem_of_In; vm_compute; auto 10). reflexivity.
Qed.

Lemma durations_are_exact_witness : parse_duration (dec 1500 ++ lit "MS") = Ok 1500000000.
Proof.
  destruct (durations_are_exact 1500 (lit "MS")) as (_ & H & _); [split; vm_compute; congruence|].
  apply H. vm_compute. reflexivity.
Defined.

(** The multipliers of the byte-size suffixes. *)
Definition byte_units : list (string * Z) :=
  [("", 1); ("b", 1); ("k", 1000); ("kb", 1000); ("ki", 1024); ("kib", 1024);
   ("m", 1000000); ("mb", 1000000); ("mi", 1048576); ("mib", 1048576)]%string.

(** A byte size with any of the documented suffixes, in any case, is the
    exact product, or an error when the product does not fit in a [usize]: it
    never wraps around. *)
Theorem byte_sizes_are_exact_or_refused n suf unit k :
  0 ≤ n ≤ usize_max → (unit, k) ∈ byte_units → to_ascii_lowercase suf = lit unit →
  parse_byte_size (dec n ++ suf) =
    if n * k <=? usize_max then Ok (n * k) else Err [Msg (lit "byte size is too large")].
Proof.
  intros Hn Hu Hl.
  assert (Forall (λ c, is_letter c = true) suf) as Hs.
  { eapply lowercase_letters; [exact Hl|].
    repeat (apply elem_of_cons in Hu as [[= -> ->]|Hu]; [vm_compute; reflexivity|]).
    by apply not_elem_of_nil in Hu. }
  destruct (number_with_suffix n suf ltac:(lia) Hs) as (H1 & H2 & H3 & H4).
  unfold parse_byte_size. rewrite H1, H2, H3, H4, parse_uint_dec, Hl by done.
  unfold mbind, result_bind. cbn [int_result map_err].
  repeat (apply elem_of_cons in Hu as [[= -> ->]|Hu];
    [eqs_lit; cbn [orb]; unfold checked_mul; by destruct (_ <=? _)|]).
  by apply not_elem_of_nil in Hu.
Qed.

Lemma byte_sizes_are_exact_or_refused_witness : parse_byte_size (dec 64 ++ lit "KiB") = Ok 65536.
Proof.
  apply (byte_sizes_are_exact_or_refused 64 (lit "KiB") "kib" 1024).
  - split; vm_compute; congruence.
  - apply list_elem_of_In. vm_compute. auto 10.
  - vm_compute. reflexivity.
Defined.

(** ** Paths *)

(** A path under the home directory loses its home when a second separator
    follows the tilde: the rest is then absolute and replaces it.  Written as
    [~//p], HostKey and AuthorizedKeysFile name [/p]. *)
Theorem double_slash_escapes_home d home base p :
  home_dir d = Some home →
  resolve_config_path d (lit "~//" ++ p) base = Ok (SEP :: p).
Proof.
  intros Hd. unfold resolve_config_path, expand_home, require_home. rewrite Hd.
  replace (eqs (lit "~//" ++ p) "~") with false by (symmetry; by apply bool_decide_eq_false).
  change (starts_with (lit "~/") (lit "~//" ++ p)) with true.
  change (trim_home_prefix (lit "~//" ++ p)) with (trim_home_prefix (SEP :: p)).
  replace (trim_home_prefix (SEP :: p)) with (SEP :: p) by (by destruct p).
  reflexivity.
Qed.

Lemma double_slash_escapes_home_witness :
  resolve_config_path demo_dirs (lit "~//keys") (lit "/etc/narrowd") = Ok (lit "/keys").
Proof.
  apply (double_slash_escapes_home demo_dirs (lit "/home/alice") (lit "/etc/narrowd") (lit "keys")).
  reflexivity.
Defined.

(** ** The unit tests of the source, on the model *)

Example packaged_shell_kept :
  resolve_shell_command_or_path demo_dirs (lit "powershell.exe") (lit "/tmp")
  = Ok (lit "powershell.exe").
Proof. vm_compute. reflexivity. Qed.

Example shell_resolved_from_config_dir :
  resolve_shell_command_or_path demo_dirs (lit "bin/custom-shell.exe") (lit "/tmp")
  = Ok (lit "/tmp/bin/custom-shell.exe").
Proof. vm_compute. reflexivity. Qed.

(** A Subsystem line switches SFTP on again after SftpEnabled switched it off. *)
Example subsystem_line_enables_sftp :
  sftp_enabled <$> ok (apply_text demo_dirs
    (lit "SftpEnabled no" ++ [10%N] ++ lit "Subsystem sftp internal-sftp") (lit "/etc") demo_defaults)
  = Some true.
Proof. vm_compute. reflexivity. Qed.
