(* ===== verification/Admission.v ===== *)
(** * Connection admission control (src/src/admission.rs)

    The counters, token buckets and bans that bound unauthenticated resource
    use: [AdmissionState] with [try_acquire], [record_auth_failure], [release]
    and the two clean-ups, the [AdmissionController] that holds it behind a
    mutex, and the [AdmissionGuard] that gives a slot back exactly once.

    The clock is an argument of every operation.  An operation returns in the
    [run] monad because [Instant] arithmetic can panic; a panic under the lock
    poisons the mutex. *)

From S2P Require Import Prelude Rust Float64 Net Config.
From Stdlib Require Import SpecFloat.

Local Open Scope Z_scope.

(** ** Data *)

Definition PEER_SWEEP_INTERVAL : Duration := from_secs 60.

Record AdmissionConfig := {
  max_unauth_connections_global : Z;
  max_unauth_connections_per_ip : Z;
  max_unauth_connections_per_subnet : Z;
  new_connections_per_minute_per_ip : Z;
  new_connections_burst_per_ip : Z;
  auth_failure_ban_threshold : Z;
  auth_failure_ban_window : Duration;
  auth_failure_ban_duration : Duration;
}.

Definition from_app_config (c : Config.AppConfig) : AdmissionConfig := {|
  max_unauth_connections_global := Config.max_unauth_connections_global c;
  max_unauth_connections_per_ip := Config.max_unauth_connections_per_ip c;
  max_unauth_connections_per_subnet := Config.max_unauth_connections_per_subnet c;
  new_connections_per_minute_per_ip := Config.new_connections_per_minute_per_ip c;
  new_connections_burst_per_ip := Config.new_connections_burst_per_ip c;
  auth_failure_ban_threshold := Config.auth_failure_ban_threshold c;
  auth_failure_ban_window := Config.auth_failure_ban_window c;
  auth_failure_ban_duration := Config.auth_failure_ban_duration c;
|}.

Inductive RejectReason :=
| TooManyUnauthenticatedConnections
| TooManyUnauthenticatedConnectionsForIp
| TooManyUnauthenticatedConnectionsForSubnet
| ConnectionRateLimited
| TemporarilyBanned.

#[global] Instance RejectReason_eq_dec : EqDecision RejectReason.
Proof. solve_decision. Defined.

(** [RejectReason::category], the metric and log key of a rejection. *)
Definition category (r : RejectReason) : str :=
  match r with
  | TooManyUnauthenticatedConnections => lit "admission-global-limit"
  | TooManyUnauthenticatedConnectionsForIp => lit "admission-per-ip-limit"
  | TooManyUnauthenticatedConnectionsForSubnet => lit "admission-per-subnet-limit"
  | ConnectionRateLimited => lit "admission-rate-limit"
  | TemporarilyBanned => lit "admission-temporary-ban"
  end.

(** [impl Display for RejectReason]. *)
Definition reject_reason_display (r : RejectReason) : str :=
  match r with
  | TooManyUnauthenticatedConnections => lit "global unauthenticated connection limit reached"
  | TooManyUnauthenticatedConnectionsForIp => lit "per-IP unauthenticated connection limit reached"
  | TooManyUnauthenticatedConnectionsForSubnet =>
      lit "per-subnet unauthenticated connection limit reached"
  | ConnectionRateLimited => lit "connection rate limited"
  | TemporarilyBanned => lit "peer temporarily banned after repeated authentication failures"
  end.

Record TokenBucket := { tokens : f64; last_refill : Instant }.

Record PeerState := {
  peer_unauthenticated_connections : Z;
  auth_failures : list Instant;
  banned_until : option Instant;
  connection_bucket : TokenBucket;
}.

Record SubnetKey := { addr : IpAddr; prefix_len : Z }.

#[global] Instance SubnetKey_eq_dec : EqDecision SubnetKey.
Proof. solve_decision. Defined.
#[global] Instance SubnetKey_countable : Countable SubnetKey.
Proof.
  apply (inj_countable' (λ k, (addr k, prefix_len k)) (λ '(a, n), Build_SubnetKey a n)).
  by intros [].
Defined.

Record AdmissionState := {
  config : AdmissionConfig;
  unauthenticated_connections : Z;
  per_subnet : gmap SubnetKey Z;
  per_peer : gmap IpAddr PeerState;
  last_peer_sweep : Instant;
}.

(** Field updates of the structs that are mutated in place. *)
Definition set_unauthenticated_connections (n : Z) (st : AdmissionState) : AdmissionState :=
  {| config := config st; unauthenticated_connections := n; per_subnet := per_subnet st;
     per_peer := per_peer st; last_peer_sweep := last_peer_sweep st |}.
Definition set_per_subnet (m : gmap SubnetKey Z) (st : AdmissionState) : AdmissionState :=
  {| config := config st; unauthenticated_connections := unauthenticated_connections st;
     per_subnet := m; per_peer := per_peer st; last_peer_sweep := last_peer_sweep st |}.
Definition set_per_peer (m : gmap IpAddr PeerState) (st : AdmissionState) : AdmissionState :=
  {| config := config st; unauthenticated_connections := unauthenticated_connections st;
     per_subnet := per_subnet st; per_peer := m; last_peer_sweep := last_peer_sweep st |}.
Definition set_last_peer_sweep (t : Instant) (st : AdmissionState) : AdmissionState :=
  {| config := config st; unauthenticated_connections := unauthenticated_connections st;
     per_subnet := per_subnet st; per_peer := per_peer st; last_peer_sweep := t |}.

Definition set_peer_unauth (n : Z) (p : PeerState) : PeerState :=
  {| peer_unauthenticated_connections := n; auth_failures := auth_failures p;
     banned_until := banned_until p; connection_bucket := connection_bucket p |}.
Definition set_auth_failures (l : list Instant) (p : PeerState) : PeerState :=
  {| peer_unauthenticated_connections := peer_unauthenticated_connections p;
     auth_failures := l; banned_until := banned_until p;
     connection_bucket := connection_bucket p |}.
Definition set_banned_until (o : option Instant) (p : PeerState) : PeerState :=
  {| peer_unauthenticated_connections := peer_unauthenticated_connections p;
     auth_failures := auth_failures p; banned_until := o;
     connection_bucket := connection_bucket p |}.
Definition set_connection_bucket (b : TokenBucket) (p : PeerState) : PeerState :=
  {| peer_unauthenticated_connections := peer_unauthenticated_connections p;
     auth_failures := auth_failures p; banned_until := banned_until p;
     connection_bucket := b |}.

(** ** Token bucket *)

Definition TokenBucket_new (burst_limit : Z) (now : Instant) : TokenBucket :=
  {| tokens := f64_of_Z burst_limit; last_refill := now |}.

Definition refill (limit_per_minute burst_limit : Z) (now : Instant) (b : TokenBucket)
  : TokenBucket :=
  let refill_rate_per_second := f64_div (f64_of_Z limit_per_minute) f64_sixty in
  let elapsed := as_secs_f64 (duration_since now (last_refill b)) in
  {| tokens := f64_min (f64_add (tokens b) (f64_mul elapsed refill_rate_per_second))
                       (f64_of_Z burst_limit);
     last_refill := now |}.

Definition try_consume (limit_per_minute burst_limit : Z) (now : Instant) (b : TokenBucket)
  : TokenBucket * bool :=
  let b := refill limit_per_minute burst_limit now b in
  if f64_ge (tokens b) f64_one
  then ({| tokens := f64_sub (tokens b) f64_one; last_refill := last_refill b |}, true)
  else (b, false).

(** ** Peer state *)

Definition PeerState_new (burst_limit : Z) (now : Instant) : PeerState :=
  {| peer_unauthenticated_connections := 0; auth_failures := []; banned_until := None;
     connection_bucket := TokenBucket_new burst_limit now |}.

Definition is_banned (now : Instant) (p : PeerState) : bool :=
  match banned_until p with Some until => now <? until | None => false end.

(** Pops the front while it is older than [oldest_allowed]. *)
Fixpoint prune_before (oldest_allowed : Instant) (values : list Instant) : list Instant :=
  match values with
  | [] => []
  | v :: vs => if v <? oldest_allowed then prune_before oldest_allowed vs else values
  end.

Definition refresh_transient_state (now : Instant) (window : Duration) (p : PeerState)
  : run PeerState :=
  let p := match banned_until p with
           | Some until => if until <=? now then set_banned_until None p else p
           | None => p
           end in
  cutoff ← instant_sub now window;
  mret (set_auth_failures (prune_before cutoff (auth_failures p)) p).

Definition can_be_removed (p : PeerState) : bool :=
  (peer_unauthenticated_connections p =? 0)
  && bool_decide (banned_until p = None) && bool_decide (auth_failures p = []).

(** ** Subnets *)

Definition subnet_key (peer_ip : IpAddr) : SubnetKey :=
  match peer_ip with
  | V4 ip => {| addr := V4 (V4Octets (o0 ip) (o1 ip) (o2 ip) 0); prefix_len := 24 |}
  | V6 ip => {| addr := V6 (V6Segments (s0 ip) (s1 ip) (s2 ip) (s3 ip) 0 0 0 0);
                prefix_len := 64 |}
  end.

(** ** Admission state *)

Definition AdmissionState_new (cfg : AdmissionConfig) (now : Instant) : AdmissionState :=
  {| config := cfg; unauthenticated_connections := 0; per_subnet := ∅; per_peer := ∅;
     last_peer_sweep := now |}.

Definition maybe_cleanup_peers (now : Instant) (st : AdmissionState) : run AdmissionState :=
  if duration_since now (last_peer_sweep st) <? PEER_SWEEP_INTERVAL then mret st
  else
    peers ← map_retain (λ peer,
      peer ← refresh_transient_state now (auth_failure_ban_window (config st)) peer;
      mret (if can_be_removed peer then None else Some peer)) (per_peer st);
    mret (set_last_peer_sweep now (set_per_peer peers st)).

Definition cleanup_peer (peer_ip : IpAddr) (now : Instant) (st : AdmissionState)
  : run AdmissionState :=
  match per_peer st !! peer_ip with
  | None => mret st
  | Some peer =>
      peer ← refresh_transient_state now (auth_failure_ban_window (config st)) peer;
      mret (set_per_peer (if can_be_removed peer then delete peer_ip (per_peer st)
                          else <[peer_ip := peer]> (per_peer st)) st)
  end.

(** [entry(peer_ip).or_insert_with(|| PeerState::new(burst, now))]. *)
Definition peer_or_insert (peer_ip : IpAddr) (now : Instant) (st : AdmissionState) : PeerState :=
  default (PeerState_new (new_connections_burst_per_ip (config st)) now)
          (per_peer st !! peer_ip).

Definition try_acquire (peer_ip : IpAddr) (subnet : SubnetKey) (now : Instant)
  (st : AdmissionState) : run (AdmissionState * result RejectReason unit) :=
  st ← maybe_cleanup_peers now st;
  st ← cleanup_peer peer_ip now st;
  let peer := per_peer st !! peer_ip in
  let cfg := config st in
  if match peer with Some peer => is_banned now peer | None => false end
  then mret (st, Err TemporarilyBanned)
  else if max_unauth_connections_global cfg <=? unauthenticated_connections st
  then mret (st, Err TooManyUnauthenticatedConnections)
  else if match peer with
          | Some peer => max_unauth_connections_per_ip cfg <=? peer_unauthenticated_connections peer
          | None => false
          end
  then mret (st, Err TooManyUnauthenticatedConnectionsForIp)
  else
    let subnet_connections := default 0 (per_subnet st !! subnet) in
    if max_unauth_connections_per_subnet cfg <=? subnet_connections
    then mret (st, Err TooManyUnauthenticatedConnectionsForSubnet)
    else
      let peer := peer_or_insert peer_ip now st in
      let '(bucket, consumed) :=
        try_consume (new_connections_per_minute_per_ip cfg) (new_connections_burst_per_ip cfg)
                    now (connection_bucket peer) in
      let peer := set_connection_bucket bucket peer in
      if consumed then
        mret (set_per_subnet
                (<[subnet := wrapping_add usize_max (default 0 (per_subnet st !! subnet)) 1]>
                   (per_subnet st))
                (set_per_peer
                   (<[peer_ip := set_peer_unauth
                        (wrapping_add usize_max (peer_unauthenticated_connections peer) 1) peer]>
                      (per_peer st))
                   (set_unauthenticated_connections
                      (wrapping_add usize_max (unauthenticated_connections st) 1) st)),
              Ok tt)
      else mret (set_per_peer (<[peer_ip := peer]> (per_peer st)) st, Err ConnectionRateLimited).

Definition record_auth_failure (peer_ip : IpAddr) (now : Instant) (st : AdmissionState)
  : run (AdmissionState * bool) :=
  st ← maybe_cleanup_peers now st;
  st ← cleanup_peer peer_ip now st;
  let peer := peer_or_insert peer_ip now st in
  cutoff ← instant_sub now (auth_failure_ban_window (config st));
  let failures := prune_before cutoff (auth_failures peer) ++ [now] in
  if auth_failure_ban_threshold (config st) <=? Z.of_nat (length failures) then
    until ← instant_add now (auth_failure_ban_duration (config st));
    mret (set_per_peer (<[peer_ip := set_banned_until (Some until) (set_auth_failures [] peer)]>
                          (per_peer st)) st, true)
  else
    mret (set_per_peer (<[peer_ip := set_auth_failures failures peer]> (per_peer st)) st, false).

Definition release (peer_ip : IpAddr) (subnet : SubnetKey) (now : Instant) (st : AdmissionState)
  : run AdmissionState :=
  st ← maybe_cleanup_peers now st;
  let st := if 0 <? unauthenticated_connections st
            then set_unauthenticated_connections (unauthenticated_connections st - 1) st
            else st in
  let st := match per_subnet st !! subnet with
            | Some count =>
                if 1 <? count then set_per_subnet (<[subnet := count - 1]> (per_subnet st)) st
                else set_per_subnet (delete subnet (per_subnet st)) st
            | None => st
            end in
  let st := match per_peer st !! peer_ip with
            | Some peer =>
                if 0 <? peer_unauthenticated_connections peer
                then set_per_peer
                       (<[peer_ip := set_peer_unauth (peer_unauthenticated_connections peer - 1) peer]>
                          (per_peer st)) st
                else st
            | None => st
            end in
  cleanup_peer peer_ip now st.

(** ** Controller and guard *)

(** [AdmissionController]: the state behind its mutex. *)
Abbreviation AdmissionController := (mutex AdmissionState) (only parsing).

Record AdmissionGuard := { guard_peer_ip : IpAddr; guard_subnet : SubnetKey; released : bool }.

Definition AdmissionController_new (cfg : AdmissionConfig) (now : Instant) : AdmissionController :=
  Unpoisoned (AdmissionState_new cfg now).

Definition try_acquire_at (c : AdmissionController) (peer_ip : IpAddr) (now : Instant)
  : AdmissionController * run (result RejectReason AdmissionGuard) :=
  let subnet := subnet_key peer_ip in
  let '(c', r) := with_lock "admission lock poisoned" c (try_acquire peer_ip subnet now) in
  (c', map_run (map_ok (λ _, {| guard_peer_ip := peer_ip; guard_subnet := subnet;
                           released := false |})) r).

Definition record_auth_failure_at (c : AdmissionController) (peer_ip : IpAddr) (now : Instant)
  : AdmissionController * run bool :=
  with_lock "admission lock poisoned" c (record_auth_failure peer_ip now).

Definition controller_release (c : AdmissionController) (peer_ip : IpAddr) (subnet : SubnetKey)
  (now : Instant) : AdmissionController * run unit :=
  with_lock "admission lock poisoned" c
    (λ st, st' ← release peer_ip subnet now st; mret (st', tt)).

(** [AdmissionGuard::release]. *)
Definition guard_release (c : AdmissionController) (g : AdmissionGuard) (now : Instant)
  : AdmissionController * run AdmissionGuard :=
  if released g then (c, mret g)
  else
    let '(c', r) := controller_release c (guard_peer_ip g) (guard_subnet g) now in
    (c', map_run (λ _, {| guard_peer_ip := guard_peer_ip g; guard_subnet := guard_subnet g;
                       released := true |}) r).

(** [impl Drop for AdmissionGuard]. *)
Definition guard_drop (c : AdmissionController) (g : AdmissionGuard) (now : Instant)
  : AdmissionController * run unit :=
  let '(c', r) := guard_release c g now in (c', map_run (λ _, tt) r).

(** [AdmissionGuard::mark_authenticated]: releases, then the consumed guard is
    dropped. *)
Definition guard_mark_authenticated (c : AdmissionController) (g : AdmissionGuard)
  (now now_drop : Instant) : AdmissionController * run unit :=
  let '(c', r) := guard_release c g now in
  match r with
  | Ret g' => guard_drop c' g' now_drop
  | Panic e => (c', Panic e)
  end.

(** ** Clean-ups

    Both clean-ups refresh entries and drop those that carry no information;
    [cleaned] is what they have in common: every peer entry is left alone or
    replaced by [keep], and nothing else changes. *)

Definition refreshed (now cutoff : Instant) (p : PeerState) : PeerState :=
  let p := match banned_until p with
           | Some until => if until <=? now then set_banned_until None p else p
           | None => p
           end in
  set_auth_failures (prune_before cutoff (auth_failures p)) p.

Definition keep (now cutoff : Instant) (p : PeerState) : option PeerState :=
  let p := refreshed now cutoff p in if can_be_removed p then None else Some p.

Definition ban_cutoff (now : Instant) (st : AdmissionState) : Instant :=
  now - auth_failure_ban_window (config st).

(** The subtraction [now - auth_failure_ban_window] does not overflow. *)
Definition cutoff_ok (now : Instant) (st : AdmissionState) : Prop :=
  instant_min ≤ ban_cutoff now st.

Record cleaned (now : Instant) (st st' : AdmissionState) : Prop := {
  cleaned_config : config st' = config st;
  cleaned_unauth : unauthenticated_connections st' = unauthenticated_connections st;
  cleaned_subnet : per_subnet st' = per_subnet st;
  cleaned_peer ip : per_peer st' !! ip = per_peer st !! ip
    ∨ per_peer st' !! ip = per_peer st !! ip ≫= keep now (ban_cutoff now st);
}.

Lemma refresh_transient_state_Ret now window p p' :
  refresh_transient_state now window p = Ret p' ↔
  p' = refreshed now (now - window) p ∧ instant_min ≤ now - window.
Proof.
  unfold refresh_transient_state, refreshed, instant_sub.
  destruct (instant_min <=? now - window) eqn:E; bool_to_prop; cbn; split.
  - by intros [= <-].
  - by intros [-> _].
  - done.
  - intros [_ ?]. lia.
Qed.

Lemma keep_Ret now window p o :
  (peer ← refresh_transient_state now window p;
   mret (if can_be_removed peer then None else Some peer)) = Ret o ↔
  o = keep now (now - window) p ∧ instant_min ≤ now - window.
Proof.
  rewrite run_bind_Ret. setoid_rewrite refresh_transient_state_Ret. unfold keep. split.
  - intros (p' & [-> ?] & [= <-]). done.
  - intros [-> ?]. eauto.
Qed.

Lemma maybe_cleanup_peers_Ret now st st' :
  maybe_cleanup_peers now st = Ret st' →
  (st' = st ∧ duration_since now (last_peer_sweep st) < PEER_SWEEP_INTERVAL)
  ∨ (last_peer_sweep st' = now ∧ cleaned now st st' ∧
     ∀ ip, per_peer st' !! ip = per_peer st !! ip ≫= keep now (ban_cutoff now st)).
Proof.
  unfold maybe_cleanup_peers. destruct (_ <? _) eqn:E; bool_to_prop.
  { intros [= <-]. auto. }
  intros H. right. inv_bind.
  match goal with H : map_retain _ _ = Ret ?m |- _ => apply map_retain_Ret in H as [Hret Hl] end.
  assert (∀ ip, x !! ip = per_peer st !! ip ≫= keep now (ban_cutoff now st)) as Hx.
  { intros ip. rewrite Hl. destruct (per_peer st !! ip) as [p|] eqn:Hp; [|done].
    destruct (Hret _ _ Hp) as [o Ho]. cbn. rewrite Ho. by apply keep_Ret in Ho as [-> _]. }
  split_and!; [done| |done]. split; try done. intros ip. right. apply Hx.
Qed.

Lemma cleaned_refl now st : cleaned now st st.
Proof. split; auto. Qed.

Lemma maybe_cleanup_peers_cleaned now st st' :
  maybe_cleanup_peers now st = Ret st' → cleaned now st st'.
Proof.
  intros [[-> _]|(_ & ? & _)]%maybe_cleanup_peers_Ret; auto using cleaned_refl.
Qed.

Lemma cleanup_peer_Ret ip now st st' :
  cleanup_peer ip now st = Ret st' →
  cleaned now st st' ∧ last_peer_sweep st' = last_peer_sweep st ∧
  per_peer st' !! ip = per_peer st !! ip ≫= keep now (ban_cutoff now st) ∧
  ∀ ip', ip' ≠ ip → per_peer st' !! ip' = per_peer st !! ip'.
Proof.
  unfold cleanup_peer. destruct (per_peer st !! ip) as [p|] eqn:Hp.
  2:{ intros [= <-]. rewrite Hp. auto using cleaned_refl. }
  intros H. inv_bind.
  match goal with H : refresh_transient_state _ _ _ = _ |- _ =>
    apply refresh_transient_state_Ret in H as [-> Hw] end.
  assert (Hself : (if can_be_removed (refreshed now (ban_cutoff now st) p)
      then delete ip (per_peer st)
      else <[ip:=refreshed now (ban_cutoff now st) p]> (per_peer st)) !! ip
    = keep now (ban_cutoff now st) p).
  { unfold keep. case_match; by simplify_map_eq. }
  assert (Hother : ∀ ip', ip' ≠ ip → (if can_be_removed (refreshed now (ban_cutoff now st) p)
      then delete ip (per_peer st)
      else <[ip:=refreshed now (ban_cutoff now st) p]> (per_peer st)) !! ip'
    = per_peer st !! ip') by (intros; case_match; by simplify_map_eq).
  split_and!; try done. split; try done. intros ip'.
  destruct (decide (ip' = ip)) as [->|]; [right; rewrite Hp; apply Hself|left; by apply Hother].
Qed.

Lemma cleanup_peer_cleaned ip now st st' : cleanup_peer ip now st = Ret st' → cleaned now st st'.
Proof. by intros [? _]%cleanup_peer_Ret. Qed.

#[export] Hint Resolve maybe_cleanup_peers_cleaned cleanup_peer_cleaned : narrowd.

(** Both clean-ups return when the cutoff is in range. *)
Lemma maybe_cleanup_peers_total now st :
  cutoff_ok now st → ∃ st', maybe_cleanup_peers now st = Ret st'.
Proof.
  intros Hw. unfold maybe_cleanup_peers. case_match; [by eexists|].
  match goal with |- context [map_retain ?f ?m] =>
    destruct (map_retain_total f m) as [m' Hm'] end.
  { intros ip p _. eexists. by apply keep_Ret. }
  eexists. apply run_bind_Ret. by eexists.
Qed.

Lemma cleanup_peer_total ip now st : cutoff_ok now st → ∃ st', cleanup_peer ip now st = Ret st'.
Proof.
  intros Hw. unfold cleanup_peer. case_match; [|by eexists].
  eexists. apply run_bind_Ret. eexists. split; [by apply refresh_transient_state_Ret|done].
Qed.

(** Two states with the same counters, whatever their bans and buckets. *)
Definition peer_count (st : AdmissionState) (ip : IpAddr) : Z :=
  match per_peer st !! ip with Some p => peer_unauthenticated_connections p | None => 0 end.

Record same_counts (st st' : AdmissionState) : Prop := {
  same_config : config st' = config st;
  same_unauth : unauthenticated_connections st' = unauthenticated_connections st;
  same_subnet : per_subnet st' = per_subnet st;
  same_peer ip : peer_count st' ip = peer_count st ip;
}.

#[global] Instance same_counts_equiv : Equivalence same_counts.
Proof.
  split.
  - by intros st.
  - intros st st' []. by split.
  - intros st1 st2 st3 [] []. split; congruence.
Qed.

Lemma refreshed_count now cutoff p :
  peer_unauthenticated_connections (refreshed now cutoff p) = peer_unauthenticated_connections p.
Proof. unfold refreshed. by repeat case_match. Qed.

Lemma keep_count now cutoff p :
  match keep now cutoff p with Some p' => peer_unauthenticated_connections p' | None => 0 end
  = peer_unauthenticated_connections p.
Proof.
  unfold keep. destruct (can_be_removed _) eqn:E.
  - unfold can_be_removed in E. bool_to_prop. by rewrite refreshed_count in *.
  - apply refreshed_count.
Qed.

Lemma cleaned_same_counts now st st' : cleaned now st st' → same_counts st st'.
Proof.
  intros [? ? ? Hp]. split; try done. intros ip. unfold peer_count.
  destruct (Hp ip) as [->| ->]; [done|].
  destruct (per_peer st !! ip) as [p|]; [|done]. apply keep_count.
Qed.

(** ** Specification: the multiset of live guards

    The abstract state is the list of addresses whose guard is alive.  The
    concrete counters refine it ([adm_inv]); the abstract machine admits a peer
    only below the configured limits ([spec_step]). *)

Definition cnt_ip (ip : IpAddr) (gs : list IpAddr) : Z := countZ (λ g, bool_decide (g = ip)) gs.
Definition cnt_subnet (s : SubnetKey) (gs : list IpAddr) : Z :=
  countZ (λ g, bool_decide (subnet_key g = s)) gs.

Record adm_inv (gs : list IpAddr) (st : AdmissionState) : Prop := {
  inv_global : unauthenticated_connections st = Z.of_nat (length gs);
  inv_subnet s : per_subnet st !! s = if cnt_subnet s gs =? 0 then None else Some (cnt_subnet s gs);
  inv_peer ip : peer_count st ip = cnt_ip ip gs;
}.

(** The configured limits are [usize] values. *)
Record cfg_ok (cfg : AdmissionConfig) : Prop := {
  cfg_global : 0 ≤ max_unauth_connections_global cfg ≤ usize_max;
  cfg_per_ip : 0 ≤ max_unauth_connections_per_ip cfg ≤ usize_max;
  cfg_per_subnet : 0 ≤ max_unauth_connections_per_subnet cfg ≤ usize_max;
}.

(** One atomic operation of the program on the shared state at a given time,
    with the guards it creates and consumes. *)
Inductive adm_step_at (now : Instant)
  : AdmissionState * list IpAddr → AdmissionState * list IpAddr → Prop :=
| step_acquire st gs ip st' r :
    try_acquire ip (subnet_key ip) now st = Ret (st', r) →
    adm_step_at now (st, gs) (st', if is_ok r then ip :: gs else gs)
| step_release st gs gs' ip st' :
    gs ≡ₚ ip :: gs' →
    release ip (subnet_key ip) now st = Ret st' →
    adm_step_at now (st, gs) (st', gs')
| step_auth_failure st gs ip st' b :
    record_auth_failure ip now st = Ret (st', b) →
    adm_step_at now (st, gs) (st', gs).

(** A step at some time of [P]. *)
Definition adm_step (P : Instant → Prop) (s s' : AdmissionState * list IpAddr) : Prop :=
  ∃ now, P now ∧ adm_step_at now s s'.

(** The abstract machine. *)
Inductive spec_step (cfg : AdmissionConfig) : list IpAddr → list IpAddr → Prop :=
| spec_admit gs ip :
    Z.of_nat (length gs) < max_unauth_connections_global cfg →
    cnt_ip ip gs < Z.max 1 (max_unauth_connections_per_ip cfg) →
    cnt_subnet (subnet_key ip) gs < max_unauth_connections_per_subnet cfg →
    spec_step cfg gs (ip :: gs)
| spec_release gs gs' ip : gs ≡ₚ ip :: gs' → spec_step cfg gs gs'
| spec_stutter gs : spec_step cfg gs gs.

Definition spec_limits (cfg : AdmissionConfig) (gs : list IpAddr) : Prop :=
  Z.of_nat (length gs) ≤ max_unauth_connections_global cfg ∧
  (∀ ip, cnt_ip ip gs ≤ Z.max 1 (max_unauth_connections_per_ip cfg)) ∧
  (∀ s, cnt_subnet s gs ≤ max_unauth_connections_per_subnet cfg).

#[global] Instance adm_inv_proper gs : Proper (same_counts ==> iff) (adm_inv gs).
Proof.
  intros st st' Hs. split; intros [Hg Hsub Hp]; destruct Hs as [_ Hu Hsn Hpc]; split.
  - congruence.
  - intros s. rewrite Hsn. apply Hsub.
  - intros ip. rewrite Hpc. apply Hp.
  - congruence.
  - intros s. rewrite <- Hsn. apply Hsub.
  - intros ip. rewrite <- Hpc. apply Hp.
Qed.

#[global] Instance adm_inv_perm : Proper ((≡ₚ) ==> (=) ==> iff) adm_inv.
Proof.
  intros gs gs' Hp st ? <-. unfold cnt_subnet, cnt_ip in *.
  split; intros [Hg Hs Hi]; unfold cnt_subnet, cnt_ip in *; split; unfold cnt_subnet, cnt_ip.
  1,4: by rewrite Hg, Hp.
  all: intros; rewrite ?Hs, ?Hi, (countZ_perm _ _ _ Hp); done.
Qed.

Lemma cnt_ip_cons ip g gs : cnt_ip ip (g :: gs) = (if bool_decide (g = ip) then 1 else 0) + cnt_ip ip gs.
Proof. unfold cnt_ip. by rewrite countZ_cons. Qed.

Lemma cnt_subnet_cons s g gs :
  cnt_subnet s (g :: gs) = (if bool_decide (subnet_key g = s) then 1 else 0) + cnt_subnet s gs.
Proof. unfold cnt_subnet. by rewrite countZ_cons. Qed.

Lemma cnt_ip_nonneg ip gs : 0 ≤ cnt_ip ip gs.
Proof. apply countZ_nonneg. Qed.

Lemma cnt_subnet_nonneg s gs : 0 ≤ cnt_subnet s gs.
Proof. apply countZ_nonneg. Qed.

Lemma adm_inv_new cfg now : adm_inv [] (AdmissionState_new cfg now).
Proof. by split. Qed.

Lemma adm_inv_subnet_default gs st s :
  adm_inv gs st → default 0 (per_subnet st !! s) = cnt_subnet s gs.
Proof. intros [_ Hs _]. rewrite Hs. case_match; bool_to_prop; done. Qed.

Lemma cnt_ip_le_length ip gs : cnt_ip ip gs ≤ Z.of_nat (length gs).
Proof. apply countZ_le_length. Qed.

Lemma cnt_subnet_le_length s gs : cnt_subnet s gs ≤ Z.of_nat (length gs).
Proof. apply countZ_le_length. Qed.

(** The state and answer of an admission attempt, after the two clean-ups. *)
Lemma try_acquire_inv ip subnet now st st' r :
  try_acquire ip subnet now st = Ret (st', r) →
  ∃ st1, same_counts st st1 ∧
    ((∃ e, r = Err e ∧ same_counts st1 st') ∨
     (r = Ok tt ∧
      unauthenticated_connections st1 < max_unauth_connections_global (config st1) ∧
      (peer_count st1 ip < max_unauth_connections_per_ip (config st1) ∨ peer_count st1 ip = 0) ∧
      default 0 (per_subnet st1 !! subnet) < max_unauth_connections_per_subnet (config st1) ∧
      config st' = config st1 ∧
      unauthenticated_connections st' = wrapping_add usize_max (unauthenticated_connections st1) 1 ∧
      per_subnet st' = <[subnet := wrapping_add usize_max (default 0 (per_subnet st1 !! subnet)) 1]>
                         (per_subnet st1) ∧
      ∀ ip', peer_count st' ip' = if decide (ip' = ip)
        then wrapping_add usize_max (peer_count st1 ip) 1 else peer_count st1 ip')).
Proof.
  unfold try_acquire. intros H. inv_bind. rename x into sta, x0 into st1.
  match goal with H1 : maybe_cleanup_peers _ _ = _, H2 : cleanup_peer _ _ _ = _ |- _ =>
    apply maybe_cleanup_peers_cleaned, cleaned_same_counts in H1;
    apply cleanup_peer_cleaned, cleaned_same_counts in H2 end.
  exists st1. split; [by etrans|].
  assert (Hsame : ∀ b, same_counts st1 (set_per_peer (<[ip:=set_connection_bucket b
      (peer_or_insert ip now st1)]> (per_peer st1)) st1)).
  { intros b. split; try done. intros ip'. unfold peer_count, peer_or_insert. cbn.
    destruct (decide (ip' = ip)) as [->|]; simplify_map_eq; [|done].
    by destruct (per_peer st1 !! ip). }
  repeat case_match; bool_to_prop; inv_bind; simplify_eq; cbn in *.
  all: try (left; eexists; split; [done|apply Hsame]).
  all: try (left; eexists; split; [done|reflexivity]).
  all: right; split_and!; try done; try lia.
  all: try (unfold peer_count; simplify_map_eq; auto; fail).
  all: intros ip'; unfold peer_count, peer_or_insert; cbn;
    destruct (decide (ip' = ip)) as [->|]; simplify_map_eq; done.
Qed.

Lemma try_acquire_refines gs ip now st st' r :
  cfg_ok (config st) → adm_inv gs st →
  try_acquire ip (subnet_key ip) now st = Ret (st', r) →
  config st' = config st ∧
  adm_inv (if is_ok r then ip :: gs else gs) st' ∧
  spec_step (config st) gs (if is_ok r then ip :: gs else gs).
Proof.
  intros Hcfg Hinv H. apply try_acquire_inv in H as (st1 & Hs & H).
  rewrite Hs in Hinv. rewrite <- (same_config _ _ Hs) in *.
  destruct H as [(e & -> & Hs')|(-> & Hg & Hp & Hsub & Hc & Hu & Hps & Hpc)]; cbn.
  { rewrite Hs' in Hinv. split_and!; [apply Hs'|done|constructor]. }
  rewrite (adm_inv_subnet_default _ _ _ Hinv) in Hsub, Hps.
  pose proof (inv_global _ _ Hinv) as Hig. pose proof (inv_peer _ _ Hinv) as Hip.
  rewrite Hip in Hp. destruct Hcfg as [Hcg Hci Hcs].
  pose proof (cnt_ip_nonneg ip gs). pose proof (cnt_ip_le_length ip gs).
  pose proof (cnt_subnet_nonneg (subnet_key ip) gs).
  split_and!; [done| |constructor; lia]. split.
  - rewrite Hu, wrapping_add_small by lia. simpl length. lia.
  - intros s. rewrite Hps, cnt_subnet_cons. case_bool_decide as Hsk.
    + subst s. rewrite lookup_insert_eq, wrapping_add_small by lia.
      rewrite (proj2 (Z.eqb_neq _ _)) by lia. f_equal. lia.
    + rewrite lookup_insert_ne, Z.add_0_l by done. apply (inv_subnet _ _ Hinv).
  - intros ip'. rewrite Hpc, cnt_ip_cons. case_decide as Hd.
    + subst ip'. rewrite bool_decide_eq_true_2, Hip, wrapping_add_small by (done || lia). lia.
    + rewrite bool_decide_eq_false_2, Hip by congruence. lia.
Qed.

(** The middle part of [release], between the two clean-ups. *)
Definition release_counts (ip : IpAddr) (subnet : SubnetKey) (st : AdmissionState)
  : AdmissionState :=
  let st := if 0 <? unauthenticated_connections st
            then set_unauthenticated_connections (unauthenticated_connections st - 1) st
            else st in
  let st := match per_subnet st !! subnet with
            | Some count =>
                if 1 <? count then set_per_subnet (<[subnet := count - 1]> (per_subnet st)) st
                else set_per_subnet (delete subnet (per_subnet st)) st
            | None => st
            end in
  match per_peer st !! ip with
  | Some peer =>
      if 0 <? peer_unauthenticated_connections peer
      then set_per_peer
             (<[ip := set_peer_unauth (peer_unauthenticated_connections peer - 1) peer]>
                (per_peer st)) st
      else st
  | None => st
  end.

Lemma release_unfold ip subnet now st :
  release ip subnet now st =
  (st1 ← maybe_cleanup_peers now st; cleanup_peer ip now (release_counts ip subnet st1)).
Proof. done. Qed.

Lemma release_counts_frame ip subnet st :
  config (release_counts ip subnet st) = config st ∧
  last_peer_sweep (release_counts ip subnet st) = last_peer_sweep st ∧
  (∀ ip', ip' ≠ ip → per_peer (release_counts ip subnet st) !! ip' = per_peer st !! ip').
Proof.
  unfold release_counts. repeat case_match; cbn; split_and!; try done;
    intros; by rewrite ?lookup_insert_ne by congruence.
Qed.

Lemma release_counts_unauth ip subnet st :
  0 < unauthenticated_connections st →
  unauthenticated_connections (release_counts ip subnet st) = unauthenticated_connections st - 1.
Proof.
  intros Hpos. apply Z.ltb_lt in Hpos as Hb. unfold release_counts. rewrite Hb.
  by repeat case_match.
Qed.

Lemma release_counts_subnet ip subnet st s :
  per_subnet (release_counts ip subnet st) !! s =
  if decide (s = subnet)
  then (n ← per_subnet st !! subnet; if 1 <? n then Some (n - 1) else None)
  else per_subnet st !! s.
Proof.
  unfold release_counts.
  destruct (0 <? unauthenticated_connections st), (per_subnet st !! subnet) as [n|] eqn:Hn;
    cbn; rewrite ?Hn; [destruct (1 <? n) eqn:E| |destruct (1 <? n) eqn:E|]; cbn;
    repeat case_match; cbn in *; case_decide; subst; simplify_map_eq; done.
Qed.

Lemma release_counts_peer ip subnet st ip' :
  0 < peer_count st ip →
  peer_count (release_counts ip subnet st) ip' =
  if decide (ip' = ip) then peer_count st ip - 1 else peer_count st ip'.
Proof.
  intros Hpos. unfold peer_count in *. unfold release_counts.
  destruct (per_peer st !! ip) as [p|] eqn:Hp; [|lia]. apply Z.ltb_lt in Hpos as Hb.
  assert (∀ st2, per_peer st2 = per_peer st →
    match per_peer (match per_peer st2 !! ip with
      | Some peer => if 0 <? peer_unauthenticated_connections peer
          then set_per_peer (<[ip := set_peer_unauth (peer_unauthenticated_connections peer - 1) peer]>
                               (per_peer st2)) st2 else st2
      | None => st2 end) !! ip' with
    | Some p => peer_unauthenticated_connections p | None => 0 end
    = if decide (ip' = ip) then peer_unauthenticated_connections p - 1
      else match per_peer st !! ip' with Some p => peer_unauthenticated_connections p | None => 0 end)
    as Haux.
  { intros st2 Hst2. rewrite Hst2, Hp, Hb. cbn.
    case_decide; subst; by simplify_map_eq. }
  apply Haux. by repeat case_match.
Qed.

Lemma release_refines gs ip now st st' :
  adm_inv (ip :: gs) st → release ip (subnet_key ip) now st = Ret st' →
  config st' = config st ∧ adm_inv gs st'.
Proof.
  rewrite release_unfold. intros Hinv H. inv_bind. rename x into st1.
  match goal with H1 : maybe_cleanup_peers _ _ = _ |- _ =>
    apply maybe_cleanup_peers_cleaned, cleaned_same_counts in H1; rename H1 into Hs1 end.
  apply cleanup_peer_cleaned, cleaned_same_counts in H as Hs2. rewrite Hs1 in Hinv.
  destruct (release_counts_frame ip (subnet_key ip) st1) as (Hc & _ & _).
  split; [by rewrite (same_config _ _ Hs2), Hc, (same_config _ _ Hs1)|].
  rewrite <- Hs2. pose proof (cnt_ip_nonneg ip gs).
  pose proof (cnt_subnet_nonneg (subnet_key ip) gs).
  destruct Hinv as [Hg Hsn Hp]. split.
  - simpl length in Hg. rewrite release_counts_unauth; lia.
  - intros s. rewrite release_counts_subnet, Hsn, (Hsn s), !cnt_subnet_cons.
    rewrite bool_decide_eq_true_2 by done. case_decide as Hd.
    + subst s. rewrite (proj2 (Z.eqb_neq _ _)) by lia. cbn.
      destruct (cnt_subnet (subnet_key ip) gs =? 0) eqn:E; bool_to_prop.
      * by rewrite E.
      * rewrite (proj2 (Z.ltb_lt _ _)) by lia. f_equal. lia.
    + by rewrite bool_decide_eq_false_2 by congruence.
  - intros ip'.
    rewrite release_counts_peer by (rewrite Hp, cnt_ip_cons, bool_decide_eq_true_2 by done; lia).
    rewrite !Hp, !cnt_ip_cons. case_decide as Hd.
    + subst ip'. rewrite bool_decide_eq_true_2 by done. lia.
    + rewrite bool_decide_eq_false_2 by congruence. lia.
Qed.

Lemma record_auth_failure_inv ip now st st' b :
  record_auth_failure ip now st = Ret (st', b) → same_counts st st'.
Proof.
  unfold record_auth_failure. intros H. inv_bind. rename x into st1, x0 into st2, x1 into cutoff.
  match goal with H1 : maybe_cleanup_peers _ _ = _, H2 : cleanup_peer _ _ _ = _ |- _ =>
    apply maybe_cleanup_peers_cleaned, cleaned_same_counts in H1;
    apply cleanup_peer_cleaned, cleaned_same_counts in H2 end.
  assert (Hset : ∀ f, (∀ p, peer_unauthenticated_connections (f p) = peer_unauthenticated_connections p) →
    same_counts st2 (set_per_peer (<[ip := f (peer_or_insert ip now st2)]> (per_peer st2)) st2)).
  { intros f Hf. split; try done. intros ip'. unfold peer_count, peer_or_insert. cbn.
    destruct (decide (ip' = ip)) as [->|]; simplify_map_eq; [|done].
    rewrite Hf. by destruct (per_peer st2 !! ip). }
  etrans; [by etrans|]. case_match; inv_bind; simplify_eq.
  - by apply (Hset (λ p, set_banned_until (Some x) (set_auth_failures [] p))).
  - by apply (Hset (λ p, set_auth_failures
      (prune_before cutoff (auth_failures (peer_or_insert ip now st2)) ++ [now]) p)).
Qed.

(** Every operation of the program is a step of the abstract machine. *)
Lemma adm_step_refines st gs st' gs' :
  cfg_ok (config st) → adm_inv gs st → adm_step (λ _, True) (st, gs) (st', gs') →
  config st' = config st ∧ adm_inv gs' st' ∧ spec_step (config st) gs gs'.
Proof.
  intros Hcfg Hinv (now & _ & Hstep). inversion Hstep; subst.
  - by apply try_acquire_refines with (now := now).
  - match goal with H : gs ≡ₚ _ |- _ => rename H into Hperm end. rewrite Hperm in Hinv.
    edestruct release_refines as [Hc Hi]; [done..|]. split_and!; [done..|by econstructor].
  - match goal with H : record_auth_failure _ _ _ = _ |- _ =>
      apply record_auth_failure_inv in H as Hs end.
    split_and!; [apply Hs|by rewrite <- Hs|constructor].
Qed.

Lemma spec_limits_step cfg gs gs' :
  spec_limits cfg gs → spec_step cfg gs gs' → spec_limits cfg gs'.
Proof.
  intros (Hg & Hi & Hs) Hstep. inversion Hstep; subst; [|split_and!|done].
  - split_and!; [simpl length; lia| |].
    + intros ip'. rewrite cnt_ip_cons. case_bool_decide; subst; [lia|]. apply Hi.
    + intros s. rewrite cnt_subnet_cons. case_bool_decide; subst; [lia|]. apply Hs.
  - match goal with H : gs ≡ₚ _ |- _ => rewrite H in Hg end. simpl length in Hg. lia.
  - intros ip'. specialize (Hi ip'). unfold cnt_ip in *.
    match goal with H : gs ≡ₚ _ |- _ => rewrite (countZ_perm _ _ _ H), countZ_cons in Hi end.
    case_match; lia.
  - intros s. specialize (Hs s). unfold cnt_subnet in *.
    match goal with H : gs ≡ₚ _ |- _ => rewrite (countZ_perm _ _ _ H), countZ_cons in Hs end.
    case_match; lia.
Qed.

Lemma spec_limits_nil cfg : cfg_ok cfg → spec_limits cfg [].
Proof.
  intros [Hg Hi Hs]. split_and!; [simpl; lia|..]; intros; unfold cnt_ip, cnt_subnet; rewrite countZ_nil; lia.
Qed.

(** Reachable from the fresh state of the daemon. *)
Definition adm_reachable (cfg : AdmissionConfig) (now : Instant)
  (s : AdmissionState * list IpAddr) : Prop :=
  rtc (adm_step (λ _, True)) (AdmissionState_new cfg now, []) s.

Lemma adm_reachable_inv cfg now st gs :
  cfg_ok cfg → adm_reachable cfg now (st, gs) →
  config st = cfg ∧ adm_inv gs st ∧ spec_limits cfg gs ∧ rtc (spec_step cfg) [] gs.
Proof.
  intros Hcfg Hr.
  apply (rtc_ind_r (λ s, config s.1 = cfg ∧ adm_inv s.2 s.1 ∧ spec_limits cfg s.2
    ∧ rtc (spec_step cfg) [] s.2)) in Hr; [done| |].
  - cbn. split_and!; [done|apply adm_inv_new|by apply spec_limits_nil|done].
  - intros [st1 gs1] [st2 gs2] _ Hstep (Hc & Hi & Hl & Hr'); cbn in *. subst cfg.
    apply adm_step_refines in Hstep as (Hc' & Hi' & Hs'); [|done..].
    split_and!; [done|done|by eapply spec_limits_step|by eapply rtc_r].
Qed.

(** ** Bans *)

Definition ban_at_least (st : AdmissionState) (ip : IpAddr) (u : Instant) : Prop :=
  ∃ p u', per_peer st !! ip = Some p ∧ banned_until p = Some u' ∧ u ≤ u'.

Lemma keep_banned now cutoff p u :
  banned_until p = Some u → now < u →
  ∃ p', keep now cutoff p = Some p' ∧ banned_until p' = Some u.
Proof.
  intros Hb Hlt. unfold keep, refreshed, can_be_removed. rewrite Hb.
  rewrite (proj2 (Z.leb_gt u now)) by lia. cbn. rewrite Hb.
  rewrite bool_decide_eq_false_2, andb_false_r by done. cbn. eauto.
Qed.

Lemma cleaned_ban now st st' ip u :
  cleaned now st st' → ban_at_least st ip u → now < u → ban_at_least st' ip u.
Proof.
  intros Hc (p & u' & Hp & Hb & Hle) Hlt. destruct (cleaned_peer _ _ _ Hc ip) as [Heq|Heq].
  - exists p, u'. by rewrite Heq.
  - destruct (keep_banned now (ban_cutoff now st) p u') as (p' & Hk & Hb'); [done|lia|].
    exists p', u'. by rewrite Heq, Hp; cbn; rewrite Hk.
Qed.

Lemma cleaned_config_trans now st st1 st2 :
  cleaned now st st1 → cleaned now st1 st2 → config st2 = config st.
Proof. intros [H1 _ _ _] [H2 _ _ _]. congruence. Qed.

(** An attempt by a banned peer is rejected. *)
Lemma try_acquire_banned ip subnet now st st' r u :
  ban_at_least st ip u → now < u →
  try_acquire ip subnet now st = Ret (st', r) → r = Err TemporarilyBanned.
Proof.
  unfold try_acquire. intros Hban Hlt H. inv_bind.
  eapply (cleaned_ban now) in Hban; [|eauto with narrowd|done].
  eapply (cleaned_ban now) in Hban; [|eauto with narrowd|done].
  destruct Hban as (p & u' & Hp & Hb & Hle). rewrite Hp in H. unfold is_banned in H. rewrite Hb in H.
  rewrite (proj2 (Z.ltb_lt _ _)) in H by lia. by injection H.
Qed.

Lemma adm_step_at_config now st gs st' gs' :
  adm_step_at now (st, gs) (st', gs') → config st' = config st.
Proof.
  intros H. inversion H; subst.
  - match goal with H : try_acquire _ _ _ _ = _ |- _ => apply try_acquire_inv in H end.
    destruct_and?. naive_solver eauto using same_config, eq_trans.
  - match goal with H : release _ _ _ _ = _ |- _ => rewrite release_unfold in H; inv_bind;
      apply cleanup_peer_cleaned in H; destruct H as [Hc _ _ _] end.
    match goal with H : maybe_cleanup_peers _ _ = _ |- _ =>
      apply maybe_cleanup_peers_cleaned in H as [Hc' _ _ _] end.
    by rewrite Hc, (proj1 (release_counts_frame _ _ _)), Hc'.
  - match goal with H : record_auth_failure _ _ _ = _ |- _ =>
      apply record_auth_failure_inv in H end. by apply same_config.
Qed.

(** Attempts by other peers, and releases, leave a ban alone. *)
Lemma try_acquire_ban ip ip' subnet now st st' r u :
  ban_at_least st ip u → now < u →
  try_acquire ip' subnet now st = Ret (st', r) → ban_at_least st' ip u.
Proof.
  unfold try_acquire. intros Hban Hlt H. inv_bind.
  eapply (cleaned_ban now) in Hban; [|eauto with narrowd|done].
  eapply (cleaned_ban now) in Hban; [|eauto with narrowd|done].
  assert (Hset : ∀ f g, (∀ p, banned_until (f p) = banned_until p) →
    per_peer g = <[ip' := f (peer_or_insert ip' now x0)]> (per_peer x0) → ban_at_least g ip u).
  { intros f g Hf Hg. destruct Hban as (p & u' & Hp & Hb & Hle). unfold ban_at_least.
    rewrite Hg. unfold peer_or_insert. destruct (decide (ip = ip')) as [<-|].
    - exists (f p), u'. rewrite Hp, lookup_insert_eq, Hf. done.
    - exists p, u'. by rewrite lookup_insert_ne. }
  repeat case_match; inv_bind; simplify_eq; try done.
  all: try (eapply (Hset (set_connection_bucket _)); done).
  all: by eapply (Hset (λ p, set_peer_unauth _ (set_connection_bucket _ p))).
Qed.

Lemma release_ban ip ip' subnet now st st' u :
  ban_at_least st ip u → now < u →
  release ip' subnet now st = Ret st' → ban_at_least st' ip u.
Proof.
  rewrite release_unfold. intros Hban Hlt H. inv_bind.
  eapply (cleaned_ban now) in Hban; [|eauto with narrowd|done].
  eapply (cleaned_ban now); [eauto with narrowd| |done].
  destruct Hban as (p & u' & Hp & Hb & Hle). unfold ban_at_least, release_counts.
  destruct (decide (ip = ip')) as [<-|].
  - repeat case_match; cbn in *; simplify_map_eq; eauto 10.
  - repeat case_match; cbn in *; rewrite ?lookup_insert_ne by congruence; eauto 10.
Qed.

Lemma record_auth_failure_ban ip ip' now st st' b u :
  ban_at_least st ip u → now < u → u ≤ now + auth_failure_ban_duration (config st) →
  record_auth_failure ip' now st = Ret (st', b) → ban_at_least st' ip u.
Proof.
  unfold record_auth_failure. intros Hban Hlt Hdur H. inv_bind.
  match goal with H1 : maybe_cleanup_peers _ _ = _, H2 : cleanup_peer _ _ _ = _ |- _ =>
    rewrite <- (cleaned_config_trans now _ _ _ (maybe_cleanup_peers_cleaned _ _ _ H1)
                 (cleanup_peer_cleaned _ _ _ _ H2)) in Hdur end.
  eapply (cleaned_ban now) in Hban; [|eauto with narrowd|done].
  eapply (cleaned_ban now) in Hban; [|eauto with narrowd|done].
  destruct Hban as (p & u' & Hp & Hb & Hle). unfold ban_at_least.
  case_match; inv_bind; simplify_eq; cbn; destruct (decide (ip = ip')) as [<-|].
  - match goal with H : instant_add _ _ = _ |- _ => apply instant_add_Ret in H as [-> _] end.
    eexists _, _. rewrite lookup_insert_eq. split_and!; [done|done|lia].
  - exists p, u'. by rewrite lookup_insert_ne.
  - eexists _, u'. rewrite lookup_insert_eq. split_and!; [done| |done]. unfold peer_or_insert.
    by rewrite Hp.
  - exists p, u'. by rewrite lookup_insert_ne.
Qed.

Lemma adm_step_at_ban now ip st gs st' gs' u :
  ban_at_least st ip u → now < u → u ≤ now + auth_failure_ban_duration (config st) →
  adm_step_at now (st, gs) (st', gs') → ban_at_least st' ip u.
Proof.
  intros Hban Hlt Hdur H. inversion H; subst;
    eauto using try_acquire_ban, release_ban, record_auth_failure_ban.
Qed.

Lemma record_auth_failure_true ip now st st' :
  record_auth_failure ip now st = Ret (st', true) →
  config st' = config st ∧ ban_at_least st' ip (now + auth_failure_ban_duration (config st)).
Proof.
  intros H. pose proof (record_auth_failure_inv _ _ _ _ _ H) as Hs.
  split; [apply Hs|]. rewrite <- (same_config _ _ Hs).
  unfold record_auth_failure in H. inv_bind. case_match; inv_bind; simplify_eq; cbn.
  match goal with H : instant_add _ _ = _ |- _ => apply instant_add_Ret in H as [-> _] end.
  eexists _, _. cbn. rewrite lookup_insert_eq. split_and!; [done|done|lia].
Qed.

(** ** Failures below the threshold *)

(** The recorded failures of a peer that is not banned. *)
Definition failures_are (st : AdmissionState) (ip : IpAddr) (l : list Instant) : Prop :=
  match per_peer st !! ip with
  | Some p => banned_until p = None ∧ auth_failures p = l
  | None => l = []
  end.

Lemma prune_before_all_recent cutoff l : Forall (λ t, cutoff ≤ t) l → prune_before cutoff l = l.
Proof. destruct 1; cbn; [done|]. by rewrite (proj2 (Z.ltb_ge _ _)). Qed.

Lemma cleaned_failures now st st' ip l :
  cleaned now st st' → Forall (λ t, ban_cutoff now st ≤ t) l →
  failures_are st ip l → failures_are st' ip l.
Proof.
  intros Hc Hl Hf. unfold failures_are in *. destruct (cleaned_peer _ _ _ Hc ip) as [->| ->]; [done|].
  destruct (per_peer st !! ip) as [p|]; [|done]. cbn. destruct Hf as [Hb Ha].
  unfold keep, refreshed. rewrite Hb, Ha, prune_before_all_recent by done.
  destruct (can_be_removed _) eqn:E; cbn; [|done].
  unfold can_be_removed in E. bool_to_prop. done.
Qed.

Lemma record_auth_failure_total ip now st :
  cutoff_ok now st → now + auth_failure_ban_duration (config st) ≤ instant_max →
  ∃ st' b, record_auth_failure ip now st = Ret (st', b).
Proof.
  intros Hw Hd. unfold record_auth_failure.
  destruct (maybe_cleanup_peers_total now st Hw) as [st1 H1].
  pose proof (cleaned_config _ _ _ (maybe_cleanup_peers_cleaned _ _ _ H1)) as Hc1.
  destruct (cleanup_peer_total ip now st1) as [st2 H2]; [unfold cutoff_ok, ban_cutoff; by rewrite Hc1|].
  pose proof (cleaned_config _ _ _ (cleanup_peer_cleaned _ _ _ _ H2)) as Hc2.
  unfold mbind, run_bind. rewrite H1, H2. unfold instant_sub, instant_add.
  rewrite Hc2, Hc1, (proj2 (Z.leb_le instant_min _)), (proj2 (Z.leb_le _ instant_max)) by done.
  case_match; eauto.
Qed.

Lemma try_acquire_total ip subnet now st :
  cutoff_ok now st → ∃ st' r, try_acquire ip subnet now st = Ret (st', r).
Proof.
  intros Hw. unfold try_acquire.
  destruct (maybe_cleanup_peers_total now st Hw) as [st1 H1].
  pose proof (cleaned_config _ _ _ (maybe_cleanup_peers_cleaned _ _ _ H1)) as Hc1.
  destruct (cleanup_peer_total ip now st1) as [st2 H2]; [unfold cutoff_ok, ban_cutoff; by rewrite Hc1|].
  unfold mbind, run_bind. rewrite H1, H2. repeat case_match; by eexists _, _.
Qed.

Lemma release_total ip subnet now st :
  cutoff_ok now st → ∃ st', release ip subnet now st = Ret st'.
Proof.
  intros Hw. rewrite release_unfold. destruct (maybe_cleanup_peers_total now st Hw) as [st1 H1].
  pose proof (cleaned_config _ _ _ (maybe_cleanup_peers_cleaned _ _ _ H1)) as Hc1.
  unfold mbind, run_bind. rewrite H1. apply cleanup_peer_total.
  unfold cutoff_ok, ban_cutoff. by rewrite (proj1 (release_counts_frame _ _ _)), Hc1.
Qed.

(** A recorded failure that returns has its cutoff in range. *)
Lemma record_auth_failure_cutoff ip now st st' b :
  record_auth_failure ip now st = Ret (st', b) → cutoff_ok now st.
Proof.
  unfold record_auth_failure. intros H. inv_bind.
  match goal with H1 : maybe_cleanup_peers _ _ = _, H2 : cleanup_peer _ _ _ = _,
    H3 : instant_sub _ _ = _ |- _ =>
    rewrite (cleaned_config_trans now _ _ _ (maybe_cleanup_peers_cleaned _ _ _ H1)
              (cleanup_peer_cleaned _ _ _ _ H2)) in H3;
    by apply instant_sub_Ret in H3 as [_ ?] end.
Qed.

Lemma record_auth_failure_step ip now st l :
  cutoff_ok now st → now + auth_failure_ban_duration (config st) ≤ instant_max →
  failures_are st ip l → Forall (λ t, ban_cutoff now st ≤ t) l →
  ∃ st', record_auth_failure ip now st
           = Ret (st', auth_failure_ban_threshold (config st) <=? Z.of_nat (S (length l)))
    ∧ config st' = config st
    ∧ (Z.of_nat (S (length l)) < auth_failure_ban_threshold (config st) →
       failures_are st' ip (l ++ [now])).
Proof.
  intros Hw Hd Hf Hl. destruct (record_auth_failure_total ip now st Hw Hd) as (st' & b & H).
  exists st'. pose proof (record_auth_failure_inv _ _ _ _ _ H) as Hs. rewrite H.
  unfold record_auth_failure in H. inv_bind. rename x into st1, x0 into st2.
  match goal with H1 : maybe_cleanup_peers _ _ = _, H2 : cleanup_peer _ _ _ = _,
    H3 : instant_sub _ _ = _ |- _ =>
    apply maybe_cleanup_peers_cleaned in H1; apply cleanup_peer_cleaned in H2;
    apply instant_sub_Ret in H3 as [-> _];
    pose proof (cleaned_config _ _ _ H1) as Hc1; pose proof (cleaned_config _ _ _ H2) as Hc2;
    apply (cleaned_failures _ _ _ _ l H1 Hl) in Hf;
    apply (cleaned_failures _ _ _ _ l H2) in Hf; [|by unfold ban_cutoff; rewrite Hc1] end.
  assert (Hpf : banned_until (peer_or_insert ip now st2) = None
              ∧ auth_failures (peer_or_insert ip now st2) = l).
  { unfold failures_are, peer_or_insert in *. by destruct (per_peer st2 !! ip). }
  destruct Hpf as [Hpb Hpa].
  rewrite Hc2, Hc1, Hpa, prune_before_all_recent, length_app, Nat.add_1_r in H by done.
  destruct (_ <=? _) eqn:E; bool_to_prop; inv_bind; simplify_eq.
  - split_and!; [done|by rewrite (same_config _ _ Hs)|intros; lia].
  - split_and!; [done|by rewrite (same_config _ _ Hs)|]. intros _.
    unfold failures_are. cbn. by rewrite lookup_insert_eq.
Qed.

(** A sequence of failures of one peer, with the answers. *)
Fixpoint record_failures (ip : IpAddr) (ts : list Instant) (st : AdmissionState)
  : run (AdmissionState * list bool) :=
  match ts with
  | [] => mret (st, [])
  | t :: ts => '(st, b) ← record_auth_failure ip t st;
               '(st, bs) ← record_failures ip ts st; mret (st, b :: bs)
  end.

Lemma record_failures_below hi ip ts st l :
  Forall (λ t, hi - auth_failure_ban_window (config st) ≤ t ≤ hi) (l ++ ts) →
  Forall (λ t, cutoff_ok t st ∧ t + auth_failure_ban_duration (config st) ≤ instant_max) ts →
  failures_are st ip l → ts ≠ [] →
  Z.of_nat (length (l ++ ts)) = auth_failure_ban_threshold (config st) →
  ∃ st', record_failures ip ts st = Ret (st', repeat false (length ts - 1) ++ [true]).
Proof.
  revert st l. induction ts as [|t ts IH]; intros st l Hw Hok Hf Hne Hlen; [done|].
  apply Forall_cons_1 in Hok as [[Hcut Hdur] Hok].
  destruct (record_auth_failure_step ip t st l) as (st' & Hr & Hc & Hf'); [done..| |].
  { apply Forall_app in Hw as [Hwl [Ht _]%Forall_cons_1].
    unfold ban_cutoff. eapply Forall_impl; [exact Hwl|]. cbn. lia. }
  cbn [record_failures]. unfold mbind, run_bind. rewrite Hr.
  rewrite length_app in Hlen. cbn [length] in Hlen. destruct ts as [|t' ts].
  - cbn in *. rewrite (proj2 (Z.leb_le _ _)) by lia. by eexists.
  - rewrite (proj2 (Z.leb_gt _ _)) by (cbn [length] in *; lia).
    destruct (IH st' (l ++ [t])) as [st'' Hr'']; rewrite ?Hc; rewrite <- ?app_assoc; try done.
    + eapply Forall_impl; [exact Hok|]. unfold cutoff_ok, ban_cutoff. cbn. intros. by rewrite Hc.
    + apply Hf'. cbn [length] in *. lia.
    + rewrite !length_app. cbn [length app] in *. lia.
    + unfold mbind, run_bind in Hr''. rewrite Hr''. exists st''. cbn [length].
      by replace (S (S (length ts)) - 1)%nat with (S (S (length ts) - 1)) by lia.
Qed.

(** ** Token bucket at one instant *)

Lemma refill_same_instant lim burst now k :
  0 ≤ lim < 2 ^ 53 → 0 ≤ burst < 2 ^ 53 → 0 ≤ k ≤ burst →
  refill lim burst now {| tokens := f64_int k; last_refill := now |}
  = {| tokens := f64_int k; last_refill := now |}.
Proof.
  intros Hl Hb Hk. unfold refill. cbn [tokens last_refill]. f_equal.
  unfold duration_since. rewrite Z.sub_diag. change (as_secs_f64 (Z.max 0 0)) with (S754_zero false).
  pose proof (f64_rate_finite lim Hl) as Hr.
  assert (∃ s, f64_mul (S754_zero false) (f64_div (f64_of_Z lim) f64_sixty) = S754_zero s)
    as [s ->] by (destruct (f64_div _ _); try done; cbn; eauto).
  assert (f64_add (f64_int k) (S754_zero s) = f64_int k) as ->
    by (unfold f64_int; case_match; [by destruct s|done]).
  rewrite f64_of_Z_int, f64_min_unfold by (done || (unfold f64_int; by case_match)).
  unfold SFltb. rewrite f64_int_compare by lia.
  destruct (Z.compare_spec burst k); [done|lia|done].
Qed.

Lemma try_consume_int lim burst now k :
  0 ≤ lim < 2 ^ 53 → 0 ≤ burst < 2 ^ 53 → 0 ≤ k ≤ burst →
  try_consume lim burst now {| tokens := f64_int k; last_refill := now |}
  = ({| tokens := f64_int (Z.max 0 (k - 1)); last_refill := now |}, 1 <=? k).
Proof.
  intros Hl Hb Hk. unfold try_consume. rewrite refill_same_instant by done. cbn [tokens last_refill].
  unfold f64_ge, SFleb, f64_one at 1. rewrite f64_of_Z_int, f64_int_compare by lia.
  destruct (Z.compare_spec 1 k), (1 <=? k) eqn:E; bool_to_prop; try lia.
  - by rewrite f64_int_pred, Z.max_r by lia.
  - by rewrite f64_int_pred, Z.max_r by lia.
  - replace k with 0 by lia. done.
Qed.

(** [n] attempts at one instant, with the answers. *)
Fixpoint consume_times (n : nat) (lim burst : Z) (now : Instant) (b : TokenBucket) : list bool :=
  match n with
  | O => []
  | S n => let '(b, ok) := try_consume lim burst now b in ok :: consume_times n lim burst now b
  end.

Lemma consume_times_int n lim burst now k :
  0 ≤ lim < 2 ^ 53 → 0 ≤ burst < 2 ^ 53 → 0 ≤ k ≤ burst →
  consume_times n lim burst now {| tokens := f64_int k; last_refill := now |}
  = (λ i, Z.of_nat i <? k) <$> seq 0 n.
Proof.
  revert k. induction n as [|n IH]; intros k Hl Hb Hk; [done|].
  cbn [consume_times]. rewrite try_consume_int, IH by (done || lia). cbn [seq fmap list_fmap].
  f_equal; [destruct (1 <=? k) eqn:E, (Z.of_nat 0 <? k) eqn:E'; bool_to_prop; lia|].
  rewrite <- fmap_S_seq, <- list_fmap_compose. apply list_fmap_ext. intros i x _. cbn.
  destruct (Z.of_nat x <? Z.max 0 (k - 1)) eqn:E, (Z.of_nat (S x) <? k) eqn:E'; bool_to_prop; lia.
Qed.

(** ** Connections that come and go one after the other *)

(** Connect, then disconnect, [n] times at one instant. *)
Fixpoint probes (n : nat) (ip : IpAddr) (now : Instant) (st : AdmissionState)
  : run (AdmissionState * list (result RejectReason unit)) :=
  match n with
  | O => mret (st, [])
  | S n =>
      '(st, r) ← try_acquire ip (subnet_key ip) now st;
      st ← (if is_ok r then release ip (subnet_key ip) now st else mret st);
      '(st, rs) ← probes n ip now st;
      mret (st, r :: rs)
  end.

(** No entry for the peer, and room under the two shared limits. *)
Record probe_ready (ip : IpAddr) (now : Instant) (st : AdmissionState) : Prop := {
  ready_peer : per_peer st !! ip = None;
  ready_global : 0 ≤ unauthenticated_connections st < max_unauth_connections_global (config st);
  ready_global_max : max_unauth_connections_global (config st) ≤ usize_max;
  ready_subnet : 0 ≤ default 0 (per_subnet st !! subnet_key ip)
                   < max_unauth_connections_per_subnet (config st);
  ready_subnet_max : max_unauth_connections_per_subnet (config st) ≤ usize_max;
  ready_rate : 0 ≤ new_connections_per_minute_per_ip (config st) < 2 ^ 53;
  ready_burst : 1 ≤ new_connections_burst_per_ip (config st) < 2 ^ 53;
  ready_cutoff : cutoff_ok now st;
}.

Lemma cleaned_ready ip now st st' :
  cleaned now st st' → probe_ready ip now st → probe_ready ip now st'.
Proof.
  intros [Hc Hu Hs Hp] [? ? ? ? ? ? ? ?].
  split; unfold cutoff_ok, ban_cutoff in *; rewrite ?Hc, ?Hu, ?Hs; try done.
  destruct (Hp ip) as [->| ->]; [done|]. by rewrite ready_peer0.
Qed.

(** A peer entry with one connection and nothing else to remember. *)
Definition idle_peer (n : Z) (p : PeerState) : Prop :=
  peer_unauthenticated_connections p = n ∧ banned_until p = None ∧ auth_failures p = [].

Lemma keep_idle now cutoff n p :
  idle_peer n p → keep now cutoff p = if n =? 0 then None else Some p.
Proof.
  destruct p as [n' fs b bk]. intros (Hn & Hb & Hf). cbn in *. subst.
  unfold keep, refreshed, can_be_removed. cbn. by destruct (n =? 0).
Qed.

Lemma cleaned_idle now st st' ip n p :
  cleaned now st st' → n ≠ 0 → per_peer st !! ip = Some p → idle_peer n p →
  per_peer st' !! ip = Some p.
Proof.
  intros Hc Hn Hp Hi. destruct (cleaned_peer _ _ _ Hc ip) as [->| ->]; [done|].
  rewrite Hp. cbn. rewrite (keep_idle _ _ n) by done. by rewrite (proj2 (Z.eqb_neq _ _)).
Qed.

Lemma try_acquire_ready ip now st :
  probe_ready ip now st →
  ∃ st1 b, probe_ready ip now st1 ∧ cleaned now st st1 ∧
    try_acquire ip (subnet_key ip) now st
    = Ret (set_per_subnet
            (<[subnet_key ip := default 0 (per_subnet st1 !! subnet_key ip) + 1]> (per_subnet st1))
            (set_per_peer (<[ip := {| peer_unauthenticated_connections := 1; auth_failures := [];
                                      banned_until := None; connection_bucket := b |}]> (per_peer st1))
               (set_unauthenticated_connections (unauthenticated_connections st1 + 1) st1)), Ok tt).
Proof.
  intros Hr. destruct (maybe_cleanup_peers_total now st) as [st1 H1]; [apply Hr|].
  pose proof (maybe_cleanup_peers_cleaned _ _ _ H1) as Hc1.
  apply (cleaned_ready ip _ _ _ Hc1) in Hr. destruct Hr as [Hp Hg Hgm Hs Hsm Hrate Hb Hcut].
  eexists st1, _. split_and!; [done|done|].
  unfold try_acquire, mbind, run_bind. rewrite H1. unfold cleanup_peer, peer_or_insert. rewrite Hp.
  cbn -[try_consume f64_of_Z]. rewrite Hp.
  rewrite (proj2 (Z.leb_gt _ (unauthenticated_connections st1))) by lia.
  rewrite (proj2 (Z.leb_gt _ (default 0 _))) by lia. cbn [default connection_bucket PeerState_new].
  unfold TokenBucket_new. rewrite f64_of_Z_int, try_consume_int by lia.
  rewrite (proj2 (Z.leb_le _ _)) by lia.
  rewrite (wrapping_add_small _ (default 0 _)), (wrapping_add_small _ (unauthenticated_connections _))
    by lia. reflexivity.
Qed.

(** Disconnecting gives the shared counters back and forgets the peer. *)
Lemma release_ready ip now st b :
  probe_ready ip now st →
  ∃ st', release ip (subnet_key ip) now
    (set_per_subnet
       (<[subnet_key ip := default 0 (per_subnet st !! subnet_key ip) + 1]> (per_subnet st))
       (set_per_peer (<[ip := {| peer_unauthenticated_connections := 1; auth_failures := [];
                                 banned_until := None; connection_bucket := b |}]> (per_peer st))
          (set_unauthenticated_connections (unauthenticated_connections st + 1) st))) = Ret st'
    ∧ config st' = config st ∧ probe_ready ip now st'.
Proof.
  intros Hr. set (st0 := set_per_subnet _ _). rewrite release_unfold.
  assert (Hcut : cutoff_ok now st0) by apply Hr.
  destruct (maybe_cleanup_peers_total now st0 Hcut) as [st1 H1].
  pose proof (maybe_cleanup_peers_cleaned _ _ _ H1) as [Hc1 Hu1 Hs1 _].
  assert (Hp1 : ∃ p, per_peer st1 !! ip = Some p ∧ idle_peer 1 p).
  { exists {| peer_unauthenticated_connections := 1; auth_failures := [];
              banned_until := None; connection_bucket := b |}. split; [|by split_and!].
    eapply (cleaned_idle now st0 _ _ 1); [by apply maybe_cleanup_peers_cleaned|done| |by split_and!].
    cbn. by rewrite lookup_insert_eq. }
  destruct Hp1 as (p & Hp1 & Hi). destruct Hr as [Hp Hg Hgm Hs Hsm Hrate Hb _].
  destruct (release_counts_frame ip (subnet_key ip) st1) as (Hc2 & _ & _).
  destruct (cleanup_peer_total ip now (release_counts ip (subnet_key ip) st1)) as [st2 H2].
  { unfold cutoff_ok, ban_cutoff in *. by rewrite Hc2, Hc1. }
  exists st2. unfold mbind, run_bind. rewrite H1. split; [done|].
  apply cleanup_peer_Ret in H2 as ([Hc3 Hu3 Hs3 _] & _ & Hp3 & _).
  assert (Hcfg : config st2 = config st) by (rewrite Hc3, Hc2, Hc1; done).
  split; [done|]. split; rewrite ?Hcfg; try done.
  - rewrite Hp3. unfold release_counts. destruct Hi as (Hi1 & Hi2 & Hi3).
    assert (∀ st', per_peer st' = per_peer st1 →
      per_peer (match per_peer st' !! ip with
        | Some peer => if 0 <? peer_unauthenticated_connections peer
            then set_per_peer (<[ip := set_peer_unauth (peer_unauthenticated_connections peer - 1) peer]>
                                 (per_peer st')) st' else st'
        | None => st' end) !! ip = Some (set_peer_unauth 0 p)) as Haux.
    { intros st' ->. rewrite Hp1, Hi1. cbn. by rewrite lookup_insert_eq. }
    rewrite Haux by (by repeat case_match). cbn. by apply (keep_idle _ _ 0).
  - rewrite Hu3, release_counts_unauth by (rewrite Hu1; cbn; lia). rewrite Hu1. cbn. lia.
  - rewrite Hs3, release_counts_subnet, decide_True, Hs1 by done. cbn. rewrite lookup_insert_eq. cbn.
    case_match; bool_to_prop; cbn; lia.
  - unfold cutoff_ok, ban_cutoff in *. by rewrite Hcfg.
Qed.

Lemma probes_ready n ip now st :
  probe_ready ip now st → ∃ st', probes n ip now st = Ret (st', repeat (Ok tt) n).
Proof.
  revert st. induction n as [|n IH]; intros st Hr; [by eexists|].
  cbn [probes]. destruct (try_acquire_ready ip now st Hr) as (st1 & b & Hr1 & _ & ->).
  destruct (release_ready ip now st1 b Hr1) as (st2 & Hrel & _ & Hr2).
  destruct (IH st2 Hr2) as [st3 H3]. unfold mbind, run_bind. cbn [is_ok].
  rewrite Hrel. unfold mbind, run_bind in H3. rewrite H3. by eexists.
Qed.

(** ** Guards *)

Lemma guard_mark_authenticated_release c ip subnet now later :
  guard_mark_authenticated c {| guard_peer_ip := ip; guard_subnet := subnet; released := false |}
    now later = controller_release c ip subnet now.
Proof.
  unfold guard_mark_authenticated, guard_drop, guard_release. cbn.
  destruct (controller_release c ip subnet now) as [c' [[]|e]]; cbn; done.
Qed.

Lemma guard_drop_release c ip subnet now :
  guard_drop c {| guard_peer_ip := ip; guard_subnet := subnet; released := false |} now
  = controller_release c ip subnet now.
Proof.
  unfold guard_drop, guard_release. cbn.
  destruct (controller_release c ip subnet now) as [c' [[]|e]]; cbn; done.
Qed.
