(* ===== verification/AdmissionCorrect.v ===== *)
(** * Correctness of connection admission (src/src/admission.rs)

    What the daemon relies on: the configured limits bound the live guards in
    every reachable state, the counters implement the abstract machine of live
    guards, bans are imposed at the threshold and enforced until they end, the
    token bucket admits exactly its burst, a guard gives its slot back once.
    The last section has the corner cases of the configuration. *)

From S2P Require Import Prelude Rust Float64 Net Config ConfigCorrect Admission.

Local Open Scope Z_scope.

(** ** Limits from the configuration file *)

(** The limits of an accepted configuration are [usize] values. *)
Lemma from_app_config_ok c : config_wf c → cfg_ok (from_app_config c).
Proof.
  unfold config_wf, numeric_fields. intros H.
  repeat match goal with H : Forall _ (_ :: _) |- _ => apply Forall_cons_1 in H as [? H] end.
  by split.
Qed.

(** ** A concrete configuration and its peers, for the witnesses *)

Definition example_config : AdmissionConfig := {|
  max_unauth_connections_global := 3;
  max_unauth_connections_per_ip := 2;
  max_unauth_connections_per_subnet := 2;
  new_connections_per_minute_per_ip := 60;
  new_connections_burst_per_ip := 5;
  auth_failure_ban_threshold := 2;
  auth_failure_ban_window := from_secs 60;
  auth_failure_ban_duration := from_secs 120;
|}.

Definition example_peer : IpAddr := V4 (V4Octets 203 0 113 7).

Definition example_state : AdmissionState := AdmissionState_new example_config 0.

(** The state an operation returns, on inputs where it returns. *)
Definition ret_or {A} (d : A) (r : run A) : A := match r with Ret a => a | Panic _ => d end.

(** The example state after one admission. *)
Definition example_admitted : AdmissionState :=
  (ret_or (example_state, Err TemporarilyBanned)
     (try_acquire example_peer (subnet_key example_peer) 0 example_state)).1.

Lemma example_config_ok : cfg_ok example_config.
Proof. by split. Qed.

Lemma example_step : adm_step (λ _, True) (example_state, []) (example_admitted, [example_peer]).
Proof.
  exists 0. split; [done|].
  apply (step_acquire 0 example_state [] example_peer example_admitted (Ok tt)).
  vm_compute. reflexivity.
Qed.

(** ** Limits and refinement *)

(** C1: with any well-formed configuration (all that load are), in every state reachable from
    start-up by admissions, releases and recorded failures, at any times and in
    any order, the global counter is the number of live guards and stays within
    [MaxUnauthConnectionsGlobal]; the counter of every subnet and of every
    address stays within its own limit (a limit of zero per address counts as
    one); and every counter is the number of live guards of that
    subnet or address. *)
Theorem admission_limits_hold cfg start st gs :
  config_wf cfg → adm_reachable (from_app_config cfg) start (st, gs) →
  unauthenticated_connections st = Z.of_nat (length gs) ∧
  unauthenticated_connections st ≤ Config.max_unauth_connections_global cfg ∧
  (∀ subnet n, per_subnet st !! subnet = Some n →
     n = cnt_subnet subnet gs ∧ 1 ≤ n ≤ Config.max_unauth_connections_per_subnet cfg) ∧
  (∀ ip p, per_peer st !! ip = Some p →
     peer_unauthenticated_connections p = cnt_ip ip gs ∧
     peer_unauthenticated_connections p ≤ Z.max 1 (Config.max_unauth_connections_per_ip cfg)).
Proof.
  intros Hcfg Hr.
  apply adm_reachable_inv in Hr as (_ & [Hg Hs Hp] & (Lg & Li & Ls) & _);
    [|by apply from_app_config_ok].
  split_and!; [done|cbn in Lg; lia| |].
  - intros s n Hn. rewrite Hs in Hn. pose proof (cnt_subnet_nonneg s gs).
    case_match; bool_to_prop; simplify_eq. split; [done|]. specialize (Ls s). cbn in Ls. lia.
  - intros ip p Hip. specialize (Hp ip). unfold peer_count in Hp. rewrite Hip in Hp.
    split; [done|]. rewrite Hp. apply Li.
Qed.

(** The default configuration after one admission. *)
Definition default_admitted : AdmissionState :=
  (ret_or (AdmissionState_new (from_app_config demo_defaults) 0, Err TemporarilyBanned)
     (try_acquire example_peer (subnet_key example_peer) 0
        (AdmissionState_new (from_app_config demo_defaults) 0))).1.

Lemma admission_limits_hold_witness :
  unauthenticated_connections default_admitted = Z.of_nat (length [example_peer]).
Proof.
  apply (admission_limits_hold demo_defaults 0 default_admitted [example_peer]).
  - repeat constructor; vm_compute; congruence.
  - apply rtc_once. exists 0. split; [exact I|].
    apply (step_acquire 0 _ [] example_peer default_admitted (Ok tt)). vm_compute. reflexivity.
Defined.

(** C2: the code simulates the abstract machine whose state is just the bag of
    live guards: from related states every operation leads to related states,
    and what it did to the guards is an admission below the limits, the end of
    one live guard, or nothing. *)
Theorem admission_refines_spec st gs st' gs' :
  cfg_ok (config st) → adm_inv gs st → adm_step (λ _, True) (st, gs) (st', gs') →
  config st' = config st ∧ adm_inv gs' st' ∧ spec_step (config st) gs gs'.
Proof. apply adm_step_refines. Qed.

Lemma admission_refines_spec_witness :
  adm_inv [example_peer] example_admitted ∧ spec_step example_config [] [example_peer].
Proof.
  apply (admission_refines_spec example_state [] example_admitted [example_peer]
           example_config_ok (adm_inv_new _ _) example_step).
Defined.

(** An address without recorded state, with room under the global and the
    subnet limit and a burst of at least one, is admitted; the attempt charges
    exactly one to each of the three counters. *)
Theorem admits_new_peer_below_limits ip now st :
  probe_ready ip now st →
  ∃ st', try_acquire ip (subnet_key ip) now st = Ret (st', Ok tt)
    ∧ unauthenticated_connections st' = unauthenticated_connections st + 1
    ∧ per_subnet st' !! subnet_key ip = Some (default 0 (per_subnet st !! subnet_key ip) + 1)
    ∧ peer_count st' ip = 1.
Proof.
  intros Hr. destruct (try_acquire_ready ip now st Hr) as (st1 & b & _ & Hcl & Hacq).
  eexists. split; [exact Hacq|]. destruct Hcl as [_ Hu Hs _]. cbn.
  rewrite lookup_insert_eq, Hu, Hs. unfold peer_count. cbn. by rewrite lookup_insert_eq.
Qed.

Lemma example_ready : probe_ready example_peer 0 example_state.
Proof. split; vm_compute; repeat split; congruence. Qed.

Lemma admits_new_peer_below_limits_witness :
  ∃ st', try_acquire example_peer (subnet_key example_peer) 0 example_state = Ret (st', Ok tt).
Proof.
  destruct (admits_new_peer_below_limits example_peer 0 example_state example_ready)
    as (st' & H & _). exists st'. exact H.
Defined.

(** ** Bans *)

(** C17: once a failure of [ip] at time [t] has tripped the ban, every attempt of
    [ip] at a time before [t + AuthFailureBanDuration] is answered with
    [TemporarilyBanned], whatever operations of whatever peers happen in
    between. *)
Theorem ban_is_enforced ip t st0 st1 gs1 st2 gs2 now st3 r :
  record_auth_failure ip t st0 = Ret (st1, true) →
  rtc (adm_step (λ u, t ≤ u < t + auth_failure_ban_duration (config st0))) (st1, gs1) (st2, gs2) →
  t ≤ now < t + auth_failure_ban_duration (config st0) →
  try_acquire ip (subnet_key ip) now st2 = Ret (st3, r) →
  r = Err TemporarilyBanned.
Proof.
  intros [Hc1 Hb1]%record_auth_failure_true Hsteps Hnow Hacq.
  enough (config st2 = config st0
        ∧ ban_at_least st2 ip (t + auth_failure_ban_duration (config st0))) as [_ Hb2]
    by (eapply try_acquire_banned; [exact Hb2| |exact Hacq]; lia).
  apply (rtc_ind_r (λ s, config s.1 = config st0
    ∧ ban_at_least s.1 ip (t + auth_failure_ban_duration (config st0)))) in Hsteps; [done|done|].
  intros [sta gsa] [stb gsb] _ (u & Hu & Hstep) (Hca & Hba). cbn in *. split.
  - rewrite <- Hca. by eapply adm_step_at_config.
  - eapply adm_step_at_ban; [exact Hba| | |exact Hstep]; rewrite ?Hca; lia.
Qed.

(** The example state after two failures of the same peer. *)
Definition example_banned : AdmissionState :=
  (ret_or (example_state, [])
     (record_failures example_peer [0; 1] example_state)).1.

Lemma ban_is_enforced_witness :
  (ret_or (example_state, Ok tt)
     (try_acquire example_peer (subnet_key example_peer) (from_secs 100) example_banned)).2
  = Err TemporarilyBanned.
Proof.
  apply (ban_is_enforced example_peer 1
    (ret_or (example_state, false) (record_auth_failure example_peer 0 example_state)).1
    example_banned [] example_banned [] (from_secs 100)
    (ret_or (example_state, Ok tt)
       (try_acquire example_peer (subnet_key example_peer) (from_secs 100) example_banned)).1).
  - vm_compute. reflexivity.
  - apply rtc_refl.
  - split; vm_compute; congruence.
  - vm_compute. reflexivity.
Defined.

(** A peer with no recorded failure that fails [AuthFailureBanThreshold]
    times within one [AuthFailureBanWindow] is banned by the last failure and by
    none before it. *)
Theorem ban_at_exactly_the_threshold hi ip ts st :
  failures_are st ip [] →
  Forall (λ t, hi - auth_failure_ban_window (config st) ≤ t ≤ hi) ts →
  Forall (λ t, cutoff_ok t st ∧ t + auth_failure_ban_duration (config st) ≤ instant_max) ts →
  ts ≠ [] → Z.of_nat (length ts) = auth_failure_ban_threshold (config st) →
  ∃ st', record_failures ip ts st = Ret (st', repeat false (length ts - 1) ++ [true]).
Proof. intros. by apply record_failures_below with (hi := hi) (l := []). Qed.

Lemma ban_at_exactly_the_threshold_witness :
  ∃ st', record_failures example_peer [0; 1] example_state = Ret (st', [false; true]).
Proof.
  apply (ban_at_exactly_the_threshold 1 example_peer [0; 1] example_state).
  - reflexivity.
  - repeat constructor; vm_compute; congruence.
  - repeat constructor; vm_compute; congruence.
  - congruence.
  - reflexivity.
Defined.

(** ** Token bucket *)

(** Of [n] attempts at one instant a fresh bucket admits the first
    [burst] and refuses the others: binary64 rounding does not lose or add a
    token. *)
Theorem fresh_bucket_admits_its_burst n limit burst now :
  0 ≤ limit < 2 ^ 53 → 0 ≤ burst < 2 ^ 53 →
  consume_times n limit burst now (TokenBucket_new burst now)
  = (λ i, Z.of_nat i <? burst) <$> seq 0 n.
Proof.
  intros Hl Hb. unfold TokenBucket_new. rewrite f64_of_Z_int by done.
  apply consume_times_int; lia.
Qed.

Lemma fresh_bucket_admits_its_burst_witness :
  consume_times 4 60 2 0 (TokenBucket_new 2 0) = [true; true; false; false].
Proof. apply (fresh_bucket_admits_its_burst 4 60 2 0); vm_compute; split; congruence. Defined.

(** ** Guards *)

(** A guard gives its slot back exactly once: marking it authenticated is
    one [release] of its address (the drop of the consumed guard adds nothing),
    and so is dropping a guard that was not released; a released guard does
    nothing. *)
Theorem guard_releases_once c ip subnet now later :
  guard_mark_authenticated c {| guard_peer_ip := ip; guard_subnet := subnet; released := false |}
    now later = controller_release c ip subnet now ∧
  guard_drop c {| guard_peer_ip := ip; guard_subnet := subnet; released := false |} now
    = controller_release c ip subnet now ∧
  guard_drop c {| guard_peer_ip := ip; guard_subnet := subnet; released := true |} now
    = (c, Ret tt).
Proof.
  split_and!; [apply guard_mark_authenticated_release|apply guard_drop_release|done].
Qed.

(** Two addresses share a subnet counter exactly when they are IPv4
    addresses with the same first three octets, or IPv6 addresses with the same
    first four segments; an IPv4 and an IPv6 address never do. *)
Theorem same_subnet_iff_same_prefix a b :
  subnet_key a = subnet_key b ↔
  match a, b with
  | V4 x, V4 y => o0 x = o0 y ∧ o1 x = o1 y ∧ o2 x = o2 y
  | V6 x, V6 y => s0 x = s0 y ∧ s1 x = s1 y ∧ s2 x = s2 y ∧ s3 x = s3 y
  | _, _ => False
  end.
Proof.
  destruct a as [[]|[]], b as [[]|[]]; cbn; split; intros H; try done;
    [by simplify_eq|by destruct_and!; subst..|by simplify_eq|by destruct_and!; subst].
Qed.

(** ** Panics and corner cases of the configuration *)

(** C38: no operation of a healthy controller panics as long as the end of the
    ban window is a representable [Instant]: attempts and releases always
    answer, and so does a recorded failure whose ban would end in range. *)
Theorem admission_operations_return ip subnet now st :
  cutoff_ok now st →
  (∃ st' r, try_acquire ip subnet now st = Ret (st', r)) ∧
  (∃ st', release ip subnet now st = Ret st') ∧
  (now + auth_failure_ban_duration (config st) ≤ instant_max →
   ∃ st' b, record_auth_failure ip now st = Ret (st', b)).
Proof.
  intros Hw. split_and!.
  - by apply try_acquire_total.
  - by apply release_total.
  - by apply record_auth_failure_total.
Qed.

Lemma admission_operations_return_witness :
  ∃ st', release example_peer (subnet_key example_peer) 0 example_state = Ret st'.
Proof.
  destruct (admission_operations_return example_peer (subnet_key example_peer) 0 example_state)
    as (_ & H & _); [vm_compute; congruence|exact H].
Defined.

(** A ban window that reaches before the smallest [Instant] is accepted by
    the configuration and makes the first recorded failure panic under the
    lock; from then on every admission attempt panics too, so that the daemon
    accepts no connection any more. *)
Theorem oversized_ban_window_poisons c ip now st c' r :
  c = Unpoisoned st → ¬ cutoff_ok now st →
  record_auth_failure_at c ip now = (c', r) →
  c' = Poisoned ∧ ∀ ip' now', ∃ e, try_acquire_at c' ip' now' = (Poisoned, Panic e).
Proof.
  intros -> Hw H. unfold record_auth_failure_at, with_lock in H.
  destruct (record_auth_failure ip now st) as [[st' b]|e] eqn:E.
  - exfalso. apply Hw. by eapply record_auth_failure_cutoff.
  - injection H as <- <-. split; [done|]. intros. by eexists.
Qed.

Definition endless_window_config : AdmissionConfig := {|
  max_unauth_connections_global := 3;
  max_unauth_connections_per_ip := 2;
  max_unauth_connections_per_subnet := 2;
  new_connections_per_minute_per_ip := 60;
  new_connections_burst_per_ip := 5;
  auth_failure_ban_threshold := 2;
  auth_failure_ban_window := from_secs u64_max;
  auth_failure_ban_duration := from_secs 120;
|}.

Lemma oversized_ban_window_poisons_witness :
  (record_auth_failure_at (AdmissionController_new endless_window_config 0) example_peer 0).1
  = Poisoned.
Proof.
  destruct (oversized_ban_window_poisons (AdmissionController_new endless_window_config 0)
    example_peer 0 (AdmissionState_new endless_window_config 0)
    (record_auth_failure_at (AdmissionController_new endless_window_config 0) example_peer 0).1
    (record_auth_failure_at (AdmissionController_new endless_window_config 0) example_peer 0).2)
    as [H _].
  - reflexivity.
  - intros H. vm_compute in H. apply H. reflexivity.
  - apply surjective_pairing.
  - exact H.
Defined.

(** Connections that follow one another are never rate limited: releasing
    the last connection of a peer without recorded failures forgets its bucket,
    so any number of connect-disconnect rounds at one instant all succeed,
    whatever [NewConnectionsPerMinutePerIp] is. *)
Theorem sequential_connections_not_rate_limited n ip now st :
  probe_ready ip now st → ∃ st', probes n ip now st = Ret (st', repeat (Ok tt) n).
Proof. apply probes_ready. Qed.

Lemma sequential_connections_not_rate_limited_witness :
  ∃ st', probes 1000 example_peer 0 example_state = Ret (st', repeat (Ok tt) 1000).
Proof. apply (sequential_connections_not_rate_limited 1000), example_ready. Defined.

(** ** The unit tests of the source, on the model *)

Example global_limit_blocks_new_connection :
  ∃ st', try_acquire (V4 (V4Octets 127 0 0 3)) (subnet_key (V4 (V4Octets 127 0 0 3))) 0
    {| config := {| max_unauth_connections_global := 1; max_unauth_connections_per_ip := 2;
         max_unauth_connections_per_subnet := 2; new_connections_per_minute_per_ip := 60;
         new_connections_burst_per_ip := 5; auth_failure_ban_threshold := 2;
         auth_failure_ban_window := from_secs 60; auth_failure_ban_duration := from_secs 120 |};
       unauthenticated_connections := 1; per_subnet := ∅; per_peer := ∅; last_peer_sweep := 0 |}
    = Ret (st', Err TooManyUnauthenticatedConnections).
Proof. by eexists. Qed.

Example ban_expires :
  (ret_or (example_state, Err TemporarilyBanned)
     (try_acquire example_peer (subnet_key example_peer) (from_secs 120 + 1) example_banned)).2
  = Ok tt.
Proof. vm_compute. reflexivity. Qed.
