(* ===== verification/LogLimiter.v ===== *)
(** * Rate-limited logging (src/src/log_limiter.rs)

    [LogLimiter] answers, for a key made of a peer and a category, whether a
    warning is written or swallowed, and reports with the next written warning
    how many were swallowed.  The table of keys is bounded: when it outgrows
    [max_entries] the oldest entries are evicted.

    The eviction reads the hash map in its iteration order, which Rust leaves
    unspecified: it is a parameter [iter] with the law [HashIter]. *)

From S2P Require Import Prelude Rust Net.
From Stdlib Require Sorting.Sorted.

Local Open Scope Z_scope.

(** The iteration order of a hash map: every entry once, in some order. *)
Class HashIter {K V} `{Countable K} (iter : gmap K V → list (K * V)) : Prop :=
  hash_iter_perm m : iter m ≡ₚ map_to_list m.

#[global] Instance map_to_list_HashIter `{Countable K} {V} : HashIter (@map_to_list K V (gmap K V) _).
Proof. by intros m. Qed.

(** ** Data *)

Record LogKey := { log_peer_ip : option IpAddr; log_category : str }.

#[global] Instance LogKey_eq_dec : EqDecision LogKey.
Proof. solve_decision. Defined.
#[global] Instance LogKey_countable : Countable LogKey.
Proof.
  apply (inj_countable' (λ k, (log_peer_ip k, log_category k)) (λ '(a, b), Build_LogKey a b)).
  by intros [].
Defined.

Inductive LogDecision := Emit (suppressed : Z) | Suppress.

Record LogLimiterConfig := { window : Duration; max_entries : Z }.

Record LogEntry := { last_emitted_at : Instant; entry_suppressed : Z }.

Record LogLimiterState := {
  limiter_config : LogLimiterConfig;
  entries : gmap LogKey LogEntry;
  last_cleanup : Instant;
}.

Definition LogLimiterState_new (w : Duration) (max : Z) (now : Instant) : LogLimiterState :=
  {| limiter_config := {| window := w; max_entries := max |}; entries := ∅; last_cleanup := now |}.

Definition set_entries (m : gmap LogKey LogEntry) (st : LogLimiterState) : LogLimiterState :=
  {| limiter_config := limiter_config st; entries := m; last_cleanup := last_cleanup st |}.
Definition set_last_cleanup (t : Instant) (st : LogLimiterState) : LogLimiterState :=
  {| limiter_config := limiter_config st; entries := entries st; last_cleanup := t |}.

(** ** Stable sort ([sort_by_key]) *)

Fixpoint insert_by_key {A} (key : A → Z) (x : A) (l : list A) : list A :=
  match l with
  | [] => [x]
  | y :: l' => if key x <=? key y then x :: l else y :: insert_by_key key x l'
  end.

Definition sort_by_key {A} (key : A → Z) (l : list A) : list A :=
  foldr (insert_by_key key) [] l.

(** ** Operations *)

Section Operations.
Context (iter : gmap LogKey LogEntry → list (LogKey * LogEntry)).

Definition len (m : gmap LogKey LogEntry) : Z := Z.of_nat (size m).

Definition maybe_cleanup (now : Instant) (st : LogLimiterState) : LogLimiterState :=
  let cfg := limiter_config st in
  if (len (entries st) <=? max_entries cfg)
     && (duration_since now (last_cleanup st) <? window cfg)
  then st
  else
    let retention := duration_saturating_mul (window cfg) 2 in
    let kept := filter (λ '(_, e), duration_since now (last_emitted_at e) ≤ retention) (entries st) in
    let st := set_last_cleanup now (set_entries kept st) in
    if len (entries st) <=? max_entries cfg then st
    else
      let es := sort_by_key snd ((λ '(k, e), (k, last_emitted_at e)) <$> iter (entries st)) in
      let to_remove := saturating_sub (len (entries st)) (max_entries cfg) in
      set_entries (foldl (λ m '(k, _), delete k m) (entries st) (take (Z.to_nat to_remove) es)) st.

Definition check (key : LogKey) (now : Instant) (st : LogLimiterState)
  : LogLimiterState * LogDecision :=
  let st := maybe_cleanup now st in
  match entries st !! key with
  | Some entry =>
      if window (limiter_config st) <=? duration_since now (last_emitted_at entry) then
        (set_entries (<[key := {| last_emitted_at := now; entry_suppressed := 0 |}]> (entries st)) st,
         Emit (entry_suppressed entry))
      else
        (set_entries (<[key := {| last_emitted_at := last_emitted_at entry;
            entry_suppressed := saturating_add usize_max (entry_suppressed entry) 1 |}]> (entries st)) st,
         Suppress)
  | None =>
      (set_entries (<[key := {| last_emitted_at := now; entry_suppressed := 0 |}]> (entries st)) st,
       Emit 0)
  end.

(** [LogLimiter]: the state behind its lock. *)
Definition LogLimiter_new (w : Duration) (max : Z) (now : Instant) : mutex LogLimiterState :=
  Unpoisoned (LogLimiterState_new w max now).

Definition check_at (key : LogKey) (now : Instant) (l : mutex LogLimiterState)
  : mutex LogLimiterState * run LogDecision :=
  with_lock "log limiter lock poisoned" l (λ st, Ret (check key now st)).

Definition limiter_window (l : mutex LogLimiterState) : run Duration :=
  (with_lock "log limiter lock poisoned" l (λ st, Ret (st, window (limiter_config st)))).2.

(** A sequence of warnings with their times, and the decisions. *)
Fixpoint checks (evs : list (LogKey * Instant)) (st : LogLimiterState)
  : LogLimiterState * list LogDecision :=
  match evs with
  | [] => (st, [])
  | (k, now) :: evs =>
      let '(st, d) := check k now st in
      let '(st, ds) := checks evs st in (st, d :: ds)
  end.
End Operations.

(** ** Lemmas on the eviction *)

Lemma insert_by_key_perm {A} (key : A → Z) x l : insert_by_key key x l ≡ₚ x :: l.
Proof.
  induction l as [|y l IH]; cbn; [done|]. case_match; [done|]. rewrite IH. by constructor.
Qed.

Lemma sort_by_key_perm {A} (key : A → Z) l : sort_by_key key l ≡ₚ l.
Proof. induction l as [|x l IH]; cbn; [done|]. by rewrite insert_by_key_perm, IH. Qed.

Abbreviation key_le key := (λ x y, key x <= key y) (only parsing).

Lemma insert_by_key_sorted {A} (key : A → Z) x l :
  Sorted.StronglySorted (key_le key) l → Sorted.StronglySorted (key_le key) (insert_by_key key x l).
Proof.
  induction 1 as [|y l Hs IH Hall]; cbn; [by repeat constructor|].
  case_match; bool_to_prop.
  - constructor; [by constructor|]. constructor; [done|].
    eapply Forall_impl; [exact Hall|]. cbn. intros; lia.
  - constructor; [done|]. rewrite insert_by_key_perm. constructor; [lia|done].
Qed.

Lemma sort_by_key_sorted {A} (key : A → Z) l : Sorted.StronglySorted (key_le key) (sort_by_key key l).
Proof. induction l; cbn; [constructor|]. by apply insert_by_key_sorted. Qed.

(** In a sorted list what is taken is at most what is dropped. *)
Lemma sorted_take_drop {A} (key : A → Z) n l x y :
  Sorted.StronglySorted (key_le key) l → x ∈ take n l → y ∈ drop n l → key x ≤ key y.
Proof.
  intros Hs. revert n. induction Hs as [|a l Hs IH Hall]; intros [|n] Hx Hy; cbn in *;
    try by apply not_elem_of_nil in Hx.
  apply elem_of_cons in Hx as [->|Hx]; [|by eapply IH].
  rewrite Forall_forall in Hall. apply Hall. rewrite <- (take_drop n l).
  apply elem_of_app. by right.
Qed.

Lemma foldl_delete_lookup (ks : list (LogKey * Z)) (m : gmap LogKey LogEntry) k :
  foldl (λ m '(k, _), delete k m) m ks !! k = if decide (k ∈ ks.*1) then None else m !! k.
Proof.
  revert m. induction ks as [|[k' t] ks IH]; intros m; cbn; [done|].
  rewrite IH, lookup_delete. repeat case_decide; set_solver.
Qed.

Lemma foldl_delete_size (ks : list (LogKey * Z)) (m : gmap LogKey LogEntry) :
  NoDup ks.*1 → (∀ k, k ∈ ks.*1 → is_Some (m !! k)) →
  size (foldl (λ m '(k, _), delete k m) m ks) = (size m - length ks)%nat.
Proof.
  revert m. induction ks as [|[k t] ks IH]; intros m Hnd Hin; cbn in *; [lia|].
  apply NoDup_cons in Hnd as [Hnk Hnd].
  destruct (Hin k) as [e He]; [set_solver|].
  rewrite IH; [|done|].
  - rewrite map_size_delete, He. lia.
  - intros k' Hk'. rewrite lookup_delete_ne; [|set_solver]. apply Hin. set_solver.
Qed.

Section Laws.
Context (iter : gmap LogKey LogEntry → list (LogKey * LogEntry)) `{!HashIter iter}.
Implicit Types st : LogLimiterState.

(** The eviction order of a table. *)
Definition by_age (m : gmap LogKey LogEntry) : list (LogKey * Instant) :=
  sort_by_key snd ((λ '(k, e), (k, last_emitted_at e)) <$> iter m).

Lemma by_age_perm m : by_age m ≡ₚ (λ '(k, e), (k, last_emitted_at e)) <$> map_to_list m.
Proof. unfold by_age. by rewrite sort_by_key_perm, hash_iter_perm. Qed.

Lemma elem_of_by_age m k t :
  (k, t) ∈ by_age m ↔ ∃ e, m !! k = Some e ∧ last_emitted_at e = t.
Proof.
  rewrite by_age_perm, list_elem_of_fmap. split.
  - intros ([k' e] & [= -> ->] & ?%elem_of_map_to_list). eauto.
  - intros (e & ?%elem_of_map_to_list & <-). by exists (k, e).
Qed.

Lemma by_age_keys m : (by_age m).*1 ≡ₚ (map_to_list m).*1.
Proof.
  rewrite by_age_perm, <- list_fmap_compose.
  erewrite list_fmap_ext; [reflexivity|]. by intros ? [] ?.
Qed.

Lemma by_age_NoDup m : NoDup (by_age m).*1.
Proof. rewrite by_age_keys. apply NoDup_fst_map_to_list. Qed.

Lemma by_age_length m : length (by_age m) = size m.
Proof. by rewrite by_age_perm, length_fmap, length_map_to_list. Qed.

(** What a clean-up leaves: nothing new, and every entry it removed was
    expired or, with the table full, no younger than every entry left. *)
Record tidied (now : Instant) (st st' : LogLimiterState) : Prop := {
  tidied_config : limiter_config st' = limiter_config st;
  tidied_sub k e : entries st' !! k = Some e → entries st !! k = Some e;
  tidied_gone k e : entries st !! k = Some e → entries st' !! k = None →
    2 * window (limiter_config st) < duration_since now (last_emitted_at e)
    ∨ duration_max < duration_since now (last_emitted_at e)
    ∨ (max_entries (limiter_config st) < len (entries st) ∧
       ∀ k' e', entries st' !! k' = Some e' → last_emitted_at e ≤ last_emitted_at e');
  tidied_size : len (entries st') ≤ Z.max 0 (max_entries (limiter_config st));
}.

Lemma tidied_refl now st : len (entries st) ≤ max_entries (limiter_config st) → tidied now st st.
Proof. intros. split; [done|done|congruence|lia]. Qed.

Lemma len_filter_le (P : LogKey * LogEntry → Prop) `{∀ x, Decision (P x)} (m : gmap LogKey LogEntry) :
  len (filter P m) ≤ len m.
Proof. unfold len. pose proof (map_size_filter P m). lia. Qed.

Lemma evict_tidied now st st1 n :
  limiter_config st1 = limiter_config st →
  (∀ k e, entries st1 !! k = Some e → entries st !! k = Some e) →
  (∀ k e, entries st !! k = Some e → entries st1 !! k = None →
     2 * window (limiter_config st) < duration_since now (last_emitted_at e)
     ∨ duration_max < duration_since now (last_emitted_at e)) →
  len (entries st1) ≤ len (entries st) →
  max_entries (limiter_config st) < len (entries st1) →
  n = Z.to_nat (saturating_sub (len (entries st1)) (max_entries (limiter_config st))) →
  tidied now st
    (set_entries (foldl (λ m '(k, _), delete k m) (entries st1) (take n (by_age (entries st1)))) st1).
Proof.
  intros Hc Hsub Hexp Hle Hbig Hn. pose proof (sort_by_key_sorted snd
    ((λ '(k, e), (k, last_emitted_at e)) <$> iter (entries st1))) as Hsorted.
  fold (by_age (entries st1)) in Hsorted.
  split; cbn; [done| | |].
  - intros k e. rewrite foldl_delete_lookup. case_decide; [done|]. apply Hsub.
  - intros k e He. rewrite foldl_delete_lookup. destruct (entries st1 !! k) as [e1|] eqn:H1; cbn.
    2:{ intros _. destruct (Hexp k e He H1); auto. }
    case_decide as Hk; [|congruence]. intros _. right. right. split; [lia|].
    apply Hsub in H1 as H1'. rewrite He in H1'. injection H1' as <-.
    intros k' e'. rewrite foldl_delete_lookup. case_decide as Hk'; [done|]. intros He'.
    apply list_elem_of_fmap in Hk as ([k0 t0] & -> & Hk). cbn in *.
    assert ((k0, t0) ∈ by_age (entries st1)) as (e0 & He0 & Ht0)%elem_of_by_age
      by (rewrite <- (take_drop n (by_age _)); apply elem_of_app; auto).
    rewrite H1 in He0. injection He0 as <-. subst t0.
    assert ((k', last_emitted_at e') ∈ drop n (by_age (entries st1))) as Hdrop.
    { assert ((k', last_emitted_at e') ∈ by_age (entries st1)) as Hin
        by (apply elem_of_by_age; eauto).
      rewrite <- (take_drop n (by_age _)) in Hin. apply elem_of_app in Hin as [Hin|Hin]; [|done].
      destruct Hk'. apply list_elem_of_fmap. by exists (k', last_emitted_at e'). }
    exact (sorted_take_drop snd n _ _ _ Hsorted Hk Hdrop).
  - unfold len in *. rewrite foldl_delete_size.
    + rewrite length_take, by_age_length. unfold saturating_sub in Hn. lia.
    + eapply sublist_NoDup; [apply by_age_NoDup|apply fmap_sublist, sublist_take].
    + intros k ([k' t] & -> & Hk)%list_elem_of_fmap.
      assert ((k', t) ∈ by_age (entries st1)) as (e & He & _)%elem_of_by_age
        by (rewrite <- (take_drop n (by_age _)); apply elem_of_app; auto).
      by eexists.
Qed.

Lemma maybe_cleanup_tidied now st : tidied now st (maybe_cleanup iter now st).
Proof using All.
  unfold maybe_cleanup. destruct (_ && _) eqn:Hskip.
  { bool_to_prop. by apply tidied_refl. }
  set (P := λ '(_, e), duration_since now (last_emitted_at e)
                       ≤ duration_saturating_mul (window (limiter_config st)) 2).
  assert (Hexp : ∀ k e, entries st !! k = Some e →
    (filter P (entries st) : gmap LogKey LogEntry) !! k = None →
    2 * window (limiter_config st) < duration_since now (last_emitted_at e)
    ∨ duration_max < duration_since now (last_emitted_at e)).
  { intros k e He [Hn|Hn]%map_lookup_filter_None; [congruence|]. specialize (Hn e He).
    unfold P, duration_saturating_mul, saturating_mul in Hn. lia. }
  clear Hskip; cbn -[len filter]. destruct (_ <=? _) eqn:Hfit; bool_to_prop.
  - split; cbn -[len filter]; [done| | |lia].
    + by intros k e [? _]%map_lookup_filter_Some.
    + intros k e He Hn. destruct (Hexp k e He Hn); auto.
  - match goal with |- tidied _ _ (set_entries _ ?st1) => apply (evict_tidied now st st1) end;
      cbn -[len filter]; try done.
    + by intros k e [? _]%map_lookup_filter_Some.
    + apply len_filter_le.
Qed.

Lemma check_size k now st :
  len (entries (check iter k now st).1) ≤ Z.max 0 (max_entries (limiter_config st)) + 1.
Proof using All.
  pose proof (tidied_size _ _ _ (maybe_cleanup_tidied now st)) as Hs.
  assert (∀ e, len (<[k := e]> (entries (maybe_cleanup iter now st)))
            ≤ len (entries (maybe_cleanup iter now st)) + 1) as Hins.
  { intros e. unfold len. rewrite map_size_insert. case_match; cbn; lia. }
  unfold check. repeat case_match; cbn; etrans; try apply Hins; lia.
Qed.

Lemma check_config k now st : limiter_config (check iter k now st).1 = limiter_config st.
Proof using All.
  rewrite <- (tidied_config _ _ _ (maybe_cleanup_tidied now st)).
  unfold check. by repeat case_match.
Qed.

(** Behind its lock the limiter is its state: from a new one on, no check panics
    or poisons the lock, and the window stays the one it was made with. *)
Lemma limiter_lock_is_transparent w max start evs k now :
  let st := (checks iter evs (LogLimiterState_new w max start)).1 in
  check_at iter k now (Unpoisoned st)
  = (Unpoisoned (check iter k now st).1, Ret (check iter k now st).2) ∧
  limiter_window (Unpoisoned st) = Ret w.
Proof using All.
  cbn. split; [unfold check_at, with_lock; by destruct (check iter k now _)|].
  unfold limiter_window, with_lock. cbn [snd]. do 2 f_equal.
  change w with (window (limiter_config (LogLimiterState_new w max start))) at 2. f_equal.
  generalize (LogLimiterState_new w max start) as st. induction evs as [|[k' t] evs IH]; intros st; [done|].
  cbn. destruct (check iter k' t st) as [st1 d] eqn:E. pose proof (check_config k' t st) as Hc.
  rewrite E in Hc. specialize (IH st1). destruct (checks iter evs st1). cbn in *. congruence.
Qed.

(** ** Spacing of the written warnings *)

(** The table only has keys of [K], which fit in it. *)
Definition keys_in (K : list LogKey) (st : LogLimiterState) : Prop :=
  NoDup K ∧ Z.of_nat (length K) ≤ max_entries (limiter_config st) ∧
  ∀ k, is_Some (entries st !! k) → k ∈ K.

Lemma keys_in_len K st : keys_in K st → len (entries st) ≤ max_entries (limiter_config st).
Proof.
  intros (_ & Hmax & Hin). unfold len. etrans; [|exact Hmax].
  apply inj_le. rewrite <- length_map_to_list, <- (length_fmap fst).
  apply submseteq_length, NoDup_submseteq; [apply NoDup_fst_map_to_list|].
  intros k ([k' e] & -> & He%elem_of_map_to_list)%list_elem_of_fmap. apply Hin. by eexists.
Qed.

Lemma keys_in_check K k now st : keys_in K st → k ∈ K → keys_in K (check iter k now st).1.
Proof using All.
  intros (Hnd & Hmax & Hin) Hk. split_and!; [done|by rewrite check_config|].
  pose proof (tidied_sub _ _ _ (maybe_cleanup_tidied now st)) as Hsub.
  intros k'. unfold check. repeat case_match; cbn; rewrite lookup_insert; case_decide; subst;
    try done; intros [e He]; apply Hin; eauto.
Qed.

(** [k] was last written at [t], or so long ago that it may be written. *)
Definition written (k : LogKey) (t now : Instant) (st : LogLimiterState) : Prop :=
  (∃ e, entries st !! k = Some e ∧ last_emitted_at e = t)
  ∨ t + window (limiter_config st) ≤ now.

Lemma written_tidy K k t now now' st :
  keys_in K st → 0 < window (limiter_config st) ≤ duration_max → now ≤ now' →
  written k t now st → written k t now' (maybe_cleanup iter now' st).
Proof using All.
  intros Hkeys Hw Hle Hwr. pose proof (maybe_cleanup_tidied now' st) as Ht.
  pose proof (keys_in_len _ _ Hkeys). unfold written. rewrite (tidied_config _ _ _ Ht).
  destruct Hwr as [(e & He & <-)|]; [|right; lia].
  destruct (entries (maybe_cleanup iter now' st) !! k) as [e'|] eqn:He'.
  - left. apply (tidied_sub _ _ _ Ht) in He' as He''. eexists. split; [done|congruence].
  - right. destruct (tidied_gone _ _ _ Ht k e He He') as [Hg|[Hg|[Hg _]]];
      [unfold duration_since in Hg; lia..|lia].
Qed.

Lemma written_check K k k' t now now' st d :
  keys_in K st → 0 < window (limiter_config st) ≤ duration_max → now ≤ now' →
  written k t now st → (check iter k' now' st).2 = d →
  match d with
  | Emit _ => if decide (k = k')
              then t + window (limiter_config st) ≤ now' ∧ written k now' now' (check iter k' now' st).1
              else written k t now' (check iter k' now' st).1
  | Suppress => written k t now' (check iter k' now' st).1
  end.
Proof using All.
  intros Hkeys Hw Hle Hwr Hd. apply (written_tidy K _ _ _ now') in Hwr; [|done..].
  pose proof (check_config k' now' st) as Hc.
  pose proof (tidied_config _ _ _ (maybe_cleanup_tidied now' st)) as Hc'.
  unfold written in *. rewrite Hc, Hc' in *. unfold check in *.
  set (st1 := maybe_cleanup iter now' st) in *. rewrite Hc' in *.
  destruct (entries st1 !! k') as [e'|] eqn:He'; [destruct (_ <=? _) eqn:E; bool_to_prop|];
    cbn in *; subst d; try case_decide as Hk; subst; cbn.
  - split; [|left; eexists; by rewrite lookup_insert_eq].
    unfold duration_since in E. destruct Hwr as [(e & He & <-)|]; [|lia].
    rewrite He in He'. simplify_eq. lia.
  - by rewrite lookup_insert_ne.
  - destruct (decide (k = k')) as [->|]; [|by rewrite lookup_insert_ne].
    rewrite lookup_insert_eq. destruct Hwr as [(e & He & <-)|]; [|by right].
    left. rewrite He in He'. simplify_eq. by eexists.
  - split; [|left; eexists; by rewrite lookup_insert_eq].
    destruct Hwr as [(e & He & <-)|]; [congruence|lia].
  - by rewrite lookup_insert_ne.
Qed.

Lemma written_emit k t st st1 n : check iter k t st = (st1, Emit n) → written k t t st1.
Proof.
  unfold check. intros H. left. repeat case_match; simplify_eq; cbn; eexists;
    by rewrite lookup_insert_eq.
Qed.

(** Whatever is checked, the last write of [k] is no earlier than it was. *)
Lemma written_checks K k t now t' evs st :
  keys_in K st → 0 < window (limiter_config st) ≤ duration_max →
  Forall (λ ev, ev.1 ∈ K) evs → Sorted.StronglySorted Z.le (now :: evs.*2 ++ [t']) →
  written k t now st →
  ∃ t1 now', t ≤ t1 ∧ now' ≤ t' ∧ written k t1 now' (checks iter evs st).1
    ∧ keys_in K (checks iter evs st).1
    ∧ limiter_config (checks iter evs st).1 = limiter_config st.
Proof using All.
  intros Hkeys Hw Hevs. revert t now st Hkeys Hw.
  induction Hevs as [|[k' now'] evs Hk' Hevs IH]; intros t now st Hkeys Hw Hs Hwr.
  { exists t, now. split_and!; try done. apply Sorted.StronglySorted_inv in Hs as [_ Hs].
    by apply Forall_cons_1 in Hs as [? _]. }
  cbn in Hk'. apply Sorted.StronglySorted_inv in Hs as [Hs Hnow].
  apply Forall_cons_1 in Hnow as [Hnow _]. cbn in Hs, Hnow.
  pose proof (written_check K k k' t now now' st _ Hkeys Hw Hnow Hwr eq_refl) as Hstep.
  pose proof (check_config k' now' st) as Hc.
  pose proof (keys_in_check K k' now' st Hkeys Hk') as Hkeys1.
  assert (∃ t1, t ≤ t1 ∧ written k t1 now' (check iter k' now' st).1) as (t1 & Ht1 & Hwr1).
  { destruct (check iter k' now' st) as [st1 []]; cbn in *; [|by exists t].
    destruct (decide (k = k')); [|by exists t]. destruct Hstep as [? ?]. exists now'. split; [lia|done]. }
  cbn [checks]. destruct (check iter k' now' st) as [st1 d]. cbn in *.
  destruct (IH t1 now' st1) as (t2 & now2 & ? & ? & ? & ? & Hc2); [done|by rewrite Hc|done|done|].
  exists t2, now2. destruct (checks iter evs st1). cbn in *.
  split_and!; [lia|done|done|done|congruence].
Qed.
End Laws.

(** ** One key *)

Section OneKey.
Context (iter : gmap LogKey LogEntry → list (LogKey * LogEntry)).

(** The table holds only [k], written at [t0] and swallowed [n] times since. *)
Record only (w : Duration) (max : Z) (k : LogKey) (t0 : Instant) (n : Z) (st : LogLimiterState)
  : Prop := {
  only_config : limiter_config st = {| window := w; max_entries := max |};
  only_entries : entries st = {[ k := {| last_emitted_at := t0; entry_suppressed := n |} ]};
  only_cleanup : last_cleanup st < t0 + w;
}.

Lemma len_singleton k e : len {[ k := e ]} = 1.
Proof. unfold len. by rewrite map_size_singleton. Qed.

Lemma maybe_cleanup_only w max k t0 n now st :
  1 ≤ max → 0 ≤ w → 2 * w ≤ duration_max → t0 ≤ now → only w max k t0 n st →
  limiter_config (maybe_cleanup iter now st) = {| window := w; max_entries := max |} ∧
  (last_cleanup (maybe_cleanup iter now st) = now ∨
   last_cleanup (maybe_cleanup iter now st) = last_cleanup st) ∧
  entries (maybe_cleanup iter now st) =
    if now - t0 <=? 2 * w then {[ k := {| last_emitted_at := t0; entry_suppressed := n |} ]} else ∅.
Proof.
  intros Hmax Hw Hd Hle [Hc He Hl]. unfold maybe_cleanup. rewrite Hc, He, len_singleton.
  cbn [window max_entries]. rewrite (proj2 (Z.leb_le 1 max)) by lia. cbn [andb].
  unfold duration_since, duration_saturating_mul, saturating_mul.
  destruct (_ <? w) eqn:Hskip; bool_to_prop.
  { rewrite (proj2 (Z.leb_le _ _)) by lia. auto. }
  set (P := λ p : LogKey * LogEntry, let '(_, e) := p in _).
  assert (filter P {[k := {| last_emitted_at := t0; entry_suppressed := n |}]} =
    if now - t0 <=? 2 * w then {[ k := {| last_emitted_at := t0; entry_suppressed := n |} ]}
    else (∅ : gmap LogKey LogEntry)) as Hf.
  { case_match; bool_to_prop.
    - apply map_filter_singleton_True. cbn. lia.
    - apply map_filter_singleton_False. cbn. lia. }
  cbn -[len filter]. rewrite Hf.
  assert (len (if now - t0 <=? 2 * w
    then {[ k := {| last_emitted_at := t0; entry_suppressed := n |} ]} else ∅) ≤ max) as Hlen
    by (case_match; rewrite ?len_singleton; unfold len; rewrite ?map_size_empty; lia).
  rewrite (proj2 (Z.leb_le _ _) Hlen). auto.
Qed.

Lemma check_only_within w max k t0 n now st :
  1 ≤ max → 0 ≤ w → 2 * w ≤ duration_max → t0 ≤ now < t0 + w → 0 ≤ n < usize_max →
  only w max k t0 n st →
  (check iter k now st).2 = Suppress ∧ only w max k t0 (n + 1) (check iter k now st).1.
Proof.
  intros Hmax Hw Hd Hnow Hn Ho.
  destruct (maybe_cleanup_only w max k t0 n now st) as (Hc & Hl & He); [done..|lia|done|].
  rewrite (proj2 (Z.leb_le _ _)) in He by lia.
  unfold check. generalize dependent (maybe_cleanup iter now st). intros st1 Hc Hl He.
  rewrite He, lookup_singleton_eq, Hc. cbn [window last_emitted_at].
  unfold duration_since. rewrite (proj2 (Z.leb_gt _ _)) by lia. cbn. split; [done|].
  split; cbn; [done| |destruct Ho; lia].
  rewrite insert_singleton_eq. unfold saturating_add. by rewrite Z.min_l by lia.
Qed.

Lemma checks_only_within w max k t0 n ts st evs :
  1 ≤ max → 0 ≤ w → 2 * w ≤ duration_max → Forall (λ t, t0 ≤ t < t0 + w) ts →
  0 ≤ n → n + Z.of_nat (length ts) ≤ usize_max → only w max k t0 n st →
  ∃ st', only w max k t0 (n + Z.of_nat (length ts)) st' ∧
    (checks iter (((k,.) <$> ts) ++ evs) st).2
    = repeat Suppress (length ts) ++ (checks iter evs st').2.
Proof.
  intros Hmax Hw Hd Hts. revert n st. induction Hts as [|t ts Ht Hts IH]; intros n st Hn Hlen Ho.
  { exists st. by rewrite Z.add_0_r. }
  cbn [length] in Hlen. destruct (check_only_within w max k t0 n t st) as [H2 Ho']; try done; [lia|].
  destruct (IH (n + 1) (check iter k t st).1) as (st' & Ho'' & Heq); [lia|lia|done|].
  exists st'. split.
  - cbn [length]. by replace (n + Z.of_nat (S (length ts))) with (n + 1 + Z.of_nat (length ts)) by lia.
  - cbn [fmap list_fmap app checks]. destruct (check iter k t st) as [st1 d]. cbn in H2, Heq |- *.
    subst d. destruct (checks _ _ st1); cbn in *. by rewrite Heq.
Qed.

Lemma check_only_after w max k t0 n now st :
  1 ≤ max → 0 ≤ w → 2 * w ≤ duration_max → t0 + w ≤ now → only w max k t0 n st →
  (check iter k now st).2 = Emit (if now - t0 <=? 2 * w then n else 0).
Proof.
  intros Hmax Hw Hd Hnow Ho.
  destruct (maybe_cleanup_only w max k t0 n now st) as (Hc & _ & He); [done..|lia|done|].
  unfold check. rewrite He, Hc. case_match; bool_to_prop.
  - rewrite lookup_singleton_eq. unfold duration_since. cbn.
    by rewrite (proj2 (Z.leb_le _ _)) by lia.
  - by rewrite lookup_empty.
Qed.

Lemma check_new w max start k t0 :
  0 < w → start ≤ t0 → 1 ≤ max →
  (check iter k t0 (LogLimiterState_new w max start)).2 = Emit 0 ∧
  only w max k t0 0 (check iter k t0 (LogLimiterState_new w max start)).1.
Proof.
  intros Hw Hs Hm.
  assert (Hm' : ∀ t, entries (maybe_cleanup iter t (LogLimiterState_new w max start)) = ∅
    ∧ limiter_config (maybe_cleanup iter t (LogLimiterState_new w max start))
      = {| window := w; max_entries := max |}
    ∧ (last_cleanup (maybe_cleanup iter t (LogLimiterState_new w max start)) = t
      ∨ last_cleanup (maybe_cleanup iter t (LogLimiterState_new w max start)) = start)).
  { intros t. unfold maybe_cleanup. cbn -[len filter]. rewrite map_filter_empty.
    change (len ∅) with 0. rewrite (proj2 (Z.leb_le 0 max)) by lia. case_match; cbn; auto. }
  destruct (Hm' t0) as (He & Hc & Hl). unfold check. clear Hm'.
  generalize dependent (maybe_cleanup iter t0 (LogLimiterState_new w max start)).
  intros st1 He Hc Hl. rewrite He, lookup_empty. cbn.
  split; [done|]. split; cbn; [done|done|lia].
Qed.
End OneKey.

(** ** Properties *)

(** Whatever warnings come in, whatever the iteration order of the hash
    map, the table of the limiter never has more than [max_entries] entries and
    the one just added. *)
Theorem limiter_table_is_bounded iter `{!HashIter iter} key now st :
  len (entries (check iter key now st).1) ≤ Z.max 0 (max_entries (limiter_config st)) + 1.
Proof. by apply check_size. Qed.

Lemma limiter_table_is_bounded_witness :
  len (entries (check map_to_list {| log_peer_ip := None; log_category := lit "malformed" |} 5
    (LogLimiterState_new (from_secs 30) 4 0)).1) ≤ 5.
Proof.
  apply (limiter_table_is_bounded map_to_list {| log_peer_ip := None; log_category := lit "malformed" |}
    5 (LogLimiterState_new (from_secs 30) 4 0)).
Defined.

(** An entry that a clean-up removes has expired (twice the window has
    passed), or the table was over its bound and the entry is no younger than
    any entry that stays. *)
Theorem limiter_evicts_oldest_first iter `{!HashIter iter} now st k e :
  entries st !! k = Some e → entries (maybe_cleanup iter now st) !! k = None →
  duration_saturating_mul (window (limiter_config st)) 2 < duration_since now (last_emitted_at e)
  ∨ (max_entries (limiter_config st) < len (entries st) ∧
     ∀ k' e', entries (maybe_cleanup iter now st) !! k' = Some e' →
       last_emitted_at e ≤ last_emitted_at e').
Proof.
  intros He Hn. unfold duration_saturating_mul, saturating_mul.
  destruct (tidied_gone _ _ _ (maybe_cleanup_tidied iter now st) k e He Hn) as [H|[H|H]];
    [left; lia..|by right].
Qed.

Definition example_key (n : Z) : LogKey :=
  {| log_peer_ip := Some (V4 (V4Octets 192 0 2 n)); log_category := lit "malformed" |}.

Definition example_table : LogLimiterState :=
  {| limiter_config := {| window := from_secs 30; max_entries := 1 |};
     entries := {[ example_key 1 := {| last_emitted_at := 5; entry_suppressed := 0 |};
                   example_key 2 := {| last_emitted_at := 9; entry_suppressed := 4 |} ]};
     last_cleanup := 0 |}.

Lemma limiter_evicts_oldest_first_witness :
  max_entries (limiter_config example_table) < len (entries example_table) ∧
  ∀ k' e', entries (maybe_cleanup map_to_list 10 example_table) !! k' = Some e' →
    5 ≤ last_emitted_at e'.
Proof.
  destruct (limiter_evicts_oldest_first map_to_list 10 example_table (example_key 1)
    {| last_emitted_at := 5; entry_suppressed := 0 |}) as [H|H];
    [vm_compute; reflexivity..|vm_compute in H; discriminate H|exact H].
Defined.

(** As long as the distinct keys fit in the table, two written warnings of
    one key are at least the window apart, whatever other warnings of the keys
    come in between, with times that do not go back. *)
Theorem limiter_spaces_warnings iter `{!HashIter iter} K k t evs t' st st1 n st2 ds st3 n' :
  keys_in K st → 0 < window (limiter_config st) ≤ duration_max →
  k ∈ K → Forall (λ ev, ev.1 ∈ K) evs →
  Sorted.StronglySorted Z.le (t :: evs.*2 ++ [t']) →
  check iter k t st = (st1, Emit n) → checks iter evs st1 = (st2, ds) →
  check iter k t' st2 = (st3, Emit n') →
  t + window (limiter_config st) ≤ t'.
Proof.
  intros Hkeys Hw Hk Hevs Hs H1 H2 H3.
  pose proof (keys_in_check iter K k t st Hkeys Hk) as Hkeys1. rewrite H1 in Hkeys1.
  pose proof (check_config iter k t st) as Hc. rewrite H1 in Hc. cbn in Hc. rewrite <- Hc in *.
  destruct (written_checks iter K k t t t' evs st1) as (t1 & now' & Ht1 & Hn & Hwr & Hkeys2 & Hc2);
    [done..|by eapply written_emit|].
  rewrite H2 in *. cbn in *.
  pose proof (written_check iter K k k t1 now' t' st2 (Emit n') Hkeys2) as Hlast.
  rewrite Hc2, H3, decide_True in Hlast by done. lapply Hlast; [|done]. clear Hlast. intros Hlast.
  destruct Hlast as [? _]; [done..|]. lia.
Qed.

Lemma limiter_spaces_warnings_witness : 0 + from_secs 30 ≤ from_secs 40.
Proof.
  apply (limiter_spaces_warnings map_to_list [example_key 1] (example_key 1) 0
    [(example_key 1, from_secs 10)] (from_secs 40) (LogLimiterState_new (from_secs 30) 4 0)
    (check map_to_list (example_key 1) 0 (LogLimiterState_new (from_secs 30) 4 0)).1 0
    (checks map_to_list [(example_key 1, 0); (example_key 1, from_secs 10)]
       (LogLimiterState_new (from_secs 30) 4 0)).1 [Suppress]
    (checks map_to_list [(example_key 1, 0); (example_key 1, from_secs 10);
                         (example_key 1, from_secs 40)]
       (LogLimiterState_new (from_secs 30) 4 0)).1 1).
  - split_and!; [apply NoDup_singleton|vm_compute; congruence|].
    intros k [e He]. cbn in He. rewrite lookup_empty in He. discriminate He.
  - split; vm_compute; congruence.
  - apply list_elem_of_singleton. reflexivity.
  - constructor; [apply list_elem_of_singleton; reflexivity|constructor].
  - repeat constructor; vm_compute; congruence.
  - vm_compute. reflexivity.
  - vm_compute. reflexivity.
  - vm_compute. reflexivity.
Defined.

(** A warning, a burst of [n] repetitions within the window and one more
    after it: the first is written, the burst is swallowed, and the last one is
    written with the count [n], unless more than twice the window has passed:
    then the entry has expired and the count is lost. *)
Theorem limiter_reports_swallowed iter w max start k t0 ts t' :
  1 ≤ max → 0 < w → 2 * w ≤ duration_max → start ≤ t0 →
  Forall (λ t, t0 ≤ t < t0 + w) ts → Z.of_nat (length ts) ≤ usize_max → t0 + w ≤ t' →
  (checks iter ((k, t0) :: ((k,.) <$> ts) ++ [(k, t')]) (LogLimiterState_new w max start)).2
  = Emit 0 :: repeat Suppress (length ts)
      ++ [Emit (if t' - t0 <=? 2 * w then Z.of_nat (length ts) else 0)].
Proof.
  intros Hmax Hw Hd Hs Hts Hlen Ht'.
  destruct (check_new iter w max start k t0) as [H1 Ho]; [done..|].
  destruct (checks_only_within iter w max k t0 0 ts
    (check iter k t0 (LogLimiterState_new w max start)).1 [(k, t')]) as (st' & Ho' & Heq);
    [done|lia|done..|lia|done|done|].
  pose proof (check_only_after iter w max k t0 _ t' st' Hmax ltac:(lia) Hd Ht' Ho') as Hlast.
  cbn [checks]. destruct (check iter k t0 _) as [st1 d]. cbn in H1, Heq. subst d.
  destruct (checks iter (((k,.) <$> ts) ++ _) st1). cbn in Heq |- *. rewrite Heq.
  destruct (check iter k t' st'). cbn in *. by rewrite Hlast.
Qed.

Lemma limiter_reports_swallowed_witness :
  (checks map_to_list [(example_key 1, 0); (example_key 1, 1); (example_key 1, 2);
                       (example_key 1, 50)] (LogLimiterState_new 30 4 0)).2
  = [Emit 0; Suppress; Suppress; Emit 2].
Proof.
  apply (limiter_reports_swallowed map_to_list 30 4 0 (example_key 1) 0 [1; 2] 50);
    repeat constructor; vm_compute; congruence.
Defined.
