(* ===== verification/Metrics.v ===== *)
(** * Server metrics (src/src/metrics.rs)

    The counters of the daemon: a gauge of unauthenticated connections, event
    totals, rejections by reason and authentication failures by address, the
    last one bounded.  Totals are 64-bit atomics ([fetch_add] wraps).  No
    operation can panic while it holds one of the two locks, so that a poisoned
    lock cannot occur and the maps are kept without one. *)

From S2P Require Import Prelude Rust Net.

Local Open Scope Z_scope.

Module Metrics.

(** ** Data *)

Record MetricsState := {
  current_unauthenticated_connections : Z;
  rejected_connections_by_reason : gmap str Z;
  auth_failures_by_ip : gmap IpAddr Z;
  max_auth_failure_ips : Z;
  auth_failure_ip_overflow : Z;
  temporary_bans_issued : Z;
  preauth_timeouts : Z;
  malformed_packet_disconnects : Z;
  authorized_keys_reload_successes : Z;
  authorized_keys_reload_failures : Z;
}.

Definition new (max_ips : Z) : MetricsState := {|
  current_unauthenticated_connections := 0;
  rejected_connections_by_reason := ∅;
  auth_failures_by_ip := ∅;
  max_auth_failure_ips := max_ips;
  auth_failure_ip_overflow := 0;
  temporary_bans_issued := 0;
  preauth_timeouts := 0;
  malformed_packet_disconnects := 0;
  authorized_keys_reload_successes := 0;
  authorized_keys_reload_failures := 0;
|}.

(** The atomic counters that are only ever incremented. *)
Inductive counter := Overflow | Bans | Timeouts | Malformed | ReloadOk | ReloadFailed.

Definition counter_of (c : counter) (m : MetricsState) : Z :=
  match c with
  | Overflow => auth_failure_ip_overflow m
  | Bans => temporary_bans_issued m
  | Timeouts => preauth_timeouts m
  | Malformed => malformed_packet_disconnects m
  | ReloadOk => authorized_keys_reload_successes m
  | ReloadFailed => authorized_keys_reload_failures m
  end.

(** [counter.fetch_add(1, Relaxed)]. *)
Definition fetch_add_1 (c : counter) (m : MetricsState) : MetricsState :=
  let bump c' n := match c, c' with
    | Overflow, Overflow | Bans, Bans | Timeouts, Timeouts | Malformed, Malformed
    | ReloadOk, ReloadOk | ReloadFailed, ReloadFailed => wrapping_add u64_max n 1
    | _, _ => n
    end in
  {| current_unauthenticated_connections := current_unauthenticated_connections m;
     rejected_connections_by_reason := rejected_connections_by_reason m;
     auth_failures_by_ip := auth_failures_by_ip m;
     max_auth_failure_ips := max_auth_failure_ips m;
     auth_failure_ip_overflow := bump Overflow (auth_failure_ip_overflow m);
     temporary_bans_issued := bump Bans (temporary_bans_issued m);
     preauth_timeouts := bump Timeouts (preauth_timeouts m);
     malformed_packet_disconnects := bump Malformed (malformed_packet_disconnects m);
     authorized_keys_reload_successes := bump ReloadOk (authorized_keys_reload_successes m);
     authorized_keys_reload_failures := bump ReloadFailed (authorized_keys_reload_failures m) |}.

Definition set_gauge (n : Z) (m : MetricsState) : MetricsState :=
  {| current_unauthenticated_connections := n;
     rejected_connections_by_reason := rejected_connections_by_reason m;
     auth_failures_by_ip := auth_failures_by_ip m;
     max_auth_failure_ips := max_auth_failure_ips m;
     auth_failure_ip_overflow := auth_failure_ip_overflow m;
     temporary_bans_issued := temporary_bans_issued m;
     preauth_timeouts := preauth_timeouts m;
     malformed_packet_disconnects := malformed_packet_disconnects m;
     authorized_keys_reload_successes := authorized_keys_reload_successes m;
     authorized_keys_reload_failures := authorized_keys_reload_failures m |}.

Definition set_maps (rej : gmap str Z) (ips : gmap IpAddr Z) (m : MetricsState) : MetricsState :=
  {| current_unauthenticated_connections := current_unauthenticated_connections m;
     rejected_connections_by_reason := rej;
     auth_failures_by_ip := ips;
     max_auth_failure_ips := max_auth_failure_ips m;
     auth_failure_ip_overflow := auth_failure_ip_overflow m;
     temporary_bans_issued := temporary_bans_issued m;
     preauth_timeouts := preauth_timeouts m;
     malformed_packet_disconnects := malformed_packet_disconnects m;
     authorized_keys_reload_successes := authorized_keys_reload_successes m;
     authorized_keys_reload_failures := authorized_keys_reload_failures m |}.

(** ** Operations *)

Definition preauth_connection_opened (m : MetricsState) : MetricsState :=
  set_gauge (wrapping_add usize_max (current_unauthenticated_connections m) 1) m.

Definition preauth_connection_closed (m : MetricsState) : MetricsState :=
  set_gauge (saturating_sub (current_unauthenticated_connections m) 1) m.

Definition record_rejected_connection (reason : str) (m : MetricsState) : MetricsState :=
  let counters := rejected_connections_by_reason m in
  set_maps (<[reason := wrapping_add u64_max (default 0 (counters !! reason)) 1]> counters)
           (auth_failures_by_ip m) m.

Definition record_auth_failure (peer_ip : option IpAddr) (temporary_ban_issued : bool)
  (m : MetricsState) : MetricsState :=
  let m :=
    match peer_ip with
    | Some ip =>
        let counters := auth_failures_by_ip m in
        match counters !! ip with
        | Some counter =>
            set_maps (rejected_connections_by_reason m)
                     (<[ip := wrapping_add u64_max counter 1]> counters) m
        | None =>
            if Z.of_nat (size counters) <? max_auth_failure_ips m
            then set_maps (rejected_connections_by_reason m) (<[ip := 1]> counters) m
            else fetch_add_1 Overflow m
        end
    | None => m
    end in
  if temporary_ban_issued then fetch_add_1 Bans m else m.

Definition record_preauth_timeout := fetch_add_1 Timeouts.
Definition record_malformed_disconnect := fetch_add_1 Malformed.
Definition record_cache_reload_success := fetch_add_1 ReloadOk.
Definition record_cache_reload_failure := fetch_add_1 ReloadFailed.

(** [MetricsSnapshot], with the maps keyed by the displayed names. *)
Record MetricsSnapshot := {
  snap_unauthenticated : Z;
  snap_rejected : gmap str Z;
  snap_auth_failures : gmap str Z;
  snap_overflow : Z;
  snap_bans : Z;
  snap_timeouts : Z;
  snap_malformed : Z;
  snap_reload_successes : Z;
  snap_reload_failures : Z;
}.

Definition snapshot (m : MetricsState) : MetricsSnapshot := {|
  snap_unauthenticated := current_unauthenticated_connections m;
  snap_rejected := rejected_connections_by_reason m;
  snap_auth_failures :=
    list_to_map ((λ '(ip, n), (ip_to_string ip, n)) <$> map_to_list (auth_failures_by_ip m));
  snap_overflow := auth_failure_ip_overflow m;
  snap_bans := temporary_bans_issued m;
  snap_timeouts := preauth_timeouts m;
  snap_malformed := malformed_packet_disconnects m;
  snap_reload_successes := authorized_keys_reload_successes m;
  snap_reload_failures := authorized_keys_reload_failures m;
|}.

(** ** Histories *)

Inductive event :=
| Opened
| Closed
| Rejected (reason : str)
| AuthFailure (peer_ip : option IpAddr) (banned : bool)
| PreauthTimeout
| MalformedDisconnect
| ReloadSuccess
| ReloadFailure.

Definition apply_event (ev : event) : MetricsState → MetricsState :=
  match ev with
  | Opened => preauth_connection_opened
  | Closed => preauth_connection_closed
  | Rejected reason => record_rejected_connection reason
  | AuthFailure ip banned => record_auth_failure ip banned
  | PreauthTimeout => record_preauth_timeout
  | MalformedDisconnect => record_malformed_disconnect
  | ReloadSuccess => record_cache_reload_success
  | ReloadFailure => record_cache_reload_failure
  end.

Definition replay (max_ips : Z) (evs : list event) : MetricsState :=
  foldl (λ m ev, apply_event ev m) (new max_ips) evs.

Definition is_failure_of (ip : IpAddr) (ev : event) : bool :=
  match ev with AuthFailure (Some ip') _ => bool_decide (ip' = ip) | _ => false end.
Definition is_ip_failure (ev : event) : bool :=
  match ev with AuthFailure (Some _) _ => true | _ => false end.
Definition is_ban (ev : event) : bool :=
  match ev with AuthFailure _ banned => banned | _ => false end.
Definition is_rejected (reason : str) (ev : event) : bool :=
  match ev with Rejected r => bool_decide (r = reason) | _ => false end.
Definition is_opened (ev : event) : bool := match ev with Opened => true | _ => false end.
Definition is_closed (ev : event) : bool := match ev with Closed => true | _ => false end.

(** The sum of the per-address counters. *)
Definition ip_total (m : gmap IpAddr Z) : Z := map_fold (λ _ n acc, n + acc) 0 m.

Lemma ip_total_insert m ip n :
  m !! ip = None → ip_total (<[ip := n]> m) = n + ip_total m.
Proof. intros H. unfold ip_total. rewrite map_fold_insert_L; [done|intros; lia|done]. Qed.

Lemma ip_total_update m ip n n' :
  m !! ip = Some n → ip_total (<[ip := n']> m) = n' - n + ip_total m.
Proof.
  intros H. rewrite <- (insert_delete_id m ip n H) at 2. rewrite <- insert_delete_eq.
  rewrite !ip_total_insert by apply lookup_delete_eq. lia.
Qed.

(** What the counters say about a history of at most [u64::MAX] events. *)
Record accounts (max_ips : Z) (evs : list event) (m : MetricsState) : Prop := {
  acc_max : max_auth_failure_ips m = max_ips;
  acc_size : Z.of_nat (size (auth_failures_by_ip m)) ≤ Z.max 0 max_ips;
  acc_known ip n : auth_failures_by_ip m !! ip = Some n → n = countZ (is_failure_of ip) evs;
  acc_unknown ip : auth_failures_by_ip m !! ip = None → 0 < countZ (is_failure_of ip) evs →
    max_ips ≤ Z.of_nat (size (auth_failures_by_ip m));
  acc_total : ip_total (auth_failures_by_ip m) + auth_failure_ip_overflow m
              = countZ is_ip_failure evs;
  acc_nonneg : 0 ≤ ip_total (auth_failures_by_ip m) ∧ 0 ≤ auth_failure_ip_overflow m;
  acc_bans : temporary_bans_issued m = countZ is_ban evs;
  acc_rejected reason :
    default 0 (rejected_connections_by_reason m !! reason) = countZ (is_rejected reason) evs;
}.

Lemma accounts_new max_ips : accounts max_ips [] (new max_ips).
Proof.
  split; cbn; try done; rewrite ?map_size_empty; try lia.
Qed.

Lemma countZ_snoc (p : event → bool) evs ev :
  countZ p (evs ++ [ev]) = countZ p evs + (if p ev then 1 else 0).
Proof. rewrite countZ_app. f_equal. unfold countZ. cbn. by destruct (p ev). Qed.

(** The part of a recorded failure that concerns the addresses. *)
Definition count_ip (ip : IpAddr) (m : MetricsState) : MetricsState :=
  match auth_failures_by_ip m !! ip with
  | Some counter =>
      set_maps (rejected_connections_by_reason m)
               (<[ip := wrapping_add u64_max counter 1]> (auth_failures_by_ip m)) m
  | None =>
      if Z.of_nat (size (auth_failures_by_ip m)) <? max_auth_failure_ips m
      then set_maps (rejected_connections_by_reason m) (<[ip := 1]> (auth_failures_by_ip m)) m
      else fetch_add_1 Overflow m
  end.

Lemma countZ_le p (evs : list event) : Z.of_nat (length evs) < u64_max → countZ p evs < u64_max.
Proof. intros. pose proof (countZ_le_length p evs). lia. Qed.

(** A failure of a known address, of an unknown one that fits, and of one that
    does not. *)
Lemma accounts_count_ip max_ips evs m ip :
  Z.of_nat (length evs) < u64_max → accounts max_ips evs m →
  accounts max_ips (evs ++ [AuthFailure (Some ip) false]) (count_ip ip m).
Proof.
  intros Hlen [Hm Hs Hk Hu Ht [Hn1 Hn2] Hb Hr].
  pose proof (countZ_le is_ip_failure evs Hlen). pose proof (countZ_le (is_failure_of ip) evs Hlen).
  pose proof (countZ_nonneg (is_failure_of ip) evs). unfold count_ip.
  destruct (auth_failures_by_ip m !! ip) as [c|] eqn:Hc; [|destruct (_ <? _) eqn:Hfull; bool_to_prop].
  - specialize (Hk ip c Hc) as Hcc. split; cbn; rewrite ?countZ_snoc; cbn; try done; try lia.
    + rewrite map_size_insert, Hc. done.
    + intros ip' n. rewrite countZ_snoc, lookup_insert. cbn. case_decide as Hd.
      * subst ip'. intros [= <-]. rewrite bool_decide_eq_true_2, wrapping_add_small by (done || lia). lia.
      * intros Hip. rewrite bool_decide_eq_false_2 by done. by rewrite (Hk _ _ Hip), Z.add_0_r.
    + intros ip'. rewrite countZ_snoc, map_size_insert, Hc, lookup_insert. cbn.
      case_decide as Hd; [done|]. rewrite bool_decide_eq_false_2, Z.add_0_r by done. apply Hu.
    + rewrite (ip_total_update _ _ c), wrapping_add_small by (done || lia). lia.
    + rewrite (ip_total_update _ _ c), wrapping_add_small by (done || lia). lia.
    + intros reason. rewrite countZ_snoc, Z.add_0_r. apply Hr.
  - assert (countZ (is_failure_of ip) evs = 0) as Hzero.
    { destruct (decide (0 < countZ (is_failure_of ip) evs)) as [Hpos|]; [|lia].
      specialize (Hu ip Hc Hpos). lia. }
    split; cbn; rewrite ?countZ_snoc; cbn; try done; try lia.
    + rewrite map_size_insert, Hc. lia.
    + intros ip' n. rewrite countZ_snoc, lookup_insert. cbn. case_decide as Hd.
      * subst ip'. intros [= <-]. rewrite bool_decide_eq_true_2 by done. lia.
      * intros Hip. rewrite bool_decide_eq_false_2 by done. by rewrite (Hk _ _ Hip), Z.add_0_r.
    + intros ip'. rewrite countZ_snoc, map_size_insert, Hc, lookup_insert. cbn.
      case_decide as Hd; [done|]. rewrite bool_decide_eq_false_2, Z.add_0_r by done.
      intros Hip Hpos. specialize (Hu ip' Hip Hpos). lia.
    + rewrite ip_total_insert by done. lia.
    + rewrite ip_total_insert by done. lia.
    + intros reason. rewrite countZ_snoc, Z.add_0_r. apply Hr.
  - rewrite Hm in Hfull. split; cbn; rewrite ?countZ_snoc; cbn; try done; try lia.
    + intros ip' n Hip. rewrite countZ_snoc. cbn. rewrite bool_decide_eq_false_2 by congruence.
      by rewrite (Hk _ _ Hip), Z.add_0_r.
    + rewrite wrapping_add_small by lia. lia.
    + split; [done|]. apply wrapping_add_range. done.
    + intros reason. rewrite countZ_snoc, Z.add_0_r. apply Hr.
Qed.

(** Events that leave the per-address counters alone. *)
Lemma accounts_frame max_ips evs evs' m m' :
  accounts max_ips evs m →
  max_auth_failure_ips m' = max_auth_failure_ips m →
  auth_failures_by_ip m' = auth_failures_by_ip m →
  auth_failure_ip_overflow m' = auth_failure_ip_overflow m →
  (∀ ip, countZ (is_failure_of ip) evs' = countZ (is_failure_of ip) evs) →
  countZ is_ip_failure evs' = countZ is_ip_failure evs →
  temporary_bans_issued m' = countZ is_ban evs' →
  (∀ reason, default 0 (rejected_connections_by_reason m' !! reason)
             = countZ (is_rejected reason) evs') →
  accounts max_ips evs' m'.
Proof.
  intros [Hm Hs Hk Hu Ht Hn Hb Hr] H1 H2 H3 H4 H5 H6 H7.
  split; rewrite ?H1, ?H2, ?H3, ?H5; try done.
  - intros ip n ?. rewrite H4. by apply Hk.
  - intros ip. rewrite H4. apply Hu.
Qed.

Lemma accounts_step max_ips evs m ev :
  Z.of_nat (length evs) < u64_max → accounts max_ips evs m →
  accounts max_ips (evs ++ [ev]) (apply_event ev m).
Proof.
  intros Hlen Ha. destruct ev as [| |reason|[ip|] [|]| | | |]; cbn [apply_event].
  4:{ pose proof (accounts_count_ip max_ips evs m ip Hlen Ha) as Ha'.
      eapply (accounts_frame _ (evs ++ [AuthFailure (Some ip) false])); [exact Ha'|..];
        try reflexivity; intros; rewrite ?countZ_snoc; try done.
      - cbn. fold (count_ip ip m). rewrite (acc_bans _ _ _ Ha'), countZ_snoc. cbn.
        pose proof (countZ_le is_ban evs Hlen). pose proof (countZ_nonneg is_ban evs).
        rewrite wrapping_add_small by lia. lia.
      - cbn. fold (count_ip ip m). rewrite (acc_rejected _ _ _ Ha'), countZ_snoc. done. }
  4: exact (accounts_count_ip max_ips evs m ip Hlen Ha).
  all: apply (accounts_frame _ evs _ m); [done|done|done|done|..];
    intros; rewrite ?countZ_snoc; cbn; rewrite ?Z.add_0_r; try done;
    try apply (acc_bans _ _ _ Ha); try apply (acc_rejected _ _ _ Ha).
  - rewrite lookup_insert. pose proof (acc_rejected _ _ _ Ha reason) as Hr.
    pose proof (countZ_le (is_rejected reason) evs Hlen).
    pose proof (countZ_nonneg (is_rejected reason) evs).
    case_decide as Hd; cbn.
    + subst reason0. rewrite bool_decide_eq_true_2, Hr, wrapping_add_small by (done || lia). done.
    + rewrite bool_decide_eq_false_2, Z.add_0_r by done. apply (acc_rejected _ _ _ Ha).
  - rewrite (acc_bans _ _ _ Ha). pose proof (countZ_le is_ban evs Hlen).
    pose proof (countZ_nonneg is_ban evs). by rewrite wrapping_add_small by lia.
Qed.

Lemma replay_snoc max_ips evs ev : replay max_ips (evs ++ [ev]) = apply_event ev (replay max_ips evs).
Proof. unfold replay. by rewrite foldl_app. Qed.

Lemma replay_accounts max_ips evs :
  Z.of_nat (length evs) ≤ u64_max → accounts max_ips evs (replay max_ips evs).
Proof.
  induction evs as [|ev evs IH] using rev_ind; intros Hlen; [apply accounts_new|].
  rewrite length_app in Hlen. cbn [length] in Hlen. rewrite replay_snoc.
  apply accounts_step; [lia|]. apply IH. lia.
Qed.

(** ** Properties *)

(** After any history of events the per-address table has at most
    [MaxAuthFailureIps] addresses; an address in it has its exact number of
    failures; an address that failed and is not in it was turned away by a full
    table; and no failure is lost: the table's total and the overflow counter
    add up to the failures with an address.  Bans and rejections by reason are
    exact as well. *)
Theorem metrics_account_for_every_event max_ips evs :
  Z.of_nat (length evs) ≤ u64_max →
  Z.of_nat (size (auth_failures_by_ip (replay max_ips evs))) ≤ Z.max 0 max_ips ∧
  (∀ ip n, auth_failures_by_ip (replay max_ips evs) !! ip = Some n →
     n = countZ (is_failure_of ip) evs) ∧
  (∀ ip, auth_failures_by_ip (replay max_ips evs) !! ip = None →
     0 < countZ (is_failure_of ip) evs →
     max_ips ≤ Z.of_nat (size (auth_failures_by_ip (replay max_ips evs)))) ∧
  ip_total (auth_failures_by_ip (replay max_ips evs))
    + auth_failure_ip_overflow (replay max_ips evs) = countZ is_ip_failure evs ∧
  temporary_bans_issued (replay max_ips evs) = countZ is_ban evs ∧
  ∀ reason, default 0 (rejected_connections_by_reason (replay max_ips evs) !! reason)
            = countZ (is_rejected reason) evs.
Proof. intros [? ? ? ? ? ? ? ?]%(replay_accounts max_ips). by split_and!. Qed.

Lemma metrics_account_for_every_event_witness :
  temporary_bans_issued (replay 1 [AuthFailure (Some (V4 (V4Octets 127 0 0 1))) false;
    AuthFailure (Some (V4 (V4Octets 127 0 0 2))) true]) = 1.
Proof.
  apply (metrics_account_for_every_event 1 [AuthFailure (Some (V4 (V4Octets 127 0 0 1))) false;
    AuthFailure (Some (V4 (V4Octets 127 0 0 2))) true]). vm_compute. congruence.
Defined.

(** Never more connections closed than opened, at any point of the history. *)
Definition balanced (evs : list event) : Prop :=
  ∀ evs1 evs2, evs = evs1 ++ evs2 → countZ is_closed evs1 ≤ countZ is_opened evs1.

Lemma gauge_frame ev m :
  is_opened ev = false → is_closed ev = false →
  current_unauthenticated_connections (apply_event ev m) = current_unauthenticated_connections m.
Proof.
  destruct ev as [| |?|[?|] []| | | |]; try done; cbn; intros _ _; by repeat case_match.
Qed.

(** In a history where every closed connection was opened before, the
    gauge is the number of connections open. *)
Theorem gauge_counts_open_connections max_ips evs :
  Z.of_nat (length evs) ≤ usize_max → balanced evs →
  current_unauthenticated_connections (replay max_ips evs)
  = countZ is_opened evs - countZ is_closed evs.
Proof.
  induction evs as [|ev evs IH] using rev_ind; intros Hlen Hbal; [done|].
  rewrite length_app in Hlen. cbn [length] in Hlen.
  pose proof (Hbal (evs ++ [ev]) [] ltac:(by rewrite app_nil_r)) as Hfin.
  lapply IH; [|lia]. clear IH. intros IH. rewrite replay_snoc.
  lapply IH; [|intros e1 e2 ->; by apply (Hbal e1 (e2 ++ [ev])); rewrite app_assoc].
  clear IH. intros IH. rewrite !countZ_snoc in *.
  pose proof (countZ_le_length is_opened evs). pose proof (countZ_nonneg is_closed evs).
  destruct (is_opened ev) eqn:Ho, (is_closed ev) eqn:Hc; [by destruct ev| | |].
  - destruct ev; try done. cbn. rewrite IH, wrapping_add_small; [lia|].
    pose proof (Hbal evs [Opened] eq_refl). lia.
  - destruct ev; try done. cbn. unfold saturating_sub. rewrite IH. lia.
  - rewrite gauge_frame, IH by done. lia.
Qed.

Lemma gauge_counts_open_connections_witness :
  current_unauthenticated_connections (replay 1 [Opened; Opened; Closed]) = 1.
Proof.
  apply (gauge_counts_open_connections 1 [Opened; Opened; Closed]); [vm_compute; congruence|].
  intros [|? [|? [|? [|]]]] evs2 [=]; subst; vm_compute; congruence.
Defined.

End Metrics.
