(* ===== verification/AuthorizedKeys.v ===== *)
(** * The authorized keys cache (src/src/authorized_keys.rs)

    [AuthorizedKeysCache] is the set of serialized plain keys of the last file
    that was loaded; [AuthorizedKeysState] decides when the file is looked at
    again and keeps the last known-good cache when a reload fails; the store
    holds the state behind a lock.

    What the file system answers during one call is a value of [fs_view]; the
    [stat] and the [open] of one call may disagree, because the file can change
    in between.  The parser of authorized_keys lines and the key serializer
    belong to the ssh_key crate and are parameters. *)

From S2P Require Import Prelude Rust.

Local Open Scope Z_scope.

Module AuthorizedKeys.

(** ** Data *)

(** The two fields of [std::fs::Metadata] that are used; the modification time
    may be unavailable. *)
Record Metadata := { meta_modified : option Z; meta_len : Z }.

Record AuthorizedKeysFingerprint := {
  fp_modified : option Z;
  fp_len : option Z;
  fp_missing : bool;
}.

#[global] Instance AuthorizedKeysFingerprint_eq_dec : EqDecision AuthorizedKeysFingerprint.
Proof. solve_decision. Defined.

Inductive AuthorizedKeysReloadStatus := StatusLoaded | StatusMissing | StatusFailed (message : str).

Inductive AuthorizedKeysReloadEvent :=
| EventLoaded (generation ignored_entries : Z)
| EventMissing
| EventFailed (message : str).

(** Serialized keys. *)
Abbreviation bytes := (list N) (only parsing).

Record AuthorizedKeysCache := { accepted_keys : gset bytes; ignored_entries : Z }.

Record AuthorizedKeysState := {
  path : str;
  max_size : Z;
  max_entries : Z;
  reload_interval : Duration;
  cache : AuthorizedKeysCache;
  generation : Z;
  observed_fingerprint : AuthorizedKeysFingerprint;
  last_failed_reload_fingerprint : option AuthorizedKeysFingerprint;
  last_reload_status : AuthorizedKeysReloadStatus;
  next_reload_check_at : Instant;
}.

Record AuthorizedKeysStatus := {
  status_generation : Z;
  status_ignored_entries : Z;
  status_last_reload_status : AuthorizedKeysReloadStatus;
}.

(** An open file: what its [fstat] and a read to the end answer. *)
Record OpenFile := {
  file_metadata : result io_error Metadata;
  file_text : result io_error str;
}.

(** The answers of the file system to one call: [fs::metadata] and
    [File::open] of the configured path. *)
Record fs_view := {
  fs_stat : result io_error Metadata;
  fs_open : result io_error OpenFile;
}.

(** ** Fingerprints *)

Definition MISSING : AuthorizedKeysFingerprint :=
  {| fp_modified := None; fp_len := None; fp_missing := true |}.

Definition from_metadata (m : Metadata) : AuthorizedKeysFingerprint :=
  {| fp_modified := meta_modified m; fp_len := Some (meta_len m); fp_missing := false |}.

Definition from_path (p : str) (fs : fs_view) : result anyhow AuthorizedKeysFingerprint :=
  match fs_stat fs with
  | Ok m => Ok (from_metadata m)
  | Err e =>
      if decide (kind e = NotFound) then Ok MISSING
      else with_context (lit "failed to stat " ++ p) (io_result (Err e))
  end.

(** ** Cache *)

Definition empty_cache : AuthorizedKeysCache := {| accepted_keys := ∅; ignored_entries := 0 |}.

Section Cache.
(** The ssh_key crate: public keys, their wire form, and the entries of a
    text, each an error or the options and the key of the line. *)
Context {PublicKey key_error : Type}.
Context (to_bytes : PublicKey → result key_error bytes).
Context (key_error_display : key_error → str).
Context (entries : str → list (result key_error (str * PublicKey))).

(** [err.into()] for an error of the crate. *)
Definition key_result {A} (r : result key_error A) : result anyhow A :=
  map_err (λ e, [Msg (key_error_display e)]) r.

Definition contains (public_key : PublicKey) (c : AuthorizedKeysCache) : result anyhow bool :=
  key_bytes ← with_context (lit "failed to serialize offered public key")
                (key_result (to_bytes public_key));
  mret (bool_decide (key_bytes ∈ accepted_keys c)).

(** The loop over the entries, from entry number [index] on. *)
Fixpoint from_entries (max : Z) (index : Z) (c : AuthorizedKeysCache)
  (es : list (result key_error (str * PublicKey))) : result anyhow AuthorizedKeysCache :=
  match es with
  | [] => Ok c
  | e :: es =>
      if max <=? index
      then bail (lit "authorized keys file exceeds configured entry limit of " ++ dec max)
      else
        '(opts, key) ← map_err (λ err,
            [Msg (lit "failed to parse authorized_keys entry: " ++ key_error_display err)]) e;
        if negb (bool_decide (opts = [])) then
          from_entries max (index + 1)
            {| accepted_keys := accepted_keys c;
               ignored_entries := wrapping_add usize_max (ignored_entries c) 1 |} es
        else
          key_bytes ← with_context (lit "failed to serialize authorized public key")
                        (key_result (to_bytes key));
          if bool_decide (key_bytes ∈ accepted_keys c)
          then bail (lit "authorized keys file contains a duplicate plain key entry")
          else from_entries max (index + 1)
                 {| accepted_keys := {[ key_bytes ]} ∪ accepted_keys c;
                    ignored_entries := ignored_entries c |} es
  end.

Definition from_text (text : str) (max : Z) : result anyhow AuthorizedKeysCache :=
  from_entries max 0 empty_cache (entries text).

(** [AuthorizedKeysCache::load]. *)
Definition load (p : str) (max_bytes max : Z) (fs : fs_view)
  : result anyhow (AuthorizedKeysCache * AuthorizedKeysFingerprint) :=
  file ← with_context (lit "failed to read " ++ p) (io_result (fs_open fs));
  metadata ← with_context (lit "failed to stat " ++ p) (io_result (file_metadata file));
  if max_bytes <? meta_len metadata
  then bail (lit "authorized keys file " ++ p ++ lit " exceeds configured size limit of "
             ++ dec max_bytes ++ lit " bytes")
  else
    text ← with_context (lit "failed to read " ++ p) (io_result (file_text file));
    c ← from_text text max;
    mret (c, from_metadata metadata).

(** ** State *)

(** [AuthorizedKeysState::loaded] and [missing]: the addition to the clock may
    panic. *)
Definition loaded (p : str) (max_bytes max : Z) (interval : Duration)
  (c : AuthorizedKeysCache) (fp : AuthorizedKeysFingerprint) (now : Instant)
  : run AuthorizedKeysState :=
  next ← instant_add now interval;
  mret {| path := p; max_size := max_bytes; max_entries := max; reload_interval := interval;
          cache := c; generation := 1; observed_fingerprint := fp;
          last_failed_reload_fingerprint := None; last_reload_status := StatusLoaded;
          next_reload_check_at := next |}.

Definition missing (p : str) (max_bytes max : Z) (interval : Duration) (now : Instant)
  : run AuthorizedKeysState :=
  next ← instant_add now interval;
  mret {| path := p; max_size := max_bytes; max_entries := max; reload_interval := interval;
          cache := empty_cache; generation := 0; observed_fingerprint := MISSING;
          last_failed_reload_fingerprint := None; last_reload_status := StatusMissing;
          next_reload_check_at := next |}.

Definition set_next_reload_check_at (t : Instant) (st : AuthorizedKeysState)
  : AuthorizedKeysState :=
  {| path := path st; max_size := max_size st; max_entries := max_entries st;
     reload_interval := reload_interval st; cache := cache st; generation := generation st;
     observed_fingerprint := observed_fingerprint st;
     last_failed_reload_fingerprint := last_failed_reload_fingerprint st;
     last_reload_status := last_reload_status st; next_reload_check_at := t |}.

(** The assignments after a load: cache, generation, observed and failed
    fingerprint, status. *)
Definition set_reload (c : AuthorizedKeysCache) (gen : Z) (fp : AuthorizedKeysFingerprint)
  (failed : option AuthorizedKeysFingerprint) (status : AuthorizedKeysReloadStatus)
  (st : AuthorizedKeysState) : AuthorizedKeysState :=
  {| path := path st; max_size := max_size st; max_entries := max_entries st;
     reload_interval := reload_interval st; cache := c; generation := gen;
     observed_fingerprint := fp; last_failed_reload_fingerprint := failed;
     last_reload_status := status; next_reload_check_at := next_reload_check_at st |}.

(** [anyhow::Error::to_string]: the outermost message. *)
Definition outermost (e : anyhow) : str :=
  match e with
  | Msg m :: _ => m
  | IoCause err :: _ => io_message err
  | _ => []
  end.

Definition refresh_if_due (now : Instant) (fs : fs_view) (st : AuthorizedKeysState)
  : run (AuthorizedKeysState * result anyhow (option AuthorizedKeysReloadEvent)) :=
  if now <? next_reload_check_at st then mret (st, Ok None)
  else
    next ← instant_add now (reload_interval st);
    let st := set_next_reload_check_at next st in
    mret
      match from_path (path st) fs with
      | Err e => (st, Err e)
      | Ok current_fingerprint =>
          if bool_decide (current_fingerprint = observed_fingerprint st) then (st, Ok None)
          else if bool_decide (last_failed_reload_fingerprint st = Some current_fingerprint)
          then (st, Ok None)
          else
            match load (path st) (max_size st) (max_entries st) fs with
            | Ok (c, fingerprint) =>
                let gen := saturating_add u64_max (generation st) 1 in
                (set_reload c gen fingerprint None StatusLoaded st,
                 Ok (Some (EventLoaded gen (ignored_entries c))))
            | Err err =>
                if bool_decide (current_fingerprint = MISSING) then
                  (set_reload (cache st) (generation st) MISSING None StatusMissing st,
                   Ok (Some EventMissing))
                else
                  let message := outermost err in
                  (set_reload (cache st) (generation st) (observed_fingerprint st)
                     (Some current_fingerprint) (StatusFailed message) st,
                   Ok (Some (EventFailed message)))
            end
      end.

(** ** Store *)

Definition store_load (p : str) (max_bytes max : Z) (interval : Duration) (now : Instant)
  (fs : fs_view) : run (result anyhow (mutex AuthorizedKeysState)) :=
  match load p max_bytes max fs with
  | Err e => mret (Err e)
  | Ok (c, fp) => st ← loaded p max_bytes max interval c fp now; mret (Ok (Unpoisoned st))
  end.

Definition store_empty_missing (p : str) (max_bytes max : Z) (interval : Duration)
  (now : Instant) : run (mutex AuthorizedKeysState) :=
  st ← missing p max_bytes max interval now; mret (Unpoisoned st).

Definition store_refresh_if_due (s : mutex AuthorizedKeysState) (now : Instant) (fs : fs_view)
  : mutex AuthorizedKeysState * run (result anyhow (option AuthorizedKeysReloadEvent)) :=
  with_lock "authorized keys lock poisoned" s (refresh_if_due now fs).

(** A read lock is never poisoned by a reader. *)
Definition store_contains (s : mutex AuthorizedKeysState) (key : PublicKey)
  : run (result anyhow bool) :=
  match s with
  | Unpoisoned st => mret (contains key (cache st))
  | Poisoned => Panic "authorized keys lock poisoned"
  end.

Definition store_status (s : mutex AuthorizedKeysState) : run AuthorizedKeysStatus :=
  match s with
  | Unpoisoned st =>
      mret {| status_generation := generation st;
              status_ignored_entries := ignored_entries (cache st);
              status_last_reload_status := last_reload_status st |}
  | Poisoned => Panic "authorized keys lock poisoned"
  end.

(** ** The cache of a text *)

(** What an acceptable list of entries looks like: within the limit, every
    line parses, and the plain keys serialize to distinct bytes. *)
Definition plain (e : result key_error (str * PublicKey)) : option PublicKey :=
  match e with Ok ([], k) => Some k | _ => None end.
Definition is_optioned (e : result key_error (str * PublicKey)) : bool :=
  match e with Ok (_ :: _, _) => true | _ => false end.
Definition plain_bytes (es : list (result key_error (str * PublicKey)))
  : list (result key_error bytes) :=
  to_bytes <$> omap plain es.

Record acceptable (max : Z) (es : list (result key_error (str * PublicKey)))
  (keys : list bytes) : Prop := {
  acceptable_limit : Z.of_nat (length es) ≤ max;
  acceptable_parsed : Forall (λ e, is_ok e = true) es;
  acceptable_bytes : plain_bytes es = Ok <$> keys;
  acceptable_nodup : NoDup keys;
}.

Record accepts (max index : Z) (c : AuthorizedKeysCache)
  (es : list (result key_error (str * PublicKey))) (keys : list bytes) (c' : AuthorizedKeysCache)
  : Prop := {
  accepts_limit : es = [] ∨ index + Z.of_nat (length es) ≤ max;
  accepts_parsed : Forall (λ e, is_ok e = true) es;
  accepts_bytes : plain_bytes es = Ok <$> keys;
  accepts_nodup : NoDup keys;
  accepts_fresh b : b ∈ keys → b ∉ accepted_keys c;
  accepts_cache : c' = {| accepted_keys := list_to_set keys ∪ accepted_keys c;
                          ignored_entries := ignored_entries c + countZ is_optioned es |};
}.

Lemma accepts_nil max index c c' :
  c' = c ↔ ∃ keys, accepts max index c [] keys c'.
Proof.
  split.
  - intros ->. exists []. split; try done; [by left|apply NoDup_nil_2|by intros b ?%not_elem_of_nil|].
    destruct c. cbn. rewrite countZ_nil, Z.add_0_r. f_equal. set_solver.
  - intros (keys & [_ _ Hb _ _ ->]). symmetry in Hb. apply fmap_nil_inv in Hb as ->.
    destruct c. cbn. rewrite countZ_nil, Z.add_0_r. f_equal. set_solver.
Qed.

Lemma accepts_optioned max index c o opts key es c' :
  index < max →
  (∃ keys, accepts max (index + 1)
     {| accepted_keys := accepted_keys c; ignored_entries := ignored_entries c + 1 |} es keys c') ↔
  ∃ keys, accepts max index c (Ok (o :: opts, key) :: es) keys c'.
Proof.
  intros Hmax. split; intros (keys & [Hl Hp Hb Hn Hf ->]); exists keys; split; try done; cbn in *.
  - right. destruct Hl as [->|]; cbn; lia.
  - by constructor.
  - f_equal. rewrite countZ_cons. cbn. lia.
  - right. destruct Hl as [|]; [done|lia].
  - by apply Forall_cons_1 in Hp as [_ ?].
  - f_equal. rewrite countZ_cons. cbn. lia.
Qed.

Lemma accepts_plain max index c key kb es c' :
  index < max → to_bytes key = Ok kb → kb ∉ accepted_keys c →
  (∃ keys, accepts max (index + 1)
     {| accepted_keys := {[ kb ]} ∪ accepted_keys c; ignored_entries := ignored_entries c |}
     es keys c') ↔
  ∃ keys, accepts max index c (Ok ([], key) :: es) keys c'.
Proof.
  intros Hmax Hkb Hfresh. split.
  - intros (keys & [Hl Hp Hb Hn Hf ->]). exists (kb :: keys). cbn in *. split.
    + right. destruct Hl as [->|]; cbn; lia.
    + by constructor.
    + unfold plain_bytes in *. cbn. by rewrite Hkb, Hb.
    + apply NoDup_cons. split; [|done]. intros Hin. apply Hf in Hin. set_solver.
    + set_solver.
    + cbn. f_equal. set_solver.
  - intros (keys & [Hl Hp Hb Hn Hf ->]). unfold plain_bytes in Hb. cbn in Hb.
    rewrite Hkb in Hb. destruct keys as [|kb' keys]; [done|]. cbn in Hb. injection Hb as <- Hb.
    apply NoDup_cons in Hn as [Hnin Hn]. exists keys. split; cbn in *; try done.
    + right. destruct Hl as [|]; [done|lia].
    + by apply Forall_cons_1 in Hp as [_ ?].
    + set_solver.
    + cbn. f_equal. set_solver.
Qed.

Lemma from_entries_Ok max es : ∀ index c c',
  0 ≤ ignored_entries c → ignored_entries c + Z.of_nat (length es) ≤ usize_max →
  from_entries max index c es = Ok c' ↔ ∃ keys, accepts max index c es keys c'.
Proof.
  induction es as [|e es IH]; intros index c c' Hg Hmax; cbn [from_entries].
  { rewrite <- accepts_nil. naive_solver. }
  cbn [length] in Hmax. destruct (max <=? index) eqn:Hidx; bool_to_prop.
  { split; [done|]. intros (keys & [[|Hl] _ _ _ _ _]); [done|]. cbn in Hl. lia. }
  destruct e as [[[|o opts] key]|err]; cbn -[from_entries].
  3:{ split; [done|]. intros (keys & [_ Hp _ _ _ _]). by apply Forall_cons_1 in Hp as [? _]. }
  2:{ rewrite wrapping_add_small, IH by (cbn; lia). by apply accepts_optioned. }
  destruct (to_bytes key) as [kb|kerr] eqn:Hkb; cbn -[from_entries].
  2:{ split; [done|]. intros (keys & [_ _ Hb _ _ _]). unfold plain_bytes in Hb. cbn in Hb.
      rewrite Hkb in Hb. by destruct keys. }
  case_bool_decide as Hin.
  - split; [done|]. intros (keys & [_ _ Hb _ Hf _]). unfold plain_bytes in Hb. cbn in Hb.
    rewrite Hkb in Hb. destruct keys as [|kb' keys]; [done|]. cbn in Hb. injection Hb as <- _.
    exfalso. apply (Hf kb); [by left|done].
  - rewrite IH by (cbn; lia). by apply accepts_plain.
Qed.

Lemma from_text_Ok text max c :
  Z.of_nat (length (entries text)) ≤ usize_max →
  0 ≤ max →
  from_text text max = Ok c ↔
  ∃ keys, acceptable max (entries text) keys
    ∧ c = {| accepted_keys := list_to_set keys;
             ignored_entries := countZ is_optioned (entries text) |}.
Proof.
  intros Hlen Hmax. unfold from_text. rewrite from_entries_Ok by (cbn; lia).
  split; intros (keys & H); exists keys.
  - destruct H as [Hl Hp Hb Hn _ ->]. split; [split; try done|].
    + destruct Hl as [->|]; cbn in *; lia.
    + cbn. f_equal. set_solver.
  - destruct H as [[Hl Hp Hb Hn] ->]. split; try done.
    + right. lia.
    + cbn. f_equal. set_solver.
Qed.

(** ** Reloads *)

(** The cache comes from a text: the accepted keys are its plain entries. *)
Definition cache_of (max : Z) (text : str) (c : AuthorizedKeysCache) : Prop :=
  from_text text max = Ok c.

Lemma load_Ok p max_bytes max fs c fp :
  load p max_bytes max fs = Ok (c, fp) ↔
  ∃ file metadata text, fs_open fs = Ok file ∧ file_metadata file = Ok metadata ∧
    meta_len metadata ≤ max_bytes ∧ file_text file = Ok text ∧
    from_text text max = Ok c ∧ fp = from_metadata metadata.
Proof.
  unfold load. split.
  - intros H. inv_bind. apply with_context_Ok in H0. apply map_err_Ok in H0.
    apply with_context_Ok in H1. apply map_err_Ok in H1.
    destruct (_ <? _) eqn:E; bool_to_prop; [done|]. inv_bind. simplify_eq.
    apply with_context_Ok in H2. apply map_err_Ok in H2. eauto 10.
  - intros (file & m & text & H1 & H2 & H3 & H4 & H5 & ->).
    rewrite H1. cbn. rewrite H2. cbn. rewrite (proj2 (Z.ltb_ge _ _)) by done.
    rewrite H4. cbn. by rewrite H5.
Qed.

(** What a refresh that returns did: nothing but the time of the next check;
    a reload; or the bookkeeping of a missing or a bad file. *)
Lemma refresh_if_due_inv now fs st st' r :
  refresh_if_due now fs st = Ret (st', r) →
  path st' = path st ∧ max_size st' = max_size st ∧ max_entries st' = max_entries st ∧
  reload_interval st' = reload_interval st ∧
  ((∃ c fp, load (path st) (max_size st) (max_entries st) fs = Ok (c, fp)
      ∧ cache st' = c ∧ generation st' = saturating_add u64_max (generation st) 1
      ∧ r = Ok (Some (EventLoaded (generation st') (ignored_entries c))))
   ∨ (cache st' = cache st ∧ generation st' = generation st ∧
      ∀ gen n, r ≠ Ok (Some (EventLoaded gen n)))).
Proof.
  unfold refresh_if_due. destruct (_ <? _) eqn:Hdue; bool_to_prop.
  { intros [= <- <-]. naive_solver. }
  intros H. inv_bind. destruct (from_path _ fs) as [fp|e]; cbn in *; [|simplify_eq; naive_solver].
  do 2 (case_bool_decide; [simplify_eq; naive_solver|]).
  destruct (load _ _ _ fs) as [[c fp']|e] eqn:Hload; [simplify_eq; naive_solver|].
  case_bool_decide; simplify_eq; naive_solver.
Qed.

(** Any number of refreshes, at any times and whatever the file system
    answers; the log has the texts that were loaded, last first. *)
Inductive refreshes : AuthorizedKeysState * list str → AuthorizedKeysState * list str → Prop :=
| refresh_step now fs st st' r log :
    refresh_if_due now fs st = Ret (st', r) →
    refreshes (st, log)
      (st', match r, fs_open fs with
            | Ok (Some (EventLoaded _ _)), Ok {| file_text := Ok text |} => text :: log
            | _, _ => log
            end).

Lemma refreshes_cache s s' :
  rtc refreshes s s' →
  (∃ text log, s.2 = text :: log ∧ cache_of (max_entries s.1) text (cache s.1)) →
  max_entries s'.1 = max_entries s.1 ∧
  ∃ text log, s'.2 = text :: log ∧ cache_of (max_entries s.1) text (cache s'.1).
Proof.
  intros Hs Hinit. revert Hs.
  apply (rtc_ind_r (λ s', max_entries s'.1 = max_entries s.1 ∧
    ∃ text log, s'.2 = text :: log ∧ cache_of (max_entries s.1) text (cache s'.1))); [done|].
  intros s1 s2 _ Hstep (Hmax & text & log & Hlog & Hc). destruct Hstep as [now fs st st' r log' H].
  cbn in *. apply refresh_if_due_inv in H as (_ & _ & Hm & _ & H). split; [congruence|].
  destruct H as [(c & fp & Hload & <- & _ & ->)|(Hsame & _ & Hr)].
  - apply load_Ok in Hload as (file & m & text' & Ho & _ & _ & Ht & Hft & _).
    rewrite Ho. destruct file as [fm ft]. cbn in Ht. subst ft. exists text', log'.
    unfold cache_of. by rewrite <- Hmax.
  - exists text, log. rewrite Hsame. split; [|done].
    destruct r as [[[]|]|]; try done. by edestruct Hr.
Qed.
End Cache.

(** ** Properties *)

Section Properties.
Context {PublicKey key_error : Type}.
Context (to_bytes : PublicKey → result key_error bytes).
Context (key_error_display : key_error → str).
Context (entries : str → list (result key_error (str * PublicKey))).

(** A text is loaded exactly when it has at most [MaxAuthorizedKeysEntries]
    entries, all of them parse, and its plain keys serialize to pairwise
    distinct bytes; the cache then holds those bytes and nothing else, and
    counts the entries with options, which are ignored. *)
Theorem authorized_keys_text_accepted_iff text max c :
  Z.of_nat (length (entries text)) ≤ usize_max → 0 ≤ max →
  from_text to_bytes key_error_display entries text max = Ok c ↔
  ∃ keys, Z.of_nat (length (entries text)) ≤ max
    ∧ Forall (λ e, is_ok e = true) (entries text)
    ∧ plain_bytes to_bytes (entries text) = Ok <$> keys ∧ NoDup keys
    ∧ accepted_keys c = list_to_set keys
    ∧ ignored_entries c = countZ is_optioned (entries text).
Proof.
  intros Hlen Hmax. rewrite from_text_Ok by done. split; intros (keys & H); exists keys.
  - destruct H as [[] ->]. by split_and!.
  - destruct H as (? & ? & ? & ? & Ha & Hi). split; [done|]. destruct c. cbn in *. by subst.
Qed.

(** C7: whatever happens to the file after start-up, and however often it is
    looked at, a key is accepted exactly when it serializes like a plain entry
    of the text that was loaded last. *)
Theorem authorized_iff_plain_entry_of_last_load st0 text0 st text log key :
  from_text to_bytes key_error_display entries text0 (max_entries st0) = Ok (cache st0) →
  0 ≤ max_entries st0 →
  rtc (refreshes to_bytes key_error_display entries) (st0, [text0]) (st, text :: log) →
  Z.of_nat (length (entries text)) ≤ usize_max →
  contains to_bytes key_error_display key (cache st) = Ok true ↔
  ∃ kb key', to_bytes key = Ok kb ∧ Ok ([], key') ∈ entries text ∧ to_bytes key' = Ok kb.
Proof.
  intros H0 Hmax Hr Hlen.
  apply refreshes_cache in Hr as (_ & text' & log' & Hlog & Hc); [|by exists text0, []].
  cbn in *. injection Hlog as <- <-. apply from_text_Ok in Hc as (keys & [_ _ Hb _] & Hcache); [|done..].
  assert (Hin : ∀ kb, kb ∈ keys ↔ ∃ key', Ok ([], key') ∈ entries text ∧ to_bytes key' = Ok kb).
  { intros kb. transitivity (Ok kb ∈ plain_bytes to_bytes (entries text)).
    - rewrite Hb, list_elem_of_fmap. naive_solver.
    - unfold plain_bytes. rewrite list_elem_of_fmap. setoid_rewrite list_elem_of_omap. split.
      + intros (k & Hk & [[[|] k']|] & He & Hp); cbn in Hp; simplify_eq; eauto.
      + intros (k & He & Hk). exists k. split; [done|]. by exists (Ok ([], k)). }
  unfold contains. destruct (to_bytes key) as [kb|] eqn:Hk; cbn.
  - rewrite Hcache. cbn. split.
    + intros [= Ht%bool_decide_eq_true]. apply elem_of_list_to_set, Hin in Ht as (key' & ? & ?). eauto.
    + intros (? & key' & [= <-] & ? & ?). f_equal. apply bool_decide_eq_true, elem_of_list_to_set, Hin. eauto.
  - split; [done|]. by intros (? & ? & ? & _).
Qed.

(** C37: a reload that does not succeed (the file is missing, unreadable, too
    large, or does not parse) keeps the cache and the generation, so that the
    keys of the last good file stay in force; only a successful reload bumps
    the generation. *)
Theorem failed_reload_keeps_last_known_good now fs st st' r :
  refresh_if_due to_bytes key_error_display entries now fs st = Ret (st', r) →
  (∀ gen n, r ≠ Ok (Some (EventLoaded gen n))) →
  cache st' = cache st ∧ generation st' = generation st.
Proof.
  intros H Hr. apply refresh_if_due_inv in H as (_ & _ & _ & _ & [H|H]); [|tauto].
  destruct H as (c & fp & _ & _ & _ & ->). by edestruct Hr.
Qed.

(** The file is looked at no more than once per reload interval, and a
    file that failed to load is not opened again until its modification time
    or length changes. *)
Theorem reload_is_debounced now fs st st' r now2 fs2 :
  refresh_if_due to_bytes key_error_display entries now fs st = Ret (st', r) →
  next_reload_check_at st ≤ now →
  (now2 < now + reload_interval st →
   refresh_if_due to_bytes key_error_display entries now2 fs2 st' = Ret (st', Ok None)) ∧
  (∀ m st2 r2, r = Ok (Some (EventFailed m)) → fs_stat fs2 = fs_stat fs →
   refresh_if_due to_bytes key_error_display entries now2 fs2 st' = Ret (st2, r2) →
   r2 = Ok None ∧ cache st2 = cache st).
Proof.
  intros H Hdue. unfold refresh_if_due in H. rewrite (proj2 (Z.ltb_ge _ _)) in H by done.
  inv_bind. apply instant_add_Ret in H0 as [-> _].
  assert (next_reload_check_at st' = now + reload_interval st) as Hnext
    by (repeat case_match; simplify_eq; done).
  split.
  - intros Hlt. unfold refresh_if_due. by rewrite Hnext, (proj2 (Z.ltb_lt _ _)).
  - intros m st2 r2 -> Hstat H2. pose proof H2 as Hinv.
    assert (last_failed_reload_fingerprint st' = ok (from_path (path st) fs)
      ∧ path st' = path st ∧ cache st' = cache st) as (Hfail & Hpath & Hcache).
    { cbn in H. destruct (from_path _ fs) as [fp|e]; cbn in *; [|simplify_eq].
      repeat case_match; simplify_eq; done. }
    unfold refresh_if_due in H2. destruct (now2 <? _); [by injection H2 as <- <-|]. inv_bind.
    cbn in *. assert (from_path (path st) fs2 = from_path (path st) fs) as Hfp
      by (unfold from_path; by rewrite Hstat).
    rewrite Hpath, Hfp, Hfail in H2.
    destruct (from_path (path st) fs) as [fp|e]; cbn in *; [|by simplify_eq].
    rewrite (bool_decide_eq_true_2 (Some fp = Some fp)) in H2 by done.
    case_bool_decide; by simplify_eq/=.
Qed.
End Properties.

(** ** A concrete file and a trivial key format, for the witnesses

    A key is its own wire form, and every line is a plain entry. *)

Definition demo_bytes (k : str) : result unit bytes := Ok k.
Definition demo_error (e : unit) : str := lit "bad key".
Definition demo_entries (text : str) : list (result unit (str * str)) :=
  (λ l, Ok ([], l)) <$> lines text.

Definition demo_text : str := lit "alice" ++ [10%N] ++ lit "bob" ++ [10%N].
Definition demo_meta : Metadata := {| meta_modified := Some 7; meta_len := 10 |}.
Definition demo_fs : fs_view := {|
  fs_stat := Ok demo_meta;
  fs_open := Ok {| file_metadata := Ok demo_meta; file_text := Ok demo_text |} |}.
Definition large_fs : fs_view := {|
  fs_stat := Ok {| meta_modified := Some 9; meta_len := 1000 |};
  fs_open := Ok {| file_metadata := Ok {| meta_modified := Some 9; meta_len := 1000 |};
                   file_text := Ok demo_text |} |}.

Definition demo_state : AuthorizedKeysState := {|
  path := lit "keys"; max_size := 100; max_entries := 8; reload_interval := 5;
  cache := {| accepted_keys := {[ lit "alice"; lit "bob" ]}; ignored_entries := 0 |};
  generation := 1; observed_fingerprint := from_metadata demo_meta;
  last_failed_reload_fingerprint := None; last_reload_status := StatusLoaded;
  next_reload_check_at := 5 |}.

(** The demo state after a look at the oversized file. *)
Definition demo_failed : AuthorizedKeysState :=
  match refresh_if_due demo_bytes demo_error demo_entries 10 large_fs demo_state with
  | Ret (st, _) => st | Panic _ => demo_state end.

Lemma demo_text_loads :
  from_text demo_bytes demo_error demo_entries demo_text 8 = Ok (cache demo_state).
Proof. reflexivity. Qed.

Lemma authorized_keys_text_accepted_iff_witness :
  ∃ keys, plain_bytes demo_bytes (demo_entries demo_text) = Ok <$> keys ∧ NoDup keys.
Proof.
  destruct (proj1 (authorized_keys_text_accepted_iff demo_bytes demo_error demo_entries
    demo_text 8 (cache demo_state) ltac:(vm_compute; congruence) ltac:(lia)) demo_text_loads)
    as (keys & _ & _ & H1 & H2 & _). exists keys. split; assumption.
Defined.

(** The file is replaced, and looked at when a look is due. *)
Definition next_text : str := lit "carol" ++ [10%N].
Definition next_meta : Metadata := {| meta_modified := Some 8; meta_len := 6 |}.
Definition next_fs : fs_view := {|
  fs_stat := Ok next_meta;
  fs_open := Ok {| file_metadata := Ok next_meta; file_text := Ok next_text |} |}.
Definition demo_reloaded : AuthorizedKeysState :=
  match refresh_if_due demo_bytes demo_error demo_entries 10 next_fs demo_state with
  | Ret (st, _) => st | Panic _ => demo_state end.

Lemma authorized_iff_plain_entry_of_last_load_witness :
  contains demo_bytes demo_error (lit "carol") (cache demo_reloaded) = Ok true.
Proof.
  apply (authorized_iff_plain_entry_of_last_load demo_bytes demo_error demo_entries
    demo_state demo_text demo_reloaded next_text [demo_text] (lit "carol")).
  - reflexivity.
  - vm_compute. congruence.
  - apply rtc_once, (refresh_step _ _ _ 10 next_fs demo_state demo_reloaded (Ok (Some (EventLoaded 2 0)))).
    vm_compute. reflexivity.
  - vm_compute. congruence.
  - exists (lit "carol"), (lit "carol"). split_and!; try reflexivity.
    apply list_elem_of_fmap. exists (lit "carol"). split; [reflexivity|].
    apply list_elem_of_In. vm_compute. auto.
Defined.

Lemma failed_reload_keeps_last_known_good_witness : cache demo_failed = cache demo_state.
Proof.
  apply (failed_reload_keeps_last_known_good demo_bytes demo_error demo_entries 10 large_fs
    demo_state demo_failed (Ok (Some (EventFailed (lit "authorized keys file keys exceeds configured size limit of 100 bytes"))))).
  - vm_compute. reflexivity.
  - intros gen n. discriminate.
Defined.

Lemma reload_is_debounced_witness :
  refresh_if_due demo_bytes demo_error demo_entries 12 demo_fs demo_failed = Ret (demo_failed, Ok None).
Proof.
  apply (reload_is_debounced demo_bytes demo_error demo_entries 10 large_fs demo_state demo_failed
    (Ok (Some (EventFailed (lit "authorized keys file keys exceeds configured size limit of 100 bytes"))))
    12 demo_fs).
  - vm_compute. reflexivity.
  - vm_compute. congruence.
  - vm_compute. reflexivity.
Defined.

End AuthorizedKeys.
