(* ===== verification/Sftp.v ===== *)
(** * The SFTP subsystem (src/src/sftp.rs)

    [LocalSftp] answers the requests of one SFTP session: it resolves the
    client's paths lexically against its root, hands out numbered handles, and
    turns I/O errors into status replies.  The handlers run in a state and error
    monad over the operating system and the session.

    The operating system and the conversions of the russh_sftp crate (open
    flags, attributes) are a parameter: the class [Os], with the one law the
    handlers rely on in [OsLaws]. *)

From S2P Require Import Prelude Rust Paths.

Local Open Scope Z_scope.

Module Sftp.

Abbreviation bytes := (list N) (only parsing).

(** ** Data *)

Definition MAX_SFTP_READ_LEN : Z := Z.shiftl 1 20.

Inductive StatusCode := StOk | StEof | StNoSuchFile | StPermissionDenied | StFailure | StOpUnsupported.

#[global] Instance StatusCode_eq_dec : EqDecision StatusCode.
Proof. solve_decision. Defined.

(** [StatusReply]: a code and the message given with [with_message]. *)
Record StatusReply := { reply_code : StatusCode; reply_message : option str }.

Record Status := { status_id : Z; status_code : StatusCode; error_message : str; language_tag : str }.

(** ** The operating system *)

Class Os := {
  World : Type;
  Fd : Type;
  DirStream : Type;
  DirEntry : Type;
  Attributes : Type;
  OpenFlags : Type;
  os_open : str → OpenFlags → World → World * result io_error Fd;
  os_seek : Fd → Z → World → World * result io_error unit;
  os_read : Fd → Z → World → World * result io_error bytes;
  os_write_all : Fd → bytes → World → World * result io_error unit;
  os_flush : Fd → World → World * result io_error unit;
  os_file_metadata : Fd → World → World * result io_error Attributes;
  os_metadata : str → World → World * result io_error Attributes;
  os_symlink_metadata : str → World → World * result io_error Attributes;
  os_read_dir : str → World → World * result io_error DirStream;
  os_next_entry : DirStream → World → World * result io_error (option DirEntry);
  os_entry_metadata : DirEntry → World → World * result io_error Attributes;
  os_entry_name : DirEntry → str;
  os_remove_file : str → World → World * result io_error unit;
  os_create_dir : str → World → World * result io_error unit;
  os_remove_dir : str → World → World * result io_error unit;
  os_canonicalize : str → World → World * result io_error str;
  os_rename : str → str → World → World * result io_error unit;
  os_read_link : str → World → World * result io_error str;
  os_symlink : str → str → World → World * result io_error unit;
}.

(** A read into a buffer returns no more bytes than the buffer has. *)
Class OsLaws {OS : Os} : Prop := {
  os_read_le fd n w w' data :
    0 ≤ n → os_read fd n w = (w', Ok data) → Z.of_nat (length data) ≤ n;
}.

(** ** Paths *)

(** [PathBuf::pop]. *)
Definition pop (p : str) : str := default p (parent p).

Definition normalize_step (out : str) (c : Component) : str :=
  match c with
  | RootDir => [SEP]
  | CurDir => out
  | ParentDir => pop out
  | Normal part => join out part
  end.

Definition normalize_path (base input : str) : str :=
  let out := foldl normalize_step base (components input) in
  if bool_decide (out = []) then [SEP] else out.

Definition io_error_to_status (e : io_error) : StatusReply :=
  let with_message code := {| reply_code := code; reply_message := Some (io_message e) |} in
  match kind e with
  | NotFound => with_message StNoSuchFile
  | PermissionDenied => with_message StPermissionDenied
  | AlreadyExists => with_message StFailure
  | UnexpectedEof => with_message StEof
  | _ => with_message StFailure
  end.

(** [format!("h{}", k)]. *)
Definition handle_name (k : Z) : str := lit "h" ++ dec k.

Section Handlers.
Context {OS : Os}.

Inductive HandleState :=
| FileHandle (file : Fd)
| DirHandle (path : str) (entries : DirStream).

Record LocalSftp := {
  root_dir : str;
  handles : gmap str HandleState;
  next_handle_id : Z;
}.

Definition LocalSftp_new (root : str) : LocalSftp :=
  {| root_dir := root; handles := ∅; next_handle_id := 0 |}.

(** ** The monad of the handlers *)

Definition handler (A : Type) : Type :=
  World * LocalSftp → (World * LocalSftp) * result StatusReply A.

#[global] Instance handler_ret : MRet handler := λ A a s, (s, Ok a).
#[global] Instance handler_bind : MBind handler := λ A B k m s,
  let '(s', r) := m s in
  match r with Ok a => k a s' | Err e => (s', Err e) end.

(** A call of the operating system with [map_err(io_error_to_status)?]. *)
Definition io {A} (op : World → World * result io_error A) : handler A := λ '(w, st),
  let '(w', r) := op w in ((w', st), map_err io_error_to_status r).

(** A call whose error is looked at instead. *)
Definition io_try {A} (op : World → World * result io_error A) : handler (result io_error A) :=
  λ '(w, st), let '(w', r) := op w in ((w', st), Ok r).

Definition get : handler LocalSftp := λ s, (s, Ok s.2).
Definition modify (f : LocalSftp → LocalSftp) : handler unit := λ '(w, st), ((w, f st), Ok tt).
Definition reply_error {A} (code : StatusCode) (message : option str) : handler A :=
  λ s, (s, Err {| reply_code := code; reply_message := message |}).

Definition set_handles (m : gmap str HandleState) (st : LocalSftp) : LocalSftp :=
  {| root_dir := root_dir st; handles := m; next_handle_id := next_handle_id st |}.

(** ** Session operations *)

Definition make_handle : handler str :=
  _ ← modify (λ st, {| root_dir := root_dir st; handles := handles st;
                       next_handle_id := wrapping_add u64_max (next_handle_id st) 1 |});
  st ← get;
  mret (handle_name (next_handle_id st)).

Definition resolve_path (st : LocalSftp) (path : str) : str :=
  if is_absolute path then normalize_path [SEP] path else normalize_path (root_dir st) path.

Definition ok_status (id : Z) : Status :=
  {| status_id := id; status_code := StOk; error_message := lit "Ok"; language_tag := lit "en-US" |}.

(** The handle of a request, or the reply for an unknown one. *)
Definition lookup_handle (handle : str) : handler HandleState :=
  st ← get;
  match handles st !! handle with
  | Some h => mret h
  | None => reply_error StNoSuchFile (Some (lit "unknown SFTP handle"))
  end.

Definition file_handle (handle : str) : handler Fd :=
  h ← lookup_handle handle;
  match h with
  | FileHandle file => mret file
  | DirHandle _ _ => reply_error StFailure (Some (lit "handle is not a file"))
  end.

Definition open (id : Z) (filename : str) (pflags : OpenFlags) : handler (Z * str) :=
  st ← get;
  file ← io (os_open (resolve_path st filename) pflags);
  handle ← make_handle;
  _ ← modify (λ st, set_handles (<[handle := FileHandle file]> (handles st)) st);
  mret (id, handle).

Definition close (id : Z) (handle : str) : handler Status :=
  _ ← lookup_handle handle;
  _ ← modify (λ st, set_handles (delete handle (handles st)) st);
  mret (ok_status id).

Definition read (id : Z) (handle : str) (offset len : Z) : handler (Z * bytes) :=
  file ← file_handle handle;
  _ ← io (os_seek file offset);
  let effective_len := Z.min len MAX_SFTP_READ_LEN in
  data ← io (os_read file effective_len);
  if (Z.of_nat (length data) =? 0)%Z then reply_error StEof None else mret (id, data).

Definition write (id : Z) (handle : str) (offset : Z) (data : bytes) : handler Status :=
  file ← file_handle handle;
  _ ← io (os_seek file offset);
  _ ← io (os_write_all file data);
  _ ← io (os_flush file);
  mret (ok_status id).

Definition lstat (id : Z) (path : str) : handler (Z * Attributes) :=
  st ← get;
  attrs ← io (os_symlink_metadata (resolve_path st path));
  mret (id, attrs).

Definition fstat (id : Z) (handle : str) : handler (Z * Attributes) :=
  h ← lookup_handle handle;
  attrs ← match h with
          | FileHandle file => io (os_file_metadata file)
          | DirHandle path _ => io (os_metadata path)
          end;
  mret (id, attrs).

Definition opendir (id : Z) (path : str) : handler (Z * str) :=
  st ← get;
  let path := resolve_path st path in
  entries ← io (os_read_dir path);
  handle ← make_handle;
  _ ← modify (λ st, set_handles (<[handle := DirHandle path entries]> (handles st)) st);
  mret (id, handle).

Definition readdir (id : Z) (handle : str) : handler (Z * list (str * Attributes)) :=
  h ← lookup_handle handle;
  match h with
  | FileHandle _ => reply_error StFailure (Some (lit "handle is not a directory"))
  | DirHandle _ entries =>
      entry ← io (os_next_entry entries);
      match entry with
      | Some entry =>
          attrs ← io (os_entry_metadata entry);
          mret (id, [(os_entry_name entry, attrs)])
      | None => reply_error StEof None
      end
  end.

Definition remove (id : Z) (filename : str) : handler Status :=
  st ← get; _ ← io (os_remove_file (resolve_path st filename)); mret (ok_status id).

Definition mkdir (id : Z) (path : str) : handler Status :=
  st ← get; _ ← io (os_create_dir (resolve_path st path)); mret (ok_status id).

Definition rmdir (id : Z) (path : str) : handler Status :=
  st ← get; _ ← io (os_remove_dir (resolve_path st path)); mret (ok_status id).

Definition realpath (id : Z) (path : str) : handler (Z * list str) :=
  st ← get;
  let path := resolve_path st path in
  r ← io_try (os_canonicalize path);
  mret (id, [match r with Ok canonical => canonical | Err _ => path end]).

Definition stat (id : Z) (path : str) : handler (Z * Attributes) :=
  st ← get; attrs ← io (os_metadata (resolve_path st path)); mret (id, attrs).

Definition rename (id : Z) (oldpath newpath : str) : handler Status :=
  st ← get;
  _ ← io (os_rename (resolve_path st oldpath) (resolve_path st newpath));
  mret (ok_status id).

Definition readlink (id : Z) (path : str) : handler (Z * list str) :=
  st ← get; target ← io (os_read_link (resolve_path st path)); mret (id, [target]).

(** On a Unix target. *)
Definition symlink (id : Z) (linkpath targetpath : str) : handler Status :=
  st ← get;
  _ ← io (os_symlink (resolve_path st targetpath) (resolve_path st linkpath));
  mret (ok_status id).

(** ** Sessions *)

Inductive request :=
| Open (id : Z) (filename : str) (pflags : OpenFlags)
| Close (id : Z) (handle : str)
| Read (id : Z) (handle : str) (offset len : Z)
| Write (id : Z) (handle : str) (offset : Z) (data : bytes)
| Lstat (id : Z) (path : str)
| Fstat (id : Z) (handle : str)
| Opendir (id : Z) (path : str)
| Readdir (id : Z) (handle : str)
| Remove (id : Z) (filename : str)
| Mkdir (id : Z) (path : str)
| Rmdir (id : Z) (path : str)
| Realpath (id : Z) (path : str)
| Stat (id : Z) (path : str)
| Rename (id : Z) (oldpath newpath : str)
| Readlink (id : Z) (path : str)
| Symlink (id : Z) (linkpath targetpath : str).

Inductive response :=
| RHandle (id : Z) (handle : str)
| RStatus (s : Status)
| RData (id : Z) (data : bytes)
| RAttrs (id : Z) (attrs : Attributes)
| RName (id : Z) (files : list (str * Attributes))
| RPath (id : Z) (paths : list str).

Definition respond {A} (f : A → response) (m : handler A) : handler response :=
  a ← m; mret (f a).

(** The dispatch of the russh_sftp server loop to the handlers. *)
Definition serve (r : request) : handler response :=
  match r with
  | Open id f fl => respond (λ '(i, h), RHandle i h) (open id f fl)
  | Close id h => respond RStatus (close id h)
  | Read id h o l => respond (λ '(i, d), RData i d) (read id h o l)
  | Write id h o d => respond RStatus (write id h o d)
  | Lstat id p => respond (λ '(i, a), RAttrs i a) (lstat id p)
  | Fstat id h => respond (λ '(i, a), RAttrs i a) (fstat id h)
  | Opendir id p => respond (λ '(i, h), RHandle i h) (opendir id p)
  | Readdir id h => respond (λ '(i, l), RName i l) (readdir id h)
  | Remove id p => respond RStatus (remove id p)
  | Mkdir id p => respond RStatus (mkdir id p)
  | Rmdir id p => respond RStatus (rmdir id p)
  | Realpath id p => respond (λ '(i, l), RPath i l) (realpath id p)
  | Stat id p => respond (λ '(i, a), RAttrs i a) (stat id p)
  | Rename id a b => respond RStatus (rename id a b)
  | Readlink id p => respond (λ '(i, l), RPath i l) (readlink id p)
  | Symlink id a b => respond RStatus (symlink id a b)
  end.

Fixpoint session (rs : list request) (s : World * LocalSftp)
  : (World * LocalSftp) * list (result StatusReply response) :=
  match rs with
  | [] => (s, [])
  | r :: rs => let '(s, a) := serve r s in let '(s, answers) := session rs s in (s, a :: answers)
  end.

(** ** Lexical resolution *)

(** What a component does to a stack of names. *)
Definition walk (ns : list str) (c : Component) : list str :=
  match c with
  | RootDir => []
  | CurDir => ns
  | ParentDir => List.removelast ns
  | Normal w => ns ++ [w]
  end.

Lemma removelast_clean ns : Forall clean_name ns → Forall clean_name (List.removelast ns).
Proof.
  intros Hns. destruct ns as [|w ns _] using rev_ind; [done|].
  rewrite List.removelast_last. by apply Forall_app in Hns as [? _].
Qed.

Lemma pop_render ns : Forall clean_name ns → pop (render ns) = render (List.removelast ns).
Proof.
  intros Hns. unfold pop. destruct ns as [|w ns _] using rev_ind; [done|].
  by rewrite parent_render_snoc, List.removelast_last.
Qed.

Lemma normalize_step_render ns c :
  Forall clean_name ns → (∀ w, c = Normal w → clean_name w) →
  normalize_step (render ns) c = render (walk ns c) ∧ Forall clean_name (walk ns c).
Proof.
  intros Hns Hc. destruct c as [| | |w]; cbn.
  - done.
  - done.
  - split; [by apply pop_render|by apply removelast_clean].
  - rewrite join_render by auto. split; [done|]. apply Forall_app. auto.
Qed.

Lemma normalize_fold_render cs ns :
  Forall clean_name ns → (∀ w, Normal w ∈ cs → clean_name w) →
  foldl normalize_step (render ns) cs = render (foldl walk ns cs) ∧
  Forall clean_name (foldl walk ns cs).
Proof.
  revert ns. induction cs as [|c cs IH]; intros ns Hns Hcs; cbn; [done|].
  destruct (normalize_step_render ns c Hns) as [-> Hc]; [set_solver|]. apply IH; set_solver.
Qed.

Lemma resolve_path_render st ns path :
  root_dir st = render ns → Forall clean_name ns →
  resolve_path st path
    = render (foldl walk (if is_absolute path then [] else ns) (components path)) ∧
  Forall clean_name (foldl walk (if is_absolute path then [] else ns) (components path)).
Proof.
  intros Hr Hns. unfold resolve_path, normalize_path. rewrite Hr.
  change [SEP] with (render []).
  destruct (is_absolute path);
    edestruct (normalize_fold_render (components path)) as [-> Hc];
    try by (intros w ?; eapply components_clean). all: try done.
  all: by rewrite bool_decide_eq_false_2.
Qed.

(** ** Handles *)

Lemma handle_name_inj j k :
  0 ≤ j ≤ u64_max → 0 ≤ k ≤ u64_max → handle_name j = handle_name k → j = k.
Proof.
  intros Hj Hk Heq. unfold handle_name in Heq. apply app_inv_head in Heq.
  pose proof (parse_uint_dec u64_max j Hj) as H1. rewrite Heq, parse_uint_dec in H1 by done.
  by injection H1.
Qed.

(** The handle a request is about. *)
Definition request_handle (r : request) : option str :=
  match r with
  | Close _ h | Read _ h _ _ | Write _ h _ _ | Fstat _ h | Readdir _ h => Some h
  | _ => None
  end.

Definition unknown_handle : StatusReply :=
  {| reply_code := StNoSuchFile; reply_message := Some (lit "unknown SFTP handle") |}.

Ltac run_handler :=
  unfold serve, respond, open, close, read, write, lstat, fstat, opendir, readdir, remove, mkdir,
    rmdir, realpath, stat, rename, readlink, symlink, file_handle, lookup_handle, make_handle,
    io, io_try, get, modify, reply_error, mbind, handler_bind, mret, handler_ret in *.

(** Every outcome of the calls of the operating system and of the lookup. *)
Ltac os_cases H :=
  repeat (match type of H with
  | context [os_open ?a ?b ?c] => destruct (os_open a b c) as [? []]
  | context [os_seek ?a ?b ?c] => destruct (os_seek a b c) as [? []]
  | context [os_read ?a ?b ?c] => destruct (os_read a b c) as [? []]
  | context [os_write_all ?a ?b ?c] => destruct (os_write_all a b c) as [? []]
  | context [os_flush ?a ?b] => destruct (os_flush a b) as [? []]
  | context [os_file_metadata ?a ?b] => destruct (os_file_metadata a b) as [? []]
  | context [os_metadata ?a ?b] => destruct (os_metadata a b) as [? []]
  | context [os_symlink_metadata ?a ?b] => destruct (os_symlink_metadata a b) as [? []]
  | context [os_read_dir ?a ?b] => destruct (os_read_dir a b) as [? []]
  | context [os_next_entry ?a ?b] => destruct (os_next_entry a b) as [? [[]|]]
  | context [os_entry_metadata ?a ?b] => destruct (os_entry_metadata a b) as [? []]
  | context [os_remove_file ?a ?b] => destruct (os_remove_file a b) as [? []]
  | context [os_create_dir ?a ?b] => destruct (os_create_dir a b) as [? []]
  | context [os_remove_dir ?a ?b] => destruct (os_remove_dir a b) as [? []]
  | context [os_canonicalize ?a ?b] => destruct (os_canonicalize a b) as [? []]
  | context [os_rename ?a ?b ?c] => destruct (os_rename a b c) as [? []]
  | context [os_read_link ?a ?b] => destruct (os_read_link a b) as [? []]
  | context [os_symlink ?a ?b ?c] => destruct (os_symlink a b c) as [? []]
  | context [handles ?st !! ?h] => destruct (handles st !! h) as [[]|] eqn:?
  | context [?n =? 0] => destruct (n =? 0)
  end; cbn -[handle_name] in H); simplify_eq.

Lemma serve_unknown_handle r h w st :
  request_handle r = Some h → handles st !! h = None →
  serve r (w, st) = ((w, st), Err unknown_handle).
Proof.
  intros Hr Hh. destruct r; simplify_eq/=; run_handler; cbn; by rewrite Hh.
Qed.

(** How a request changes the session: it issues the next handle, closes one,
    or leaves the table alone. *)
Lemma serve_session r w st w' st' a :
  0 ≤ next_handle_id st < u64_max → serve r (w, st) = ((w', st'), a) →
  root_dir st' = root_dir st ∧
  ((∃ id hs, a = Ok (RHandle id (handle_name (next_handle_id st + 1))) ∧
      next_handle_id st' = next_handle_id st + 1 ∧
      handles st' = <[handle_name (next_handle_id st + 1) := hs]> (handles st))
   ∨ ((∀ id h, a ≠ Ok (RHandle id h)) ∧ next_handle_id st' = next_handle_id st ∧
      (handles st' = handles st ∨
       ∃ id h, r = Close id h ∧ handles st' = delete h (handles st)))).
Proof.
  intros Hn H. destruct r; run_handler; cbn -[handle_name] in H; os_cases H;
    cbn -[handle_name]; rewrite ?wrapping_add_small by lia;
    (split; [done|]); try (right; split; [done|]; split; [done|]; eauto; fail);
    left; eauto 10.
Qed.

(** The handles given out in a list of answers. *)
Definition issued (answers : list (result StatusReply response)) : list str :=
  omap (λ a, match a with Ok (RHandle _ h) => Some h | _ => None end) answers.

Lemma session_cons r rs s :
  session (r :: rs) s
  = let '(s1, a) := serve r s in let '(s2, answers) := session rs s1 in (s2, a :: answers).
Proof. done. Qed.

(** Handles are numbered in the order they are given out, and a handle that is
    not open with a number already used stays unknown. *)
Lemma session_handles rs w st w' st' answers :
  0 ≤ next_handle_id st → next_handle_id st + Z.of_nat (length rs) ≤ u64_max →
  session rs (w, st) = ((w', st'), answers) →
  issued answers = handle_name <$> seqZ (next_handle_id st + 1) (Z.of_nat (length (issued answers))) ∧
  next_handle_id st' = next_handle_id st + Z.of_nat (length (issued answers)) ∧
  (length (issued answers) ≤ length rs)%nat ∧
  root_dir st' = root_dir st ∧
  ∀ k, 0 ≤ k ≤ next_handle_id st → handles st !! handle_name k = None →
    handles st' !! handle_name k = None.
Proof.
  revert w st answers. induction rs as [|r rs IH]; intros w st answers Hn Hlen Hs.
  { cbn in Hs. simplify_eq. cbn. split_and!; try done; lia. }
  rewrite session_cons in Hs. cbn [length] in Hlen.
  destruct (serve r (w, st)) as [[w1 st1] a] eqn:Hr.
  destruct (session rs (w1, st1)) as [s2 as2] eqn:Hrs. injection Hs as -> <-.
  apply serve_session in Hr as (Hroot & Hr); [|lia].
  destruct Hr as [(id & hs & -> & Hn1 & Hh)|(Ha & Hn1 & Hh)].
  - apply IH in Hrs as (Hi & Hnext & Hle & Hroot' & Hkeep); [|lia..].
    change (issued (Ok (RHandle id (handle_name (next_handle_id st + 1))) :: as2))
      with (handle_name (next_handle_id st + 1) :: issued as2).
    cbn [length]. split_and!; [|lia|lia|congruence|].
    + rewrite Nat2Z.inj_succ, seqZ_cons by lia. cbn [fmap list_fmap]. f_equal.
      rewrite Hi at 1. f_equal. f_equal; lia.
    + intros k Hk Hnone. apply Hkeep; [lia|]. rewrite Hh, lookup_insert_ne; [done|].
      intros Heq. apply handle_name_inj in Heq; lia.
  - apply IH in Hrs as (Hi & Hnext & Hle & Hroot' & Hkeep); [|lia..].
    assert (issued (a :: as2) = issued as2) as ->
      by (cbn; destruct a as [[]|]; try done; by edestruct Ha).
    rewrite Hn1 in *. cbn [length]. split_and!; [done|lia|lia|congruence|].
    intros k Hk Hnone. apply Hkeep; [lia|].
    destruct Hh as [->|(id & h & _ & ->)]; [done|].
    rewrite lookup_delete. by case_decide.
Qed.
End Handlers.

(** ** Properties *)

Section Properties.
Context {OS : Os}.

(** C36: the path that a request hands to the operating system is the lexical
    resolution of the client's path: the names of the root directory, or of
    nothing for an absolute path, walked component by component.  For a root
    directory in normal form (absolute, no dot or dot-dot component) it is always
    absolute and has no dot or dot-dot component, so that nothing but symbolic
    links can redirect it. *)
Theorem resolved_path_is_lexical st ns path :
  root_dir st = render ns → Forall clean_name ns →
  components (resolve_path st path)
  = RootDir :: (Normal <$> foldl walk (if is_absolute path then [] else ns) (components path)).
Proof.
  intros Hr Hns. destruct (resolve_path_render st ns path Hr Hns) as [-> Hc].
  by apply components_render.
Qed.

(** The handles of a session are h1, h2, h3, ... in the order they are
    given out: no handle is given out twice, whatever is opened and closed in
    between. *)
Theorem handles_are_never_reused root rs w s' answers :
  Z.of_nat (length rs) ≤ u64_max →
  session rs (w, LocalSftp_new root) = (s', answers) →
  issued answers = handle_name <$> seqZ 1 (Z.of_nat (length (issued answers))) ∧
  NoDup (issued answers).
Proof.
  intros Hlen Hs. destruct s' as [w' st'].
  apply session_handles in Hs as (Hi & _ & Hle & _ & _); [|cbn; lia..]. cbn in Hi.
  split; [exact Hi|]. rewrite Hi. apply NoDup_fmap_2_strong; [|apply NoDup_seqZ].
  intros j k Hj Hk. rewrite elem_of_seqZ in Hj, Hk. apply handle_name_inj; lia.
Qed.

(** After a handle was closed every request about it is answered with
    "unknown SFTP handle" and changes nothing, neither in the session nor in the
    operating system, whatever requests came in between. *)
Theorem closed_handle_stays_closed root rs1 id k rs2 r w w1 st1 w2 st2 w3 st3 as1 as2 a :
  Z.of_nat (length rs1) + Z.of_nat (length rs2) < u64_max →
  session rs1 (w, LocalSftp_new root) = ((w1, st1), as1) →
  serve (Close id (handle_name k)) (w1, st1) = ((w2, st2), Ok a) →
  1 ≤ k ≤ next_handle_id st1 →
  session rs2 (w2, st2) = ((w3, st3), as2) →
  request_handle r = Some (handle_name k) →
  serve r (w3, st3) = ((w3, st3), Err unknown_handle).
Proof.
  intros Hlen H1 Hc Hk H2 Hr. apply serve_unknown_handle with (handle_name k); [done|].
  apply session_handles in H1 as (_ & Hn1 & Hle1 & _); [|cbn; lia..]. cbn in Hn1.
  assert (next_handle_id st2 = next_handle_id st1 ∧ handles st2 !! handle_name k = None) as [Hn2 Hnone].
  { unfold serve, respond, close, lookup_handle, get, modify, reply_error, mbind, handler_bind,
      mret, handler_ret in Hc. cbn -[handle_name] in Hc.
    destruct (handles st1 !! handle_name k); simplify_eq. cbn -[handle_name]. by rewrite lookup_delete_eq. }
  apply session_handles in H2 as (_ & _ & _ & _ & Hkeep); [|lia..]. apply Hkeep; [lia|done].
Qed.

(** A successful read returns at least one byte, at most as many as were
    asked for, and never more than 1 MiB, whatever length the client sends. *)
Theorem read_is_capped `{!OsLaws} id h offset len s s' i data :
  0 ≤ len ≤ u32_max → read id h offset len s = (s', Ok (i, data)) →
  i = id ∧ 1 ≤ Z.of_nat (length data) ≤ Z.min len MAX_SFTP_READ_LEN.
Proof.
  intros Hlen. destruct s as [w st]. unfold read, file_handle, lookup_handle, io, get, reply_error, mbind,
    handler_bind, mret, handler_ret. cbn -[MAX_SFTP_READ_LEN].
  destruct (handles st !! h) as [[file|]|]; [|done..].
  destruct (os_seek file offset w) as [w1 [[]|]]; [|done]. cbn -[MAX_SFTP_READ_LEN].
  destruct (os_read file _ w1) as [w2 [d|]] eqn:Hread; [|done]. cbn -[MAX_SFTP_READ_LEN].
  apply os_read_le in Hread; [|change MAX_SFTP_READ_LEN with 1048576; lia]. destruct (_ =? 0) eqn:E; bool_to_prop; [done|].
  intros [= _ <- <-]. lia.
Qed.
End Properties.

(** ** A small file system in memory, for the witnesses

    Files by path and one position per path; no directories and no links. *)

Definition mem_world : Type := gmap str bytes * gmap str Z.
Definition not_found {A} : result io_error A :=
  Err {| kind := NotFound; io_message := lit "No such file or directory" |}.

Definition mem_read (fd : str) (n : Z) (w : mem_world) : mem_world * result io_error bytes :=
  let pos := default 0 (w.2 !! fd) in
  let data := take (Z.to_nat n) (drop (Z.to_nat pos) (default [] (w.1 !! fd))) in
  ((w.1, <[fd := pos + Z.of_nat (length data)]> w.2), Ok data).

#[global, program] Instance mem_os : Os := {
  World := mem_world; Fd := str; DirStream := unit; DirEntry := unit; Attributes := Z;
  OpenFlags := unit;
  os_open p _ w := match w.1 !! p with Some _ => (w, Ok p) | None => (w, not_found) end;
  os_seek fd o w := ((w.1, <[fd := o]> w.2), Ok tt);
  os_read := mem_read;
  os_write_all fd data w :=
    let pos := Z.to_nat (default 0 (w.2 !! fd)) in
    let old := default [] (w.1 !! fd) in
    ((<[fd := take pos old ++ data ++ drop (pos + length data) old]> w.1, w.2), Ok tt);
  os_flush _ w := (w, Ok tt);
  os_file_metadata fd w := (w, Ok (Z.of_nat (length (default [] (w.1 !! fd)))));
  os_metadata p w := match w.1 !! p with
    | Some d => (w, Ok (Z.of_nat (length d))) | None => (w, not_found) end;
  os_symlink_metadata p w := match w.1 !! p with
    | Some d => (w, Ok (Z.of_nat (length d))) | None => (w, not_found) end;
  os_read_dir _ w := (w, not_found);
  os_next_entry _ w := (w, Ok None);
  os_entry_metadata _ w := (w, not_found);
  os_entry_name _ := [];
  os_remove_file p w := match w.1 !! p with
    | Some _ => ((delete p w.1, w.2), Ok tt) | None => (w, not_found) end;
  os_create_dir _ w := (w, not_found);
  os_remove_dir _ w := (w, not_found);
  os_canonicalize p w := (w, Ok p);
  os_rename p q w := match w.1 !! p with
    | Some d => ((<[q := d]> (delete p w.1), w.2), Ok tt) | None => (w, not_found) end;
  os_read_link _ w := (w, not_found);
  os_symlink _ _ w := (w, not_found);
}.

#[global] Instance mem_os_laws : OsLaws.
Proof.
  split. cbn. unfold mem_read. intros fd n w w' data Hn [= _ <-]. rewrite length_take. lia.
Qed.

Definition demo_session : LocalSftp := LocalSftp_new (lit "/home/alice").
Definition demo_world : mem_world := ({[ lit "/home/alice/notes" := lit "hello" ]}, ∅).

Lemma demo_root : root_dir demo_session = render [lit "home"; lit "alice"].
Proof. reflexivity. Qed.

Lemma demo_root_clean : Forall clean_name [lit "home"; lit "alice"].
Proof. repeat constructor; done. Qed.

Lemma resolved_path_is_lexical_witness :
  components (resolve_path demo_session (lit "../bob/./x/../y"))
  = RootDir :: (Normal <$> [lit "home"; lit "bob"; lit "y"]).
Proof.
  apply (resolved_path_is_lexical demo_session [lit "home"; lit "alice"] (lit "../bob/./x/../y")
    demo_root demo_root_clean).
Defined.

(** Opened, closed and opened again. *)
Definition demo_requests : list request :=
  [Open 1 (lit "notes") (tt : OpenFlags); Close 2 (handle_name 1);
   Open 3 (lit "notes") (tt : OpenFlags); Read 4 (handle_name 2) 1 100].

Lemma handles_are_never_reused_witness :
  NoDup (issued (session demo_requests (demo_world, demo_session)).2).
Proof.
  apply (handles_are_never_reused (lit "/home/alice") demo_requests demo_world
    (session demo_requests (demo_world, demo_session)).1).
  - vm_compute. congruence.
  - apply surjective_pairing.
Defined.

(** The states after the first two requests and at the end. *)
Definition demo_opened := (session (take 1 demo_requests) (demo_world, demo_session)).1.
Definition demo_closed := (session (take 2 demo_requests) (demo_world, demo_session)).1.
Definition demo_final := (session demo_requests (demo_world, demo_session)).1.

Lemma closed_handle_stays_closed_witness :
  serve (Read 5 (handle_name 1) 0 10) (demo_final.1, demo_final.2)
  = ((demo_final.1, demo_final.2), Err unknown_handle).
Proof.
  apply (closed_handle_stays_closed (lit "/home/alice") (take 1 demo_requests) 2 1
    (drop 2 demo_requests) (Read 5 (handle_name 1) 0 10) demo_world
    demo_opened.1 demo_opened.2 demo_closed.1 demo_closed.2 demo_final.1 demo_final.2
    [Ok (RHandle 1 (handle_name 1))]
    (session (drop 2 demo_requests) (demo_closed.1, demo_closed.2)).2 (RStatus (ok_status 2))).
  - reflexivity.
  - reflexivity.
  - reflexivity.
  - split; vm_compute; congruence.
  - reflexivity.
  - reflexivity.
Defined.

Lemma read_is_capped_witness : 1 ≤ Z.of_nat (length (lit "ello")) ≤ 100.
Proof.
  apply (read_is_capped 4 (handle_name 2) 1 100
    (session (take 3 demo_requests) (demo_world, demo_session)).1
    (session demo_requests (demo_world, demo_session)).1 4 (lit "ello")).
  - split; vm_compute; congruence.
  - reflexivity.
Defined.

End Sftp.
