(* ===== verification/Preauth.v ===== *)
(** * The pre-authentication stream (src/src/sshd.rs, [PreauthTimedStream])

    The transport of a connection until its peer is authenticated: every poll
    first looks at the login deadline and at the deadline for the start of the
    key exchange, and a poll that has to wait arms a timer for the earlier of
    the two.  The bytes of the client are watched only for the end of its
    banner and for the first bytes after it.

    A poll is a pure step: the shared flag, the clock at each place the code
    reads it, the answer of the inner stream and whether the timer has fired are
    its arguments. *)

From S2P Require Import Prelude Rust.

Local Open Scope Z_scope.

Module Preauth.

(** ** Data *)

Inductive Poll (A : Type) := Ready (a : A) | Pending.
Arguments Ready {A} a.
Arguments Pending {A}.

Abbreviation bytes := (list N) (only parsing).

(** [PreauthTimedStream] without its inner stream and the shared flag; [timer]
    is the deadline the timer was last set to. *)
Record PreauthTimedStream := {
  login_grace_deadline : Instant;
  kex_start_timeout : Duration;
  kex_start_deadline : option Instant;
  kex_started : bool;
  client_banner_complete : bool;
  client_banner_len : Z;
  timer : Instant;
}.

Definition new (login_deadline : Instant) (kex_timeout : Duration) : PreauthTimedStream := {|
  login_grace_deadline := login_deadline;
  kex_start_timeout := kex_timeout;
  kex_start_deadline := None;
  kex_started := false;
  client_banner_complete := false;
  client_banner_len := 0;
  timer := login_deadline;
|}.

(** The assignments to the banner and key-exchange fields. *)
Definition set_progress (deadline : option Instant) (started complete : bool) (len : Z)
  (s : PreauthTimedStream) : PreauthTimedStream :=
  {| login_grace_deadline := login_grace_deadline s; kex_start_timeout := kex_start_timeout s;
     kex_start_deadline := deadline; kex_started := started;
     client_banner_complete := complete; client_banner_len := len; timer := timer s |}.

Definition login_grace_timeout_error : io_error :=
  IoError TimedOut (lit "login grace time exceeded before authentication completed").
Definition kex_start_timeout_error : io_error :=
  IoError TimedOut (lit "key exchange did not start before the configured timeout elapsed").

(** ** Deadlines *)

Definition current_deadline (s : PreauthTimedStream) : Instant :=
  match kex_start_deadline s with
  | Some deadline =>
      if negb (kex_started s) then Z.min deadline (login_grace_deadline s)
      else login_grace_deadline s
  | None => login_grace_deadline s
  end.

Definition reset_timer (s : PreauthTimedStream) : PreauthTimedStream :=
  {| login_grace_deadline := login_grace_deadline s; kex_start_timeout := kex_start_timeout s;
     kex_start_deadline := kex_start_deadline s; kex_started := kex_started s;
     client_banner_complete := client_banner_complete s;
     client_banner_len := client_banner_len s; timer := current_deadline s |}.

Definition check_timeout (authenticated : bool) (now : Instant) (s : PreauthTimedStream)
  : option io_error :=
  if authenticated then None
  else if login_grace_deadline s <=? now then Some login_grace_timeout_error
  else match kex_start_deadline s with
       | Some deadline =>
           if negb (kex_started s) && (deadline <=? now) then Some kex_start_timeout_error else None
       | None => None
       end.

(** The loop over the bytes until the end of the banner; [now] is the clock
    when the newline is met. *)
Fixpoint scan_banner (now : Instant) (bs : bytes) (s : PreauthTimedStream)
  : run PreauthTimedStream :=
  match bs with
  | [] => mret s
  | b :: bs =>
      let len := saturating_add usize_max (client_banner_len s) 1 in
      if (b =? 10)%N then
        deadline ← instant_add now (kex_start_timeout s);
        mret (reset_timer (set_progress (Some deadline) (kex_started s) true len s))
      else
        scan_banner now bs
          (set_progress (kex_start_deadline s) (kex_started s) (client_banner_complete s) len s)
  end.

Definition note_client_bytes (authenticated : bool) (now : Instant) (bs : bytes)
  (s : PreauthTimedStream) : run PreauthTimedStream :=
  if authenticated || bool_decide (bs = []) then mret s
  else if negb (client_banner_complete s) then scan_banner now bs s
  else if negb (kex_started s) then
    mret (reset_timer (set_progress None true (client_banner_complete s) (client_banner_len s) s))
  else mret s.

(** [fired] is whether the timer was due when it was polled, at [now']. *)
Definition poll_deadline (authenticated : bool) (now : Instant) (fired : bool) (now' : Instant)
  (s : PreauthTimedStream) : Poll (result io_error unit) :=
  match check_timeout authenticated now s with
  | Some err => Ready (Err err)
  | None =>
      if fired
      then Ready (Err (default login_grace_timeout_error (check_timeout authenticated now' s)))
      else Pending
  end.

(** ** Polls

    [inner] is the answer of the inner stream, if it is asked; a successful read
    has the bytes it appended to the buffer.  [clk] has the clock at the entry,
    at the note of the bytes or the first look of [poll_deadline], and at its
    second look. *)

Record clock := { at_entry : Instant; at_wait : Instant; at_fire : Instant }.

Definition poll_read (authenticated : bool) (clk : clock) (fired : bool)
  (inner : Poll (result io_error bytes)) (s : PreauthTimedStream)
  : run (PreauthTimedStream * Poll (result io_error bytes)) :=
  if authenticated then mret (s, inner)
  else match check_timeout authenticated (at_entry clk) s with
       | Some err => mret (s, Ready (Err err))
       | None =>
           match inner with
           | Ready (Ok bs) =>
               s' ← (if bool_decide (bs = []) then mret s
                     else note_client_bytes authenticated (at_wait clk) bs s);
               mret (s', Ready (Ok bs))
           | Ready (Err err) => mret (s, Ready (Err err))
           | Pending =>
               mret (s, match poll_deadline authenticated (at_wait clk) fired (at_fire clk) s with
                        | Ready (Ok _) => Ready (Ok [])
                        | Ready (Err err) => Ready (Err err)
                        | Pending => Pending
                        end)
           end
       end.

Definition poll_write (authenticated : bool) (clk : clock) (fired : bool)
  (inner : Poll (result io_error Z)) (s : PreauthTimedStream) : Poll (result io_error Z) :=
  if authenticated then inner
  else match check_timeout authenticated (at_entry clk) s with
       | Some err => Ready (Err err)
       | None =>
           match inner with
           | Ready r => Ready r
           | Pending =>
               match poll_deadline authenticated (at_wait clk) fired (at_fire clk) s with
               | Ready (Err err) => Ready (Err err)
               | Ready (Ok _) => Ready (Ok 0)
               | Pending => Pending
               end
           end
       end.

Definition poll_flush (authenticated : bool) (clk : clock) (fired : bool)
  (inner : Poll (result io_error unit)) (s : PreauthTimedStream) : Poll (result io_error unit) :=
  if authenticated then inner
  else match check_timeout authenticated (at_entry clk) s with
       | Some err => Ready (Err err)
       | None =>
           match inner with
           | Ready r => Ready r
           | Pending => poll_deadline authenticated (at_wait clk) fired (at_fire clk) s
           end
       end.

Definition poll_shutdown {A} (inner : Poll A) : Poll A := inner.

(** ** Invariant *)

Record stream_inv (s : PreauthTimedStream) : Prop := {
  inv_deadline : is_Some (kex_start_deadline s) ↔
    client_banner_complete s = true ∧ kex_started s = false;
  inv_started : kex_started s = true → client_banner_complete s = true;
  inv_timer : timer s = current_deadline s;
}.

Lemma stream_inv_new d k : stream_inv (new d k).
Proof. split; cbn; [|done|done]. split; [by intros []|by intros []]. Qed.

Lemma current_deadline_le s : current_deadline s ≤ login_grace_deadline s.
Proof. unfold current_deadline. repeat case_match; lia. Qed.

(** Unauthenticated, a timeout is reported exactly from the current deadline on. *)
Lemma check_timeout_deadline now s :
  is_Some (check_timeout false now s) ↔ current_deadline s ≤ now.
Proof.
  unfold check_timeout, current_deadline.
  destruct (login_grace_deadline s <=? now) eqn:E; bool_to_prop.
  - split; [|by eexists]. intros _. repeat case_match; lia.
  - destruct (kex_start_deadline s) as [d|]; [|split; [by intros []|lia]].
    destruct (kex_started s); cbn; [split; [by intros []|lia]|].
    destruct (d <=? now) eqn:E'; bool_to_prop; split; try (intros []; done); [lia|by eexists|lia].
Qed.

Lemma check_timeout_kind a now s e :
  check_timeout a now s = Some e →
  e = login_grace_timeout_error ∨ e = kex_start_timeout_error.
Proof. unfold check_timeout. intros. repeat case_match; naive_solver. Qed.

Lemma scan_banner_inv now bs s s' :
  stream_inv s → client_banner_complete s = false → scan_banner now bs s = Ret s' →
  stream_inv s' ∧ login_grace_deadline s' = login_grace_deadline s ∧
  kex_start_timeout s' = kex_start_timeout s ∧ kex_started s' = false ∧
  (client_banner_complete s' = true ↔ 10%N ∈ bs) ∧
  (10%N ∈ bs → kex_start_deadline s' = Some (now + kex_start_timeout s)).
Proof.
  revert s. induction bs as [|b bs IH]; intros s Hinv Hc H; cbn in H.
  - injection H as <-. split_and!; try done.
    + destruct (kex_started s) eqn:E; [|done]. by rewrite (inv_started _ Hinv E) in Hc.
    + rewrite Hc. set_solver.
    + set_solver.
  - destruct (b =? 10)%N eqn:Hb; bool_to_prop.
    + inv_bind. apply instant_add_Ret in H0 as [-> _].
      assert (kex_started s = false) as Hk.
      { destruct (kex_started s) eqn:E; [|done]. by rewrite (inv_started _ Hinv E) in Hc. }
      cbn. rewrite Hk. split_and!; try done; try set_solver.
    + apply IH in H as (Hinv' & H1 & H2 & H3 & H4 & H5).
      * split_and!; try done.
        -- rewrite H4. set_solver.
        -- intros Hin. apply H5. set_solver.
      * destruct Hinv as [Hd Hs Ht]. split; cbn; [done|done|]. by rewrite Ht.
      * done.
Qed.

Lemma note_client_bytes_inv a now bs s s' :
  stream_inv s → note_client_bytes a now bs s = Ret s' →
  stream_inv s' ∧ login_grace_deadline s' = login_grace_deadline s ∧
  kex_start_timeout s' = kex_start_timeout s.
Proof.
  intros Hinv. unfold note_client_bytes. destruct (a || _); [by intros [= <-]|].
  destruct (client_banner_complete s) eqn:Hc; cbn.
  - destruct (kex_started s) eqn:Hk; cbn; intros [= <-]; [done|]. cbn. split; [|done].
    split; cbn; [split; [by intros []|by intros []]|done|done].
  - intros H. apply scan_banner_inv in H as (? & ? & ? & _); done.
Qed.

Lemma poll_read_inv a clk fired inner s s' r :
  stream_inv s → poll_read a clk fired inner s = Ret (s', r) →
  stream_inv s' ∧ login_grace_deadline s' = login_grace_deadline s ∧
  kex_start_timeout s' = kex_start_timeout s.
Proof.
  intros Hinv. unfold poll_read. destruct a; [by intros [= <- <-]|].
  destruct (check_timeout _ _ _); [by intros [= <- <-]|].
  destruct inner as [[bs|]|]; [|by intros [= <- <-]..].
  intros H. inv_bind. simplify_eq. case_bool_decide; inv_bind; [done|].
  by eapply note_client_bytes_inv.
Qed.

(** ** Reads in sequence *)

(** One read: the flag, the clock, the timer, and the answer of the inner stream. *)
Record read_event := {
  ev_authenticated : bool;
  ev_clock : clock;
  ev_fired : bool;
  ev_inner : Poll (result io_error bytes);
}.

Inductive read_step : PreauthTimedStream → PreauthTimedStream → Prop :=
| do_read ev s s' r :
    poll_read (ev_authenticated ev) (ev_clock ev) (ev_fired ev) (ev_inner ev) s = Ret (s', r) →
    read_step s s'.

Lemma reachable_inv d k s :
  rtc read_step (new d k) s → stream_inv s ∧ login_grace_deadline s = d ∧ kex_start_timeout s = k.
Proof.
  apply (rtc_ind_r (λ s, stream_inv s ∧ login_grace_deadline s = d ∧ kex_start_timeout s = k)).
  - split_and!; [apply stream_inv_new|done|done].
  - intros s1 s2 _ [ev ? ? r H] (Hi & Hd & Hk). apply poll_read_inv in H as (? & ? & ?); [|done].
    split_and!; congruence.
Qed.

(** ** Properties *)

(** C23: until the peer is authenticated no poll made at or after the login
    deadline succeeds or waits, whatever the inner stream would do: reads,
    writes and flushes all end with a timeout error, in every state the stream
    can be in. *)
Theorem no_progress_after_login_deadline deadline k s clk fired :
  rtc read_step (new deadline k) s → deadline ≤ at_entry clk →
  (∀ inner, poll_read false clk fired inner s = Ret (s, Ready (Err login_grace_timeout_error))) ∧
  (∀ inner, poll_write false clk fired inner s = Ready (Err login_grace_timeout_error)) ∧
  (∀ inner, poll_flush false clk fired inner s = Ready (Err login_grace_timeout_error)).
Proof.
  intros (_ & Hd & _)%reachable_inv Hnow.
  assert (check_timeout false (at_entry clk) s = Some login_grace_timeout_error) as Hc
    by (unfold check_timeout; by rewrite Hd, (proj2 (Z.leb_le _ _))).
  unfold poll_read, poll_write, poll_flush. by rewrite Hc.
Qed.

(** An unauthenticated poll that waits leaves a timer behind that is set to
    the earliest deadline in force, which is still to come, so that the
    connection is woken up to be timed out; and a poll made at or after that
    deadline never waits or succeeds. *)
Theorem waiting_poll_has_its_timer_set deadline k s clk fired inner s' r :
  rtc read_step (new deadline k) s → poll_read false clk fired inner s = Ret (s', r) →
  (r = Pending → fired = false ∧ timer s' = current_deadline s' ∧ at_entry clk < timer s') ∧
  (current_deadline s ≤ at_entry clk → ∃ e, r = Ready (Err e)).
Proof.
  intros (Hinv & _ & _)%reachable_inv H. split.
  - intros ->. pose proof (poll_read_inv _ _ _ _ _ _ _ Hinv H) as (Hinv' & _ & _).
    unfold poll_read in H. unfold mret, run_ret in H.
    destruct (check_timeout false (at_entry clk) s) eqn:Hc; [done|].
    assert (¬ current_deadline s ≤ at_entry clk) as Hlt
      by (rewrite <- check_timeout_deadline, Hc; by intros []).
    destruct inner as [[]|]; inv_bind; simplify_eq.
    rewrite (inv_timer _ Hinv'). unfold poll_deadline in *. repeat case_match; simplify_eq.
    split_and!; [done|done|lia].
  - intros Hle. apply check_timeout_deadline in Hle as [e He].
    unfold poll_read in H. rewrite He in H. injection H as <- <-. by eexists.
Qed.

(** The deadline for the key exchange starts when the newline of the
    client's banner is read and is lifted by the next bytes, and only by bytes
    of a later read: whatever follows the newline in the same read does not
    count as the start of the key exchange. *)
Theorem key_exchange_starts_with_a_later_read deadline k s now bs s' :
  rtc read_step (new deadline k) s → bs ≠ [] → note_client_bytes false now bs s = Ret s' →
  (client_banner_complete s = false → 10%N ∈ bs →
     client_banner_complete s' = true ∧ kex_started s' = false ∧
     kex_start_deadline s' = Some (now + k)) ∧
  (client_banner_complete s = false → 10%N ∉ bs →
     client_banner_complete s' = false ∧ kex_start_deadline s' = None) ∧
  (client_banner_complete s = true →
     kex_started s' = true ∧ kex_start_deadline s' = None ∧ current_deadline s' = deadline).
Proof.
  intros (Hinv & Hd & Hk)%reachable_inv Hne H. unfold note_client_bytes in H.
  rewrite (bool_decide_eq_false_2 _ Hne) in H. cbn in H. split_and!.
  - intros Hc Hin. rewrite Hc in H. cbn in H.
    apply scan_banner_inv in H as (_ & _ & _ & ? & [_ ?] & Hdl); [|done..].
    rewrite <- Hk. auto.
  - intros Hc Hin. rewrite Hc in H. cbn in H.
    apply scan_banner_inv in H as (Hinv' & _ & _ & ? & [Hb _] & _); [|done..].
    assert (client_banner_complete s' = false) as Hc' by (destruct (client_banner_complete s'); naive_solver).
    split; [done|]. destruct (kex_start_deadline s') eqn:E; [|done].
    destruct (proj1 (inv_deadline _ Hinv')) as [? _]; [rewrite E; by eexists|congruence].
  - intros Hc. rewrite Hc in H. cbn in H. destruct (kex_started s) eqn:Hs; cbn in H.
    + injection H as <-. assert (kex_start_deadline s = None) as Hn.
      { destruct (kex_start_deadline s) eqn:E; [|done].
        destruct (proj1 (inv_deadline _ Hinv)) as [_ ?]; [rewrite E; by eexists|congruence]. }
      split_and!; [done|done|]. unfold current_deadline. by rewrite Hn.
    + injection H as <-. cbn. split_and!; done.
Qed.

(** ** Witnesses *)

Definition demo : PreauthTimedStream := new 15 5.
Definition demo_clock (t : Instant) : clock := {| at_entry := t; at_wait := t; at_fire := t |}.

Lemma no_progress_after_login_deadline_witness :
  poll_write false (demo_clock 15) false (Ready (Ok 1)) demo = Ready (Err login_grace_timeout_error).
Proof.
  apply (no_progress_after_login_deadline 15 5 demo (demo_clock 15) false);
    [apply rtc_refl|vm_compute; congruence].
Defined.

Lemma waiting_poll_has_its_timer_set_witness : timer demo = current_deadline demo.
Proof.
  destruct (waiting_poll_has_its_timer_set 15 5 demo (demo_clock 3) false Pending demo Pending)
    as [H _]; [apply rtc_refl|reflexivity|]. apply H. reflexivity.
Defined.

Definition demo_bytes : bytes := lit "SSH-2.0-x" ++ [13%N; 10%N] ++ lit "kexinit".
Definition demo_noted : PreauthTimedStream :=
  {| login_grace_deadline := 15; kex_start_timeout := 5; kex_start_deadline := Some 8;
     kex_started := false; client_banner_complete := true; client_banner_len := 11; timer := 8 |}.

Lemma key_exchange_starts_with_a_later_read_witness : kex_started demo_noted = false.
Proof.
  destruct (key_exchange_starts_with_a_later_read 15 5 demo 3 demo_bytes demo_noted) as (H & _ & _).
  - apply rtc_refl.
  - discriminate.
  - vm_compute. reflexivity.
  - apply H; [reflexivity|]. apply list_elem_of_In. vm_compute. auto 12.
Defined.

End Preauth.
