(* ===== verification/Session.v ===== *)
(** * Channels and forwards of a session (src/src/sshd.rs, [ClientHandler])

    After authentication a client opens channels, decorates them (environment,
    terminal) and turns each of them into a process, a command or an SFTP
    server; it may also ask for TCP connections and for remote listeners.  The
    daemon starts nothing itself: it sends requests to the executor process.

    A handler is a function of the configuration, the handler state and the
    answer the executor will give; it returns the new state, what it sends to
    the client and to the executor, and the error that would end the
    connection. *)

From S2P Require Import Prelude Rust Config.

Local Open Scope Z_scope.

Module Session.

(** ** Data *)

Record PtySize := { rows : Z; cols : Z; pixel_width : Z; pixel_height : Z }.
Record PtyRequest := { term : str; size : PtySize }.

Record PendingChannel := { pty : option PtyRequest; env : gmap str str }.

Record ForwardKey := { address : str; forward_port : Z }.

#[global] Instance ForwardKey_eq_dec : EqDecision ForwardKey.
Proof. solve_decision. Defined.
#[global] Instance ForwardKey_countable : Countable ForwardKey.
Proof.
  apply (inj_countable' (λ k, (address k, forward_port k)) (λ '(a, b), Build_ForwardKey a b)).
  by intros [].
Defined.

(** The maps of [ClientHandler]: channels not yet turned into something, by
    channel number, and the executor's tokens of the remote forwards. *)
Record ClientHandler := {
  pending_channels : gmap Z PendingChannel;
  remote_forwards : gmap ForwardKey Z;
}.

Definition ClientHandler_new : ClientHandler :=
  {| pending_channels := ∅; remote_forwards := ∅ |}.

(** What the daemon knows about its own user. *)
Record daemon_user := { home_dir : str; daemon_username : str }.

(** [ProcessRequest]: no command is a login shell. *)
Record ProcessRequest := {
  request_pty : option PtyRequest;
  request_env : gmap str str;
  command : option str;
}.

(** [russh::ChannelOpenFailure]. *)
Inductive open_failure := AdministrativelyProhibited | ConnectFailed.

(** Messages to the client and requests to the executor. *)
Inductive output :=
| ChannelSuccess (ch : Z)
| ChannelFailure (ch : Z)
| OpenAccepted (ch : Z)
| OpenRejected (ch : Z) (why : open_failure)
| StartProcess (ch : Z) (r : ProcessRequest)
| StartSftp (ch : Z)
| ConnectTcp (host : str) (port : Z)
| StartRemoteForward (connected_address bind_host : str) (port : Z)
| CancelRemoteForward (token : Z).

(** ** Environment *)

Definition is_env_allowed (name : str) : bool :=
  bool_decide (name = lit "TERM") || bool_decide (name = lit "COLORTERM")
  || bool_decide (name = lit "LANG") || bool_decide (name = lit "TZ")
  || starts_with (lit "LC_") name.

(** Comparisons and allow-list tests of literals, evaluated. *)
Ltac lit_eval :=
  repeat match goal with
  | |- context [bool_decide (lit ?a = lit ?b)] =>
      let r := eval vm_compute in (bool_decide (lit a = lit b)) in
      replace (bool_decide (lit a = lit b)) with r by (vm_compute; reflexivity)
  | |- context [is_env_allowed (lit ?a)] =>
      let r := eval vm_compute in (is_env_allowed (lit a)) in
      replace (is_env_allowed (lit a)) with r by (vm_compute; reflexivity)
  end.

(** [env.entry(key).or_insert_with(..)]. *)
Definition or_insert (key value : str) (m : gmap str str) : gmap str str :=
  match m !! key with Some _ => m | None => <[key := value]> m end.

Definition build_child_env (c : Config.AppConfig) (u : daemon_user) (requested_env : gmap str str)
  (term : option str) : gmap str str :=
  let m := filter (λ '(key, _), is_env_allowed key = true) requested_env in
  let m := or_insert (lit "HOME") (home_dir u) m in
  let m := or_insert (lit "USER") (daemon_username u) m in
  let m := or_insert (lit "LOGNAME") (daemon_username u) m in
  let m := or_insert (lit "SHELL") (Config.shell c) m in
  match term with Some t => or_insert (lit "TERM") t m | None => m end.

Definition clamp_dimension (value : Z) : Z := Z.min (Z.max value 1) u16_max.

(** ** Handlers *)

Section Handlers.
Context (c : Config.AppConfig) (u : daemon_user).

(** New state, messages in the order they are sent, and the outcome. *)
Definition handled (A : Type) : Type := ClientHandler * list output * result anyhow A.

Definition set_pending (m : gmap Z PendingChannel) (h : ClientHandler) : ClientHandler :=
  {| pending_channels := m; remote_forwards := remote_forwards h |}.
Definition set_forwards (m : gmap ForwardKey Z) (h : ClientHandler) : ClientHandler :=
  {| pending_channels := pending_channels h; remote_forwards := m |}.

(** [channel_mut] and [take_channel]: the error names the channel. *)
Definition unknown_channel {A} (ch : Z) : result anyhow A :=
  bail (lit "unknown channel ChannelId(" ++ dec ch ++ lit ")").

Definition channel_open_session (ch : Z) (h : ClientHandler) : handled unit :=
  (set_pending (<[ch := {| pty := None; env := ∅ |}]> (pending_channels h)) h,
   [OpenAccepted ch], Ok tt).

(** [connect] is the executor's answer. *)
Definition channel_open_direct_tcpip (ch : Z) (host : str) (port : Z)
  (connect : result anyhow unit) (h : ClientHandler) : handled unit :=
  if negb (Config.allow_tcp_forwarding c)
  then (h, [OpenRejected ch AdministrativelyProhibited], Ok tt)
  else match try_from u16_max port with
       | None => (h, [OpenRejected ch AdministrativelyProhibited], Ok tt)
       | Some port =>
           match connect with
           | Ok _ => (h, [ConnectTcp host port; OpenAccepted ch], Ok tt)
           | Err _ => (h, [ConnectTcp host port; OpenRejected ch ConnectFailed], Ok tt)
           end
       end.

Definition env_request (ch : Z) (variable_name variable_value : str) (h : ClientHandler)
  : handled unit :=
  if negb (is_env_allowed variable_name) then (h, [ChannelFailure ch], Ok tt)
  else match pending_channels h !! ch with
       | None => (h, [], unknown_channel ch)
       | Some p =>
           (set_pending (<[ch := {| pty := pty p;
                env := <[variable_name := variable_value]> (env p) |}]> (pending_channels h)) h,
            [ChannelSuccess ch], Ok tt)
       end.

Definition pty_request (ch : Z) (term : str) (col_width row_height pix_width pix_height : Z)
  (h : ClientHandler) : handled unit :=
  if negb (Config.permit_tty c) then (h, [ChannelFailure ch], Ok tt)
  else match pending_channels h !! ch with
       | None => (h, [], unknown_channel ch)
       | Some p =>
           let size := {| rows := clamp_dimension row_height; cols := clamp_dimension col_width;
                          pixel_width := clamp_dimension pix_width;
                          pixel_height := clamp_dimension pix_height |} in
           (set_pending (<[ch := {| pty := Some {| term := term; size := size |};
                env := env p |}]> (pending_channels h)) h,
            [ChannelSuccess ch], Ok tt)
       end.

(** The reply after a launch, and [launch_process] up to the executor. *)
Definition launched (ch : Z) (answer : result anyhow unit) : list output :=
  match answer with Ok _ => [ChannelSuccess ch] | Err _ => [ChannelFailure ch] end.

Definition process_request (p : PendingChannel) (cmd : option str) : ProcessRequest :=
  {| request_pty := pty p;
     request_env := build_child_env c u (env p) (term <$> pty p);
     command := cmd |}.

Definition take_channel (ch : Z) (h : ClientHandler) : ClientHandler :=
  set_pending (delete ch (pending_channels h)) h.

Definition shell_request (ch : Z) (start : result anyhow unit) (h : ClientHandler)
  : handled unit :=
  match pending_channels h !! ch with
  | None => (h, [], unknown_channel ch)
  | Some p => (take_channel ch h, StartProcess ch (process_request p None) :: launched ch start, Ok tt)
  end.

(** [cmd] is the request's data, decoded with [from_utf8_lossy]. *)
Definition exec_request (ch : Z) (cmd : str) (start : result anyhow unit) (h : ClientHandler)
  : handled unit :=
  if negb (Config.permit_exec c) then (h, [ChannelFailure ch], Ok tt)
  else match pending_channels h !! ch with
       | None => (h, [], unknown_channel ch)
       | Some p =>
           (take_channel ch h, StartProcess ch (process_request p (Some cmd)) :: launched ch start,
            Ok tt)
       end.

Definition subsystem_request (ch : Z) (name : str) (start : result anyhow unit)
  (h : ClientHandler) : handled unit :=
  if negb (bool_decide (name = lit "sftp")) || negb (Config.sftp_enabled c)
  then (h, [ChannelFailure ch], Ok tt)
  else match pending_channels h !! ch with
       | None => (h, [], unknown_channel ch)
       | Some p => (take_channel ch h, StartSftp ch :: launched ch start, Ok tt)
       end.

Definition channel_close (ch : Z) (h : ClientHandler) : handled unit :=
  (take_channel ch h, [], Ok tt).

(** The answer of the executor to a forward: the bound port and the token. *)
Definition tcpip_forward (addr : str) (port : Z) (start : result anyhow (Z * Z))
  (h : ClientHandler) : handled bool :=
  if negb (Config.allow_remote_forwarding c) then (h, [], Ok false)
  else
    let bind_host := if Config.gateway_ports c
                     then (if bool_decide (addr = []) then lit "0.0.0.0" else addr)
                     else lit "127.0.0.1" in
    match try_from u16_max port with
    | None => (h, [], with_context (lit "invalid tcpip-forward port")
                       (bail (lit "out of range integral type conversion attempted")))
    | Some requested_port =>
        let connected_address := if bool_decide (addr = []) then bind_host else addr in
        match remote_forwards h !! {| address := addr; forward_port := requested_port |} with
        | Some _ => (h, [], Ok false)
        | None =>
            let call := StartRemoteForward connected_address bind_host requested_port in
            match start with
            | Ok (bound_port, token) =>
                (set_forwards (<[{| address := addr; forward_port := bound_port |} := token]>
                                 (remote_forwards h)) h, [call], Ok true)
            | Err _ => (h, [call], Ok false)
            end
        end
    end.

Definition cancel_tcpip_forward (addr : str) (port : Z) (cancel : result anyhow unit)
  (h : ClientHandler) : handled bool :=
  let key := {| address := addr; forward_port := port |} in
  match remote_forwards h !! key with
  | Some token =>
      (set_forwards (delete key (remote_forwards h)) h, [CancelRemoteForward token],
       _ ← cancel; Ok true)
  | None => (h, [], Ok false)
  end.

(** [Drop for ClientHandler]: cancels what is left, in some order. *)
Definition drop_handler (h : ClientHandler) : list output :=
  (λ '(_, token), CancelRemoteForward token) <$> map_to_list (remote_forwards h).

(** ** Sessions *)

Inductive client_event :=
| OpenSession (ch : Z)
| OpenDirect (ch : Z) (host : str) (port : Z) (connect : result anyhow unit)
| Env (ch : Z) (name value : str)
| Pty (ch : Z) (term : str) (w h pw ph : Z)
| Shell (ch : Z) (start : result anyhow unit)
| Exec (ch : Z) (cmd : str) (start : result anyhow unit)
| Subsystem (ch : Z) (name : str) (start : result anyhow unit)
| ChannelClose (ch : Z)
| Forward (addr : str) (port : Z) (start : result anyhow (Z * Z))
| CancelForward (addr : str) (port : Z) (cancel : result anyhow unit).

Definition forget {A} (r : handled A) : ClientHandler * list output * result anyhow unit :=
  let '(h, out, res) := r in (h, out, map_ok (λ _, tt) res).

Definition handle (ev : client_event) (h : ClientHandler) : handled unit :=
  match ev with
  | OpenSession ch => channel_open_session ch h
  | OpenDirect ch host port r => channel_open_direct_tcpip ch host port r h
  | Env ch n v => env_request ch n v h
  | Pty ch t w hh pw ph => pty_request ch t w hh pw ph h
  | Shell ch r => shell_request ch r h
  | Exec ch cmd r => exec_request ch cmd r h
  | Subsystem ch n r => subsystem_request ch n r h
  | ChannelClose ch => channel_close ch h
  | Forward a p r => forget (tcpip_forward a p r h)
  | CancelForward a p r => forget (cancel_tcpip_forward a p r h)
  end.

(** Events until the first error, which ends the connection. *)
Fixpoint run_session (evs : list client_event) (h : ClientHandler)
  : ClientHandler * list output * result anyhow unit :=
  match evs with
  | [] => (h, [], Ok tt)
  | ev :: evs =>
      match handle ev h with
      | (h', out, Ok _) => let '(h'', out', r) := run_session evs h' in (h'', out ++ out', r)
      | (h', out, Err e) => (h', out, Err e)
      end
  end.

(** ** The child environment *)

Definition daemon_vars : list str := [lit "HOME"; lit "USER"; lit "LOGNAME"; lit "SHELL"].

(** The value of a variable in a child: the daemon's own for the four of
    [daemon_vars], the client's for an allowed one, the terminal for TERM. *)
Definition child_var (requested : gmap str str) (t : option str) (k : str) : option str :=
  if bool_decide (k = lit "HOME") then Some (home_dir u)
  else if bool_decide (k = lit "USER") then Some (daemon_username u)
  else if bool_decide (k = lit "LOGNAME") then Some (daemon_username u)
  else if bool_decide (k = lit "SHELL") then Some (Config.shell c)
  else if is_env_allowed k then
    match requested !! k with
    | Some v => Some v
    | None => if bool_decide (k = lit "TERM") then t else None
    end
  else None.

Lemma or_insert_lookup k v m k' :
  or_insert k v m !! k' =
  match m !! k' with Some x => Some x | None => if bool_decide (k' = k) then Some v else None end.
Proof.
  unfold or_insert. destruct (m !! k) eqn:Hk; case_bool_decide as Hd; subst; rewrite ?Hk.
  - done.
  - by destruct (m !! k').
  - by rewrite lookup_insert_eq.
  - rewrite lookup_insert_ne by done. by destruct (m !! k').
Qed.

Lemma filter_env_lookup (m : gmap str str) k :
  (filter (λ '(key, _), is_env_allowed key = true) m : gmap str str) !! k
  = if is_env_allowed k then m !! k else None.
Proof.
  destruct (is_env_allowed k) eqn:Hk.
  - destruct (m !! k) as [v|] eqn:Hm.
    + by apply map_lookup_filter_Some.
    + apply map_lookup_filter_None. by left.
  - apply map_lookup_filter_None. right. intros v _. by rewrite Hk.
Qed.

Lemma build_child_env_lookup requested t k :
  build_child_env c u requested t !! k = child_var requested t k.
Proof.
  unfold build_child_env, child_var.
  destruct (decide (k = lit "HOME")) as [->|H1];
    [|destruct (decide (k = lit "USER")) as [->|H2];
      [|destruct (decide (k = lit "LOGNAME")) as [->|H3];
        [|destruct (decide (k = lit "SHELL")) as [->|H4];
          [|destruct (decide (k = lit "TERM")) as [->|H5]]]]].
  all: destruct t as [t|]; rewrite !or_insert_lookup, filter_env_lookup; lit_eval; try reflexivity.
  1,2: by destruct (requested !! lit "TERM").
  all: rewrite !bool_decide_eq_false_2 by done;
    destruct (is_env_allowed k); [by destruct (requested !! k)|done].
Qed.

(** ** Gates *)

Definition size_ok (s : PtySize) : Prop :=
  1 ≤ rows s ≤ u16_max ∧ 1 ≤ cols s ≤ u16_max ∧
  1 ≤ pixel_width s ≤ u16_max ∧ 1 ≤ pixel_height s ≤ u16_max.

Lemma clamp_dimension_range v : 1 ≤ clamp_dimension v ≤ u16_max.
Proof. unfold clamp_dimension, u16_max. lia. Qed.

(** What is known of a channel that waits to be started. *)
Definition pending_ok (p : PendingChannel) : Prop :=
  ∀ r, pty p = Some r → Config.permit_tty c = true ∧ size_ok (size r).

Definition session_inv (h : ClientHandler) : Prop :=
  ∀ ch p, pending_channels h !! ch = Some p → pending_ok p.

(** What the configuration says about a message to the executor. *)
Definition output_ok (o : output) : Prop :=
  match o with
  | StartProcess _ r =>
      (is_Some (command r) → Config.permit_exec c = true) ∧
      (∀ p, request_pty r = Some p → Config.permit_tty c = true ∧ size_ok (size p)) ∧
      (∃ requested t, ∀ k, request_env r !! k = child_var requested t k)
  | StartSftp _ => Config.sftp_enabled c = true
  | ConnectTcp _ port => Config.allow_tcp_forwarding c = true ∧ 0 ≤ port ≤ u16_max
  | StartRemoteForward _ bind_host port =>
      Config.allow_remote_forwarding c = true ∧ 0 ≤ port ≤ u16_max ∧
      (Config.gateway_ports c = false → bind_host = lit "127.0.0.1")
  | _ => True
  end.

Lemma session_inv_new : session_inv ClientHandler_new.
Proof. intros ch p H. cbn in H. by rewrite lookup_empty in H. Qed.

Lemma session_inv_insert h ch p :
  session_inv h → pending_ok p → session_inv (set_pending (<[ch := p]> (pending_channels h)) h).
Proof.
  intros Hinv Hp ch' p'. cbn. rewrite lookup_insert. case_decide; [by intros [= <-]|apply Hinv].
Qed.

Lemma session_inv_take h ch : session_inv h → session_inv (take_channel ch h).
Proof. intros Hinv ch' p. cbn. rewrite lookup_delete. case_decide; [done|apply Hinv]. Qed.

Lemma process_request_ok ch p cmd :
  pending_ok p → (is_Some cmd → Config.permit_exec c = true) →
  output_ok (StartProcess ch (process_request p cmd)).
Proof.
  intros Hp Hcmd. split_and!; [done|apply Hp|].
  exists (env p), (term <$> pty p). apply build_child_env_lookup.
Qed.

Lemma launched_ok ch r : Forall output_ok (launched ch r).
Proof. destruct r; by repeat constructor. Qed.

(** A list of outputs each of which is evidently permitted. *)
Ltac outs :=
  repeat first [apply Forall_nil_2 | apply Forall_cons; split; [first [done | by split]|]].

(** Every event keeps the invariant and only sends what the configuration
    permits. *)
Lemma handle_ok ev h :
  session_inv h →
  session_inv (handle ev h).1.1 ∧ Forall output_ok (handle ev h).1.2.
Proof.
  intros Hinv. destruct ev; cbn [handle].
  - split; [|by outs]. by apply session_inv_insert.
  - unfold channel_open_direct_tcpip. destruct (Config.allow_tcp_forwarding c) eqn:E; cbn;
      [|split; [done|by outs]].
    destruct (try_from u16_max port) as [p|] eqn:Ht; [|split; [done|by outs]].
    apply try_from_Some in Ht as [-> Ht]. destruct connect; split; try done; by outs.
  - unfold env_request. destruct (is_env_allowed name); cbn; [|split; [done|by outs]].
    destruct (pending_channels h !! ch) as [p|] eqn:Hp; [|split; [done|by outs]].
    split; [|by outs]. apply session_inv_insert; [done|]. exact (Hinv _ _ Hp).
  - unfold pty_request. destruct (Config.permit_tty c) eqn:E; cbn; [|split; [done|by outs]].
    destruct (pending_channels h !! ch) as [p|] eqn:Hp; [|split; [done|by outs]].
    split; [|by outs]. apply session_inv_insert; [done|].
    intros r [= <-]. split; [done|]. cbn. split_and!; apply clamp_dimension_range.
  - unfold shell_request. destruct (pending_channels h !! ch) as [p|] eqn:Hp; [|by split].
    split; [by apply session_inv_take|]. constructor; [|apply launched_ok].
    apply process_request_ok; [by eapply Hinv|by intros []].
  - unfold exec_request. destruct (Config.permit_exec c) eqn:E; cbn; [|split; [done|by outs]].
    destruct (pending_channels h !! ch) as [p|] eqn:Hp; [|by split].
    split; [by apply session_inv_take|]. constructor; [|apply launched_ok].
    apply process_request_ok; [by eapply Hinv|done].
  - unfold subsystem_request. destruct (_ || _) eqn:E; [split; [done|by outs]|].
    bool_to_prop. destruct (pending_channels h !! ch) as [p|] eqn:Hp; [|by split].
    split; [by apply session_inv_take|]. constructor; [done|apply launched_ok].
  - split; [by apply session_inv_take|constructor].
  - unfold tcpip_forward. destruct (Config.allow_remote_forwarding c) eqn:E; cbn; [|by split].
    destruct (try_from u16_max port) as [p|] eqn:Ht; [|by split].
    apply try_from_Some in Ht as [-> Ht]. destruct (remote_forwards h !! _); [by split|].
    assert (output_ok (StartRemoteForward
      (if bool_decide (addr = []) then if Config.gateway_ports c
        then if bool_decide (addr = []) then lit "0.0.0.0" else addr else lit "127.0.0.1" else addr)
      (if Config.gateway_ports c then if bool_decide (addr = []) then lit "0.0.0.0" else addr
       else lit "127.0.0.1") port)) as Hok.
    { split_and!; [done|lia|lia|]. by intros ->. }
    destruct start as [[]|]; split; try done; by outs.
  - unfold cancel_tcpip_forward. destruct (remote_forwards h !! _); [|by split].
    split; [done|by outs].
Qed.

Lemma run_session_ok evs h :
  session_inv h → session_inv (run_session evs h).1.1 ∧ Forall output_ok (run_session evs h).1.2.
Proof.
  revert h. induction evs as [|ev evs IH]; intros h Hinv; [split; [done|constructor]|].
  cbn [run_session]. pose proof (handle_ok ev h Hinv) as [Hinv' Hout].
  destruct (handle ev h) as [[h' out] [[]|e]]; [|done]. cbn in *.
  destruct (IH h' Hinv') as [Hinv'' Hout']. destruct (run_session evs h') as [[h'' out'] r].
  cbn in *. split; [done|]. by apply Forall_app.
Qed.

(** ** Launches *)

Definition is_launch (ch : Z) (o : output) : bool :=
  match o with
  | StartProcess ch' _ | StartSftp ch' => bool_decide (ch' = ch)
  | _ => false
  end.
Definition is_open (ch : Z) (ev : client_event) : bool :=
  match ev with OpenSession ch' => bool_decide (ch' = ch) | _ => false end.

(** One for a channel that waits to be started. *)
Definition waiting (ch : Z) (h : ClientHandler) : Z :=
  match pending_channels h !! ch with Some _ => 1 | None => 0 end.

Lemma waiting_range ch h : 0 ≤ waiting ch h ≤ 1.
Proof. unfold waiting. case_match; lia. Qed.

Lemma waiting_insert ch ch' p h :
  waiting ch (set_pending (<[ch' := p]> (pending_channels h)) h)
  = if bool_decide (ch' = ch) then 1 else waiting ch h.
Proof. unfold waiting. cbn. rewrite lookup_insert. by case_decide; case_bool_decide. Qed.

Lemma waiting_take ch ch' h :
  waiting ch (take_channel ch' h) = if bool_decide (ch' = ch) then 0 else waiting ch h.
Proof. unfold waiting. cbn. rewrite lookup_delete. by case_decide; case_bool_decide. Qed.

Lemma launched_count ch ch' r : countZ (is_launch ch) (launched ch' r) = 0.
Proof. by destruct r. Qed.

Lemma handle_launches ch ev h :
  countZ (is_launch ch) (handle ev h).1.2 + waiting ch (handle ev h).1.1
  ≤ (if is_open ch ev then 1 else 0) + waiting ch h.
Proof.
  pose proof (waiting_range ch h).
  destruct ev; cbn [handle is_open].
  - cbn [channel_open_session fst snd]. rewrite waiting_insert. unfold countZ. cbn.
    case_bool_decide; lia.
  - unfold channel_open_direct_tcpip. repeat case_match; cbn; unfold countZ; cbn; lia.
  - unfold env_request. destruct (negb _); [unfold countZ; cbn; lia|].
    destruct (pending_channels h !! ch0) eqn:Hp; [|unfold countZ; cbn; lia]. cbn [fst snd].
    rewrite waiting_insert. unfold countZ. cbn. case_bool_decide; [|lia].
    subst. unfold waiting. rewrite Hp. lia.
  - unfold pty_request. destruct (negb _); [unfold countZ; cbn; lia|].
    destruct (pending_channels h !! ch0) eqn:Hp; [|unfold countZ; cbn; lia]. cbn [fst snd].
    rewrite waiting_insert. unfold countZ. cbn. case_bool_decide; [|lia].
    subst. unfold waiting. rewrite Hp. lia.
  - unfold shell_request. destruct (pending_channels h !! ch0) eqn:Hp; [|unfold countZ; cbn; lia].
    cbn [fst snd]. rewrite countZ_cons, launched_count, waiting_take. cbn [is_launch].
    case_bool_decide; [|lia]. subst. unfold waiting. rewrite Hp. lia.
  - unfold exec_request. destruct (negb _); [unfold countZ; cbn; lia|].
    destruct (pending_channels h !! ch0) eqn:Hp; [|unfold countZ; cbn; lia].
    cbn [fst snd]. rewrite countZ_cons, launched_count, waiting_take. cbn [is_launch].
    case_bool_decide; [|lia]. subst. unfold waiting. rewrite Hp. lia.
  - unfold subsystem_request. destruct (_ || _); [unfold countZ; cbn; lia|].
    destruct (pending_channels h !! ch0) eqn:Hp; [|unfold countZ; cbn; lia].
    cbn [fst snd]. rewrite countZ_cons, launched_count, waiting_take. cbn [is_launch].
    case_bool_decide; [|lia]. subst. unfold waiting. rewrite Hp. lia.
  - cbn [channel_close fst snd]. rewrite waiting_take, countZ_nil. case_bool_decide; lia.
  - unfold tcpip_forward. repeat case_match; cbn; unfold countZ, waiting in *; cbn in *; lia.
  - unfold cancel_tcpip_forward. repeat case_match; cbn; unfold countZ, waiting in *; cbn in *; lia.
Qed.

Lemma run_session_launches ch evs h :
  countZ (is_launch ch) (run_session evs h).1.2 ≤ countZ (is_open ch) evs + waiting ch h.
Proof.
  revert h. induction evs as [|ev evs IH]; intros h.
  { cbn. rewrite !countZ_nil. pose proof (waiting_range ch h). lia. }
  cbn [run_session]. pose proof (handle_launches ch ev h) as Hev. rewrite countZ_cons.
  destruct (handle ev h) as [[h' out] [[]|e]]; cbn in *.
  - specialize (IH h'). destruct (run_session evs h') as [[h'' out'] r]. cbn in *.
    rewrite countZ_app. lia.
  - pose proof (waiting_range ch h'). pose proof (countZ_nonneg (is_open ch) evs). lia.
Qed.

(** ** Remote forwards *)

(** Tokens of the listeners in the table, of those an event started, and of
    those that were cancelled. *)
Definition tokens (h : ClientHandler) : list Z := (map_to_list (remote_forwards h)).*2.

Definition started (ev : client_event) (out : list output) : list Z :=
  match ev, out with
  | Forward _ _ (Ok (_, token)), [StartRemoteForward _ _ _] => [token]
  | _, _ => []
  end.

Definition cancelled (out : list output) : list Z :=
  omap (λ o, match o with CancelRemoteForward t => Some t | _ => None end) out.

Fixpoint started_in (evs : list client_event) (h : ClientHandler) : list Z :=
  match evs with
  | [] => []
  | ev :: evs =>
      let '(h', out, r) := handle ev h in
      started ev out ++ (if is_ok r then started_in evs h' else [])
  end.

(** The executor never reports an address and port that is still in the table. *)
Fixpoint ports_fresh (evs : list client_event) (h : ClientHandler) : Prop :=
  match evs with
  | [] => True
  | ev :: evs =>
      match ev with
      | Forward a _ (Ok (b, _)) =>
          remote_forwards h !! {| address := a; forward_port := b |} = None
      | _ => True
      end ∧ ports_fresh evs (handle ev h).1.1
  end.

Lemma tokens_insert k t m :
  m !! k = None → (map_to_list (<[k := t]> m : gmap ForwardKey Z)).*2 ≡ₚ t :: (map_to_list m).*2.
Proof. intros H. by rewrite map_to_list_insert. Qed.

Lemma tokens_delete k t (m : gmap ForwardKey Z) :
  m !! k = Some t → (map_to_list m).*2 ≡ₚ t :: (map_to_list (delete k m)).*2.
Proof.
  intros H. rewrite <- (insert_delete_id m k t H) at 1. apply tokens_insert, lookup_delete_eq.
Qed.

(** Events about channels leave the forwards alone. *)
Definition is_forward_event (ev : client_event) : bool :=
  match ev with Forward _ _ _ | CancelForward _ _ _ => true | _ => false end.

Lemma channel_event_frame ev h :
  is_forward_event ev = false →
  remote_forwards (handle ev h).1.1 = remote_forwards h ∧ cancelled (handle ev h).1.2 = [] ∧
  started ev (handle ev h).1.2 = [].
Proof.
  destruct ev as [| | | | | ch cmd [] | | | | ]; try done; intros _; cbn [handle];
    unfold channel_open_direct_tcpip, env_request, pty_request, shell_request, exec_request,
      subsystem_request, launched; repeat case_match; done.
Qed.

Lemma handle_forwards ev h :
  ports_fresh [ev] h →
  tokens (handle ev h).1.1 ++ cancelled (handle ev h).1.2
  ≡ₚ tokens h ++ started ev (handle ev h).1.2.
Proof.
  intros [Hf _]. destruct (is_forward_event ev) eqn:Hev.
  2:{ apply (channel_event_frame ev h) in Hev as (H1 & H2 & H3). unfold tokens. by rewrite H1, H2, H3. }
  destruct ev; try done; cbn [handle].
  - unfold tcpip_forward. destruct (negb _); [by destruct start as [[]|]|].
    destruct (try_from u16_max port); [|by destruct start as [[]|]].
    destruct (remote_forwards h !! _) eqn:Hk; [by destruct start as [[]|]|].
    destruct start as [[b t]|]; [|done]. cbn. rewrite app_nil_r. unfold tokens. cbn.
    rewrite tokens_insert by done. apply Permutation_cons_append.
  - unfold cancel_tcpip_forward. destruct (remote_forwards h !! _) as [t|] eqn:Hk; [|done].
    cbn. rewrite app_nil_r. unfold tokens. cbn. rewrite (tokens_delete _ _ _ Hk).
    symmetry. apply Permutation_cons_append.
Qed.

Lemma cancelled_app a b : cancelled (a ++ b) = cancelled a ++ cancelled b.
Proof. apply omap_app. Qed.

Lemma cancelled_drop h : cancelled (drop_handler h) = tokens h.
Proof.
  unfold drop_handler, tokens. induction (map_to_list (remote_forwards h)) as [|[k t] l IH]; cbn; [done|].
  by rewrite <- IH.
Qed.

Lemma run_session_forwards evs h :
  ports_fresh evs h →
  tokens (run_session evs h).1.1 ++ cancelled (run_session evs h).1.2
  ≡ₚ tokens h ++ started_in evs h.
Proof.
  revert h. induction evs as [|ev evs IH]; intros h Hf; [done|].
  destruct Hf as [Hf Hfs]. pose proof (handle_forwards ev h (conj Hf I)) as Hev.
  cbn [run_session started_in]. destruct (handle ev h) as [[h' out] [[]|e]]; cbn in *.
  - specialize (IH h' Hfs). destruct (run_session evs h') as [[h'' out'] r]. cbn in *.
    rewrite cancelled_app, (Permutation_app_comm (cancelled out)), app_assoc, IH.
    rewrite <- app_assoc, (Permutation_app_comm (started_in evs h')), app_assoc, Hev.
    by rewrite <- app_assoc.
  - by rewrite app_nil_r.
Qed.
End Handlers.

(** ** Properties *)

(** C13: whatever a client sends, the executor is only asked for what the
    configuration permits: commands only with PermitExec, terminals only with
    PermitTTY and with dimensions between 1 and 65535, SFTP only when it is
    enabled, connections only with AllowTcpForwarding and to a 16-bit port,
    listeners only with AllowRemoteForwarding, and on the loopback address
    unless GatewayPorts is on; the variables set for a process, over those it
    inherits, are always the ones [child_var] describes. *)
Theorem executor_requests_are_permitted c u evs :
  Forall (output_ok c u) (run_session c u evs ClientHandler_new).1.2.
Proof. apply run_session_ok, session_inv_new. Qed.

(** The variables set for a process: HOME, USER, LOGNAME and SHELL of the daemon,
    the client's TERM, COLORTERM, LANG, TZ and LC_ variables, and TERM of the
    terminal request when the client did not set it. *)
Lemma build_child_env_filters c u requested t k :
  build_child_env c u requested t !! k =
  if bool_decide (k ∈ daemon_vars)
  then Some (if bool_decide (k = lit "HOME") then home_dir u
             else if bool_decide (k = lit "SHELL") then Config.shell c
             else daemon_username u)
  else if is_env_allowed k then
    match requested !! k with
    | Some v => Some v
    | None => if bool_decide (k = lit "TERM") then t else None
    end
  else None.
Proof.
  rewrite build_child_env_lookup. unfold child_var, daemon_vars.
  destruct (decide (k = lit "HOME")) as [->|H1]; [lit_eval; by rewrite bool_decide_eq_true_2 by set_solver|].
  destruct (decide (k = lit "USER")) as [->|H2]; [lit_eval; by rewrite bool_decide_eq_true_2 by set_solver|].
  destruct (decide (k = lit "LOGNAME")) as [->|H3]; [lit_eval; by rewrite bool_decide_eq_true_2 by set_solver|].
  destruct (decide (k = lit "SHELL")) as [->|H4]; [lit_eval; by rewrite bool_decide_eq_true_2 by set_solver|].
  by rewrite !(bool_decide_eq_false_2 (k = _)), (bool_decide_eq_false_2 (k ∈ _)) by set_solver.
Qed.

(** C16: a channel is started at most once for every time it is opened: never
    two processes, or a process and an SFTP server, on one channel. *)
Theorem channels_start_at_most_once c u ch evs :
  countZ (is_launch ch) (run_session c u evs ClientHandler_new).1.2 ≤ countZ (is_open ch) evs.
Proof.
  pose proof (run_session_launches c u ch evs ClientHandler_new) as H.
  change (waiting ch ClientHandler_new) with 0 in H. lia.
Qed.

(** Every listener that the executor started for a session is cancelled
    exactly once, by the client or when the session ends, even when an error
    ended it. *)
Theorem remote_forwards_are_cancelled_once c u evs :
  ports_fresh c u evs ClientHandler_new →
  cancelled ((run_session c u evs ClientHandler_new).1.2
             ++ drop_handler (run_session c u evs ClientHandler_new).1.1)
  ≡ₚ started_in c u evs ClientHandler_new.
Proof.
  intros H%run_session_forwards. rewrite cancelled_app, cancelled_drop.
  rewrite Permutation_app_comm, H. done.
Qed.

(** A request about a channel that was already started (or never opened)
    is an error that ends the whole connection, instead of a failure reply on
    that channel. *)
Theorem request_on_started_channel_ends_connection c u ch start h name value rest :
  is_Some (pending_channels h !! ch) → is_env_allowed name = true →
  ∃ e, (run_session c u (Shell ch start :: Env ch name value :: rest) h).2 = Err e ∧
       ChannelFailure ch ∉ drop 2 (run_session c u (Shell ch start :: Env ch name value :: rest) h).1.2.
Proof.
  intros [p Hp] Hn. cbn [run_session handle]. unfold shell_request. rewrite Hp.
  unfold env_request. rewrite Hn. cbn [negb pending_channels take_channel set_pending].
  rewrite lookup_delete_eq. eexists. split; [reflexivity|]. cbn. rewrite app_nil_r.
  destruct start; set_solver.
Qed.

(** ** Witnesses *)

Definition demo_user : daemon_user :=
  {| home_dir := lit "/home/alice"; daemon_username := lit "alice" |}.
Definition demo_config : Config.AppConfig :=
  Config.default_config (lit "/home/alice") (lit "/home/alice/.config").

Definition demo_forwards : list client_event :=
  [Forward [] 0 (Ok (4000, 1)); Forward (lit "localhost") 0 (Ok (4001, 2)); CancelForward [] 4000 (Ok tt)].

Lemma remote_forwards_are_cancelled_once_witness :
  cancelled ((run_session demo_config demo_user demo_forwards ClientHandler_new).1.2
             ++ drop_handler (run_session demo_config demo_user demo_forwards ClientHandler_new).1.1)
  ≡ₚ [1; 2].
Proof.
  apply (remote_forwards_are_cancelled_once demo_config demo_user demo_forwards).
  repeat split; vm_compute; reflexivity.
Defined.

Lemma request_on_started_channel_ends_connection_witness :
  ∃ e, (run_session demo_config demo_user
    [Shell 7 (Ok tt); Env 7 (lit "LANG") (lit "C"); ChannelClose 7]
    (set_pending {[ 7 := {| pty := None; env := ∅ |} ]} ClientHandler_new)).2 = Err e.
Proof.
  destruct (request_on_started_channel_ends_connection demo_config demo_user 7 (Ok tt)
    (set_pending {[ 7 := {| pty := None; env := ∅ |} ]} ClientHandler_new)
    (lit "LANG") (lit "C") [ChannelClose 7]) as (e & H & _).
  - exists {| pty := None; env := ∅ |}. vm_compute. reflexivity.
  - vm_compute. reflexivity.
  - exists e. exact H.
Defined.

End Session.
