(* ===== verification/Server.v ===== *)
(** * The server: authentication and the life of a connection (src/src/sshd.rs)

    [AppState] ties the components together: admission, metrics, the log
    limiter and the authorized keys.  This file has the authentication handlers
    of [ClientHandler] ([authorize_key] and what a failure records), the
    [PreauthContext] that gives the admission slot and the gauge back, the
    bookkeeping of [serve_connection], and the errors it tells apart.

    Handlers run in a monad over the shared state in which a panic keeps the
    state (a poisoned lock stays poisoned).  A handler reads the clock once.
    A log line is its event and the number of similar ones that were swallowed;
    its text is in LogText.v. *)

From S2P Require Import Prelude Rust Net Config ConfigCorrect Admission AdmissionCorrect LogLimiter Metrics AuthorizedKeys.

Local Open Scope Z_scope.

Module Server.

(** ** Data *)

(** [ssh_key::Algorithm]; of the ones that are refused, the text of their
    [Debug] representation. *)
Inductive Algorithm := Ed25519 | SkEd25519 | OtherAlgorithm (debug : str).

Definition algorithm_debug (a : Algorithm) : str :=
  match a with Ed25519 => lit "Ed25519" | SkEd25519 => lit "SkEd25519" | OtherAlgorithm d => d end.

Inductive Auth := Accept | Reject.

Inductive log_event :=
| AuthRejected (peer : option SocketAddr) (category reason : str) (temporary_ban : option bool)
| AuthAccepted (peer : option SocketAddr)
| AuthSucceeded (peer : option SocketAddr)
| KeysReloaded (generation ignored : Z)
| KeysMissing
| KeysReloadFailed (message : str)
| ConnectionRejected (peer : SocketAddr) (reason : RejectReason)
| PreauthTimeout (peer : SocketAddr) (kind : str) (elapsed_ms : Z)
| AuthCompleted (peer : SocketAddr)
| ConnectionError (peer : SocketAddr) (err : anyhow)
| ConnectionPanic (peer : SocketAddr) (message : str)
| NoDelayFailed (peer : SocketAddr) (err : io_error).

Record AppState := {
  config : Config.AppConfig;
  daemon_username : str;
  authorized_keys : mutex AuthorizedKeys.AuthorizedKeysState;
  admission : mutex AdmissionState;
  log_limiter : LogLimiterState;
  metrics : Metrics.MetricsState;
  log : list (log_event * Z);
}.

Definition set_authorized_keys (m : mutex AuthorizedKeys.AuthorizedKeysState) (s : AppState) : AppState :=
  {| config := config s; daemon_username := daemon_username s; authorized_keys := m;
     admission := admission s; log_limiter := log_limiter s; metrics := metrics s; log := log s |}.
Definition set_admission (m : mutex AdmissionState) (s : AppState) : AppState :=
  {| config := config s; daemon_username := daemon_username s;
     authorized_keys := authorized_keys s; admission := m; log_limiter := log_limiter s;
     metrics := metrics s; log := log s |}.
Definition set_log_limiter (l : LogLimiterState) (s : AppState) : AppState :=
  {| config := config s; daemon_username := daemon_username s;
     authorized_keys := authorized_keys s; admission := admission s; log_limiter := l;
     metrics := metrics s; log := log s |}.
Definition set_metrics (m : Metrics.MetricsState) (s : AppState) : AppState :=
  {| config := config s; daemon_username := daemon_username s;
     authorized_keys := authorized_keys s; admission := admission s; log_limiter := log_limiter s;
     metrics := m; log := log s |}.
Definition set_log (l : list (log_event * Z)) (s : AppState) : AppState :=
  {| config := config s; daemon_username := daemon_username s;
     authorized_keys := authorized_keys s; admission := admission s; log_limiter := log_limiter s;
     metrics := metrics s; log := l |}.

(** ** The monad of the handlers *)

Definition server (A : Type) : Type := AppState → AppState * run A.

#[global] Instance server_ret : MRet server := λ A a s, (s, Ret a).
#[global] Instance server_bind : MBind server := λ A B k m s,
  let '(s', r) := m s in match r with Ret a => k a s' | Panic e => (s', Panic e) end.

Definition gets {A} (f : AppState → A) : server A := λ s, (s, Ret (f s)).
Definition update (f : AppState → AppState) : server unit := λ s, (f s, Ret tt).
Definition on_metrics (f : Metrics.MetricsState → Metrics.MetricsState) : server unit :=
  update (λ s, set_metrics (f (metrics s)) s).
Definition on_admission {A} (f : mutex AdmissionState → mutex AdmissionState * run A) : server A :=
  λ s, let '(m, r) := f (admission s) in (set_admission m s, r).
Definition write_log (e : log_event) (suppressed : Z) : server unit :=
  update (λ s, set_log (log s ++ [(e, suppressed)]) s).

(** ** Policies *)

Definition login_user_matches_daemon (requested_user daemon : str) : bool :=
  bool_decide (requested_user = daemon).

Definition is_user_key_algorithm_allowed (a : Algorithm) : bool :=
  match a with Ed25519 | SkEd25519 => true | OtherAlgorithm _ => false end.

(** ** Errors of a connection *)

Definition io_cause_contains (needle : string) (cs : anyhow) : bool :=
  existsb (λ c, match c with
                | IoCause e => bool_decide (kind e = TimedOut) && contains (lit needle) (io_message e)
                | _ => false
                end) cs.

Definition is_login_grace_timeout : anyhow → bool :=
  io_cause_contains "login grace time exceeded before authentication completed".

Definition is_kex_start_timeout : anyhow → bool :=
  io_cause_contains "key exchange did not start before the configured timeout elapsed".

Definition preauth_timeout_details (c : Config.AppConfig) (err : anyhow) : option (str * Z) :=
  if is_login_grace_timeout err
  then Some (lit "login-grace-timeout", as_millis (Config.login_grace_time c))
  else if is_kex_start_timeout err
  then Some (lit "kex-start-timeout", as_millis (Config.kex_start_timeout c))
  else None.

Definition is_malformed_connection_error (err : anyhow) : bool :=
  existsb (λ c, match c with
                | RusshCause (RusshOther _) => false
                | RusshCause _ => true
                | _ => false
                end) err.

Section Server.
Context (iter : gmap LogKey LogEntry → list (LogKey * LogEntry)).
Context {PublicKey key_error : Type}.
Context (to_bytes : PublicKey → result key_error (list N)).
Context (key_error_display : key_error → str).
Context (entries : str → list (result key_error (str * PublicKey))).
Context (algorithm : PublicKey → Algorithm).

(** [AppState::warn_limited]. *)
Definition warn_limited (peer : option SocketAddr) (category : str) (e : log_event)
  (now : Instant) : server unit :=
  limiter ← gets log_limiter;
  let '(limiter, decision) :=
    check iter {| log_peer_ip := sock_ip <$> peer; log_category := category |} now limiter in
  _ ← update (set_log_limiter limiter);
  match decision with
  | Emit suppressed => write_log e suppressed
  | Suppress => mret tt
  end.

Definition log_authorized_keys_reload (ev : AuthorizedKeys.AuthorizedKeysReloadEvent)
  (now : Instant) : server unit :=
  match ev with
  | AuthorizedKeys.EventLoaded generation ignored =>
      _ ← write_log (KeysReloaded generation ignored) 0;
      on_metrics Metrics.record_cache_reload_success
  | AuthorizedKeys.EventMissing =>
      _ ← on_metrics Metrics.record_cache_reload_failure;
      warn_limited None (lit "authorized-keys-missing") KeysMissing now
  | AuthorizedKeys.EventFailed message =>
      _ ← on_metrics Metrics.record_cache_reload_failure;
      warn_limited None (lit "authorized-keys-reload-failed") (KeysReloadFailed message) now
  end.

(** The two calls of the store: a refresh if it is due, and the lookup. *)
Definition refresh_keys (now : Instant) (fs : AuthorizedKeys.fs_view)
  : server (result anyhow (option AuthorizedKeys.AuthorizedKeysReloadEvent)) := λ s,
  let '(m, r) := AuthorizedKeys.store_refresh_if_due to_bytes key_error_display entries
                   (authorized_keys s) now fs in
  (set_authorized_keys m s, r).

Definition lookup_key (key : PublicKey) : server (result anyhow bool) := λ s,
  (s, AuthorizedKeys.store_contains to_bytes key_error_display (authorized_keys s) key).

(** [AppState::is_authorized]; [fs] is what the file system answers. *)
Definition is_authorized (key : PublicKey) (now : Instant) (fs : AuthorizedKeys.fs_view)
  : server (result anyhow bool) :=
  r ← refresh_keys now fs;
  match r with
  | Err e => mret (Err e)
  | Ok ev =>
      _ ← match ev with
          | Some ev => log_authorized_keys_reload ev now
          | None => mret tt
          end;
      lookup_key key
  end.

(** [ClientHandler::record_auth_failure]. *)
Definition record_auth_failure (peer : option SocketAddr) (category reason : str) (now : Instant)
  : server unit :=
  match peer with
  | None =>
      _ ← on_metrics (Metrics.record_auth_failure None false);
      warn_limited peer category (AuthRejected peer category reason None) now
  | Some p =>
      banned ← on_admission (λ c, record_auth_failure_at c (sock_ip p) now);
      _ ← on_metrics (Metrics.record_auth_failure (Some (sock_ip p)) banned);
      warn_limited peer category (AuthRejected peer category reason (Some banned)) now
  end.

(** [ClientHandler::authorize_key], called for offered keys and for signatures. *)
Definition authorize_key (peer : option SocketAddr) (user : str) (key : PublicKey)
  (now : Instant) (fs : AuthorizedKeys.fs_view) : server (result anyhow Auth) :=
  daemon ← gets daemon_username;
  if negb (login_user_matches_daemon user daemon) then
    _ ← record_auth_failure peer (lit "auth-reject-username")
          (lit "requested login user is not permitted") now;
    mret (Ok Reject)
  else if negb (is_user_key_algorithm_allowed (algorithm key)) then
    _ ← record_auth_failure peer (lit "auth-reject-key-algorithm")
          (lit "unsupported public key algorithm " ++ algorithm_debug (algorithm key)) now;
    mret (Ok Reject)
  else
    r ← is_authorized key now fs;
    match r with
    | Err e => mret (Err e)
    | Ok true => _ ← write_log (AuthAccepted peer) 0; mret (Ok Accept)
    | Ok false =>
        _ ← record_auth_failure peer (lit "auth-reject-unknown-key")
              (lit "public key not present in authorized_keys cache") now;
        mret (Ok Reject)
    end.

(** An offered key and a proven one pass the same test. *)
Definition auth_publickey_offered (peer : option SocketAddr) (user : str) (key : PublicKey)
  (now : Instant) (fs : AuthorizedKeys.fs_view) : server (result anyhow Auth) :=
  authorize_key peer user key now fs.
Definition auth_publickey (peer : option SocketAddr) (user : str) (key : PublicKey)
  (now : Instant) (fs : AuthorizedKeys.fs_view) : server (result anyhow Auth) :=
  authorize_key peer user key now fs.

Definition auth_password (peer : option SocketAddr) (now : Instant) : server (result anyhow Auth) :=
  _ ← record_auth_failure peer (lit "auth-reject-password")
        (lit "password authentication is disabled") now;
  mret (Ok Reject).

(** ** Pre-authentication context *)

(** [PreauthContext]: the guard until it is taken, the shared flag, and whether
    the success signal was sent. *)
Record PreauthContext := {
  admission_guard : option AdmissionGuard;
  authenticated : bool;
  auth_success_sent : bool;
}.

Definition PreauthContext_new (g : AdmissionGuard) : server PreauthContext :=
  _ ← on_metrics Metrics.preauth_connection_opened;
  mret {| admission_guard := Some g; authenticated := false; auth_success_sent := false |}.

Definition mark_authenticated (ctx : PreauthContext) (now : Instant) : server PreauthContext :=
  _ ← match admission_guard ctx with
      | Some g =>
          _ ← on_admission (λ c, guard_mark_authenticated c g now now);
          on_metrics Metrics.preauth_connection_closed
      | None => mret tt
      end;
  mret {| admission_guard := None; authenticated := true; auth_success_sent := true |}.

(** [Drop for PreauthContext]: the taken guard is dropped first. *)
Definition preauth_drop (ctx : PreauthContext) (now : Instant) : server unit :=
  match admission_guard ctx with
  | Some g =>
      _ ← on_admission (λ c, guard_drop c g now);
      on_metrics Metrics.preauth_connection_closed
  | None => mret tt
  end.

Definition auth_succeeded (peer : option SocketAddr) (ctx : PreauthContext) (now : Instant)
  : server PreauthContext :=
  ctx ← mark_authenticated ctx now;
  _ ← write_log (AuthSucceeded peer) 0;
  mret ctx.

(** ** Connections *)

(** The first part of [serve_connection]: a slot, or the record of a rejection. *)
Definition admit_connection (peer : SocketAddr) (now : Instant) : server (option PreauthContext) :=
  r ← on_admission (λ c, try_acquire_at c (sock_ip peer) now);
  match r with
  | Ok guard => ctx ← PreauthContext_new guard; mret (Some ctx)
  | Err reason =>
      _ ← on_metrics (Metrics.record_rejected_connection (category reason));
      _ ← warn_limited (Some peer) (category reason) (ConnectionRejected peer reason) now;
      mret None
  end.

(** How the SSH session of an admitted connection went: the banner timed out;
    the set-up failed; or, of the two things then waited for, the signal of
    authentication came first ([sent]) or its sender was dropped, and the session
    ended with [r]; or the session's end came first. *)
Inductive outcome :=
| BannerTimeout
| SetupFailed (err : anyhow)
| SignalFirst (sent : bool) (r : result anyhow unit)
| SessionFirst (r : result anyhow unit).

(** The record of an error before authentication. *)
Definition record_preauth_error (peer : SocketAddr) (err : anyhow) (now : Instant) : server unit :=
  c ← gets config;
  match preauth_timeout_details c err with
  | Some (kind, elapsed_ms) =>
      _ ← on_metrics (Metrics.record_rejected_connection kind);
      _ ← on_metrics Metrics.record_preauth_timeout;
      warn_limited (Some peer) kind (PreauthTimeout peer kind elapsed_ms) now
  | None =>
      if is_malformed_connection_error err then
        _ ← on_metrics (Metrics.record_rejected_connection (lit "malformed-disconnect"));
        on_metrics Metrics.record_malformed_disconnect
      else mret tt
  end.

(** The rest of [serve_connection] for an admitted connection. *)
Definition finish_connection (peer : SocketAddr) (o : outcome) (now : Instant)
  : server (result anyhow unit) :=
  match o with
  | BannerTimeout =>
      c ← gets config;
      _ ← on_metrics (Metrics.record_rejected_connection (lit "banner-timeout"));
      _ ← on_metrics Metrics.record_preauth_timeout;
      _ ← warn_limited (Some peer) (lit "banner-timeout")
            (PreauthTimeout peer (lit "banner") (as_millis (Config.client_banner_timeout c))) now;
      mret (Ok tt)
  | SetupFailed err => _ ← record_preauth_error peer err now; mret (Ok tt)
  | SignalFirst sent r =>
      _ ← (if sent : bool then write_log (AuthCompleted peer) 0 else mret tt);
      mret r
  | SessionFirst (Ok _) => mret (Ok tt)
  | SessionFirst (Err err) => _ ← record_preauth_error peer err now; mret (Err err)
  end.

(** ** Operations that leave the connections alone *)

(** The configuration and the gauge are the same, and so are the counters of a
    controller that is still healthy. *)
Record quiet (s s' : AppState) : Prop := {
  quiet_config : config s' = config s;
  quiet_gauge : Metrics.current_unauthenticated_connections (metrics s')
                = Metrics.current_unauthenticated_connections (metrics s);
  quiet_admission adm' : admission s' = Unpoisoned adm' →
    ∃ adm, admission s = Unpoisoned adm ∧ same_counts adm adm';
}.

#[local] Instance quiet_preorder : PreOrder quiet.
Proof.
  split.
  - intros s. split; [done|done|]. intros adm' H. by exists adm'.
  - intros s1 s2 s3 [C1 G1 A1] [C2 G2 A2]. split; [congruence|congruence|].
    intros adm3 (adm2 & H2 & S2)%A2. apply A1 in H2 as (adm1 & H1 & S1).
    exists adm1. split; [done|by etrans].
Qed.

(** A computation that is quiet, and that returns only with a healthy lock. *)
Definition quietly {A} (m : server A) : Prop := ∀ s,
  quiet s (m s).1 ∧
  ∀ a adm, (m s).2 = Ret a → admission s = Unpoisoned adm →
    ∃ adm', admission (m s).1 = Unpoisoned adm'.

Lemma quietly_bind {A B} (m : server A) (k : A → server B) :
  quietly m → (∀ a, quietly (k a)) → quietly (m ≫= k).
Proof.
  intros Hm Hk s. unfold mbind, server_bind. destruct (Hm s) as [Hq Hh].
  destruct (m s) as [s1 [a|e]]; cbn in *; [|done]. destruct (Hk a s1) as [Hq' Hh'].
  split; [by etrans|]. intros b adm Hb Ha. destruct (Hh a adm eq_refl Ha) as [adm1 H1]. eauto.
Qed.

Lemma quietly_ret {A} (a : A) : quietly (mret a).
Proof. intros s. split; [reflexivity|eauto]. Qed.

Lemma quietly_gets {A} (f : AppState → A) : quietly (gets f).
Proof. intros s. split; [reflexivity|eauto]. Qed.

Lemma quietly_same {A} (m : server A) :
  (∀ s, config (m s).1 = config s ∧ admission (m s).1 = admission s ∧
        Metrics.current_unauthenticated_connections (metrics (m s).1)
        = Metrics.current_unauthenticated_connections (metrics s)) → quietly m.
Proof.
  intros H s. destruct (H s) as (Hc & Ha & Hg). split; [split; [done|done|]|].
  - intros adm' Hadm. rewrite Ha in Hadm. by exists adm'.
  - intros a adm _ Hadm. rewrite Ha. by exists adm.
Qed.

Lemma quietly_metrics f :
  (∀ m, Metrics.current_unauthenticated_connections (f m)
        = Metrics.current_unauthenticated_connections m) → quietly (on_metrics f).
Proof. intros H. apply quietly_same. intros s. cbn. split_and!; [done|done|apply H]. Qed.

Lemma metrics_record_auth_failure_gauge ip b m :
  Metrics.current_unauthenticated_connections (Metrics.record_auth_failure ip b m)
  = Metrics.current_unauthenticated_connections m.
Proof. unfold Metrics.record_auth_failure. by repeat case_match. Qed.

Lemma quietly_write_log e n : quietly (write_log e n).
Proof. by apply quietly_same. Qed.

Lemma quietly_warn_limited peer cat e now : quietly (warn_limited peer cat e now).
Proof.
  apply quietly_bind; [apply quietly_gets|]. intros l. destruct (check _ _ _ _) as [l' []];
    (apply quietly_bind; [by apply quietly_same|]); intros [];
    [apply quietly_write_log|apply quietly_ret].
Qed.

Lemma quietly_record_auth_failure peer cat reason now :
  quietly (record_auth_failure peer cat reason now).
Proof.
  destruct peer as [p|]; cbn [record_auth_failure].
  - apply quietly_bind.
    + intros s. unfold on_admission, record_auth_failure_at, with_lock.
      destruct (admission s) as [adm|] eqn:Ha;
        [|split; [split; cbn; [done|done|by intros ? ?]|by intros ? ? ?]].
      destruct (Admission.record_auth_failure _ now adm) as [[adm' b]|e] eqn:Hr; cbn.
      * split; [|by eexists]. split; [done|done|]. intros adm2 [= <-]. exists adm. split; [done|].
        by eapply record_auth_failure_inv.
      * split; [by split|by intros ? ? ?].
    + intros b. apply quietly_bind; [|intros _; apply quietly_warn_limited].
      apply quietly_metrics. intros m. apply metrics_record_auth_failure_gauge.
  - apply quietly_bind; [|intros _; apply quietly_warn_limited].
    apply quietly_metrics. intros m. apply metrics_record_auth_failure_gauge.
Qed.

Lemma quietly_log_reload ev now : quietly (log_authorized_keys_reload ev now).
Proof.
  destruct ev; cbn [log_authorized_keys_reload]; apply quietly_bind.
  - apply quietly_write_log.
  - intros _. by apply quietly_metrics.
  - by apply quietly_metrics.
  - intros _. apply quietly_warn_limited.
  - by apply quietly_metrics.
  - intros _. apply quietly_warn_limited.
Qed.

Lemma quietly_is_authorized key now fs : quietly (is_authorized key now fs).
Proof.
  apply quietly_bind.
  { apply quietly_same. intros s. unfold refresh_keys.
    by destruct (AuthorizedKeys.store_refresh_if_due _ _ _ _ _ _). }
  intros [[ev|]|e]; [| |apply quietly_ret]; (apply quietly_bind; [|intros _; by apply quietly_same]).
  - apply quietly_log_reload.
  - apply quietly_ret.
Qed.

Lemma quietly_authorize_key peer user key now fs : quietly (authorize_key peer user key now fs).
Proof.
  apply quietly_bind; [apply quietly_gets|]. intros daemon.
  destruct (negb _); [|destruct (negb _)].
  1,2: apply quietly_bind; [apply quietly_record_auth_failure|intros _; apply quietly_ret].
  apply quietly_bind; [apply quietly_is_authorized|]. intros [[]|e]; [| |apply quietly_ret];
    (apply quietly_bind; [|intros _; apply quietly_ret]).
  - apply quietly_write_log.
  - apply quietly_record_auth_failure.
Qed.

Lemma quietly_preauth_error peer err now : quietly (record_preauth_error peer err now).
Proof.
  apply quietly_bind; [apply quietly_gets|]. intros c.
  destruct (preauth_timeout_details c err) as [[k ms]|].
  - apply quietly_bind; [by apply quietly_metrics|]. intros _.
    apply quietly_bind; [by apply quietly_metrics|]. intros _. apply quietly_warn_limited.
  - destruct (is_malformed_connection_error err); [|apply quietly_ret].
    apply quietly_bind; [by apply quietly_metrics|]. intros _. by apply quietly_metrics.
Qed.

Lemma quietly_finish peer o now : quietly (finish_connection peer o now).
Proof.
  destruct o as [|err|sent r|[[]|err]]; cbn [finish_connection]; try apply quietly_ret.
  - apply quietly_bind; [apply quietly_gets|]. intros c.
    apply quietly_bind; [by apply quietly_metrics|]. intros _.
    apply quietly_bind; [by apply quietly_metrics|]. intros _.
    apply quietly_bind; [apply quietly_warn_limited|]. intros _. apply quietly_ret.
  - apply quietly_bind; [apply quietly_preauth_error|]. intros _. apply quietly_ret.
  - apply quietly_bind; [|intros _; apply quietly_ret].
    destruct sent; [apply quietly_write_log|apply quietly_ret].
  - apply quietly_bind; [apply quietly_preauth_error|]. intros _. apply quietly_ret.
Qed.

(** ** Connections and counters *)

(** The addresses of the contexts that still hold their guard. *)
Definition guarded (ctxs : list PreauthContext) : list IpAddr :=
  omap (λ ctx, guard_peer_ip <$> admission_guard ctx) ctxs.

Definition ctx_ok (ctx : PreauthContext) : Prop :=
  ∀ g, admission_guard ctx = Some g →
    released g = false ∧ guard_subnet g = subnet_key (guard_peer_ip g).

(** A healthy server: the counters of admission and the gauge both count the
    contexts that hold a guard, and stay within the limits. *)
Record conn_inv (s : AppState) (ctxs : list PreauthContext) : Prop := {
  conn_admission : ∃ adm, admission s = Unpoisoned adm ∧
    Admission.config adm = from_app_config (config s) ∧ adm_inv (guarded ctxs) adm;
  conn_limits : spec_limits (from_app_config (config s)) (guarded ctxs);
  conn_gauge : Metrics.current_unauthenticated_connections (metrics s)
               = Z.of_nat (length (guarded ctxs));
  conn_ctxs : Forall ctx_ok ctxs;
}.

#[local] Instance guarded_perm : Proper ((≡ₚ) ==> (≡ₚ)) guarded.
Proof. intros l l' H. unfold guarded. by rewrite H. Qed.

Lemma conn_inv_perm s ctxs ctxs' : ctxs ≡ₚ ctxs' → conn_inv s ctxs → conn_inv s ctxs'.
Proof.
  intros Hp [(adm & Ha & Hc & Hi) Hl Hg Hok]. split.
  - exists adm. split_and!; [done|done|]. by rewrite <- Hp.
  - destruct Hl as (L1 & L2 & L3). unfold spec_limits, cnt_ip, cnt_subnet in *.
    split_and!; [by rewrite <- Hp| |]; intros x;
      [rewrite <- (countZ_perm _ (guarded ctxs)) by (by rewrite Hp); apply L2|
       rewrite <- (countZ_perm _ (guarded ctxs)) by (by rewrite Hp); apply L3].
  - by rewrite <- Hp.
  - by rewrite <- Hp.
Qed.

(** Quiet operations keep the invariant as long as the lock is not poisoned. *)
Lemma conn_inv_quiet s s' ctxs adm' :
  quiet s s' → admission s' = Unpoisoned adm' → conn_inv s ctxs → conn_inv s' ctxs.
Proof.
  intros [Hc Hg Ha] Hadm' [(adm & Hadm & Hcfg & Hi) Hl Hgauge Hok].
  apply Ha in Hadm' as Hq. destruct Hq as (adm0 & Hadm0 & Hsame).
  rewrite Hadm in Hadm0. injection Hadm0 as <-. split; rewrite ?Hc, ?Hg; try done.
  exists adm'. split_and!; [done|by rewrite (same_config _ _ Hsame)|by rewrite <- Hsame].
Qed.

(** A guard given back: one connection less on both sides. *)
Lemma release_conn ctx ctxs s g now adm' :
  admission_guard ctx = Some g → conn_inv s (ctx :: ctxs) →
  controller_release (admission s) (guard_peer_ip g) (guard_subnet g) now
    = (Unpoisoned adm', Ret tt) →
  conn_inv (set_metrics (Metrics.preauth_connection_closed (metrics s))
              (set_admission (Unpoisoned adm') s)) ctxs ∧
  Metrics.current_unauthenticated_connections (metrics s) > 0.
Proof.
  intros Hg [(adm & Hadm & Hcfg & Hi) Hl Hgauge Hok] Hrel.
  apply Forall_cons_1 in Hok as [Hctx Hok]. destruct (Hctx g Hg) as [_ Hsub].
  assert (Hgs : guarded (ctx :: ctxs) = guard_peer_ip g :: guarded ctxs)
    by (unfold guarded; cbn; by rewrite Hg).
  rewrite Hgs in *. cbn [length] in Hgauge. rewrite Hsub in Hrel.
  unfold controller_release, with_lock in Hrel. rewrite Hadm in Hrel.
  destruct (release _ _ now adm) as [adm1|] eqn:Hr; [|done]. cbn in Hrel. injection Hrel as <-.
  apply (release_refines (guarded ctxs)) in Hr as [Hc1 Hi1]; [|done].
  split; [|lia]. split; cbn; [| | |done].
  - exists adm1. split_and!; [done|congruence|done].
  - eapply spec_limits_step; [exact Hl|]. by econstructor.
  - unfold saturating_sub. lia.
Qed.

(** One step of the server: a new connection, the end or the authentication of
    one, or anything else a handler does, as long as nothing panics. *)
Inductive server_step : AppState * list PreauthContext → AppState * list PreauthContext → Prop :=
| step_admit peer now s s' ctxs r :
    admit_connection peer now s = (s', Ret r) →
    server_step (s, ctxs) (s', match r with Some ctx => ctx :: ctxs | None => ctxs end)
| step_authenticated peer ctx ctx' now s s' ctxs ctxs' :
    ctxs ≡ₚ ctx :: ctxs' → auth_succeeded peer ctx now s = (s', Ret ctx') →
    server_step (s, ctxs) (s', ctx' :: ctxs')
| step_dropped ctx now s s' ctxs ctxs' :
    ctxs ≡ₚ ctx :: ctxs' → preauth_drop ctx now s = (s', Ret tt) →
    server_step (s, ctxs) (s', ctxs')
| step_authorize peer user key now fs s s' ctxs r :
    authorize_key peer user key now fs s = (s', Ret r) →
    server_step (s, ctxs) (s', ctxs)
| step_password peer now s s' ctxs r :
    auth_password peer now s = (s', Ret r) → server_step (s, ctxs) (s', ctxs)
| step_finish peer o now s s' ctxs r :
    finish_connection peer o now s = (s', Ret r) → server_step (s, ctxs) (s', ctxs).

Lemma conn_inv_quietly {A} (m : server A) s s' a ctxs :
  quietly m → m s = (s', Ret a) → conn_inv s ctxs → conn_inv s' ctxs.
Proof.
  intros Hm H Hinv. destruct (Hm s) as [Hq Hh]. rewrite H in *. cbn in *.
  destruct (conn_admission _ _ Hinv) as (adm & Hadm & _).
  destruct (Hh a adm eq_refl Hadm) as [adm' Hadm']. by eapply conn_inv_quiet.
Qed.

Lemma guarded_cons ctx g ctxs :
  admission_guard ctx = Some g → guarded (ctx :: ctxs) = guard_peer_ip g :: guarded ctxs.
Proof. intros H. unfold guarded. cbn. by rewrite H. Qed.

Lemma guarded_cons_none ctx ctxs :
  admission_guard ctx = None → guarded (ctx :: ctxs) = guarded ctxs.
Proof. intros H. unfold guarded. cbn. by rewrite H. Qed.

Lemma admit_inv peer now s s' r ctxs :
  cfg_ok (from_app_config (config s)) → conn_inv s ctxs → admit_connection peer now s = (s', Ret r) →
  conn_inv s' (match r with Some ctx => ctx :: ctxs | None => ctxs end).
Proof.
  intros Hcfg Hinv. pose proof Hinv as [(adm & Hadm & Hac & Hi) Hl Hg Hok].
  unfold admit_connection. unfold mbind at 1, server_bind at 1. unfold on_admission, try_acquire_at, with_lock.
  rewrite Hadm. destruct (try_acquire _ _ now adm) as [[adm' [[]|e]]|] eqn:Ha; cbn -[warn_limited];
    [| |done]; apply (try_acquire_refines (guarded ctxs)) in Ha as (Hc' & Hi' & Hstep);
    [|congruence|done| |congruence|done]; cbn in Hi', Hstep; rewrite Hac in Hc', Hstep.
  - intros [= <- <-]. pose proof (spec_limits_step _ _ _ Hl Hstep) as Hl'.
    split; [exists adm'|..|]; try (erewrite guarded_cons by reflexivity); cbn -[length]; try done.
    + destruct Hl' as [Hle _]. destruct Hcfg as [[_ Hmax] _ _]. rewrite Hg.
      cbn [length] in *. rewrite wrapping_add_small; lia.
    + constructor; [|done]. by intros g [= <-].
  - intros H. refine (conn_inv_quietly
      (_ ← on_metrics (Metrics.record_rejected_connection (category e));
       _ ← warn_limited (Some peer) (category e) (ConnectionRejected peer e) now;
       mret (@None PreauthContext)) (set_admission (Unpoisoned adm') s) s' r _ _ _ _).
    + apply quietly_bind; [by apply quietly_metrics|]. intros _.
      apply quietly_bind; [apply quietly_warn_limited|]. intros _. apply quietly_ret.
    + exact H.
    + assert (r = None) as ->.
      { revert H. unfold warn_limited, mbind, server_bind. cbn.
        by destruct (check _ _ _ _) as [? []]; cbn; intros [= _ <-]. }
      split; cbn; try done. exists adm'. split_and!; done.
Qed.

Lemma conn_inv_ext s s' ctxs :
  config s' = config s → admission s' = admission s → metrics s' = metrics s →
  conn_inv s ctxs → conn_inv s' ctxs.
Proof. intros Hc Ha Hm [? ? ? ?]. split; rewrite ?Hc, ?Ha, ?Hm; done. Qed.

Lemma conn_inv_cons_none s ctx ctxs :
  admission_guard ctx = None → conn_inv s ctxs → conn_inv s (ctx :: ctxs).
Proof.
  intros H [? ? ? ?]. split; rewrite ?guarded_cons_none; try done.
  constructor; [|done]. intros g. by rewrite H.
Qed.

Lemma conn_inv_uncons_none s ctx ctxs :
  admission_guard ctx = None → conn_inv s (ctx :: ctxs) → conn_inv s ctxs.
Proof.
  intros H [? ? ? Hok]. rewrite guarded_cons_none in * by done.
  split; try done. by apply Forall_cons_1 in Hok as [_ ?].
Qed.

(** The guard of a context, as the operations of admission see it. *)
Lemma conn_guard s ctx ctxs g :
  conn_inv s (ctx :: ctxs) → admission_guard ctx = Some g →
  g = {| guard_peer_ip := guard_peer_ip g; guard_subnet := guard_subnet g; released := false |}.
Proof.
  intros [_ _ _ Hok] Hg. apply Forall_cons_1 in Hok as [Hctx _].
  destruct (Hctx g Hg) as [Hrel _]. destruct g. cbn in *. by subst.
Qed.

Lemma controller_release_Ret c ip subnet now c' :
  controller_release c ip subnet now = (c', Ret tt) → ∃ adm', c' = Unpoisoned adm'.
Proof. unfold controller_release. intros (s & s' & _ & -> & _)%with_lock_Ret. by eexists. Qed.

Lemma auth_succeeded_inv peer ctx ctx' now s s' ctxs :
  conn_inv s (ctx :: ctxs) → auth_succeeded peer ctx now s = (s', Ret ctx') →
  conn_inv s' (ctx' :: ctxs).
Proof.
  intros Hinv H. unfold auth_succeeded, mark_authenticated in H.
  unfold mbind, server_bind, on_admission, on_metrics, update, write_log in H. cbn in H.
  destruct (admission_guard ctx) as [g|] eqn:Hg; cbn in H.
  - rewrite (conn_guard _ _ _ _ Hinv Hg), guard_mark_authenticated_release in H.
    destruct (controller_release _ _ _ now) as [c [[]|]] eqn:Hr; cbn in H; [|done].
    injection H as <- <-. destruct (controller_release_Ret _ _ _ _ _ Hr) as [adm' ->].
    apply conn_inv_cons_none; [done|].
    destruct (release_conn ctx ctxs s g now adm' Hg Hinv Hr) as [Hinv' _].
    by eapply conn_inv_ext; [..|exact Hinv'].
  - injection H as <- <-. apply conn_inv_cons_none; [done|].
    apply conn_inv_uncons_none in Hinv; [|done]. by eapply conn_inv_ext; [..|exact Hinv].
Qed.

Lemma preauth_drop_inv ctx now s s' ctxs :
  conn_inv s (ctx :: ctxs) → preauth_drop ctx now s = (s', Ret tt) → conn_inv s' ctxs.
Proof.
  intros Hinv H. unfold preauth_drop in H.
  unfold mbind, server_bind, on_admission, on_metrics, update in H.
  destruct (admission_guard ctx) as [g|] eqn:Hg; cbn in H.
  - rewrite (conn_guard _ _ _ _ Hinv Hg), guard_drop_release in H.
    destruct (controller_release _ _ _ now) as [c [[]|]] eqn:Hr; cbn in H; [|done].
    injection H as <-. destruct (controller_release_Ret _ _ _ _ _ Hr) as [adm' ->].
    destruct (release_conn ctx ctxs s g now adm' Hg Hinv Hr) as [Hinv' _]. done.
  - injection H as <-. by eapply conn_inv_uncons_none.
Qed.

Lemma server_step_config s ctxs s' ctxs' :
  server_step (s, ctxs) (s', ctxs') → conn_inv s ctxs → config s' = config s.
Proof.
  intros H Hinv. assert (∀ A (m : server A) a, quietly m → m s = (s', a) → config s' = config s) as Hq.
  { intros A m a Hm Heq. pose proof (proj1 (Hm s)) as Hqq. rewrite Heq in Hqq. apply Hqq. }
  inversion H; subst.
  - match goal with H : admit_connection _ _ _ = _ |- _ => revert H end.
    unfold admit_connection. unfold mbind at 1, server_bind at 1. unfold on_admission.
    destruct (try_acquire_at _ _ _) as [m [[g|e]|]]; cbn -[warn_limited]; [by intros [= <- _]| |done].
    unfold warn_limited, mbind, server_bind. cbn.
    by destruct (check _ _ _ _) as [? []]; cbn; intros [= <- _].
  - match goal with H : auth_succeeded _ _ _ _ = _ |- _ => revert H end.
    unfold auth_succeeded, mark_authenticated, mbind, server_bind, on_admission, on_metrics, update,
      write_log. cbn. destruct (admission_guard ctx) as [g|]; cbn; [|by intros [= <- _]].
    destruct (guard_mark_authenticated _ _ _ _) as [m [[]|]]; cbn; [by intros [= <- _]|done].
  - match goal with H : preauth_drop _ _ _ = _ |- _ => revert H end.
    unfold preauth_drop, mbind, server_bind, on_admission, on_metrics, update.
    destruct (admission_guard ctx) as [g|]; cbn; [|by intros [= <-]].
    destruct (guard_drop _ _ _) as [m [[]|]]; cbn; [by intros [= <-]|done].
  - eapply Hq; [apply quietly_authorize_key|done].
  - eapply (Hq _ (auth_password peer now)); [|done].
    apply quietly_bind; [apply quietly_record_auth_failure|intros _; apply quietly_ret].
  - eapply Hq; [apply quietly_finish|done].
Qed.

Lemma server_step_inv s ctxs s' ctxs' :
  cfg_ok (from_app_config (config s)) → conn_inv s ctxs →
  server_step (s, ctxs) (s', ctxs') → conn_inv s' ctxs'.
Proof.
  intros Hcfg Hinv H. inversion H; subst.
  - by eapply admit_inv.
  - eapply auth_succeeded_inv; [|done]. by eapply conn_inv_perm.
  - eapply preauth_drop_inv; [|done]. by eapply conn_inv_perm.
  - eapply conn_inv_quietly; [apply quietly_authorize_key|done|done].
  - eapply (conn_inv_quietly (auth_password peer now)); [|done|done].
    apply quietly_bind; [apply quietly_record_auth_failure|intros _; apply quietly_ret].
  - eapply conn_inv_quietly; [apply quietly_finish|done|done].
Qed.

Lemma server_reachable_inv s0 s ctxs :
  cfg_ok (from_app_config (config s0)) → conn_inv s0 [] →
  rtc server_step (s0, []) (s, ctxs) → config s = config s0 ∧ conn_inv s ctxs.
Proof.
  intros Hcfg H0 Hr.
  apply (rtc_ind_r (λ p, config p.1 = config s0 ∧ conn_inv p.1 p.2)) in Hr; [done|done|].
  intros [s1 c1] [s2 c2] _ Hstep [Hc1 Hi1]. cbn in *. split.
  - rewrite <- Hc1. by eapply server_step_config.
  - eapply server_step_inv; [|exact Hi1|exact Hstep]. by rewrite Hc1.
Qed.

(** ** Decisions *)

Lemma warn_limited_keys peer cat e now s :
  (warn_limited peer cat e now s).2 = Ret tt ∧
  authorized_keys (warn_limited peer cat e now s).1 = authorized_keys s ∧
  admission (warn_limited peer cat e now s).1 = admission s ∧
  metrics (warn_limited peer cat e now s).1 = metrics s.
Proof.
  unfold warn_limited, mbind, server_bind. cbn. by destruct (check _ _ _ _) as [? []].
Qed.

Lemma log_reload_keys ev now s :
  (log_authorized_keys_reload ev now s).2 = Ret tt ∧
  authorized_keys (log_authorized_keys_reload ev now s).1 = authorized_keys s ∧
  admission (log_authorized_keys_reload ev now s).1 = admission s.
Proof.
  destruct ev; cbn [log_authorized_keys_reload]; unfold mbind, server_bind; cbn -[warn_limited];
    [done|..]; edestruct warn_limited_keys as (? & ? & ? & _); split_and!; done.
Qed.

Lemma is_authorized_true key now fs s s' :
  is_authorized key now fs s = (s', Ret (Ok true)) →
  ∃ m ev, AuthorizedKeys.store_refresh_if_due to_bytes key_error_display entries
            (authorized_keys s) now fs = (m, Ret (Ok ev)) ∧
    AuthorizedKeys.store_contains to_bytes key_error_display m key = Ret (Ok true).
Proof.
  unfold is_authorized, mbind, server_bind, refresh_keys.
  destruct (AuthorizedKeys.store_refresh_if_due _ _ _ _ _ _) as [m [[[ev|]|e]|]]; [| |done|done].
  - destruct (log_reload_keys ev now (set_authorized_keys m s)) as (H2 & Hk & _).
    destruct (log_authorized_keys_reload ev now _) as [s1 r]. cbn in *. subst r.
    unfold lookup_key. rewrite Hk. intros [= _ H]. eauto.
  - cbn. intros [= _ H]. eauto.
Qed.

Lemma is_authorized_store key now fs s m ev b :
  AuthorizedKeys.store_refresh_if_due to_bytes key_error_display entries
    (authorized_keys s) now fs = (m, Ret (Ok ev)) →
  AuthorizedKeys.store_contains to_bytes key_error_display m key = Ret (Ok b) →
  (is_authorized key now fs s).2 = Ret (Ok b).
Proof.
  intros Hr Hc. unfold is_authorized, mbind, server_bind, refresh_keys. rewrite Hr.
  destruct ev as [ev|]; cbn -[log_authorized_keys_reload]; [|done].
  destruct (log_reload_keys ev now (set_authorized_keys m s)) as (H2 & Hk & _).
  destruct (log_authorized_keys_reload ev now _) as [s1 r]. cbn in *. subst r.
  unfold lookup_key. cbn. by rewrite Hk.
Qed.

(** A rejection goes through [record_auth_failure]. *)
Lemma authorize_key_reject peer user key now fs s s' r :
  authorize_key peer user key now fs s = (s', Ret r) →
  r ≠ Ok Reject ∨ ∃ cat reason s1,
    record_auth_failure peer cat reason now s1 = (s', Ret tt) ∧ admission s1 = admission s.
Proof.
  unfold authorize_key. unfold mbind at 1, server_bind at 1. cbn [gets].
  assert (Hrec : ∀ cat reason s1, admission s1 = admission s →
    (_ ← record_auth_failure peer cat reason now; mret (Ok Reject)) s1 = (s', Ret r) →
    ∃ cat reason s1, record_auth_failure peer cat reason now s1 = (s', Ret tt) ∧
      admission s1 = admission s).
  { intros cat reason s1 Ha. unfold mbind, server_bind.
    destruct (record_auth_failure peer cat reason now s1) as [s2 [[]|]] eqn:Hf; [|done].
    cbn. intros [= <- _]. by exists cat, reason, s1. }
  destruct (negb _); [intros H; right; by eapply Hrec|].
  destruct (negb _); [intros H; right; by eapply Hrec|].
  unfold mbind at 1, server_bind at 1.
  destruct (is_authorized key now fs s) as [s1 [[[]|e]|]] eqn:Hia; [| | |done].
  - unfold mbind, server_bind. cbn. intros [= _ <-]. by left.
  - intros H. right. eapply Hrec; [|exact H].
    revert Hia. unfold is_authorized, mbind, server_bind, refresh_keys.
    destruct (AuthorizedKeys.store_refresh_if_due _ _ _ _ _ _) as [m [[[ev|]|e]|]]; [| |done|done].
    + destruct (log_reload_keys ev now (set_authorized_keys m s)) as (H2 & _ & Ha).
      destruct (log_authorized_keys_reload ev now _) as [s2 r2]. cbn in *. subst r2. cbn.
      by intros [= <- _].
    + cbn. by intros [= <- _].
  - cbn. intros [= _ <-]. by left.
Qed.
End Server.

(** The state [AppState::bootstrap] leaves behind, given the loaded keys. *)
Definition bootstrap_state (c : Config.AppConfig) (user : str)
  (keys : mutex AuthorizedKeys.AuthorizedKeysState) (now : Instant) : AppState := {|
  config := c;
  daemon_username := user;
  authorized_keys := keys;
  admission := AdmissionController_new (from_app_config c) now;
  log_limiter := LogLimiterState_new (from_secs 30) 4096 now;
  metrics := Metrics.new 4096;
  log := [];
|}.

Lemma bootstrap_conn_inv c user keys now :
  cfg_ok (from_app_config c) → conn_inv (bootstrap_state c user keys now) [].
Proof.
  intros Hcfg. split; [|by apply spec_limits_nil|done|constructor].
  eexists. split_and!; [done|done|apply adm_inv_new].
Qed.

(** ** Properties *)

Section Properties.
Context (iter : gmap LogKey LogEntry → list (LogKey * LogEntry)).
Context {PublicKey key_error : Type}.
Context (to_bytes : PublicKey → result key_error (list N)).
Context (key_error_display : key_error → str).
Context (entries : str → list (result key_error (str * PublicKey))).
Context (algorithm : PublicKey → Algorithm).

(** From start-up on, over any history of connections, authentications,
    failures and disconnects that does not panic, the gauge of the metrics, the
    global counter of admission and the number of connections that still hold
    their guard are the same number, and it stays within
    MaxUnauthConnectionsGlobal: every admitted connection is counted once and
    given back once. *)
Theorem gauge_agrees_with_admission c user keys start s ctxs :
  ConfigCorrect.config_wf c →
  rtc (server_step iter to_bytes key_error_display entries algorithm)
      (bootstrap_state c user keys start, []) (s, ctxs) →
  ∃ adm, admission s = Unpoisoned adm ∧
    unauthenticated_connections adm = Z.of_nat (length (guarded ctxs)) ∧
    Metrics.current_unauthenticated_connections (metrics s) = Z.of_nat (length (guarded ctxs)) ∧
    Z.of_nat (length (guarded ctxs)) ≤ Config.max_unauth_connections_global c.
Proof.
  intros Hwf Hr. assert (cfg_ok (from_app_config c)) as Hcfg by (by apply from_app_config_ok).
  apply server_reachable_inv in Hr as [Hc [(adm & Ha & _ & Hi) Hl Hg _]];
    [|done|by apply bootstrap_conn_inv].
  exists adm. split_and!; [done|apply Hi|done|]. destruct Hl as [Hle _]. by rewrite Hc in Hle.
Qed.

(** C3: a key is accepted exactly when the login name is the daemon's own user,
    the key is an Ed25519 or a security-key Ed25519 key, and the store, after
    the refresh that may be due, contains it. *)
Theorem key_accepted_iff peer user key now fs s :
  (∃ s', authorize_key iter to_bytes key_error_display entries algorithm
           peer user key now fs s = (s', Ret (Ok Accept))) ↔
  user = daemon_username s ∧ (algorithm key = Ed25519 ∨ algorithm key = SkEd25519) ∧
  ∃ m ev, AuthorizedKeys.store_refresh_if_due to_bytes key_error_display entries
            (authorized_keys s) now fs = (m, Ret (Ok ev)) ∧
    AuthorizedKeys.store_contains to_bytes key_error_display m key = Ret (Ok true).
Proof.
  assert (Hrec : ∀ cat reason s1 s', ¬ (_ ← record_auth_failure iter peer cat reason now;
      mret (Ok Reject : result anyhow Auth)) s1 = (s', Ret (Ok Accept))).
  { intros cat reason s1 s'. unfold mbind, server_bind.
    by destruct (record_auth_failure iter peer cat reason now s1) as [s2 []]. }
  unfold authorize_key, login_user_matches_daemon. unfold mbind at 1, server_bind at 1. cbn [gets].
  case_bool_decide as Hu; cbn [negb]; [|split; [by intros [s' ?%Hrec]|by intros [? _]]].
  destruct (is_user_key_algorithm_allowed (algorithm key)) eqn:Halg; cbn [negb].
  2:{ split; [by intros [s' ?%Hrec]|]. intros (_ & [Ha|Ha] & _); by rewrite Ha in Halg. }
  assert (algorithm key = Ed25519 ∨ algorithm key = SkEd25519) as Ha
    by (destruct (algorithm key); auto; done).
  split.
  - intros [s' H]. split_and!; [done|done|].
    unfold mbind at 1, server_bind at 1 in H.
    destruct (is_authorized iter to_bytes key_error_display entries key now fs s)
      as [s1 [[[]|e]|]] eqn:Hia; [|by apply Hrec in H|done|done].
    by eapply is_authorized_true.
  - intros (_ & _ & m & ev & Hr & Hc).
    pose proof (is_authorized_store iter to_bytes key_error_display entries key now fs s m ev true Hr Hc)
      as Hia.
    unfold mbind at 1, server_bind at 1.
    destruct (is_authorized iter to_bytes key_error_display entries key now fs s) as [s1 r].
    cbn in Hia. subst r. unfold mbind, server_bind. cbn. by eexists.
Qed.

(** A rejected key of a known peer, whatever it was rejected for, is exactly
    one recorded failure of its address in the admission controller, so that it
    counts towards the ban. *)
Theorem rejected_key_counts_towards_ban p user key now fs s s' :
  authorize_key iter to_bytes key_error_display entries algorithm
    (Some p) user key now fs s = (s', Ret (Ok Reject)) →
  ∃ banned, record_auth_failure_at (admission s) (sock_ip p) now = (admission s', Ret banned).
Proof.
  intros H. apply authorize_key_reject in H as [H|(cat & reason & s1 & H & Ha)]; [done|].
  rewrite <- Ha. cbn [record_auth_failure] in H.
  unfold mbind, server_bind, on_admission, on_metrics, update in H.
  destruct (record_auth_failure_at (admission s1) (sock_ip p) now) as [m [b|]] eqn:Hf; [|done].
  cbn -[warn_limited] in H.
  match type of H with warn_limited ?i ?a ?b ?c ?d ?st = _ =>
    destruct (warn_limited_keys i a b c d st) as (_ & _ & Hadm & _) end.
  rewrite H in Hadm. cbn in Hadm. exists b. by rewrite Hadm.
Qed.
End Properties.

(** ** Witnesses *)

Definition demo_keys : mutex AuthorizedKeys.AuthorizedKeysState :=
  Unpoisoned AuthorizedKeys.demo_state.
Definition demo_server : AppState :=
  bootstrap_state ConfigCorrect.demo_defaults (lit "alice") demo_keys 0.
Definition demo_peer : SocketAddr := {| sock_ip := V4 (V4Octets 203 0 113 7); sock_port := 40000 |}.
Definition demo_algorithm (k : str) : Algorithm := Ed25519.

Definition hd_ctx (l : list PreauthContext) : PreauthContext :=
  default {| admission_guard := None; authenticated := false; auth_success_sent := false |} (head l).

Definition demo_admitted : AppState * list PreauthContext :=
  match admit_connection map_to_list demo_peer 0 demo_server with
  | (s, Ret (Some ctx)) => (s, [ctx]) | (s, _) => (s, []) end.

Lemma gauge_agrees_with_admission_witness :
  ∃ adm, admission demo_admitted.1 = Unpoisoned adm ∧ unauthenticated_connections adm = 1.
Proof.
  destruct (gauge_agrees_with_admission map_to_list AuthorizedKeys.demo_bytes
    AuthorizedKeys.demo_error AuthorizedKeys.demo_entries demo_algorithm
    ConfigCorrect.demo_defaults (lit "alice") demo_keys 0 demo_admitted.1 demo_admitted.2)
    as (adm & H1 & H2 & _).
  - repeat constructor; vm_compute; congruence.
  - apply rtc_once.
    exact (step_admit map_to_list AuthorizedKeys.demo_bytes AuthorizedKeys.demo_error
      AuthorizedKeys.demo_entries demo_algorithm demo_peer 0 demo_server demo_admitted.1 []
      (Some (hd_ctx demo_admitted.2)) eq_refl).
  - exists adm. split; [exact H1|]. rewrite H2. reflexivity.
Defined.

(** An attempt under another user's name. *)
Definition demo_attempt : AppState * run (result anyhow Auth) :=
  authorize_key map_to_list AuthorizedKeys.demo_bytes AuthorizedKeys.demo_error
    AuthorizedKeys.demo_entries demo_algorithm (Some demo_peer) (lit "mallory") (lit "alice") 1
    AuthorizedKeys.demo_fs demo_server.

Lemma rejected_key_counts_towards_ban_witness :
  ∃ banned, record_auth_failure_at (admission demo_server) (sock_ip demo_peer) 1
            = (admission demo_attempt.1, Ret banned).
Proof.
  apply (rejected_key_counts_towards_ban map_to_list AuthorizedKeys.demo_bytes
    AuthorizedKeys.demo_error AuthorizedKeys.demo_entries demo_algorithm demo_peer (lit "mallory")
    (lit "alice") 1 AuthorizedKeys.demo_fs demo_server demo_attempt.1).
  reflexivity.
Defined.

(** The two errors of the pre-authentication stream are told apart, also when
    the transport wrapped them in a context. *)
Example timeouts_are_classified :
  fst <$> preauth_timeout_details ConfigCorrect.demo_defaults
    [Msg (lit "session failed"); IoCause (IoError TimedOut
       (lit "key exchange did not start before the configured timeout elapsed"))]
  = Some (lit "kex-start-timeout").
Proof. vm_compute. reflexivity. Qed.

End Server.
