(* ===== verification/Daemon.v ===== *)
(** * The daemon: accept loop and supervised connections (src/src/sshd.rs)

    [run_with_listener_until_shutdown] accepts connections until it is told to
    stop and spawns a supervised task for each of them.  The daemon is that
    loop, the shared [AppState] and the connections there are: accepted, live
    with their [PreauthContext], or at the end of [serve_connection].  Each
    stretch of a task between two waits is a step, so that connections interleave
    as they like.  A panic unwinds the task, which drops the context; a drop that
    panics while unwinding aborts the process.

    The file also has what the daemon tells the SSH library ([build_ssh_config])
    and how it words what it logs. *)

From S2P Require Import Prelude Rust Net Config ConfigCorrect Admission AdmissionCorrect LogLimiter Metrics AuthorizedKeys Server.

Local Open Scope Z_scope.

Module Daemon.
Import Server.

(** ** What the SSH library is told *)

Inductive MethodKind := MethodNone | MethodPassword | MethodPublicKey | MethodHostBased
| MethodKeyboardInteractive.

Inductive kex_name := MLKEM768X25519_SHA256 | CURVE25519 | CURVE25519_PRE_RFC_8731
| EXTENSION_SUPPORT_AS_SERVER | EXTENSION_OPENSSH_STRICT_KEX_AS_SERVER.
Inductive cipher_name := CHACHA20_POLY1305 | AES_256_GCM | AES_256_CTR | AES_128_CTR.
Inductive mac_name := HMAC_SHA512_ETM | HMAC_SHA256_ETM | HMAC_SHA512 | HMAC_SHA256.
Inductive compression_name := CompressionNone.

Record Preferred := {
  pref_kex : list kex_name;
  pref_key : list Algorithm;
  host_key_certificates : list Algorithm;
  pref_cipher : list cipher_name;
  pref_mac : list mac_name;
  pref_compression : list compression_name;
}.

Definition public_exposure_preferred : Preferred := {|
  pref_kex := [MLKEM768X25519_SHA256; CURVE25519; CURVE25519_PRE_RFC_8731;
               EXTENSION_SUPPORT_AS_SERVER; EXTENSION_OPENSSH_STRICT_KEX_AS_SERVER];
  pref_key := [Ed25519; SkEd25519];
  host_key_certificates := [];
  pref_cipher := [CHACHA20_POLY1305; AES_256_GCM; AES_256_CTR; AES_128_CTR];
  pref_mac := [HMAC_SHA512_ETM; HMAC_SHA256_ETM; HMAC_SHA512; HMAC_SHA256];
  pref_compression := [CompressionNone];
|}.

(** The fields of [russh::server::Config] the daemon sets. *)
Record ssh_config (PrivateKey : Type) := {
  methods : list MethodKind;
  ssh_auth_rejection_time : Duration;
  auth_rejection_time_initial : option Duration;
  keys : list PrivateKey;
  preferred : Preferred;
  ssh_max_auth_attempts : Z;
  ssh_inactivity_timeout : option Duration;
  ssh_keepalive_interval : option Duration;
  ssh_keepalive_max : Z;
  ssh_nodelay : bool;
  ssh_channel_buffer_size : Z;
  ssh_event_buffer_size : Z;
  ssh_window_size : Z;
  ssh_maximum_packet_size : Z;
}.
Arguments methods {_}. Arguments keys {_}. Arguments preferred {_}.

Definition build_ssh_config {PrivateKey} (host_key : PrivateKey) (c : Config.AppConfig)
  : ssh_config PrivateKey := {|
  methods := [MethodPublicKey];
  ssh_auth_rejection_time := Config.auth_rejection_time c;
  auth_rejection_time_initial := Some (Config.auth_rejection_time c);
  keys := [host_key];
  preferred := public_exposure_preferred;
  ssh_max_auth_attempts := Config.max_auth_attempts c;
  ssh_inactivity_timeout := Some (Config.inactivity_timeout c);
  ssh_keepalive_interval := Some (Config.keepalive_interval c);
  ssh_keepalive_max := Config.keepalive_max c;
  ssh_nodelay := Config.nodelay c;
  ssh_channel_buffer_size := Config.channel_buffer_size c;
  ssh_event_buffer_size := Config.event_buffer_size c;
  ssh_window_size := Config.window_size c;
  ssh_maximum_packet_size := Config.maximum_packet_size c;
|}.

(** The SSH library is told the policy the handlers enforce: public keys are the
    only method, of the algorithms [authorize_key] accepts and no certificates,
    and the only host key is the daemon's. *)
Theorem advertised_policy_is_enforced {PrivateKey} (k : PrivateKey) c a :
  let s := build_ssh_config k c in
  methods s = [MethodPublicKey] ∧ keys s = [k] ∧ host_key_certificates (preferred s) = [] ∧
  (a ∈ pref_key (preferred s) ↔ is_user_key_algorithm_allowed a = true).
Proof.
  split_and!; [done..|]. cbn. rewrite !elem_of_cons, elem_of_nil. destruct a; naive_solver.
Qed.

(** ** The wording of the log *)

(** The payload of a panic. *)
Inductive panic_payload := StaticStr (s : str) | OwnedString (s : str) | OtherPayload.

Definition panic_payload_message (p : panic_payload) : str :=
  match p with
  | StaticStr s => s
  | OwnedString s => s
  | OtherPayload => lit "<non-string panic payload>"
  end.

(** ** State *)

Inductive connection :=
| Fresh (peer : SocketAddr)
| Live (peer : SocketAddr) (ctx : PreauthContext)
| Closing (peer : SocketAddr) (o : outcome).

Inductive accept_loop := Accepting | Returned (r : result anyhow unit).

Record daemon := {
  app : AppState;
  loop : accept_loop;
  connections : list connection;
  aborted : bool;
}.

Definition serving (d : daemon) : Prop := loop d = Accepting ∧ aborted d = false.

(** The contexts of the live connections. *)
Definition live (d : daemon) : list PreauthContext :=
  omap (λ c, match c with Live _ ctx => Some ctx | _ => None end) (connections d).

Definition start (s : AppState) : daemon :=
  {| app := s; loop := Accepting; connections := []; aborted := false |}.

(** [spawn_supervised_connection]: what a task ended with is logged. *)
Definition supervise (peer : SocketAddr) (r : run (result anyhow unit)) (s : AppState) : AppState :=
  match r with
  | Ret (Ok _) => s
  | Ret (Err e) => (write_log (ConnectionError peer e) 0 s).1
  | Panic m => (write_log (ConnectionPanic peer (panic_payload_message (OwnedString (lit m)))) 0 s).1
  end.

Section Daemon.
Context (iter : gmap LogKey LogEntry → list (LogKey * LogEntry)).
Context {PublicKey key_error : Type}.
Context (to_bytes : PublicKey → result key_error (list N)).
Context (key_error_display : key_error → str).
Context (entries : str → list (result key_error (str * PublicKey))).
Context (algorithm : PublicKey → Algorithm).

(** What opening a connection came to; [Unwound m r] is a panic [m] whose
    unwinding gave the slot back, with the outcome [r] of that. *)
Inductive opening :=
| NotAdmitted
| Opened (ctx : PreauthContext)
| Unwound (m : string) (dropped : run unit).

(** [socket.set_nodelay(true)], with the answer of the system. *)
Definition set_nodelay (peer : SocketAddr) (answer : result io_error unit) : server unit :=
  c ← gets config;
  match answer with
  | Err e => if Config.nodelay c then write_log (NoDelayFailed peer e) 0 else mret tt
  | Ok _ => mret tt
  end.

(** The login deadline and the context of a connection that has a slot.  A
    deadline that is no instant panics and the unwinding gives the slot back. *)
Definition open_admitted (guard : AdmissionGuard) (now : Instant) : server opening := λ s,
  match instant_add now (Config.login_grace_time (config s)) with
  | Ret _ => (ctx ← PreauthContext_new guard; mret (Opened ctx)) s
  | Panic m => let '(s, r) := on_admission (λ c, guard_drop c guard now) s in (s, Ret (Unwound m r))
  end.

(** [serve_connection] up to the SSH session. *)
Definition open_connection (peer : SocketAddr) (nodelay : result io_error unit) (now : Instant)
  : server opening :=
  r ← on_admission (λ c, try_acquire_at c (sock_ip peer) now);
  match r with
  | Err reason =>
      _ ← on_metrics (Metrics.record_rejected_connection (category reason));
      _ ← warn_limited iter (Some peer) (category reason) (ConnectionRejected peer reason) now;
      mret NotAdmitted
  | Ok guard => _ ← set_nodelay peer nodelay; open_admitted guard now
  end.

(** What the SSH library calls on the handler before authentication. *)
Inductive handler_call :=
| PublicKeyOffered (user : str) (key : PublicKey) (fs : AuthorizedKeys.fs_view)
| PublicKeySigned (user : str) (key : PublicKey) (fs : AuthorizedKeys.fs_view)
| PasswordTried
| Succeeded.

Definition run_handler (h : handler_call) (peer : SocketAddr) (ctx : PreauthContext) (now : Instant)
  : server PreauthContext :=
  match h with
  | PublicKeyOffered user key fs =>
      _ ← auth_publickey_offered iter to_bytes key_error_display entries algorithm
            (Some peer) user key now fs;
      mret ctx
  | PublicKeySigned user key fs =>
      _ ← auth_publickey iter to_bytes key_error_display entries algorithm
            (Some peer) user key now fs;
      mret ctx
  | PasswordTried => _ ← auth_password iter (Some peer) now; mret ctx
  | Succeeded => auth_succeeded (Some peer) ctx now
  end.

Definition with_app (s : AppState) (cs : list connection) (d : daemon) : daemon :=
  {| app := s; loop := loop d; connections := cs; aborted := aborted d |}.

(** A panic is logged by the supervisor; one while unwinding aborts. *)
Definition opened (peer : SocketAddr) (nodelay : result io_error unit) (now : Instant)
  (rest : list connection) (d : daemon) : daemon :=
  let '(s, r) := open_connection peer nodelay now (app d) in
  match r with
  | Ret (Opened ctx) => with_app s (Live peer ctx :: rest) d
  | Ret NotAdmitted => with_app s rest d
  | Ret (Unwound _ (Panic _)) => {| app := s; loop := loop d; connections := rest; aborted := true |}
  | Ret (Unwound m (Ret _)) | Panic m => with_app (supervise peer (Panic m) s) rest d
  end.

(** A handler that panics ends its session; its context is dropped on the way. *)
Definition handled (h : handler_call) (peer : SocketAddr) (ctx : PreauthContext) (now : Instant)
  (o : outcome) (rest : list connection) (d : daemon) : daemon :=
  let '(s, r) := run_handler h peer ctx now (app d) in
  match r with
  | Ret ctx => with_app s (Live peer ctx :: rest) d
  | Panic _ =>
      let '(s, r) := preauth_drop ctx now s in
      {| app := s; loop := loop d; connections := Closing peer o :: rest;
         aborted := match r with Ret _ => false | Panic _ => true end |}
  end.

(** The session ends and drops the handler. *)
Definition session_ended (peer : SocketAddr) (ctx : PreauthContext) (now : Instant) (o : outcome)
  (rest : list connection) (d : daemon) : daemon :=
  with_app (preauth_drop ctx now (app d)).1 (Closing peer o :: rest) d.

Definition finished (peer : SocketAddr) (o : outcome) (now : Instant) (rest : list connection)
  (d : daemon) : daemon :=
  let '(s, r) := finish_connection iter peer o now (app d) in with_app (supervise peer r s) rest d.

(** [clock] is what is known of the times the steps take place at. *)
Inductive step (clock : Instant → Prop) : daemon → daemon → Prop :=
| step_accepted peer d :
    serving d → step clock d (with_app (app d) (connections d ++ [Fresh peer]) d)
| step_accept_failed e d :
    serving d →
    step clock d {| app := app d; loop := Returned (io_result (Err e)); connections := connections d;
                    aborted := false |}
| step_shutdown d :
    serving d →
    step clock d {| app := app d; loop := Returned (Ok tt); connections := connections d;
                    aborted := false |}
| step_open peer nodelay now rest d :
    serving d → clock now → connections d ≡ₚ Fresh peer :: rest →
    step clock d (opened peer nodelay now rest d)
| step_handler h peer ctx now o rest d :
    serving d → clock now → connections d ≡ₚ Live peer ctx :: rest →
    step clock d (handled h peer ctx now o rest d)
| step_session_ended peer ctx now o rest d :
    serving d → clock now → connections d ≡ₚ Live peer ctx :: rest →
    step clock d (session_ended peer ctx now o rest d)
| step_finished peer o now rest d :
    serving d → clock now → connections d ≡ₚ Closing peer o :: rest →
    step clock d (finished peer o now rest d).

(** ** Lemmas *)

Definition poisoned (s : AppState) : Prop := ∀ adm, admission s ≠ Unpoisoned adm.

Lemma live_perm cs cs' s l ab :
  cs ≡ₚ cs' →
  live {| app := s; loop := l; connections := cs; aborted := ab |}
  ≡ₚ live {| app := s; loop := l; connections := cs'; aborted := ab |}.
Proof. intros H. unfold live. cbn. by rewrite H. Qed.

(** Under a lock, a panic poisons; a poisoned lock stays so. *)
Lemma on_admission_panic {A} (f : AdmissionState → run (AdmissionState * A)) msg s m :
  (on_admission (λ c, with_lock msg c f) s).2 = Panic m →
  poisoned (on_admission (λ c, with_lock msg c f) s).1.
Proof.
  unfold on_admission, with_lock. destruct (admission s) as [adm|]; [|by intros _ adm'].
  destruct (f adm) as [[adm' a]|e]; [done|]. by intros _ adm'.
Qed.

Lemma on_admission_poisoned {A} (f : AdmissionState → run (AdmissionState * A)) msg s :
  poisoned s → poisoned (on_admission (λ c, with_lock msg c f) s).1.
Proof.
  unfold on_admission, with_lock, poisoned. intros H.
  destruct (admission s) as [adm|] eqn:E; [by destruct (H adm)|]. by cbn.
Qed.

(** Dropping a context gives its slot back, or the lock is poisoned. *)
Lemma preauth_drop_cases ctx now s ctxs :
  (¬ poisoned s → conn_inv s (ctx :: ctxs)) → ¬ poisoned (preauth_drop ctx now s).1 →
  (preauth_drop ctx now s).2 = Ret tt ∧ conn_inv (preauth_drop ctx now s).1 ctxs.
Proof.
  intros Hi Hp. assert (¬ poisoned s) as Hs.
  { intros Hs. apply Hp. unfold preauth_drop. destruct (admission_guard ctx) as [g|]; [|done].
    unfold mbind, server_bind, on_admission, guard_drop, guard_release.
    destruct (released g); [done|].
    unfold controller_release, with_lock. destruct (admission s) as [adm|] eqn:E; [by destruct (Hs adm)|].
    by cbn. }
  apply Hi in Hs. destruct (preauth_drop ctx now s) as [s' [[]|e]] eqn:E; cbn in *.
  - split; [done|]. by eapply preauth_drop_inv.
  - exfalso. apply Hp. unfold preauth_drop in E. destruct (admission_guard ctx) as [g|] eqn:Hg; [|done].
    unfold mbind, server_bind in E. rewrite (conn_guard _ _ _ _ Hs Hg) in E.
    unfold on_admission in E. rewrite guard_drop_release in E. unfold controller_release, with_lock in E.
    destruct (admission s) as [adm|]; [|by simplify_eq; intros ?].
    destruct (release _ _ now adm) as [adm'|]; cbn in E; [done|]. simplify_eq. by intros ?.
Qed.

(** All but the log and the keys. *)
Definition same_counts (s s' : AppState) : Prop :=
  config s' = config s ∧ admission s' = admission s ∧ metrics s' = metrics s.

Lemma same_counts_inv s s' ctxs : same_counts s s' → conn_inv s ctxs → conn_inv s' ctxs.
Proof. intros (? & ? & ?). by apply conn_inv_ext. Qed.

Lemma set_nodelay_logs peer answer s :
  ∃ l, set_nodelay peer answer s = (set_log l s, Ret tt) ∨ set_nodelay peer answer s = (s, Ret tt).
Proof.
  unfold set_nodelay, mbind, server_bind, gets. destruct answer as [[]|e]; [exists []; by right|].
  destruct (Config.nodelay (config s)); [|exists []; by right]. eexists. by left.
Qed.

Lemma set_nodelay_cases peer answer s :
  ∃ s', set_nodelay peer answer s = (s', Ret tt) ∧ same_counts s s'.
Proof. destruct (set_nodelay_logs peer answer s) as [l [->| ->]]; eexists; (split; [done|]); by split_and!. Qed.

(** A slot that is given back with a panic poisons the lock. *)
Lemma drop_panic g now s m :
  (on_admission (λ c, guard_drop c g now) s).2 = Panic m →
  poisoned (on_admission (λ c, guard_drop c g now) s).1.
Proof.
  unfold on_admission, guard_drop, guard_release, controller_release, with_lock.
  destruct (released g); [done|]. destruct (admission s) as [adm|]; cbn; [|by intros _ ?].
  by destruct (release _ _ now adm); cbn; [|intros _ ?].
Qed.

(** What the panic of the deadline leaves. *)
Definition after_drop (c : mutex AdmissionState) (g : AdmissionGuard) (now : Instant) (s : AppState)
  : AppState * run unit := on_admission (λ c, guard_drop c g now) (set_admission c s).

Lemma on_admission_bind {A B} (f : mutex AdmissionState → mutex AdmissionState * run A) (k : A → server B) s :
  (on_admission f ≫= k) s =
  let '(c, r) := f (admission s) in
  match r with Ret a => k a (set_admission c s) | Panic e => (set_admission c s, Panic e) end.
Proof. unfold mbind, server_bind, on_admission. by destruct (f (admission s)) as [c []]. Qed.

(** Opening is admission but for the log, unless the deadline cannot be
    computed. *)
Lemma open_connection_cases peer nodelay now s :
  same_counts (admit_connection iter peer now s).1 (open_connection peer nodelay now s).1 ∧
  (open_connection peer nodelay now s).2
  = map_run (λ o, match o with Some ctx => Opened ctx | None => NotAdmitted end)
      (admit_connection iter peer now s).2 ∨
  ∃ c g m, try_acquire_at (admission s) (sock_ip peer) now = (c, Ret (Ok g)) ∧
    same_counts (after_drop c g now s).1 (open_connection peer nodelay now s).1 ∧
    (open_connection peer nodelay now s).2 = Ret (Unwound m (after_drop c g now s).2).
Proof.
  unfold open_connection, admit_connection. rewrite !on_admission_bind.
  destruct (try_acquire_at (admission s) (sock_ip peer) now) as [c [[g|e]|e]].
  - destruct (set_nodelay_cases peer nodelay (set_admission c s)) as (s1 & Hs1 & Hc & Ha & Hm).
    assert (∀ B (k : unit → server B), (set_nodelay peer nodelay ≫= k) (set_admission c s) = k tt s1) as Hk
      by (intros; unfold mbind, server_bind; by rewrite Hs1).
    rewrite !Hk. unfold open_admitted.
    destruct (instant_add now _) as [t|m].
    + left. unfold PreauthContext_new, mbind, server_bind. cbn. split; [|done].
      split_and!; cbn; [done|done|by rewrite Hm].
    + right. exists c, g, m. unfold after_drop, on_admission. rewrite Ha.
      destruct (guard_drop _ g now) as [c' r]. by split_and!.
  - left. unfold mbind, server_bind. cbn -[warn_limited].
    destruct (warn_limited _ _ _ _ _ _) as [s1 []]; by split_and!.
  - left. by split_and!.
Qed.

Lemma open_connection_poisoned peer nodelay now s :
  poisoned s → poisoned (open_connection peer nodelay now s).1.
Proof.
  intros Hs. unfold open_connection, mbind, server_bind. unfold on_admission at 1, try_acquire_at, with_lock.
  destruct (admission s) as [adm|] eqn:E; [by destruct (Hs adm)|]. by cbn.
Qed.

Lemma poisoned_ext s s' : admission s' = admission s → poisoned s → poisoned s'.
Proof. unfold poisoned. by intros ->. Qed.

Lemma admit_panic_poisons peer now s m :
  (admit_connection iter peer now s).2 = Panic m → poisoned (admit_connection iter peer now s).1.
Proof.
  unfold admit_connection. rewrite on_admission_bind. unfold try_acquire_at, with_lock.
  destruct (admission s) as [adm|]; cbn -[warn_limited]; [|by intros _ ?].
  destruct (try_acquire _ _ now adm) as [[adm' [[]|e]]|e]; cbn -[warn_limited]; [done| |by intros _ ?].
  unfold mbind, server_bind. cbn -[warn_limited].
  match goal with |- context [warn_limited ?i ?a ?b ?c ?d ?st] =>
    destruct (warn_limited_keys i a b c d st) as (Hw & _); destruct (warn_limited i a b c d st) end.
  cbn in Hw. by subst.
Qed.

Lemma open_connection_inv peer nodelay now s ctxs :
  cfg_ok (from_app_config (config s)) → (¬ poisoned s → conn_inv s ctxs) →
  ¬ poisoned (open_connection peer nodelay now s).1 →
  conn_inv (open_connection peer nodelay now s).1
    (match (open_connection peer nodelay now s).2 with Ret (Opened ctx) => ctx :: ctxs | _ => ctxs end).
Proof.
  intros Hcfg Hi Hp. assert (conn_inv s ctxs) as Hinv
    by (apply Hi; intros Hs; by apply Hp, open_connection_poisoned).
  pose proof Hinv as [(adm & Hadm & Hac & Ha) Hl Hg Hok].
  destruct (open_connection_cases peer nodelay now s) as [[Hsame Hr]|(c & g & m & E & Hsame & Hr)]; rewrite Hr.
  - pose proof (admit_panic_poisons peer now s) as Hpan.
    apply (same_counts_inv _ _ _ Hsame).
    destruct (admit_connection iter peer now s) as [s' [r|m]] eqn:Hadmit; cbn [fst snd map_run] in *.
    + pose proof (admit_inv iter peer now s s' r ctxs Hcfg Hinv Hadmit). by destruct r.
    + exfalso. apply Hp. eapply poisoned_ext; [apply Hsame|]. by eapply Hpan.
  - apply (same_counts_inv _ _ _ Hsame). revert Hp. unfold poisoned. rewrite (proj1 (proj2 Hsame)).
    unfold try_acquire_at, with_lock in E. rewrite Hadm in E.
    destruct (try_acquire _ _ now adm) as [[adm' [[]|e]]|e] eqn:Ht; cbn in E; simplify_eq.
    apply (try_acquire_refines (guarded ctxs)) in Ht as (Hc' & Hi' & Hstep); [|congruence|done].
    cbn in Hi', Hstep. unfold after_drop, on_admission. rewrite guard_drop_release.
    unfold controller_release, with_lock. cbn.
    destruct (release _ _ now adm') as [adm2|] eqn:Hrel; cbn; [|intros Hp; exfalso; by apply Hp; intros ?].
    intros _. apply (release_refines (guarded ctxs)) in Hrel as [Hc2 Hi2]; [|done].
    split; cbn; try done. exists adm2. split_and!; [done|congruence|done].
Qed.

(** Only a poisoned lock makes the unwinding panic. *)
Lemma open_unwound_poisoned peer nodelay now s m e :
  (open_connection peer nodelay now s).2 = Ret (Unwound m (Panic e)) →
  poisoned (open_connection peer nodelay now s).1.
Proof.
  intros H. destruct (open_connection_cases peer nodelay now s) as [[_ Hr]|(c & g & m' & _ & Hsame & Hr)].
  - rewrite Hr in H. by destruct (admit_connection iter peer now s) as [? [[]|]].
  - rewrite Hr in H. eapply poisoned_ext; [apply Hsame|]. unfold after_drop in *.
    eapply drop_panic. by injection H.
Qed.

(** Quiet operations keep the counts as long as the lock is not poisoned. *)
Lemma quietly_inv {A} (m : server A) s ctxs :
  quietly m → (¬ poisoned s → conn_inv s ctxs) → ¬ poisoned (m s).1 → conn_inv (m s).1 ctxs.
Proof.
  intros Hm Hi Hn. destruct (Hm s) as [Hq _].
  destruct (admission (m s).1) as [adm'|] eqn:E; [|exfalso; apply Hn; intros ?; congruence].
  destruct (quiet_admission _ _ Hq adm' E) as (adm & Hadm & _).
  eapply conn_inv_quiet; [exact Hq|exact E|]. apply Hi. intros Hs. by destruct (Hs adm).
Qed.

Lemma auth_succeeded_cases peer ctx now s ctxs :
  (¬ poisoned s → conn_inv s (ctx :: ctxs)) → ¬ poisoned (auth_succeeded peer ctx now s).1 →
  ∃ ctx', (auth_succeeded peer ctx now s).2 = Ret ctx' ∧
    conn_inv (auth_succeeded peer ctx now s).1 (ctx' :: ctxs).
Proof.
  intros Hi Hp. assert (¬ poisoned s) as Hs.
  { intros Hs. apply Hp. unfold auth_succeeded, mark_authenticated. unfold mbind, server_bind.
    destruct (admission_guard ctx) as [g|]; [|done].
    unfold on_admission, guard_mark_authenticated, guard_release. destruct (released g) eqn:Hg.
    { cbn -[guard_drop]. unfold guard_drop, guard_release. rewrite Hg. by cbn. }
    unfold controller_release, with_lock. destruct (admission s) as [adm|] eqn:E; [by destruct (Hs adm)|].
    by cbn. }
  apply Hi in Hs. destruct (auth_succeeded peer ctx now s) as [s' [ctx'|e]] eqn:E; cbn in *.
  - exists ctx'. split; [done|]. by eapply auth_succeeded_inv.
  - exfalso. apply Hp. unfold auth_succeeded, mark_authenticated in E. unfold mbind, server_bind in E.
    destruct (admission_guard ctx) as [g|] eqn:Hg; [|done].
    rewrite (conn_guard _ _ _ _ Hs Hg) in E. unfold on_admission in E.
    rewrite guard_mark_authenticated_release in E. unfold controller_release, with_lock in E.
    destruct (admission s) as [adm|]; [|by simplify_eq; intros ?].
    destruct (release _ _ now adm) as [adm'|]; cbn in E; [done|]. simplify_eq. by intros ?.
Qed.

Lemma quietly_then {A} (m : server A) (ctx : PreauthContext) : quietly m → quietly (_ ← m; mret ctx).
Proof. intros. apply quietly_bind; [done|intros _; apply quietly_ret]. Qed.

Lemma then_ret {A} (m : server A) (ctx : PreauthContext) s :
  (∃ e, ((_ ← m; mret ctx) s).2 = Panic e) ∨ ((_ ← m; mret ctx) s).2 = Ret ctx.
Proof. unfold mbind, server_bind. destruct (m s) as [s' [a|e]]; [by right|left; by eexists]. Qed.

Lemma quietly_password peer now : quietly (auth_password iter peer now).
Proof. apply quietly_bind; [apply quietly_record_auth_failure|intros _; apply quietly_ret]. Qed.

(** A handler that returns keeps the counts; one that panics leaves the context
    to be dropped. *)
Lemma run_handler_inv h peer ctx now s ctxs :
  (¬ poisoned s → conn_inv s (ctx :: ctxs)) → ¬ poisoned (run_handler h peer ctx now s).1 →
  match (run_handler h peer ctx now s).2 with
  | Ret ctx' => conn_inv (run_handler h peer ctx now s).1 (ctx' :: ctxs)
  | Panic _ => conn_inv (run_handler h peer ctx now s).1 (ctx :: ctxs)
  end.
Proof.
  intros Hi Hp.
  assert (Hq : ∀ A (m : server A), quietly m → ¬ poisoned ((_ ← m; mret ctx) s).1 →
    match ((_ ← m; mret ctx) s).2 with
    | Ret ctx' => conn_inv ((_ ← m; mret ctx) s).1 (ctx' :: ctxs)
    | Panic _ => conn_inv ((_ ← m; mret ctx) s).1 (ctx :: ctxs)
    end).
  { intros A m Hm Hn. pose proof (quietly_inv _ s (ctx :: ctxs) (quietly_then m ctx Hm) Hi Hn).
    by destruct (then_ret m ctx s) as [[e ->]| ->]. }
  destruct h as [user key fs|user key fs| |].
  - by apply Hq; [apply quietly_authorize_key|].
  - by apply Hq; [apply quietly_authorize_key|].
  - by apply Hq; [apply quietly_password|].
  - destruct (auth_succeeded_cases (Some peer) ctx now s ctxs Hi Hp) as (ctx' & H1 & H2).
    cbn [run_handler] in *. by rewrite H1.
Qed.

(** Nothing changes the configuration. *)
Definition keeps_config {A} (m : server A) : Prop := ∀ s, config (m s).1 = config s.

Lemma keeps_config_bind {A B} (m : server A) (k : A → server B) :
  keeps_config m → (∀ a, keeps_config (k a)) → keeps_config (m ≫= k).
Proof.
  intros Hm Hk s. unfold mbind, server_bind. specialize (Hm s).
  destruct (m s) as [s1 [a|e]]; cbn in *; [|done]. by rewrite (Hk a s1).
Qed.

Lemma keeps_config_quietly {A} (m : server A) : quietly m → keeps_config m.
Proof. intros Hm s. apply (Hm s). Qed.

Lemma keeps_config_admission {A} (f : mutex AdmissionState → mutex AdmissionState * run A) :
  keeps_config (on_admission f).
Proof. intros s. unfold on_admission. by destruct (f (admission s)). Qed.

Lemma keeps_config_metrics f : keeps_config (on_metrics f).
Proof. done. Qed.

Lemma preauth_drop_config ctx now : keeps_config (preauth_drop ctx now).
Proof.
  unfold preauth_drop. destruct (admission_guard ctx); [|done].
  apply keeps_config_bind; [apply keeps_config_admission|done].
Qed.

Lemma auth_succeeded_config peer ctx now : keeps_config (auth_succeeded peer ctx now).
Proof.
  apply keeps_config_bind; [|done]. apply keeps_config_bind; [|done].
  destruct (admission_guard ctx); [|done]. apply keeps_config_bind; [apply keeps_config_admission|done].
Qed.

Lemma set_nodelay_config peer answer : keeps_config (set_nodelay peer answer).
Proof. intros s. destruct (set_nodelay_cases peer answer s) as (s' & -> & Hs). apply Hs. Qed.

Lemma open_connection_config peer nodelay now : keeps_config (open_connection peer nodelay now).
Proof.
  apply keeps_config_bind; [apply keeps_config_admission|]. intros [g|e].
  - apply keeps_config_bind; [apply set_nodelay_config|]. intros _ s. unfold open_admitted.
    destruct (instant_add _ _); [done|]. pose proof (keeps_config_admission (λ c, guard_drop c g now) s) as H. by destruct (on_admission _ s).
  - apply keeps_config_bind; [done|]. intros _. apply keeps_config_bind; [|done].
    apply keeps_config_quietly, quietly_warn_limited.
Qed.

Lemma run_handler_config h peer ctx now : keeps_config (run_handler h peer ctx now).
Proof.
  destruct h; cbn [run_handler]; [..|apply auth_succeeded_config];
    (apply keeps_config_bind; [apply keeps_config_quietly|done]);
    [apply quietly_authorize_key..|apply quietly_password].
Qed.

Lemma supervise_same peer r s :
  config (supervise peer r s) = config s ∧ admission (supervise peer r s) = admission s ∧
  metrics (supervise peer r s) = metrics s.
Proof. by destruct r as [[]|]. Qed.

(** *** Invariant *)

(** Unless the lock is poisoned the counters count the live connections; and only
    a poisoned lock aborts the daemon. *)
Record daemon_inv (c : Config.AppConfig) (d : daemon) : Prop := {
  daemon_config : config (app d) = c;
  daemon_conns : ¬ poisoned (app d) → conn_inv (app d) (live d);
  daemon_abort : aborted d = true → poisoned (app d);
}.

Lemma live_open d peer rest :
  connections d ≡ₚ Fresh peer :: rest →
  live d ≡ₚ live {| app := app d; loop := loop d; connections := rest; aborted := aborted d |}.
Proof. intros H. destruct d. unfold live. cbn in *. by rewrite H. Qed.

Lemma live_live d peer ctx rest :
  connections d ≡ₚ Live peer ctx :: rest →
  live d ≡ₚ ctx :: live {| app := app d; loop := loop d; connections := rest; aborted := aborted d |}.
Proof. intros H. destruct d. unfold live. cbn in *. by rewrite H. Qed.

Lemma live_closing d peer o rest :
  connections d ≡ₚ Closing peer o :: rest →
  live d ≡ₚ live {| app := app d; loop := loop d; connections := rest; aborted := aborted d |}.
Proof. intros H. destruct d. unfold live. cbn in *. by rewrite H. Qed.

Lemma supervised_inv peer r s ctxs :
  (¬ poisoned s → conn_inv s ctxs) →
  ¬ poisoned (supervise peer r s) → conn_inv (supervise peer r s) ctxs.
Proof.
  destruct (supervise_same peer r s) as (Hc & Ha & Hm). unfold poisoned. rewrite Ha.
  intros Hi Hp. by eapply conn_inv_ext; [..|apply Hi].
Qed.

Lemma opened_inv c peer nodelay now rest d :
  cfg_ok (from_app_config c) → aborted d = false → connections d ≡ₚ Fresh peer :: rest →
  daemon_inv c d → daemon_inv c (opened peer nodelay now rest d).
Proof.
  intros Hcfg Hab Hl [Hc Hi _]. unfold opened.
  pose proof (open_connection_config peer nodelay now (app d)) as Hcc.
  pose proof (open_unwound_poisoned peer nodelay now (app d)) as Hu.
  pose proof (open_connection_inv peer nodelay now (app d)
    (live {| app := app d; loop := loop d; connections := rest; aborted := aborted d |})) as Ho.
  destruct (open_connection peer nodelay now (app d)) as [s r]; cbn [fst snd] in *.
  assert (Ho' : ¬ poisoned s → _) by (apply Ho; [by rewrite Hc|];
    intros Hp; eapply conn_inv_perm; [by apply (live_open d peer)|by apply Hi]).
  assert (∀ m, r = Ret (Unwound m (Ret tt)) ∨ r = Panic m → daemon_inv c (with_app (supervise peer (Panic m) s) rest d))
    as Hpanic.
  { intros m Hr. split; cbn [app with_app aborted]; [rewrite (proj1 (supervise_same peer _ s)); congruence| |congruence].
    apply supervised_inv. by destruct Hr; subst r. }
  destruct r as [[|ctx|m [[]|e]]|m]; try (apply Hpanic; by auto).
  - split; cbn; [congruence|done|congruence].
  - split; cbn; [congruence|done|congruence].
  - split; cbn; [congruence|done|]. intros _. by eapply Hu.
Qed.

Lemma handled_inv c h peer ctx now o rest d :
  aborted d = false → connections d ≡ₚ Live peer ctx :: rest →
  daemon_inv c d → daemon_inv c (handled h peer ctx now o rest d).
Proof.
  intros Hab Hl [Hc Hi _]. unfold handled.
  set (ctxs := live {| app := app d; loop := loop d; connections := rest; aborted := aborted d |}).
  assert (Hlive : ¬ poisoned (app d) → conn_inv (app d) (ctx :: ctxs)).
  { intros Hp. eapply conn_inv_perm; [by apply (live_live d peer)|by apply Hi]. }
  pose proof (run_handler_config h peer ctx now (app d)) as Hcc.
  pose proof (run_handler_inv h peer ctx now (app d) ctxs Hlive) as Hr.
  destruct (run_handler h peer ctx now (app d)) as [s [ctx'|m]]; cbn [fst snd] in *.
  - split; [cbn; congruence|done|cbn; congruence].
  - pose proof (preauth_drop_config ctx now s) as Hdc. pose proof (preauth_drop_cases ctx now s ctxs Hr) as Hd.
    destruct (preauth_drop ctx now s) as [s' [u|m']]; cbn [fst snd] in *.
    + split; [cbn; congruence|intros Hp; by apply Hd|done].
    + split; cbn [app aborted]; [congruence|intros Hp; by apply Hd|]. intros _ adm Ha.
      destruct Hd as [? _]; [|done]. intros Hp. by apply (Hp adm).
Qed.

Lemma daemon_step_inv clock c d d' :
  cfg_ok (from_app_config c) → step clock d d' → daemon_inv c d → daemon_inv c d'.
Proof.
  intros Hcfg [peer d0 [_ Hab]|e d0 [_ Hab]|d0 [_ Hab]|peer nodelay now rest d0 [_ Hab] _ Hl
    |h peer ctx now o rest d0 [_ Hab] _ Hl|peer ctx now o rest d0 [_ Hab] _ Hl|peer o now rest d0 [_ Hab] _ Hl] Hinv.
  - destruct Hinv as [Hc Hi Ha]. split; [done| |done]. intros Hp. eapply conn_inv_perm; [|by apply Hi].
    unfold live, with_app. cbn. rewrite omap_app. cbn. by rewrite app_nil_r.
  - by destruct Hinv.
  - by destruct Hinv.
  - by apply opened_inv.
  - by apply handled_inv.
  - destruct Hinv as [Hc Hi Ha]. split; [cbn; by rewrite (preauth_drop_config ctx now (app d0))| |cbn; congruence].
    intros Hp. eapply (preauth_drop_cases ctx now (app d0)); [|done]. intros Hs.
    eapply conn_inv_perm; [by apply (live_live d0 peer)|by apply Hi].
  - destruct Hinv as [Hc Hi Ha]. unfold finished.
    pose proof (keeps_config_quietly _ (quietly_finish iter peer o now) (app d0)) as Hcc.
    pose proof (quietly_inv (finish_connection iter peer o now) (app d0)
      (live {| app := app d0; loop := loop d0; connections := rest; aborted := aborted d0 |})
      (quietly_finish iter peer o now)) as Hq.
    destruct (finish_connection iter peer o now (app d0)) as [s r]. cbn [fst snd] in *.
    split; cbn [app aborted with_app]; [rewrite (proj1 (supervise_same peer r s)); congruence| |congruence].
    apply supervised_inv. apply Hq. intros Hs.
    eapply conn_inv_perm; [by apply (live_closing d0 peer o)|by apply Hi].
Qed.

Lemma daemon_reachable_inv clock c d0 d :
  cfg_ok (from_app_config c) → daemon_inv c d0 → rtc (step clock) d0 d → daemon_inv c d.
Proof. intros Hcfg Hi H. induction H; [done|]. eauto using daemon_step_inv. Qed.

(** *** Times at which nothing overflows *)

(** The window and the end of a ban are representable instants. *)
Definition clock_ok (c : Config.AppConfig) (now : Instant) : Prop :=
  instant_min ≤ now - Config.auth_failure_ban_window c ∧
  now + Config.auth_failure_ban_duration c ≤ instant_max.

Definition keeps_admission {A} (m : server A) : Prop := ∀ s, admission (m s).1 = admission s.

Lemma keeps_admission_bind {A B} (m : server A) (k : A → server B) :
  keeps_admission m → (∀ a, keeps_admission (k a)) → keeps_admission (m ≫= k).
Proof.
  intros Hm Hk s. unfold mbind, server_bind. specialize (Hm s).
  destruct (m s) as [s1 [a|e]]; cbn in *; [|done]. by rewrite (Hk a s1).
Qed.

Lemma warn_limited_admission peer cat e now : keeps_admission (warn_limited iter peer cat e now).
Proof. intros s. apply warn_limited_keys. Qed.

Lemma is_authorized_admission key now fs :
  keeps_admission (is_authorized iter to_bytes key_error_display entries key now fs).
Proof.
  apply keeps_admission_bind.
  { intros s. unfold refresh_keys. by destruct (AuthorizedKeys.store_refresh_if_due _ _ _ _ _ _). }
  intros [[ev|]|e]; [| |done]; (apply keeps_admission_bind; [|done]); [|done].
  destruct ev; (apply keeps_admission_bind; [done|]); intros _; [done|apply warn_limited_admission..].
Qed.

(** Admission, with a usable state, at a time that does not overflow. *)
Definition usable (c : Config.AppConfig) (s : AppState) : Prop :=
  ∃ adm, admission s = Unpoisoned adm ∧ Admission.config adm = from_app_config c.

Lemma usable_not_poisoned c s : usable c s → ¬ poisoned s.
Proof. intros (adm & H & _) Hp. by apply (Hp adm). Qed.

Lemma conn_inv_usable s ctxs : conn_inv s ctxs → usable (config s) s.
Proof. intros [(adm & Ha & Hc & _) _ _ _]. by exists adm. Qed.

Lemma clock_cutoff c now adm :
  clock_ok c now → Admission.config adm = from_app_config c → cutoff_ok now adm.
Proof. intros [H _] Hc. unfold cutoff_ok, ban_cutoff. by rewrite Hc. Qed.

Lemma record_auth_failure_usable c peer cat reason now s :
  clock_ok c now → usable c s → usable c (record_auth_failure iter peer cat reason now s).1.
Proof.
  intros Hk (adm & Ha & Hc). destruct peer as [p|]; unfold record_auth_failure; unfold mbind, server_bind.
  2: { exists adm. split; [|done]. cbn -[warn_limited]. by rewrite warn_limited_admission. }
  unfold on_admission at 1, record_auth_failure_at, with_lock. rewrite Ha.
  destruct (record_auth_failure_total (sock_ip p) now adm) as (adm' & b & Hr);
    [by eapply clock_cutoff|rewrite Hc; apply Hk|].
  rewrite Hr. apply record_auth_failure_inv in Hr as Hs. cbn -[warn_limited].
  exists adm'. split; [by rewrite warn_limited_admission|]. by rewrite (same_config _ _ Hs).
Qed.

Lemma authorize_key_usable c peer user key now fs s :
  clock_ok c now → usable c s →
  usable c (authorize_key iter to_bytes key_error_display entries algorithm peer user key now fs s).1.
Proof.
  intros Hk Hu.
  assert (Hrec : ∀ cat reason s1, usable c s1 →
    usable c ((_ ← record_auth_failure iter peer cat reason now; mret (@Ok anyhow _ Reject)) s1).1).
  { intros cat reason s1 H1. pose proof (record_auth_failure_usable c peer cat reason now s1 Hk H1) as H.
    unfold mbind, server_bind. by destruct (record_auth_failure _ _ _ _ _ s1) as [s2 []]. }
  unfold authorize_key. unfold mbind at 1, server_bind at 1. cbn [gets].
  destruct (negb _); [by apply Hrec|]. destruct (negb _); [by apply Hrec|].
  unfold mbind at 1, server_bind at 1.
  pose proof (is_authorized_admission key now fs s) as Ha.
  destruct (is_authorized _ _ _ _ key now fs s) as [s1 r]. cbn in Ha.
  assert (usable c s1) as H1 by (destruct Hu as (adm & ? & ?); exists adm; split; congruence).
  destruct r as [[[]|e]|]; [done|by apply Hrec|done..].
Qed.

Lemma release_usable c ip now s adm :
  clock_ok c now → admission s = Unpoisoned adm → Admission.config adm = from_app_config c →
  ∃ adm', controller_release (admission s) ip (subnet_key ip) now = (Unpoisoned adm', Ret tt).
Proof.
  intros Hk Ha Hc. unfold controller_release, with_lock. rewrite Ha.
  destruct (release_total ip (subnet_key ip) now adm) as [adm' Hr]; [by eapply clock_cutoff|].
  rewrite Hr. by eexists.
Qed.

Lemma preauth_drop_usable ctx now s ctxs :
  clock_ok (config s) now → conn_inv s (ctx :: ctxs) → ¬ poisoned (preauth_drop ctx now s).1.
Proof.
  intros Hk Hi. pose proof Hi as [(adm & Ha & Hc & _) _ _ Hok]. unfold preauth_drop.
  destruct (admission_guard ctx) as [g|] eqn:Hg; [|by eapply usable_not_poisoned, conn_inv_usable].
  apply Forall_cons_1 in Hok as [Hctx _]. destruct (Hctx g Hg) as [_ Hsub].
  rewrite (conn_guard _ _ _ _ Hi Hg). unfold mbind, server_bind, on_admission. rewrite guard_drop_release.
  destruct (release_usable (config s) (guard_peer_ip g) now s adm Hk Ha Hc) as [adm' Hr].
  rewrite Hsub, Hr. cbn. intros Hp. by apply (Hp adm').
Qed.

Lemma auth_succeeded_usable peer ctx now s ctxs :
  clock_ok (config s) now → conn_inv s (ctx :: ctxs) → ¬ poisoned (auth_succeeded peer ctx now s).1.
Proof.
  intros Hk Hi. pose proof Hi as [(adm & Ha & Hc & _) _ _ Hok]. unfold auth_succeeded, mark_authenticated.
  unfold mbind, server_bind. destruct (admission_guard ctx) as [g|] eqn:Hg.
  2: { intros Hp. by apply (Hp adm). }
  apply Forall_cons_1 in Hok as [Hctx _]. destruct (Hctx g Hg) as [_ Hsub].
  rewrite (conn_guard _ _ _ _ Hi Hg). unfold on_admission. rewrite guard_mark_authenticated_release.
  destruct (release_usable (config s) (guard_peer_ip g) now s adm Hk Ha Hc) as [adm' Hr].
  rewrite Hsub, Hr. cbn. intros Hp. by apply (Hp adm').
Qed.

Lemma open_connection_usable peer nodelay now s ctxs :
  cfg_ok (from_app_config (config s)) → clock_ok (config s) now → conn_inv s ctxs →
  ¬ poisoned (open_connection peer nodelay now s).1.
Proof.
  intros Hcfg Hk [(adm & Ha & Hc & Hi) _ _ _].
  destruct (try_acquire_total (sock_ip peer) (subnet_key (sock_ip peer)) now adm) as (adm' & r & Ht);
    [by eapply clock_cutoff|].
  unfold open_connection. unfold mbind at 1, server_bind at 1. unfold on_admission at 1, try_acquire_at, with_lock.
  rewrite Ha, Ht. apply (try_acquire_refines (guarded ctxs)) in Ht as (Hc' & _ & _); [|congruence|done].
  destruct r as [[]|e]; cbn -[warn_limited open_admitted set_nodelay].
  - unfold mbind, server_bind.
    destruct (set_nodelay_cases peer nodelay (set_admission (Unpoisoned adm') s)) as (s1 & -> & _ & Ha1 & _).
    unfold open_admitted. destruct (instant_add _ _);
      [intros Hp; apply (Hp adm'); change (admission s1 = Unpoisoned adm'); by rewrite Ha1|].
    unfold on_admission. rewrite Ha1. rewrite guard_drop_release. cbn [admission set_admission].
    destruct (release_usable (config s) (sock_ip peer) now (set_admission (Unpoisoned adm') s) adm' Hk)
      as [adm2 Hr]; [done|congruence|]. cbn [admission set_admission] in Hr. rewrite Hr. intros Hp. by apply (Hp adm2).
  - unfold mbind, server_bind. cbn -[warn_limited].
    match goal with |- context [warn_limited ?i ?a ?b ?c ?d ?st] =>
      pose proof (warn_limited_keys i a b c d st) as (Hw & _ & Hw' & _); destruct (warn_limited i a b c d st) end.
    cbn in Hw, Hw'. subst. cbn. intros Hp. by apply (Hp adm').
Qed.

Lemma run_handler_usable h peer ctx now s ctxs :
  clock_ok (config s) now → conn_inv s (ctx :: ctxs) → ¬ poisoned (run_handler h peer ctx now s).1.
Proof.
  intros Hk Hi. pose proof (conn_inv_usable _ _ Hi) as Hu.
  assert (Hq : ∀ A (m : server A), usable (config s) (m s).1 → ¬ poisoned ((_ ← m; mret ctx) s).1).
  { intros A m H%usable_not_poisoned. unfold mbind, server_bind. by destruct (m s) as [? []]. }
  destruct h as [user key fs|user key fs| |]; [apply Hq..|by eapply auth_succeeded_usable].
  - by apply authorize_key_usable.
  - by apply authorize_key_usable.
  - unfold auth_password. pose proof (record_auth_failure_usable (config s) (Some peer)
      (lit "auth-reject-password") (lit "password authentication is disabled") now s Hk Hu) as H.
    unfold mbind, server_bind. by destruct (record_auth_failure _ _ _ _ _ s) as [s1 []].
Qed.

Lemma record_preauth_error_admission peer err now : keeps_admission (record_preauth_error iter peer err now).
Proof.
  apply keeps_admission_bind; [done|]. intros c. destruct (preauth_timeout_details c err) as [[k ms]|].
  - do 2 (apply keeps_admission_bind; [done|intros _]). apply warn_limited_admission.
  - by destruct (is_malformed_connection_error err).
Qed.

Lemma finish_connection_admission peer o now : keeps_admission (finish_connection iter peer o now).
Proof.
  destruct o as [|err|[] r|[[]|err]]; cbn [finish_connection]; try done.
  - do 3 (apply keeps_admission_bind; [done|intros ?]).
    apply keeps_admission_bind; [apply warn_limited_admission|done].
  - apply keeps_admission_bind; [apply record_preauth_error_admission|done].
  - apply keeps_admission_bind; [apply record_preauth_error_admission|done].
Qed.

Lemma step_usable c d d' :
  cfg_ok (from_app_config c) → daemon_inv c d → ¬ poisoned (app d) → step (clock_ok c) d d' →
  ¬ poisoned (app d').
Proof.
  intros Hcfg [Hc Hi _] Hp Hs. specialize (Hi Hp).
  destruct Hs as [peer d1 _|e d1 _|d1 _|peer nodelay now rest d1 _ Hk Hl|h peer ctx now o rest d1 _ Hk Hl
    |peer ctx now o rest d1 _ Hk Hl|peer o now rest d1 _ Hk Hl]; subst c; [exact Hp..| | | |].
  - pose proof (open_connection_usable peer nodelay now (app d1) _ Hcfg Hk Hi) as H. unfold opened.
    destruct (open_connection peer nodelay now (app d1)) as [s [[|ctx|m [|e]]|m]]; cbn [with_app app fst] in *;
      try done; unfold poisoned; by rewrite (proj1 (proj2 (supervise_same peer (Panic m) s))).
  - apply (conn_inv_perm _ _ _ (live_live d1 peer ctx rest Hl)) in Hi as Hi'.
    pose proof (run_handler_usable h peer ctx now (app d1) _ Hk Hi') as H. unfold handled.
    pose proof (run_handler_config h peer ctx now (app d1)) as Hcc.
    pose proof (run_handler_inv h peer ctx now (app d1) _ (λ _, Hi') H) as Hr.
    destruct (run_handler h peer ctx now (app d1)) as [s [ctx'|m]]; cbn [fst snd] in *; [done|].
    pose proof (preauth_drop_usable ctx now s _ ltac:(by rewrite Hcc) Hr) as Hd.
    by destruct (preauth_drop ctx now s) as [s' r].
  - apply (conn_inv_perm _ _ _ (live_live d1 peer ctx rest Hl)) in Hi as Hi'.
    by apply (preauth_drop_usable ctx now (app d1) _ Hk Hi').
  - unfold finished. pose proof (finish_connection_admission peer o now (app d1)) as Ha.
    destruct (finish_connection iter peer o now (app d1)) as [s r]. cbn in Ha |- *. unfold poisoned.
    by rewrite (proj1 (proj2 (supervise_same peer r s))), Ha.
Qed.

Lemma start_inv c user keys now :
  cfg_ok (from_app_config c) → daemon_inv c (start (bootstrap_state c user keys now)).
Proof. intros Hcfg. split; [done|intros _; by apply bootstrap_conn_inv|done]. Qed.

Lemma reachable_usable c d0 d :
  cfg_ok (from_app_config c) → daemon_inv c d0 → ¬ poisoned (app d0) → rtc (step (clock_ok c)) d0 d →
  daemon_inv c d ∧ ¬ poisoned (app d).
Proof.
  intros Hcfg Hi Hp H. induction H as [d|d d1 d' Hs _ IH]; [done|].
  apply IH; [by eapply daemon_step_inv|by eapply step_usable].
Qed.

(** How the loop can have ended. *)
Lemma loop_ends clock d0 d :
  loop d0 = Accepting → rtc (step clock) d0 d →
  loop d = Accepting ∨ loop d = Returned (Ok tt) ∨ ∃ e, loop d = Returned (io_result (Err e)).
Proof.
  intros H0 H. revert H. apply (rtc_ind_r (λ d, loop d = Accepting ∨ loop d = Returned (Ok tt) ∨
    ∃ e, loop d = Returned (io_result (Err e))) d0); [by left|].
  intros d1 d2 _ Hs IH. destruct Hs as [peer d1 _|e d1 _|d1 _|peer nodelay now rest d1 _ _ _|h peer ctx now o rest d1 _ _ _
    |peer ctx now o rest d1 _ _ _|peer o now rest d1 _ _ _]; [done|right; right; by exists e|by right; left|..].
  - unfold opened. by destruct (open_connection peer nodelay now (app d1)) as [s [[|ctx|m [|e]]|m]].
  - unfold handled. destruct (run_handler h peer ctx now (app d1)) as [s [ctx'|m]]; [done|].
    by destruct (preauth_drop ctx now s).
  - done.
  - unfold finished. by destruct (finish_connection iter peer o now (app d1)).
Qed.
End Daemon.

(** ** Properties *)

Section Properties.
Context (iter : gmap LogKey LogEntry → list (LogKey * LogEntry)).
Context {PublicKey key_error : Type}.
Context (to_bytes : PublicKey → result key_error (list N)).
Context (key_error_display : key_error → str).
Context (entries : str → list (result key_error (str * PublicKey))).
Context (algorithm : PublicKey → Algorithm).

(** C4: whatever the connections do, the daemon counts them right.  Over any
    interleaving of accepted connections, keys tried, sessions that end, fail or
    panic, as long as the admission lock is not poisoned: the gauge of the
    metrics, the counter of admission and the number of live connections that
    are not authenticated agree and stay within the limit; and only a poisoned
    lock can have aborted the daemon. *)
Theorem daemon_counts_its_connections c user keys0 now d :
  ConfigCorrect.config_wf c →
  rtc (step iter to_bytes key_error_display entries algorithm (λ _, True))
      (start (bootstrap_state c user keys0 now)) d →
  (¬ poisoned (app d) →
   ∃ adm, admission (app d) = Unpoisoned adm ∧
     unauthenticated_connections adm = Z.of_nat (length (guarded (live d))) ∧
     Metrics.current_unauthenticated_connections (metrics (app d))
     = Z.of_nat (length (guarded (live d))) ∧
     Z.of_nat (length (guarded (live d))) ≤ Config.max_unauth_connections_global c) ∧
  (aborted d = true → poisoned (app d)).
Proof.
  intros Hwf Hr. assert (cfg_ok (from_app_config c)) as Hcfg by (by apply from_app_config_ok).
  apply (daemon_reachable_inv _ _ _ _ _ _ c) in Hr as [Hc Hi Ha]; [|done|by apply start_inv].
  split; [|done]. intros Hp. destruct (Hi Hp) as [(adm & Hadm & _ & Hadmi) Hl Hg _].
  exists adm. split_and!; [done|apply Hadmi|done|]. destruct Hl as [Hle _]. by rewrite Hc in Hle.
Qed.

(** C15: no client takes the daemon down.  At times at which the window and the
    end of a ban are representable, no interleaving of connections, keys and
    panics poisons the admission lock or aborts the daemon; the accept loop
    ends only when it is told to or when accepting itself fails. *)
Theorem daemon_stays_up c user keys0 now d :
  ConfigCorrect.config_wf c →
  rtc (step iter to_bytes key_error_display entries algorithm (clock_ok c))
      (start (bootstrap_state c user keys0 now)) d →
  aborted d = false ∧ ¬ poisoned (app d) ∧
  (loop d = Accepting ∨ loop d = Returned (Ok tt) ∨ ∃ e, loop d = Returned (io_result (Err e))).
Proof.
  intros Hwf Hr. assert (cfg_ok (from_app_config c)) as Hcfg by (by apply from_app_config_ok).
  assert (loop (start (bootstrap_state c user keys0 now)) = Accepting) as H0 by done.
  pose proof (loop_ends _ _ _ _ _ _ _ _ H0 Hr) as Hloop.
  apply (reachable_usable _ _ _ _ _ c) in Hr as [[Hc _ Ha] Hp]; [|done|by apply start_inv|].
  - split_and!; [|done|done]. destruct (aborted d); [by destruct (Hp (Ha eq_refl))|done].
  - intros Hp. by eapply Hp.
Qed.

(** A ban window too long for the clock turns one failed attempt into an abort.
    When the time of the window's start is no instant, a failed attempt on a
    live connection panics under the admission lock, and the unwinding drops the
    connection's slot, which panics on the poisoned lock. *)
Theorem oversized_ban_window_aborts peer ctx g now o rest d adm :
  admission (app d) = Unpoisoned adm → ¬ cutoff_ok now adm →
  admission_guard ctx = Some g → released g = false →
  aborted (handled iter to_bytes key_error_display entries algorithm
             PasswordTried peer ctx now o rest d) = true.
Proof.
  intros Ha Hw Hg Hrel. unfold handled, run_handler, auth_password, record_auth_failure.
  unfold mbind, server_bind. unfold on_admission at 1, record_auth_failure_at, with_lock. rewrite Ha.
  destruct (Admission.record_auth_failure (sock_ip peer) now adm) as [[adm' b]|e] eqn:E.
  - exfalso. apply Hw. by eapply record_auth_failure_cutoff.
  - unfold preauth_drop. rewrite Hg. unfold mbind, server_bind, on_admission, guard_drop, guard_release.
    rewrite Hrel. by cbn.
Qed.

(** An error before authentication can go unrecorded.  When a session ends
    before authentication both the end of the session and the loss of the
    success signal are ready; if the latter is taken first, a timeout is
    returned as an error but counted nowhere, while in the other order it is
    counted as a timeout. *)
Theorem preauth_timeout_can_go_unrecorded peer err now s kind ms :
  preauth_timeout_details (config s) err = Some (kind, ms) →
  (finish_connection iter peer (SignalFirst false (Err err)) now s) = (s, Ret (Err err)) ∧
  (finish_connection iter peer (SessionFirst (Err err)) now s).2 = Ret (Err err) ∧
  Metrics.preauth_timeouts (metrics (finish_connection iter peer (SessionFirst (Err err)) now s).1)
  = wrapping_add u64_max (Metrics.preauth_timeouts (metrics s)) 1.
Proof.
  intros H. split; [done|]. cbn [finish_connection]. unfold record_preauth_error. unfold mbind, server_bind.
  cbn [gets]. rewrite H. cbn -[warn_limited].
  match goal with |- context [warn_limited ?i ?a ?b ?c ?d ?st] =>
    pose proof (warn_limited_keys i a b c d st) as (Hw & _ & _ & Hm); destruct (warn_limited i a b c d st) end.
  cbn in Hw, Hm. subst. cbn. split; [done|]. by rewrite Hm.
Qed.
End Properties.

(** ** Witnesses *)

Abbreviation demo_step := (step map_to_list AuthorizedKeys.demo_bytes AuthorizedKeys.demo_error
  AuthorizedKeys.demo_entries demo_algorithm) (only parsing).

Definition demo_start : daemon := start demo_server.
Definition demo_accepted : daemon := with_app demo_server [Fresh demo_peer] demo_start.
Definition demo_opened : daemon := opened map_to_list demo_peer (Ok tt) 0 [] demo_accepted.

Lemma demo_opened_reachable clock : clock 0 → rtc (demo_step clock) demo_start demo_opened.
Proof.
  intros Hk. eapply rtc_l; [apply (step_accepted _ _ _ _ _ _ demo_peer); by split|].
  eapply rtc_l; [|apply rtc_refl]. by apply (step_open _ _ _ _ _ _ demo_peer (Ok tt) 0 [] demo_accepted).
Qed.

Lemma demo_config_wf : ConfigCorrect.config_wf ConfigCorrect.demo_defaults.
Proof. repeat constructor; vm_compute; congruence. Qed.

Lemma daemon_counts_its_connections_witness :
  length (guarded (live demo_opened)) = 1%nat ∧
  ∃ adm, admission (app demo_opened) = Unpoisoned adm ∧ unauthenticated_connections adm = 1.
Proof.
  split; [vm_compute; reflexivity|].
  destruct (daemon_counts_its_connections map_to_list AuthorizedKeys.demo_bytes
    AuthorizedKeys.demo_error AuthorizedKeys.demo_entries demo_algorithm
    ConfigCorrect.demo_defaults (lit "alice") demo_keys 0 demo_opened demo_config_wf
    (demo_opened_reachable _ I)) as [H _].
  destruct H as (adm & Ha & Hu & _).
  - intros Hp. eapply Hp. vm_compute. reflexivity.
  - exists adm. split; [exact Ha|]. rewrite Hu. vm_compute. reflexivity.
Defined.

Lemma demo_clock : clock_ok ConfigCorrect.demo_defaults 0.
Proof. split; vm_compute; congruence. Qed.

Lemma daemon_stays_up_witness : aborted demo_opened = false ∧ ¬ poisoned (app demo_opened).
Proof.
  destruct (daemon_stays_up map_to_list AuthorizedKeys.demo_bytes
    AuthorizedKeys.demo_error AuthorizedKeys.demo_entries demo_algorithm
    ConfigCorrect.demo_defaults (lit "alice") demo_keys 0 demo_opened demo_config_wf
    (demo_opened_reachable (clock_ok ConfigCorrect.demo_defaults) demo_clock)) as (H1 & H2 & _).
  split; [exact H1|exact H2].
Defined.

(** The same with a ban window of the longest duration. *)
Definition endless_config : Config.AppConfig :=
  Config.set_auth_failure_ban_window (from_secs u64_max) ConfigCorrect.demo_defaults.
Definition endless_accepted : daemon :=
  with_app (bootstrap_state endless_config (lit "alice") demo_keys 0) [Fresh demo_peer]
    (start (bootstrap_state endless_config (lit "alice") demo_keys 0)).
Definition endless_opened : daemon := opened map_to_list demo_peer (Ok tt) 0 [] endless_accepted.
Definition endless_ctx : PreauthContext := hd_ctx (live endless_opened).

Lemma oversized_ban_window_aborts_witness :
  connections endless_opened = [Live demo_peer endless_ctx] ∧
  aborted (handled map_to_list AuthorizedKeys.demo_bytes AuthorizedKeys.demo_error
             AuthorizedKeys.demo_entries demo_algorithm PasswordTried demo_peer endless_ctx 0
             BannerTimeout [] endless_opened) = true.
Proof.
  split; [vm_compute; reflexivity|].
  eapply (oversized_ban_window_aborts map_to_list AuthorizedKeys.demo_bytes AuthorizedKeys.demo_error
            AuthorizedKeys.demo_entries demo_algorithm).
  - vm_compute. reflexivity.
  - intros H. vm_compute in H. apply H. reflexivity.
  - vm_compute. reflexivity.
  - vm_compute. reflexivity.
Defined.

Definition demo_timeout : anyhow := [IoCause (IoError TimedOut
  (lit "login grace time exceeded before authentication completed"))].

Lemma preauth_timeout_can_go_unrecorded_witness :
  Metrics.preauth_timeouts (metrics
    (finish_connection map_to_list demo_peer (SessionFirst (Err demo_timeout)) 0 demo_server).1) = 1.
Proof.
  destruct (preauth_timeout_can_go_unrecorded map_to_list demo_peer demo_timeout 0 demo_server
              (lit "login-grace-timeout") 15000) as (_ & _ & H).
  - vm_compute. reflexivity.
  - rewrite H. reflexivity.
Defined.

End Daemon.
