(* ===== verification/LogText.v ===== *)
(** * The text of the log (src/src/sshd.rs)

    Server.v and Daemon.v record what is logged as events; here is the line each
    of them becomes, with the formatting of the standard library it goes
    through, and the lines the session handlers write.  Before authentication
    text of a client only gets into a line through [Debug], which escapes it;
    the session handlers print it as it is.

    [shown] stands for the tables of the standard library that say which
    characters beyond ASCII are printed as they are. *)

From S2P Require Import Prelude Rust Net Config ConfigCorrect Admission AdmissionCorrect LogLimiter Metrics AuthorizedKeys Session Server Daemon.

Local Open Scope Z_scope.

Module LogText.
Import Server Daemon.

(** ** Formatting *)

Definition quote : str := [34%N].

Definition hex (n : Z) : str := hex_go 6 n [].

(** [Debug] of a duration: seconds, or the largest unit below, with the digits
    of the fraction that are needed. *)
Fixpoint fraction (fuel : nat) (n unit : Z) : str :=
  match fuel with
  | O => []
  | S fuel => if n =? 0 then [] else dec (n / unit) ++ fraction fuel (n mod unit) (unit / 10)
  end.

Definition decimal (integer n unit : Z) (suffix : str) : str :=
  dec integer ++ (if n =? 0 then [] else lit "." ++ fraction 9 n unit) ++ suffix.

Definition duration_debug (d : Duration) : str :=
  if NANOS_PER_SEC <=? d then decimal (d / NANOS_PER_SEC) (d mod NANOS_PER_SEC) 100000000 (lit "s")
  else if 1000000 <=? d then decimal (d / 1000000) (d mod 1000000) 100000 (lit "ms")
  else if 1000 <=? d then decimal (d / 1000) (d mod 1000) 100 ([181%N] ++ lit "s")
  else decimal d 0 1 (lit "ns").

Definition socket_to_string (a : SocketAddr) : str :=
  match sock_ip a with
  | V4 _ => ip_to_string (sock_ip a) ++ lit ":" ++ dec (sock_port a)
  | V6 _ => lit "[" ++ ip_to_string (sock_ip a) ++ lit "]:" ++ dec (sock_port a)
  end.

Definition peer_label (peer : option SocketAddr) : str :=
  match peer with Some p => socket_to_string p | None => lit "<unknown peer>" end.

Definition channel_debug (ch : Z) : str := lit "ChannelId(" ++ dec ch ++ lit ")".

(** The derived [Debug] of [RejectReason]. *)
Definition reject_reason_debug (r : RejectReason) : str :=
  match r with
  | TooManyUnauthenticatedConnections => lit "TooManyUnauthenticatedConnections"
  | TooManyUnauthenticatedConnectionsForIp => lit "TooManyUnauthenticatedConnectionsForIp"
  | TooManyUnauthenticatedConnectionsForSubnet => lit "TooManyUnauthenticatedConnectionsForSubnet"
  | ConnectionRateLimited => lit "ConnectionRateLimited"
  | TemporarilyBanned => lit "TemporarilyBanned"
  end.

Definition bool_display (b : bool) : str := if b then lit "true" else lit "false".

Section Text.
Context (shown : char → bool).

(** [char::escape_debug] inside a string. *)
Definition escape_char (c : char) : str :=
  if (c =? 0)%N then lit "\0"
  else if (c =? 9)%N then lit "\t"
  else if (c =? 10)%N then lit "\n"
  else if (c =? 13)%N then lit "\r"
  else if (c =? 34)%N then lit "\" ++ quote
  else if (c =? 92)%N then lit "\\"
  else if (if (c <? 128)%N then (32 <=? c)%N && (c <=? 126)%N else shown c) then [c]
  else lit "\u{" ++ hex (Z.of_N c) ++ lit "}".

(** [Debug] of a string. *)
Definition str_debug (s : str) : str := quote ++ flat_map escape_char s ++ quote.

(** ** Lines of the server *)

Inductive Level := LevelInfo | LevelWarn | LevelError.

Definition auth_rejection_log_message (peer : option SocketAddr) (category reason : str)
  (temporary_ban : option bool) : str :=
  match temporary_ban with
  | Some ban =>
      lit "event=auth_rejected peer=" ++ peer_label peer ++ lit " category=" ++ category
      ++ lit " reason=" ++ str_debug reason ++ lit " temporary_ban=" ++ bool_display ban
  | None =>
      lit "event=auth_rejected peer=<unknown> category=" ++ category ++ lit " reason=" ++ str_debug reason
  end.

Definition keys_loaded_line (path : str) (generation ignored : Z) : Level * str :=
  if ignored =? 0 then
    (LevelInfo, lit "event=authorized_keys_reload result=success path=" ++ path ++ lit " generation="
                ++ dec generation)
  else
    (LevelWarn, lit "event=authorized_keys_reload result=success path=" ++ path ++ lit " generation="
                ++ dec generation ++ lit " ignored_entries=" ++ dec ignored ++ lit " message=" ++ quote
                ++ lit "ignored entr" ++ (if ignored =? 1 then lit "y" else lit "ies")
                ++ lit " with unsupported options" ++ quote).

Definition keys_missing_message (path : str) : str :=
  lit "event=authorized_keys_reload result=missing path=" ++ path ++ lit " message=" ++ quote
  ++ lit "keeping the last known-good in-memory cache" ++ quote.

Definition keys_failed_message (path message : str) : str :=
  lit "event=authorized_keys_reload result=failure path=" ++ path ++ lit " message=" ++ quote
  ++ lit "keeping the last known-good in-memory cache" ++ quote ++ lit " error=" ++ str_debug message.

Definition connection_rejected_message (peer : SocketAddr) (reason : RejectReason) : str :=
  lit "event=connection_rejected peer=" ++ socket_to_string peer ++ lit " reason="
  ++ reject_reason_debug reason.

Definition preauth_timeout_message (peer : SocketAddr) (kind : str) (elapsed_ms : Z) : str :=
  lit "event=preauth_timeout peer=" ++ socket_to_string peer ++ lit " kind=" ++ kind
  ++ lit " elapsed_ms=" ++ dec elapsed_ms.

Definition connection_error_line (peer : SocketAddr) (err : anyhow) : str :=
  lit "event=connection_error peer=" ++ socket_to_string peer ++ lit " error=" ++ error_text err.

Definition connection_panic_line (peer : SocketAddr) (message : str) : str :=
  lit "event=connection_panic peer=" ++ socket_to_string peer ++ lit " panic=" ++ str_debug message.

(** A message that went through [warn_limited]. *)
Definition limited_text (window : Duration) (message : str) (suppressed : Z) : str :=
  if suppressed =? 0 then message
  else message ++ lit "; suppressed " ++ dec suppressed ++ lit " similar messages in the last "
       ++ duration_debug window.

(** The line of an event; [elapsed] is the time since the connection was
    accepted, for the one line that has it. *)
Definition event_line (c : Config.AppConfig) (elapsed : Duration) (e : log_event) : Level * str :=
  let path := Config.authorized_keys_file c in
  match e with
  | AuthRejected peer category reason ban =>
      (LevelWarn, auth_rejection_log_message peer category reason ban)
  | AuthAccepted peer =>
      (LevelInfo, lit "event=auth_accepted peer=" ++ peer_label peer
                  ++ lit " authentication=public_key")
  | AuthSucceeded peer => (LevelInfo, lit "event=auth_success peer=" ++ peer_label peer)
  | KeysReloaded generation ignored => keys_loaded_line path generation ignored
  | KeysMissing => (LevelWarn, keys_missing_message path)
  | KeysReloadFailed message => (LevelWarn, keys_failed_message path message)
  | ConnectionRejected peer reason => (LevelWarn, connection_rejected_message peer reason)
  | PreauthTimeout peer kind elapsed_ms => (LevelWarn, preauth_timeout_message peer kind elapsed_ms)
  | AuthCompleted peer =>
      (LevelInfo, lit "authentication completed for " ++ socket_to_string peer ++ lit " in "
                  ++ duration_debug elapsed)
  | ConnectionError peer err => (LevelWarn, connection_error_line peer err)
  | ConnectionPanic peer message => (LevelError, connection_panic_line peer message)
  | NoDelayFailed peer err =>
      (LevelWarn, lit "failed to enable TCP_NODELAY for " ++ socket_to_string peer ++ lit ": " ++ io_message err)
  end.

Definition log_line (c : Config.AppConfig) (window elapsed : Duration) (entry : log_event * Z)
  : Level * str :=
  let '(level, text) := event_line c elapsed entry.1 in (level, limited_text window text entry.2).

(** The whole log of a server. *)
Definition log_lines (elapsed : Duration) (s : AppState) : list (Level * str) :=
  log_line (config s) (window (limiter_config (log_limiter s))) elapsed <$> log s.
End Text.

(** ** Lines of the session handlers *)

Definition channel_open_session_line (ch : Z) (peer : option SocketAddr) : Level * str :=
  (LevelInfo, lit "opened session channel " ++ channel_debug ch ++ lit " from " ++ peer_label peer).

Definition direct_tcpip_line (c : Config.AppConfig) (ch : Z) (host : str) (port : Z)
  (originator : str) (originator_port : Z) (connect : result anyhow unit) : Level * str :=
  if negb (Config.allow_tcp_forwarding c) then (LevelWarn, lit "direct-tcpip denied by config")
  else match try_from u16_max port with
       | None => (LevelWarn, lit "direct-tcpip denied due to invalid target port " ++ dec port)
       | Some _ =>
           match connect with
           | Ok _ =>
               (LevelInfo, lit "direct-tcpip " ++ host ++ lit ":" ++ dec port ++ lit " from "
                           ++ originator ++ lit ":" ++ dec originator_port ++ lit " on channel "
                           ++ channel_debug ch)
           | Err err =>
               (LevelWarn, lit "direct-tcpip connect " ++ host ++ lit ":" ++ dec port
                           ++ lit " failed: " ++ error_text err)
           end
       end.

Definition env_request_lines (ch : Z) (name : str) : list (Level * str) :=
  if Session.is_env_allowed name then []
  else [(LevelWarn, lit "rejected env " ++ name ++ lit " on channel " ++ channel_debug ch)].

(** [what] is shell, exec or sftp. *)
Definition launch_lines (what : str) (ch : Z) (started : result anyhow unit) : list (Level * str) :=
  match started with
  | Ok _ => []
  | Err err =>
      [(LevelError, lit "failed to start " ++ what ++ lit " on channel " ++ channel_debug ch
                    ++ lit ": " ++ error_text err)]
  end.

Definition cancel_forward_line (address : str) (port : Z) : Level * str :=
  (LevelInfo, lit "cancelled remote forward " ++ address ++ lit ":" ++ dec port).

(** On the answer of the executor: the port bound and the token. *)
Definition tcpip_forward_lines (c : Config.AppConfig) (addr : str) (port : Z)
  (start : result anyhow (Z * Z)) (h : Session.ClientHandler) : list (Level * str) :=
  if negb (Config.allow_remote_forwarding c) then [(LevelWarn, lit "tcpip-forward denied by config")]
  else
    let bind_host := if Config.gateway_ports c
                     then (if bool_decide (addr = []) then lit "0.0.0.0" else addr)
                     else lit "127.0.0.1" in
    match try_from u16_max port with
    | None => []
    | Some requested_port =>
        let connected_address := if bool_decide (addr = []) then bind_host else addr in
        match Session.remote_forwards h !! {| Session.address := addr; Session.forward_port := requested_port |} with
        | Some _ =>
            [(LevelWarn, lit "duplicate tcpip-forward request for " ++ addr ++ lit ":" ++ dec requested_port)]
        | None =>
            match start with
            | Ok (bound_port, _) =>
                [(LevelInfo, lit "accepted remote forward " ++ connected_address ++ lit ":" ++ dec bound_port
                             ++ lit " (bound by executor on " ++ bind_host ++ lit ":" ++ dec bound_port
                             ++ lit ")")]
            | Err err =>
                [(LevelWarn, lit "failed to bind remote forward " ++ bind_host ++ lit ":"
                             ++ dec requested_port ++ lit ": " ++ error_text err)]
            end
        end
    end.

(** ** Lines without a break *)

Definition single_line (s : str) : Prop := Forall (λ c, c ≠ 10%N) s.

#[global] Instance single_line_dec s : Decision (single_line s) := _.

(** A literal is single-line by evaluation; concatenations split. *)
Ltac single_lit := apply (bool_decide_unpack _); vm_compute; exact I.

Lemma single_app s t : single_line (s ++ t) ↔ single_line s ∧ single_line t.
Proof. apply Forall_app. Qed.

Lemma single_dec_go fuel n acc : single_line acc → single_line (dec_go fuel n acc).
Proof.
  revert n acc. induction fuel as [|fuel IH]; intros n acc H; cbn [dec_go]; [done|].
  assert (single_line ((48 + Z.to_N (n mod 10))%N :: acc)) by (constructor; [lia|done]).
  destruct (n <? 10); [done|by apply IH].
Qed.

Lemma single_dec n : single_line (dec n).
Proof. apply single_dec_go. constructor. Qed.

Lemma single_hex_go fuel n acc : single_line acc → single_line (hex_go fuel n acc).
Proof.
  revert n acc. induction fuel as [|fuel IH]; intros n acc H; cbn [hex_go]; [done|].
  assert (single_line ((if (Z.to_N (n mod 16) <? 10)%N then (48 + Z.to_N (n mod 16))%N
                        else (87 + Z.to_N (n mod 16))%N) :: acc)) as Ha.
  { constructor; [|done]. case_match; lia. }
  destruct (n <? 16); [done|by apply IH].
Qed.

Lemma single_join sep ws : single_line sep → Forall single_line ws → single_line (join_with sep ws).
Proof.
  intros Hs H. induction H as [|w ws Hw Hws IH]; [constructor|].
  destruct ws as [|w' ws]; [done|]. rewrite join_with_cons. by rewrite !single_app.
Qed.

Lemma single_ip ip : single_line (ip_to_string ip).
Proof.
  assert (∀ v, single_line (ipv4_to_string v)) as H4.
  { intros v. apply single_join; [single_lit|]. repeat constructor; apply single_dec. }
  assert (∀ l, single_line (join_with (lit ":") (hex16 <$> l))) as H6.
  { intros l. apply single_join; [single_lit|]. apply Forall_fmap, Forall_true. intros n.
    apply single_hex_go. constructor. }
  destruct ip as [v|v]; [apply H4|]. unfold ip_to_string, ipv6_to_string.
  case_bool_decide; [apply single_app; split; [single_lit|apply H4]|].
  destruct (zeroes_go _ _ _ _) as [start n]. case_match; [|apply H6].
  rewrite !single_app. split_and!; [apply H6|single_lit|apply H6].
Qed.

Lemma single_error_text e : Forall (λ c, single_line (cause_text c)) e → single_line (error_text e).
Proof. intros H. apply single_join; [single_lit|]. by apply Forall_fmap. Qed.

(** Splits a concatenation into its parts and proves the literal and the
    formatted ones. *)
Ltac single_parts :=
  rewrite ?single_app; split_and?;
  try match goal with
      | |- single_line (lit _) => single_lit
      | |- single_line quote => single_lit
      | |- single_line (dec _) => apply single_dec
      | |- single_line (ip_to_string _) => apply single_ip
      end.

Lemma single_socket a : single_line (socket_to_string a).
Proof. unfold socket_to_string. destruct (sock_ip a); single_parts. Qed.

Lemma single_peer p : single_line (peer_label p).
Proof. destruct p; [apply single_socket|single_lit]. Qed.

Lemma single_fraction fuel n unit : single_line (fraction fuel n unit).
Proof.
  revert n unit. induction fuel as [|fuel IH]; intros n unit; cbn [fraction]; [constructor|].
  destruct (n =? 0); [constructor|]. single_parts. apply IH.
Qed.

Lemma single_duration d : single_line (duration_debug d).
Proof.
  assert (∀ i n u s, single_line s → single_line (decimal i n u s)) as H.
  { intros i n u s Hs. unfold decimal. single_parts; [|done].
    destruct (n =? 0); [constructor|]. single_parts. apply single_fraction. }
  unfold duration_debug. repeat (case_match; [apply H; single_lit|]). apply H. single_lit.
Qed.

Section Single.
Context (shown : char → bool).

(** [Debug] escapes every line break. *)
Lemma single_debug s : single_line (str_debug shown s).
Proof.
  unfold str_debug. single_parts. induction s as [|c s IH]; [constructor|].
  simpl. apply single_app. split; [|done]. unfold escape_char.
  repeat (case_match; [by single_parts || (constructor; [bool_to_prop; lia|constructor])|]).
  single_parts. apply single_hex_go. constructor.
Qed.

(** The static texts of an event: what the code passes as category and kind. *)
Definition event_ok (e : log_event) : Prop :=
  match e with
  | AuthRejected _ category _ _ => single_line category
  | PreauthTimeout _ kind _ => single_line kind
  | _ => True
  end.

(** Errors of a connection are worded by the libraries it went through, one of its
    socket by the system. *)
Definition worded_here (e : log_event) : Prop :=
  match e with ConnectionError _ _ | NoDelayFailed _ _ => False | _ => True end.

Lemma event_line_single c elapsed e :
  single_line (Config.authorized_keys_file c) → event_ok e → worded_here e →
  single_line (event_line shown c elapsed e).2.
Proof.
  intros Hp He Hw. destruct e as [peer cat reason [ban|]|peer|peer|g i| |m|peer r|peer k ms|peer|peer err|peer m|peer err];
    cbn [event_line snd event_ok worded_here] in *; try done.
  - unfold auth_rejection_log_message. single_parts; [apply single_peer|done|apply single_debug|].
    destruct ban; single_lit.
  - unfold auth_rejection_log_message. single_parts; [done|apply single_debug].
  - single_parts. apply single_peer.
  - single_parts. apply single_peer.
  - unfold keys_loaded_line. destruct (i =? 0); cbn [snd]; single_parts; [done..|].
    destruct (i =? 1); single_lit.
  - unfold keys_missing_message. by single_parts.
  - unfold keys_failed_message. single_parts; [done|apply single_debug].
  - unfold connection_rejected_message. single_parts; [apply single_socket|]. destruct r; single_lit.
  - unfold preauth_timeout_message. single_parts; [apply single_socket|done].
  - single_parts; [apply single_socket|]. apply single_duration.
  - unfold connection_panic_line. single_parts; [apply single_socket|apply single_debug].
Qed.

Lemma log_line_single c w elapsed e n :
  single_line (Config.authorized_keys_file c) → event_ok e → worded_here e →
  single_line (log_line shown c w elapsed (e, n)).2.
Proof.
  intros Hp He Hw. pose proof (event_line_single c elapsed e Hp He Hw) as H.
  unfold log_line. cbn [fst snd]. destruct (event_line shown c elapsed e) as [level text]. cbn [snd] in *.
  unfold limited_text. destruct (n =? 0); [done|]. single_parts; [done|]. apply single_duration.
Qed.
End Single.

(** ** What gets logged *)

(** Operations that keep a predicate of the events in the log. *)
Definition logs {A} (P : log_event → Prop) (m : server A) : Prop :=
  ∀ s, Forall P (log s).*1 → Forall P (log (m s).1).*1.

Lemma logs_bind {A B} P (m : server A) (k : A → server B) :
  logs P m → (∀ a, logs P (k a)) → logs P (m ≫= k).
Proof.
  intros Hm Hk s H. unfold mbind, server_bind. specialize (Hm s H).
  destruct (m s) as [s1 [a|e]]; cbn in *; [|done]. by apply Hk.
Qed.

Lemma logs_admission {A} P (f : mutex AdmissionState → mutex AdmissionState * run A) :
  logs P (on_admission f).
Proof. intros s H. unfold on_admission. by destruct (f (admission s)). Qed.

Lemma logs_write P (e : log_event) n : P e → logs P (write_log e n).
Proof. intros He s H. cbn. rewrite fmap_app. apply Forall_app. split; [done|]. by constructor. Qed.

Lemma logs_silent {A} P (m : server A) : (∀ s, log (m s).1 = log s) → logs P m.
Proof. intros Hm s H. by rewrite Hm. Qed.

Section Logs.
Context (iter : gmap LogKey LogEntry → list (LogKey * LogEntry)).
Context {PublicKey key_error : Type}.
Context (to_bytes : PublicKey → result key_error (list N)).
Context (key_error_display : key_error → str).
Context (entries : str → list (result key_error (str * PublicKey))).
Context (algorithm : PublicKey → Algorithm).

Lemma logs_warn P peer cat e now : P e → logs P (warn_limited iter peer cat e now).
Proof.
  intros He s H. unfold warn_limited, mbind, server_bind. cbn.
  destruct (check iter _ now (log_limiter s)) as [l [n|]]; cbn; [|done].
  rewrite fmap_app. apply Forall_app. split; [done|]. by constructor.
Qed.

(** One step through an operation: its parts, and the lines it writes. *)
Ltac log_step :=
  first [ apply logs_admission
        | apply logs_warn; cbn [event_ok]; (done || single_lit)
        | apply logs_write; done
        | apply logs_bind; [|intros ?]
        | apply logs_silent; done ].
Ltac log_steps := repeat log_step.

Lemma logs_failure peer cat reason now :
  single_line cat → logs event_ok (record_auth_failure iter peer cat reason now).
Proof. intros Hc. destruct peer as [p|]; cbn [record_auth_failure]; log_steps. Qed.

Lemma logs_reload ev now : logs event_ok (log_authorized_keys_reload iter ev now).
Proof. destruct ev; cbn [log_authorized_keys_reload]; log_steps. Qed.

Lemma logs_refresh now fs :
  logs event_ok (refresh_keys to_bytes key_error_display entries now fs).
Proof. apply logs_silent. intros s. unfold refresh_keys. by case_match. Qed.

Lemma logs_authorize peer user key now fs :
  logs event_ok (authorize_key iter to_bytes key_error_display entries algorithm peer user key now fs).
Proof.
  unfold authorize_key. log_step; [log_step|].
  destruct (negb _); [log_step; [apply logs_failure; single_lit|log_step]|].
  destruct (negb _); [log_step; [apply logs_failure; single_lit|log_step]|].
  log_step.
  - unfold is_authorized. log_step; [apply logs_refresh|]. destruct a0 as [[ev|]|e]; log_steps.
    apply logs_reload.
  - destruct a0 as [[]|e]; log_steps. apply logs_failure. single_lit.
Qed.

Lemma logs_drop ctx now : logs event_ok (preauth_drop ctx now).
Proof. unfold preauth_drop. destruct (admission_guard ctx); log_steps. Qed.

Lemma logs_handler h peer ctx now :
  logs event_ok (run_handler iter to_bytes key_error_display entries algorithm h peer ctx now).
Proof.
  destruct h as [user key fs|user key fs| |]; cbn [run_handler].
  - log_step; [apply logs_authorize|log_step].
  - log_step; [apply logs_authorize|log_step].
  - unfold auth_password. log_step; [|log_step]. log_step; [apply logs_failure; single_lit|log_step].
  - unfold auth_succeeded, mark_authenticated. log_step; [|log_steps]. log_step; [|log_step].
    destruct (admission_guard ctx); log_steps.
Qed.

Lemma logs_nodelay peer answer : logs event_ok (set_nodelay peer answer).
Proof. unfold set_nodelay. log_step; [log_step|]. destruct answer; [log_step|]. destruct (Config.nodelay a); log_step. Qed.

Lemma logs_open peer nodelay now : logs event_ok (open_connection iter peer nodelay now).
Proof.
  unfold open_connection. log_step; [log_step|]. destruct a as [g|e]; [|log_steps].
  log_step; [apply logs_nodelay|]. intros s H. unfold open_admitted. destruct (instant_add _ _); [done|].
  pose proof (logs_admission event_ok (λ c, guard_drop c g now) s H) as Hd.
  by destruct (on_admission _ s).
Qed.

Lemma logs_preauth_error peer err now : logs event_ok (record_preauth_error iter peer err now).
Proof.
  unfold record_preauth_error. log_step; [log_step|]. unfold preauth_timeout_details.
  destruct (is_login_grace_timeout err); [log_steps|]. destruct (is_kex_start_timeout err); [log_steps|].
  destruct (is_malformed_connection_error err); log_steps.
Qed.

Lemma logs_finish peer o now : logs event_ok (finish_connection iter peer o now).
Proof.
  destruct o as [|err|[] r|[[]|err]]; cbn [finish_connection]; try (log_steps; done);
    (log_step; [apply logs_preauth_error|log_step]).
Qed.

Lemma logs_supervise peer r s :
  Forall event_ok (log s).*1 → Forall event_ok (log (supervise peer r s)).*1.
Proof. destruct r as [[]|]; [done| |]; intros H; by apply logs_write. Qed.

Abbreviation daemon_step := (step iter to_bytes key_error_display entries algorithm) (only parsing).

Lemma step_logs clock d d' :
  daemon_step clock d d' → Forall event_ok (log (app d)).*1 → Forall event_ok (log (app d')).*1.
Proof.
  destruct 1 as [peer d H|e d H|d H|peer nodelay now rest d H Hn Hc|h peer ctx now o rest d H Hn Hc
    |peer ctx now o rest d H Hn Hc|peer o now rest d H Hn Hc]; intros Hl; try done.
  - pose proof (logs_open peer nodelay now (app d) Hl) as Ho. unfold opened.
    destruct (open_connection iter peer nodelay now (app d)) as [s [[|ctx|m [|e]]|m]]; try done; by apply logs_supervise.
  - pose proof (logs_handler h peer ctx now (app d) Hl) as Hh. unfold handled.
    destruct (run_handler _ _ _ _ _ h peer ctx now (app d)) as [s [ctx'|m]]; [done|].
    pose proof (logs_drop ctx now s Hh) as Hd. by destruct (preauth_drop ctx now s).
  - by apply logs_drop.
  - pose proof (logs_finish peer o now (app d) Hl) as Hf. unfold finished.
    destruct (finish_connection iter peer o now (app d)) as [s r]. by apply logs_supervise.
Qed.

Lemma reachable_logs clock d d' :
  rtc (daemon_step clock) d d' → Forall event_ok (log (app d)).*1 → Forall event_ok (log (app d')).*1.
Proof. induction 1 as [|d1 d2 d3 H12 _ IH]; [done|]. intros Hl. eapply IH, step_logs; done. Qed.

(** ** Properties *)

(** C19: before authentication no client can break a log line.  Whatever
    connections, keys, algorithms and passwords arrive, in whatever order, each
    entry of the log is one line: text that comes from a client only gets there
    through [Debug], which escapes line breaks.  It takes a configured path of the
    authorized keys file without a line break.  The exceptions are errors of a
    connection, whose wording is that of the SSH library, and the error of a
    socket that cannot be set up, worded by the system; neither has text of a
    client from this code. *)
Theorem preauth_log_lines_are_single shown clock c user keys0 now d elapsed i e n :
  ConfigCorrect.config_wf c → single_line (Config.authorized_keys_file c) →
  rtc (daemon_step clock) (start (bootstrap_state c user keys0 now)) d →
  log (app d) !! i = Some (e, n) → worded_here e →
  ∃ level text, log_lines shown elapsed (app d) !! i = Some (level, text) ∧ single_line text.
Proof.
  intros Hwf Hp Hr He Hw. assert (cfg_ok (from_app_config c)) as Hcfg by (by apply from_app_config_ok).
  assert (config (app d) = c) as Hc.
  { apply (daemon_reachable_inv _ _ _ _ _ _ c) in Hr; [by destruct Hr|done|by apply start_inv]. }
  apply reachable_logs in Hr; [|constructor].
  unfold log_lines. rewrite list_lookup_fmap, He, Hc. cbn [fmap option_fmap option_map].
  destruct (log_line shown c _ elapsed (e, n)) as [level text] eqn:E. exists level, text.
  split; [done|].
  assert (event_ok e) as Hok.
  { rewrite Forall_fmap in Hr. eapply (Forall_lookup_1 _ _ _ _ Hr) in He. done. }
  pose proof (log_line_single shown c (window (limiter_config (log_limiter (app d)))) elapsed e n Hp Hok Hw)
    as Hs. by rewrite E in Hs.
Qed.

(** A login name leaves no trace.  Two attempts with keys under names that
    are not the daemon's user do exactly the same to the server, the log
    included, whatever the names and the keys: neither the client nor a reader
    of the log learns which names were tried. *)
Theorem login_names_leave_no_trace peer user1 user2 key1 key2 now fs1 fs2 s :
  user1 ≠ daemon_username s → user2 ≠ daemon_username s →
  authorize_key iter to_bytes key_error_display entries algorithm peer user1 key1 now fs1 s
  = authorize_key iter to_bytes key_error_display entries algorithm peer user2 key2 now fs2 s.
Proof.
  intros H1 H2. unfold authorize_key, mbind, server_bind, gets, login_user_matches_daemon.
  by rewrite !bool_decide_false by done.
Qed.
End Logs.

(** After authentication the lines print text of the client as it is: a
    variable name with a line break in it breaks the line. *)
Theorem session_log_lines_can_break ch name :
  Session.is_env_allowed name = false → ¬ single_line name →
  ∃ text, env_request_lines ch name = [(LevelWarn, text)] ∧ ¬ single_line text.
Proof.
  intros He Hn. unfold env_request_lines. rewrite He. eexists. split; [done|].
  rewrite !single_app. tauto.
Qed.

(** ** Examples and witnesses *)

Example duration_examples :
  duration_debug (from_secs 30) = lit "30s" ∧ duration_debug 1500000000 = lit "1.5s" ∧
  duration_debug 2050000 = lit "2.05ms" ∧ duration_debug 0 = lit "0ns".
Proof. vm_compute. done. Qed.

Example debug_example :
  str_debug (λ _, true) [97%N; 10%N; 34%N; 127%N] = quote ++ lit "a\n\" ++ quote ++ lit "\u{7f}" ++ quote.
Proof. vm_compute. done. Qed.

Definition demo_ctx : PreauthContext := hd_ctx (live demo_opened).
Definition demo_tried : daemon :=
  handled map_to_list AuthorizedKeys.demo_bytes AuthorizedKeys.demo_error AuthorizedKeys.demo_entries
    demo_algorithm PasswordTried demo_peer demo_ctx 0 BannerTimeout [] demo_opened.

Definition demo_line : str := (default (LevelInfo, []) (head (log_lines (λ _, true) 0 (app demo_tried)))).2.

Example demo_line_text :
  demo_line = lit "event=auth_rejected peer=" ++ socket_to_string demo_peer
              ++ lit " category=auth-reject-password reason=" ++ quote
              ++ lit "password authentication is disabled" ++ quote ++ lit " temporary_ban=false".
Proof. vm_compute. done. Qed.

Lemma demo_tried_reachable : rtc (demo_step (λ _, True)) demo_start demo_tried.
Proof.
  eapply rtc_r; [by apply demo_opened_reachable|].
  apply (step_handler _ _ _ _ _ _ PasswordTried demo_peer demo_ctx 0 BannerTimeout [] demo_opened);
    [by split|done|vm_compute; reflexivity].
Qed.

Lemma preauth_log_lines_are_single_witness : single_line demo_line.
Proof.
  destruct (preauth_log_lines_are_single map_to_list AuthorizedKeys.demo_bytes
    AuthorizedKeys.demo_error AuthorizedKeys.demo_entries demo_algorithm (λ _, true) (λ _, True)
    ConfigCorrect.demo_defaults (lit "alice") demo_keys 0 demo_tried 0 0%nat
    (AuthRejected (Some demo_peer) (lit "auth-reject-password")
       (lit "password authentication is disabled") (Some false)) 0)
    as (level & text & Hl & Hs).
  - exact demo_config_wf.
  - single_lit.
  - exact demo_tried_reachable.
  - vm_compute. reflexivity.
  - exact I.
  - unfold demo_line. rewrite head_lookup, Hl. exact Hs.
Defined.

Lemma login_names_leave_no_trace_witness :
  authorize_key map_to_list AuthorizedKeys.demo_bytes AuthorizedKeys.demo_error AuthorizedKeys.demo_entries
    demo_algorithm (Some demo_peer) (lit "root") (lit "bob") 0 AuthorizedKeys.demo_fs demo_server
  = authorize_key map_to_list AuthorizedKeys.demo_bytes AuthorizedKeys.demo_error AuthorizedKeys.demo_entries
      demo_algorithm (Some demo_peer) (lit "admin") (lit "eve") 0 AuthorizedKeys.large_fs demo_server.
Proof. apply login_names_leave_no_trace; vm_compute; congruence. Defined.
End LogText.
