(* ===== verification/Framing.v ===== *)
(** * Session messages and their framing

    The executor side (src/src/executor.rs, [read_session_message] and
    [send_session_message]) and the daemon side (src/src/sshd.rs,
    [read_process_message] and [send_process_message]) of a process session
    exchange JSON messages, each preceded by its length as a big-endian [u32].
    A reader accepts at most one mebibyte, a writer anything a [u32] counts.

    The JSON encoding itself is serde_json's: the class [Serde] is what the
    code calls, and [SerdeLaws] that a value it encodes decodes to itself. *)

From S2P Require Import Prelude Rust Config Session.

Local Open Scope Z_scope.

Module Framing.

Abbreviation bytes := (list N) (only parsing).

Definition MAX_SESSION_MESSAGE_SIZE : Z := 1024 * 1024.

(** ** Messages *)

Inductive ExecutorSignal :=
| Abrt | Alrm | Fpe | Hup | Ill | Int | Kill | Pipe | Quit | Segv | Term | Usr1.

Inductive ProcessInput :=
| Data (data : bytes)
| Signal (signal : ExecutorSignal)
| Resize (size : Session.PtySize)
| Eof
| Close.

Inductive ProcessOutput :=
| Stdout (data : bytes)
| Stderr (data : bytes)
| ExitStatus (code : Z).

(** [serde_json::to_vec] and [serde_json::from_slice] at one message type;
    an error is its text. *)
Class Serde (T : Type) := {
  to_vec : T → result str bytes;
  from_slice : bytes → result str T;
}.

Class SerdeLaws (T : Type) `{!Serde T} : Prop :=
  from_slice_to_vec (m : T) p : to_vec m = Ok p → from_slice p = Ok m.

Definition encode_message `{Serde T} (message : T) (context : str) : result anyhow bytes :=
  with_context context (map_err (λ e, [Msg e]) (to_vec message)).

Definition decode_message `{Serde T} (payload : bytes) (context : str) : result anyhow T :=
  with_context context (map_err (λ e, [Msg e]) (from_slice payload)).

(** ** Byte streams

    The read half of a stream: the bytes the peer has still to deliver and what
    follows them, a shutdown ([None]) or an error.  The write half: the bytes
    written so far and, for a stream that will break, how many more bytes it
    takes and the error it then gives. *)

Record reader := { available : bytes; end_error : option io_error }.
Record writer := { written : bytes; room : option (nat * io_error) }.

Definition end_of (r : reader) : io_error :=
  default (IoError UnexpectedEof (lit "early eof")) (end_error r).

(** [AsyncReadExt::read_exact]. *)
Definition read_exact (n : Z) (r : reader) : reader * result io_error bytes :=
  let n := Z.to_nat n in
  if decide (n ≤ length (available r))%nat
  then ({| available := drop n (available r); end_error := end_error r |}, Ok (take n (available r)))
  else ({| available := []; end_error := end_error r |}, Err (end_of r)).

(** [AsyncWriteExt::write_all]. *)
Definition write_all (data : bytes) (w : writer) : writer * result io_error unit :=
  match room w with
  | None => ({| written := written w ++ data; room := None |}, Ok tt)
  | Some (k, e) =>
      if decide (length data ≤ k)%nat
      then ({| written := written w ++ data; room := Some ((k - length data)%nat, e) |}, Ok tt)
      else ({| written := written w ++ take k data; room := Some (0%nat, e) |}, Err e)
  end.

(** Big-endian [u32]. *)
Definition u32_to_be (n : Z) : bytes :=
  [Z.to_N (Z.shiftr n 24); Z.to_N (Z.land (Z.shiftr n 16) 255);
   Z.to_N (Z.land (Z.shiftr n 8) 255); Z.to_N (Z.land n 255)].

Definition u32_from_be (bs : bytes) : Z :=
  foldl (λ acc b, acc * 256 + Z.of_N b) 0 bs.

Definition read_u32 (r : reader) : reader * result io_error Z :=
  let '(r, bs) := read_exact 4 r in (r, map_ok u32_from_be bs).
Definition write_u32 (n : Z) (w : writer) : writer * result io_error unit :=
  write_all (u32_to_be n) w.

(** ** One message

    The texts of the error contexts of the two sides, over one body: the
    functions of the two sides differ in nothing else. *)

Record texts := {
  on_length : str; on_limit : Z → str; on_body : str; on_decode : str;
  on_encode : str; on_size : str;
}.

Section Frames.
Context {T : Type} `{!Serde T} (x : texts).

Definition read_message (r : reader) : reader * result anyhow (option T) :=
  let '(r, length) := read_u32 r in
  match length with
  | Err e =>
      (r, if decide (kind e = UnexpectedEof) then Ok None
          else with_context (on_length x) (Err [IoCause e]))
  | Ok length =>
      if MAX_SESSION_MESSAGE_SIZE <? length then (r, bail (on_limit x length))
      else
        let '(r, buffer) := read_exact length r in
        (r, buffer ← with_context (on_body x) (io_result buffer);
            message ← decode_message buffer (on_decode x);
            Ok (Some message))
  end.

Definition send_message (message : T) (w : writer) : writer * result anyhow unit :=
  match encode_message message (on_encode x) with
  | Err e => (w, Err e)
  | Ok payload =>
      match try_from u32_max (Z.of_nat (length payload)) with
      | None => (w, Err [Msg (on_size x); Msg (lit "out of range integral type conversion attempted")])
      | Some length =>
          let '(w, r) := write_u32 length w in
          match r with
          | Err e => (w, Err [IoCause e])
          | Ok _ => let '(w, r) := write_all payload w in (w, io_result r)
          end
      end
  end.

(** [while let Some(message) = read(reader).await?]: the messages read and how
    the loop ended, [None] when [fuel] ran out. *)
Fixpoint read_loop (fuel : nat) (r : reader) : list T * option (result anyhow unit) :=
  match fuel with
  | O => ([], None)
  | S fuel =>
      let '(r, m) := read_message r in
      match m with
      | Err e => ([], Some (Err e))
      | Ok None => ([], Some (Ok tt))
      | Ok (Some m) => let '(ms, e) := read_loop fuel r in (m :: ms, e)
      end
  end.

(** A message takes at least the four bytes of its length. *)
Definition read_messages (r : reader) : list T * option (result anyhow unit) :=
  read_loop (S (length (available r))) r.

Fixpoint send_messages (ms : list T) (w : writer) : writer * result anyhow unit :=
  match ms with
  | [] => (w, Ok tt)
  | m :: ms =>
      let '(w, r) := send_message m w in
      match r with
      | Err e => (w, Err e)
      | Ok _ => send_messages ms w
      end
  end.
End Frames.

Definition session_texts : texts := {|
  on_length := lit "failed to read session message length";
  on_limit := λ n, lit "session message length " ++ dec n
                   ++ lit " exceeds the maximum supported size";
  on_body := lit "failed to read session message body";
  on_decode := lit "failed to decode session message";
  on_encode := lit "failed to encode session message";
  on_size := lit "session message too large";
|}.

Definition process_texts : texts := {|
  on_length := lit "failed to read process output frame length";
  on_limit := λ n, lit "process output frame length " ++ dec n
                   ++ lit " exceeds the supported limit";
  on_body := lit "failed to read process output frame body";
  on_decode := lit "failed to decode process output frame";
  on_encode := lit "failed to encode process input";
  on_size := lit "process input frame too large";
|}.

Definition read_session_message {T} `{!Serde T} : reader → reader * result anyhow (option T) :=
  read_message session_texts.
Definition send_session_message {T} `{!Serde T} : T → writer → writer * result anyhow unit :=
  send_message session_texts.
Definition read_process_message `{!Serde ProcessOutput}
  : reader → reader * result anyhow (option ProcessOutput) := read_message process_texts.
Definition send_process_message `{!Serde ProcessInput}
  : ProcessInput → writer → writer * result anyhow unit := send_message process_texts.

(** ** Lemmas *)

#[global] Arguments u32_to_be : simpl never.
#[global] Arguments u32_from_be : simpl never.
#[global] Arguments try_from : simpl never.
#[global] Arguments read_message : simpl never.
#[global] Arguments send_message : simpl never.
#[local] Arguments lit : simpl never.

Lemma u32_be_round_trip n : 0 ≤ n ≤ u32_max → u32_from_be (u32_to_be n) = n.
Proof.
  intros Hn. unfold u32_from_be, u32_to_be, u32_max in *. cbn [foldl].
  change 255 with (Z.ones 8). rewrite !Z.land_ones, !Z.shiftr_div_pow2 by lia.
  rewrite !Z2N.id by (try apply Z.mod_pos_bound; try apply Z.div_pos; lia).
  change (2 ^ 24) with (256 * 256 * 256). change (2 ^ 16) with (256 * 256). change (2 ^ 8) with 256.
  rewrite <- !Z.div_div by lia.
  pose proof (Z.div_mod n 256). pose proof (Z.div_mod (n / 256) 256).
  pose proof (Z.div_mod (n / 256 / 256) 256). lia.
Qed.

Lemma read_exact_app n p rest e :
  Z.to_nat n = length p →
  read_exact n {| available := p ++ rest; end_error := e |}
  = ({| available := rest; end_error := e |}, Ok p).
Proof.
  intros Hn. unfold read_exact. simpl. rewrite Hn, decide_True by (rewrite length_app; lia).
  by rewrite drop_app_length, take_app_length.
Qed.

(** The bytes left after a read are a suffix, and what was read comes first. *)
Lemma read_exact_Ok n r r' bs :
  read_exact n r = (r', Ok bs) →
  available r = bs ++ available r' ∧ length bs = Z.to_nat n ∧ end_error r' = end_error r.
Proof.
  unfold read_exact. case_decide; [|done]. intros [= <- <-]. simpl.
  rewrite take_drop, length_take. split_and!; [done|lia|done].
Qed.

Definition frame (payload : bytes) : bytes := u32_to_be (Z.of_nat (length payload)) ++ payload.
#[global] Arguments frame : simpl never.

Lemma length_frame p : length (frame p) = (4 + length p)%nat.
Proof. unfold frame. by rewrite length_app. Qed.

Lemma write_all_unlimited data w :
  room w = None → write_all data w = ({| written := written w ++ data; room := None |}, Ok tt).
Proof. unfold write_all. by intros ->. Qed.

Section FrameLemmas.
Context {T : Type} `{!Serde T}.
Implicit Types (x : texts) (m : T) (r : reader) (w : writer).

Definition payload_of m : bytes := match to_vec m with Ok p => p | Err _ => [] end.

(** A message a reader of the other side will take. *)
Definition fits m : Prop :=
  ∃ p, to_vec m = Ok p ∧ Z.of_nat (length p) ≤ MAX_SESSION_MESSAGE_SIZE.

Lemma send_message_unlimited x m p w :
  to_vec m = Ok p → Z.of_nat (length p) ≤ u32_max → room w = None →
  send_message x m w = ({| written := written w ++ frame p; room := None |}, Ok tt).
Proof.
  intros Hm Hp Hw. unfold send_message, encode_message, write_u32. rewrite Hm.
  cbn [with_context map_err].
  rewrite (proj2 (try_from_Some u32_max _ _)) by (split; [done|lia]).
  rewrite write_all_unlimited by done. rewrite write_all_unlimited by done.
  cbn [io_result map_err written room]. unfold frame. by rewrite <- app_assoc.
Qed.

Lemma read_u32_frame p rest e :
  Z.of_nat (length p) ≤ u32_max →
  read_u32 {| available := frame p ++ rest; end_error := e |}
  = ({| available := p ++ rest; end_error := e |}, Ok (Z.of_nat (length p))).
Proof.
  intros Hp. unfold read_u32, frame. rewrite <- app_assoc, read_exact_app by done. simpl.
  by rewrite u32_be_round_trip by lia.
Qed.

Lemma read_message_frame x m p rest e :
  from_slice p = Ok m → Z.of_nat (length p) ≤ MAX_SESSION_MESSAGE_SIZE →
  read_message x {| available := frame p ++ rest; end_error := e |}
  = ({| available := rest; end_error := e |}, Ok (Some m)).
Proof.
  intros Hm Hp. unfold read_message.
  rewrite read_u32_frame by (unfold u32_max, MAX_SESSION_MESSAGE_SIZE in *; lia).
  rewrite (proj2 (Z.ltb_ge _ _)) by done.
  rewrite read_exact_app by (by rewrite Nat2Z.id). unfold decode_message. simpl. by rewrite Hm.
Qed.

Lemma read_message_oversized x p rest e :
  MAX_SESSION_MESSAGE_SIZE < Z.of_nat (length p) ≤ u32_max →
  @read_message T _ x {| available := frame p ++ rest; end_error := e |}
  = ({| available := p ++ rest; end_error := e |}, bail (on_limit x (Z.of_nat (length p)))).
Proof.
  intros Hp. unfold read_message. rewrite read_u32_frame by lia.
  by rewrite (proj2 (Z.ltb_lt _ _)) by lia.
Qed.

(** A message that is read: its frame, within the limit, was at the front. *)
Lemma read_message_Some x r r' m :
  read_message x r = (r', Ok (Some m)) →
  ∃ l p, available r = l ++ p ++ available r' ∧ length l = 4%nat ∧ from_slice p = Ok m
    ∧ Z.of_nat (length p) ≤ MAX_SESSION_MESSAGE_SIZE ∧ end_error r' = end_error r.
Proof.
  unfold read_message, read_u32.
  destruct (read_exact 4 r) as [r1 [l|e]] eqn:E1; simpl; [|by case_decide].
  destruct (_ <? _) eqn:Hlim; [done|]. bool_to_prop.
  destruct (read_exact (u32_from_be l) r1) as [r2 [p|e]] eqn:E2; [|done]. simpl.
  unfold decode_message. destruct (from_slice p) as [m'|e] eqn:Hm; [|done]. intros [= <- <-].
  apply read_exact_Ok in E1 as (Ha1 & Hl & He1), E2 as (Ha2 & Hp & He2).
  exists l, p. rewrite Ha1, Ha2, Hp, He2, He1. split_and!; try done.
  assert (0 ≤ u32_from_be l ∨ u32_from_be l < 0) as [?|?] by lia; unfold MAX_SESSION_MESSAGE_SIZE in *; lia.
Qed.

(** Whatever comes of a read, what it consumes is bounded. *)
Lemma read_exact_consumes n r r' b :
  read_exact n r = (r', b) → (length (available r) ≤ length (available r') + Z.to_nat n)%nat.
Proof. unfold read_exact. case_decide; intros [= <- <-]; cbn; rewrite ?length_drop; lia. Qed.

Lemma read_message_consumes x r r' (m : result anyhow (option T)) :
  read_message x r = (r', m) →
  Z.of_nat (length (available r)) - Z.of_nat (length (available r')) ≤ 4 + MAX_SESSION_MESSAGE_SIZE.
Proof.
  unfold read_message, read_u32. destruct (read_exact 4 r) as [r1 l] eqn:E1.
  apply read_exact_consumes in E1. change (Z.to_nat 4) with 4%nat in E1.
  assert (0 ≤ MAX_SESSION_MESSAGE_SIZE) by (by unfold MAX_SESSION_MESSAGE_SIZE).
  destruct l as [l|e]; cbn [map_ok]; [|intros [= <- _]; lia].
  destruct (_ <? _) eqn:Hlim; [intros [= <- _]; lia|]. bool_to_prop.
  destruct (read_exact (u32_from_be l) r1) as [r2 p] eqn:E2. apply read_exact_consumes in E2.
  intros [= <- _]. lia.
Qed.

Lemma read_message_shrinks x r r' m :
  read_message x r = (r', Ok (Some m)) → (length (available r') < length (available r))%nat.
Proof.
  intros (l & p & -> & Hl & _)%read_message_Some. rewrite !length_app. lia.
Qed.

(** The loop ends on every stream. *)
Lemma read_loop_ends x fuel r :
  (length (available r) < fuel)%nat → is_Some (@read_loop T _ x fuel r).2.
Proof.
  revert r. induction fuel as [|fuel IH]; intros r Hr; [lia|]. simpl.
  destruct (read_message x r) as [r' [[m|]|e]] eqn:E; [|by eexists..].
  apply read_message_shrinks in E. specialize (IH r').
  destruct (read_loop x fuel r'). simpl in *. apply IH. lia.
Qed.

Lemma read_loop_frames x fuel ms ps :
  Forall2 (λ m p, from_slice p = Ok m ∧ Z.of_nat (length p) ≤ MAX_SESSION_MESSAGE_SIZE) ms ps →
  (length ms < fuel)%nat →
  read_loop x fuel {| available := concat (frame <$> ps); end_error := None |} = (ms, Some (Ok tt)).
Proof.
  intros H. revert fuel. induction H as [|m p ms ps [Hm Hp] H IH]; intros [|fuel] Hf; simpl in Hf.
  - lia.
  - done.
  - lia.
  - rewrite fmap_cons, concat_cons.
    cbn [read_loop]. rewrite (read_message_frame x m) by done. by rewrite (IH fuel) by lia.
Qed.

Lemma frames_length ps : (length ps ≤ length (concat (frame <$> ps)))%nat.
Proof. induction ps as [|p ps IH]; [done|]. rewrite fmap_cons, concat_cons, length_app, length_frame. simpl length. lia. Qed.

(** A message that fits is sent, and leaves the stream unbroken. *)
Lemma send_message_fits x m w :
  fits m → room w = None → ∃ w', send_message x m w = (w', Ok tt) ∧ room w' = None.
Proof.
  intros (p & Hm & Hp) Hw.
  assert (Z.of_nat (length p) ≤ u32_max) by (unfold u32_max, MAX_SESSION_MESSAGE_SIZE in *; lia).
  rewrite (send_message_unlimited x m p) by assumption. by eexists.
Qed.

Lemma send_messages_written x ms w :
  Forall fits ms → room w = None →
  send_messages x ms w
  = ({| written := written w ++ concat (frame <$> (payload_of <$> ms)); room := None |}, Ok tt).
Proof.
  intros H. revert w. induction H as [|m ms (p & Hm & Hp) H IH]; intros w Hw; cbn [send_messages].
  - simpl. rewrite app_nil_r. by destruct w; simplify_eq/=.
  - assert (Z.of_nat (length p) ≤ u32_max) by (unfold u32_max, MAX_SESSION_MESSAGE_SIZE in *; lia).
    rewrite (send_message_unlimited x m p) by assumption.
    rewrite IH, !fmap_cons, concat_cons by done. unfold payload_of at 2. cbn [written].
    by rewrite Hm, <- app_assoc.
Qed.

Lemma send_messages_app x ms ms' w :
  send_messages x (ms ++ ms') w =
  let '(w', r) := send_messages x ms w in
  match r with Err e => (w', Err e) | Ok _ => send_messages x ms' w' end.
Proof.
  revert w. induction ms as [|m ms IH]; intros w; [done|]. cbn [app send_messages].
  destruct (send_message x m w) as [w' [[]|e]]; [apply IH|done].
Qed.

(** What one side sends, the other reads, whatever the error texts. *)
Lemma messages_round_trip `{!SerdeLaws T} x y ms w :
  Forall fits ms → w = {| written := []; room := None |} →
  ∃ w', send_messages x ms w = (w', Ok tt) ∧
    read_messages y {| available := written w'; end_error := None |} = (ms, Some (Ok tt)).
Proof.
  intros Hms ->. rewrite send_messages_written by done. eexists. split; [done|]. simpl.
  unfold read_messages. apply read_loop_frames.
  - clear -Hms SerdeLaws0. induction Hms as [|m ms (p & Hm & Hp) H IH]; simpl; constructor; [|done].
    unfold payload_of. rewrite Hm. split; [by apply from_slice_to_vec|done].
  - simpl. pose proof (frames_length (payload_of <$> ms)). rewrite length_fmap in *. lia.
Qed.

(** *** Streams that end anywhere *)

(** A message the sending side writes: it has an encoding a [u32] can count. *)
Definition sendable m : Prop := ∃ p, to_vec m = Ok p ∧ Z.of_nat (length p) ≤ u32_max.

Lemma send_message_cases x m w :
  room w = None →
  sendable m ∧ send_message x m w
    = ({| written := written w ++ frame (payload_of m); room := None |}, Ok tt) ∨
  ∃ e, send_message x m w = (w, Err e).
Proof.
  intros Hw. destruct (to_vec m) as [p|e] eqn:Hm.
  - destruct (decide (Z.of_nat (length p) ≤ u32_max)) as [Hp|Hp].
    + left. split; [by exists p|]. unfold payload_of. rewrite Hm. by apply send_message_unlimited.
    + right. unfold send_message, encode_message. rewrite Hm. cbn [map_err with_context].
      destruct (try_from _ _) eqn:E; [|by eexists]. apply try_from_Some in E. lia.
  - right. unfold send_message, encode_message. rewrite Hm. by eexists.
Qed.

(** Of a frame that is cut no message is read. *)
Lemma read_message_cut x p k e :
  Z.of_nat (length p) ≤ u32_max → (k < length (frame p))%nat →
  ∀ m, (read_message x {| available := take k (frame p); end_error := e |}).2 ≠ Ok (Some m).
Proof.
  intros Hp Hk m. rewrite length_frame in Hk. unfold read_message, read_u32, frame.
  destruct (decide (k < 4)%nat) as [H4|H4].
  - unfold read_exact at 1. cbn [available end_error].
    rewrite decide_False by (rewrite length_take, length_app; change (length (u32_to_be _)) with 4%nat; lia).
    cbn [map_ok snd]. by case_decide.
  - rewrite take_app_ge by (change (length (u32_to_be _)) with 4%nat; lia).
    change (length (u32_to_be _)) with 4%nat. rewrite read_exact_app by done. cbn [map_ok].
    rewrite u32_be_round_trip by lia. destruct (_ <? _); [done|].
    unfold read_exact. cbn [available end_error].
    rewrite decide_False by (rewrite length_take; lia). done.
Qed.

(** What is read from a stream that ends anywhere comes first of what was sent. *)
Lemma read_loop_cut `{!SerdeLaws T} x ms k fuel e :
  Forall sendable ms →
  (read_loop x fuel {| available := take k (concat (frame <$> (payload_of <$> ms))); end_error := e |}).1
  `prefix_of` ms.
Proof.
  intros H. revert k fuel. induction H as [|m ms (p & Hm & Hp) H IH]; intros k [|fuel]; try apply prefix_nil.
  - cbn [fmap list_fmap concat read_loop]. rewrite take_nil.
    destruct (read_message x _) as [r [[m|]|e']] eqn:E; try done. by apply read_message_shrinks in E; cbn in E; lia.
  - rewrite !fmap_cons, concat_cons. assert (payload_of m = p) as -> by (unfold payload_of; by rewrite Hm).
    cbn [read_loop]. destruct (decide (k < length (frame p))%nat) as [Hk|Hk].
    + rewrite take_app_le by lia. pose proof (read_message_cut x p k e Hp Hk) as Hcut.
      destruct (read_message x _) as [r [[m'|]|e']]; [by destruct (Hcut m')|apply prefix_nil..].
    + rewrite take_app_ge by lia. destruct (decide (Z.of_nat (length p) ≤ MAX_SESSION_MESSAGE_SIZE)) as [Hs|Hs].
      * rewrite (read_message_frame x m) by (try apply from_slice_to_vec; done).
        specialize (IH (k - length (frame p))%nat fuel).
        destruct (read_loop x fuel _) as [ms' e']. by apply prefix_cons.
      * rewrite read_message_oversized by lia. apply prefix_nil.
Qed.
End FrameLemmas.

(** ** Properties *)

(** C31: process sessions are framed losslessly in both directions.  Messages whose
    encodings stay within the limit, written one after the other by the daemon
    ([send_process_message]) or by the executor ([send_session_message]) to a
    stream that does not break and then shut down, are read back by the other
    side ([read_session_message], [read_process_message]) as the same list,
    ended by a clean end of stream. *)
Theorem session_messages_round_trip
  `{!Serde ProcessInput, !Serde ProcessOutput, !SerdeLaws ProcessInput, !SerdeLaws ProcessOutput}
  (inputs : list ProcessInput) (outputs : list ProcessOutput) :
  Forall fits inputs → Forall fits outputs →
  (∃ w, send_messages process_texts inputs {| written := []; room := None |} = (w, Ok tt) ∧
     read_messages session_texts {| available := written w; end_error := None |}
     = (inputs, Some (Ok tt))) ∧
  (∃ w, send_messages session_texts outputs {| written := []; room := None |} = (w, Ok tt) ∧
     read_messages process_texts {| available := written w; end_error := None |}
     = (outputs, Some (Ok tt))).
Proof. intros Hi Ho. split; by apply messages_round_trip. Qed.

(** C32: a reader is safe against any peer.  On every byte stream the read loop ends
    (with the fuel the stream's length gives); a single read, whatever comes of it,
    consumes at most one mebibyte beyond the four length bytes; and a length above
    that is refused
    before any of the body is consumed. *)
Theorem reader_is_bounded {T} `{!Serde T} (x : texts) (r r' : reader)
  (m : result anyhow (option T)) :
  read_message x r = (r', m) →
  is_Some (@read_messages T _ x r).2 ∧
  Z.of_nat (length (available r)) - Z.of_nat (length (available r'))
    ≤ 4 + MAX_SESSION_MESSAGE_SIZE ∧
  (∀ l rest, available r = l ++ rest → length l = 4%nat →
    MAX_SESSION_MESSAGE_SIZE < u32_from_be l →
    m = bail (on_limit x (u32_from_be l)) ∧ available r' = rest).
Proof.
  intros Hm. split_and!.
  - apply read_loop_ends. lia.
  - by eapply read_message_consumes.
  - intros l rest Hr Hl Hlim. destruct r as [a e]; simpl in Hr; subst a.
    unfold read_message, read_u32 in Hm. rewrite read_exact_app in Hm by done. simpl in Hm.
    rewrite (proj2 (Z.ltb_lt _ _)) in Hm by done. by injection Hm as <- <-.
Qed.

(** The two ends disagree on the largest message.  A message whose encoding is
    longer than a mebibyte but countable by a [u32] is written in full without
    an error, and the other side's read of it fails: the session's read loop
    ends with an error and nothing after that message is delivered. *)
Theorem oversized_message_is_sent_but_refused
  `{!Serde ProcessInput} (m : ProcessInput) (later : list ProcessInput) (p : bytes) :
  to_vec m = Ok p → MAX_SESSION_MESSAGE_SIZE < Z.of_nat (length p) ≤ u32_max →
  Forall fits later →
  ∃ w, send_messages process_texts (m :: later) {| written := []; room := None |} = (w, Ok tt) ∧
    @read_messages ProcessInput _ session_texts {| available := written w; end_error := None |}
    = ([], Some (bail (on_limit session_texts (Z.of_nat (length p))))).
Proof.
  intros Hm Hp Hlater. cbn [send_messages].
  rewrite (send_message_unlimited process_texts m p) by (assumption || reflexivity || lia).
  rewrite send_messages_written by (assumption || reflexivity). eexists. split; [done|].
  unfold read_messages. cbn [written read_loop app]. rewrite read_message_oversized by lia. done.
Qed.

(** ** A concrete encoding

    A tag byte and the payload: enough to run the definitions. *)

Definition all_signals : list ExecutorSignal :=
  [Abrt; Alrm; Fpe; Hup; Ill; Int; Kill; Pipe; Quit; Segv; Term; Usr1].

#[global] Instance ExecutorSignal_eq_dec : EqDecision ExecutorSignal.
Proof. solve_decision. Defined.

Definition signal_index (s : ExecutorSignal) : N :=
  default 0%N (N.of_nat <$> (list_find (.= s) all_signals ≫= λ '(i, _), Some i)).

Definition size_words (s : Session.PtySize) : list Z :=
  [Session.rows s; Session.cols s; Session.pixel_width s; Session.pixel_height s].

Definition size_of_bytes (q : bytes) : Session.PtySize :=
  let word k := u32_from_be (take 4 (drop (4 * k) q)) in
  {| Session.rows := word 0%nat; Session.cols := word 1%nat;
     Session.pixel_width := word 2%nat; Session.pixel_height := word 3%nat |}.

Definition in_u32 (n : Z) : bool := (0 <=? n) && (n <=? u32_max).

#[local] Instance demo_input_serde : Serde ProcessInput := {|
  to_vec m :=
    match m with
    | Data d => Ok (0%N :: d)
    | Signal s => Ok [1%N; signal_index s]
    | Resize s =>
        if forallb in_u32 (size_words s)
        then Ok (2%N :: concat (u32_to_be <$> size_words s)) else Err (lit "not a u16")
    | Eof => Ok [3%N]
    | Close => Ok [4%N]
    end;
  from_slice p :=
    match p with
    | 0%N :: d => Ok (Data d)
    | [1%N; i] => match all_signals !! N.to_nat i with Some s => Ok (Signal s) | None => Err (lit "signal") end
    | 2%N :: q => Ok (Resize (size_of_bytes q))
    | [3%N] => Ok Eof
    | [4%N] => Ok Close
    | _ => Err (lit "unknown variant")
    end;
|}.

#[local] Instance demo_output_serde : Serde ProcessOutput := {|
  to_vec m :=
    match m with
    | Stdout d => Ok (0%N :: d)
    | Stderr d => Ok (1%N :: d)
    | ExitStatus c => if in_u32 c then Ok (2%N :: u32_to_be c) else Err (lit "not a u32")
    end;
  from_slice p :=
    match p with
    | 0%N :: d => Ok (Stdout d)
    | 1%N :: d => Ok (Stderr d)
    | 2%N :: c => Ok (ExitStatus (u32_from_be c))
    | _ => Err (lit "unknown variant")
    end;
|}.

Lemma in_u32_spec n : in_u32 n = true → u32_from_be (u32_to_be n) = n.
Proof. unfold in_u32. intros H. bool_to_prop. by apply u32_be_round_trip. Qed.

Lemma size_of_words s :
  forallb in_u32 (size_words s) = true → size_of_bytes (concat (u32_to_be <$> size_words s)) = s.
Proof.
  destruct s as [a b c d]. unfold size_words. cbn [forallb Session.rows Session.cols
    Session.pixel_width Session.pixel_height]. intros H. bool_to_prop.
  rewrite <- (in_u32_spec a), <- (in_u32_spec b), <- (in_u32_spec c), <- (in_u32_spec d) at 2 by done.
  reflexivity.
Qed.

#[local] Instance demo_input_laws : SerdeLaws ProcessInput.
Proof.
  intros [d|s|s| |] p; cbn [to_vec from_slice demo_input_serde].
  - intros [= <-]. reflexivity.
  - intros [= <-]. by destruct s.
  - destruct (forallb in_u32 (size_words s)) eqn:Hs; [|done].
    pose proof (size_of_words s Hs) as Hq. revert Hq.
    generalize (concat (u32_to_be <$> size_words s)) as q. intros q Hq [= <-]. by rewrite Hq.
  - intros [= <-]. reflexivity.
  - intros [= <-]. reflexivity.
Qed.

#[local] Instance demo_output_laws : SerdeLaws ProcessOutput.
Proof.
  intros [d|d|c] p; cbn [to_vec from_slice demo_output_serde].
  - intros [= <-]. reflexivity.
  - intros [= <-]. reflexivity.
  - destruct (in_u32 c) eqn:Hc; [|done]. apply in_u32_spec in Hc. revert Hc.
    generalize (u32_to_be c) as q. intros q Hq [= <-]. by rewrite Hq.
Qed.

Lemma session_messages_round_trip_witness :
  read_messages session_texts
    {| available := written (send_messages process_texts [Data (lit "ls"); Signal Hup; Close]
                               {| written := []; room := None |}).1; end_error := None |}
  = ([Data (lit "ls"); Signal Hup; Close], Some (Ok tt)).
Proof.
  destruct (session_messages_round_trip [Data (lit "ls"); Signal Hup; Close] [Stdout (lit "x")])
    as [(w & Hw & Hr) _].
  - repeat constructor; eexists; (split; [reflexivity|by vm_compute]).
  - repeat constructor; eexists; (split; [reflexivity|by vm_compute]).
  - rewrite Hw. exact Hr.
Defined.

Lemma reader_is_bounded_witness :
  (@read_message ProcessOutput _ process_texts
     {| available := [0; 16; 0; 1; 7]%N; end_error := None |}).2
  = bail (lit "process output frame length 1048577 exceeds the supported limit").
Proof.
  destruct (@reader_is_bounded ProcessOutput _ process_texts
     {| available := [0; 16; 0; 1; 7]%N; end_error := None |} _ _ eq_refl) as (_ & _ & H).
  destruct (H [0; 16; 0; 1]%N [7%N]) as [_ _]; by vm_compute.
Defined.

Definition big_data : bytes := replicate (Z.to_nat MAX_SESSION_MESSAGE_SIZE) 0%N.

Lemma length_big_data : Z.of_nat (length big_data) = MAX_SESSION_MESSAGE_SIZE.
Proof. unfold big_data. rewrite length_replicate. apply Z2Nat.id. by unfold MAX_SESSION_MESSAGE_SIZE. Qed.
#[local] Opaque big_data.

Lemma oversized_message_is_sent_but_refused_witness :
  ∃ w, send_messages process_texts [Data big_data; Close]
         {| written := []; room := None |} = (w, Ok tt) ∧
    (@read_messages ProcessInput _ session_texts {| available := written w; end_error := None |}).1 = [].
Proof.
  destruct (oversized_message_is_sent_but_refused (Data big_data) [Close] (0%N :: big_data)) as (w & Hw & Hr).
  - reflexivity.
  - simpl length. rewrite Nat2Z.inj_succ, length_big_data. by vm_compute.
  - repeat constructor; eexists; (split; [reflexivity|by vm_compute]).
  - exists w. split; [exact Hw|]. by rewrite Hr.
Defined.

(** ** An encoding for every countable type

    The bits of its code, ended by a zero: what is encoded decodes to itself, and
    nothing that is cut short decodes.  It stands for serde_json where a closed
    example needs one. *)

Fixpoint bits (c : positive) : bytes :=
  match c with xI c => 1%N :: bits c | xO c => 2%N :: bits c | xH => [0%N] end.

Fixpoint unbits (bs : bytes) : option positive :=
  match bs with
  | [0%N] => Some xH
  | 1%N :: bs => xI <$> unbits bs
  | 2%N :: bs => xO <$> unbits bs
  | _ => None
  end.

Lemma unbits_bits c : unbits (bits c) = Some c.
Proof. induction c as [c IH|c IH|]; cbn; [by rewrite IH|by rewrite IH|done]. Qed.

Lemma unbits_cut c k : (k < length (bits c))%nat → unbits (take k (bits c)) = None.
Proof.
  revert k. induction c as [c IH|c IH|]; intros [|k] Hk; cbn in *; try done; try lia;
    by rewrite IH by lia.
Qed.

Definition countable_serde {T} `{Countable T} : Serde T := {|
  to_vec m := Ok (bits (encode m));
  from_slice bs := ok_or (lit "invalid") (unbits bs ≫= decode);
|}.

Lemma countable_laws {T} `{Countable T} : @SerdeLaws T countable_serde.
Proof. intros m p [= <-]. cbn. rewrite unbits_bits. cbn. by rewrite decode_encode. Qed.

End Framing.
