(* ===== verification/Process.v ===== *)
(** * Process sessions

    A shell or command runs in the executor (src/src/executor.rs, from
    [start_pty_process_service] on) and is bridged to an SSH channel by the
    daemon (src/src/sshd.rs, [bridge_process_channel], [handle_process_input]);
    between them is a stream of framed messages.  The tasks of a session are
    modelled one by one: what comes in is a list of messages or of readiness
    events in the order the task sees them, so that an interleaving of the
    tasks is an order of such a list.  A stream may end anywhere and a write fail
    at any time.  A child starts with the executor's environment and the variables
    of its request set over it. *)

From S2P Require Import Prelude Rust Config Session Framing.

Local Open Scope Z_scope.

Module Process.
Import Framing.

(** ** Signals and exit status *)

(** [russh::Sig]. *)
Inductive Sig :=
| ABRT | ALRM | FPE | HUP | ILL | INT | KILL | PIPE | QUIT | SEGV | TERM | USR1
| Custom (name : str).

(** [nix::sys::signal::Signal], the ones the executor sends. *)
Inductive unix_signal :=
| SIGABRT | SIGALRM | SIGFPE | SIGHUP | SIGILL | SIGINT | SIGKILL | SIGPIPE | SIGQUIT | SIGSEGV
| SIGTERM | SIGUSR1.

Definition to_unix_signal (value : ExecutorSignal) : unix_signal :=
  match value with
  | Abrt => SIGABRT | Alrm => SIGALRM | Fpe => SIGFPE | Hup => SIGHUP | Ill => SIGILL
  | Int => SIGINT | Kill => SIGKILL | Pipe => SIGPIPE | Quit => SIGQUIT | Segv => SIGSEGV
  | Term => SIGTERM | Usr1 => SIGUSR1
  end.

Definition map_signal (signal : Sig) : option ExecutorSignal :=
  match signal with
  | ABRT => Some Abrt | ALRM => Some Alrm | FPE => Some Fpe | HUP => Some Hup | ILL => Some Ill
  | INT => Some Int | KILL => Some Kill | PIPE => Some Pipe | QUIT => Some Quit
  | SEGV => Some Segv | TERM => Some Term | USR1 => Some Usr1
  | Custom _ => None
  end.

(** [ExitStatus::code] and [ExitStatusExt::signal] of a wait status. *)
Definition wait_code (status : Z) : option Z :=
  if Z.land status 127 =? 0 then Some (Z.land (Z.shiftr status 8) 255) else None.
Definition wait_signal (status : Z) : option Z :=
  let s := Z.land status 127 in if (1 <=? s) && (s <=? 126) then Some s else None.

Definition exit_status_code (status : Z) : Z :=
  match wait_code status with
  | Some code => code
  | None => match wait_signal status with Some signal => 128 + signal | None => 255 end
  end.

(** ** The child's command line *)

Record ExecutorHello := {
  hello_home_dir : str; hello_shell : str; hello_exec_mode : Config.ExecMode;
}.

(** The command both services build: the program, its arguments, the working
    directory, and the variables set on top of the executor's own
    environment. *)
Record child_command := {
  program : str; args : list str; current_dir : str; env_overrides : gmap str str;
}.

Definition service_command (hello : ExecutorHello) (request : Session.ProcessRequest)
  : child_command := {|
  program := hello_shell hello;
  args := match Session.command request with
          | Some command => [Config.command_flag (hello_exec_mode hello); command]
          | None => []
          end;
  current_dir := hello_home_dir hello;
  env_overrides := Session.request_env request;
|}.

(** The environment of the child: neither service clears it, so what is not set
    is as the child inherits it. *)
Definition child_environment (inherited : gmap str str) (c : child_command) : gmap str str :=
  env_overrides c ∪ inherited.

(** Launching a child, with the system's answers: the parts of
    [start_pty_process_service] and [start_piped_process_service] before their
    loops.  The first runs on a blocking task, whose own failure is reported. *)
Record pty_answers := {
  opened : result anyhow unit;
  child_spawned : result anyhow unit;
  reader_cloned : result anyhow unit;
  writer_taken : result anyhow unit;
  task_joined : result anyhow unit;
  group_leader : option Z;
}.

Record PtyLaunch := { launch_command : child_command; launch_size : Session.PtySize; process_group : option Z }.

Definition launch_pty (hello : ExecutorHello) (request : Session.ProcessRequest) (a : pty_answers)
  : result anyhow PtyLaunch :=
  pty ← ok_or [Msg (lit "PTY process request missing PTY settings")] (Session.request_pty request);
  _ ← with_context (lit "PTY spawn task failed") (task_joined a);
  _ ← with_context (lit "failed to open PTY") (opened a);
  _ ← with_context (lit "failed to spawn PTY child") (child_spawned a);
  _ ← with_context (lit "failed to clone PTY reader") (reader_cloned a);
  _ ← with_context (lit "failed to take PTY writer") (writer_taken a);
  Ok {| launch_command := service_command hello request; launch_size := Session.size pty;
        process_group := group_leader a |}.

Record piped_answers := {
  spawned : result anyhow unit;
  child_id : option Z;
  has_stdin : bool; has_stdout : bool; has_stderr : bool;
}.

Definition launch_piped (hello : ExecutorHello) (request : Session.ProcessRequest) (a : piped_answers)
  : result anyhow (child_command * Z) :=
  _ ← with_context (lit "failed to spawn child process") (spawned a);
  pid ← ok_or [Msg (lit "child process has no pid")] (child_id a);
  _ ← (if has_stdin a then Ok tt else bail (lit "missing child stdin"));
  _ ← (if has_stdout a then Ok tt else bail (lit "missing child stdout"));
  _ ← (if has_stderr a then Ok tt else bail (lit "missing child stderr"));
  Ok (service_command hello request, pid).

(** The status a waiting task reports: that of the child, or 255. *)
Definition wait_result (status : result io_error Z) : Z :=
  match status with Ok status => exit_status_code status | Err _ => 255 end.

(** ** Input: from the channel to the child *)

Inductive ChannelMsg :=
| ChannelData (data : bytes)
| ChannelSignal (signal : Sig)
| WindowChange (col_width row_height pix_width pix_height : Z)
| ChannelEof
| ChannelClose
| OtherMsg.

Section Input.
Context `{!Serde ProcessInput}.

Definition window_size (col_width row_height pix_width pix_height : Z) : Session.PtySize := {|
  Session.rows := Session.clamp_dimension row_height;
  Session.cols := Session.clamp_dimension col_width;
  Session.pixel_width := Session.clamp_dimension pix_width;
  Session.pixel_height := Session.clamp_dimension pix_height;
|}.

(** The daemon's input task; the list ends where [wait] returns [None]. *)
Fixpoint handle_process_input (msgs : list ChannelMsg) (w : writer) : writer * result anyhow unit :=
  match msgs with
  | [] => (w, Ok tt)
  | m :: msgs =>
      let send_and_go (i : ProcessInput) :=
        let '(w, r) := send_process_message i w in
        match r with Err e => (w, Err e) | Ok _ => handle_process_input msgs w end in
      match m with
      | ChannelData data => send_and_go (Data data)
      | ChannelSignal signal =>
          match map_signal signal with
          | Some signal => send_and_go (Signal signal)
          | None => handle_process_input msgs w
          end
      | WindowChange cw rh pw ph => send_and_go (Resize (window_size cw rh pw ph))
      | ChannelEof => send_and_go Eof
      | ChannelClose => ((send_process_message Close w).1, Ok tt)
      | OtherMsg => handle_process_input msgs w
      end
  end.
End Input.

(** What the executor does to the child.  [ShutdownStdin] is a call of
    [AsyncWriteExt::shutdown], [DropStdin] the end of the task that owns the
    pipe, [SendControlClose] a [PtyControl::Close] sent to the control thread
    from outside the input task. *)
Inductive child_effect :=
| WriteInput (data : bytes)
| ShutdownStdin
| DropStdin
| SignalPid (pid : Z) (s : unix_signal)
| SignalGroup (group : Z) (s : unix_signal)
| ResizeTerminal (size : Session.PtySize)
| KillChild
| SendControlClose.

Definition i32_max : Z := 2147483647.

Definition send_signal_to_pid (pid : Z) (s : unix_signal) : list child_effect :=
  match try_from i32_max pid with Some pid => [SignalPid pid s] | None => [] end.

(** The read loop of the piped service: each message with whether a write of it
    to the child's stdin would succeed, and how reading ended. *)
Fixpoint handle_piped_service_input (pid : Z) (msgs : list (ProcessInput * bool))
  (fin : result anyhow unit) : list child_effect * result anyhow unit :=
  match msgs with
  | [] => match fin with
          | Ok _ => ([ShutdownStdin; DropStdin], Ok tt)
          | Err e => ([DropStdin], Err e)
          end
  | (m, write_ok) :: msgs =>
      let go es := let '(es', r) := handle_piped_service_input pid msgs fin in (es ++ es', r) in
      match m with
      | Data data => if write_ok : bool then go [WriteInput data] else ([ShutdownStdin; DropStdin], Ok tt)
      | Signal signal => go (send_signal_to_pid pid (to_unix_signal signal))
      | Eof => go [ShutdownStdin]
      | Close => (send_signal_to_pid pid SIGKILL ++ [ShutdownStdin; DropStdin], Ok tt)
      | Resize _ => go []
      end
  end.

(** The channel by which the task that waits for a piped child is told to kill
    it: what is queued, and the senders there are.  Receiving is ready when
    something is queued, and also once every sender is gone. *)
Record kill_channel := { queued : bool; senders : nat }.

Definition kill_channel_new : kill_channel := {| queued := false; senders := 2 |}.
Definition try_send (k : kill_channel) : kill_channel := {| queued := true; senders := senders k |}.
Definition drop_sender (k : kill_channel) : kill_channel :=
  {| queued := queued k; senders := pred (senders k) |}.
Definition recv_ready (k : kill_channel) : bool := queued k || (senders k =? 0)%nat.

(** On a Unix target only the input task keeps a sender: the other one is
    dropped when [start_piped_process_service] returns. *)
Definition unix_kill_channel : kill_channel := drop_sender kill_channel_new.

(** The task that waits for the child: [exited] is how the child exited by
    itself, if it did, [kill_first] which branch of the [select!] is taken when
    both are ready, [after] how it ends after the kill.  [None] while it waits. *)
Definition piped_wait (k : kill_channel) (exited : option (result io_error Z)) (kill_first : bool)
  (after : result io_error Z) : option (list child_effect * Z) :=
  match exited with
  | Some r => if recv_ready k && kill_first then Some ([KillChild], wait_result after)
              else Some ([], wait_result r)
  | None => if recv_ready k then Some ([KillChild], wait_result after) else None
  end.

Inductive PtyControl :=
| PtyWrite (data : bytes)
| PtyResize (size : Session.PtySize)
| PtySignal (signal : ExecutorSignal)
| PtyEof
| PtyClose.

(** The read loop of the PTY service: each message with whether the control
    thread is still there, and how reading ended. *)
Fixpoint handle_pty_service_input (msgs : list (ProcessInput * bool)) (fin : result anyhow unit)
  : list PtyControl * result anyhow unit :=
  match msgs with
  | [] => match fin with Ok _ => ([PtyClose], Ok tt) | Err e => ([], Err e) end
  | (m, alive) :: msgs =>
      let go c := let '(cs, r) := handle_pty_service_input msgs fin in (c :: cs, r) in
      match m with
      | Data data => if alive : bool then go (PtyWrite data) else ([PtyClose], Ok tt)
      | Signal signal => go (PtySignal signal)
      | Resize size => go (PtyResize size)
      | Eof => go PtyEof
      | Close => ([PtyClose; PtyClose], Ok tt)
      end
  end.

(** The control thread: [writer_open] until the writer is taken; each message
    with whether a write of it succeeds.  It ends when every sender is gone. *)
Fixpoint run_pty_control (process_group : option Z) (writer_open : bool)
  (msgs : list (PtyControl * bool)) : list child_effect :=
  match msgs with
  | [] => []
  | (m, write_ok) :: msgs =>
      match m with
      | PtyWrite data =>
          if writer_open
          then if write_ok : bool then WriteInput data :: run_pty_control process_group writer_open msgs
               else []
          else run_pty_control process_group writer_open msgs
      | PtyResize size => ResizeTerminal size :: run_pty_control process_group writer_open msgs
      | PtySignal signal =>
          match process_group with
          | Some group =>
              SignalGroup group (to_unix_signal signal)
                :: run_pty_control process_group writer_open msgs
          | None => run_pty_control process_group writer_open msgs
          end
      | PtyEof => (if writer_open then [DropStdin] else [])
                    ++ run_pty_control process_group false msgs
      | PtyClose => (if writer_open then [DropStdin] else []) ++ [KillChild]
      end
  end.

(** ** Output: from the child to the channel *)

Definition CHUNK : Z := 8192.

Inductive ProcessStream := StreamStdout | StreamStderr.

(** One pipe of the child: the results of the successive reads into the
    8192-byte buffer; the receiver is there while the session runs. *)
Fixpoint read_process_stream (which : ProcessStream) (reads : list (result io_error bytes))
  : list ProcessOutput :=
  match reads with
  | [] | Ok [] :: _ | Err _ :: _ => []
  | Ok chunk :: reads =>
      match which with StreamStdout => Stdout chunk | StreamStderr => Stderr chunk end
        :: read_process_stream which reads
  end.

Fixpoint run_pty_reader (reads : list (result io_error bytes)) : list ProcessOutput :=
  match reads with
  | [] | Ok [] :: _ => []
  | Ok chunk :: reads => Stdout chunk :: run_pty_reader reads
  | Err e :: reads => if decide (kind e = Interrupted) then run_pty_reader reads else []
  end.

(** The service's [select!] loop. *)
Inductive service_event :=
| OutputReady (o : option ProcessOutput)
| ChildExited (code : option Z).

Record service := {
  child_exit : option Z;
  output_closed : bool;
  stream : writer;
  service_effects : list child_effect;
  broken : bool;
}.

Definition service_start : service := {|
  child_exit := None; output_closed := false; stream := {| written := []; room := None |};
  service_effects := []; broken := false;
|}.

Definition loop_done (s : service) : bool :=
  broken s || output_closed s && bool_decide (is_Some (child_exit s)).

Section Output.
Context `{!Serde ProcessOutput}.

Definition set_stream (w : writer) (s : service) : service :=
  {| child_exit := child_exit s; output_closed := output_closed s; stream := w;
     service_effects := service_effects s; broken := broken s |}.

(** One turn; [None] when the branch is disabled.  [on_break] is what the
    service does when the stream to the daemon breaks, [on_exit] when the child
    has exited. *)
Definition service_turn (on_break on_exit : list child_effect) (s : service) (ev : service_event)
  : option service :=
  match ev with
  | OutputReady o =>
      if output_closed s then None
      else match o with
           | None =>
               Some {| child_exit := child_exit s; output_closed := true; stream := stream s;
                       service_effects := service_effects s; broken := broken s |}
           | Some output =>
               let '(w, r) := send_session_message output (stream s) in
               match r with
               | Ok _ => Some (set_stream w s)
               | Err _ =>
                   Some {| child_exit := child_exit s; output_closed := output_closed s; stream := w;
                           service_effects := service_effects s ++ on_break; broken := true |}
               end
           end
  | ChildExited code =>
      match child_exit s with
      | Some _ => None
      | None =>
          Some {| child_exit := Some (default 255 code); output_closed := output_closed s;
                  stream := stream s; service_effects := service_effects s ++ on_exit;
                  broken := broken s |}
      end
  end.

(** After the loop: the exit status, if it is known. *)
Definition send_exit (s : service) : service :=
  match child_exit s with
  | Some code => set_stream (send_session_message (ExitStatus code) (stream s)).1 s
  | None => s
  end.

(** The loop and what follows it; [None] while the loop is still waiting. *)
Fixpoint service_loop (on_break on_exit : list child_effect) (evs : list service_event) (s : service)
  : option service :=
  if loop_done s
  then Some (send_exit s)
  else match evs with
       | [] => None
       | ev :: evs => service_turn on_break on_exit s ev ≫= service_loop on_break on_exit evs
       end.

(** The piped service kills the child by pid when the stream breaks; the PTY
    service closes its control side when the child has exited. *)
Definition piped_service (pid : Z) : list service_event → service → option service :=
  service_loop (send_signal_to_pid pid SIGKILL) [].
Definition pty_service : list service_event → service → option service :=
  service_loop [] [SendControlClose].

(** Messages to the SSH channel, and a channel that takes [slots] more. *)
Inductive channel_out :=
| OutData (data : bytes)
| OutExtended (code : Z) (data : bytes)
| OutExitStatus (code : Z)
| OutEof
| OutClose.

Record sink := { delivered : list channel_out; slots : option nat }.

Definition deliver (m : channel_out) (k : sink) : sink * bool :=
  match slots k with
  | None => ({| delivered := delivered k ++ [m]; slots := None |}, true)
  | Some (S n) => ({| delivered := delivered k ++ [m]; slots := Some n |}, true)
  | Some O => (k, false)
  end.

Fixpoint bridge_loop (msgs : list ProcessOutput) (fin : result anyhow unit) (exit_status : option Z)
  (k : sink) : sink * result anyhow (option Z) :=
  match msgs with
  | [] => (k, map_ok (λ _, exit_status) fin)
  | m :: msgs =>
      let send_and_go o :=
        let '(k, sent) := deliver o k in
        if sent : bool then bridge_loop msgs fin exit_status k else (k, Ok exit_status) in
      match m with
      | Stdout data => send_and_go (OutData data)
      | Stderr data => send_and_go (OutExtended 1 data)
      | ExitStatus code => bridge_loop msgs fin (Some code) k
      end
  end.

Definition bridge_process_channel (r : reader) (k : sink) : sink * option (result anyhow unit) :=
  let '(msgs, fin) := read_messages process_texts r in
  match fin with
  | None => (k, None)
  | Some fin =>
      let '(k, exit_status) := bridge_loop msgs fin None k in
      match exit_status with
      | Err e => (k, Some (Err e))
      | Ok exit_status =>
          let k := match exit_status with
                   | Some code => (deliver (OutExitStatus code) k).1
                   | None => k
                   end in
          ((deliver OutClose (deliver OutEof k).1).1, Some (Ok tt))
      end
  end.
End Output.

(** ** What a session should do *)

Definition is_close (m : ChannelMsg) : bool := match m with ChannelClose => true | _ => false end.

(** The client's messages before it closes the channel. *)
Definition before_close (msgs : list ChannelMsg) : list ChannelMsg :=
  (span (λ m, negb (is_close m)) msgs).1.
Definition closes (msgs : list ChannelMsg) : bool := existsb is_close msgs.

Definition channel_bytes (msgs : list ChannelMsg) : bytes :=
  concat (omap (λ m, match m with ChannelData d => Some d | _ => None end) msgs).

Definition channel_signals (msgs : list ChannelMsg) : list unix_signal :=
  omap (λ m, match m with ChannelSignal s => to_unix_signal <$> map_signal s | _ => None end) msgs.

(** The client's messages before it announces the end of its input. *)
Definition before_eof (msgs : list ChannelMsg) : list ChannelMsg :=
  (span (λ m, match m with ChannelEof => false | _ => true end) msgs).1.

(** What happened to the child: the bytes it was given, the signals it got. *)
Definition stdin_bytes (es : list child_effect) : bytes :=
  concat (omap (λ e, match e with WriteInput d => Some d | _ => None end) es).

Definition signals_sent (es : list child_effect) : list unix_signal :=
  omap (λ e, match e with SignalPid _ s | SignalGroup _ s => Some s | _ => None end) es.

(** The message the daemon's input task sends for a channel message. *)
Definition input_of (m : ChannelMsg) : option ProcessInput :=
  match m with
  | ChannelData d => Some (Data d)
  | ChannelSignal s => Signal <$> map_signal s
  | WindowChange cw rh pw ph => Some (Resize (window_size cw rh pw ph))
  | ChannelEof => Some Eof
  | ChannelClose => Some Close
  | OtherMsg => None
  end.

Definition inputs_of (msgs : list ChannelMsg) : list ProcessInput :=
  omap input_of (before_close msgs) ++ (if closes msgs then [Close] else []).

Definition all_ok {A} (l : list A) : list (A * bool) := (λ a, (a, true)) <$> l.

(** Messages, the [i]-th with the outcome [f i]. *)
Definition flagged {A} (f : nat → bool) (l : list A) : list (A * bool) := imap (λ i a, (a, f i)) l.

Lemma flagged_fst {A} f (l : list A) : (flagged f l).*1 = l.
Proof. revert f. induction l as [|a l IH]; intros f; [done|]. cbn. f_equal. apply (IH (f ∘ S)). Qed.

Lemma flagged_cons {A} f a (l : list A) : flagged f (a :: l) = (a, f 0%nat) :: flagged (f ∘ S) l.
Proof. done. Qed.

Lemma flagged_all_ok {A} f (l : list A) : (∀ i, f i = true) → flagged f l = all_ok l.
Proof.
  intros Hf. unfold flagged, all_ok. rewrite <- imap_const. apply imap_ext. intros i a _. by rewrite Hf.
Qed.

(** A write to the terminal fails, before the writer is taken away. *)
Fixpoint write_fails (l : list (PtyControl * bool)) : bool :=
  match l with
  | [] => false
  | (m, write_ok) :: l =>
      match m with
      | PtyWrite _ => negb write_ok || write_fails l
      | PtyEof | PtyClose => false
      | _ => write_fails l
      end
  end.

Lemma before_close_cons m msgs :
  before_close (m :: msgs) = if is_close m then [] else m :: before_close msgs.
Proof. unfold before_close. simpl. destruct (is_close m), (span _ msgs); done. Qed.

Lemma inputs_of_cons m msgs :
  inputs_of (m :: msgs) =
  if is_close m then [Close]
  else match input_of m with Some i => i :: inputs_of msgs | None => inputs_of msgs end.
Proof.
  unfold inputs_of, closes. rewrite before_close_cons. simpl existsb.
  destruct (is_close m); [done|]. simpl. by destruct (input_of m).
Qed.

Section InputLemmas.
Context `{!Serde ProcessInput}.

Lemma handle_process_input_sends msgs w :
  Forall fits (inputs_of msgs) → room w = None →
  handle_process_input msgs w = send_messages process_texts (inputs_of msgs) w.
Proof.
  revert w. induction msgs as [|m msgs IH]; intros w; [done|]. rewrite inputs_of_cons.
  assert (Hgo : ∀ i, Forall fits (i :: inputs_of msgs) → room w = None →
    (let '(w', r) := send_process_message i w in
     match r with Err e => (w', Err e) | Ok _ => handle_process_input msgs w' end)
    = send_messages process_texts (i :: inputs_of msgs) w).
  { intros i [Hi Hms]%Forall_cons Hw. cbn [send_messages]. unfold send_process_message.
    destruct (send_message_fits process_texts i w) as (w' & -> & Hw'); [done..|].
    by apply IH. }
  destruct m as [d|s|cw rh pw ph| | |]; cbn [is_close input_of handle_process_input].
  - apply Hgo.
  - destruct (map_signal s); cbn [fmap option_fmap option_map]; [apply Hgo|apply IH].
  - apply Hgo.
  - apply Hgo.
  - intros [Hf _]%Forall_cons Hw. cbn [send_messages]. unfold send_process_message.
    by destruct (send_message_fits process_texts Close w) as (w' & -> & _).
  - apply IH.
Qed.

(** The executor reads exactly the messages the client's input stands for. *)
Lemma inputs_arrive `{!SerdeLaws ProcessInput} msgs :
  Forall fits (inputs_of msgs) →
  read_messages session_texts
    {| available := written (handle_process_input msgs {| written := []; room := None |}).1;
       end_error := None |} = (inputs_of msgs, Some (Ok tt)).
Proof.
  intros Hf. rewrite handle_process_input_sends by done.
  destruct (messages_round_trip process_texts session_texts (inputs_of msgs)
              {| written := []; room := None |}) as (w & -> & Hr); done.
Qed.

(** The daemon writes the first of them, all unless one cannot be written. *)
Lemma inputs_written msgs w :
  room w = None →
  ∃ sent, sent `prefix_of` inputs_of msgs ∧ Forall sendable sent ∧
    written (handle_process_input msgs w).1
    = written w ++ concat (frame <$> (payload_of <$> sent)).
Proof.
  revert w. induction msgs as [|m msgs IH]; intros w Hw.
  { exists []. split_and!; [apply prefix_nil|done|]. by rewrite app_nil_r. }
  assert (Hgo : ∀ i, inputs_of (m :: msgs) = i :: inputs_of msgs →
    ∃ sent, sent `prefix_of` inputs_of (m :: msgs) ∧ Forall sendable sent ∧
      written (let '(w', r) := send_process_message i w in
               match r with Err e => (w', Err e) | Ok _ => handle_process_input msgs w' end).1
      = written w ++ concat (frame <$> (payload_of <$> sent))).
  { intros i ->. unfold send_process_message.
    destruct (send_message_cases process_texts i w Hw) as [[Hi ->]|[e ->]].
    - destruct (IH {| written := written w ++ frame (payload_of i); room := None |} eq_refl)
        as (sent & Hp & Hs & ->).
      exists (i :: sent). split_and!; [by apply prefix_cons|by constructor|].
      rewrite !fmap_cons, concat_cons. cbn [written]. by rewrite <- app_assoc.
    - exists []. split_and!; [apply prefix_nil|done|]. by rewrite app_nil_r. }
  rewrite inputs_of_cons in *.
  destruct m as [d|s|cw rh pw ph| | |]; cbn [is_close input_of handle_process_input] in *.
  - by apply Hgo.
  - destruct (map_signal s); cbn [fmap option_fmap option_map] in *; [by apply Hgo|by apply IH].
  - by apply Hgo.
  - by apply Hgo.
  - cbn [fst]. unfold send_process_message.
    destruct (send_message_cases process_texts Close w Hw) as [[Hi ->]|[e ->]].
    + exists [Close]. split_and!; [done|by constructor|]. cbn. by rewrite app_nil_r.
    + exists []. split_and!; [apply prefix_nil|done|]. by rewrite app_nil_r.
  - by apply IH.
Qed.

(** From a stream that ends anywhere the executor reads the first of them. *)
Lemma inputs_arrive_cut `{!SerdeLaws ProcessInput} msgs n e :
  ∃ ins fin, read_messages session_texts
      {| available := take n (written (handle_process_input msgs {| written := []; room := None |}).1);
         end_error := e |} = (ins, Some fin) ∧ ins `prefix_of` inputs_of msgs.
Proof.
  destruct (inputs_written msgs {| written := []; room := None |} eq_refl) as (sent & Hp & Hs & ->).
  cbn [written app]. unfold read_messages.
  match goal with |- context [read_loop _ ?f ?r] =>
    pose proof (read_loop_cut session_texts sent n f e Hs) as Hcut;
    destruct (@read_loop_ends ProcessInput _ session_texts f r) as [fin Hfin]; [lia|];
    destruct (read_loop session_texts f r) as [ins fin'] end.
  cbn [fst snd] in *. subst fin'. exists ins, fin. split; [done|]. by transitivity sent.
Qed.
End InputLemmas.

Lemma stdin_bytes_app es es' : stdin_bytes (es ++ es') = stdin_bytes es ++ stdin_bytes es'.
Proof. unfold stdin_bytes. by rewrite omap_app, concat_app. Qed.

Lemma signals_sent_app es es' : signals_sent (es ++ es') = signals_sent es ++ signals_sent es'.
Proof. apply omap_app. Qed.

Lemma stdin_bytes_write d : stdin_bytes [WriteInput d] = d.
Proof. apply app_nil_r. Qed.

Lemma send_signal_in_range pid s : 0 ≤ pid ≤ i32_max → send_signal_to_pid pid s = [SignalPid pid s].
Proof. intros H. unfold send_signal_to_pid. by rewrite (proj2 (try_from_Some i32_max pid pid)). Qed.

Lemma piped_input_effects pid msgs :
  0 ≤ pid ≤ i32_max →
  let es := (handle_piped_service_input pid (all_ok (inputs_of msgs)) (Ok tt)).1 in
  stdin_bytes es = channel_bytes (before_close msgs) ∧
  signals_sent es = channel_signals (before_close msgs) ++ (if closes msgs then [SIGKILL] else []) ∧
  last es = Some DropStdin.
Proof.
  intros Hpid. induction msgs as [|m msgs IH]; [done|].
  unfold closes. rewrite inputs_of_cons, before_close_cons. cbn [existsb].
  destruct m as [d|s|cw rh pw ph| | |]; cbn [is_close input_of orb]; [| | | | |exact IH].
  5: { simpl. by rewrite send_signal_in_range. }
  all: try (destruct (map_signal s) as [s'|] eqn:Hs; cbn [fmap option_fmap option_map];
            [|unfold channel_bytes, channel_signals in *; simpl; rewrite Hs; simpl; exact IH]).
  all: cbn [all_ok fmap list_fmap handle_piped_service_input]; fold (all_ok (inputs_of msgs));
    destruct (handle_piped_service_input pid (all_ok (inputs_of msgs)) (Ok tt)) as [es r];
    cbn [fst] in *; destruct IH as (IHb & IHs & IHl);
    rewrite ?send_signal_in_range, stdin_bytes_app, signals_sent_app, last_app, IHl, IHb, IHs by done;
    rewrite ?stdin_bytes_write;
    unfold channel_bytes, channel_signals; simpl; rewrite ?Hs; simpl;
    split_and!; done.
Qed.

(** A signal the executor does not know is not passed on. *)
Lemma unmapped_signal s msgs :
  map_signal s = None →
  channel_bytes (ChannelSignal s :: msgs) = channel_bytes msgs ∧
  channel_signals (ChannelSignal s :: msgs) = channel_signals msgs.
Proof. intros Hs. unfold channel_bytes, channel_signals. simpl. by rewrite Hs. Qed.

(** Of input that stops anywhere, with writes that may fail, the child gets the
    first part. *)
Lemma piped_input_prefix pid l fin msgs :
  0 ≤ pid ≤ i32_max → l.*1 `prefix_of` inputs_of msgs →
  let es := (handle_piped_service_input pid l fin).1 in
  stdin_bytes es `prefix_of` channel_bytes (before_close msgs) ∧
  signals_sent es
    `prefix_of` channel_signals (before_close msgs) ++ (if closes msgs then [SIGKILL] else []) ∧
  last es = Some DropStdin.
Proof.
  intros Hpid. revert l. induction msgs as [|m msgs IH]; intros l Hl.
  { destruct l; [|by apply prefix_nil_inv in Hl]. destruct fin; split_and!; done || apply prefix_nil. }
  destruct l as [|[i ok] l]; [destruct fin; split_and!; done || apply prefix_nil|].
  unfold closes. rewrite inputs_of_cons, before_close_cons in *. cbn [existsb].
  destruct m as [d|s|cw rh pw ph| | |]; cbn [is_close input_of orb fst fmap list_fmap] in *; [| | | | |by apply IH].
  5: { apply prefix_cons_inv_1 in Hl as ->. cbn. rewrite send_signal_in_range by done. by split_and!. }
  all: try (destruct (map_signal s) as [s'|] eqn:Hs; cbn [fmap option_fmap option_map] in *;
            [|destruct (unmapped_signal s (before_close msgs) Hs) as [-> ->]; by apply IH]).
  all: pose proof (prefix_cons_inv_1 _ _ _ _ Hl) as ->; apply prefix_cons_inv_2 in Hl;
    cbn [handle_piped_service_input]; try (destruct ok; [|split_and!; done || apply prefix_nil]);
    destruct (IH l Hl) as (IHb & IHs & IHl); destruct (handle_piped_service_input pid l fin) as [es r];
    cbn [fst] in *;
    rewrite ?send_signal_in_range, stdin_bytes_app, signals_sent_app, last_app, IHl by done;
    rewrite ?stdin_bytes_write;
    unfold channel_bytes, channel_signals in *; simpl in *; rewrite ?Hs; simpl;
    split_and!; try done; by apply prefix_app || by apply prefix_cons.
Qed.

Lemma before_eof_cons m msgs :
  before_eof (m :: msgs) = match m with ChannelEof => [] | _ => m :: before_eof msgs end.
Proof. unfold before_eof. destruct m; cbn [span]; try done; by destruct (span (λ m, match m with ChannelEof => false | _ => true end) msgs). Qed.

Lemma handle_pty_cons i is' :
  handle_pty_service_input (all_ok (i :: is')) (Ok tt) =
  match i with
  | Close => ([PtyClose; PtyClose], Ok tt)
  | _ =>
      let '(cs, r) := handle_pty_service_input (all_ok is') (Ok tt) in
      (match i with
       | Data d => PtyWrite d | Signal s => PtySignal s | Resize z => PtyResize z | _ => PtyEof
       end :: cs, r)
  end.
Proof. by destruct i. Qed.

(** The effects of a PTY session up to the close that ends it. *)
Lemma pty_input_effects group msgs open :
  let cs := (handle_pty_service_input (all_ok (inputs_of msgs)) (Ok tt)).1 in
  let es := run_pty_control group open (all_ok cs) in
  stdin_bytes es = (if open : bool then channel_bytes (before_eof (before_close msgs)) else []) ∧
  signals_sent es
  = match group with Some _ => channel_signals (before_close msgs) | None => [] end ∧
  last es = Some KillChild.
Proof.
  revert open. induction msgs as [|m msgs IH]; intros open; [by destruct open, group|].
  rewrite inputs_of_cons, before_close_cons.
  destruct m as [d|s|cw rh pw ph| | |]; cbn [is_close input_of].
  5: by destruct open, group.
  all: try (destruct (map_signal s) as [s'|] eqn:Hs; cbn [fmap option_fmap option_map]).
  all: rewrite ?handle_pty_cons, before_eof_cons;
    destruct (handle_pty_service_input (all_ok (inputs_of msgs)) (Ok tt)) as [cs r];
    cbn [fst] in *.
  all: destruct (IH open) as (IHb & IHs & IHl), (IH false) as (IHb' & IHs' & IHl'); clear IH;
    destruct open, group;
    unfold stdin_bytes, signals_sent, channel_bytes, channel_signals in *; csimpl in *;
    rewrite ?Hs; csimpl; rewrite ?IHb, ?IHs, ?IHb', ?IHs';
    rewrite ?last_cons, ?IHl, ?IHl'; done.
Qed.

(** The child on a terminal gets the first part too. *)
Lemma pty_input_prefix group l fin msgs open f :
  l.*1 `prefix_of` inputs_of msgs →
  let es := run_pty_control group open (flagged f (handle_pty_service_input l fin).1) in
  stdin_bytes es `prefix_of` (if open : bool then channel_bytes (before_eof (before_close msgs)) else []) ∧
  signals_sent es
    `prefix_of` match group with Some _ => channel_signals (before_close msgs) | None => [] end.
Proof.
  assert (∀ open f, let es := run_pty_control group open (flagged f [PtyClose]) in
    stdin_bytes es = [] ∧ signals_sent es = []) as Hclose by (by intros []).
  assert (∀ fin open f, let es := run_pty_control group open (flagged f (handle_pty_service_input [] fin).1) in
    stdin_bytes es = [] ∧ signals_sent es = []) as Hend by (by intros [] []).
  revert l open f. cbn zeta in *. induction msgs as [|m msgs IH]; intros l open f Hl.
  { destruct l; [|by apply prefix_nil_inv in Hl]. destruct (Hend fin open f) as [-> ->]. split; apply prefix_nil. }
  destruct l as [|[i ok] l]; [destruct (Hend fin open f) as [-> ->]; split; apply prefix_nil|].
  rewrite inputs_of_cons, before_close_cons in *.
  destruct m as [d|s|cw rh pw ph| | |]; cbn [is_close input_of fst fmap list_fmap] in *;
    [| | | | |rewrite before_eof_cons; by apply IH].
  5: { apply prefix_cons_inv_1 in Hl as ->. cbn. destruct open; split; apply prefix_nil. }
  all: try (destruct (map_signal s) as [s'|] eqn:Hs; cbn [fmap option_fmap option_map] in *;
            [|rewrite before_eof_cons, (proj2 (unmapped_signal s (before_close msgs) Hs)),
                (proj1 (unmapped_signal s (before_eof (before_close msgs)) Hs)); by apply IH]).
  all: pose proof (prefix_cons_inv_1 _ _ _ _ Hl) as ->; apply prefix_cons_inv_2 in Hl;
    cbn [handle_pty_service_input];
    try (destruct ok; [|cbn [fst]; destruct (Hclose open f) as [-> ->]; split; apply prefix_nil]);
    destruct (IH l open (f ∘ S) Hl) as [IHb IHs], (IH l false (f ∘ S) Hl) as [IHb' IHs'];
    destruct (handle_pty_service_input l fin) as [cs r]; cbn [fst] in *;
    rewrite flagged_cons, before_eof_cons; cbn [run_pty_control]; clear Hclose Hend IH.
  - destruct open, (f 0%nat); try (split; apply prefix_nil).
    all: unfold stdin_bytes, signals_sent, channel_bytes, channel_signals in *; csimpl.
    all: split; try done; by apply prefix_app.
  - unfold stdin_bytes, signals_sent, channel_bytes, channel_signals in *; destruct group; csimpl in *;
      rewrite ?Hs; csimpl; split; try done; by apply prefix_cons.
  - unfold stdin_bytes, signals_sent, channel_bytes, channel_signals in *; csimpl in *; by split.
  - unfold stdin_bytes, signals_sent, channel_bytes, channel_signals in *; destruct open; csimpl in *; by split.
Qed.

(** The control thread kills the child when it is told to close and no write
    failed before. *)
Lemma pty_killed_iff group open l :
  last (run_pty_control group open l) = Some KillChild ↔
  PtyClose ∈ l.*1 ∧ (open && write_fails l) = false.
Proof.
  revert open. induction l as [|[m ok] l IH]; intros open.
  { cbn. split; [done|]. set_solver. }
  assert (∀ e o, e ≠ KillChild → last (e :: run_pty_control group o l) = Some KillChild ↔
    last (run_pty_control group o l) = Some KillChild) as Hcons.
  { intros e o He. rewrite last_cons. by destruct (last (run_pty_control group o l)); naive_solver. }
  cbn [run_pty_control write_fails fmap list_fmap fst]. rewrite elem_of_cons.
  destruct m; [destruct open, ok| |destruct group|destruct open|destruct open]; cbn [app andb negb orb];
    rewrite ?Hcons, ?IH by done; cbn; naive_solver.
Qed.

(** It is told to when the client closes the channel or its stream ends cleanly. *)
Lemma pty_close_iff ins fin :
  PtyClose ∈ (handle_pty_service_input (all_ok ins) fin).1 ↔ Close ∈ ins ∨ fin = Ok tt.
Proof.
  induction ins as [|i ins IH].
  { destruct fin as [[]|e]; cbn; set_solver. }
  rewrite elem_of_cons. destruct i; cbn [all_ok fmap list_fmap handle_pty_service_input]; fold (all_ok ins);
    try (destruct (handle_pty_service_input (all_ok ins) fin) as [cs r]; cbn [fst] in *;
         rewrite elem_of_cons, IH; naive_solver).
  cbn. set_solver.
Qed.

(** *** Output *)

(** A chunk the executor read from the child. *)
Definition is_chunk (o : ProcessOutput) : Prop :=
  match o with
  | Stdout d | Stderr d => Z.of_nat (length d) ≤ CHUNK ∧ Forall (λ b, (b < 256)%N) d
  | ExitStatus _ => False
  end.

(** The channel message a chunk becomes: standard error is extended data of
    type 1. *)
Definition to_channel (o : ProcessOutput) : channel_out :=
  match o with
  | Stdout d => OutData d
  | Stderr d => OutExtended 1 d
  | ExitStatus c => OutExitStatus c
  end.

Definition full_read (r : result io_error bytes) : Prop :=
  match r with
  | Ok d => Z.of_nat (length d) ≤ CHUNK ∧ Forall (λ b, (b < 256)%N) d
  | Err _ => True
  end.

Lemma read_process_stream_chunks which reads :
  Forall full_read reads → Forall is_chunk (read_process_stream which reads).
Proof.
  induction 1 as [|[[|b d]|e] reads Hr H IH]; try constructor; [|done]. by destruct which.
Qed.

Lemma run_pty_reader_chunks reads :
  Forall full_read reads → Forall is_chunk (run_pty_reader reads).
Proof.
  induction 1 as [|[[|b d]|e] reads Hr H IH]; try constructor; try done.
  simpl. by case_decide.
Qed.

(** serde_json writes a byte array as decimal numbers and commas in brackets,
    at most four characters a byte, inside a small object. *)
Class SerdeSize `{!Serde ProcessOutput} : Prop := {
  chunk_size o : is_chunk o → ∃ p, to_vec o = Ok p ∧
    Z.of_nat (length p)
    ≤ 4 * match o with Stdout d | Stderr d => Z.of_nat (length d) | _ => 0 end + 16;
  exit_size c : 0 ≤ c ≤ u32_max → ∃ p, to_vec (ExitStatus c) = Ok p ∧ Z.of_nat (length p) ≤ 32;
}.

Section OutputLemmas.
Context `{!Serde ProcessOutput}.
Context (on_break on_exit : list child_effect).

Lemma chunk_fits `{!SerdeSize} o : is_chunk o → fits o.
Proof.
  intros Ho. destruct (chunk_size o Ho) as (p & Hp & Hlen). exists p. split; [done|].
  unfold MAX_SESSION_MESSAGE_SIZE. unfold is_chunk, CHUNK in *.
  destruct o as [d|d|c]; [..|done]; destruct Ho as [Ho _]; lia.
Qed.

Lemma exit_fits `{!SerdeSize} c : 0 ≤ c ≤ u32_max → fits (ExitStatus c).
Proof.
  intros (p & Hp & Hlen)%exit_size. exists p. split; [done|]. unfold MAX_SESSION_MESSAGE_SIZE. lia.
Qed.

Lemma loop_not_done s : output_closed s = false → broken s = false → loop_done s = false.
Proof. unfold loop_done. by intros -> ->. Qed.

Lemma service_loop_outputs os evs s w :
  output_closed s = false → broken s = false →
  send_messages session_texts os (stream s) = (w, Ok tt) →
  service_loop on_break on_exit ((OutputReady ∘ Some <$> os) ++ evs) s
  = service_loop on_break on_exit evs (set_stream w s).
Proof.
  revert s. induction os as [|o os IH]; intros s Hc Hb.
  - cbn [send_messages]. intros [= <-]. by destruct s.
  - cbn [send_messages fmap list_fmap app service_loop compose].
    rewrite loop_not_done by done. cbn [service_turn]. rewrite Hc. unfold send_session_message.
    destruct (send_message session_texts o (stream s)) as [w' [[]|e]]; [|done]. intros Hs.
    cbn [mbind option_bind]. by rewrite (IH (set_stream w' s)).
Qed.

(** Outputs, the end of the output and the exit, in either order, end the loop
    with everything sent. *)
Lemma service_loop_complete os code l1 l2 s w c :
  l1 ++ l2 = (OutputReady ∘ Some <$> os) ++ [OutputReady None] →
  output_closed s = false → broken s = false → child_exit s = None →
  default 255 code = c →
  send_messages session_texts os (stream s) = (w, Ok tt) →
  service_loop on_break on_exit (l1 ++ ChildExited code :: l2) s
  = Some {| child_exit := Some c; output_closed := true;
            stream := (send_session_message (ExitStatus c) w).1;
            service_effects := service_effects s ++ on_exit; broken := false |}.
Proof.
  intros Hl Hc Hb Hx <- Hs.
  assert (∃ os1 os2, os = os1 ++ os2 ∧ l1 = (OutputReady ∘ Some <$> os1) ∧
            l2 = (OutputReady ∘ Some <$> os2) ++ [OutputReady None] ∨
          l1 = (OutputReady ∘ Some <$> os) ++ [OutputReady None] ∧ l2 = [])
    as (os1 & os2 & [(-> & -> & ->)|[-> ->]]).
  { apply app_eq_inv in Hl as [(k & -> & Hk)|(k & Hk & ->)].
    - destruct k as [|a k]; simplify_eq/=.
      + exists os, []. left. by rewrite !app_nil_r.
      + destruct k, l2; simplify_eq/=. exists [], []. by right.
    - apply fmap_app_inv in Hk as (os1 & os2 & -> & -> & ->). exists os1, os2. by left. }
  - rewrite send_messages_app in Hs.
    destruct (send_messages session_texts os1 (stream s)) as [w1 [[]|e]] eqn:E1; [|done].
    rewrite (service_loop_outputs os1 _ s w1) by done.
    cbn [service_loop]. rewrite loop_not_done by done. unfold service_turn at 1. cbn [child_exit set_stream].
    rewrite Hx.
    cbn [mbind option_bind]. rewrite (service_loop_outputs os2 _ _ w) by done.
    cbn [service_loop]. rewrite loop_not_done by done. destruct s; simplify_eq/=. done.
  - rewrite <- app_assoc, (service_loop_outputs os _ s w) by done.
    cbn [app service_loop]. rewrite loop_not_done by done. destruct s; simplify_eq/=. done.
Qed.

Lemma bridge_loop_chunks os fin exit k :
  Forall is_chunk os → slots k = None →
  ∀ rest, bridge_loop (os ++ rest) fin exit k
  = bridge_loop rest fin exit {| delivered := delivered k ++ (to_channel <$> os); slots := None |}.
Proof.
  intros H. revert k. induction H as [|o os Ho H IH]; intros k Hk rest.
  - simpl. rewrite app_nil_r. by destruct k; simplify_eq/=.
  - destruct o as [d|d|c]; [..|done]; cbn [app bridge_loop to_channel]; unfold deliver; rewrite Hk, IH by done;
      cbn [delivered]; by rewrite <- app_assoc.
Qed.
(** Chunks and an exit status sent one after the other arrive at the channel. *)
Lemma sent_output_arrives `{!SerdeLaws ProcessOutput, !SerdeSize} os c :
  Forall is_chunk os → 0 ≤ c ≤ u32_max →
  ∃ w, send_messages session_texts os (stream service_start) = (w, Ok tt) ∧
    bridge_process_channel
      {| available := written (send_session_message (ExitStatus c) w).1; end_error := None |}
      {| delivered := []; slots := None |}
    = ({| delivered := (to_channel <$> os) ++ [OutExitStatus c; OutEof; OutClose]; slots := None |},
       Some (Ok tt)).
Proof.
  intros Hos Hc. assert (Forall fits (os ++ [ExitStatus c])) as Hfits.
  { apply Forall_app. split; [by eapply Forall_impl, chunk_fits|]. by constructor; [apply exit_fits|]. }
  destruct (messages_round_trip session_texts process_texts (os ++ [ExitStatus c])
              {| written := []; room := None |}) as (w & Hw & Hr); [done..|].
  rewrite send_messages_app in Hw. cbn [stream service_start].
  destruct (send_messages session_texts os _) as [w1 [[]|e]] eqn:Hw1; [|done].
  exists w1. split; [done|]. unfold send_session_message. cbn [send_messages] in Hw.
  destruct (send_message session_texts (ExitStatus c) w1) as [w2 [[]|e]]; inversion Hw; subst.
  unfold bridge_process_channel. cbn [fst]. rewrite Hr, bridge_loop_chunks by done. simpl.
  by rewrite <- !app_assoc.
Qed.
End OutputLemmas.

(** ** Properties *)

(** C8: what a child writes reaches the client, whatever the order in which the
    executor notices its end.  For chunks of the size the executor reads, and
    the child's exit noticed before, between or after any of them, over a stream
    and into a channel that take all of it, the service loop ends; the daemon's bridge then gives the channel exactly the chunks in
    order (standard error as extended data), the exit status (255 when it is
    unknown) after all of them, and then the end of the channel.  The piped
    service touches the child no more; the PTY service closes its control
    side. *)
Theorem child_output_reaches_client
  `{!Serde ProcessOutput, !SerdeLaws ProcessOutput, !SerdeSize}
  (pid : Z) (os : list ProcessOutput) (code : option Z) (l1 l2 : list service_event) :
  Forall is_chunk os →
  l1 ++ l2 = (OutputReady ∘ Some <$> os) ++ [OutputReady None] →
  0 ≤ default 255 code ≤ u32_max →
  ∃ s, piped_service pid (l1 ++ ChildExited code :: l2) service_start = Some s ∧
    service_effects s = [] ∧
    pty_service (l1 ++ ChildExited code :: l2) service_start
    = Some {| child_exit := child_exit s; output_closed := true; stream := stream s;
              service_effects := [SendControlClose]; broken := false |} ∧
    bridge_process_channel {| available := written (stream s); end_error := None |}
                           {| delivered := []; slots := None |}
    = ({| delivered := (to_channel <$> os) ++ [OutExitStatus (default 255 code); OutEof; OutClose];
          slots := None |}, Some (Ok tt)).
Proof.
  intros Hos Hl Hcode. destruct (sent_output_arrives os (default 255 code) Hos Hcode) as (w & Hw & Hb).
  unfold piped_service, pty_service.
  rewrite !(service_loop_complete _ _ os code l1 l2 service_start w (default 255 code)) by done.
  eexists. by split.
Qed.

(** C21: what a child without a terminal is given is what the client sent, in order,
    and nothing else.  Whatever the client sends, wherever the stream from the
    daemon ends and however, and whichever writes to the child fail: the bytes the
    child gets are a first part of the channel's data before its close, the signals
    the input task sends are the first of the client's, followed by SIGKILL when
    the client closes the channel, and the stdin is dropped last.  They are all of
    them when every message fits the frame limit of a mebibyte, the stream is read
    to its clean end and no write to the child fails. *)
Theorem client_input_reaches_piped_child
  `{!Serde ProcessInput, !SerdeLaws ProcessInput} (pid : Z) (msgs : list ChannelMsg)
  (n : nat) (e : option io_error) (write_ok : nat → bool) :
  0 ≤ pid ≤ i32_max →
  let sent := written (handle_process_input msgs {| written := []; room := None |}).1 in
  ∃ ins fin,
    read_messages session_texts {| available := take n sent; end_error := e |} = (ins, Some fin) ∧
    let es := (handle_piped_service_input pid (flagged write_ok ins) fin).1 in
    let signals := channel_signals (before_close msgs) ++ (if closes msgs then [SIGKILL] else []) in
    stdin_bytes es `prefix_of` channel_bytes (before_close msgs) ∧
    signals_sent es `prefix_of` signals ∧
    last es = Some DropStdin ∧
    (Forall fits (inputs_of msgs) → (length sent ≤ n)%nat → e = None → (∀ i, write_ok i = true) →
     stdin_bytes es = channel_bytes (before_close msgs) ∧ signals_sent es = signals).
Proof.
  intros Hpid. cbn zeta. destruct (inputs_arrive_cut msgs n e) as (ins & fin & Hr & Hp).
  exists ins, fin. split; [done|].
  destruct (piped_input_prefix pid (flagged write_ok ins) fin msgs Hpid) as (Hb & Hs & Hl).
  { by rewrite flagged_fst. }
  split_and!; [done..|]. intros Hf Hn -> Hok. rewrite take_ge, inputs_arrive in Hr by done. simplify_eq.
  rewrite flagged_all_ok by done. by destruct (piped_input_effects pid msgs Hpid) as (? & ? & _).
Qed.

(** C28: a child on a terminal is given what the client sent, and is killed at the
    end exactly when the control thread is told to close and no write to the
    terminal failed before.  Whatever the client sends, wherever the stream from
    the daemon ends and however, whichever writes fail and whenever the input task
    finds the control thread gone: the child gets a first part of the channel's
    data before the client's EOF or close, and its process group the first of the
    client's signals.  A thread that is still there is told to close exactly when the
    client's close was read or the stream ended cleanly, not when it ended with an
    error.  When every message fits the frame limit of a mebibyte, the stream is
    read to its clean end, the thread is there and no write fails, the child gets everything and is then killed, whether the
    client closed the channel or went away. *)
Theorem pty_child_is_killed_at_the_end
  `{!Serde ProcessInput, !SerdeLaws ProcessInput} (group : option Z) (msgs : list ChannelMsg)
  (n : nat) (e : option io_error) (alive write_ok : nat → bool) :
  let sent := written (handle_process_input msgs {| written := []; room := None |}).1 in
  ∃ ins fin,
    read_messages session_texts {| available := take n sent; end_error := e |} = (ins, Some fin) ∧
    let cs := (handle_pty_service_input (flagged alive ins) fin).1 in
    let es := run_pty_control group true (flagged write_ok cs) in
    let data := channel_bytes (before_eof (before_close msgs)) in
    let signals := match group with Some _ => channel_signals (before_close msgs) | None => [] end in
    stdin_bytes es `prefix_of` data ∧ signals_sent es `prefix_of` signals ∧
    (last es = Some KillChild ↔ PtyClose ∈ cs ∧ write_fails (flagged write_ok cs) = false) ∧
    ((∀ i, alive i = true) → PtyClose ∈ cs ↔ Close ∈ ins ∨ fin = Ok tt) ∧
    (Forall fits (inputs_of msgs) → (length sent ≤ n)%nat → e = None → (∀ i, alive i = true) →
     (∀ i, write_ok i = true) →
     stdin_bytes es = data ∧ signals_sent es = signals ∧ last es = Some KillChild).
Proof.
  cbn zeta. destruct (inputs_arrive_cut msgs n e) as (ins & fin & Hr & Hp).
  exists ins, fin. split; [done|].
  destruct (pty_input_prefix group (flagged alive ins) fin msgs true write_ok) as (Hb & Hs).
  { by rewrite flagged_fst. }
  split_and!; [done..| | |].
  - rewrite pty_killed_iff, flagged_fst. done.
  - intros Ha. rewrite flagged_all_ok by done. apply pty_close_iff.
  - intros Hf Hn -> Ha Hok. rewrite take_ge, inputs_arrive in Hr by done. simplify_eq.
    rewrite !flagged_all_ok by done. apply (pty_input_effects group msgs true).
Qed.

(** C22: a child without a terminal does not outlive the session's input, and does
    not survive closing its own.  While the input task runs, the task that waits
    for the child leaves it alone; when the input task is over, for whatever
    reason, its sender is gone and a child that still runs is killed.  One such
    reason is a write that fails because the child closed its stdin: then what
    the client sent later is never delivered, and the child is killed although
    the client neither closed the channel nor went away. *)
Theorem piped_child_ends_with_its_input pid sent d later after kill_first :
  Forall (λ m, m ≠ Close) sent →
  piped_wait unix_kill_channel None kill_first after = None ∧
  piped_wait (drop_sender unix_kill_channel) None kill_first after = Some ([KillChild], wait_result after) ∧
  handle_piped_service_input pid (all_ok sent ++ (Data d, false) :: later) (Ok tt)
  = handle_piped_service_input pid (all_ok sent) (Ok tt).
Proof.
  intros Hs. split_and!; [done..|]. induction Hs as [|m sent Hm Hs IH]; [done|].
  cbn [all_ok fmap list_fmap app handle_piped_service_input]. fold (all_ok sent).
  destruct m as [data|signal|size| |]; try done; by rewrite IH.
Qed.

(** C30: what a client can put into the environment of its process.  A shell or
    command for a channel gets HOME, USER, LOGNAME and SHELL of the daemon, which
    no client can override; the client's TERM, COLORTERM, LANG, TZ and LC_
    variables; TERM of the terminal request when the client did not set it; and
    every other variable as it is inherited from the executor, whose environment
    is not cleared. *)
Theorem child_environment_is_filtered h c u p command inherited k :
  child_environment inherited (service_command h (Session.process_request c u p command)) !! k =
  if bool_decide (k ∈ Session.daemon_vars)
  then Some (if bool_decide (k = lit "HOME") then Session.home_dir u
             else if bool_decide (k = lit "SHELL") then Config.shell c
             else Session.daemon_username u)
  else if Session.is_env_allowed k then
    match Session.env p !! k, Session.term <$> Session.pty p with
    | Some v, _ => Some v
    | None, Some t => if bool_decide (k = lit "TERM") then Some t else inherited !! k
    | None, None => inherited !! k
    end
  else inherited !! k.
Proof.
  unfold child_environment. cbn [env_overrides service_command Session.request_env Session.process_request].
  rewrite lookup_union, Session.build_child_env_filters.
  repeat case_match; simplify_eq; by destruct (inherited !! k).
Qed.

(** A stream that breaks in the middle of a message is not the end of the
    input: the task ends with the error, and neither closes a terminal nor
    signals a piped child. *)
Theorem broken_input_sends_no_kill pid group msgs e :
  Forall (λ m, m ≠ Close) msgs →
  (KillChild ∉ run_pty_control group true (all_ok (handle_pty_service_input (all_ok msgs) (Err e)).1)) ∧
  (handle_pty_service_input (all_ok msgs) (Err e)).2 = Err e ∧
  (handle_piped_service_input pid (all_ok msgs) (Err e)).2 = Err e.
Proof.
  intros H. generalize true at 1. induction H as [|m msgs Hm H IH]; intros open.
  { split_and!; [apply not_elem_of_nil|done..]. }
  cbn [all_ok fmap list_fmap handle_pty_service_input handle_piped_service_input]. fold (all_ok msgs).
  destruct (handle_pty_service_input (all_ok msgs) (Err e)) as [cs r],
    (handle_piped_service_input pid (all_ok msgs) (Err e)) as [es r'].
  destruct (IH open) as (H1 & H2 & H3), (IH false) as (H1' & _). clear IH. cbn [fst snd] in *. subst.
  destruct m as [data|signal|size| |]; try done; split_and!; try done;
    cbn [fst all_ok fmap list_fmap run_pty_control]; fold (all_ok cs);
    destruct open, group; cbn [app]; rewrite ?elem_of_cons; naive_solver.
Qed.

(** The exit status the client sees is a number between 0 and 255: the code of a
    child that exited, 128 plus the signal number of one that was killed (with
    or without a core dump), and 255 for a status that is neither. *)
Theorem exit_status_is_the_childs (status : Z) :
  0 ≤ status < 65536 →
  0 ≤ exit_status_code status ≤ 255 ∧
  (∀ c, 0 ≤ c < 256 → status = c * 256 → exit_status_code status = c) ∧
  (∀ s core, 1 ≤ s ≤ 126 → core = 0 ∨ core = 128 → status = core + s →
     exit_status_code status = 128 + s).
Proof.
  intros Hs.
  assert (Hland : ∀ a, 0 ≤ a → Z.land a 127 = a mod 128)
    by (intros; change 127 with (Z.ones 7); by rewrite Z.land_ones).
  assert (Hcode : Z.land (Z.shiftr status 8) 255 = status / 256 mod 256)
    by (change 255 with (Z.ones 8); by rewrite Z.land_ones, Z.shiftr_div_pow2).
  unfold exit_status_code, wait_code, wait_signal. rewrite Hland, Hcode by lia.
  pose proof (Z.mod_pos_bound status 128). pose proof (Z.mod_pos_bound (status / 256) 256).
  split; [|split].
  - destruct (_ =? 0); [lia|]. destruct (_ && _) eqn:Hb; bool_to_prop; lia.
  - intros c Hc ->. replace (c * 256) with (c * 2 * 128) by lia. rewrite Z.mod_mul by lia.
    replace (c * 2 * 128) with (c * 256) by lia. rewrite Z.div_mul, Z.mod_small by lia. done.
  - intros s core Hsig Hcore ->. replace ((core + s) mod 128) with s.
    + rewrite (proj2 (Z.eqb_neq s 0)), (proj2 (Z.leb_le 1 s)), (proj2 (Z.leb_le s 126)) by lia. done.
    + destruct Hcore as [-> | ->]; [by rewrite Z.mod_small by lia|].
      replace (128 + s) with (s + 1 * 128) by lia. by rewrite Z.mod_add, Z.mod_small by lia.
Qed.

(** ** Witnesses, with the concrete encoding of [Framing] *)

#[local] Existing Instances demo_input_serde demo_output_serde demo_input_laws demo_output_laws.

#[local] Instance demo_output_size : SerdeSize.
Proof.
  split.
  - intros [d|d|c] Ho; [| |done]; (eexists; split; [reflexivity|]); simpl length; lia.
  - intros c Hc. cbn [to_vec demo_output_serde]. unfold in_u32.
    rewrite (proj2 (Z.leb_le 0 c)), (proj2 (Z.leb_le c u32_max)) by lia.
    eexists. split; [reflexivity|]. by vm_compute.
Qed.

Definition demo_chunks : list ProcessOutput := [Stdout (lit "out"); Stderr (lit "err")].

(** The child exits before its second chunk is read. *)
Lemma child_output_reaches_client_witness :
  ∃ s, piped_service 7 [OutputReady (Some (Stdout (lit "out"))); ChildExited (Some 3);
                        OutputReady (Some (Stderr (lit "err"))); OutputReady None] service_start
       = Some s ∧
    (bridge_process_channel {| available := written (stream s); end_error := None |}
                            {| delivered := []; slots := None |}).1
    = {| delivered := [OutData (lit "out"); OutExtended 1 (lit "err"); OutExitStatus 3; OutEof; OutClose];
         slots := None |}.
Proof.
  destruct (child_output_reaches_client 7 demo_chunks (Some 3)
              [OutputReady (Some (Stdout (lit "out")))]
              [OutputReady (Some (Stderr (lit "err"))); OutputReady None]) as (s & Hs & _ & _ & Hb).
  - repeat constructor; by vm_compute.
  - reflexivity.
  - by vm_compute.
  - exists s. split; [exact Hs|]. by rewrite Hb.
Defined.

Definition demo_input : list ChannelMsg :=
  [ChannelData (lit "a"); ChannelSignal HUP; ChannelSignal (Custom (lit "X")); ChannelData (lit "b");
   ChannelEof; ChannelClose; ChannelData (lit "late")].

Lemma demo_input_fits : Forall fits (inputs_of demo_input).
Proof. repeat constructor; eexists; (split; [reflexivity|by vm_compute]). Qed.

(** Everything arrives; and the second write to the child fails. *)
Lemma client_input_reaches_piped_child_witness :
  (∃ ins fin, stdin_bytes (handle_piped_service_input 7 (flagged (λ _, true) ins) fin).1 = lit "ab") ∧
  (∃ ins fin, stdin_bytes (handle_piped_service_input 7 (flagged (λ i, (i =? 0)%nat) ins) fin).1
              `prefix_of` lit "ab").
Proof.
  split.
  - destruct (client_input_reaches_piped_child 7 demo_input 100 None (λ _, true))
      as (ins & fin & _ & _ & _ & _ & Hall); [by vm_compute|].
    exists ins, fin. destruct Hall as [Hb _]; [exact demo_input_fits|vm_compute; lia|done|done|exact Hb].
  - destruct (client_input_reaches_piped_child 7 demo_input 100 None (λ i, (i =? 0)%nat))
      as (ins & fin & _ & Hb & _); [by vm_compute|].
    exists ins, fin. exact Hb.
Defined.

Lemma piped_child_ends_with_its_input_witness :
  handle_piped_service_input 7 [(Data (lit "a"), true); (Data (lit "b"), false); (Data (lit "c"), true)] (Ok tt)
  = ([WriteInput (lit "a"); ShutdownStdin; DropStdin], Ok tt) ∧
  piped_wait (drop_sender unix_kill_channel) None false (Ok 9) = Some ([KillChild], 137).
Proof.
  destruct (piped_child_ends_with_its_input 7 [Data (lit "a")] (lit "b") [(Data (lit "c"), true)] (Ok 9) false)
    as (_ & Hk & Hi); [repeat constructor; done|].
  split; [exact Hi|exact Hk].
Defined.

Lemma pty_child_is_killed_at_the_end_witness :
  ∃ cs, last (run_pty_control (Some 42) true (flagged (λ _, true) cs)) = Some KillChild ∧
    signals_sent (run_pty_control (Some 42) true (flagged (λ _, true) cs)) = [SIGHUP].
Proof.
  destruct (pty_child_is_killed_at_the_end (Some 42) demo_input 100 None (λ _, true) (λ _, true))
    as (ins & fin & _ & _ & _ & _ & _ & Hall).
  destruct Hall as (_ & Hs & Hk); [exact demo_input_fits|vm_compute; lia|done|done|done|].
  eexists. split; [exact Hk|exact Hs].
Defined.

Lemma exit_status_is_the_childs_witness :
  exit_status_code (3 * 256) = 3 ∧ exit_status_code (128 + 9) = 137.
Proof.
  destruct (exit_status_is_the_childs (3 * 256)) as (_ & Hc & _); [lia|].
  destruct (exit_status_is_the_childs (128 + 9)) as (_ & _ & Hs); [lia|].
  split; [apply Hc; lia|apply (Hs 9 128); lia].
Defined.

End Process.
