(* ===== verification/OutputSide.v ===== *)
(** * The output side of a process session (src/src/executor.rs)

    What the sessions with and without a terminal have in common: one task for
    each stream of the child reads it into a queue, a task waits for the child,
    and the service task sends what is in the queue, then the exit status.  Each
    turn of one of these tasks is a step; in between the child prints, closes its
    streams or exits, and the stream to the daemon is full for a time or breaks.
    The state of the service and its turns are those of [Process]; a terminal has
    no second stream, so there it is closed from the start. *)

From S2P Require Import Prelude Rust Session Framing Process.

Local Open Scope Z_scope.

Module OutputSide.
Import Framing Process.

(** ** State *)

(** The child; it has or has not been waited for. *)
Inductive child_state := Alive | Dead (code : Z) | Waited (code : Z).

#[global] Instance child_state_eq_dec : EqDecision child_state.
Proof. solve_decision. Defined.

#[global] Instance process_stream_eq_dec : EqDecision ProcessStream.
Proof. solve_decision. Defined.

(** A stream of the child: chunks printed and not yet read, whether nobody can
    print to it any more, whether its reader runs, and all that was printed. *)
Record source := { unread : list bytes; hung_up : bool; running : bool; printed : list bytes }.

(** [writing] is an output the service has taken and cannot write while the stream
    to the daemon is full ([stalled]). *)
Record output_side := {
  out : source;
  err : source;
  outputs : list ProcessOutput;
  writing : option ProcessOutput;
  stalled : bool;
  child : child_state;
  exit_signal : option Z;
  svc : service;
  done : bool;
  seen : list service_event;
}.

Definition open_source : source := {| unread := []; hung_up := false; running := true; printed := [] |}.
Definition no_source : source := {| unread := []; hung_up := true; running := false; printed := [] |}.

Definition side_start (e : source) : output_side := {|
  out := open_source; err := e; outputs := []; writing := None; stalled := false; child := Alive; exit_signal := None;
  svc := service_start; done := false; seen := [];
|}.

Definition get_source (w : ProcessStream) (d : output_side) : source :=
  match w with StreamStdout => out d | StreamStderr => err d end.

Definition set_source (w : ProcessStream) (x : source) (os : list ProcessOutput) (d : output_side)
  : output_side :=
  {| out := match w with StreamStdout => x | StreamStderr => out d end;
     err := match w with StreamStdout => err d | StreamStderr => x end;
     outputs := os; writing := writing d; stalled := stalled d; child := child d;
     exit_signal := exit_signal d; svc := svc d; done := done d; seen := seen d |}.
Definition set_child (c : child_state) (x : option Z) (d : output_side) : output_side :=
  {| out := out d; err := err d; outputs := outputs d; writing := writing d; stalled := stalled d;
     child := c; exit_signal := x; svc := svc d; done := done d; seen := seen d |}.
Definition set_service (v : service) (ev : service_event) (os : list ProcessOutput) (d : output_side)
  : output_side :=
  {| out := out d; err := err d; outputs := os; writing := None; stalled := stalled d;
     child := child d; exit_signal := exit_signal d; svc := v; done := done d; seen := seen d ++ [ev] |}.
Definition set_writing (o : ProcessOutput) (os : list ProcessOutput) (d : output_side) : output_side :=
  {| out := out d; err := err d; outputs := os; writing := Some o; stalled := stalled d;
     child := child d; exit_signal := exit_signal d; svc := svc d; done := done d; seen := seen d |}.
Definition set_wire (v : service) (full : bool) (d : output_side) : output_side :=
  {| out := out d; err := err d; outputs := outputs d; writing := writing d; stalled := full;
     child := child d; exit_signal := exit_signal d; svc := v; done := done d; seen := seen d |}.

(** The message a chunk of a stream becomes, and back. *)
Definition wrap (w : ProcessStream) (chunk : bytes) : ProcessOutput :=
  match w with StreamStdout => Stdout chunk | StreamStderr => Stderr chunk end.

Definition of_source (w : ProcessStream) : list ProcessOutput → list bytes :=
  omap (λ o, match w, o with
             | StreamStdout, Stdout chunk | StreamStderr, Stderr chunk => Some chunk
             | _, _ => None
             end).

(** ** The turns of the tasks *)

(** One read of [run_pty_reader] or [read_process_stream]; a chunk nobody
    receives any more ends it. *)
Definition source_turn (w : ProcessStream) (d : output_side) : option output_side :=
  let x := get_source w d in
  let with_rest rest run os := Some (set_source w
    {| unread := rest; hung_up := hung_up x; running := run; printed := printed x |} os d) in
  if negb (running x) then None else
  match unread x with
  | chunk :: rest =>
      if done d then with_rest rest false (outputs d) else with_rest rest true (outputs d ++ [wrap w chunk])
  | [] => if hung_up x then with_rest [] false (outputs d) else None
  end.

(** The child was waited for and its status passed on. *)
Definition wait_turn (d : output_side) : option output_side :=
  match child d with Dead code => Some (set_child (Waited code) (Some code) d) | _ => None end.

(** A write to an input that is full waits, unless there is nothing to write. *)
Definition write_waits (full : bool) (data : bytes) : bool := full && negb (bool_decide (data = [])).

Section Service.
Context `{!Serde ProcessOutput}.
(** What the service does to the child when its stream breaks and at the exit. *)
Context (on_break on_exit : list child_effect).

Definition turn_of_service (ev : service_event) (os : list ProcessOutput) (d : output_side) : option output_side :=
  if done d || loop_done (svc d) then None
  else v ← service_turn on_break on_exit (svc d) ev; Some (set_service v ev os d).

(** The first branch of the [select!]: an output, which is written when the stream
    takes it, or the end of them once every reader is gone. *)
Definition output_turn (d : output_side) : option output_side :=
  match writing d, outputs d with
  | Some o, os => if stalled d then None else turn_of_service (OutputReady (Some o)) os d
  | None, o :: os =>
      if stalled d then if done d || loop_done (svc d) then None else Some (set_writing o os d)
      else turn_of_service (OutputReady (Some o)) os d
  | None, [] =>
      if running (out d) || running (err d) then None else turn_of_service (OutputReady None) [] d
  end.

(** The second branch. *)
Definition exit_turn (d : output_side) : option output_side :=
  match writing d, exit_signal d with
  | None, Some code =>
      d ← turn_of_service (ChildExited (Some code)) (outputs d) d; Some (set_child (child d) None d)
  | _, _ => None
  end.

(** After the loop: the exit status, if it is known, is written when the stream
    takes it, and the receiver dropped. *)
Definition end_turn (d : output_side) : option output_side :=
  if done d || negb (loop_done (svc d)) || stalled d && bool_decide (is_Some (child_exit (svc d)))
  then None
  else Some {| out := out d; err := err d; outputs := []; writing := None; stalled := stalled d;
               child := child d; exit_signal := exit_signal d; svc := send_exit (svc d); done := true;
               seen := seen d |}.

Inductive side_turn := SourceTurn (w : ProcessStream) | WaitTurn | OutputTurn | ExitTurn | EndTurn.

Definition take_side_turn (t : side_turn) : output_side → option output_side :=
  match t with
  | SourceTurn w => source_turn w
  | WaitTurn => wait_turn
  | OutputTurn => output_turn
  | ExitTurn => exit_turn
  | EndTurn => end_turn
  end.

(** ** What the child does *)

Inductive child_does := Prints (w : ProcessStream) (chunk : bytes) | Closes (w : ProcessStream) | Exits (code : Z).

Definition child_step (h : child_does) (d : output_side) : option output_side :=
  match h with
  | Prints w chunk =>
      let x := get_source w d in
      if hung_up x || bool_decide (¬ is_chunk (Stdout chunk)) || bool_decide (chunk = []) then None
      else Some (set_source w {| unread := unread x ++ [chunk]; hung_up := false; running := running x;
                                 printed := printed x ++ [chunk] |} (outputs d) d)
  | Closes w =>
      let x := get_source w d in
      Some (set_source w {| unread := unread x; hung_up := true; running := running x;
                            printed := printed x |} (outputs d) d)
  | Exits code =>
      if (0 <=? code) && (code <=? u32_max) then
        match child d with Alive => Some (set_child (Dead code) (exit_signal d) d) | _ => None end
      else None
  end.

(** ** What the stream to the daemon does

    It is full or takes output again, or breaks: it takes [k] more bytes, and then
    every write fails. *)
Inductive stream_does := Stalls (b : bool) | Breaks (k : nat) (e : io_error).

Definition set_room (k : nat) (e : io_error) (v : service) : service :=
  set_stream {| written := written (stream v); room := Some (k, e) |} v.

Definition stream_step (h : stream_does) (d : output_side) : option output_side :=
  match room (stream (svc d)), h with
  | Some _, _ => None
  | None, Stalls b => Some (set_wire (svc d) b d)
  | None, Breaks k e => Some (set_wire (set_room k e (svc d)) false d)
  end.

(** ** Every schedule comes to an end *)

Definition source_weight (x : source) : nat := 3 * length (unread x) + Nat.b2n (running x).

Definition side_weight (d : output_side) : nat :=
  source_weight (out d) + source_weight (err d) + 2 * length (outputs d)
  + Nat.b2n (bool_decide (is_Some (writing d)))
  + match child d with Dead _ => 4 | _ => 0 end
  + match exit_signal d with Some _ => 3 | None => 0 end
  + Nat.b2n (negb (output_closed (svc d))) + Nat.b2n (negb (done d)).

(** A turn of the service leaves the rest alone; [v] is its new state. *)
Lemma turn_of_service_cases ev os d d' :
  turn_of_service ev os d = Some d' →
  done d = false ∧ loop_done (svc d) = false ∧
  ∃ v, service_turn on_break on_exit (svc d) ev = Some v ∧ d' = set_service v ev os d.
Proof.
  unfold turn_of_service. destruct (done d), (loop_done (svc d)); try done. cbn.
  destruct (service_turn _ _ _ _) as [v|]; [|done]. intros [= <-]. eauto.
Qed.

Lemma service_turn_fields ev v v' :
  service_turn on_break on_exit v ev = Some v' →
  output_closed v' = match ev with OutputReady None => true | _ => output_closed v end ∧
  child_exit v' = match ev with ChildExited code => Some (default 255 code) | _ => child_exit v end ∧
  (ev = OutputReady None → output_closed v = false).
Proof.
  destruct ev as [[o|]|code]; cbn.
  - destruct (output_closed v) eqn:E; [done|]. destruct (send_session_message o (stream v)) as [w [[]|e]];
      by intros [= <-].
  - destruct (output_closed v); [done|]. by intros [= <-].
  - destruct (child_exit v); [done|]. by intros [= <-].
Qed.

(** What the service still has to write. *)
Definition waiting (d : output_side) : list ProcessOutput := option_list (writing d) ++ outputs d.

(** The ways a turn on the outputs can go: one is taken while the stream is full,
    one is written, or there are no more. *)
Lemma output_turn_cases d d' :
  output_turn d = Some d' →
  (∃ o os, stalled d = true ∧ writing d = None ∧ outputs d = o :: os ∧ done d = false ∧
     loop_done (svc d) = false ∧ d' = set_writing o os d) ∨
  (∃ o os, stalled d = false ∧ waiting d = o :: os ∧ turn_of_service (OutputReady (Some o)) os d = Some d') ∨
  (waiting d = [] ∧ (∀ w, running (get_source w d) = false) ∧
     turn_of_service (OutputReady None) [] d = Some d').
Proof.
  unfold output_turn, waiting. destruct (writing d) as [o|], (outputs d) as [|o' os]; cbn.
  - destruct (stalled d); [done|]. intros H. right. left. by exists o, [].
  - destruct (stalled d); [done|]. intros H. right. left. by exists o, (o' :: os).
  - destruct (running (out d)) eqn:H1, (running (err d)) eqn:H2; try done. cbn. intros H. right. right.
    split_and!; [done| |done]. by intros [].
  - destruct (stalled d).
    + destruct (done d), (loop_done (svc d)); try done. cbn. intros [= <-]. left. by exists o', os.
    + intros H. right. left. by exists o', os.
Qed.

Lemma waiting_length d :
  (length (waiting d) ≤ 2 * length (outputs d) + Nat.b2n (bool_decide (is_Some (writing d))))%nat ∧
  (∀ o os, waiting d = o :: os → (2 * length os < 2 * length (outputs d) + Nat.b2n (bool_decide (is_Some (writing d))))%nat).
Proof.
  unfold waiting. destruct (writing d), (outputs d); cbn; (split; [lia|]); intros o' os [= <- <-]; cbn; lia.
Qed.

(** The exit may add work elsewhere: one message to the control side. *)
Lemma side_turn_lighter t d d' :
  take_side_turn t d = Some d' →
  (side_weight d' + match t with ExitTurn => 1 | _ => 0 end < side_weight d)%nat.
Proof.
  unfold side_weight, source_weight. destruct t as [w| | | |]; cbn [take_side_turn]; intros H.
  - unfold source_turn in H. destruct (running (get_source w d)) eqn:Hr; [|done]. cbn [negb] in H.
    destruct (unread (get_source w d)) as [|b bs] eqn:Hu.
    + destruct (hung_up (get_source w d)); simplify_eq. destruct w; cbn -[Nat.mul] in *; rewrite Hr, Hu; cbn; lia.
    + destruct (done d) eqn:Hd; simplify_eq; destruct w; cbn -[Nat.mul] in *;
        rewrite ?length_app, Hr, Hu, ?Hd; cbn -[Nat.mul]; lia.
  - unfold wait_turn in H. destruct (child d); simplify_eq. cbn -[Nat.mul]. case_match; lia.
  - apply output_turn_cases in H as [(o & os & _ & Hw & Ho & _ & _ & ->)|[(o & os & _ & Hw & H)|(Hw & _ & H)]].
    + cbn -[Nat.mul]. rewrite Ho, Hw. cbn -[Nat.mul]. lia.
    + apply turn_of_service_cases in H as (Hd & _ & v & Hv & ->).
      apply service_turn_fields in Hv as (Hv & _). cbn -[Nat.mul]. rewrite Hv.
      pose proof (proj2 (waiting_length d) o os Hw). lia.
    + apply turn_of_service_cases in H as (Hd & _ & v & Hv & ->).
      apply service_turn_fields in Hv as (Hv & _ & ->); [|done]. cbn -[Nat.mul]. rewrite Hv. cbn -[Nat.mul]. lia.
  - unfold exit_turn in H. destruct (writing d) eqn:Hw, (exit_signal d) as [code|] eqn:Hx; try done.
    destruct (turn_of_service _ _ d) as [d1|] eqn:E; [|done]. cbn in H. simplify_eq.
    apply turn_of_service_cases in E as (Hd & _ & v & Hv & ->).
    apply service_turn_fields in Hv as (Hv & _). cbn -[Nat.mul]. rewrite Hv. lia.
  - unfold end_turn in H. destruct (done d) eqn:Hd; [done|]. cbn [orb] in H.
    destruct (loop_done (svc d)); [|done]. cbn [negb orb] in H. destruct (_ && _); [done|]. simplify_eq. cbn -[Nat.mul].
    assert (output_closed (send_exit (svc d)) = output_closed (svc d)) as ->
      by (unfold send_exit; by destruct (child_exit (svc d))). lia.
Qed.

(** ** Invariants *)

Definition is_exit (ev : service_event) : bool := match ev with ChildExited _ => true | _ => false end.

(** The stream to the daemon has not broken. *)
Definition intact (d : output_side) : Prop := room (stream (svc d)) = None.

(** While the service loops and the stream is whole: what was printed to a stream
    was taken by the service, waits to be written or is still to be read. *)
Record in_order (d : output_side) : Prop := {
  accepted more :
    service_loop on_break on_exit (seen d ++ more) service_start
    = service_loop on_break on_exit more (svc d);
  unbroken : broken (svc d) = false;
  outputs_in_order : ∃ taken,
    List.filter (λ ev, negb (is_exit ev)) (seen d)
    = (OutputReady ∘ Some <$> taken) ++ (if output_closed (svc d) then [OutputReady None] else []) ∧
    Forall is_chunk (taken ++ waiting d) ∧
    ∀ w, printed (get_source w d) = of_source w (taken ++ waiting d) ++ unread (get_source w d);
}.

(** While the service loops, whole stream or not; the exit is in exactly one
    place. *)
Record looping (d : output_side) : Prop := {
  whole_in_order : intact d → in_order d;
  closed_at_end : output_closed (svc d) = true → waiting d = [] ∧ ∀ w, running (get_source w d) = false;
  source_at_end w : running (get_source w d) = false →
    unread (get_source w d) = [] ∧ hung_up (get_source w d) = true;
  exit_once : List.filter is_exit (seen d)
    = match child_exit (svc d) with Some c => [ChildExited (Some c)] | None => [] end;
  exit_somewhere : match child d with
    | Waited c => exit_signal d = Some c ∧ child_exit (svc d) = None ∨
                  exit_signal d = None ∧ child_exit (svc d) = Some c
    | _ => exit_signal d = None ∧ child_exit (svc d) = None
    end;
  chunks_fit w : Forall (λ chunk, is_chunk (wrap w chunk)) (unread (get_source w d));
  code_fits : match child d with Alive => True | Dead c | Waited c => 0 ≤ c ≤ u32_max end;
}.

(** Afterwards, over a stream that did not break: the daemon's bridge makes of it
    all that was printed, each stream in its order, then the exit status and the
    end of the channel. *)
Definition all_delivered (d : output_side) : Prop :=
  ∃ taken code, child d = Waited code ∧ (∀ w, of_source w taken = printed (get_source w d)) ∧
    Forall is_chunk taken ∧
    bridge_process_channel {| available := written (stream (svc d)); end_error := None |}
                           {| delivered := []; slots := None |}
    = ({| delivered := (to_channel <$> taken) ++ [OutExitStatus code; OutEof; OutClose];
          slots := None |}, Some (Ok tt)).

Record delivered_whole (d : output_side) : Prop := {
  sources_ended w : hung_up (get_source w d) = true ∧ running (get_source w d) = false;
  delivered_all : all_delivered d;
}.

(** A session that is over stays as it is but for a stream that breaks then. *)
Definition side_inv (d : output_side) : Prop :=
  if done d then intact d → delivered_whole d else looping d.

Lemma side_start_inv e : e = open_source ∨ e = no_source → side_inv (side_start e).
Proof.
  intros [-> | ->]; split; try done; try (by intros []).
  all: intros _; split; try done; exists []; split_and!; try done; by intros [].
Qed.

Lemma inv_wait d d' : wait_turn d = Some d' → side_inv d → side_inv d'.
Proof.
  unfold wait_turn, side_inv. destruct (child d) eqn:Hc; intros H; simplify_eq. cbn [set_child done].
  destruct (done d).
  - intros Hi Hn. destruct (Hi Hn) as [_ (t & c & Hw & _)]. congruence.
  - intros []. rewrite Hc in *. split; cbn; try done.
    + intros Hn. destruct (whole_in_order0 Hn). by split.
    + left. by destruct exit_somewhere0.
Qed.

(** A source that was changed, and the other one. *)
Lemma get_set_source w w' x os d :
  get_source w' (set_source w x os d) = x ∧ w' = w ∨
  get_source w' (set_source w x os d) = get_source w' d ∧ w' ≠ w.
Proof. destruct w, w'; by (left + right). Qed.

Lemma of_source_wrap w w' chunk :
  of_source w' [wrap w chunk] = if decide (w' = w) then [chunk] else [].
Proof. by destruct w, w'. Qed.

Lemma of_source_app w os os' : of_source w (os ++ os') = of_source w os ++ of_source w os'.
Proof. apply omap_app. Qed.

Lemma waiting_set_source w x os d : waiting (set_source w x (outputs d ++ os) d) = waiting d ++ os.
Proof. unfold waiting. cbn. by rewrite app_assoc. Qed.

(** A source whose reader moved: [rest] is left of it, [os] went to the queue. *)
Lemma in_order_source w rest os run d :
  in_order d → unread (get_source w d) = concat (of_source w <$> [os]) ++ rest →
  (∀ w', w' ≠ w → of_source w' os = []) → Forall is_chunk os →
  in_order (set_source w {| unread := rest; hung_up := hung_up (get_source w d); running := run;
                            printed := printed (get_source w d) |} (outputs d ++ os) d).
Proof.
  intros [Ha Hb (taken & H1 & H2 & H3)] Hu Hw Hos. cbn in Hu. rewrite app_nil_r in Hu.
  split; [done|done|]. exists taken. rewrite waiting_set_source, app_assoc. split_and!; [done| |].
  - by apply Forall_app.
  - intros w'. rewrite of_source_app. edestruct get_set_source as [[-> ->]|[-> Hne]].
    + cbn [printed unread]. rewrite H3, Hu. by rewrite <- app_assoc.
    + by rewrite (Hw w' Hne), app_nil_r.
Qed.

Lemma inv_source w d d' : source_turn w d = Some d' → side_inv d → side_inv d'.
Proof.
  unfold source_turn, side_inv. destruct (running (get_source w d)) eqn:Hr; [|done]. cbn [negb].
  destruct (done d) eqn:Hd.
  { intros H Hi. assert (done d' = true ∧ intact d' = intact d) as [-> Hn].
    { repeat case_match; simplify_eq; by destruct w. }
    rewrite Hn. intros Hw. destruct (sources_ended d (Hi Hw) w). congruence. }
  destruct (unread (get_source w d)) as [|b bs] eqn:Hu.
  - destruct (hung_up (get_source w d)) eqn:Hh; intros H; simplify_eq. cbn [set_source done]. rewrite Hd. intros [].
    split; try done.
    + intros Hn. pose proof (in_order_source w [] [] false d (whole_in_order0 Hn)) as H.
      rewrite (app_nil_r (outputs d)), Hh in H. apply H; [done|done|constructor].
    + cbn [set_source svc]. intros Hc. destruct (closed_at_end0 Hc) as [_ Hw]. specialize (Hw w). congruence.
    + intros w'. edestruct get_set_source as [[-> ->]|[-> _]]; [done|]. auto.
    + intros w'. edestruct get_set_source as [[-> ->]|[-> _]]; [by constructor|]. auto.
  - intros H; simplify_eq. cbn [set_source done]. rewrite Hd. intros [].
    assert (is_chunk (wrap w b) ∧ Forall (λ chunk, is_chunk (wrap w chunk)) bs) as [Hb Hbs].
    { specialize (chunks_fit0 w). rewrite Hu in chunks_fit0. by inversion chunks_fit0. }
    split; try done.
    + intros Hn. apply (in_order_source w bs [wrap w b] true d (whole_in_order0 Hn)).
      * rewrite Hu. cbn. by destruct w.
      * intros w' Hw. rewrite of_source_wrap. by rewrite decide_False.
      * by constructor.
    + cbn [set_source svc]. intros Hc. destruct (closed_at_end0 Hc) as [_ Hw]. specialize (Hw w). congruence.
    + intros w'. edestruct get_set_source as [[-> ->]|[-> _]]; [done|]. auto.
    + intros w'. edestruct get_set_source as [[-> ->]|[-> _]]; [done|auto].
Qed.

(** The service takes an event while it loops. *)
Lemma accepted_turn ev v d more :
  in_order d → loop_done (svc d) = false → service_turn on_break on_exit (svc d) ev = Some v →
  service_loop on_break on_exit ((seen d ++ [ev]) ++ more) service_start
  = service_loop on_break on_exit more v.
Proof. intros Hi Hl Hv. rewrite <- app_assoc, (accepted d Hi). cbn [app service_loop]. by rewrite Hl, Hv. Qed.

Lemma filter_snoc {A} (f : A → bool) l a :
  List.filter f (l ++ [a]) = List.filter f l ++ if f a then [a] else [].
Proof. by rewrite List.filter_app. Qed.

(** A write never makes a broken stream whole. *)
Lemma send_keeps_room `{!Serde T} x (m : T) w : room (send_message x m w).1 = None → room w = None.
Proof.
  unfold send_message. destruct (encode_message _ _); [|done]. destruct (try_from _ _); [|done].
  unfold write_u32, write_all. destruct (room w) as [[k e]|] eqn:E; [|done].
  intros H. exfalso. revert H. case_decide; cbn; [|done]. case_decide; by cbn.
Qed.

(** An output is written: the stream is whole afterwards only if it was, and then
    nothing broke. *)
Lemma in_order_write `{!SerdeSize} o os v d :
  loop_done (svc d) = false → waiting d = o :: os →
  service_turn on_break on_exit (svc d) (OutputReady (Some o)) = Some v →
  (intact d → in_order d) → room (stream v) = None →
  in_order (set_service v (OutputReady (Some o)) os d).
Proof.
  intros Hl Hw Hv Hi Hn.
  assert (intact d) as Hd.
  { unfold intact. cbn in Hv. destruct (output_closed (svc d)); [done|].
    destruct (send_session_message o (stream (svc d))) as [w r] eqn:E.
    apply (send_keeps_room session_texts o). unfold send_session_message in E. rewrite E.
    by destruct r; simplify_eq. }
  pose proof (λ more, accepted_turn _ _ _ more (Hi Hd) Hl Hv) as Hacc. destruct (Hi Hd). cbn in Hv.
  destruct (output_closed (svc d)) eqn:Hc; [done|].
  destruct outputs_in_order0 as (taken & H1 & H2 & H3). rewrite Hw in H2, H3.
  destruct (send_message_fits session_texts o (stream (svc d))) as (w & Hsend & _);
    [apply chunk_fits; by apply Forall_app in H2 as [_ ?%Forall_inv]|done|].
  unfold send_session_message in Hv. rewrite Hsend in Hv. simplify_eq.
  split; cbn; [done|done|]. rewrite Hc.
  exists (taken ++ [o]). rewrite filter_snoc, H1, fmap_app. cbn.
  rewrite !app_nil_r, <- (app_assoc taken [o] os). split_and!; [done..|].
  intros w'. specialize (H3 w'). by destruct w'.
Qed.

Lemma inv_output `{!SerdeSize} d d' : output_turn d = Some d' → side_inv d → side_inv d'.
Proof.
  intros Ht Hi.
  apply output_turn_cases in Ht as [(o & os & _ & Hw & Ho & Hd & Hl & ->)|[(o & os & _ & Hw & Ht)|(Hw & Hr & Ht)]].
  - unfold side_inv in *. cbn [set_writing done]. rewrite Hd in *.
    assert (waiting (set_writing o os d) = waiting d) as Hwait by (unfold waiting; cbn; by rewrite Hw, Ho).
    destruct Hi. split; try done.
    + intros Hn. destruct (whole_in_order0 Hn). split; [done|done|]. rewrite Hwait.
      destruct outputs_in_order0 as (taken & ? & ? & H3). exists taken. split_and!; [done..|].
      intros w. specialize (H3 w). by destruct w.
    + rewrite Hwait. intros Hc. destruct (closed_at_end0 Hc) as [? Hr]. split; [done|].
      intros w. specialize (Hr w). by destruct w.
  - apply turn_of_service_cases in Ht as (Hd & Hl & v & Hv & ->). unfold side_inv in *.
    cbn [set_service done]. rewrite Hd in *. destruct Hi.
    pose proof (in_order_write o os v d Hl Hw Hv whole_in_order0) as Hord.
    apply service_turn_fields in Hv as (Hc & Hx & _). split; try done.
    + cbn. rewrite Hc. intros Hcl. destruct (closed_at_end0 Hcl). congruence.
    + cbn. by rewrite filter_snoc, Hx, exit_once0, app_nil_r.
    + cbn. by rewrite Hx.
  - apply turn_of_service_cases in Ht as (Hd & Hl & v & Hv & ->). unfold side_inv in *.
    cbn [set_service done]. rewrite Hd in *. destruct Hi.
    pose proof (λ more Hi, accepted_turn _ _ _ more Hi Hl Hv) as Hacc. cbn in Hv.
    destruct (output_closed (svc d)) eqn:Hc; [done|]. simplify_eq. split; cbn; try done.
    + intros Hn. pose proof (whole_in_order0 Hn) as Hord. split; cbn; [by intros; apply Hacc|apply (unbroken d Hord)|].
      destruct (outputs_in_order d Hord) as (taken & H1 & H2 & H3). exists taken.
      rewrite Hw in H2, H3. rewrite Hc in H1. rewrite filter_snoc, H1. cbn. rewrite app_nil_r.
      split_and!; [done..|]. intros w. specialize (H3 w). by destruct w.
    + by rewrite filter_snoc, exit_once0, app_nil_r.
Qed.

Lemma inv_exit d d' : exit_turn d = Some d' → side_inv d → side_inv d'.
Proof.
  unfold exit_turn. destruct (writing d) eqn:Hwr, (exit_signal d) as [code|] eqn:Hx; try done.
  destruct (turn_of_service _ _ d) as [d1|] eqn:E; [|done]. cbn. intros [= <-].
  apply turn_of_service_cases in E as (Hd & Hl & v & Hv & ->). unfold side_inv. cbn. rewrite Hd. intros Hi.
  assert (waiting (set_child (child d) None (set_service v (ChildExited (Some code)) (outputs d) d)) = waiting d) as Hwait
    by (unfold waiting; cbn; by rewrite Hwr).
  pose proof (λ more Hi, accepted_turn _ _ _ more Hi Hl Hv) as Hacc. destruct Hi. cbn in Hv.
  destruct (child_exit (svc d)) as [c|] eqn:Hc; [done|]. simplify_eq. rewrite Hx in exit_somewhere0.
  split; cbn; try done.
  - intros Hn. pose proof (whole_in_order0 Hn) as Hord. split; cbn; [by intros; apply Hacc|apply (unbroken d Hord)|].
    destruct (outputs_in_order d Hord) as (taken & H1 & H2 & H3). exists taken. unfold set_child, set_service in Hwait.
    cbn in Hwait. rewrite Hwait, filter_snoc, H1, app_nil_r. split_and!; [done..|].
    intros w. specialize (H3 w). by destruct w.
  - intros Hcl. destruct (closed_at_end0 Hcl) as [Hw Hr]. unfold set_child, set_service in Hwait. cbn in Hwait.
    rewrite Hwait. split; [done|]. intros w. specialize (Hr w). by destruct w.
  - by rewrite filter_snoc, exit_once0.
  - destruct (child d) as [|c|c]; [by destruct exit_somewhere0..|].
    right. by destruct exit_somewhere0 as [[[= ->] _]|[? _]].
Qed.

(** One exit among the events seen, and the others around it. *)
Lemma split_exit ev (l : list service_event) :
  List.filter is_exit l = [ev] →
  ∃ l1 l2, l = l1 ++ ev :: l2 ∧ l1 ++ l2 = List.filter (λ e, negb (is_exit e)) l.
Proof.
  assert (∀ k, List.filter is_exit k = [] → List.filter (λ e, negb (is_exit e)) k = k) as Hnone.
  { intros k. induction k as [|e k IH]; [done|]. cbn. destruct (is_exit e); [done|]. cbn. intros. by rewrite IH. }
  induction l as [|e l IH]; [done|]. cbn. destruct (is_exit e) eqn:He; cbn.
  - intros [= -> Hl]. exists [], l. by rewrite Hnone.
  - intros (l1 & l2 & -> & Hl)%IH. exists (e :: l1), l2. by rewrite <- Hl.
Qed.

Lemma send_exit_room v : room (stream (send_exit v)) = None → room (stream v) = None.
Proof. unfold send_exit. destruct (child_exit v); [|done]. apply send_keeps_room. Qed.

Lemma inv_end `{!SerdeLaws ProcessOutput, !SerdeSize} d d' :
  end_turn d = Some d' → side_inv d → side_inv d'.
Proof.
  unfold end_turn, side_inv. destruct (done d) eqn:Hd; [done|]. cbn [orb].
  destruct (loop_done (svc d)) eqn:Hl; [|done]. cbn [negb orb]. destruct (_ && _); [done|].
  intros [= <-] Hi. cbn [done]. intros Hn. apply send_exit_room in Hn.
  pose proof (whole_in_order d Hi Hn) as Hord. pose proof (accepted d Hord []) as Hacc.
  cbn [service_loop] in Hacc. rewrite Hl, app_nil_r in Hacc.
  unfold loop_done in Hl. rewrite (unbroken d Hord) in Hl. cbn in Hl. apply andb_true_iff in Hl as [Hc He].
  apply bool_decide_eq_true in He as [code Hcode].
  destruct (closed_at_end d Hi Hc) as [Hout Hrd]. pose proof (exit_once d Hi) as Honce.
  destruct (outputs_in_order d Hord) as (taken & H1 & H2 & H3). rewrite Hout, app_nil_r in H2, H3.
  rewrite Hc in H1. rewrite Hcode in Honce.
  assert (child d = Waited code ∧ 0 ≤ code ≤ u32_max) as [Hch Hfits].
  { pose proof (exit_somewhere d Hi) as Hs. pose proof (code_fits d Hi) as Hf. rewrite Hcode in Hs.
    destruct (child d) as [|c|c]; [by destruct Hs..|]. by destruct Hs as [[_ ?]|[Hx [= ->]]]. }
  destruct (split_exit _ _ Honce) as (l1 & l2 & Hseen & H12). rewrite H1 in H12.
  destruct (sent_output_arrives taken code H2 Hfits) as (w & Hw & Hbridge).
  rewrite Hseen, (service_loop_complete _ _ taken (Some code) l1 l2 service_start w code) in Hacc by done.
  injection Hacc as Hs. split.
  - intros w'. specialize (Hrd w'). destruct (source_at_end d Hi w' Hrd). by destruct w'.
  - exists taken, code. split_and!; [done| |done|].
    + intros w'. destruct (source_at_end d Hi w' (Hrd w')) as [Hu _]. specialize (H3 w').
      rewrite Hu, app_nil_r in H3. by destruct w'.
    + cbn [svc]. by rewrite <- Hs.
Qed.

Lemma inv_prints w chunk d :
  side_inv d → hung_up (get_source w d) = false → is_chunk (Stdout chunk) →
  let x := get_source w d in
  side_inv (set_source w {| unread := unread x ++ [chunk]; hung_up := false; running := running x;
                            printed := printed x ++ [chunk] |} (outputs d) d).
Proof.
  intros Hi Hh Hc. cbn zeta. unfold side_inv in *. cbn [set_source done]. destruct (done d).
  { intros Hn. destruct (sources_ended d (Hi Hn) w). congruence. }
  destruct Hi. split; try done.
  - intros Hn. destruct (whole_in_order0 Hn). split; [done|done|].
    destruct outputs_in_order0 as (taken & H1 & H2 & H3). exists taken. split_and!; [done..|].
    intros w'. edestruct get_set_source as [[-> ->]|[-> _]]; [|apply H3].
    cbn [printed unread]. rewrite H3. by rewrite <- app_assoc.
  - intros Hcl. destruct (closed_at_end0 Hcl) as [? Hr]. split; [done|]. intros w'.
    edestruct get_set_source as [[-> ->]|[-> _]]; [apply Hr|done].
  - intros w'. edestruct get_set_source as [[-> ->]|[-> _]]; [|auto].
    intros [_ ?]%source_at_end0. congruence.
  - intros w'. edestruct get_set_source as [[-> ->]|[-> _]]; [|auto].
    apply Forall_app. split; [done|]. constructor; [|done]. by destruct w.
Qed.

Lemma inv_closes w d :
  side_inv d →
  let x := get_source w d in
  side_inv (set_source w {| unread := unread x; hung_up := true; running := running x;
                            printed := printed x |} (outputs d) d).
Proof.
  intros Hi. cbn zeta. unfold side_inv in *. cbn [set_source done]. destruct (done d).
  { intros Hn. destruct (Hi Hn) as [Hs (t & c & H1 & H2 & H3 & H4)]. split.
    - intros w'. edestruct get_set_source as [[-> ->]|[-> _]]; [|auto]. split; [done|]. by destruct (Hs w).
    - exists t, c. split_and!; try done.
      intros w'. edestruct get_set_source as [[-> ->]|[-> _]]; [|auto]. apply H2. }
  destruct Hi. split; try done.
  - intros Hn. destruct (whole_in_order0 Hn). split; [done|done|].
    destruct outputs_in_order0 as (taken & H1 & H2 & H3). exists taken. split_and!; [done..|].
    intros w'. edestruct get_set_source as [[-> ->]|[-> _]]; apply H3.
  - intros Hcl. destruct (closed_at_end0 Hcl) as [? Hr]. split; [done|]. intros w'.
    edestruct get_set_source as [[-> ->]|[-> _]]; [apply Hr|done].
  - intros w'. edestruct get_set_source as [[-> ->]|[-> _]]; [|auto]. intros ?%source_at_end0. tauto.
  - intros w'. edestruct get_set_source as [[-> ->]|[-> _]]; [|auto]. apply chunks_fit0.
Qed.

Lemma inv_child_step h d d' : child_step h d = Some d' → side_inv d → side_inv d'.
Proof.
  destruct h as [w chunk|w|code]; cbn [child_step]; intros H Hi.
  - destruct (hung_up (get_source w d)) eqn:Hh; [done|]. cbn [orb] in H.
    case_bool_decide as Hc; [done|]. destruct (bool_decide (chunk = [])); [done|]. cbn [orb] in H.
    simplify_eq. by apply inv_prints.
  - simplify_eq. by apply inv_closes.
  - destruct (0 <=? code) eqn:H1, (code <=? u32_max) eqn:H2; try done. cbn in H. bool_to_prop.
    destruct (child d) eqn:Hch; simplify_eq. unfold side_inv in *. cbn [set_child done]. destruct (done d).
    + intros Hn. destruct (Hi Hn) as [_ (? & c & ? & _)]. congruence.
    + destruct Hi. rewrite Hch in *. split; try done. intros Hn. destruct (whole_in_order0 Hn). by split.
Qed.

Lemma inv_stream_step h d d' : stream_step h d = Some d' → side_inv d → side_inv d'.
Proof.
  unfold stream_step. destruct (room (stream (svc d))) eqn:Hn; [done|].
  destruct h as [b|k e]; intros [= <-]; unfold side_inv; cbn [set_wire done]; destruct (done d).
  - intros Hi Hw. destruct (Hi Hw) as [Hs (t & c & H1 & H2 & H3 & H4)]. split.
    + intros w. specialize (Hs w). by destruct w.
    + exists t, c. by split_and!.
  - intros []. split; try done. intros Hw. destruct (whole_in_order0 Hw). by split.
  - intros _ Hw. done.
  - intros []. by split.
Qed.

Lemma inv_side_turn `{!SerdeLaws ProcessOutput, !SerdeSize} t d d' :
  take_side_turn t d = Some d' → side_inv d → side_inv d'.
Proof.
  destruct t; [apply inv_source|apply inv_wait|apply inv_output|apply inv_exit|apply inv_end].
Qed.

(** ** No task is left waiting *)

Definition side_at_rest (d : output_side) : Prop := ∀ t, take_side_turn t d = None.

Lemma source_at_rest w d :
  side_at_rest d → hung_up (get_source w d) = true → running (get_source w d) = false.
Proof.
  intros H Hh. specialize (H (SourceTurn w)). cbn in H. unfold source_turn in H.
  destruct (running (get_source w d)); [|done]. cbn [negb] in H. rewrite Hh in H.
  by destruct (unread (get_source w d)), (done d).
Qed.

Lemma child_at_rest d : side_at_rest d → child d ≠ Alive → ∃ code, child d = Waited code.
Proof.
  intros H Hc. specialize (H WaitTurn). cbn in H. unfold wait_turn in H. destruct (child d); [done..|]. by eexists.
Qed.

Lemma service_at_rest d :
  side_at_rest d → side_inv d → stalled d = false → child d ≠ Alive →
  (∀ w, hung_up (get_source w d) = true) → done d = true.
Proof.
  intros Hnf Hi Hst Hc Hh. pose proof (λ w, source_at_rest w d Hnf (Hh w)) as Hr.
  pose proof (Hnf WaitTurn) as Hwait. pose proof (Hnf OutputTurn) as Hout.
  pose proof (Hnf ExitTurn) as Hexit. pose proof (Hnf EndTurn) as Hend.
  unfold side_inv in Hi. cbn in Hwait, Hout, Hexit, Hend.
  unfold end_turn in Hend. destruct (done d) eqn:Hd; [done|]. rewrite Hst in Hend. cbn in Hend.
  destruct (loop_done (svc d)) eqn:Hl; [done|]. destruct Hi.
  assert (output_closed (svc d) = true) as Hcl.
  { unfold output_turn, turn_of_service in Hout.
    pose proof (Hr StreamStdout) as Hr1. pose proof (Hr StreamStderr) as Hr2. cbn in Hr1, Hr2.
    rewrite Hst, Hd, Hl, Hr1, Hr2 in Hout. cbn in Hout.
    destruct (output_closed (svc d)); [done|].
    destruct (writing d), (outputs d); try done; by destruct (send_session_message _ _) as [? []]. }
  destruct (closed_at_end0 Hcl) as [Hw _]. assert (writing d = None) as Hwr
    by (unfold waiting in Hw; by destruct (writing d)).
  unfold wait_turn in Hwait. destruct (child d) as [|c|c]; [done..|].
  destruct exit_somewhere0 as [[Hx He]|[Hx He]].
  - unfold exit_turn, turn_of_service in Hexit. rewrite Hwr, Hx, Hd, Hl in Hexit. cbn in Hexit. by rewrite He in Hexit.
  - unfold loop_done in Hl. rewrite Hcl, He in Hl. by rewrite orb_true_r in Hl.
Qed.

(** ** What a turn leaves alone *)

Definition was_waited (d : output_side) : bool := match child d with Waited _ => true | _ => false end.

Lemma turn_leaves t d d' :
  take_side_turn t d = Some d' →
  (∀ w, hung_up (get_source w d') = hung_up (get_source w d)) ∧
  (was_waited d = true → was_waited d' = true) ∧
  (t ≠ WaitTurn → child d' = child d) ∧ (t ≠ EndTurn → done d' = done d) ∧
  (err d = no_source → err d' = no_source).
Proof.
  destruct t as [w| | | |]; cbn [take_side_turn]; intros H.
  - unfold source_turn in H. destruct (negb (running (get_source w d))) eqn:Hr; [done|].
    assert (∀ x os, hung_up x = hung_up (get_source w d) → d' = set_source w x os d →
      (∀ w', hung_up (get_source w' d') = hung_up (get_source w' d)) ∧
      (was_waited d = true → was_waited d' = true) ∧
      (SourceTurn w ≠ WaitTurn → child d' = child d) ∧ (SourceTurn w ≠ EndTurn → done d' = done d) ∧
      (err d = no_source → err d' = no_source)) as Hset.
    { intros x os Hx ->. split_and!; try done.
      - intros w'. edestruct get_set_source as [[-> ->]|[-> _]]; done.
      - intros He. destruct w; [done|]. cbn in Hr. rewrite He in Hr. discriminate Hr. }
    repeat case_match; simplify_eq; (eapply Hset; [|reflexivity]; done).
  - unfold wait_turn in H. destruct (child d) eqn:Hc; simplify_eq. by split_and!.
  - apply output_turn_cases in H as [(o & os & _ & _ & _ & _ & _ & ->)|[(o & os & _ & _ & H)|(_ & _ & H)]];
      [|apply turn_of_service_cases in H as (_ & _ & v & _ & ->)..]; split_and!; try done; by intros [].
  - unfold exit_turn in H. destruct (writing d), (exit_signal d); try done.
    destruct (turn_of_service _ _ d) as [d1|] eqn:E; [|done]. cbn in H. simplify_eq.
    apply turn_of_service_cases in E as (_ & _ & v & _ & ->). split_and!; try done; by intros [].
  - unfold end_turn in H. case_match; simplify_eq. split_and!; try done; by intros [].
Qed.

(** Only the exit is noticed in a turn of its own, after the child was waited
    for, and the service ends after it. *)
Lemma turn_exit t d d' :
  take_side_turn t d = Some d' → side_inv d →
  (t ≠ ExitTurn → child_exit (svc d') = child_exit (svc d)) ∧
  (t = ExitTurn → was_waited d' = true ∧ done d' = false) ∧
  (t = EndTurn → intact d → is_Some (child_exit (svc d))).
Proof.
  destruct t as [w| | | |]; cbn [take_side_turn]; intros H Hi.
  - unfold source_turn in H. by repeat case_match; simplify_eq.
  - unfold wait_turn in H. by destruct (child d); simplify_eq.
  - apply output_turn_cases in H as [(o & os & _ & _ & _ & _ & _ & ->)|[(o & os & _ & _ & H)|(_ & _ & H)]]; [done|..];
      apply turn_of_service_cases in H as (_ & _ & v & Hv & ->);
      apply service_turn_fields in Hv as (_ & Hv & _); by split_and!.
  - unfold exit_turn in H. destruct (writing d), (exit_signal d) eqn:Hx; try done.
    destruct (turn_of_service _ _ d) as [d1|] eqn:E; [|done]. cbn in H. simplify_eq.
    apply turn_of_service_cases in E as (Hd & _ & v & _ & ->). split_and!; [done| |done]. intros _. split; [|done].
    unfold side_inv in Hi. rewrite Hd in Hi. pose proof (exit_somewhere d Hi) as Hc.
    unfold was_waited. cbn. destruct (child d); [destruct Hc; congruence..|done].
  - unfold end_turn, side_inv in *. destruct (done d); [done|]. cbn in H.
    destruct (loop_done (svc d)) eqn:Hl; [|done]. cbn in H. destruct (_ && _); [done|]. simplify_eq.
    split_and!; [|done|].
    + intros _. cbn. unfold send_exit. by destruct (child_exit (svc d)) eqn:He; [cbn|].
    + intros _ Hn. unfold loop_done in Hl. rewrite (unbroken d (whole_in_order d Hi Hn)) in Hl. cbn in Hl.
      apply andb_true_iff in Hl as [_ Hl]. by apply bool_decide_eq_true in Hl.
Qed.

Lemma send_leaves_whole `{!Serde T} x (m : T) w : room w = None → room (send_message x m w).1 = None.
Proof.
  intros Hn. unfold send_message, write_u32, write_all. destruct (encode_message _ _); [|done].
  destruct (try_from _ _); [|done]. by rewrite Hn.
Qed.

(** No turn breaks the stream. *)
Lemma turn_intact t d d' : take_side_turn t d = Some d' → intact d → intact d'.
Proof.
  unfold intact. intros Ht Hn.
  assert (∀ ev os d1, turn_of_service ev os d = Some d1 → room (stream (svc d1)) = None) as Hs.
  { intros ev os d1 (_ & _ & v & Hv & ->)%turn_of_service_cases. cbn. destruct ev as [[o|]|code]; cbn in Hv.
    - pose proof (send_leaves_whole session_texts o _ Hn) as Hw. unfold send_session_message in Hv.
      destruct (output_closed _); [done|]. destruct (send_message _ _ _) as [w []]; by simplify_eq.
    - destruct (output_closed _); by simplify_eq.
    - destruct (child_exit _); by simplify_eq. }
  destruct t as [w| | | |]; cbn [take_side_turn] in Ht.
  - unfold source_turn in Ht. by repeat case_match; simplify_eq.
  - unfold wait_turn in Ht. by destruct (child d); simplify_eq.
  - apply output_turn_cases in Ht as [(o & os & _ & _ & _ & _ & _ & ->)|[(o & os & _ & _ & Ht)|(_ & _ & Ht)]]; eauto.
  - unfold exit_turn in Ht. destruct (writing d), (exit_signal d); try done.
    destruct (turn_of_service _ _ d) as [d1|] eqn:E; [|done]. cbn in Ht. simplify_eq. by apply (Hs _ _ _ E).
  - unfold end_turn in Ht. destruct (_ || _); [done|]. simplify_eq. cbn. unfold send_exit.
    destruct (child_exit (svc d)); [|done]. by apply send_leaves_whole.
Qed.

(** What the child does is seen by nobody here until it is waited for. *)
Lemma child_step_leaves h d d' :
  child_step h d = Some d' →
  svc d' = svc d ∧ done d' = done d ∧ (was_waited d = true → was_waited d' = true).
Proof.
  destruct h as [w chunk|w|code]; cbn; unfold was_waited; intros H.
  - destruct (_ || _ || _); by simplify_eq.
  - by simplify_eq.
  - destruct (_ && _); [|done]. destruct (child d); by simplify_eq.
Qed.

(** What the stream does concerns only what is written to it. *)
Lemma stream_step_leaves h d d' :
  stream_step h d = Some d' →
  intact d ∧ child d' = child d ∧ child_exit (svc d') = child_exit (svc d) ∧ done d' = done d ∧
  (∀ w, get_source w d' = get_source w d).
Proof.
  unfold stream_step, intact. destruct (room (stream (svc d))); [done|].
  destruct h; intros [= <-]; split_and!; try done; by intros [].
Qed.

(** With one stream the outputs are its chunks. *)
Lemma only_stdout os :
  Forall is_chunk os → of_source StreamStderr os = [] → to_channel <$> os = OutData <$> of_source StreamStdout os.
Proof. induction 1 as [|[c|c|c] os Hc _ IH]; [done| |done|done]. cbn. intros. f_equal. auto. Qed.
End Service.

(** The demonstration encoding keeps to the sizes. *)
Lemma demo_output_sizes : @SerdeSize demo_output_serde.
Proof.
  split.
  - intros [d|d|c] Ho; [| |done]; (eexists; split; [reflexivity|]); simpl length; lia.
  - intros c Hc. cbn [to_vec demo_output_serde]. unfold in_u32.
    rewrite (proj2 (Z.leb_le 0 c)), (proj2 (Z.leb_le c u32_max)) by lia.
    eexists. split; [reflexivity|]. by vm_compute.
Qed.
End OutputSide.
