(* ===== verification/PtySession.v ===== *)
(** * A terminal session as a whole (src/src/executor.rs, [start_pty_process_service])

    A terminal session of the executor is five tasks: one reads the daemon's
    messages and passes them on as control messages, a thread acts on those, and
    those of [OutputSide] read the terminal, wait for the child and send what was
    read and the exit status.  Here they run side by side: each turn of a task is
    a step, between them the client and the child do what they like, the stream to
    the daemon fills when the client does not read or breaks, and the theorems hold for every schedule.  What the input task and the control thread
    do with their whole input is as in [Process]. *)

From S2P Require Import Prelude Rust Session Framing Process OutputSide.

Local Open Scope Z_scope.

Module PtySession.
Import Framing Process OutputSide.

(** ** State *)

(** The input task: what it has not read yet, how reading will end, if it does,
    and whether the task runs. *)
Record input_task := { messages : list ProcessInput; ending : option (result anyhow unit); reading : bool }.

(** The control thread: its queue, whether it runs, whether it still holds the
    writer, and what it did to the child, each time with whether the child had
    been waited for. *)
Record control_thread := {
  queue : list PtyControl; controlling : bool; writer_open : bool;
  effects : list (child_effect * bool);
}.

(** The whole session; the terminal's input may be full, so that a write to it
    waits. *)
Record session := { input : input_task; control : control_thread; full : bool; side : output_side }.

Definition set_input (i : input_task) (s : session) : session :=
  {| input := i; control := control s; full := full s; side := side s |}.
Definition set_control (c : control_thread) (s : session) : session :=
  {| input := input s; control := c; full := full s; side := side s |}.
Definition set_full (b : bool) (s : session) : session :=
  {| input := input s; control := control s; full := b; side := side s |}.
Definition set_side (d : output_side) (s : session) : session :=
  {| input := input s; control := control s; full := full s; side := d |}.

(** After the threads and the task were started. *)
Definition session_start : session := {|
  input := {| messages := []; ending := None; reading := true |};
  control := {| queue := []; controlling := true; writer_open := true; effects := [] |};
  full := false;
  side := side_start no_source;
|}.

(** ** The turns of the tasks *)

(** [control_tx.send]: lost when the control thread is gone. *)
Definition send_control (cs : list PtyControl) (c : control_thread) : control_thread :=
  if controlling c then
    {| queue := queue c ++ cs; controlling := true; writer_open := writer_open c; effects := effects c |}
  else c.

Definition stop_reading (i : input_task) : input_task :=
  {| messages := messages i; ending := ending i; reading := false |}.

(** One message of [handle_pty_service_input], or the end of the stream; [None]
    while there is nothing to read. *)
Definition input_turn (s : session) : option session :=
  let i := input s in
  if negb (reading i) then None else
  match messages i with
  | m :: ms =>
      let next := {| messages := ms; ending := ending i; reading := true |} in
      let pass c := Some (set_input next (set_control (send_control [c] (control s)) s)) in
      let close cs := Some (set_input (stop_reading next) (set_control (send_control cs (control s)) s)) in
      match m with
      | Data data => if controlling (control s) then pass (PtyWrite data) else close [PtyClose]
      | Signal signal => pass (PtySignal signal)
      | Resize size => pass (PtyResize size)
      | Eof => pass PtyEof
      | Close => close [PtyClose; PtyClose]
      end
  | [] =>
      match ending i with
      | None => None
      | Some (Ok _) => Some (set_input (stop_reading i) (set_control (send_control [PtyClose] (control s)) s))
      | Some (Err _) => Some (set_input (stop_reading i) s)
      end
  end.

Definition stop_control (es : list (child_effect * bool)) (c : control_thread) : control_thread :=
  {| queue := []; controlling := false; writer_open := writer_open c; effects := effects c ++ es |}.

(** One message of [run_pty_control]; [write_ok] is whether a write succeeds, and
    a write to a terminal whose input is full waits.
    The thread also ends when nobody can send any more: the input task and the
    service hold the senders. *)
Definition control_turn (process_group : option Z) (write_ok : bool) (s : session) : option session :=
  let c := control s in
  let act es := (λ e, (e, was_waited (side s))) <$> es in
  let on cs open es := Some (set_control
    {| queue := cs; controlling := true; writer_open := open; effects := effects c ++ act es |} s) in
  if negb (controlling c) then None else
  match queue c with
  | [] => if reading (input s) || negb (done (side s)) then None else Some (set_control (stop_control [] c) s)
  | m :: cs =>
      match m with
      | PtyWrite data =>
          if writer_open c then
            if write_waits (full s) data then None
            else if write_ok then on cs true [WriteInput data] else Some (set_control (stop_control [] c) s)
          else on cs false []
      | PtyResize size => on cs (writer_open c) [ResizeTerminal size]
      | PtySignal signal =>
          on cs (writer_open c)
            (match process_group with
             | Some group => [SignalGroup group (to_unix_signal signal)]
             | None => []
             end)
      | PtyEof => on cs false (if writer_open c then [DropStdin] else [])
      | PtyClose =>
          Some (set_control
            (stop_control (act ((if writer_open c then [DropStdin] else []) ++ [KillChild])) c) s)
      end
  end.

Section Service.
Context `{!Serde ProcessOutput}.

(** A turn of the output side.  When the child has exited the control side is
    closed and the input task aborted; after the loop the input task is aborted
    unless it was. *)
Definition pty_after_turn (t : side_turn) (s : session) : session :=
  match t with
  | ExitTurn =>
      set_input (stop_reading (input s)) (set_control (send_control [PtyClose] (control s)) s)
  | EndTurn => set_input (stop_reading (input s)) s
  | _ => s
  end.

Definition side_step (t : side_turn) (s : session) : option session :=
  d ← take_side_turn [] [SendControlClose] t (side s); Some (pty_after_turn t (set_side d s)).

(** ** Schedules *)

Inductive turn := InputTurn | ControlTurn (write_ok : bool) | SideTurn (t : side_turn).

(** What happens from outside: the daemon sends a message or its stream ends, the
    terminal's input fills up or is read again, the terminal is printed to or
    closed by all who hold it, the child exits, the stream to the daemon fills up,
    is read again or breaks. *)
Inductive happening :=
| Sends (m : ProcessInput)
| HangsUp (r : result anyhow unit)
| Fills (b : bool)
| Prints (chunk : bytes)
| Closes
| Exits (code : Z)
| Stream (h : stream_does).

Definition take_turn (process_group : option Z) (t : turn) : session → option session :=
  match t with
  | InputTurn => input_turn
  | ControlTurn write_ok => control_turn process_group write_ok
  | SideTurn t => side_step t
  end.

Definition child_happens (h : child_does) (s : session) : option session :=
  d ← child_step h (side s); Some (set_side d s).

Definition happen (h : happening) (s : session) : option session :=
  let i := input s in
  match h with
  | Sends m =>
      match ending i with
      | None => Some (set_input {| messages := messages i ++ [m]; ending := None; reading := reading i |} s)
      | Some _ => None
      end
  | HangsUp r =>
      match ending i with
      | None => Some (set_input {| messages := messages i; ending := Some r; reading := reading i |} s)
      | Some _ => None
      end
  | Fills b => if hung_up (out (side s)) then None else Some (set_full b s)
  | Prints chunk => child_happens (OutputSide.Prints StreamStdout chunk) s
  | Closes => child_happens (OutputSide.Closes StreamStdout) (set_full false s)
  | Exits code => child_happens (OutputSide.Exits code) s
  | Stream h => d ← stream_step h (side s); Some (set_side d s)
  end.

Definition step (process_group : option Z) (l : turn + happening) : session → option session :=
  match l with inl t => take_turn process_group t | inr h => happen h end.

Fixpoint run (process_group : option Z) (ls : list (turn + happening)) (s : session) : option session :=
  match ls with
  | [] => Some s
  | l :: ls => s ← step process_group l s; run process_group ls s
  end.

(** A turn of some task. *)
Definition turns (process_group : option Z) (s s' : session) : Prop :=
  ∃ t, take_turn process_group t s = Some s'.

(** ** Every schedule of the tasks comes to an end *)

Definition weight (s : session) : nat :=
  3 * length (messages (input s)) + (if reading (input s) then 3 else 0)
  + length (queue (control s)) + Nat.b2n (controlling (control s)) + side_weight (side s).

Lemma queue_send_control cs c :
  (length (queue (send_control cs c)) ≤ length (queue c) + length cs)%nat ∧
  controlling (send_control cs c) = controlling c.
Proof. unfold send_control. destruct (controlling c) eqn:E; cbn; [rewrite length_app|]; split; done || lia. Qed.

Lemma input_lighter s s' : input_turn s = Some s' → (weight s' < weight s)%nat.
Proof.
  unfold weight. intros H.
  unfold input_turn in H. destruct (reading (input s)) eqn:Hr; [|done]. cbn [negb] in H.
  destruct (messages (input s)) as [|m ms] eqn:Hm.
  - destruct (ending (input s)) as [[]|]; simplify_eq; cbn -[Nat.mul];
      [destruct (queue_send_control [PtyClose] (control s)) as [Hq ->]; cbn in Hq|]; rewrite Hm;
      cbn [length]; lia.
  - pose proof (λ cs, queue_send_control cs (control s)) as Hq.
    destruct m; [destruct (controlling (control s)) eqn:Hc| | | |]; simplify_eq; cbn -[Nat.mul];
      match goal with |- context [send_control ?cs _] => destruct (Hq cs) as [Hq' ->] end;
      cbn in Hq' |- *; rewrite ?Hc; lia.
Qed.

Lemma control_lighter g write_ok s s' : control_turn g write_ok s = Some s' → (weight s' < weight s)%nat.
Proof.
  unfold weight. intros H.
  unfold control_turn in H. destruct (controlling (control s)) eqn:Hc; [|done]. cbn [negb] in H.
  destruct (queue (control s)) as [|m cs] eqn:Hq.
  - destruct (_ || _); simplify_eq. cbn -[Nat.mul]. lia.
  - destruct m;
      [destruct (writer_open (control s)); [destruct (write_waits _ _); [done|destruct write_ok]|]|..];
      simplify_eq; cbn -[Nat.mul]; lia.
Qed.

Lemma side_lighter t s s' : side_step t s = Some s' → (weight s' < weight s)%nat.
Proof.
  unfold side_step. destruct (take_side_turn _ _ t (side s)) as [d|] eqn:E; [|done]. cbn [mbind option_bind]. intros [= <-].
  apply side_turn_lighter in E. unfold weight.
  destruct (queue_send_control [PtyClose] (control s)) as [Hq Hc].
  destruct t; cbn -[Nat.mul side_weight] in *; rewrite ?Hc; destruct (reading (input s)); lia.
Qed.

Lemma turn_lighter g t s s' : take_turn g t s = Some s' → (weight s' < weight s)%nat.
Proof. destruct t; [apply input_lighter|apply control_lighter|apply side_lighter]. Qed.

Lemma turns_end g s : sn (turns g) s.
Proof.
  induction s as [s IH] using (induction_ltof1 _ weight). constructor. intros s' [t Ht].
  apply IH. by apply turn_lighter in Ht.
Qed.

(** ** Invariants *)

(** The output side is sound and has one stream, a terminal that is closed does
    not keep a write waiting, and the input task ends with the service. *)
Record session_inv (s : session) : Prop := {
  side_ok : side_inv [] [SendControlClose] (side s);
  one_stream : err (side s) = no_source;
  closed_not_full : hung_up (out (side s)) = true → full s = false;
  input_ended : done (side s) = true → reading (input s) = false;
}.

Lemma session_start_inv : session_inv session_start.
Proof. split; [apply side_start_inv; by right|done..]. Qed.

Lemma inv_set_control c s : session_inv s → session_inv (set_control c s).
Proof. intros []. by split. Qed.

Lemma inv_set_input i s :
  (reading (input s) = false → reading i = false) → session_inv s → session_inv (set_input i s).
Proof. intros Hi []. split; cbn; auto. Qed.

Lemma inv_input s s' : input_turn s = Some s' → session_inv s → session_inv s'.
Proof.
  unfold input_turn. destruct (reading (input s)) eqn:Hr; [|done]. cbn [negb]. intros H Hi.
  assert (∀ c i, session_inv (set_input i (set_control c s))) as Hset.
  { intros c i. apply inv_set_input; [cbn; congruence|]. by apply inv_set_control. }
  destruct (messages (input s)) as [|m ms].
  - destruct (ending (input s)) as [[]|]; simplify_eq; [apply Hset|]. apply inv_set_input; [done|done].
  - destruct m; [destruct (controlling (control s))| | | |]; simplify_eq; apply Hset.
Qed.

Lemma inv_control g write_ok s s' : control_turn g write_ok s = Some s' → session_inv s → session_inv s'.
Proof.
  unfold control_turn. intros H Hi. repeat case_match; simplify_eq; by apply inv_set_control.
Qed.

Context {laws : SerdeLaws ProcessOutput} {sizes : SerdeSize}.

Lemma inv_side t s s' : side_step t s = Some s' → session_inv s → session_inv s'.
Proof.
  unfold side_step. destruct (take_side_turn _ _ t (side s)) as [d|] eqn:E; [|done]. cbn. intros [= <-] [].
  pose proof (inv_side_turn _ _ _ _ _ E side_ok0) as Hi.
  apply turn_leaves in E as (Hh & _ & _ & Hd & He). specialize (Hh StreamStdout). cbn in Hh.
  destruct t; split; cbn; rewrite ?Hh, ?Hd by done; auto.
Qed.

Lemma inv_child h s s' :
  child_happens h s = Some s' → (∀ w, h ≠ OutputSide.Closes w ∨ full s = false) →
  h ≠ OutputSide.Closes StreamStderr → session_inv s → session_inv s'.
Proof.
  unfold child_happens. destruct (child_step h (side s)) as [d|] eqn:E; [|done]. cbn. intros [= <-] Hf Hc [].
  pose proof (inv_child_step [] [SendControlClose] _ _ _ E side_ok0) as Hi.
  destruct h as [w chunk|w|code]; cbn in E.
  - destruct w; cbn in E.
    + destruct (hung_up (out (side s))) eqn:Hh; [done|]. cbn in E. destruct (_ || _); simplify_eq. by split.
    + rewrite one_stream0 in E. done.
  - destruct (Hf w) as [[]|Hf']; [done|]. destruct w; [|done]. simplify_eq. by split.
  - destruct (_ && _); [|done]. destruct (child (side s)); simplify_eq. by split.
Qed.

Lemma inv_happen h s s' : happen h s = Some s' → session_inv s → session_inv s'.
Proof.
  destruct h as [m|r|b|chunk| |code|h]; cbn [happen]; intros H Hi.
  - destruct (ending (input s)); simplify_eq. by apply inv_set_input.
  - destruct (ending (input s)); simplify_eq. by apply inv_set_input.
  - destruct (hung_up (out (side s))) eqn:Hh; simplify_eq. destruct Hi. split; cbn; try done. congruence.
  - apply (inv_child _ _ _ H); [by left|done|done].
  - apply (inv_child _ _ _ H); [by right|done|]. destruct Hi. by split.
  - apply (inv_child _ _ _ H); [by left|done|done].
  - destruct (stream_step h (side s)) as [d|] eqn:E; [|done]. cbn in H. simplify_eq. destruct Hi.
    pose proof (inv_stream_step [] [SendControlClose] _ _ _ E side_ok0) as Hi.
    apply stream_step_leaves in E as (_ & _ & _ & Hd & Hs).
    pose proof (Hs StreamStdout) as H1. pose proof (Hs StreamStderr) as H2. cbn in H1, H2.
    split; cbn; rewrite ?H1, ?H2, ?Hd; auto.
Qed.

Lemma inv_step g l s s' : step g l s = Some s' → session_inv s → session_inv s'.
Proof. destruct l as [[|write_ok|t]|h]; [apply inv_input|apply inv_control|apply inv_side|apply inv_happen]. Qed.

Lemma inv_run g ls s s' : run g ls s = Some s' → session_inv s → session_inv s'.
Proof.
  revert s. induction ls as [|l ls IH]; intros s H Hi; cbn in H; [by simplify_eq|].
  destruct (step g l s) as [s1|] eqn:E; [|done]. by apply (IH s1 H), (inv_step g l s).
Qed.

(** ** No task is left waiting *)

Lemma at_rest g s t : nf (turns g) s → take_turn g t s = None.
Proof. intros H. destruct (take_turn g t s) eqn:E; [|done]. destruct H. eexists. by exists t. Qed.

Lemma side_rests g s : nf (turns g) s → side_at_rest [] [SendControlClose] (side s).
Proof.
  intros H t. apply (at_rest g s (SideTurn t)) in H. cbn in H. unfold side_step in H.
  by destruct (take_side_turn _ _ t (side s)).
Qed.

Lemma session_at_rest g s :
  nf (turns g) s → session_inv s → stalled (side s) = false → child (side s) ≠ Alive →
  hung_up (out (side s)) = true → done (side s) = true.
Proof.
  intros Hnf [] Hst Hc Hh. apply (service_at_rest [] [SendControlClose]); [by eapply side_rests|done..|].
  intros []; [done|]. cbn. by rewrite one_stream0.
Qed.

Lemma control_at_rest g s :
  nf (turns g) s → done (side s) = true → reading (input s) = false → full s = false →
  controlling (control s) = false.
Proof.
  intros H%(at_rest g s (ControlTurn true)) Hd Hr Hf. cbn in H. unfold control_turn in H.
  rewrite Hd, Hr, Hf in H. destruct (controlling (control s)); [|done]. cbn in H.
  destruct (queue (control s)) as [|m cs]; [done|]. by destruct m; [destruct (writer_open (control s))|..].
Qed.

(** ** Properties *)

(** C9: a terminal session ends with its child and its terminal, once the stream to
    the daemon is not full, and over a stream that never broke the client then has
    everything.  Whatever the client, the child and the stream do and however the
    five tasks are scheduled: they can take finitely many turns before something
    new happens; and when none of them can take a turn, the child has exited,
    nobody holds the terminal and the stream takes output or is broken, then the
    session is over: no task is left and the child was waited for.  If the stream
    did not break, the daemon's bridge, into a channel that takes everything, gives
    it all that was ever printed, in order, then the exit status and the end.  (A
    stream that stays full keeps the session: [full_stream_keeps_its_session].) *)
Theorem terminal_session_ends g ls s :
  run g ls session_start = Some s →
  sn (turns g) s ∧
  (nf (turns g) s → child (side s) ≠ Alive → hung_up (out (side s)) = true →
   stalled (side s) = false →
   done (side s) = true ∧ reading (input s) = false ∧ controlling (control s) = false ∧
   running (out (side s)) = false ∧
   ∃ code, child (side s) = Waited code ∧
     (intact (side s) →
      bridge_process_channel {| available := written (stream (svc (side s))); end_error := None |}
                             {| delivered := []; slots := None |}
      = ({| delivered := (OutData <$> printed (out (side s))) ++ [OutExitStatus code; OutEof; OutClose];
            slots := None |}, Some (Ok tt)))).
Proof.
  intros Hrun. split; [apply turns_end|]. intros Hnf Hc Hh Hst.
  pose proof (inv_run g ls _ _ Hrun session_start_inv) as Hi.
  pose proof (session_at_rest g s Hnf Hi Hst Hc Hh) as Hd. destruct Hi.
  unfold side_inv in side_ok0. rewrite Hd in side_ok0.
  destruct (child_at_rest _ _ _ (side_rests g s Hnf) Hc) as [code Hcode].
  split_and!; [done|auto| |by apply (source_at_rest _ _ StreamStdout _ (side_rests g s Hnf))|].
  - by eapply control_at_rest; auto.
  - exists code. split; [done|]. intros Hn. destruct (side_ok0 Hn) as [_ (os & c & Hw & Hos & Hch & Hb)].
    rewrite Hb. assert (c = code) as -> by congruence. specialize (Hos StreamStdout) as Ho1. specialize (Hos StreamStderr) as Ho2.
    cbn in Ho1, Ho2. rewrite one_stream0 in Ho2. by rewrite (only_stdout os Hch Ho2), Ho1.
Qed.

(** ** The kill at the end *)

(** A client that stays and never closes, and writes that do not fail, to the
    terminal or to the daemon. *)
Definition quiet (l : turn + happening) : bool :=
  match l with
  | inl (ControlTurn false) | inr (Sends Close) | inr (HangsUp (Ok _)) | inr (Stream (Breaks _ _)) => false
  | _ => true
  end.

Record quiet_inv (s : session) : Prop := {
  no_close : Close ∉ messages (input s);
  no_clean_end u : ending (input s) ≠ Some (Ok u);
  close_after_wait : PtyClose ∈ queue (control s) → was_waited (side s) = true;
  kill_after_wait b : (KillChild, b) ∈ effects (control s) → b = true;
  control_killed : controlling (control s) = false → (KillChild, true) ∈ effects (control s);
  exit_closes : is_Some (child_exit (svc (side s))) → controlling (control s) = true →
    PtyClose ∈ queue (control s);
  done_exited : done (side s) = true → is_Some (child_exit (svc (side s)));
  still_intact : intact (side s);
}.

Lemma quiet_input s s' : input_turn s = Some s' → quiet_inv s → quiet_inv s'.
Proof.
  unfold input_turn. destruct (reading (input s)); [|done]. cbn [negb]. intros H Hi.
  destruct (messages (input s)) as [|m ms] eqn:Hm.
  - destruct (ending (input s)) as [[u|e]|] eqn:He; simplify_eq.
    + by destruct (no_clean_end s Hi u).
    + destruct Hi. by split.
  - assert (∀ c, c ≠ PtyClose → quiet_inv (set_input {| messages := ms; ending := ending (input s); reading := true |}
      (set_control (send_control [c] (control s)) s))) as Hpass.
    { intros c Hc. destruct Hi. rewrite Hm in *. unfold send_control.
      destruct (controlling (control s)) eqn:Hco; split; cbn; try done; set_solver. }
    destruct m; [destruct (controlling (control s)) eqn:Hc| | | |]; simplify_eq; try (by apply Hpass).
    + destruct Hi. rewrite Hm in *. unfold send_control. rewrite Hc.
      split; cbn; try done; set_solver.
    + destruct (no_close s Hi). rewrite Hm. set_solver.
Qed.

(** The new state of the control thread, with the message it took gone. *)
Lemma quiet_set_control c s :
  quiet_inv s →
  (∀ m, m ∈ queue c → m ∈ queue (control s)) →
  (∀ e b, (e, b) ∈ effects c → (e, b) ∈ effects (control s) ∨ e ≠ KillChild ∨ b = true) →
  (∀ b, (KillChild, b) ∈ effects (control s) → (KillChild, b) ∈ effects c) →
  (controlling c = true → controlling (control s) = true ∧
     (PtyClose ∈ queue (control s) → PtyClose ∈ queue c)) →
  (controlling c = false → (KillChild, true) ∈ effects c) →
  quiet_inv (set_control c s).
Proof.
  intros [] Hq He Hk Hc Hs. split; cbn; try done.
  - intros ?%Hq. auto.
  - intros b [H|[H|H]]%He; [by eapply kill_after_wait0|done|done].
  - intros Hx [Hco Hcl]%Hc. auto.
Qed.

Lemma quiet_control g s s' : control_turn g true s = Some s' → quiet_inv s → quiet_inv s'.
Proof.
  unfold control_turn. destruct (controlling (control s)) eqn:Hc; [|done]. cbn [negb]. intros H Hi.
  destruct (queue (control s)) as [|m cs] eqn:Hq.
  { destruct (reading (input s)), (done (side s)) eqn:Hd; simplify_eq.
    pose proof (exit_closes s Hi (done_exited s Hi Hd) Hc) as Hcl. rewrite Hq in Hcl. set_solver. }
  assert (∀ open es, m ≠ PtyClose → KillChild ∉ es →
    quiet_inv (set_control {| queue := cs; controlling := true; writer_open := open;
      effects := effects (control s) ++ ((λ e, (e, was_waited (side s))) <$> es) |} s)) as Hon.
  { intros open es Hm Hes. apply quiet_set_control; cbn; try done.
    - rewrite Hq. set_solver.
    - intros e b [?|(e' & [= -> ->] & He')%list_elem_of_fmap]%elem_of_app; [by left|].
      right. left. by intros ->.
    - set_solver.
    - intros _. split; [done|]. rewrite Hq. set_solver. }
  destruct m.
  - destruct (writer_open (control s)); [destruct (write_waits _ _); [done|]|]; simplify_eq; apply Hon; set_solver.
  - simplify_eq. apply Hon; set_solver.
  - simplify_eq. apply Hon; [done|]. destruct g; set_solver.
  - simplify_eq. apply Hon; [done|]. destruct (writer_open (control s)); set_solver.
  - simplify_eq. assert (was_waited (side s) = true) as Hw by (apply close_after_wait; [done|rewrite Hq; set_solver]).
    rewrite Hw. apply quiet_set_control; cbn; try done.
    + set_solver.
    + intros e b [?|(e' & [= -> ->] & _)%list_elem_of_fmap]%elem_of_app; auto.
    + set_solver.
    + intros _. rewrite fmap_app. set_solver.
Qed.

Lemma quiet_side t s s' : side_step t s = Some s' → session_inv s → quiet_inv s → quiet_inv s'.
Proof.
  unfold side_step. destruct (take_side_turn _ _ t (side s)) as [d|] eqn:E; [|done].
  cbn [mbind option_bind]. intros [= <-] Hs Hi.
  pose proof (turn_exit _ _ _ _ _ E (side_ok s Hs)) as (Hx & Hw & He).
  pose proof (turn_intact _ _ _ _ _ E (still_intact s Hi)) as Hn.
  apply turn_leaves in E as (_ & Hmono & _ & Hd & _). destruct Hi.
  destruct t; cbn [pty_after_turn].
  4: { unfold send_control. destruct (Hw eq_refl) as [Hw' Hd']. cbn [set_side control].
       destruct (controlling (control s)) eqn:Hc; split; cbn; auto; try congruence;
         intros; apply elem_of_app; right; apply list_elem_of_here. }
  all: split; cbn; rewrite ?Hx, ?Hd by done; auto.
Qed.

Lemma quiet_happen h s s' :
  happen h s = Some s' → quiet (inr h) = true → quiet_inv s → quiet_inv s'.
Proof.
  assert (∀ c s1, child_happens c s1 = Some s' → quiet_inv s1 → quiet_inv s') as Hchild.
  { unfold child_happens. intros c s1. destruct (child_step c (side s1)) as [d|] eqn:E; [|done].
    apply child_step_leaves in E as (Hv & Hd & Hw). cbn. intros [= <-] [].
    split; unfold intact; cbn; rewrite ?Hv, ?Hd; auto. }
  destruct h as [m|r|b|chunk| |code|h]; cbn [happen]; intros H Hq Hi; try (by eapply Hchild).
  - destruct (ending (input s)) eqn:He; simplify_eq. destruct Hi. split; cbn; try done.
    destruct m; set_solver.
  - destruct (ending (input s)) eqn:He; simplify_eq. destruct Hi. split; cbn; try done. by destruct r.
  - destruct (hung_up _); simplify_eq. destruct Hi. by split.
  - eapply Hchild; [exact H|]. destruct Hi. by split.
  - destruct h as [b|]; [|done]. unfold stream_step in H. rewrite (still_intact s Hi) in H. cbn in H. simplify_eq.
    destruct Hi. by split.
Qed.

Lemma quiet_step g l s s' :
  step g l s = Some s' → quiet l = true → session_inv s → quiet_inv s → quiet_inv s'.
Proof.
  destruct l as [[|[]|t]|h]; cbn [step take_turn]; intros H Hq Hs Hi; try done.
  - by eapply quiet_input.
  - by eapply quiet_control.
  - by eapply quiet_side.
  - by eapply quiet_happen.
Qed.

Lemma quiet_run g ls s s' :
  run g ls s = Some s' → forallb quiet ls = true → session_inv s → quiet_inv s → quiet_inv s'.
Proof.
  revert s. induction ls as [|l ls IH]; intros s H Hq Hs Hi; cbn in H; [by simplify_eq|].
  cbn in Hq. apply andb_true_iff in Hq as [Hl Hq].
  destruct (step g l s) as [s1|] eqn:E; [|done].
  apply (IH s1 H Hq); [by eapply inv_step|by eapply quiet_step].
Qed.

(** In a session whose client stays connected, closes nothing and whose writes
    succeed, the control thread kills the child at the end of every schedule, and
    only after the child has exited and was waited for, when its process number is
    free for another process. *)
Theorem kill_comes_after_the_wait g ls s :
  run g ls session_start = Some s → forallb quiet ls = true →
  nf (turns g) s → child (side s) ≠ Alive → hung_up (out (side s)) = true → stalled (side s) = false →
  (KillChild, true) ∈ effects (control s) ∧ (KillChild, false) ∉ effects (control s).
Proof.
  intros Hrun Hq Hnf Hc Hh Hst. pose proof (inv_run g ls _ _ Hrun session_start_inv) as Hi.
  assert (quiet_inv s) as Hs.
  { apply (quiet_run g ls _ _ Hrun Hq session_start_inv). split; cbn; try done; try set_solver. }
  pose proof (session_at_rest g s Hnf Hi Hst Hc Hh) as Hd. destruct Hi.
  split; [|by intros ?%(kill_after_wait s Hs)]. apply (control_killed s Hs), (control_at_rest g s); auto.
Qed.

(** ** The turns are the tasks of [Process] *)

(** Run to its end beside a control thread that runs, the input task sends what
    [handle_pty_service_input] does. *)
Lemma input_turns_are_the_task g s fin :
  controlling (control s) = true → reading (input s) = true → ending (input s) = Some fin →
  ∃ n s', run g (replicate n (inl InputTurn)) s = Some s' ∧ reading (input s') = false ∧
    queue (control s')
    = queue (control s) ++ (handle_pty_service_input (all_ok (messages (input s))) fin).1.
Proof.
  intros Hc Hr He. remember (messages (input s)) as ms eqn:Hm.
  revert s Hc Hr He Hm. induction ms as [|m ms IH]; intros s Hc Hr He Hm.
  - exists 1%nat. cbn [replicate run step take_turn]. unfold input_turn. rewrite Hr, <- Hm, He. cbn [negb].
    destruct fin as [[]|e]; (eexists; split; [done|]); cbn; unfold send_control; rewrite ?Hc; cbn;
      by rewrite ?app_nil_r.
  - assert (∀ c, input_turn s = Some (set_input {| messages := ms; ending := ending (input s); reading := true |}
        (set_control (send_control [c] (control s)) s)) →
      handle_pty_service_input (all_ok (m :: ms)) fin
      = (c :: (handle_pty_service_input (all_ok ms) fin).1, (handle_pty_service_input (all_ok ms) fin).2) →
      ∃ n s', run g (replicate n (inl InputTurn)) s = Some s' ∧ reading (input s') = false ∧
        queue (control s') = queue (control s) ++ (handle_pty_service_input (all_ok (m :: ms)) fin).1) as Hgo.
    { intros c Hturn Hall.
      destruct (IH (set_input {| messages := ms; ending := ending (input s); reading := true |}
        (set_control (send_control [c] (control s)) s))) as (n & s' & Hrun & Hrd & Hq); try done.
      { cbn. unfold send_control. by rewrite Hc. }
      exists (S n), s'. cbn [replicate run step take_turn]. rewrite Hturn. split_and!; [done|done|].
      rewrite Hq, Hall. cbn. unfold send_control. rewrite Hc. cbn. by rewrite <- app_assoc. }
    unfold input_turn in Hgo. rewrite Hr, <- Hm in Hgo. cbn [negb] in Hgo.
    assert (∀ c, (let '(cs, r) := handle_pty_service_input (all_ok ms) fin in (c :: cs, r))
      = (c :: (handle_pty_service_input (all_ok ms) fin).1, (handle_pty_service_input (all_ok ms) fin).2)) as Hlet
      by (intros c; by destruct (handle_pty_service_input (all_ok ms) fin)).
    destruct m; [rewrite Hc in Hgo; by eapply Hgo, Hlet|by eapply Hgo, Hlet|by eapply Hgo, Hlet
      |by eapply Hgo, Hlet|].
    exists 1%nat. cbn [replicate run step take_turn]. unfold input_turn. rewrite Hr, <- Hm. cbn [negb].
    eexists. split; [done|]. cbn. unfold send_control. by rewrite Hc.
Qed.

(** On a queue, with whether each write succeeds, the control thread does what
    [run_pty_control] does, as long as the terminal takes input. *)
Lemma control_turns_are_the_thread g msgs s :
  controlling (control s) = true → queue (control s) = msgs.*1 → full s = false →
  ∃ ts s', run g (inl <$> ts) s = Some s' ∧
    (effects (control s')).*1
    = (effects (control s)).*1 ++ run_pty_control g (writer_open (control s)) msgs.
Proof.
  revert s. induction msgs as [|[m write_ok] msgs IH]; intros s Hc Hq Hf.
  { exists [], s. by rewrite app_nil_r. }
  assert (∀ open es, control_turn g write_ok s = Some (set_control {| queue := msgs.*1; controlling := true;
      writer_open := open; effects := effects (control s) ++ ((λ e, (e, was_waited (side s))) <$> es) |} s) →
    run_pty_control g (writer_open (control s)) ((m, write_ok) :: msgs) = es ++ run_pty_control g open msgs →
    ∃ ts s', run g (inl <$> ts) s = Some s' ∧ (effects (control s')).*1
      = (effects (control s)).*1 ++ run_pty_control g (writer_open (control s)) ((m, write_ok) :: msgs)) as Hgo.
  { intros open es Hturn Hall.
    destruct (IH (set_control {| queue := msgs.*1; controlling := true; writer_open := open;
      effects := effects (control s) ++ ((λ e, (e, was_waited (side s))) <$> es) |} s)) as (ts & s' & Hrun & He);
      [done..|].
    exists (ControlTurn write_ok :: ts), s'. cbn [fmap list_fmap run step take_turn]. rewrite Hturn.
    split; [done|]. rewrite He, Hall. cbn. rewrite fmap_app, <- list_fmap_compose, list_fmap_id.
    by rewrite <- app_assoc. }
  assert (∀ es, control_turn g write_ok s
      = Some (set_control (stop_control ((λ e, (e, was_waited (side s))) <$> es) (control s)) s) →
    run_pty_control g (writer_open (control s)) ((m, write_ok) :: msgs) = es →
    ∃ ts s', run g (inl <$> ts) s = Some s' ∧ (effects (control s')).*1
      = (effects (control s)).*1 ++ run_pty_control g (writer_open (control s)) ((m, write_ok) :: msgs)) as Hstop.
  { intros es Hturn Hall. exists [ControlTurn write_ok]. eexists. cbn [fmap list_fmap run step take_turn].
    rewrite Hturn. split; [done|]. rewrite Hall. cbn. by rewrite fmap_app, <- list_fmap_compose, list_fmap_id. }
  unfold control_turn in Hgo, Hstop. rewrite Hc, Hq, Hf in Hgo, Hstop. cbn [negb fmap list_fmap fst] in Hgo, Hstop.
  destruct m.
  - destruct (writer_open (control s)).
    + destruct write_ok; [by apply (Hgo true [WriteInput data])|by apply (Hstop [])].
    + by apply (Hgo false []).
  - by apply (Hgo (writer_open (control s)) [ResizeTerminal size]).
  - destruct g as [group|]; [by apply (Hgo (writer_open (control s)) [SignalGroup group (to_unix_signal signal)])|by apply (Hgo (writer_open (control s)) [])].
  - by apply (Hgo false (if writer_open (control s) then [DropStdin] else [])).
  - by apply (Hstop ((if writer_open (control s) then [DropStdin] else []) ++ [KillChild])).
Qed.
End Service.


(** ** Witnesses *)

#[local] Existing Instances demo_output_serde demo_output_laws demo_output_sizes.

(** The client types a line, the child answers and exits while the answer is
    still unread. *)
Definition demo_schedule : list (turn + happening) :=
  [inr (Sends (Data (lit "ls"))); inl InputTurn; inl (ControlTurn true); inr (Prints (lit "notes"));
   inr (Exits 3); inl (SideTurn WaitTurn); inl (SideTurn ExitTurn); inr Closes;
   inl (SideTurn (SourceTurn StreamStdout)); inl (SideTurn (SourceTurn StreamStdout));
   inl (SideTurn OutputTurn); inl (SideTurn OutputTurn); inl (SideTurn EndTurn); inl (ControlTurn true)].

Definition demo_end : session := default session_start (run (Some 7) demo_schedule session_start).

Lemma demo_schedule_runs : run (Some 7) demo_schedule session_start = Some demo_end.
Proof. vm_compute. reflexivity. Qed.

Ltac no_turn :=
  let s' := fresh in let t := fresh in let Ht := fresh in
  intros (s' & t & Ht); destruct t as [|[]|[[]| | | |]]; vm_compute in Ht; discriminate Ht.

Lemma demo_at_rest : nf (turns (Some 7)) demo_end.
Proof. no_turn. Qed.

Lemma terminal_session_ends_witness :
  ∃ code, child (side demo_end) = Waited code ∧
    (bridge_process_channel {| available := written (stream (svc (side demo_end))); end_error := None |}
                            {| delivered := []; slots := None |}).1
    = {| delivered := [OutData (lit "notes"); OutExitStatus code; OutEof; OutClose]; slots := None |}.
Proof.
  destruct (terminal_session_ends (Some 7) demo_schedule demo_end demo_schedule_runs) as [_ H].
  destruct H as (_ & _ & _ & _ & code & Hc & Hb);
    [exact demo_at_rest|vm_compute; discriminate|vm_compute; reflexivity|vm_compute; reflexivity|].
  exists code. split; [exact Hc|]. rewrite Hb; [|vm_compute; reflexivity]. reflexivity.
Defined.

Example demo_killed_after_wait : effects (control demo_end) = [(WriteInput (lit "ls"), false); (DropStdin, true); (KillChild, true)].
Proof. vm_compute. reflexivity. Qed.

(** ** A terminal nobody reads

    The control thread waits in a write to a terminal whose input is full, and
    what comes later in its queue waits with it, the close too: the client types
    more than the child reads and goes away, and the child is not killed. *)
Definition full_schedule : list (turn + happening) :=
  [inr (Fills true); inr (Sends (Data (lit "text"))); inr (HangsUp (Ok tt)); inl InputTurn; inl InputTurn].

Theorem full_terminal_keeps_its_child :
  ∃ s, run (Some 7) full_schedule session_start = Some s ∧ nf (turns (Some 7)) s ∧
    reading (input s) = false ∧ child (side s) = Alive ∧ done (side s) = false ∧
    queue (control s) = [PtyWrite (lit "text"); PtyClose] ∧ effects (control s) = [].
Proof. eexists. split; [reflexivity|]. split; [no_turn|by vm_compute]. Qed.

(** ** A client that does not read

    The stream to the daemon stays full: the child is gone and the terminal
    closed, and the session waits with the exit status it could not send, until
    the stream is read or breaks. *)
Definition unread_schedule : list (turn + happening) :=
  [inr (Stream (Stalls true)); inr (Exits 3); inr Closes; inl (SideTurn WaitTurn);
   inl (SideTurn ExitTurn); inl (ControlTurn true); inl (SideTurn (SourceTurn StreamStdout));
   inl (SideTurn OutputTurn)].

Definition unread_end : session := default session_start (run (Some 7) unread_schedule session_start).

Theorem full_stream_keeps_its_session :
  run (Some 7) unread_schedule session_start = Some unread_end ∧ nf (turns (Some 7)) unread_end ∧
  child (side unread_end) = Waited 3 ∧ running (out (side unread_end)) = false ∧
  done (side unread_end) = false.
Proof. split; [vm_compute; reflexivity|]. split; [no_turn|by vm_compute]. Qed.

(** It ends when the stream breaks. *)
Definition broken_end : session :=
  default session_start
    (run (Some 7) [inr (Stream (Breaks 0 (IoError OtherKind (lit "broken pipe")))); inl (SideTurn EndTurn)]
      unread_end).

Example broken_stream_ends_its_session : nf (turns (Some 7)) broken_end ∧ done (side broken_end) = true.
Proof. split; [no_turn|by vm_compute]. Qed.
End PtySession.
