(* ===== verification/PipedSession.v ===== *)
(** * A session without a terminal as a whole
      (src/src/executor.rs, [start_piped_process_service])

    The input task writes to the child's stdin and signals the child, the wait
    task waits for it or kills it once the input task is gone, and the tasks of
    [OutputSide] read the two pipes of the child and send what was read and the
    exit status.  Each turn of a task is a step; in between the client and the
    child do what they like, and the stream to the daemon may fill or break.  What
    the input task does with its whole input, and
    the channel by which the wait task learns that it is gone, are those of
    [Process]. *)

From S2P Require Import Prelude Rust Session Framing Process OutputSide.

Local Open Scope Z_scope.

Module PipedSession.
Import Framing Process OutputSide.

(** ** State *)

(** The input task: what it has not read yet, how reading will end, if it does,
    whether the task runs, whether the child's stdin is full, so that a write
    waits. *)
Record input_task := {
  messages : list ProcessInput; ending : option (result anyhow unit); reading : bool; full : bool;
}.

(** [killing] once the wait task has taken its second branch; [effects] is what
    was done to the child, each time with whether it had been waited for. *)
Record session := {
  input : input_task; killing : bool; effects : list (child_effect * bool); side : output_side;
}.

Definition set_input (i : input_task) (es : list child_effect) (s : session) : session :=
  {| input := i; killing := killing s;
     effects := effects s ++ ((λ e, (e, was_waited (side s))) <$> es); side := side s |}.
Definition set_side (d : output_side) (s : session) : session :=
  {| input := input s; killing := killing s; effects := effects s; side := d |}.

Definition session_start : session := {|
  input := {| messages := []; ending := None; reading := true; full := false |};
  killing := false; effects := []; side := side_start open_source;
|}.

(** ** The turns of the tasks *)

Definition go_on (ms : list ProcessInput) (i : input_task) : input_task :=
  {| messages := ms; ending := ending i; reading := true; full := full i |}.
Definition stop_reading (ms : list ProcessInput) (i : input_task) : input_task :=
  {| messages := ms; ending := ending i; reading := false; full := full i |}.

(** One message of [handle_piped_service_input], or the end of the stream;
    [write_ok] is whether a write succeeds.  [None] while there is nothing to
    read, or a write waits for the child to read its stdin. *)
Definition input_turn (pid : Z) (write_ok : bool) (s : session) : option session :=
  let i := input s in
  if negb (reading i) then None else
  match messages i with
  | m :: ms =>
      match m with
      | Data data =>
          if write_waits (full i) data then None
          else if write_ok then Some (set_input (go_on ms i) [WriteInput data] s)
          else Some (set_input (stop_reading ms i) [ShutdownStdin; DropStdin] s)
      | Signal signal => Some (set_input (go_on ms i) (send_signal_to_pid pid (to_unix_signal signal)) s)
      | Eof => Some (set_input (go_on ms i) [ShutdownStdin] s)
      | Close =>
          Some (set_input (stop_reading ms i) (send_signal_to_pid pid SIGKILL ++ [ShutdownStdin; DropStdin]) s)
      | Resize _ => Some (set_input (go_on ms i) [] s)
      end
  | [] =>
      match ending i with
      | None => None
      | Some (Ok _) => Some (set_input (stop_reading [] i) [ShutdownStdin; DropStdin] s)
      | Some (Err _) => Some (set_input (stop_reading [] i) [DropStdin] s)
      end
  end.

(** The kill channel: its last sender goes with the input task. *)
Definition kill_rx (s : session) : kill_channel :=
  if reading (input s) then unix_kill_channel else drop_sender unix_kill_channel.

(** The second branch of the wait task: the child is killed, and then waited for
    as in the first. *)
Definition kill_turn (s : session) : option session :=
  if negb (recv_ready (kill_rx s)) || killing s || was_waited (side s) then None
  else Some {| input := input s; killing := true; effects := effects s ++ [(KillChild, false)];
               side := side s |}.

Section Service.
Context `{!Serde ProcessOutput}.
Context (pid : Z).

(** A turn of the output side; at the end the input task is aborted, which drops
    the child's stdin. *)
Definition piped_after_turn (t : side_turn) (s : session) : session :=
  match t with
  | EndTurn =>
      set_input (stop_reading (messages (input s)) (input s))
        (if reading (input s) then [DropStdin] else []) s
  | _ => s
  end.

Definition side_step (t : side_turn) (s : session) : option session :=
  d ← take_side_turn (send_signal_to_pid pid SIGKILL) [] t (side s); Some (piped_after_turn t (set_side d s)).

(** ** Schedules *)

Inductive turn := InputTurn (write_ok : bool) | KillTurn | SideTurn (t : side_turn).

(** What happens from outside: the daemon sends a message or its stream ends, the
    child's stdin fills up or is read again, the child does something, the stream to
    the daemon fills up, is read again or breaks. *)
Inductive happening :=
| Sends (m : ProcessInput)
| HangsUp (r : result anyhow unit)
| Fills (b : bool)
| ChildDoes (h : child_does)
| Stream (h : stream_does).

Definition take_turn (t : turn) : session → option session :=
  match t with
  | InputTurn write_ok => input_turn pid write_ok
  | KillTurn => kill_turn
  | SideTurn t => side_step t
  end.

Definition happen (h : happening) (s : session) : option session :=
  let i := input s in
  let with_end ms e := Some (set_input {| messages := ms; ending := e; reading := reading i; full := full i |} [] s) in
  match h with
  | Sends m => match ending i with None => with_end (messages i ++ [m]) None | Some _ => None end
  | HangsUp r => match ending i with None => with_end (messages i) (Some r) | Some _ => None end
  | Fills b =>
      Some (set_input {| messages := messages i; ending := ending i; reading := reading i; full := b |} [] s)
  | ChildDoes h => d ← child_step h (side s); Some (set_side d s)
  | Stream h => d ← stream_step h (side s); Some (set_side d s)
  end.

Definition step (l : turn + happening) : session → option session :=
  match l with inl t => take_turn t | inr h => happen h end.

Fixpoint run (ls : list (turn + happening)) (s : session) : option session :=
  match ls with
  | [] => Some s
  | l :: ls => s ← step l s; run ls s
  end.

(** A turn of some task. *)
Definition turns (s s' : session) : Prop := ∃ t, take_turn t s = Some s'.

(** ** Every schedule of the tasks comes to an end *)

Definition weight (s : session) : nat :=
  length (messages (input s)) + Nat.b2n (reading (input s)) + Nat.b2n (negb (killing s))
  + side_weight (side s).

Lemma piped_turn_lighter t s s' : take_turn t s = Some s' → (weight s' < weight s)%nat.
Proof.
  unfold weight. destruct t as [write_ok| |t]; cbn [take_turn]; intros H.
  - unfold input_turn in H. destruct (reading (input s)) eqn:Hr; [|done]. cbn [negb] in H.
    destruct (messages (input s)) as [|m ms] eqn:Hm.
    + destruct (ending (input s)) as [[]|]; simplify_eq; cbn -[side_weight]; lia.
    + destruct m; [destruct (write_waits _ _); [done|]; destruct write_ok|..]; simplify_eq;
        cbn -[side_weight]; lia.
  - unfold kill_turn in H. destruct (negb (recv_ready _)); [done|]. destruct (killing s); [done|].
    destruct (was_waited (side s)); cbn in H; simplify_eq. cbn -[side_weight]. lia.
  - unfold side_step in H. destruct (take_side_turn _ _ t (side s)) as [d|] eqn:E; [|done].
    apply side_turn_lighter in E. cbn [mbind option_bind] in H. simplify_eq.
    destruct t; cbn -[side_weight] in *; destruct (reading (input s)); cbn [Nat.b2n]; lia.
Qed.

Lemma piped_turns_end s : sn turns s.
Proof.
  induction s as [s IH] using (induction_ltof1 _ weight). constructor. intros s' [t Ht].
  apply IH. by apply piped_turn_lighter in Ht.
Qed.

(** ** Invariants *)

(** The output side is sound, the input task ends with the service, and the child
    is killed only before it was waited for, by a wait task that is then on its
    second branch, after the end of the input task. *)
Record session_inv (s : session) : Prop := {
  side_ok : side_inv (send_signal_to_pid pid SIGKILL) [] (side s);
  input_ended : done (side s) = true → reading (input s) = false;
  killed_before_wait b : (KillChild, b) ∈ effects s → b = false;
  killed_when_killing : killing s = true → reading (input s) = false ∧ (KillChild, false) ∈ effects s;
}.

Lemma piped_session_start_inv : session_inv session_start.
Proof. split; [apply side_start_inv; by left|done| |done]. cbn. set_solver. Qed.

Lemma no_kill_signal sig : KillChild ∉ send_signal_to_pid pid sig.
Proof. unfold send_signal_to_pid. destruct (try_from _ _); set_solver. Qed.

Lemma piped_inv_set_input i es s :
  (reading (input s) = false → reading i = false) → KillChild ∉ es →
  session_inv s → session_inv (set_input i es s).
Proof.
  intros Hi Hes []. split; cbn; auto.
  - intros b [?|(e & [= <- ->] & He)%list_elem_of_fmap]%elem_of_app; [auto|done].
  - intros [? ?]%killed_when_killing0. split; [auto|]. apply elem_of_app. by left.
Qed.

Lemma piped_inv_input write_ok s s' : input_turn pid write_ok s = Some s' → session_inv s → session_inv s'.
Proof.
  unfold input_turn. destruct (reading (input s)) eqn:Hr; [|done]. cbn [negb]. intros H Hi.
  assert (∀ i es, KillChild ∉ es → session_inv (set_input i es s)) as Hset.
  { intros i es Hes. apply piped_inv_set_input; [congruence|done|done]. }
  pose proof no_kill_signal as Hk.
  destruct (messages (input s)) as [|m ms].
  - destruct (ending (input s)) as [[]|]; simplify_eq; apply Hset; set_solver.
  - destruct m; [destruct (write_waits _ _); [done|]; destruct write_ok|..]; simplify_eq; apply Hset;
      first [apply Hk|set_solver].
Qed.

Lemma inv_kill s s' : kill_turn s = Some s' → session_inv s → session_inv s'.
Proof.
  unfold kill_turn, kill_rx. destruct (reading (input s)) eqn:Hr; [done|]. cbn.
  destruct (killing s); [done|]. destruct (was_waited (side s)); [done|]. intros [= <-] [].
  split; cbn; try done.
  - intros b [?|[= ->]%list_elem_of_singleton]%elem_of_app; auto.
  - intros _. split; [done|]. apply elem_of_app. right. by apply list_elem_of_singleton.
Qed.

Lemma inv_set_side d s :
  session_inv s → side_inv (send_signal_to_pid pid SIGKILL) [] d →
  (done d = true → reading (input s) = false) → session_inv (set_side d s).
Proof. intros [] Hd Hi. by split. Qed.

Context {laws : SerdeLaws ProcessOutput} {sizes : SerdeSize}.

Lemma piped_inv_side t s s' : side_step t s = Some s' → session_inv s → session_inv s'.
Proof.
  unfold side_step. destruct (take_side_turn _ _ t (side s)) as [d|] eqn:E; [|done].
  cbn [mbind option_bind]. intros [= <-] Hi. pose proof (inv_side_turn _ _ _ _ _ E (side_ok s Hi)) as Hd.
  apply turn_leaves in E as (_ & _ & _ & Hdone & _). destruct t; cbn [piped_after_turn].
  5: { destruct Hi. split; cbn; try done.
       - intros b [?|(e & [= <- ->] & He)%list_elem_of_fmap]%elem_of_app; [auto|].
         destruct (reading (input s)); set_solver.
       - intros [_ ?]%killed_when_killing0. split; [done|]. apply elem_of_app. by left. }
  all: apply inv_set_side; [done..|]; rewrite Hdone by done; apply (input_ended s Hi).
Qed.

Lemma piped_inv_step l s s' : step l s = Some s' → session_inv s → session_inv s'.
Proof.
  destruct l as [[write_ok| |t]|[m|r|b|h|h]]; cbn [step take_turn happen]; intros H Hi.
  - by eapply piped_inv_input.
  - by eapply inv_kill.
  - by eapply piped_inv_side.
  - destruct (ending (input s)); simplify_eq. apply piped_inv_set_input; [done|set_solver|done].
  - destruct (ending (input s)); simplify_eq. apply piped_inv_set_input; [done|set_solver|done].
  - simplify_eq. apply piped_inv_set_input; [done|set_solver|done].
  - destruct (child_step h (side s)) as [d|] eqn:E; [|done]. cbn in H. simplify_eq.
    pose proof (inv_child_step _ _ _ _ _ E (side_ok s Hi)). apply child_step_leaves in E as (_ & Hd & _).
    apply inv_set_side; [done..|]. rewrite Hd. apply (input_ended s Hi).
  - destruct (stream_step h (side s)) as [d|] eqn:E; [|done]. cbn in H. simplify_eq.
    pose proof (inv_stream_step _ _ _ _ _ E (side_ok s Hi)). apply stream_step_leaves in E as (_ & _ & _ & Hd & _).
    apply inv_set_side; [done..|]. rewrite Hd. apply (input_ended s Hi).
Qed.

Lemma piped_inv_run ls s s' : run ls s = Some s' → session_inv s → session_inv s'.
Proof.
  revert s. induction ls as [|l ls IH]; intros s H Hi; cbn in H; [by simplify_eq|].
  destruct (step l s) as [s1|] eqn:E; [|done]. by apply (IH s1 H), (piped_inv_step l s).
Qed.

(** ** No task is left waiting *)

Lemma piped_at_rest s t : nf turns s → take_turn t s = None.
Proof. intros H. destruct (take_turn t s) eqn:E; [|done]. destruct H. eexists. by exists t. Qed.

Lemma piped_side_rests s : nf turns s → side_at_rest (send_signal_to_pid pid SIGKILL) [] (side s).
Proof.
  intros H t. apply (piped_at_rest s (SideTurn t)) in H. cbn in H. unfold side_step in H.
  by destruct (take_side_turn _ _ t (side s)).
Qed.


(** ** Properties *)

(** C10: a session without a terminal ends with its child and its pipes, once the
    stream to the daemon is not full, and over a stream that never broke the client
    then has everything.  Whatever the client, the child and the stream do and
    however the tasks are scheduled: they can take finitely many turns before
    something new happens; and when none of them can take a turn, the child has
    exited, nobody holds the pipes and the stream takes output or is broken, then
    the session is over: no task is left, even if the client never closed its side
    or a write to the child was waiting, and the child was waited for.  If the
    stream did not break, the daemon's bridge, into a channel that takes
    everything, gives it all that was ever printed to each pipe, in order, then the
    exit status and the end.  (A stream that stays full keeps the session:
    [unread_output_keeps_its_session].) *)
Theorem piped_session_ends ls s :
  run ls session_start = Some s →
  sn turns s ∧
  (nf turns s → child (side s) ≠ Alive → (∀ w, hung_up (get_source w (side s)) = true) →
   stalled (side s) = false →
   done (side s) = true ∧ reading (input s) = false ∧ (∀ w, running (get_source w (side s)) = false) ∧
   ∃ code, child (side s) = Waited code ∧
     (intact (side s) → ∃ outs, (∀ w, of_source w outs = printed (get_source w (side s))) ∧
      bridge_process_channel {| available := written (stream (svc (side s))); end_error := None |}
                             {| delivered := []; slots := None |}
      = ({| delivered := (to_channel <$> outs) ++ [OutExitStatus code; OutEof; OutClose];
            slots := None |}, Some (Ok tt)))).
Proof.
  intros Hrun. split; [apply piped_turns_end|]. intros Hnf Hc Hh Hst.
  pose proof (piped_inv_run ls _ _ Hrun piped_session_start_inv) as [Hi Hin _ _].
  pose proof (piped_side_rests s Hnf) as Hrest.
  pose proof (service_at_rest _ _ _ Hrest Hi Hst Hc Hh) as Hd. unfold side_inv in Hi. rewrite Hd in Hi.
  destruct (child_at_rest _ _ _ Hrest Hc) as [code Hcode].
  split_and!; [done|auto|intros w; by apply (source_at_rest _ _ w _ Hrest)|].
  exists code. split; [done|]. intros Hn. destruct (Hi Hn) as [_ (outs & c & Hw & Hos & _ & Hb)].
  assert (c = code) as -> by congruence. by exists outs.
Qed.


(** ** The turns are the task of [Process] *)

(** On its messages, with whether each write succeeds, the input task does what
    [handle_piped_service_input] does, as long as the child takes input. *)
Lemma piped_input_turns_are_the_task msgs s fin :
  reading (input s) = true → full (input s) = false → ending (input s) = Some fin →
  messages (input s) = msgs.*1 →
  ∃ ts s', run (inl <$> ts) s = Some s' ∧ reading (input s') = false ∧
    (effects s').*1 = (effects s).*1 ++ (handle_piped_service_input pid msgs fin).1.
Proof.
  revert s. induction msgs as [|[m write_ok] msgs IH]; intros s Hr Hf He Hm.
  - exists [InputTurn true]. cbn [fmap list_fmap run step take_turn]. unfold input_turn. rewrite Hr, Hm, He.
    destruct fin as [[]|e]; (eexists; split; [done|]); split; try done; cbn; by rewrite fmap_app.
  - assert (∀ es, input_turn pid write_ok s = Some (set_input (go_on msgs.*1 (input s)) es s) →
      (handle_piped_service_input pid ((m, write_ok) :: msgs) fin).1
      = es ++ (handle_piped_service_input pid msgs fin).1 →
      ∃ ts s', run (inl <$> ts) s = Some s' ∧ reading (input s') = false ∧ (effects s').*1
        = (effects s).*1 ++ (handle_piped_service_input pid ((m, write_ok) :: msgs) fin).1) as Hgo.
    { intros es Hturn Hall.
      destruct (IH (set_input (go_on msgs.*1 (input s)) es s)) as (ts & s' & Hrun & Hrd & Hes); try done.
      exists (InputTurn write_ok :: ts), s'. cbn [fmap list_fmap run step take_turn]. rewrite Hturn.
      split_and!; [done|done|]. rewrite Hes, Hall. cbn.
      by rewrite fmap_app, <- list_fmap_compose, list_fmap_id, <- app_assoc. }
    assert (∀ es, input_turn pid write_ok s = Some (set_input (stop_reading msgs.*1 (input s)) es s) →
      (handle_piped_service_input pid ((m, write_ok) :: msgs) fin).1 = es →
      ∃ ts s', run (inl <$> ts) s = Some s' ∧ reading (input s') = false ∧ (effects s').*1
        = (effects s).*1 ++ (handle_piped_service_input pid ((m, write_ok) :: msgs) fin).1) as Hstop.
    { intros es Hturn Hall. exists [InputTurn write_ok]. eexists. cbn [fmap list_fmap run step take_turn].
      rewrite Hturn. split_and!; [done|done|]. rewrite Hall. cbn.
      by rewrite fmap_app, <- list_fmap_compose, list_fmap_id. }
    cbn [handle_piped_service_input] in *. unfold input_turn in Hgo, Hstop.
    rewrite Hr, Hm in Hgo, Hstop. cbn [negb fmap list_fmap fst] in Hgo, Hstop.
    unfold write_waits in *. rewrite Hf in *. cbn [andb] in *.
    destruct (handle_piped_service_input pid msgs fin) as [es r]. cbn [fst] in *.
    destruct m; [destruct write_ok; [by eapply Hgo|by eapply Hstop]|by eapply Hgo|by eapply Hgo|by eapply Hgo|].
    by eapply Hstop.
Qed.
End Service.

(** ** Witnesses *)

#[local] Existing Instances demo_output_serde demo_output_laws demo_output_sizes.

Ltac no_turn :=
  let s' := fresh in let t := fresh in let Ht := fresh in
  intros (s' & t & Ht); destruct t as [[]| |[[]| | | |]]; vm_compute in Ht; discriminate Ht.

Definition child_prints (w : ProcessStream) (chunk : bytes) : turn + happening := inr (ChildDoes (Prints w chunk)).
Definition child_closes (w : ProcessStream) : turn + happening := inr (ChildDoes (Closes w)).

(** The child prints to both pipes and exits; the client never closes. *)
Definition demo_schedule : list (turn + happening) :=
  [inr (Sends (Data (lit "text"))); inr (Fills true); child_prints StreamStdout (lit "some");
   child_prints StreamStderr (lit "oops"); inl (SideTurn (SourceTurn StreamStderr));
   inr (ChildDoes (Exits 3)); inl (SideTurn WaitTurn); inl (SideTurn ExitTurn);
   child_closes StreamStdout; child_closes StreamStderr;
   inl (SideTurn (SourceTurn StreamStdout)); inl (SideTurn (SourceTurn StreamStdout));
   inl (SideTurn (SourceTurn StreamStderr)); inl (SideTurn OutputTurn); inl (SideTurn OutputTurn);
   inl (SideTurn OutputTurn); inl (SideTurn EndTurn)].

Definition demo_end : session := default session_start (run 7 demo_schedule session_start).

Lemma piped_demo_schedule_runs : run 7 demo_schedule session_start = Some demo_end.
Proof. vm_compute. reflexivity. Qed.

Lemma piped_demo_at_rest : nf (turns 7) demo_end.
Proof. no_turn. Qed.

Lemma piped_session_ends_witness :
  done (side demo_end) = true ∧ reading (input demo_end) = false ∧ sn (turns 7) demo_end.
Proof.
  destruct (piped_session_ends 7 demo_schedule demo_end piped_demo_schedule_runs) as [Hsn H].
  destruct H as (Hd & Hr & _);
    [exact piped_demo_at_rest|vm_compute; discriminate|intros []; vm_compute; reflexivity
    |vm_compute; reflexivity|].
  split; [exact Hd|]. split; [exact Hr|exact Hsn].
Defined.



(** ** A child that does not read

    The input task waits in a write to a pipe that is full, and what the client
    sends later waits with it: a close, and the end of the stream too.  The
    client is gone, and the child is neither signalled nor killed. *)
Definition full_schedule : list (turn + happening) :=
  [inr (Fills true); inr (Sends (Data (lit "text"))); inr (Sends Close); inr (HangsUp (Ok tt))].

Theorem full_stdin_keeps_its_child :
  ∃ s, run 7 full_schedule session_start = Some s ∧ nf (turns 7) s ∧
    child (side s) = Alive ∧ done (side s) = false ∧ effects s = [].
Proof. eexists. split; [reflexivity|]. split; [no_turn|by vm_compute]. Qed.

(** ** A client that does not read

    The stream to the daemon stays full with an output the service cannot write:
    the child is gone and its pipes closed, and neither its exit nor the end of the
    output is looked at until the stream is read or breaks. *)
Definition unread_schedule : list (turn + happening) :=
  [inr (Stream (Stalls true)); child_prints StreamStdout (lit "some");
   inl (SideTurn (SourceTurn StreamStdout)); inl (SideTurn OutputTurn); inr (ChildDoes (Exits 3));
   child_closes StreamStdout; child_closes StreamStderr; inl (SideTurn WaitTurn);
   inl (SideTurn (SourceTurn StreamStdout)); inl (SideTurn (SourceTurn StreamStderr))].

Definition unread_end : session := default session_start (run 7 unread_schedule session_start).

Theorem unread_output_keeps_its_session :
  run 7 unread_schedule session_start = Some unread_end ∧ nf (turns 7) unread_end ∧
  child (side unread_end) = Waited 3 ∧ (∀ w, running (get_source w (side unread_end)) = false) ∧
  done (side unread_end) = false.
Proof.
  split; [vm_compute; reflexivity|]. split; [no_turn|]. split_and!; [by vm_compute|by intros []|by vm_compute].
Qed.

(** ** Signals for a child that is gone

    The child exits while a process it started keeps its stdout.  The session
    goes on, and so does the input task: what the client asks for, and the kill
    when it closes the channel, are sent to the number of a process that was
    waited for. *)
Definition late_schedule : list (turn + happening) :=
  [child_closes StreamStderr; inr (ChildDoes (Exits 0)); inl (SideTurn WaitTurn); inl (SideTurn ExitTurn);
   inr (Sends (Signal Int)); inr (Sends Close); inl (InputTurn true); inl (InputTurn true)].

Theorem signals_after_the_wait :
  ∃ s, run 7 late_schedule session_start = Some s ∧ child (side s) = Waited 0 ∧
    (SignalPid 7 SIGINT, true) ∈ effects s ∧ (SignalPid 7 SIGKILL, true) ∈ effects s.
Proof. eexists. split; [reflexivity|]. split_and!; [done|set_solver..]. Qed.
End PipedSession.
