(* ===== verification/WindowsProcess.v ===== *)
(** * Process sessions on targets other than Unix (src/src/executor.rs)

    The services of Process.v are compiled for Windows with a few parts of their
    own: no signals, a kill request instead of SIGKILL, an output loop of a
    terminal that ends with its child, and exit codes of 32 bits.  This file has
    those parts, and compares them with the Unix ones. *)

From S2P Require Import Prelude Rust Config Session Framing Process.

Local Open Scope Z_scope.

Module WindowsProcess.
Import Framing Process.

(** ** Exit codes *)

(** [ExitStatus::code] is a signed 32-bit number; it is reinterpreted. *)
Definition exit_status_code (code : option Z) : Z :=
  match code with Some code => code mod (u32_max + 1) | None => 255 end.

(** ** Input of a piped child *)

(** The channel after [start_piped_process_service] has returned: both tasks
    keep their sender. *)
Definition windows_kill_channel : kill_channel := kill_channel_new.

(** Effects, the kill channel with the input task's sender dropped, and the
    result. *)
Fixpoint handle_piped_service_input (msgs : list (ProcessInput * bool)) (fin : result anyhow unit)
  (k : kill_channel) : list child_effect * kill_channel * result anyhow unit :=
  match msgs with
  | [] => match fin with
          | Ok _ => ([ShutdownStdin; DropStdin], drop_sender k, Ok tt)
          | Err e => ([DropStdin], drop_sender k, Err e)
          end
  | (m, write_ok) :: msgs =>
      let go es := let '(es', k, r) := handle_piped_service_input msgs fin k in (es ++ es', k, r) in
      match m with
      | Data data => if write_ok : bool then go [WriteInput data]
                     else ([ShutdownStdin; DropStdin], drop_sender k, Ok tt)
      | Signal _ => go []
      | Eof => go [ShutdownStdin]
      | Close => ([ShutdownStdin; DropStdin], drop_sender (try_send k), Ok tt)
      | Resize _ => go []
      end
  end.

(** ** Output *)

Section Output.
Context `{!Serde ProcessOutput}.

(** The output loop of a piped child: a broken stream asks for the kill. *)
Definition piped_service (evs : list service_event) (s : service) (k : kill_channel)
  : option (service * kill_channel) :=
  s ← service_loop [] [] evs s;
  Some (s, drop_sender (if broken s then try_send k else k)).

Definition pty_loop_done (s : service) : bool := broken s || bool_decide (is_Some (child_exit s)).

(** The output loop of a terminal and what follows it. *)
Fixpoint pty_service (evs : list service_event) (s : service) : option service :=
  if pty_loop_done s then Some (send_exit s)
  else match evs with
       | [] => None
       | ev :: evs => service_turn [] [SendControlClose] s ev ≫= pty_service evs
       end.
End Output.

(** ** Lemmas *)

(** What the input does to the child, but for signals. *)
Definition no_signals (es : list child_effect) : list child_effect :=
  List.filter (λ e, match e with SignalPid _ _ => false | _ => true end) es.

Definition ended_by_close (msgs : list ProcessInput) : bool :=
  existsb (λ m, match m with Close => true | _ => false end) msgs.

Lemma no_signals_send pid s : no_signals (send_signal_to_pid pid s) = [].
Proof. unfold send_signal_to_pid. by destruct (try_from _ _). Qed.

Lemma no_signals_app es es' : no_signals (es ++ es') = no_signals es ++ no_signals es'.
Proof. apply List.filter_app. Qed.

Lemma input_agrees pid msgs fin k :
  let '(es, k', r) := handle_piped_service_input msgs fin k in
  let '(es', r') := Process.handle_piped_service_input pid msgs fin in
  es = no_signals es' ∧ r = r' ∧ senders k' = pred (senders k).
Proof.
  induction msgs as [|[m ok] msgs IH]; cbn [handle_piped_service_input Process.handle_piped_service_input].
  { by destruct fin. }
  destruct (handle_piped_service_input msgs fin k) as [[es k'] r],
    (Process.handle_piped_service_input pid msgs fin) as [es' r'].
  destruct IH as (-> & -> & Hk). destruct m as [d|s|z| |]; [destruct ok|..];
    rewrite ?no_signals_app, ?no_signals_send; done.
Qed.

(** Only a close makes the waiting task ready to kill. *)
Lemma close_asks_for_kill msgs fin :
  recv_ready (handle_piped_service_input (all_ok msgs) fin windows_kill_channel).1.2 = ended_by_close msgs.
Proof.
  induction msgs as [|m msgs IH]; [by destruct fin|].
  cbn [all_ok fmap list_fmap handle_piped_service_input ended_by_close existsb]. fold (all_ok msgs).
  fold (ended_by_close msgs). rewrite <- IH.
  destruct m; try done; by destruct (handle_piped_service_input (all_ok msgs) fin windows_kill_channel) as [[]].
Qed.

Section OutputLemmas.
Context `{!Serde ProcessOutput}.

Lemma pty_not_done s : child_exit s = None → broken s = false → pty_loop_done s = false.
Proof. unfold pty_loop_done. by intros -> ->. Qed.

Lemma pty_service_outputs os evs s w :
  output_closed s = false → broken s = false → child_exit s = None →
  send_messages session_texts os (stream s) = (w, Ok tt) →
  pty_service ((OutputReady ∘ Some <$> os) ++ evs) s = pty_service evs (set_stream w s).
Proof.
  revert s. induction os as [|o os IH]; intros s Hc Hb Hx.
  - cbn [send_messages]. intros [= <-]. by destruct s.
  - cbn [send_messages fmap list_fmap app pty_service compose].
    rewrite pty_not_done by done. cbn [service_turn]. rewrite Hc. unfold send_session_message.
    destruct (send_message session_texts o (stream s)) as [w' [[]|e]]; [|done]. intros Hs.
    cbn [mbind option_bind]. by rewrite (IH (set_stream w' s)).
Qed.
End OutputLemmas.

(** ** Properties *)

(** On Windows a client's input does the same to a child without a terminal
    as on Unix, but for the signals, which are dropped.  A close asks the
    waiting task to kill the child; but when the connection just ends nothing
    does, since the output task still holds a sender: there the child outlives
    the input, while on Unix it is killed. *)
Theorem windows_input_agrees_with_unix pid msgs fin exited kill_first after :
  let '(es, k, r) := handle_piped_service_input (all_ok msgs) fin windows_kill_channel in
  let '(es', r') := Process.handle_piped_service_input pid (all_ok msgs) fin in
  es = no_signals es' ∧ r = r' ∧ stdin_bytes es = stdin_bytes es' ∧
  piped_wait k None kill_first after
  = (if ended_by_close msgs then Some ([KillChild], wait_result after) else None) ∧
  piped_wait k (Some exited) false after = Some ([], wait_result exited).
Proof.
  pose proof (input_agrees pid (all_ok msgs) fin windows_kill_channel) as H.
  pose proof (close_asks_for_kill msgs fin) as Hk.
  destruct (handle_piped_service_input (all_ok msgs) fin windows_kill_channel) as [[es k] r],
    (Process.handle_piped_service_input pid (all_ok msgs) fin) as [es' r'].
  destruct H as (-> & -> & _). cbn [fst snd] in Hk. unfold piped_wait. rewrite Hk, andb_false_r.
  split_and!; [done..| |by destruct (ended_by_close msgs)|done].
  unfold stdin_bytes. induction es' as [|e es' IH]; [done|]. destruct e; cbn; by rewrite <- ?IH.
Qed.

(** On Windows the output of a terminal ends with its child.  What was read
    before the exit was noticed reaches the client, then the exit status; what
    was read but not yet sent, and everything later, does not, whereas the Unix
    loop goes on until the output is closed. *)
Theorem windows_pty_output_ends_with_child
  `{!Serde ProcessOutput, !SerdeLaws ProcessOutput, !SerdeSize}
  (os : list ProcessOutput) (code : option Z) (later : list service_event) :
  Forall is_chunk os → 0 ≤ default 255 code ≤ u32_max →
  ∃ s, pty_service ((OutputReady ∘ Some <$> os) ++ ChildExited code :: later) service_start = Some s ∧
    service_effects s = [SendControlClose] ∧
    bridge_process_channel {| available := written (stream s); end_error := None |}
                           {| delivered := []; slots := None |}
    = ({| delivered := (to_channel <$> os) ++ [OutExitStatus (default 255 code); OutEof; OutClose];
          slots := None |}, Some (Ok tt)).
Proof.
  intros Hos Hcode. destruct (sent_output_arrives os (default 255 code) Hos Hcode) as (w & Hw & Hb).
  rewrite (pty_service_outputs os _ service_start w) by done.
  cbn [pty_service]. rewrite pty_not_done by done. eexists.
  split; [by destruct later|]. by split.
Qed.

(** A stream to the daemon that breaks has the child killed on Windows too. *)
Theorem windows_broken_stream_kills `{!Serde ProcessOutput} evs s k s' k' kill_first after :
  piped_service evs s k = Some (s', k') → broken s' = true →
  piped_wait k' None kill_first after = Some ([KillChild], wait_result after).
Proof.
  unfold piped_service. intros (s1 & Hs & H)%bind_Some Hb. simplify_eq. by rewrite Hb.
Qed.

(** ** Witnesses *)

#[local] Existing Instances demo_output_serde demo_output_laws demo_output_size.

Lemma windows_pty_output_ends_with_child_witness :
  ∃ s, pty_service [OutputReady (Some (Stdout (lit "out"))); ChildExited (Some 3);
                    OutputReady (Some (Stdout (lit "late"))); OutputReady None] service_start = Some s ∧
    (bridge_process_channel {| available := written (stream s); end_error := None |}
                            {| delivered := []; slots := None |}).1
    = {| delivered := [OutData (lit "out"); OutExitStatus 3; OutEof; OutClose]; slots := None |}.
Proof.
  destruct (windows_pty_output_ends_with_child [Stdout (lit "out")] (Some 3)
              [OutputReady (Some (Stdout (lit "late"))); OutputReady None]) as (s & Hs & _ & Hb).
  - repeat constructor; by vm_compute.
  - by vm_compute.
  - exists s. split; [exact Hs|]. by rewrite Hb.
Defined.
End WindowsProcess.
