(* ===== verification/Executor.v ===== *)
(** * The executor's control channel (src/src/executor.rs)

    The daemon ([ExecutorClient]) sends numbered requests over a packet socket
    to the executor process ([ExecutorState]), which answers each of them and
    also reports connections to its remote forwards.  A reader thread of the
    client hands every answer to the caller waiting for that number.  A packet is
    received into 64 KiB, so that a longer one arrives cut and cannot be decoded;
    a packet that cannot be decoded or a response that cannot be sent ends the loop
    that met it.

    Operating system answers (a spawn, a connect, a bind, a send) are arguments;
    a caller waiting on its [oneshot] channel is a number, an owned descriptor
    is a number. *)

From S2P Require Import Prelude Rust Config Session Framing Process.

Local Open Scope Z_scope.

Module Executor.
Import Framing.

Definition MAX_CONTROL_MESSAGE_SIZE : Z := 64 * 1024.

(** ** Messages *)

Inductive ExecutorRequest :=
| Hello (h : Process.ExecutorHello)
| StartProcess (id : Z) (request : Session.ProcessRequest)
| StartSftp (id : Z)
| ConnectTcp (id : Z) (host : str) (port : Z)
| StartRemoteForward (id token : Z) (bind_address : str) (bind_port : Z)
| CancelRemoteForward (id token : Z).

Inductive ResponseDetail := NoDetail | BoundPort (port : Z).

Inductive ExecutorResponse :=
| HelloAck
| RequestOk (id : Z) (detail : ResponseDetail)
| RequestErr (id : Z) (message : str)
| RemoteForwardIncoming (token : Z) (originator_address : str) (originator_port : Z).

Definition request_id (request : ExecutorRequest) : option Z :=
  match request with
  | Hello _ => None
  | StartProcess id _ | StartSftp id | ConnectTcp id _ _ | StartRemoteForward id _ _ _
  | CancelRemoteForward id _ => Some id
  end.

(** ** Packets *)

(** One packet of the socket: its bytes and the descriptors sent with it. *)
Record packet := { payload : bytes; fds : list Z }.

Record TransportPacket (T : Type) := { message : T; attached_fd : option Z }.
Arguments message {T}. Arguments attached_fd {T}. Arguments Build_TransportPacket {T}.

(** The loop over the descriptors of a packet: the first one is kept, a further
    one is noted and closed.  [cloexec] is the answer to marking one close-on-exec,
    which targets other than Linux do here; when that fails the descriptors at
    hand are closed. *)
Fixpoint attach (cloexec : Z → result anyhow unit) (fds : list Z) (attached : option Z)
  (saw_extra_fd : bool) (closed : list Z) : result anyhow (option Z * bool) * list Z :=
  match fds with
  | [] => (Ok (attached, saw_extra_fd), closed)
  | fd :: fds =>
      match cloexec fd with
      | Err e => (Err e, closed ++ option_list attached ++ fd :: fds)
      | Ok _ =>
          match attached with
          | None => attach cloexec fds (Some fd) saw_extra_fd closed
          | Some _ => attach cloexec fds attached true (closed ++ [fd])
          end
      end
  end.

(** [ControlReader::recv] on what [recvmsg] gives, with the descriptors it
    closes: a packet longer than the buffer is cut to it, and more than eight
    descriptors do not fit the ancillary buffer.  An empty packet is the end of
    the channel.  What the ancillary buffer still holds, and the descriptor
    taken from it, are closed when [recv] returns an error. *)
Definition recv_closing {T} `{!Serde T} (cloexec : Z → result anyhow unit) (r : result io_error packet)
  : result anyhow (TransportPacket T) * list Z :=
  match with_context (lit "failed to receive executor control message") (io_result r) with
  | Err e => (Err e, [])
  | Ok p =>
      let buffer := take (Z.to_nat MAX_CONTROL_MESSAGE_SIZE) (payload p) in
      match buffer with
      | [] => (bail (lit "executor control channel reached EOF"), fds p)
      | _ =>
          if (8 <? length (fds p))%nat
          then (bail (lit "executor control ancillary data was truncated"), fds p)
          else
            match attach cloexec (fds p) None false [] with
            | (Err e, closed) => (Err e, closed)
            | (Ok (attached, saw_extra_fd), closed) =>
                if saw_extra_fd
                then (bail (lit "executor control message carried more than one attached fd"),
                      closed ++ option_list attached)
                else
                  match decode_message buffer (lit "failed to decode executor control message") with
                  | Err e => (Err e, closed ++ option_list attached)
                  | Ok decoded => (Ok {| message := decoded; attached_fd := attached |}, closed)
                  end
            end
      end
  end.

(** On Linux the kernel marks the descriptors. *)
Definition recv {T} `{!Serde T} (r : result io_error packet) : result anyhow (TransportPacket T) :=
  (recv_closing (λ _, Ok tt) r).1.

(** [ControlWriter::send]: the packet put on the socket and the outcome;
    [sent] is the answer of [sendmsg]. *)
Definition send {T} `{!Serde T} (m : T) (fd : option Z) (sent : result io_error unit)
  : option packet * result anyhow unit :=
  match encode_message m (lit "failed to encode executor control message") with
  | Err e => (None, Err e)
  | Ok p =>
      match sent with
      | Ok _ => (Some {| payload := p; fds := match fd with Some fd => [fd] | None => [] end |}, Ok tt)
      | Err e =>
          (None, with_context
                   (match fd with
                    | Some _ => lit "failed to send executor control message with fd"
                    | None => lit "failed to send executor control message"
                    end) (Err [IoCause e]))
      end
  end.

(** The text of a control message stops being one when it is cut short, as that
    of a JSON object or string does. *)
Class SerdePrefix (T : Type) `{!Serde T} : Prop :=
  cut_short (m : T) p k : to_vec m = Ok p → (k < length p)%nat → ∃ e, from_slice (take k p) = Err e.

(** A packet [send] makes of a message. *)
Definition made_from {T} `{!Serde T} (m : T) (p : packet) : Prop :=
  to_vec m = Ok (payload p) ∧ ∃ fd, fds p = option_list fd.

(** The message, whole: it can be received at the other end. *)
Definition fits_control {T} `{!Serde T} (m : T) : Prop :=
  ∃ v, to_vec m = Ok v ∧ v ≠ [] ∧ Z.of_nat (length v) ≤ MAX_CONTROL_MESSAGE_SIZE.

Section Packets.
Context {T : Type} `{!Serde T}.

Lemma send_cases (m : T) fd os p outcome :
  send m fd os = (p, outcome) →
  match p, outcome with
  | Some p, Ok _ => os = Ok tt ∧ made_from m p
  | None, Err _ => True
  | _, _ => False
  end.
Proof.
  unfold send, encode_message, made_from.
  destruct (to_vec m) as [v|e]; cbn; [|by intros [= <- <-]].
  destruct os as [[]|e]; intros [= <- <-]; cbn; [|done]. split_and!; [done..|]. exists fd. by destruct fd.
Qed.

Lemma attach_one (fd : option Z) :
  attach (λ _, Ok tt) (option_list fd) None false [] = (Ok (fd, false), []).
Proof. by destruct fd. Qed.

Lemma recv_whole `{!SerdeLaws T} (m : T) v fd :
  to_vec m = Ok v → v ≠ [] → Z.of_nat (length v) ≤ MAX_CONTROL_MESSAGE_SIZE →
  recv (Ok {| payload := v; fds := option_list fd |}) = Ok {| message := m; attached_fd := fd |}.
Proof.
  intros Hv Hne Hlen. unfold recv, recv_closing. cbn [io_result with_context map_err payload fds].
  rewrite take_ge by lia. assert ((8 <? length (option_list fd))%nat = false) as -> by (by destruct fd).
  rewrite attach_one. unfold decode_message. rewrite (from_slice_to_vec m v) by done. by destruct v.
Qed.

Lemma recv_cut `{!SerdePrefix T} (m : T) v fd :
  to_vec m = Ok v → MAX_CONTROL_MESSAGE_SIZE < Z.of_nat (length v) →
  ∃ e, recv (T:=T) (Ok {| payload := v; fds := option_list fd |}) = Err e.
Proof.
  intros Hv Hlen. assert (0 < Z.to_nat MAX_CONTROL_MESSAGE_SIZE)%nat by (unfold MAX_CONTROL_MESSAGE_SIZE; lia).
  unfold recv, recv_closing. cbn [io_result with_context map_err payload fds].
  assert ((8 <? length (option_list fd))%nat = false) as -> by (by destruct fd).
  rewrite attach_one. unfold decode_message.
  destruct (cut_short m v (Z.to_nat MAX_CONTROL_MESSAGE_SIZE)) as [e ->]; [done|lia|].
  destruct (take _ v); by eexists.
Qed.

(** What [recv] makes of a packet: its message, or an error. *)
Lemma recv_made `{!SerdeLaws T, !SerdePrefix T} (m : T) p :
  made_from m p →
  (∃ fd, recv (Ok p) = Ok {| message := m; attached_fd := fd |}) ∨ (∃ e, recv (T:=T) (Ok p) = Err e).
Proof.
  intros [Hv [fd Hfd]]. destruct p as [v fds]. cbn in *. subst fds.
  destruct (decide (Z.of_nat (length v) ≤ MAX_CONTROL_MESSAGE_SIZE)) as [?|?];
    [|right; apply (recv_cut m); [done|lia]].
  destruct v as [|b v]; [right; by eexists|]. left. exists fd. by apply recv_whole.
Qed.
End Packets.

(** ** The executor process *)

(** The tasks accepting forwarded connections, by token. *)
Record ExecutorState := { hello : option Process.ExecutorHello; tasks : gmap Z Z }.

Definition ExecutorState_new : ExecutorState := {| hello := None; tasks := ∅ |}.

(** Taking over a descriptor as a stream of the runtime: the answers to making
    it non-blocking and to registering it. *)
Record stream_answers := { set_nonblocking : result io_error unit; from_std : result io_error unit }.

Definition unix_stream_from_std (a : stream_answers) : result anyhow unit :=
  _ ← with_context (lit "failed to mark Unix stream non-blocking") (io_result (set_nonblocking a));
  with_context (lit "failed to adopt Unix stream into Tokio") (io_result (from_std a)).

Definition unix_stream_from_fd (a : stream_answers) : result anyhow unit := unix_stream_from_std a.

Definition tcp_stream_from_fd (a : stream_answers) : result anyhow unit :=
  _ ← with_context (lit "failed to mark TCP stream non-blocking") (io_result (set_nonblocking a));
  with_context (lit "failed to adopt TCP stream into Tokio") (io_result (from_std a)).

(** What the operating system will say to a request. *)
Record os_answers := {
  service_stream : stream_answers;
  spawned : result anyhow unit;
  connected : result io_error unit;
  bound : result io_error unit;
  local_port : result io_error Z;
  task : Z;
}.

Definition adopt (os : os_answers) : result anyhow unit := unix_stream_from_fd (service_stream os).

Inductive executor_effect :=
| SpawnPty (c : Process.child_command) (pty : Session.PtyRequest) (fd : Z)
| SpawnPiped (c : Process.child_command) (fd : Z)
| ServeSftp (root : str) (fd : Z)
| ProxyTcp (host : str) (port : Z) (fd : Z)
| AcceptOn (task token : Z)
| AbortTask (task : Z).

Definition hello_of (st : ExecutorState) : result anyhow Process.ExecutorHello :=
  ok_or [Msg (lit "executor received a request before startup completed")] (hello st).

Definition service_fd (what : string) (fd : option Z) : result anyhow Z :=
  ok_or [Msg (lit "missing Unix service stream for " ++ lit what)] fd.

Definition start_process (request : Session.ProcessRequest) (fd : option Z) (os : os_answers)
  (st : ExecutorState) : result anyhow (list executor_effect) :=
  h ← hello_of st;
  fd ← service_fd "process request" fd;
  _ ← adopt os;
  _ ← spawned os;
  let c := Process.service_command h request in
  Ok [match Session.request_pty request with
      | Some pty => SpawnPty c pty fd
      | None => SpawnPiped c fd
      end].

Definition start_sftp (fd : option Z) (os : os_answers) (st : ExecutorState)
  : result anyhow (list executor_effect) :=
  h ← hello_of st;
  fd ← service_fd "SFTP request" fd;
  _ ← adopt os;
  Ok [ServeSftp (Process.hello_home_dir h) fd].

Definition connect_tcp (host : str) (port : Z) (fd : option Z) (os : os_answers)
  : result anyhow (list executor_effect) :=
  fd ← service_fd "direct-tcpip request" fd;
  _ ← adopt os;
  _ ← with_context (lit "failed to connect to " ++ host ++ lit ":" ++ dec port)
        (io_result (connected os));
  Ok [ProxyTcp host port fd].

Definition set_tasks (m : gmap Z Z) (st : ExecutorState) : ExecutorState :=
  {| hello := hello st; tasks := m |}.

Definition start_remote_forward (token : Z) (bind_address : str) (bind_port : Z) (os : os_answers)
  (st : ExecutorState) : ExecutorState * result anyhow (list executor_effect * Z) :=
  match
    _ ← with_context (lit "failed to bind remote forward " ++ bind_address ++ lit ":" ++ dec bind_port)
          (io_result (bound os));
    with_context (lit "failed to inspect remote-forward listener address") (io_result (local_port os))
  with
  | Err e => (st, Err e)
  | Ok port =>
      (set_tasks (<[token := task os]> (tasks st)) st,
       Ok (AcceptOn (task os) token
             :: match tasks st !! token with Some existing => [AbortTask existing] | None => [] end,
           port))
  end.

Definition cancel_remote_forward (token : Z) (st : ExecutorState)
  : ExecutorState * result anyhow (list executor_effect) :=
  match tasks st !! token with
  | None => (st, bail (lit "unknown remote-forward token " ++ dec token))
  | Some t => (set_tasks (delete token (tasks st)) st, Ok [AbortTask t])
  end.

(** [send_request_result]. *)
Definition request_result (id : Z) (r : result anyhow ResponseDetail) : ExecutorResponse :=
  match r with
  | Ok detail => RequestOk id detail
  | Err err => RequestErr id (error_text err)
  end.

Definition effects_of {A} (f : A → list executor_effect) (r : result anyhow A)
  : list executor_effect :=
  match r with Ok a => f a | Err _ => [] end.

(** One turn of the loop of [run_from_control_stdin]: the new state, what was
    started or stopped, and the response it sends. *)
Definition handle_request (request : ExecutorRequest) (fd : option Z) (os : os_answers)
  (st : ExecutorState) : ExecutorState * list executor_effect * ExecutorResponse :=
  match request with
  | Hello h => ({| hello := Some h; tasks := tasks st |}, [], HelloAck)
  | StartProcess id r =>
      let result := start_process r fd os st in
      (st, effects_of (λ e, e) result, request_result id (map_ok (λ _, NoDetail) result))
  | StartSftp id =>
      let result := start_sftp fd os st in
      (st, effects_of (λ e, e) result, request_result id (map_ok (λ _, NoDetail) result))
  | ConnectTcp id host port =>
      let result := connect_tcp host port fd os in
      (st, effects_of (λ e, e) result, request_result id (map_ok (λ _, NoDetail) result))
  | StartRemoteForward id token a p =>
      let '(st, result) := start_remote_forward token a p os st in
      (st, effects_of fst result, request_result id (map_ok (λ r, BoundPort r.2) result))
  | CancelRemoteForward id token =>
      let '(st, result) := cancel_remote_forward token st in
      (st, effects_of (λ e, e) result, request_result id (map_ok (λ _, NoDetail) result))
  end.

Section ExecutorProcess.
Context `{!Serde ExecutorRequest}.

(** The executor's reader thread: the requests it passes on before the first
    packet it cannot take. *)
Fixpoint read_requests (packets : list (result io_error packet))
  : list (TransportPacket ExecutorRequest) :=
  match packets with
  | [] => []
  | p :: packets => match recv p with Ok m => m :: read_requests packets | Err _ => [] end
  end.
End ExecutorProcess.

(** The loop over the requests received, each with the answers of the operating
    system and with whether its response is sent; it ends when the reader thread
    is gone or a response cannot be sent. *)
Fixpoint run_from_control_stdin
  (requests : list (TransportPacket ExecutorRequest * os_answers * result anyhow unit))
  (st : ExecutorState) : ExecutorState * list ExecutorResponse * result anyhow unit :=
  match requests with
  | [] => (st, [], Ok tt)
  | (p, os, sent) :: requests =>
      let '(st, _, response) := handle_request (message p) (attached_fd p) os st in
      match sent with
      | Err e => (st, [], Err e)
      | Ok _ =>
          let '(st, responses, r) := run_from_control_stdin requests st in
          (st, response :: responses, r)
      end
  end.

(** ** The client *)

Record RemoteForwardRegistration := {
  session_handle : Z; connected_address : str; connected_port : Z;
}.

Record ExecutorClientInner := {
  pending : gmap Z Z;
  registrations : gmap Z RemoteForwardRegistration;
  next_request_id : Z;
  next_forward_token : Z;
}.

Definition ExecutorClientInner_new : ExecutorClientInner := {|
  pending := ∅; registrations := ∅; next_request_id := 1; next_forward_token := 1;
|}.

Definition set_pending (m : gmap Z Z) (c : ExecutorClientInner) : ExecutorClientInner :=
  {| pending := m; registrations := registrations c; next_request_id := next_request_id c;
     next_forward_token := next_forward_token c |}.
Definition set_registrations (m : gmap Z RemoteForwardRegistration) (c : ExecutorClientInner)
  : ExecutorClientInner :=
  {| pending := pending c; registrations := m; next_request_id := next_request_id c;
     next_forward_token := next_forward_token c |}.

(** [fetch_add(1)] on the two counters. *)
Definition take_request_id (c : ExecutorClientInner) : ExecutorClientInner * Z :=
  ({| pending := pending c; registrations := registrations c;
      next_request_id := wrapping_add u64_max (next_request_id c) 1;
      next_forward_token := next_forward_token c |}, next_request_id c).
Definition take_forward_token (c : ExecutorClientInner) : ExecutorClientInner * Z :=
  ({| pending := pending c; registrations := registrations c;
      next_request_id := next_request_id c;
      next_forward_token := wrapping_add u64_max (next_forward_token c) 1 |}, next_forward_token c).

(** The operations of [ExecutorClient], up to the request they send. *)
Inductive call :=
| CallProcess (r : Session.ProcessRequest)
| CallSftp
| CallConnect (host : str) (port : Z)
| CallForward (bind_address : str) (bind_port : Z)
| CallCancel (token : Z).

Definition begin_call (k : call) (c : ExecutorClientInner) : ExecutorClientInner * ExecutorRequest :=
  match k with
  | CallProcess r => let '(c, id) := take_request_id c in (c, StartProcess id r)
  | CallSftp => let '(c, id) := take_request_id c in (c, StartSftp id)
  | CallConnect host port => let '(c, id) := take_request_id c in (c, ConnectTcp id host port)
  | CallForward a p =>
      let '(c, id) := take_request_id c in
      let '(c, token) := take_forward_token c in
      (c, StartRemoteForward id token a p)
  | CallCancel token =>
      let c := set_registrations (delete token (registrations c)) c in
      let '(c, id) := take_request_id c in (c, CancelRemoteForward id token)
  end.

(** [ExecutorClientInner::request] up to its [await]: the caller [waiter] is
    registered, and removed again when the packet cannot be sent. *)
Definition request (r : ExecutorRequest) (waiter : Z) (sent : result anyhow unit)
  (c : ExecutorClientInner) : ExecutorClientInner * result anyhow unit :=
  match request_id r with
  | None => (c, bail (lit "executor request does not carry a request id"))
  | Some id =>
      let c := set_pending (<[id := waiter]> (pending c)) c in
      match sent with
      | Err e => (set_pending (delete id (pending c)) c, Err e)
      | Ok _ => (c, Ok tt)
      end
  end.

(** A forwarded connection passed to the dispatcher. *)
Record RemoteForwardEvent := {
  event_token : Z; event_address : str; event_port : Z; stream_fd : Z;
}.

(** What the reader thread does with one packet: answers handed to callers,
    events for the dispatcher, and whether it goes on. *)
Definition closed_response : ExecutorResponse :=
  RequestErr 0 (lit "executor control channel closed").

Definition reader_turn (p : result anyhow (TransportPacket ExecutorResponse))
  (c : ExecutorClientInner)
  : ExecutorClientInner * list (Z * ExecutorResponse) * list RemoteForwardEvent * bool :=
  match p with
  | Err _ =>
      (set_pending ∅ c, (λ '(_, w), (w, closed_response)) <$> map_to_list (pending c), [], false)
  | Ok p =>
      match message p with
      | RequestOk id _ | RequestErr id _ =>
          match pending c !! id with
          | Some w => (set_pending (delete id (pending c)) c, [(w, message p)], [], true)
          | None => (c, [], [], true)
          end
      | RemoteForwardIncoming token a port =>
          match attached_fd p with
          | None => (c, [], [], true)
          | Some fd =>
              (c, [], [{| event_token := token; event_address := a; event_port := port;
                          stream_fd := fd |}], true)
          end
      | HelloAck => (c, [], [], true)
      end
  end.

(** The end of each operation, on the response its caller was handed; a
    response of another shape is an error whose text starts as given. *)
Definition stream_answer (failed unexpected : string) (r : ExecutorResponse) : result anyhow unit :=
  match r with
  | RequestOk _ _ => Ok tt
  | RequestErr _ m => Err [Msg (lit failed ++ m)]
  | _ => Err [Msg (lit unexpected)]
  end.

Definition process_answer : ExecutorResponse → result anyhow unit :=
  stream_answer "executor failed to start process session: "
    "unexpected executor response to process request: ".
Definition sftp_answer : ExecutorResponse → result anyhow unit :=
  stream_answer "executor failed to start SFTP session: "
    "unexpected executor response to SFTP request: ".
Definition connect_answer : ExecutorResponse → result anyhow unit :=
  stream_answer "executor failed to connect outbound TCP stream: "
    "unexpected executor response to direct-tcpip request: ".
Definition cancel_answer : ExecutorResponse → result anyhow unit :=
  stream_answer "executor failed to cancel remote forward: "
    "unexpected executor response to cancel-remote-forward request: ".

Definition forward_answer (session : Z) (address : str) (token : Z) (r : ExecutorResponse)
  (c : ExecutorClientInner) : ExecutorClientInner * result anyhow (Z * Z) :=
  match r with
  | RequestOk _ (BoundPort port) =>
      let reg := {| session_handle := session; connected_address := address;
                    connected_port := port |} in
      (set_registrations (<[token := reg]> (registrations c)) c, Ok (token, port))
  | RequestErr _ m => (c, Err [Msg (lit "executor failed to bind remote forward: " ++ m)])
  | _ => (c, Err [Msg (lit "unexpected executor response to remote-forward request: ")])
  end.

(** [dispatch_remote_forward_event]: the channel it asks the session to open. *)
Definition dispatch_remote_forward_event (ev : RemoteForwardEvent)
  (stream : stream_answers) (opened : result anyhow unit)
  (c : ExecutorClientInner) : result anyhow (Z * str * Z * str * Z) :=
  reg ← ok_or [Msg (lit "unknown remote-forward token " ++ dec (event_token ev))]
          (registrations c !! event_token ev);
  _ ← tcp_stream_from_fd stream;
  _ ← with_context (lit "failed to open forwarded-tcpip channel") opened;
  Ok (session_handle reg, connected_address reg, connected_port reg,
      event_address ev, event_port ev).

(** ** The whole channel

    Both processes and the packets between them.  A packet on its way is kept
    with the message it was made from, and what was read of a packet is what
    [recv] makes of it.  In the executor a thread reads packets into a queue
    ([received]) as long as it can ([listening]), and a loop serves the queue
    ([serving]); the process ends with the loop.  [lost], [issued], [served] and
    [answered] are history: the requests whose packets could not be read, the
    requests sent and by whom, the requests the executor handled and its
    responses, and the responses callers were handed.  Callers are numbered in
    the order they come. *)

Record system := {
  inner : ExecutorClientInner;
  reader_running : bool;
  sent : list (ExecutorRequest * packet);
  listening : bool;
  received : list (TransportPacket ExecutorRequest);
  serving : bool;
  executor : ExecutorState;
  responses : list (ExecutorResponse * packet);
  next_waiter : Z;
  lost : list ExecutorRequest;
  issued : list (Z * ExecutorRequest);
  served : list (ExecutorRequest * ExecutorResponse);
  answered : list (Z * ExecutorResponse);
}.

(** After the handshake of [ExecutorClient::spawn]. *)
Definition spawn (h : Process.ExecutorHello) (os : os_answers) : system :=
  let '(st, _, _) := handle_request (Hello h) None os ExecutorState_new in
  {| inner := ExecutorClientInner_new; reader_running := true; sent := []; listening := true;
     received := []; serving := true; executor := st; responses := []; next_waiter := 0; lost := [];
     issued := []; served := []; answered := [] |}.

Section Channel.
Context {request_serde : Serde ExecutorRequest} {response_serde : Serde ExecutorResponse}.

(** A call up to its [await]; [os] is the answer of [sendmsg]. *)
Definition make_call (k : call) (fd : option Z) (os : result io_error unit) (s : system) : system :=
  let '(c, r) := begin_call k (inner s) in
  let '(p, outcome) := send r fd os in
  let '(c, res) := request r (next_waiter s) outcome c in
  {| inner := c; reader_running := reader_running s;
     sent := match p with Some p => sent s ++ [(r, p)] | None => sent s end;
     listening := listening s; received := received s; serving := serving s; executor := executor s;
     responses := responses s; next_waiter := next_waiter s + 1; lost := lost s;
     issued := if is_ok res then issued s ++ [(next_waiter s, r)] else issued s;
     served := served s; answered := answered s |}.

(** One turn of the executor's reader thread on what [recvmsg] gives; [taken] is
    what it took from the socket, [rest] what is left. *)
Definition receive (p : result io_error packet) (taken : list ExecutorRequest)
  (rest : list (ExecutorRequest * packet)) (s : system) : system :=
  match recv p with
  | Ok m =>
      {| inner := inner s; reader_running := reader_running s; sent := rest; listening := true;
         received := received s ++ [m]; serving := serving s; executor := executor s;
         responses := responses s; next_waiter := next_waiter s; lost := lost s; issued := issued s;
         served := served s; answered := answered s |}
  | Err _ =>
      {| inner := inner s; reader_running := reader_running s; sent := rest; listening := false;
         received := received s; serving := serving s; executor := executor s;
         responses := responses s; next_waiter := next_waiter s; lost := lost s ++ taken;
         issued := issued s; served := served s; answered := answered s |}
  end.

(** One turn of the executor's loop: the request is handled and its response
    sent; a response that cannot be sent ends the loop and with it the process. *)
Definition execute (m : TransportPacket ExecutorRequest)
  (rest : list (TransportPacket ExecutorRequest)) (os : os_answers) (out : result io_error unit)
  (s : system) : system :=
  let '(st, _, resp) := handle_request (message m) (attached_fd m) os (executor s) in
  let '(p, outcome) := send resp None out in
  {| inner := inner s; reader_running := reader_running s; sent := sent s;
     listening := listening s && is_ok outcome; received := rest; serving := is_ok outcome;
     executor := st;
     responses := match p with Some p => responses s ++ [(resp, p)] | None => responses s end;
     next_waiter := next_waiter s; lost := lost s; issued := issued s;
     served := served s ++ [(message m, resp)]; answered := answered s |}.

(** The end of the loop when the queue is empty and the reader thread gone. *)
Definition exit_executor (s : system) : system :=
  {| inner := inner s; reader_running := reader_running s; sent := sent s; listening := false;
     received := received s; serving := false; executor := executor s; responses := responses s;
     next_waiter := next_waiter s; lost := lost s; issued := issued s; served := served s;
     answered := answered s |}.

(** A connection to a forward, reported unless the packet cannot be sent. *)
Definition report_incoming (token : Z) (a : str) (port fd : Z) (out : result io_error unit) (s : system)
  : system :=
  let m := RemoteForwardIncoming token a port in
  {| inner := inner s; reader_running := reader_running s; sent := sent s; listening := listening s;
     received := received s; serving := serving s; executor := executor s;
     responses := match (send m (Some fd) out).1 with
                  | Some p => responses s ++ [(m, p)]
                  | None => responses s
                  end;
     next_waiter := next_waiter s; lost := lost s; issued := issued s; served := served s;
     answered := answered s |}.

(** One turn of the client's reader thread. *)
Definition read_response (p : result io_error packet) (rest : list (ExecutorResponse * packet))
  (s : system) : system :=
  let '(c, handed, _, running) := reader_turn (recv p) (inner s) in
  {| inner := c; reader_running := running; sent := sent s; listening := listening s;
     received := received s; serving := serving s; executor := executor s; responses := rest;
     next_waiter := next_waiter s; lost := lost s; issued := issued s; served := served s;
     answered := answered s ++ handed |}.

Definition register (session : Z) (address : str) (token : Z) (r : ExecutorResponse) (s : system)
  : system :=
  {| inner := (forward_answer session address token r (inner s)).1;
     reader_running := reader_running s; sent := sent s; listening := listening s;
     received := received s; serving := serving s; executor := executor s; responses := responses s;
     next_waiter := next_waiter s; lost := lost s; issued := issued s; served := served s;
     answered := answered s |}.

Definition end_of_channel : packet := {| payload := []; fds := [] |}.

(** The turns the threads of both processes can take by themselves.  The client's
    reader comes to the end of the channel when the executor is gone and what it
    sent is read. *)
Inductive turn : system → system → Prop :=
| turn_receive r p rest s :
    listening s = true → sent s = (r, p) :: rest → turn s (receive (Ok p) [r] rest s)
| turn_execute m rest os out s :
    serving s = true → received s = m :: rest → turn s (execute m rest os out s)
| turn_exit s :
    serving s = true → listening s = false → received s = [] → turn s (exit_executor s)
| turn_read m p rest s :
    reader_running s = true → responses s = (m, p) :: rest → turn s (read_response (Ok p) rest s)
| turn_eof s :
    reader_running s = true → serving s = false → responses s = [] →
    turn s (read_response (Ok end_of_channel) [] s).

(** Besides: a call (while fewer than 2^64 requests were made; nothing can be sent
    to an executor that is gone), a connection to a forward of the executor, the
    failure of a [recvmsg] on either side, and the end of a
    [start_remote_forward]. *)
Inductive step : system → system → Prop :=
| step_turn s s' : turn s s' → step s s'
| step_call k fd os s :
    next_request_id (inner s) < u64_max → (is_ok os = true → serving s = true) →
    step s (make_call k fd os s)
| step_incoming token a port fd out s :
    serving s = true → is_Some (tasks (executor s) !! token) →
    step s (report_incoming token a port fd out s)
| step_receive_fails e s :
    listening s = true → step s (receive (Err e) [] (sent s) s)
| step_read_fails e s :
    reader_running s = true → step s (read_response (Err e) (responses s) s)
| step_register session address token w r s :
    (w, r) ∈ answered s → step s (register session address token r s).

(** *** Packets

    The text of a control message stops being one when it is cut short, as that
    of a JSON object or string does. *)
Context {request_laws : SerdeLaws ExecutorRequest} {response_laws : SerdeLaws ExecutorResponse}.
Context {request_prefix : SerdePrefix ExecutorRequest} {response_prefix : SerdePrefix ExecutorResponse}.

(** *** Invariant *)

Definition response_id (r : ExecutorResponse) : option Z :=
  match r with RequestOk id _ | RequestErr id _ => Some id | _ => None end.

(** The requests sent and not handled, in order: in the queue of the executor,
    read in vain, on the socket. *)
Definition unserved (s : system) : list ExecutorRequest :=
  (message <$> received s) ++ lost s ++ (sent s).*1.

(** On its way: the request is not yet handled, or its response not yet read, or
    the executor is gone. *)
Definition in_flight (s : system) (id : Z) : Prop :=
  (∃ r, r ∈ unserved s ∧ request_id r = Some id) ∨
  (∃ m p, (m, p) ∈ responses s ∧ response_id m = Some id) ∨
  serving s = false.

Record system_inv (s : system) : Prop := {
  ids_positive : 1 ≤ next_request_id (inner s) ≤ u64_max;
  issued_ids w r : (w, r) ∈ issued s →
    ∃ id, request_id r = Some id ∧ 1 ≤ id < next_request_id (inner s) ∧ w < next_waiter s;
  issued_by_id w w' r r' :
    (w, r) ∈ issued s → (w', r') ∈ issued s → request_id r = request_id r' → w = w' ∧ r = r';
  issued_by_waiter w r r' : (w, r) ∈ issued s → (w, r') ∈ issued s → r = r';
  pending_issued id w : pending (inner s) !! id = Some w →
    ∃ r, (w, r) ∈ issued s ∧ request_id r = Some id;
  requests_issued r : r ∈ unserved s → ∃ w, (w, r) ∈ issued s;
  sent_packets r p : (r, p) ∈ sent s → made_from r p;
  lost_stops : lost s ≠ [] → listening s = false;
  served_issued r m : (r, m) ∈ served s →
    (∃ w, (w, r) ∈ issued s) ∧ response_id m = request_id r;
  responses_served m p id : (m, p) ∈ responses s → response_id m = Some id →
    ∃ r, (r, m) ∈ served s;
  response_packets m p : (m, p) ∈ responses s → made_from m p;
  answered_served w m : (w, m) ∈ answered s →
    (m = closed_response ∨ ∃ r, (w, r) ∈ issued s ∧ (r, m) ∈ served s) ∧
    (∀ id, pending (inner s) !! id ≠ Some w) ∧ w < next_waiter s;
  answered_once : NoDup (answered s).*1;
  waiting_in_flight w r : reader_running s = true → (w, r) ∈ issued s →
    w ∈ (answered s).*1 ∨
    ∃ id, request_id r = Some id ∧ pending (inner s) !! id = Some w ∧ in_flight s id;
}.

Lemma begin_call_spec k c c' r :
  begin_call k c = (c', r) → next_request_id c < u64_max → 0 ≤ next_request_id c →
  request_id r = Some (next_request_id c) ∧ pending c' = pending c ∧
  next_request_id c' = next_request_id c + 1.
Proof.
  intros H Hlt Hpos. destruct k; simpl in H; injection H as <- <-; simpl;
    (split_and!; [done|done|]); apply wrapping_add_small; lia.
Qed.

Lemma handle_request_id r fd os st : response_id (handle_request r fd os st).2 = request_id r.
Proof.
  assert (Hr : ∀ id x, response_id (request_result id x) = Some id) by (by intros id []).
  destruct r as [h|id p|id|id h p|id t a p|id t]; cbn [handle_request]; try apply Hr; [done|..].
  - destruct (start_remote_forward _ _ _ _ _) as [st' x]. apply Hr.
  - destruct (cancel_remote_forward _ _) as [st' x]. apply Hr.
Qed.

(** A pending number was used for a request already. *)
Lemma pending_below s id w :
  system_inv s → pending (inner s) !! id = Some w →
  id < next_request_id (inner s) ∧ w < next_waiter s.
Proof.
  intros Hi (r & Hr & Hid)%(pending_issued s Hi).
  apply (issued_ids s Hi) in Hr as (id' & Hid' & Hlt & Hw). simplify_eq. lia.
Qed.

(** A call whose packet cannot be sent leaves only its number used. *)
Definition failed_call (c : ExecutorClientInner) (s : system) : system :=
  {| inner := c; reader_running := reader_running s; sent := sent s; listening := listening s;
     received := received s; serving := serving s; executor := executor s; responses := responses s;
     next_waiter := next_waiter s + 1; lost := lost s; issued := issued s; served := served s;
     answered := answered s |}.
Definition sent_call (c : ExecutorClientInner) (r : ExecutorRequest) (p : packet) (s : system) : system :=
  {| inner := c; reader_running := reader_running s; sent := sent s ++ [(r, p)]; listening := listening s;
     received := received s; serving := serving s; executor := executor s; responses := responses s;
     next_waiter := next_waiter s + 1; lost := lost s; issued := issued s ++ [(next_waiter s, r)];
     served := served s; answered := answered s |}.

Lemma make_call_cases k fd os s :
  system_inv s → next_request_id (inner s) < u64_max →
  let id := next_request_id (inner s) in
  (∃ c, make_call k fd os s = failed_call c s ∧ pending c = pending (inner s) ∧
     next_request_id c = id + 1) ∨
  (∃ c p, make_call k fd os s = sent_call c (begin_call k (inner s)).2 p s ∧
     os = Ok tt ∧ made_from (begin_call k (inner s)).2 p ∧
     request_id (begin_call k (inner s)).2 = Some id ∧
     pending c = <[id := next_waiter s]> (pending (inner s)) ∧ next_request_id c = id + 1).
Proof.
  intros Hi Hlt. cbn zeta. pose proof (ids_positive s Hi). unfold make_call.
  destruct (begin_call k (inner s)) as [c r] eqn:Hb. cbn [snd].
  apply begin_call_spec in Hb as (Hid & Hp & Hn); [|done|lia].
  destruct (send r fd os) as [[p|] [u|e]] eqn:Es; apply send_cases in Es as Hs; try done.
  - right. unfold request. rewrite Hid. eexists _, p. split; [by destruct u|]. destruct Hs as [-> Hm].
    split_and!; try done. cbn. by rewrite Hp.
  - left. unfold request. rewrite Hid. eexists. split; [done|]. cbn. split; [|done]. rewrite Hp.
    apply delete_insert_id.
    destruct (pending (inner s) !! next_request_id (inner s)) eqn:E; [|done].
    apply pending_below in E; [lia|done].
Qed.

Lemma inv_call_failed c s :
  system_inv s → next_request_id (inner s) < u64_max → pending c = pending (inner s) →
  next_request_id c = next_request_id (inner s) + 1 → system_inv (failed_call c s).
Proof.
  intros [] Hlt Hp Hn. split; cbn; rewrite ?Hp, ?Hn; try done.
  - lia.
  - intros w r' Hr. destruct (issued_ids0 w r' Hr) as (id & ? & ? & ?). exists id. split_and!; lia || done.
  - intros w m Hm. destruct (answered_served0 w m Hm) as (? & ? & ?). split_and!; try done. lia.
Qed.

Lemma inv_call_sent c r p s :
  system_inv s → next_request_id (inner s) < u64_max → made_from r p →
  request_id r = Some (next_request_id (inner s)) →
  pending c = <[next_request_id (inner s) := next_waiter s]> (pending (inner s)) →
  next_request_id c = next_request_id (inner s) + 1 → system_inv (sent_call c r p s).
Proof.
  intros Hi Hlt Hmade Hid Hp Hn. pose proof (ids_positive s Hi).
  assert (Hold : ∀ w r', (w, r') ∈ issued s → w ≠ next_waiter s ∧ request_id r' ≠ request_id r).
  { intros w r' (id & Hid' & ? & ?)%(issued_ids s Hi). rewrite Hid, Hid'. split; [lia|]. intros [=]. lia. }
  assert (Hun : ∀ r', r' ∈ unserved (sent_call c r p s) ↔ r' ∈ unserved s ∨ r' = r).
  { intros r'. unfold unserved. cbn. rewrite fmap_app, !elem_of_app. cbn. set_solver. }
  destruct Hi. split; cbn; rewrite ?Hn, ?Hp; try done.
  - lia.
  - intros w r' [Hr|[= -> ->]%list_elem_of_singleton]%elem_of_app.
    + destruct (issued_ids0 w r' Hr) as (id & ? & ? & ?). exists id. split_and!; lia || done.
    + exists (next_request_id (inner s)). split_and!; lia || done.
  - intros w w' r1 r2. rewrite !elem_of_app, !list_elem_of_singleton. naive_solver.
  - intros w r1 r2. rewrite !elem_of_app, !list_elem_of_singleton. naive_solver.
  - intros id w. rewrite lookup_insert_Some. intros [[<- <-]|[Hne Hw]].
    + exists r. split; [set_solver|done].
    + destruct (pending_issued0 id w Hw) as (r' & ? & ?). exists r'. split; [set_solver|done].
  - intros r' [Hr| ->]%Hun; [|set_solver]. destruct (requests_issued0 r' Hr) as [w Hw]. set_solver.
  - intros r' p' [?|[= -> ->]%list_elem_of_singleton]%elem_of_app; auto.
  - intros r' m Hm. destruct (served_issued0 r' m Hm) as ([w Hw] & ?). split; [|done]. set_solver.
  - intros w m Hm. destruct (answered_served0 w m Hm) as (Hs & Hnp & ?). split_and!; [| |lia].
    + destruct Hs as [?|(r' & ? & ?)]; [by left|right]. exists r'. split; [set_solver|done].
    + intros id. rewrite lookup_insert_Some. intros [[_ Heq]|[_ Hw]]; [lia|]. by apply (Hnp id).
  - intros w r' Hrun [Hr|[= -> ->]%list_elem_of_singleton]%elem_of_app.
    + destruct (waiting_in_flight0 w r' Hrun Hr) as [?|(id & Hid' & Hw & Hf)]; [by left|right].
      exists id. split; [done|]. split.
      * rewrite lookup_insert_ne; [done|]. intros <-. by apply (proj2 (Hold _ _ Hr)); congruence.
      * destruct Hf as [(r1 & ? & ?)|Hf]; [left|by right]. exists r1. rewrite Hun. auto.
    + right. exists (next_request_id (inner s)). split; [done|]. split; [by rewrite lookup_insert_eq|].
      left. exists r. rewrite Hun. auto.
Qed.

Lemma inv_call k fd os s :
  system_inv s → next_request_id (inner s) < u64_max → system_inv (make_call k fd os s).
Proof.
  intros Hi Hlt. destruct (make_call_cases k fd os s Hi Hlt)
    as [(c & -> & Hp & Hn)|(c & p & -> & _ & Hm & Hid & Hp & Hn)].
  - by apply inv_call_failed.
  - by apply inv_call_sent.
Qed.

(** Steps that only move what is on its way; [f] says where it went. *)
Lemma inv_moved s s' :
  system_inv s →
  inner s' = inner s → issued s' = issued s → answered s' = answered s → next_waiter s' = next_waiter s →
  reader_running s' = reader_running s →
  (∀ x, x ∈ served s → x ∈ served s') →
  (∀ r m, (r, m) ∈ served s' → (r, m) ∈ served s ∨
     (∃ w, (w, r) ∈ issued s) ∧ response_id m = request_id r) →
  (∀ r, r ∈ unserved s' → r ∈ unserved s) →
  (∀ r p, (r, p) ∈ sent s' → (r, p) ∈ sent s) →
  (lost s' ≠ [] → listening s' = false) →
  (∀ m p, (m, p) ∈ responses s' → (m, p) ∈ responses s ∨
     made_from m p ∧ ∀ id, response_id m = Some id → ∃ r, (r, m) ∈ served s') →
  (∀ id, in_flight s id → in_flight s' id) →
  system_inv s'.
Proof.
  intros Hi Hin His Han Hnw Hrun Hsv Hsv' Hun Hsent Hlost Hres Hfl. destruct Hi.
  split; rewrite ?Hin, ?His, ?Han, ?Hnw, ?Hrun; auto.
  - intros r m [?%served_issued0|?]%Hsv'; done.
  - intros m p id [H|[_ H]]%Hres Hid; [|exact (H id Hid)]. destruct (responses_served0 m p id H Hid) as [r ?]. eauto.
  - intros m p [?|[? _]]%Hres; eauto.
  - intros w m H. destruct (answered_served0 w m H) as ([?|(r & ? & ?)] & ? & ?); (split; [|done]);
      [by left|right]. exists r. auto.
  - intros w r Hr H. destruct (waiting_in_flight0 w r Hr H) as [?|(id & ? & ? & ?)]; [by left|right].
    exists id. auto.
Qed.

Lemma inv_receive r p rest s :
  system_inv s → listening s = true → sent s = (r, p) :: rest →
  system_inv (receive (Ok p) [r] rest s).
Proof.
  intros Hi Hl Hs. assert (lost s = []) as Hlost.
  { destruct (lost s) eqn:E; [done|]. rewrite (lost_stops s Hi) in Hl; [done|congruence]. }
  assert (made_from r p) as Hm by (apply (sent_packets s Hi); rewrite Hs; set_solver).
  unfold receive. destruct (recv_made r p Hm) as [[fd ->]|[e ->]].
  all: apply (inv_moved s); [exact Hi|done..|auto| | | | |auto|]; cbn.
  - auto.
  - intros r'. unfold unserved. cbn. rewrite Hs, Hlost, fmap_app. cbn. set_solver.
  - rewrite Hs. set_solver.
  - congruence.
  - intros id [(r' & Hr & Hid)|[?|?]]; [left|right; by left|right; by right]. exists r'. split; [|done].
    revert Hr. unfold unserved. cbn. rewrite Hs, Hlost, fmap_app. cbn. set_solver.
  - auto.
  - intros r'. unfold unserved. cbn. rewrite Hs, Hlost. cbn. set_solver.
  - rewrite Hs. set_solver.
  - done.
  - intros id [(r' & Hr & Hid)|[?|?]]; [left|right; by left|right; by right]. exists r'. split; [|done].
    revert Hr. unfold unserved. cbn. rewrite Hs, Hlost. cbn. set_solver.
Qed.

Lemma inv_receive_fails e s :
  system_inv s → system_inv (receive (Err e) [] (sent s) s).
Proof.
  intros Hi. unfold receive. cbn [recv recv_closing with_context io_result map_err fst].
  apply (inv_moved s); [exact Hi|done..|auto|auto| |auto|done|auto|]; cbn.
  - intros r. unfold unserved. cbn. by rewrite app_nil_r.
  - intros id. unfold in_flight, unserved. cbn. by rewrite app_nil_r.
Qed.

Lemma inv_execute m rest os out s :
  system_inv s → serving s = true → received s = m :: rest → system_inv (execute m rest os out s).
Proof.
  intros Hi Hv Hreq. unfold execute. pose proof (handle_request_id (message m) (attached_fd m) os (executor s)) as Hm.
  destruct (handle_request (message m) (attached_fd m) os (executor s)) as [[st es] resp]. cbn [snd] in Hm.
  assert (∃ w, (w, message m) ∈ issued s) as Hw.
  { apply (requests_issued s Hi). unfold unserved. rewrite Hreq. set_solver. }
  destruct (send resp None out) as [p outcome] eqn:Es. apply send_cases in Es.
  apply (inv_moved s); [exact Hi|done..| | | | | | |]; cbn.
  - set_solver.
  - intros r' m' [?|[= -> ->]%list_elem_of_singleton]%elem_of_app; auto.
  - intros r'. unfold unserved. cbn. rewrite Hreq. set_solver.
  - auto.
  - intros Hl. by rewrite (lost_stops s Hi Hl).
  - intros m' p' H. destruct p as [p|]; [|by left].
    apply elem_of_app in H as [?|[= -> ->]%list_elem_of_singleton]; [by left|right].
    destruct outcome; [|done]. split; [apply Es|]. intros id Hid. exists (message m). set_solver.
  - intros id [(r' & Hr & Hid)|[(m' & p' & Hin & Hid)|?]].
    + unfold unserved in Hr. rewrite Hreq in Hr. cbn in Hr. apply elem_of_cons in Hr as [->|Hr].
      2: { left. exists r'. done. }
      right. destruct p as [p|], outcome; try done; [left|by right]. exists resp, p. cbn.
      split; [set_solver|congruence].
    + right. left. exists m', p'. destruct p; cbn; [set_solver|done].
    + congruence.
Qed.

Lemma system_inv_exit s : system_inv s → system_inv (exit_executor s).
Proof.
  intros Hi. apply (inv_moved s); [exact Hi|done..|auto|auto|auto|auto|done|auto|].
  intros id _. right. by right.
Qed.

Lemma inv_incoming token a port fd out s :
  system_inv s → system_inv (report_incoming token a port fd out s).
Proof.
  intros Hi. unfold report_incoming.
  destruct (send (RemoteForwardIncoming token a port) (Some fd) out) as [p outcome] eqn:Es.
  apply send_cases in Es. cbn [fst].
  apply (inv_moved s); [exact Hi|done..|auto|auto|auto|auto|apply (lost_stops s Hi)| |]; cbn.
  - intros m' p' H. destruct p as [p|]; [|by left].
    apply elem_of_app in H as [?|[= -> ->]%list_elem_of_singleton]; [by left|right].
    destruct outcome; [|done]. split; [apply Es|done].
  - intros id [?|[(m' & p' & Hin & Hid)|?]]; [by left| |right; by right].
    right. left. exists m', p'. destruct p; cbn; [set_solver|done].
Qed.

(** The state after a response of the queue was read, and what was done with it. *)
Definition after_read (c : ExecutorClientInner) (handed : list (Z * ExecutorResponse))
  (rest : list (ExecutorResponse * packet)) (s : system) : system :=
  {| inner := c; reader_running := true; sent := sent s; listening := listening s;
     received := received s; serving := serving s; executor := executor s; responses := rest;
     next_waiter := next_waiter s; lost := lost s; issued := issued s; served := served s;
     answered := answered s ++ handed |}.

(** The reader has stopped: who was waiting is told so. *)
Definition after_stop (rest : list (ExecutorResponse * packet)) (s : system) : system :=
  {| inner := set_pending ∅ (inner s); reader_running := false; sent := sent s; listening := listening s;
     received := received s; serving := serving s; executor := executor s; responses := rest;
     next_waiter := next_waiter s; lost := lost s; issued := issued s; served := served s;
     answered := answered s
                 ++ ((λ '(_, w), (w, closed_response)) <$> map_to_list (pending (inner s))) |}.

Lemma read_end rest s : read_response (Ok end_of_channel) rest s = after_stop rest s.
Proof.
  unfold read_response, recv, recv_closing. cbn [io_result with_context map_err end_of_channel payload].
  by rewrite take_nil.
Qed.

Lemma read_response_fails p rest s e : recv p = Err e → read_response p rest s = after_stop rest s.
Proof. unfold read_response. by intros ->. Qed.

(** A response with a number somebody waits for is handed to that caller, another
    changes nothing, and a packet that cannot be read stops the reader. *)
Lemma read_response_cases m p rest s :
  made_from m p →
  (∃ id w, response_id m = Some id ∧ pending (inner s) !! id = Some w ∧
     read_response (Ok p) rest s
     = after_read (set_pending (delete id (pending (inner s))) (inner s)) [(w, m)] rest s) ∨
  ((∀ id, response_id m = Some id → pending (inner s) !! id = None) ∧
     read_response (Ok p) rest s = after_read (inner s) [] rest s) ∨
  read_response (Ok p) rest s = after_stop rest s.
Proof.
  intros Hm. destruct (recv_made m p Hm) as [[fd E]|[e E]].
  2: { right. right. by apply (read_response_fails _ _ _ e). }
  unfold read_response. rewrite E. unfold reader_turn. cbn [message attached_fd].
  destruct m as [|id d|id t|t a port]; cbn [response_id].
  - right. by left.
  - destruct (pending (inner s) !! id) as [w|] eqn:Ep; [left; by exists id, w|right; left].
    split; [|done]. by intros ? [= <-].
  - destruct (pending (inner s) !! id) as [w|] eqn:Ep; [left; by exists id, w|right; left].
    split; [|done]. by intros ? [= <-].
  - right. left. by destruct fd.
Qed.

Lemma inv_hand_over m p rest s id w :
  system_inv s → reader_running s = true → responses s = (m, p) :: rest →
  response_id m = Some id → pending (inner s) !! id = Some w →
  system_inv (after_read (set_pending (delete id (pending (inner s))) (inner s)) [(w, m)] rest s).
Proof.
  intros Hi Hrun Hres Hid Hw. unfold after_read.
  assert (Hrest : ∀ x, x ∈ rest → x ∈ responses s) by (intros x; rewrite Hres; set_solver).
  pose proof (waiting_in_flight s Hi) as Hwait.
  destruct (responses_served s Hi m p id) as [r Hr]; [rewrite Hres; set_solver|done|].
  destruct (pending_issued s Hi id w Hw) as (r' & Hr' & Hid').
  destruct (served_issued s Hi r m Hr) as ([w' Hw'] & Hmr).
  destruct (issued_by_id s Hi w w' r' r) as [<- ->]; [done..|congruence|].
  assert (Hinj : ∀ id', pending (inner s) !! id' = Some w → id' = id).
  { intros id' (r2 & H2 & Hid2)%(pending_issued s Hi).
    rewrite (issued_by_waiter s Hi _ _ _ H2 Hr') in Hid2. congruence. }
  destruct Hi. split; cbn [inner responses issued served answered next_waiter reader_running
    executor set_pending pending next_request_id sent received lost listening serving]; try done.
  + intros id2 w2. rewrite lookup_delete_Some. intros [_ ?]. by apply pending_issued0.
  + intros m2 p2 id2 H2. by eapply responses_served0, Hrest.
  + intros m2 p2 H2. by eapply response_packets0, Hrest.
  + intros w2 m2 [H2|[= -> ->]%list_elem_of_singleton]%elem_of_app.
    * destruct (answered_served0 w2 m2 H2) as (? & Hnp & ?). split_and!; [done| |done].
      intros id2. rewrite lookup_delete_Some. intros [_ ?]. by apply (Hnp id2).
    * split_and!; [right; by exists r| |by destruct (issued_ids0 _ _ Hr') as (? & _ & _ & ?)].
      intros id2. rewrite lookup_delete_Some. intros [Hne ?]. by apply Hne, symmetry, Hinj.
  + rewrite fmap_app. apply NoDup_app. split_and!; [done| |apply NoDup_singleton].
    intros w2 ([? m2] & -> & H2)%list_elem_of_fmap. cbn. rewrite list_elem_of_singleton.
    intros ->. by apply (proj1 (proj2 (answered_served0 _ _ H2)) id).
  + intros w2 r2 _ H2. destruct (Hwait w2 r2 Hrun H2) as [?|(id2 & Hid2 & Hp2 & Hf)];
      [left; rewrite fmap_app; set_solver|].
    destruct (decide (id2 = id)) as [->|Hne].
    { left. rewrite fmap_app. simplify_eq. set_solver. }
    right. exists id2. split_and!; [done|by rewrite lookup_delete_ne|].
    destruct Hf as [?|[(m1 & p1 & H1 & Hm1)|?]]; [by left| |right; by right].
    right. left. exists m1, p1. split; [|done].
    cbn. rewrite Hres in H1. apply elem_of_cons in H1 as [[= -> ->]|?]; [congruence|done].
Qed.

Lemma inv_skip m p rest s :
  system_inv s → reader_running s = true → responses s = (m, p) :: rest →
  (∀ id, response_id m = Some id → pending (inner s) !! id = None) →
  system_inv (after_read (inner s) [] rest s).
Proof.
  intros Hi Hrun Hres Hnone. unfold after_read.
  assert (Hrest : ∀ x, x ∈ rest → x ∈ responses s) by (intros x; rewrite Hres; set_solver).
  pose proof (waiting_in_flight s Hi) as Hwait.
  destruct Hi. split; cbn [inner responses issued served answered next_waiter reader_running
    executor]; rewrite ?app_nil_r; try done.
  + intros m2 p2 id2 H2. by eapply responses_served0, Hrest.
  + intros m2 p2 H2. by eapply response_packets0, Hrest.
  + intros w2 r2 _ H2. destruct (Hwait w2 r2 Hrun H2) as [?|(id2 & Hid2 & Hp2 & Hf)]; [by left|right].
    exists id2. split_and!; [done..|].
    destruct Hf as [?|[(m1 & p1 & H1 & Hm1)|?]]; [by left| |right; by right].
    right. left. exists m1, p1. split; [|done].
    cbn. rewrite Hres in H1. apply elem_of_cons in H1 as [[= -> ->]|?]; [|done].
    rewrite (Hnone _ Hm1) in Hp2. done.
Qed.

Lemma inv_stop rest s :
  system_inv s → (∀ x, x ∈ rest → x ∈ responses s) → system_inv (after_stop rest s).
Proof.
  intros Hi Hrest.
  assert (Hinj : ∀ id id' w, pending (inner s) !! id = Some w → pending (inner s) !! id' = Some w →
            id = id').
  { intros id id' w (r & Hr & Hid)%(pending_issued s Hi) (r' & Hr' & Hid')%(pending_issued s Hi).
    rewrite (issued_by_waiter s Hi _ _ _ Hr Hr') in Hid. congruence. }
  assert (Hf : ((λ '(_, w), (w, closed_response)) <$> map_to_list (pending (inner s))).*1
               = (map_to_list (pending (inner s))).*2).
  { rewrite <- list_fmap_compose. apply list_fmap_ext. by intros i []. }
  pose proof (pending_below s) as Hbelow.
  assert (Hi' := Hi). destruct Hi'.
  split; cbn [after_stop inner responses issued served answered next_waiter reader_running executor
    set_pending pending next_request_id sent received lost listening serving]; try done.
  - intros m p id H. by eapply responses_served0, Hrest.
  - intros m p H. by eapply response_packets0, Hrest.
  - intros w m [H|H]%elem_of_app.
    + destruct (answered_served0 w m H) as (? & ? & ?). by split_and!.
    + apply list_elem_of_fmap in H as ([id w'] & [= -> ->] & Hp%elem_of_map_to_list).
      split_and!; [by left|done|]. by apply (Hbelow id).
  - rewrite fmap_app, Hf. apply NoDup_app. split_and!; [done| |].
    + intros w ([? m] & -> & H)%list_elem_of_fmap ([id w'] & Heq & Hp)%list_elem_of_fmap. cbn in *.
      apply elem_of_map_to_list in Hp. subst w'. by apply (proj1 (proj2 (answered_served0 _ _ H)) id).
    + apply NoDup_fmap_2_strong; [|apply NoDup_map_to_list].
      intros [id w] [id' w'] Hx%elem_of_map_to_list Hy%elem_of_map_to_list. cbn. intros <-.
      by rewrite (Hinj id id' w).
Qed.

Lemma inv_read m p rest s :
  system_inv s → reader_running s = true → responses s = (m, p) :: rest →
  system_inv (read_response (Ok p) rest s).
Proof.
  intros Hi Hrun Hres.
  destruct (read_response_cases m p rest s) as [(id & w & Hid & Hw & ->)|[[Hnone ->]| ->]].
  - apply (response_packets s Hi). rewrite Hres. set_solver.
  - by eapply inv_hand_over.
  - by eapply inv_skip.
  - apply inv_stop; [done|]. rewrite Hres. set_solver.
Qed.

Lemma inv_register session address token r s :
  system_inv s → system_inv (register session address token r s).
Proof.
  intros Hi. unfold register.
  assert (pending (forward_answer session address token r (inner s)).1 = pending (inner s) ∧
          next_request_id (forward_answer session address token r (inner s)).1
          = next_request_id (inner s)) as [Hp Hn]
    by (by destruct r as [|? []| |]).
  destruct Hi. split; cbn [inner responses issued served answered next_waiter reader_running
    executor]; rewrite ?Hp, ?Hn; done.
Qed.

Lemma spawn_inv h os : system_inv (spawn h os).
Proof.
  split; cbn; try done; try (intros; set_solver).
  by apply NoDup_nil_2.
Qed.

Lemma inv_turn s s' : system_inv s → turn s s' → system_inv s'.
Proof.
  intros Hi Ht. destruct Ht as [r p rest s0 Hl Hs|m rest os out s0 Hv Hr|s0 _ _ _|m p rest s0 Hrun Hres|s0 Hrun Hv Hres].
  - by apply inv_receive.
  - by apply inv_execute.
  - by apply system_inv_exit.
  - by eapply inv_read.
  - rewrite read_end. apply inv_stop; [done|set_solver].
Qed.

Lemma system_inv_step s s' : system_inv s → step s s' → system_inv s'.
Proof.
  intros Hi Ht. destruct Ht as [s1 s2 Ht|k fd os s0 Hlt _|token a port fd out s0 _ _|e s0 _|e s0 _
    |session address token w r s0 _].
  - by eapply inv_turn.
  - by apply inv_call.
  - by apply inv_incoming.
  - by apply inv_receive_fails.
  - by apply inv_stop.
  - by apply inv_register.
Qed.

Lemma system_inv_reachable h os s : rtc step (spawn h os) s → system_inv s.
Proof.
  intros H. revert H. apply (rtc_ind_r system_inv (spawn h os)); [apply spawn_inv|].
  intros s1 s2 _ H Hi. by eapply system_inv_step.
Qed.

(** *** The threads come to rest *)

Definition weight (s : system) : nat :=
  3 * length (sent s) + 2 * length (received s) + length (responses s)
  + Nat.b2n (serving s) + Nat.b2n (reader_running s).

Lemma executor_turn_lighter s s' : turn s s' → (weight s' < weight s)%nat.
Proof.
  unfold weight. intros [r p rest s0 Hl Hs|m rest os out s0 Hv Hr|s0 Hv _ _|m p rest s0 Hrun Hres|s0 Hrun Hv Hres].
  - unfold receive. destruct (recv (Ok p)); cbn -[Nat.mul]; rewrite Hs, ?length_app; cbn -[Nat.mul]; lia.
  - unfold execute. destruct (handle_request _ _ _ _) as [[st es] resp].
    destruct (send resp None out) as [[p|] outcome]; cbn -[Nat.mul]; rewrite Hr, Hv, ?length_app;
      destruct outcome; cbn -[Nat.mul]; lia.
  - cbn -[Nat.mul]. rewrite Hv. cbn. lia.
  - unfold read_response. destruct (reader_turn _ _) as [[[c handed] evs] running]. cbn -[Nat.mul].
    rewrite Hres, Hrun. destruct running; cbn; lia.
  - rewrite read_end. cbn -[Nat.mul]. rewrite Hrun, Hres. cbn -[Nat.mul]. lia.
Qed.

Lemma executor_turns_end s : sn turn s.
Proof.
  induction s as [s IH] using (induction_ltof1 _ weight). constructor. intros s' Ht.
  apply IH. by apply executor_turn_lighter in Ht.
Qed.

(** With a reader at rest nothing is on its way. *)
Lemma channel_at_rest s id :
  system_inv s → nf turn s → reader_running s = true → ¬ in_flight s id.
Proof.
  intros Hi Hnf Hrun.
  assert (responses s = []) as Hres.
  { destruct (responses s) as [|[m p] rest] eqn:E; [done|]. destruct Hnf. eexists. by eapply turn_read. }
  assert (serving s = true) as Hv.
  { destruct (serving s) eqn:E; [done|]. destruct Hnf. eexists. by apply turn_eof. }
  assert (received s = []) as Hrec.
  { destruct (received s) as [|m rest] eqn:E; [done|]. destruct Hnf. eexists.
    by apply (turn_execute m rest {| service_stream := {| set_nonblocking := Ok tt; from_std := Ok tt |};
      spawned := Ok tt; connected := Ok tt; bound := Ok tt; local_port := Ok 0; task := 0 |} (Ok tt)). }
  assert (listening s = true) as Hl.
  { destruct (listening s) eqn:E; [done|]. destruct Hnf. eexists. by apply turn_exit. }
  assert (sent s = []) as Hs.
  { destruct (sent s) as [|[r p] rest] eqn:E; [done|]. destruct Hnf. eexists. by eapply turn_receive. }
  assert (lost s = []) as Hlost.
  { destruct (lost s) eqn:E; [done|]. rewrite (lost_stops s Hi) in Hl; [done|congruence]. }
  unfold in_flight, unserved. rewrite Hres, Hrec, Hs, Hlost, Hv. cbn. set_solver.
Qed.

(** Once the reader has stopped nobody is answered any more. *)
Lemma stopped_step s s' :
  step s s' → reader_running s = false →
  answered s' = answered s ∧ reader_running s' = false ∧ (∀ x, x ∈ issued s → x ∈ issued s').
Proof.
  intros Hstep Hrun. destruct Hstep as [s s' Ht|k fd os s Hlt _|token a port fd out s _ _|e s Hl|e s Hr
    |session address token w r s Hw];
    [destruct Ht as [r p rest s Hl Hs|m rest os out s Hv Hr|s _ _ _|m p rest s Hr Hres|s Hr _ _]|..];
    try congruence; try done.
  - unfold receive. by destruct (recv (Ok p)).
  - unfold execute. destruct (handle_request _ _ _ _) as [[st es] resp]. by destruct (send resp None out).
  - unfold make_call. destruct (begin_call k (inner s)) as [c r]. destruct (send r fd os) as [p outcome].
    destruct (request r (next_waiter s) outcome c) as [c' []]; cbn; (split_and!; [done|done|set_solver]).
Qed.

Lemma stopped_answers s s' :
  rtc step s s' → reader_running s = false →
  answered s' = answered s ∧ reader_running s' = false ∧ (∀ x, x ∈ issued s → x ∈ issued s').
Proof.
  induction 1 as [s|s s1 s' Hstep _ IH]; [done|]. intros Hrun.
  destruct (stopped_step s s1 Hstep Hrun) as (H1 & H2 & H3).
  destruct (IH H2) as (? & ? & ?). split_and!; [congruence|done|auto].
Qed.

(** ** Properties *)

(** C5: every caller of the executor gets its own answer, once.  In every state the
    client, the executor and the packets between them can reach, packets cut at
    64 KiB, responses that cannot be sent and failing sockets included: no caller
    was handed two responses; a response handed to a caller is the one the
    executor gave to that caller's request, or the notice that the channel is
    closed; the threads of both processes can take finitely many turns before
    something new happens, and when none of them can take a turn while the
    client's reader runs, no caller whose request was sent is still waiting; and
    when the reader stops, everybody who was waiting is told so. *)
Theorem each_call_gets_its_own_answer h os s :
  rtc step (spawn h os) s →
  NoDup (answered s).*1 ∧
  (∀ w m, (w, m) ∈ answered s → m = closed_response ∨
     ∃ r, (w, r) ∈ issued s ∧ (r, m) ∈ served s ∧ response_id m = request_id r) ∧
  sn turn s ∧
  (reader_running s = true → nf turn s → ∀ w r, (w, r) ∈ issued s → w ∈ (answered s).*1) ∧
  (∀ p rest, reader_running s = true → reader_running (read_response p rest s) = false →
     ∀ w r, (w, r) ∈ issued s → w ∈ (answered (read_response p rest s)).*1).
Proof.
  intros Hi%system_inv_reachable. split_and!; [by apply answered_once| |apply executor_turns_end|..].
  - intros w m Hm. destruct (answered_served s Hi w m Hm) as ([->|(r & Hw & Hr)] & _); [by left|right].
    exists r. split_and!; [done|done|]. by apply (served_issued s Hi).
  - intros Hrun Hnf w r Hw.
    destruct (waiting_in_flight s Hi w r Hrun Hw) as [?|(id & _ & _ & Hf)]; [done|].
    by destruct (channel_at_rest s id Hi Hnf Hrun).
  - intros p rest Hrun Hstop w r Hw. assert (read_response p rest s = after_stop rest s) as ->.
    { destruct (recv (T:=ExecutorResponse) p) as [m|e] eqn:E; [|by eapply read_response_fails].
      unfold read_response, reader_turn in Hstop. rewrite E in Hstop. repeat case_match; simplify_eq/=. }
    cbn. rewrite fmap_app, elem_of_app.
    destruct (waiting_in_flight s Hi w r Hrun Hw) as [?|(id & _ & Hp & _)]; [by left|right].
    apply list_elem_of_fmap. exists (w, closed_response). split; [done|].
    apply list_elem_of_fmap. exists (id, w). split; [done|]. by apply elem_of_map_to_list.
Qed.

(** C40: a call made after the client's reader has stopped waits forever when its
    packet is sent.  The reader's end answers the callers waiting at that
    moment and nothing marks the client as closed: as long as the executor
    lives and the packet can be sent, the call is registered and in no later
    state does its caller have an answer. *)
Theorem calls_after_the_reader_stopped_hang h os s s' k fd :
  rtc step (spawn h os) s → reader_running s = false → next_request_id (inner s) < u64_max →
  is_ok (send (begin_call k (inner s)).2 fd (Ok tt)).2 = true →
  rtc step (make_call k fd (Ok tt) s) s' →
  (∃ r, (next_waiter s, r) ∈ issued s') ∧ next_waiter s ∉ (answered s').*1.
Proof.
  intros Hi%system_inv_reachable Hrun Hlt Hsent Hsteps.
  destruct (make_call_cases k fd (Ok tt) s Hi Hlt) as [(c & Hm & _)|(c & p & Hm & _)].
  { exfalso. apply (f_equal (length ∘ issued)) in Hm. unfold make_call in Hm. pose proof (ids_positive s Hi).
    destruct (begin_call k (inner s)) as [c' r] eqn:Hb. cbn [snd] in Hsent.
    apply begin_call_spec in Hb as (Hid & _); [|done|lia].
    destruct (send r fd (Ok tt)) as [p [u|e]]; [|done]. unfold request in Hm. rewrite Hid in Hm.
    cbn in Hm. rewrite length_app in Hm. cbn in Hm. lia. }
  rewrite Hm in Hsteps.
  destruct (stopped_answers _ _ Hsteps) as (Ha & _ & Hx); [done|]. cbn in Ha, Hx. split.
  - eexists. apply Hx. apply elem_of_app. right. apply list_elem_of_here.
  - rewrite Ha. intros ([w m] & Hw & Hm')%list_elem_of_fmap. cbn in Hw. subst w.
    destruct (answered_served s Hi _ _ Hm') as (_ & _ & ?). lia.
Qed.
End Channel.

(** C39: a request fits in a control packet or stops the executor.  A request sent
    without an error is received, with its descriptor, when its text is at most
    64 KiB; when it is longer the packet is cut, cannot be decoded, and the
    executor's reader ends: neither that request nor any later one is ever
    handled. *)
Theorem control_requests_fit_or_stop_the_executor
  `{!Serde ExecutorRequest, !SerdeLaws ExecutorRequest, !SerdePrefix ExecutorRequest}
  (m : ExecutorRequest) (fd : option Z) (v : bytes) (later : list (result io_error packet)) :
  to_vec m = Ok v → v ≠ [] →
  ∃ p, send m fd (Ok tt) = (Some p, Ok tt) ∧
    (Z.of_nat (length v) ≤ MAX_CONTROL_MESSAGE_SIZE →
       read_requests (Ok p :: later)
       = {| message := m; attached_fd := fd |} :: read_requests later) ∧
    (MAX_CONTROL_MESSAGE_SIZE < Z.of_nat (length v) → read_requests (Ok p :: later) = []).
Proof.
  intros Hv Hne. exists {| payload := v; fds := option_list fd |}. split_and!.
  - unfold send, encode_message. rewrite Hv. cbn. by destruct fd.
  - intros Hlen. cbn [read_requests]. by rewrite (recv_whole m v fd).
  - intros Hlen. cbn [read_requests]. by destruct (recv_cut m v fd Hv Hlen) as [e ->].
Qed.

Lemma attach_extra cloexec fds o closed a x closed' :
  attach cloexec fds o true closed = (Ok (a, x), closed') → x = true.
Proof.
  revert o closed. induction fds as [|fd fds IH]; intros o closed H; cbn in H; [by simplify_eq|].
  destruct (cloexec fd); [|done]. destruct o; eauto.
Qed.

Lemma attach_keeps cloexec fds a x closed r closed' :
  attach cloexec fds a x closed = (r, closed') →
  closed' ++ match r with Ok (a', _) => option_list a' | Err _ => [] end
    ≡ₚ (closed ++ option_list a) ++ fds ∧
  (∀ a', r = Ok (a', false) → closed' = closed).
Proof.
  revert a x closed. induction fds as [|fd fds IH]; intros a x closed H; cbn in H.
  { simplify_eq. by rewrite app_nil_r. }
  destruct (cloexec fd); [|simplify_eq; rewrite app_nil_r, <- app_assoc; done].
  destruct a as [b|].
  - destruct (IH _ _ _ H) as [Hp _]. split.
    + rewrite Hp. cbn. solve_Permutation.
    + intros a' ->. by apply attach_extra in H.
  - destruct (IH _ _ _ H) as [Hp Hx]. split; [|done]. rewrite Hp. cbn. solve_Permutation.
Qed.

(** C26: no descriptor sent over the control channel is lost or closed twice.
    Whatever the packet, each of the descriptors that came with it is either
    the one handed on with the message or is closed, exactly once; a descriptor
    is handed on only when it came alone and the message could be decoded, and
    when [recv] fails, be it that a descriptor could not be marked close-on-exec,
    all of them are closed. *)
Theorem descriptors_are_kept_or_closed {T} `{!Serde T} (cloexec : Z → result anyhow unit) (p : packet) :
  match recv_closing (T:=T) cloexec (Ok p) with
  | (Ok m, closed) => fds p = option_list (attached_fd m) ∧ closed = []
  | (Err _, closed) => closed ≡ₚ fds p
  end.
Proof.
  unfold recv_closing, bail. cbn [io_result with_context map_err].
  destruct (take _ _) as [|b bs]; [done|]. destruct (8 <? _)%nat; [done|].
  destruct (attach cloexec (fds p) None false []) as [r closed] eqn:E.
  destruct (attach_keeps _ _ _ _ _ _ _ E) as [Hp Hx]. cbn in Hp.
  destruct r as [[a x]|e]; [|by rewrite app_nil_r in Hp].
  destruct x; [done|]. rewrite (Hx a eq_refl) in Hp |- *. cbn in Hp.
  destruct (decode_message _ _) as [m|e]; [|done]. cbn. split; [|done].
  destruct a as [fd|]; cbn in Hp |- *.
  - by apply Permutation_singleton_l in Hp.
  - by apply Permutation_nil_l in Hp.
Qed.

(** ** Witnesses *)

Definition demo_hello : Process.ExecutorHello := {|
  Process.hello_home_dir := lit "/home/alice"; Process.hello_shell := lit "/bin/bash";
  Process.hello_exec_mode := Config.ShellLogin;
|}.

Definition demo_os : os_answers := {|
  service_stream := {| set_nonblocking := Ok tt; from_std := Ok tt |}; spawned := Ok tt; connected := Ok tt; bound := Ok tt; local_port := Ok 4022;
  task := 1;
|}.

(** *** An encoding of the control messages *)

#[global] Instance PtySize_eq_dec : EqDecision Session.PtySize.
Proof. solve_decision. Defined.
#[global] Instance PtyRequest_eq_dec : EqDecision Session.PtyRequest.
Proof. solve_decision. Defined.
#[global] Instance ProcessRequest_eq_dec : EqDecision Session.ProcessRequest.
Proof. solve_decision. Defined.
#[global] Instance ExecutorHello_eq_dec : EqDecision Process.ExecutorHello.
Proof. solve_decision. Defined.
#[global] Instance ExecutorRequest_eq_dec : EqDecision ExecutorRequest.
Proof. solve_decision. Defined.
#[global] Instance ResponseDetail_eq_dec : EqDecision ResponseDetail.
Proof. solve_decision. Defined.
#[global] Instance ExecutorResponse_eq_dec : EqDecision ExecutorResponse.
Proof. solve_decision. Defined.

#[global] Instance PtyRequest_countable : Countable Session.PtyRequest.
Proof.
  apply (inj_countable'
    (λ r, let z := Session.size r in
          (Session.term r, Session.rows z, Session.cols z, Session.pixel_width z, Session.pixel_height z))
    (λ '(t, a, b, c, d), Session.Build_PtyRequest t (Session.Build_PtySize a b c d))).
  by intros [? []].
Defined.

#[global] Instance ProcessRequest_countable : Countable Session.ProcessRequest.
Proof.
  apply (inj_countable' (λ r, (Session.request_pty r, Session.request_env r, Session.command r))
    (λ '(t, e, c), Session.Build_ProcessRequest t e c)). by intros [].
Defined.

#[global] Instance ExecutorHello_countable : Countable Process.ExecutorHello.
Proof.
  apply (inj_countable'
    (λ h, (Process.hello_home_dir h, Process.hello_shell h,
           match Process.hello_exec_mode h with
           | Config.ShellLogin => 0 | Config.ShellCommand => 1 | Config.PowerShell => 2 | Config.Cmd => 3
           end%nat))
    (λ '(d, s, m), Process.Build_ExecutorHello d s
       match m with
       | 0 => Config.ShellLogin | 1 => Config.ShellCommand | 2 => Config.PowerShell | _ => Config.Cmd
       end%nat)).
  by intros [? ? []].
Defined.

#[global] Instance ExecutorRequest_countable : Countable ExecutorRequest.
Proof.
  apply (inj_countable'
    (λ r, match r with
          | Hello h => inl (inl h)
          | StartProcess id r => inl (inr (id, r))
          | StartSftp id => inr (inl (inl id))
          | ConnectTcp id h p => inr (inl (inr (id, h, p)))
          | StartRemoteForward id t a p => inr (inr (inl (id, t, a, p)))
          | CancelRemoteForward id t => inr (inr (inr (id, t)))
          end)
    (λ x, match x with
          | inl (inl h) => Hello h
          | inl (inr (id, r)) => StartProcess id r
          | inr (inl (inl id)) => StartSftp id
          | inr (inl (inr (id, h, p))) => ConnectTcp id h p
          | inr (inr (inl (id, t, a, p))) => StartRemoteForward id t a p
          | inr (inr (inr (id, t))) => CancelRemoteForward id t
          end)).
  by intros [].
Defined.

#[global] Instance ExecutorResponse_countable : Countable ExecutorResponse.
Proof.
  apply (inj_countable'
    (λ m, match m with
          | HelloAck => inl None
          | RequestOk id d => inl (Some (id, match d with NoDetail => None | BoundPort p => Some p end))
          | RequestErr id t => inr (inl (id, t))
          | RemoteForwardIncoming t a p => inr (inr (t, a, p))
          end)
    (λ x, match x with
          | inl None => HelloAck
          | inl (Some (id, d)) => RequestOk id (match d with None => NoDetail | Some p => BoundPort p end)
          | inr (inl (id, t)) => RequestErr id t
          | inr (inr (t, a, p)) => RemoteForwardIncoming t a p
          end)).
  by intros [|? []| |].
Defined.

Definition demo_request_serde : Serde ExecutorRequest := countable_serde.
Definition demo_response_serde : Serde ExecutorResponse := countable_serde.

Lemma demo_request_laws : @SerdeLaws ExecutorRequest demo_request_serde.
Proof. apply countable_laws. Qed.
Lemma demo_response_laws : @SerdeLaws ExecutorResponse demo_response_serde.
Proof. apply countable_laws. Qed.

Lemma countable_prefix {T} `{Countable T} : @SerdePrefix T countable_serde.
Proof. intros m p k [= <-] Hk. cbn. rewrite unbits_cut by done. by eexists. Qed.

Lemma demo_request_prefix : @SerdePrefix ExecutorRequest demo_request_serde.
Proof. apply countable_prefix. Qed.
Lemma demo_response_prefix : @SerdePrefix ExecutorResponse demo_response_serde.
Proof. apply countable_prefix. Qed.

#[local] Existing Instances demo_request_serde demo_response_serde demo_request_laws
  demo_response_laws demo_request_prefix demo_response_prefix.

(** What [send] puts on the socket. *)
Definition packet_of {T} `{!Serde T} (m : T) (fd : option Z) : packet :=
  default end_of_channel (send m fd (Ok tt)).1.

(** A call is sent, received, served and answered. *)
Definition demo_call : system := make_call CallSftp (Some 9) (Ok tt) (spawn demo_hello demo_os).
Definition demo_received : system :=
  receive (Ok (packet_of (StartSftp 1) (Some 9))) [StartSftp 1] [] demo_call.
Definition demo_executed : system :=
  execute {| message := StartSftp 1; attached_fd := Some 9 |} [] demo_os (Ok tt) demo_received.
Definition demo_read : system :=
  read_response (Ok (packet_of (RequestOk 1 NoDetail) None)) [] demo_executed.

Lemma demo_read_reachable : rtc step (spawn demo_hello demo_os) demo_read.
Proof.
  eapply rtc_l; [by apply (step_call CallSftp (Some 9) (Ok tt))|].
  eapply rtc_l; [by eapply step_turn, (turn_receive (StartSftp 1))|].
  eapply rtc_l; [apply step_turn, (turn_execute {| message := StartSftp 1; attached_fd := Some 9 |} [] demo_os (Ok tt)); vm_compute; reflexivity|].
  eapply rtc_l; [apply step_turn, (turn_read (RequestOk 1 NoDetail) (packet_of (RequestOk 1 NoDetail) None) []); vm_compute; reflexivity|].
  apply rtc_refl.
Qed.

Lemma demo_read_at_rest : nf turn demo_read.
Proof.
  intros [s' Ht]. inversion Ht as [r p rest s Hl Hs|m rest os out s Hv Hr|s Hv Hl Hr|m p rest s Hr Hs|s Hr Hv Hs]; subst.
  - vm_compute in Hs. discriminate Hs.
  - vm_compute in Hr. discriminate Hr.
  - vm_compute in Hl. discriminate Hl.
  - vm_compute in Hs. discriminate Hs.
  - vm_compute in Hv. discriminate Hv.
Qed.

Lemma each_call_gets_its_own_answer_witness :
  answered demo_read = [(0, RequestOk 1 NoDetail)] ∧ 0 ∈ (answered demo_read).*1.
Proof.
  split; [vm_compute; reflexivity|].
  apply (each_call_gets_its_own_answer demo_hello demo_os demo_read) with (r := StartSftp 1).
  - exact demo_read_reachable.
  - vm_compute. reflexivity.
  - exact demo_read_at_rest.
  - vm_compute. apply list_elem_of_here.
Defined.

Definition demo_stopped : system :=
  read_response (Err (IoError OtherKind (lit "cut"))) [] (spawn demo_hello demo_os).

Lemma calls_after_the_reader_stopped_hang_witness :
  0 ∉ (answered (make_call CallSftp None (Ok tt) demo_stopped)).*1.
Proof.
  apply (calls_after_the_reader_stopped_hang demo_hello demo_os demo_stopped
           (make_call CallSftp None (Ok tt) demo_stopped) CallSftp None).
  - eapply rtc_l; [by apply (step_read_fails (IoError OtherKind (lit "cut")))|]. apply rtc_refl.
  - reflexivity.
  - reflexivity.
  - vm_compute. reflexivity.
  - apply rtc_refl.
Defined.

(** A host name whose request does not fit. *)
Definition long_host : str := replicate (Z.to_nat 8192) 97%N.
Definition long_request : ExecutorRequest := ConnectTcp 1 long_host 22.
Definition short_request : ExecutorRequest := ConnectTcp 1 (lit "h") 22.

Lemma long_request_length : MAX_CONTROL_MESSAGE_SIZE < Z.of_nat (length (bits (encode long_request))).
Proof. by vm_compute. Qed.

Lemma control_requests_fit_or_stop_the_executor_witness :
  (∃ p, send short_request (Some 5) (Ok tt) = (Some p, Ok tt) ∧
     read_requests [Ok p] = [{| message := short_request; attached_fd := Some 5 |}]) ∧
  (∃ p, send long_request (Some 5) (Ok tt) = (Some p, Ok tt) ∧ read_requests [Ok p] = []).
Proof.
  split.
  - destruct (control_requests_fit_or_stop_the_executor short_request (Some 5)
                (bits (encode short_request)) []) as (p & Hp & Hr & _); [reflexivity|done|].
    exists p. split; [exact Hp|]. apply Hr. by vm_compute.
  - destruct (control_requests_fit_or_stop_the_executor long_request (Some 5)
                (bits (encode long_request)) []) as (p & Hp & _ & Hr);
      [reflexivity|by destruct (encode long_request)|].
    exists p. split; [exact Hp|]. apply Hr. exact long_request_length.
Defined.

End Executor.
