(* ===== verification/ExecutorOrder.v ===== *)
(** * The order of requests and answers (src/src/executor.rs)

    The control channel is a queue on both sides of a loop that finishes one
    request before it takes the next ([run_from_control_stdin]).  What follows
    from it: requests are handled in the order they were sent, and callers are
    answered in that order, whatever connections to remote forwards are
    reported in between. *)

From S2P Require Import Prelude Rust Session Framing Process Executor.

Local Open Scope Z_scope.

Module ExecutorOrder.
Import Framing Executor.

Section Order.
Context {request_serde : Serde ExecutorRequest} {response_serde : Serde ExecutorResponse}.
Context {request_laws : SerdeLaws ExecutorRequest} {response_laws : SerdeLaws ExecutorResponse}.
Context {request_prefix : SerdePrefix ExecutorRequest} {response_prefix : SerdePrefix ExecutorResponse}.

(** The responses that answer a request, among the packets on their way. *)
Definition is_answer (m : ExecutorResponse) : Prop := is_Some (response_id m).
#[global] Instance is_answer_dec m : Decision (is_answer m).
Proof. unfold is_answer. apply _. Defined.

(** Who will be told what: the callers in the order of their requests, with the
    executor's responses in the order it gave them. *)
Definition answer_plan (s : system) : list (Z * ExecutorResponse) :=
  zip (issued s).*1 (served s).*2.

(** The answers planned are the ones given and, while the reader runs, the ones
    on their way, in that order; then at most those of an executor that could not
    send them, and is gone. *)
Record order_inv (s : system) : Prop := {
  fifo : (served s).*1 ++ unserved s = (issued s).*2;
  callers_distinct : NoDup (issued s).*1;
  plan : reader_running s = true → ∃ coming never,
    answer_plan s = answered s ++ coming ++ never ∧ coming.*2 = filter is_answer (responses s).*1 ∧
    (serving s = true → never = []);
}.

Lemma served_length s : order_inv s → (length (served s) ≤ length (issued s))%nat.
Proof.
  intros Hi. pose proof (f_equal length (fifo s Hi)) as H.
  rewrite length_app, !length_fmap in H. lia.
Qed.

(** Who is planned an answer sent the request it answers. *)
Lemma planned s w m :
  order_inv s → (w, m) ∈ answer_plan s → ∃ r, (w, r) ∈ issued s ∧ (r, m) ∈ served s.
Proof.
  intros Hi (i & H)%list_elem_of_lookup. unfold answer_plan in H.
  apply lookup_zip_Some in H as [Hw Hm].
  apply list_lookup_fmap_Some in Hw as ([w' r] & Hw & Hi1).
  apply list_lookup_fmap_Some in Hm as ([r' m'] & Hm & Hi2). cbn in *. subst.
  assert ((issued s).*2 !! i = Some r') as Hr.
  { rewrite <- (fifo s Hi). apply lookup_app_l_Some. by rewrite list_lookup_fmap, Hi2. }
  rewrite list_lookup_fmap, Hi1 in Hr. cbn in Hr. simplify_eq.
  exists r'. split; by eapply list_elem_of_lookup_2.
Qed.

(** Who is still to be told something was told nothing yet. *)
Lemma not_answered_twice s given coming w m :
  order_inv s → answer_plan s = given ++ (w, m) :: coming → w ∉ given.*1.
Proof.
  intros Hi Hc ([w' m'] & -> & (j & Hj)%list_elem_of_lookup)%list_elem_of_fmap.
  assert (answer_plan s !! j = Some (w', m')) as H1 by (rewrite Hc; by apply lookup_app_l_Some).
  assert (answer_plan s !! length given = Some (w', m)) as H2 by (by rewrite Hc, list_lookup_middle).
  unfold answer_plan in H1, H2. apply lookup_zip_Some in H1 as [H1 _], H2 as [H2 _].
  pose proof (NoDup_lookup _ _ _ _ (callers_distinct s Hi) H1 H2).
  apply lookup_lt_Some in Hj. lia.
Qed.

Lemma order_call k fd os s :
  system_inv s → next_request_id (inner s) < u64_max → order_inv s → order_inv (make_call k fd os s).
Proof.
  intros Hs Hlt Hi. destruct (make_call_cases k fd os s Hs Hlt)
    as [(c & -> & _)|(c & p & -> & _ & _ & _ & _ & _)]; [by destruct Hi; split|].
  split; cbn.
  - rewrite !fmap_app. cbn. rewrite <- (fifo s Hi). unfold unserved. cbn.
    by rewrite <- !app_assoc.
  - rewrite fmap_app. apply NoDup_app. split_and!; [by apply callers_distinct| |by apply NoDup_singleton].
    cbn. intros w ([w' r'] & -> & Hw)%list_elem_of_fmap Heq%list_elem_of_singleton.
    apply (issued_ids s Hs) in Hw as (id & _ & _ & Hlt'). cbn in Heq, Hlt'. lia.
  - intros Hrun. destruct (plan s Hi Hrun) as (coming & never & Hc & Hr & Hn). exists coming, never.
    split; [|done]. rewrite <- Hc. unfold answer_plan. cbn. rewrite fmap_app.
    rewrite zip_with_app_l, length_fmap, take_ge, drop_ge;
      [|rewrite length_fmap; by apply served_length..].
    apply app_nil_r.
Qed.

(** What the reader thread of the executor does keeps the requests in order. *)
Lemma order_moved s s' :
  order_inv s → unserved s' = unserved s → served s' = served s → issued s' = issued s →
  answered s' = answered s → responses s' = responses s → reader_running s' = reader_running s →
  (serving s' = true → serving s = true) → order_inv s'.
Proof.
  intros [Hf Hd Hp] Hu Hsv His Ha Hr Hrun Hv.
  split; unfold answer_plan; rewrite ?Hu, ?Hsv, ?His, ?Ha, ?Hr, ?Hrun; [done|done|].
  intros H. destruct (Hp H) as (coming & never & ? & ? & ?). exists coming, never. auto.
Qed.

Lemma order_receive r p rest s :
  system_inv s → order_inv s → listening s = true → sent s = (r, p) :: rest →
  order_inv (receive (Ok p) [r] rest s).
Proof.
  intros Hs Hi Hl Hsent. assert (lost s = []) as Hlost.
  { destruct (lost s) eqn:E; [done|]. rewrite (lost_stops s Hs) in Hl; [done|congruence]. }
  assert (made_from r p) as Hm by (apply (sent_packets s Hs); rewrite Hsent; apply list_elem_of_here).
  unfold receive. destruct (recv_made r p Hm) as [[fd ->]|[e ->]].
  all: apply (order_moved s); try done; unfold unserved; cbn; rewrite Hsent, Hlost, ?fmap_app; cbn.
  - by rewrite <- app_assoc.
  - done.
Qed.

Lemma order_execute m rest os out s :
  system_inv s → order_inv s → serving s = true → received s = m :: rest →
  order_inv (execute m rest os out s).
Proof.
  intros Hs Hi Hv Hreq. unfold execute.
  pose proof (handle_request_id (message m) (attached_fd m) os (executor s)) as Hid.
  destruct (handle_request (message m) (attached_fd m) os (executor s)) as [[st es] resp]. cbn in Hid.
  destruct (send resp None out) as [p outcome] eqn:Es. apply send_cases in Es.
  pose proof (fifo s Hi) as Hf. unfold unserved in Hf. rewrite Hreq in Hf. cbn in Hf.
  split; cbn; [|by apply callers_distinct|].
  - rewrite fmap_app, <- app_assoc. by cbn.
  - intros Hrun. destruct (plan s Hi Hrun) as (coming & never & Hc & Hr & Hn).
    rewrite (Hn Hv), app_nil_r in Hc.
    symmetry in Hf. apply fmap_app_inv in Hf as (i1 & [|[w r'] i2] & H1 & H2 & Hiss);
      [done|]. cbn in H2. injection H2 as <- H2.
    assert (is_answer resp) as Hm.
    { destruct (requests_issued s Hs (message m)) as (w' & Hw); [unfold unserved; rewrite Hreq; apply list_elem_of_here|].
      apply (issued_ids s Hs) in Hw as (id & Hr' & _). exists id. congruence. }
    assert (length i1 = length (served s)) as Hlen.
    { by rewrite <- (length_fmap fst (served s)), H1, length_fmap. }
    assert (zip (issued s).*1 ((served s).*2 ++ [resp]) = answered s ++ coming ++ [(w, resp)]) as Hz.
    { rewrite app_assoc, <- Hc. unfold answer_plan. rewrite Hiss, !fmap_app. cbn.
      rewrite !zip_with_app; rewrite ?length_fmap; [|done..].
      rewrite (zip_with_app_l _ i1.*1 (w :: i2.*1)), length_fmap, drop_ge, take_ge;
        [|rewrite length_fmap; lia..].
      cbn. by rewrite app_nil_r, zip_with_nil_r. }
    unfold answer_plan. cbn. rewrite fmap_app. cbn. rewrite Hz.
    destruct p as [p|], outcome as [u|e]; try done.
    + exists (coming ++ [(w, resp)]), []. rewrite !fmap_app, app_nil_r. cbn. split_and!; [done| |done].
      rewrite filter_app, Hr, filter_cons_True, filter_nil; done.
    + by exists coming, [(w, resp)].
Qed.

Lemma order_read m p rest s :
  system_inv s → order_inv s → reader_running s = true → responses s = (m, p) :: rest →
  order_inv (read_response (Ok p) rest s).
Proof.
  intros Hs Hi Hrun Hres. destruct (plan s Hi Hrun) as (coming & never & Hc & Hr & Hn).
  rewrite Hres in Hr. cbn [fmap list_fmap fst] in Hr.
  destruct (read_response_cases m p rest s) as [(id & w & Hid & Hw & ->)|[[Hnone ->]| ->]];
    [apply (response_packets s Hs); rewrite Hres; apply list_elem_of_here| | |by destruct Hi; split];
    unfold after_read; (split; cbn; [by apply fifo|by apply callers_distinct|intros _]).
  all: destruct (decide (is_answer m)) as [Ha|Ha];
    [rewrite filter_cons_True in Hr by done|rewrite filter_cons_False in Hr by done].
  - destruct coming as [|[w' m'] coming]; [done|]. cbn in Hr. injection Hr as -> Hr.
    exists coming, never. split; [|done]. etrans; [exact Hc|]. rewrite <- app_assoc. cbn.
    destruct (planned s w' m Hi) as (r & Hr' & Hs'); [rewrite Hc; set_solver|].
    destruct (pending_issued s Hs id w Hw) as (r2 & H2 & Hid2).
    destruct (served_issued s Hs r m Hs') as (_ & Hmr).
    destruct (issued_by_id s Hs w w' r2 r) as [<- _]; [done..|congruence|done].
  - destruct Ha. by exists id.
  - destruct coming as [|[w' m'] coming]; [done|]. cbn in Hr. injection Hr as -> Hr. exfalso.
    destruct (planned s w' m Hi) as (r & Hr' & Hs'); [rewrite Hc; set_solver|].
    destruct (served_issued s Hs r m Hs') as (_ & Hmr).
    destruct (waiting_in_flight s Hs w' r Hrun Hr') as [Hin|(id & Hid & Hp & _)].
    + apply (not_answered_twice s (answered s) (coming ++ never) w' m Hi Hc Hin).
    + rewrite (Hnone id) in Hp; [done|congruence].
  - exists coming, never. by rewrite app_nil_r.
Qed.

Lemma order_turn s s' : system_inv s → order_inv s → turn s s' → order_inv s'.
Proof.
  intros Hs Hi Ht. destruct Ht as [r p rest s Hl Hsent|m rest os out s Hv Hr|s Hv Hl Hr|m p rest s Hrun Hres|s Hrun Hv Hres].
  - by apply order_receive.
  - by apply order_execute.
  - by apply (order_moved s).
  - by eapply order_read.
  - rewrite read_end. destruct Hi. by split.
Qed.

Lemma order_step s s' : system_inv s → order_inv s → step s s' → order_inv s'.
Proof.
  intros Hs Hi Ht. destruct Ht as [s s' Ht|k fd os s Hlt _|token a port fd out s _ _|e s Hl|e s Hrun
    |session address token w r s _].
  - by eapply order_turn.
  - by apply order_call.
  - destruct Hi as [Hf Hd Hp]. split; [done|done|]. cbn. intros Hrun.
    destruct (Hp Hrun) as (coming & never & Hc & Hm & Hn). exists coming, never. split; [done|].
    split; [|done]. destruct (send _ _ _).1 as [p|]; [|done].
    rewrite fmap_app, filter_app, Hm. cbn [fmap list_fmap fst].
    rewrite filter_cons_False, filter_nil, app_nil_r; [done|]. by intros [].
  - apply (order_moved s); try done. unfold unserved. cbn. by rewrite app_nil_r.
  - destruct Hi. by split.
  - destruct Hi. by split.
Qed.

Lemma order_reachable h os s : rtc step (spawn h os) s → order_inv s ∧ system_inv s.
Proof.
  intros H. revert H. apply (rtc_ind_r (λ s, order_inv s ∧ system_inv s) (spawn h os)).
  { split; [|apply spawn_inv]. split; [done|by apply NoDup_nil_2|]. by exists [], []. }
  intros s1 s2 Hreach Hstep [Hi Hs]. split; [by eapply order_step|by eapply system_inv_step].
Qed.

(** C14: callers are served, and answered, strictly in turn.  In every state the
    client, the executor and the packets between them can reach, the requests
    handled, and those queued, lost to a cut packet or on the socket, are, in that
    order, the requests sent; while the
    client's reader runs, the answers given are a beginning of the list that
    pairs the callers, in the order of their requests, with the responses, in
    the order the executor gave them.  So no caller has an answer while a request
    sent before its own is still being handled, whatever that request waits for. *)
Theorem requests_are_served_in_order h os s :
  rtc step (spawn h os) s →
  (served s).*1 ++ unserved s = (issued s).*2 ∧
  (reader_running s = true →
     answered s `prefix_of` zip (issued s).*1 (served s).*2 ∧
     ∀ i w, (length (served s) ≤ i)%nat → (issued s).*1 !! i = Some w → w ∉ (answered s).*1).
Proof.
  intros [Hi Hs]%order_reachable. split; [by apply fifo|]. intros Hrun.
  destruct (plan s Hi Hrun) as (coming & never & Hc & _). split; [by exists (coming ++ never)|].
  intros i w Hle Hw ([w' m] & -> & Hm)%list_elem_of_fmap.
  apply list_elem_of_lookup in Hm as (j & Hj).
  assert (answer_plan s !! j = Some (w', m)) as Hp by (rewrite Hc; by apply lookup_app_l_Some).
  unfold answer_plan in Hp. apply lookup_zip_Some in Hp as [Hp1 Hp2].
  pose proof (lookup_lt_Some _ _ _ Hp2) as Hlt. rewrite length_fmap in Hlt.
  pose proof (NoDup_lookup _ _ _ _ (callers_distinct s Hi) Hw Hp1). lia.
Qed.

End Order.

(** ** Witness *)

#[local] Existing Instances demo_request_serde demo_response_serde demo_request_laws
  demo_response_laws demo_request_prefix demo_response_prefix.

(** Two callers: the first request waits for a connection, the second is only
    queued behind it. *)
Definition demo_connect : system :=
  make_call (CallConnect (lit "slow.example") 80) (Some 9) (Ok tt) (spawn demo_hello demo_os).
Definition demo_queued : system := make_call CallSftp (Some 10) (Ok tt) demo_connect.

Lemma requests_are_served_in_order_witness :
  (issued demo_queued).*1 = [0; 1] ∧ 1 ∉ (answered demo_queued).*1.
Proof.
  split; [reflexivity|].
  eapply (requests_are_served_in_order demo_hello demo_os demo_queued) with (i := 1%nat);
    [|reflexivity|cbn; lia|reflexivity].
  eapply rtc_l; [by apply (step_call (CallConnect (lit "slow.example") 80) (Some 9) (Ok tt))|].
  eapply rtc_l; [by apply (step_call CallSftp (Some 10) (Ok tt) demo_connect)|].
  apply rtc_refl.
Defined.

End ExecutorOrder.
