(* ===== verification/ExecutorLifetime.v ===== *)
(** * How long the executor lives (src/src/executor.rs)

    The state of the client, [ExecutorClientInner], is shared: each
    [ExecutorClient] owns a reference to it, and so do the reader thread and the
    task that dispatches forwarded connections, which [ExecutorClient::spawn]
    starts.  Dropping the last reference drops the state, which kills the
    executor and waits for it.  Here are the references and the executor process,
    over any sequence of events. *)

From S2P Require Import Prelude Rust.

Module ExecutorLifetime.

(** The executor process: after an exit, its parent still has to wait for it. *)
Inductive process := Running | Exited | Reaped.

#[global] Instance process_eq_dec : EqDecision process.
Proof. solve_decision. Defined.

(** Who owns a reference, the [child] the state holds, and the process. *)
Record lifetime := {
  clients : nat;
  reader : bool;
  dispatcher : bool;
  child : bool;
  executor : process;
}.

(** After [ExecutorClient::spawn]. *)
Definition spawned : lifetime :=
  {| clients := 1; reader := true; dispatcher := true; child := true; executor := Running |}.

Definition owners (l : lifetime) : nat := clients l + Nat.b2n (reader l) + Nat.b2n (dispatcher l).

Definition set_clients (n : nat) (l : lifetime) : lifetime :=
  {| clients := n; reader := reader l; dispatcher := dispatcher l; child := child l;
     executor := executor l |}.
Definition stop_reader (l : lifetime) : lifetime :=
  {| clients := clients l; reader := false; dispatcher := dispatcher l; child := child l;
     executor := executor l |}.
Definition stop_dispatcher (l : lifetime) : lifetime :=
  {| clients := clients l; reader := reader l; dispatcher := false; child := child l;
     executor := executor l |}.
Definition set_executor (p : process) (l : lifetime) : lifetime :=
  {| clients := clients l; reader := reader l; dispatcher := dispatcher l; child := child l;
     executor := p |}.

(** [Drop for ExecutorClientInner]: the child is taken, killed and waited for. *)
Definition drop_inner (l : lifetime) : lifetime :=
  if child l then
    {| clients := clients l; reader := reader l; dispatcher := dispatcher l; child := false;
       executor := Reaped |}
  else l.

(** A reference is gone. *)
Definition release_reference (l : lifetime) : lifetime :=
  if (owners l =? 0)%nat then drop_inner l else l.

(** A client is cloned or dropped; the reader's [recv] finds the executor gone,
    or a packet it cannot take; the reader cannot pass a forwarded connection
    on; the dispatcher finds no more events to come; the runtime drops its
    tasks; the executor exits by itself. *)
Inductive event :=
| CloneClient
| DropClient
| ReaderEof
| BadPacket
| LostConnection
| EventsEnd
| RuntimeGone
| ExecutorExits.

(** [None] when the event cannot happen. *)
Definition step (e : event) (l : lifetime) : option lifetime :=
  match e with
  | CloneClient => guard (clients l ≠ 0%nat);; Some (set_clients (S (clients l)) l)
  | DropClient =>
      match clients l with
      | 0%nat => None
      | S n => Some (release_reference (set_clients n l))
      end
  | ReaderEof => guard (reader l = true ∧ executor l ≠ Running);; Some (release_reference (stop_reader l))
  | BadPacket => guard (reader l = true ∧ executor l = Running);; Some (release_reference (stop_reader l))
  | LostConnection =>
      guard (reader l = true ∧ dispatcher l = false ∧ executor l = Running);;
      Some (release_reference (stop_reader l))
  | EventsEnd =>
      guard (dispatcher l = true ∧ reader l = false);; Some (release_reference (stop_dispatcher l))
  | RuntimeGone => guard (dispatcher l = true);; Some (release_reference (stop_dispatcher l))
  | ExecutorExits => guard (executor l = Running);; Some (set_executor Exited l)
  end.

Fixpoint run (es : list event) (l : lifetime) : option lifetime :=
  match es with
  | [] => Some l
  | e :: es => l ← step e l; run es l
  end.

(** ** Invariants *)

(** The state is dropped exactly when nobody owns it, and then the executor is
    killed and waited for; it is waited for nowhere else. *)
Definition lifetime_ok (l : lifetime) : Prop :=
  (child l = false ↔ owners l = 0%nat) ∧ (child l = false ↔ executor l = Reaped).

Lemma release_ok l :
  child l = true → executor l ≠ Reaped → lifetime_ok (release_reference l).
Proof.
  intros Hc He. unfold release_reference, lifetime_ok, drop_inner. rewrite Hc.
  destruct (Nat.eqb_spec (owners l) 0) as [Ho|Ho].
  - by split; split.
  - rewrite Hc. split; split; done.
Qed.

(** Who owns a reference acts on a state that is not dropped. *)
Lemma owned l : lifetime_ok l → owners l ≠ 0%nat → child l = true ∧ executor l ≠ Reaped.
Proof.
  intros [H1 H2] Ho. destruct (child l); [|by destruct Ho; apply H1].
  split; [done|]. by intros ?%H2.
Qed.

Lemma step_ok e l l' : step e l = Some l' → lifetime_ok l → lifetime_ok l'.
Proof.
  intros H Hl. assert (owners l ≠ 0%nat → ∀ f, child (f l) = child l → executor (f l) = executor l →
    l' = release_reference (f l) → lifetime_ok l') as Hrel.
  { intros [Hc He]%(owned l Hl) f Hfc Hfe ->. apply release_ok; congruence. }
  unfold owners in Hrel.
  destruct e; cbn in H; try (case_guard as Hg; simplify_eq/=).
  - destruct (owned l Hl) as [Hc He]; [unfold owners; lia|].
    unfold lifetime_ok, owners. cbn. rewrite Hc. split; split; intros; try done; lia.
  - destruct (clients l) as [|n]; [done|]. simplify_eq. by apply (Hrel ltac:(lia) (set_clients n)).
  - destruct Hg as [Hg _]. rewrite Hg in Hrel. by apply (Hrel ltac:(cbn; lia) stop_reader).
  - destruct Hg as [Hg _]. rewrite Hg in Hrel. by apply (Hrel ltac:(cbn; lia) stop_reader).
  - destruct Hg as (Hg & _). rewrite Hg in Hrel. by apply (Hrel ltac:(cbn; lia) stop_reader).
  - destruct Hg as [Hg _]. rewrite Hg in Hrel. by apply (Hrel ltac:(cbn; lia) stop_dispatcher).
  - rewrite Hg in Hrel. by apply (Hrel ltac:(cbn; lia) stop_dispatcher).
  - destruct Hl as [H1 H2]. split; [exact H1|]. cbn. rewrite H2, Hg. done.
Qed.

Lemma run_ok es l l' : run es l = Some l' → lifetime_ok l → lifetime_ok l'.
Proof.
  revert l. induction es as [|e es IH]; intros l H Hl; cbn in H; [by simplify_eq|].
  destruct (step e l) as [l1|] eqn:E; [|done]. by apply (IH l1 H), (step_ok e l).
Qed.

(** While the reader runs nothing is dropped. *)
Lemma release_while_read l : reader l = true → release_reference l = l.
Proof.
  intros Hr. unfold release_reference. destruct (Nat.eqb_spec (owners l) 0) as [Ho|]; [|done].
  unfold owners in Ho. rewrite Hr in Ho. cbn in Ho. lia.
Qed.

(** What ends the reader of a running executor, and the executor itself. *)
Definition disturbs (e : event) : bool :=
  match e with BadPacket | LostConnection | ExecutorExits => true | _ => false end.

Lemma undisturbed_step e l l' :
  step e l = Some l' → disturbs e = false → reader l = true → executor l = Running →
  reader l' = true ∧ executor l' = Running.
Proof.
  intros H He Hr Hx. destruct e; try done; cbn in H; try (case_guard as Hg; simplify_eq/=; try done).
  - destruct (clients l) as [|n]; simplify_eq. by rewrite release_while_read.
  - by destruct Hg as [_ []].
  - destruct Hg. congruence.
  - by rewrite release_while_read.
Qed.

Lemma undisturbed_run es l l' :
  run es l = Some l' → existsb disturbs es = false → reader l = true → executor l = Running →
  executor l' = Running.
Proof.
  revert l. induction es as [|e es IH]; intros l H Hes Hr Hx; cbn in H; [by simplify_eq|].
  cbn in Hes. apply orb_false_iff in Hes as [He Hes].
  destruct (step e l) as [l1|] eqn:E; [|done].
  destruct (undisturbed_step e l l1 E He Hr Hx). by apply (IH l1).
Qed.

(** ** Properties *)

(** C27: the executor is killed and waited for exactly when the last reference to
    the client's state is dropped, and the reader thread holds one of them.  In
    every sequence of events after the spawn: the executor was waited for if and
    only if no client, no reader and no dispatcher is left; and as long as the
    executor does not exit by itself, sends nothing unreadable and no forwarded
    connection is lost, it goes on running, even when every client was dropped
    and the runtime is gone. *)
Theorem executor_outlives_its_clients es l :
  run es spawned = Some l →
  (executor l = Reaped ↔ owners l = 0%nat) ∧
  (existsb disturbs es = false → executor l = Running).
Proof.
  intros H. assert (lifetime_ok l) as [H1 H2] by (by apply (run_ok es spawned)).
  split; [by rewrite <- H2|]. intros Hes. by apply (undisturbed_run es spawned).
Qed.

(** ** Witness *)

(** The server is gone, the executor is not. *)
Definition demo_gone : lifetime :=
  {| clients := 0; reader := true; dispatcher := false; child := true; executor := Running |}.

Lemma executor_outlives_its_clients_witness :
  run [CloneClient; DropClient; DropClient; RuntimeGone] spawned = Some demo_gone ∧
  executor demo_gone = Running.
Proof.
  split; [reflexivity|].
  apply (executor_outlives_its_clients [CloneClient; DropClient; DropClient; RuntimeGone]); reflexivity.
Defined.

(** Once the reader has stopped, dropping the last client kills the executor. *)
Example drop_kills_after_bad_packet :
  executor <$> run [BadPacket; EventsEnd; DropClient] spawned = Some Reaped.
Proof. reflexivity. Qed.

End ExecutorLifetime.
