(* ===== verification/Spawn.v ===== *)
(** * Starting the executor process (src/src/executor.rs)

    [ExecutorClient::spawn] makes a socket pair, starts the program again with
    one end as its standard input, and waits on the other for the answer to its
    greeting; [run_from_control_stdin] takes that end over in the new process.
    The file models the descriptors involved: which are open, their
    close-on-exec flags, and what a child inherits.  A descriptor handed to a
    [Command] stays open in the parent until the [Command] is dropped, at the
    end of [spawn]; a receive blocks while another end of the pair is open. *)

From S2P Require Import Prelude Rust Config Session Framing Process Executor.

Local Open Scope Z_scope.

Module Spawn.

(** ** Descriptors *)

Definition FD_CLOEXEC : Z := 1.

(** The two ends of the control socket. *)
Inductive end_ := ParentEnd | ChildEnd.

#[global] Instance end_eq_dec : EqDecision end_.
Proof. solve_decision. Defined.

Record descriptor := { refers : end_; flags : Z }.

(** A process started: its arguments, its standard input, and the descriptors
    it inherits besides. *)
Record child := { argv : list str; stdin : option end_; inherited : list end_ }.

(** The parent: its open control descriptors, by number, and what it did. *)
Record host := {
  fds : gmap Z descriptor;
  next_fd : Z;
  children : list child;
  greeted : option Process.ExecutorHello;
  reader_running : bool;
  dispatcher_running : bool;
}.

Definition host_new : host := {|
  fds := ∅; next_fd := 3; children := []; greeted := None; reader_running := false;
  dispatcher_running := false;
|}.

Definition set_fds (m : gmap Z descriptor) (h : host) : host :=
  {| fds := m; next_fd := next_fd h; children := children h; greeted := greeted h;
     reader_running := reader_running h; dispatcher_running := dispatcher_running h |}.

(** A computation that ends with a result, or waits forever. *)
Inductive waiting (A : Type) := Finished (r : result anyhow A) | Blocked.
Arguments Finished {A}. Arguments Blocked {A}.

Definition starting (A : Type) : Type := host → host * waiting A.

#[global] Instance starting_ret : MRet starting := λ A a h, (h, Finished (Ok a)).
#[global] Instance starting_bind : MBind starting := λ A B k m h,
  match m h with
  | (h, Finished (Ok a)) => k a h
  | (h, Finished (Err e)) => (h, Finished (Err e))
  | (h, Blocked) => (h, Blocked)
  end.

Definition answer {A} (r : result anyhow A) : starting A := λ h, (h, Finished r).
Definition update (f : host → host) : starting unit := λ h, (f h, Finished (Ok tt)).

Definition open_fd (e : end_) : starting Z := λ h,
  ({| fds := <[next_fd h := {| refers := e; flags := 0 |}]> (fds h); next_fd := next_fd h + 1;
      children := children h; greeted := greeted h; reader_running := reader_running h;
      dispatcher_running := dispatcher_running h |}, Finished (Ok (next_fd h))).

Definition close_fd (fd : Z) : starting unit := update (λ h, set_fds (delete fd (fds h)) h).

(** [set_cloexec]: the known bits of the flags read, and close-on-exec. *)
Definition set_cloexec (fd : Z) (get set : result io_error unit) : starting unit :=
  _ ← answer (with_context (lit "failed to read file descriptor close-on-exec flags") (io_result get));
  _ ← answer (with_context (lit "failed to set file descriptor close-on-exec flag") (io_result set));
  update (λ h, set_fds (alter (λ d, {| refers := refers d;
                                       flags := Z.lor (Z.land (flags d) FD_CLOEXEC) FD_CLOEXEC |})
                          fd (fds h)) h).

Definition dup (fd : Z) (r : result io_error unit) (ctx : str) : starting Z := λ h,
  match with_context ctx (io_result r), fds h !! fd with
  | Ok _, Some d => open_fd (refers d) h
  | Ok _, None => (h, Finished (bail (lit "bad file descriptor")))
  | Err e, _ => (h, Finished (Err e))
  end.

Definition cloexec (d : descriptor) : bool := Z.testbit (flags d) 0.

(** The ends whose descriptors survive an exec. *)
Definition survivors (m : gmap Z descriptor) : list end_ :=
  (λ '(_, d), refers d) <$> List.filter (λ '(_, d), negb (cloexec d)) (map_to_list m).

(** ** The executor program *)

Definition executor_program (program_override : option str) (current_exe : result io_error str)
  : result anyhow str :=
  match program_override with
  | Some program => Ok program
  | None =>
      with_context (lit "failed to resolve current executable for executor spawn") (io_result current_exe)
  end.

(** What the new process does on the channel before anything else. *)
Inductive behaviour := Answers (m : Executor.ExecutorResponse) | Exits.

Record answers := {
  socketpair : result io_error unit;
  get_parent : result io_error unit; set_parent : result io_error unit;
  get_child : result io_error unit; set_child : result io_error unit;
  current_exe : result io_error str;
  started : result io_error unit;
  dup_read : result io_error unit; dup_write : result io_error unit;
  get_read : result io_error unit; set_read : result io_error unit;
  get_write : result io_error unit; set_write : result io_error unit;
  hello_sent : result anyhow unit;
  behaves : behaviour;
  runtime : result anyhow unit;
  thread_started : result anyhow unit;
}.

(** [Command::spawn]: the child gets [stdin_fd] as its standard input and every
    descriptor that survives an exec. *)
Definition spawn_child (program : str) (stdin_fd : Z) (r : result io_error unit) : starting unit :=
  _ ← answer (with_context (lit "failed to spawn executor process") (io_result r));
  update (λ h,
    {| fds := fds h; next_fd := next_fd h;
       children := children h ++ [{| argv := [program; lit "--internal-executor"];
                                     stdin := refers <$> fds h !! stdin_fd;
                                     inherited := survivors (fds h) |}];
       greeted := greeted h; reader_running := reader_running h;
       dispatcher_running := dispatcher_running h |}).

(** Whether some open descriptor refers to the end [e]. *)
Definition end_open (e : end_) (h : host) : bool :=
  existsb (λ '(_, d), bool_decide (refers d = e)) (map_to_list (fds h)).

(** Receiving the answer to the greeting: a process that exits leaves the
    receive waiting while the parent holds the child's end itself. *)
Definition recv_answer (b : behaviour) : starting Executor.ExecutorResponse := λ h,
  match b with
  | Answers m => (h, Finished (Ok m))
  | Exits =>
      if end_open ChildEnd h then (h, Blocked)
      else (h, Finished (bail (lit "executor control channel reached EOF")))
  end.

Definition is_ack (m : Executor.ExecutorResponse) : bool :=
  match m with Executor.HelloAck => true | _ => false end.

(** [ExecutorClient::spawn] in three parts: the socket pair, both ends closed on
    exec; the process and the parent's two descriptors; the handshake and the
    threads.  The child's end is dropped with the [Command], last of all. *)
Definition make_pair (a : answers) : starting (Z * Z) :=
  _ ← answer (with_context (lit "failed to create executor control socket pair") (io_result (socketpair a)));
  parent_fd ← open_fd ParentEnd;
  child_fd ← open_fd ChildEnd;
  _ ← set_cloexec parent_fd (get_parent a) (set_parent a);
  _ ← set_cloexec child_fd (get_child a) (set_child a);
  mret (parent_fd, child_fd).

Definition start_program (program_override : option str) (a : answers) (parent_fd child_fd : Z)
  : starting unit :=
  program ← answer (executor_program program_override (current_exe a));
  _ ← spawn_child program child_fd (started a);
  read_fd ← dup parent_fd (dup_read a)
              (lit "failed to duplicate executor control fd for parent reads");
  write_fd ← dup parent_fd (dup_write a)
               (lit "failed to duplicate executor control fd for parent writes");
  _ ← close_fd parent_fd;
  _ ← set_cloexec read_fd (get_read a) (set_read a);
  set_cloexec write_fd (get_write a) (set_write a).

Definition set_greeted (hello : Process.ExecutorHello) (h : host) : host :=
  {| fds := fds h; next_fd := next_fd h; children := children h; greeted := Some hello;
     reader_running := reader_running h; dispatcher_running := dispatcher_running h |}.
Definition set_running (h : host) : host :=
  {| fds := fds h; next_fd := next_fd h; children := children h; greeted := greeted h;
     reader_running := true; dispatcher_running := true |}.

Definition handshake (hello : Process.ExecutorHello) (a : answers) : starting unit :=
  _ ← answer (hello_sent a);
  _ ← update (set_greeted hello);
  m ← recv_answer (behaves a);
  if is_ack m then mret tt else answer (bail (lit "executor did not acknowledge startup handshake")).

Definition spawn_body (hello : Process.ExecutorHello) (program_override : option str) (a : answers)
  : starting unit :=
  '(parent_fd, child_fd) ← make_pair a;
  _ ← start_program program_override a parent_fd child_fd;
  _ ← handshake hello a;
  _ ← answer (with_context (lit "ExecutorClient::spawn requires a running Tokio runtime") (runtime a));
  _ ← answer (with_context (lit "executor control reader thread failed to start") (thread_started a));
  _ ← update set_running;
  close_fd child_fd.

(** An early return drops every descriptor owned by then. *)
Definition spawn (hello : Process.ExecutorHello) (program_override : option str) (a : answers)
  : starting unit := λ h,
  match spawn_body hello program_override a h with
  | (h, Finished (Err e)) => (set_fds ∅ h, Finished (Err e))
  | other => other
  end.

(** ** In the new process *)

Record takeover_answers := {
  dup_in : result io_error unit; dup_out : result io_error unit;
  get_in : result io_error unit; set_in : result io_error unit;
  get_out : result io_error unit; set_out : result io_error unit;
}.

(** The new process with its end as standard input, which outlives an exec. *)
Definition executor_start : host := {|
  fds := {[0 := {| refers := ChildEnd; flags := 0 |}]}; next_fd := 3; children := []; greeted := None;
  reader_running := false; dispatcher_running := false;
|}.

(** [run_from_control_stdin] up to its reader. *)
Definition take_over_stdin (a : takeover_answers) : starting (Z * Z) :=
  read_fd ← dup 0 (dup_in a) (lit "failed to duplicate executor control stdin for reads");
  write_fd ← dup 0 (dup_out a) (lit "failed to duplicate executor control stdin for writes");
  _ ← set_cloexec read_fd (get_in a) (set_in a);
  _ ← set_cloexec write_fd (get_out a) (set_out a);
  mret (read_fd, write_fd).

(** The ends a service's child inherits: descriptor 0 is replaced by its own
    standard input, a pipe or a terminal. *)
Definition service_child_ends (h : host) : list end_ := survivors (delete 0 (fds h)).

(** ** Lemmas *)

(** The child started for a program. *)
Definition executor_child (program : str) : child :=
  {| argv := [program; lit "--internal-executor"]; stdin := Some ChildEnd; inherited := [] |}.

Definition paired : host := {|
  fds := {[3 := {| refers := ParentEnd; flags := 1 |}; 4 := {| refers := ChildEnd; flags := 1 |}]};
  next_fd := 5; children := []; greeted := None; reader_running := false; dispatcher_running := false;
|}.

Definition split_fds : gmap Z descriptor :=
  {[4 := {| refers := ChildEnd; flags := 1 |}; 5 := {| refers := ParentEnd; flags := 1 |};
    6 := {| refers := ParentEnd; flags := 1 |}]}.
Definition duplicated (program : str) : host := {|
  fds := split_fds; next_fd := 7; children := [executor_child program]; greeted := None;
  reader_running := false; dispatcher_running := false;
|}.

Lemma make_pair_cases a :
  (∃ h e, make_pair a host_new = (h, Finished (Err e)) ∧ children h = []) ∨
  make_pair a host_new = (paired, Finished (Ok (3, 4))).
Proof.
  unfold make_pair. destruct (socketpair a) as [[]|e]; [|left; by eexists _, _].
  destruct (get_parent a) as [[]|e]; [|left; by eexists _, _].
  destruct (set_parent a) as [[]|e]; [|left; by eexists _, _].
  destruct (get_child a) as [[]|e]; [|left; by eexists _, _].
  destruct (set_child a) as [[]|e]; [|left; by eexists _, _].
  right. vm_compute. reflexivity.
Qed.

(** The program runs with the child's end as its standard input and nothing else
    of the channel. *)
Lemma start_program_cases ov a :
  (∃ h e, start_program ov a 3 4 paired = (h, Finished (Err e)) ∧
     (children h = [] ∨ ∃ p, executor_program ov (current_exe a) = Ok p ∧ children h = [executor_child p])) ∨
  ∃ p, executor_program ov (current_exe a) = Ok p ∧
       start_program ov a 3 4 paired = (duplicated p, Finished (Ok tt)).
Proof.
  unfold start_program. destruct (executor_program ov (current_exe a)) as [p|e]; [|left; eexists _, _; by split; [|left]].
  destruct (started a) as [[]|e]; [|left; eexists _, _; by split; [|left]].
  assert (Hc : ∃ p', Ok (E := anyhow) p = Ok p' ∧ [executor_child p] = [executor_child p']) by by exists p.
  destruct (dup_read a) as [[]|e]; [|left; eexists _, _; by split; [|right]].
  destruct (dup_write a) as [[]|e]; [|left; eexists _, _; by split; [|right]].
  destruct (get_read a) as [[]|e]; [|left; eexists _, _; by split; [|right]].
  destruct (set_read a) as [[]|e]; [|left; eexists _, _; by split; [|right]].
  destruct (get_write a) as [[]|e]; [|left; eexists _, _; by split; [|right]].
  destruct (set_write a) as [[]|e]; [|left; eexists _, _; by split; [|right]].
  right. exists p. split; [done|]. vm_compute. reflexivity.
Qed.

Definition client_fds : gmap Z descriptor :=
  {[5 := {| refers := ParentEnd; flags := 1 |}; 6 := {| refers := ParentEnd; flags := 1 |}]}.

(** A client that is up: the process runs, was greeted and answered, and the
    daemon keeps two descriptors of its own end, both closed on exec. *)
Definition client_up (hello : Process.ExecutorHello) (program : str) (h : host) : Prop :=
  fds h = client_fds ∧ children h = [executor_child program] ∧ greeted h = Some hello ∧
  reader_running h = true ∧ dispatcher_running h = true.

Lemma handshake_cases hello a p :
  (∃ h e, handshake hello a (duplicated p) = (h, Finished (Err e)) ∧ children h = [executor_child p]) ∨
  behaves a = Exits ∧ handshake hello a (duplicated p) = (set_greeted hello (duplicated p), Blocked) ∨
  behaves a = Answers Executor.HelloAck ∧
  handshake hello a (duplicated p) = (set_greeted hello (duplicated p), Finished (Ok tt)).
Proof.
  unfold handshake. destruct (hello_sent a) as [[]|e]; [|left; by eexists _, _].
  destruct (behaves a) as [[|id d|id m|t o q]|] eqn:E.
  - right; right. by split.
  - left. by eexists _, _.
  - left. by eexists _, _.
  - left. by eexists _, _.
  - right; left. split; [done|]. vm_compute. reflexivity.
Qed.

(** However [spawn_body] goes. *)
Lemma spawn_body_cases hello ov a :
  let '(h, r) := spawn_body hello ov a host_new in
  (children h = [] ∨ ∃ p, executor_program ov (current_exe a) = Ok p ∧ children h = [executor_child p]) ∧
  match r with
  | Finished (Ok _) => behaves a = Answers Executor.HelloAck ∧ ∃ p, client_up hello p h
  | Finished (Err _) => True
  | Blocked => behaves a = Exits
  end.
Proof.
  unfold spawn_body. unfold mbind at 1, starting_bind at 1.
  destruct (make_pair_cases a) as [(h & e & -> & Hc)| ->]; [by split; [left|]|].
  unfold mbind at 1, starting_bind at 1.
  destruct (start_program_cases ov a) as [(h & e & -> & Hc)|(p & Hp & ->)]; [by split|].
  unfold mbind at 1, starting_bind at 1.
  destruct (handshake_cases hello a p) as [(h & e & -> & Hc)|[[Hb ->]|[Hb ->]]].
  - split; [right; by exists p|done].
  - split; [right; by exists p|done].
  - destruct (runtime a) as [[]|e]; [|split; [right; by exists p|done]].
    destruct (thread_started a) as [[]|e]; [|split; [right; by exists p|done]].
    split; [right; by exists p|]. split; [done|]. exists p.
    split_and!; [vm_compute; reflexivity|done..].
Qed.

(** ** Properties *)

(** C25: the executor gets its end of the channel and nothing else.  However
    [spawn] goes, it starts at most one process, the executor program in its
    internal mode, whose standard input is the child's end of the socket pair
    and which inherits no other descriptor of it; when it succeeds that process
    has acknowledged the greeting, the reader runs, and the daemon is left with
    two descriptors of its own end, both closed on exec, so that no process
    started later gets hold of the channel; when it fails no descriptor of the
    pair is left open, which tells the new process to end. *)
Theorem executor_gets_only_its_end hello ov a :
  let '(h, r) := spawn hello ov a host_new in
  (children h = [] ∨ ∃ p, executor_program ov (current_exe a) = Ok p ∧ children h = [executor_child p]) ∧
  match r with
  | Finished (Ok _) =>
      behaves a = Answers Executor.HelloAck ∧ (∃ p, client_up hello p h) ∧ survivors (fds h) = []
  | Finished (Err _) => fds h = ∅
  | Blocked => behaves a = Exits
  end.
Proof.
  unfold spawn. pose proof (spawn_body_cases hello ov a) as H.
  destruct (spawn_body hello ov a host_new) as [h [[[]|e]|]]; destruct H as [Hc H]; [|by split..].
  split; [done|]. destruct H as [Hb (p & Hu)]. split; [done|]. split; [by exists p|].
  destruct Hu as (-> & _). vm_compute. reflexivity.
Qed.

(** An executor that exits at once hangs the start-up.  The [Command] keeps the
    child's end open in the daemon until [spawn] returns, so when the new
    process ends without an answer the receive of the acknowledgement never
    sees the end of the channel, and [spawn] neither fails nor returns. *)
Theorem early_exit_hangs_spawn hello ov a h :
  make_pair a host_new = (paired, Finished (Ok (3, 4))) →
  start_program ov a 3 4 paired = (h, Finished (Ok tt)) →
  hello_sent a = Ok tt → behaves a = Exits →
  (spawn hello ov a host_new).2 = Blocked ∧
  recv_answer Exits (set_fds (delete 4 (fds h)) h)
  = (set_fds (delete 4 (fds h)) h, Finished (bail (lit "executor control channel reached EOF"))).
Proof.
  intros H1 H2 H4 H5.
  destruct (start_program_cases ov a) as [(h' & e & H & _)|(p' & Hp & H)]; [congruence|].
  assert (h = duplicated p') as -> by congruence. split; [|vm_compute; reflexivity].
  unfold spawn, spawn_body. unfold mbind at 1, starting_bind at 1. rewrite H1.
  unfold mbind at 1, starting_bind at 1. rewrite H.
  unfold mbind at 1, starting_bind at 1. unfold handshake. rewrite H4, H5. vm_compute. reflexivity.
Qed.

(** The commands of clients get no hold of the control channel.  Once the
    executor has taken over its standard input, the end it was started with is
    the only one an exec leaves open, and that one every service replaces. *)
Theorem services_get_no_control_end a h rw :
  take_over_stdin a executor_start = (h, Finished (Ok rw)) →
  rw = (3, 4) ∧ service_child_ends h = [] ∧ survivors (fds h) = [ChildEnd].
Proof.
  unfold take_over_stdin. destruct a as [[[]|?] [[]|?] [[]|?] [[]|?] [[]|?] [[]|?]]; try done.
  intros [= <- <-]. split_and!; vm_compute; reflexivity.
Qed.

(** ** Witnesses *)

Definition demo_answers (b : behaviour) : answers := {|
  socketpair := Ok tt; get_parent := Ok tt; set_parent := Ok tt; get_child := Ok tt; set_child := Ok tt;
  current_exe := Ok (lit "/usr/bin/narrowd"); started := Ok tt; dup_read := Ok tt; dup_write := Ok tt;
  get_read := Ok tt; set_read := Ok tt; get_write := Ok tt; set_write := Ok tt; hello_sent := Ok tt;
  behaves := b; runtime := Ok tt; thread_started := Ok tt;
|}.

Lemma executor_gets_only_its_end_witness :
  (spawn Executor.demo_hello None (demo_answers (Answers Executor.HelloAck)) host_new).2 = Finished (Ok tt) ∧
  survivors (fds (spawn Executor.demo_hello None (demo_answers (Answers Executor.HelloAck)) host_new).1) = [].
Proof.
  pose proof (executor_gets_only_its_end Executor.demo_hello None (demo_answers (Answers Executor.HelloAck)))
    as H.
  assert ((spawn Executor.demo_hello None (demo_answers (Answers Executor.HelloAck)) host_new).2
          = Finished (Ok tt)) as E by (vm_compute; reflexivity).
  split; [exact E|].
  destruct (spawn Executor.demo_hello None (demo_answers (Answers Executor.HelloAck)) host_new) as [h r].
  cbn in E. rewrite E in H. apply H.
Defined.

Lemma early_exit_hangs_spawn_witness :
  (spawn Executor.demo_hello None (demo_answers Exits) host_new).2 = Blocked.
Proof.
  apply (early_exit_hangs_spawn Executor.demo_hello None (demo_answers Exits)
           (duplicated (lit "/usr/bin/narrowd")));
    vm_compute; reflexivity.
Defined.

End Spawn.
