(* ===== verification/Forwarding.v ===== *)
(** * Remote forwards (src/src/executor.rs)

    What both executors promise about remote forwards: a connection is offered
    to a session only for a forward that session started and has not cancelled,
    under the address and port it was told.  [replay] is the abstract table of
    active forwards, run on the events an executor shows; [ForwardTable] is the
    interface an executor meets, from which the promise is proved.  The executor
    process of Unix targets meets it here, the in-process executor in
    InProcess.v, where the promise is stated of both. *)

From S2P Require Import Prelude Rust Session Framing Process Executor.

Local Open Scope Z_scope.

Module Forwarding.

(** ** The abstract table *)

Definition registration : Type := Executor.RemoteForwardRegistration.
Abbreviation table := (gmap Z registration) (only parsing).

(** Where a forwarded connection comes from: address and port. *)
Definition origin : Type := str * Z.

(** A forward came up, was cancelled, or had a connection accepted for it. *)
Inductive fwd_event :=
| Started (token : Z) (r : registration)
| Cancelled (token : Z)
| Accepted (token : Z) (r : registration) (o : origin).

#[global] Instance registration_eq_dec : EqDecision registration.
Proof. unfold registration. solve_decision. Defined.

(** One event on the table; [None] when the table does not allow it. *)
Definition allow (e : fwd_event) (t : table) : option table :=
  match e with
  | Started token r => Some (<[token := r]> t)
  | Cancelled token => Some (delete token t)
  | Accepted token r _ => if decide (t !! token = Some r) then Some t else None
  end.

Fixpoint replay (es : list fwd_event) (t : table) : option table :=
  match es with
  | [] => Some t
  | e :: es => t ← allow e t; replay es t
  end.

Lemma replay_app es1 es2 t : replay (es1 ++ es2) t = (t ← replay es1 t; replay es2 t).
Proof.
  revert t. induction es1 as [|e es1 IH]; intros t; cbn; [done|].
  destruct (allow e t); cbn; [apply IH|done].
Qed.

(** [e] changes the entry of [token]. *)
Definition touches (token : Z) (e : fwd_event) : Prop :=
  match e with Started t _ | Cancelled t => t = token | Accepted _ _ _ => False end.

(** An entry of the table was there from the start, or its forward was started,
    and in either case not touched since. *)
Lemma replay_entry es t t' token r :
  replay es t = Some t' → t' !! token = Some r →
  (t !! token = Some r ∧ Forall (λ e, ¬ touches token e) es) ∨
  ∃ es1 es2, es = es1 ++ Started token r :: es2 ∧ Forall (λ e, ¬ touches token e) es2.
Proof.
  revert t. induction es as [|e es IH]; intros t H Ht'; cbn in H; [simplify_eq; by left|].
  destruct (allow e t) as [t1|] eqn:E; [|done]. cbn in H.
  destruct (IH t1 H Ht') as [[Ht1 Hes]|(es1 & es2 & -> & Hes2)].
  2: { right. by exists (e :: es1), es2. }
  destruct e as [tok r0|tok|tok r0 o]; cbn in E.
  - simplify_eq. destruct (decide (tok = token)) as [->|Hne].
    + rewrite lookup_insert_eq in Ht1. simplify_eq. right. by exists [], es.
    + rewrite lookup_insert_ne in Ht1 by done. left. split; [done|]. by constructor.
  - simplify_eq. apply lookup_delete_Some in Ht1 as [Hne Ht1]. left. split; [done|]. by constructor.
  - case_decide; simplify_eq. left. split; [done|]. constructor; [by intros []|done].
Qed.

(** ** The interface *)

(** A run of a relation that shows events, and everything it shows. *)
Inductive run {S} (shows : S → list fwd_event → S → Prop) : S → list fwd_event → S → Prop :=
| run_nil s : run shows s [] s
| run_step s s1 s' es es' : shows s es s1 → run shows s1 es' s' → run shows s (es ++ es') s'.

(** What an executor shows, its table allows. *)
Class ForwardTable {S : Type} (shows : S → list fwd_event → S → Prop) := {
  table_of : S → table;
  shows_allowed s es s' : shows s es s' → replay es (table_of s) = Some (table_of s');
}.

Section Promise.
Context {S : Type} (shows : S → list fwd_event → S → Prop) `{!ForwardTable shows}.

Lemma run_replay s es s' : run shows s es s' → replay es (table_of s) = Some (table_of s').
Proof.
  induction 1 as [s|s s1 s' es es' Hs _ IH]; [done|].
  rewrite replay_app, (shows_allowed s es s1 Hs). apply IH.
Qed.

(** Every connection accepted in a run from a state without forwards follows the
    start of its forward, with nothing between that touches it. *)
Lemma accepted_after_start s es1 token r o es2 s' :
  table_of s = ∅ → run shows s (es1 ++ Accepted token r o :: es2) s' →
  ∃ before since, es1 = before ++ Started token r :: since ∧
    Forall (λ e, ¬ touches token e) since.
Proof.
  intros H0 Hr%run_replay. rewrite replay_app, H0 in Hr.
  destruct (replay es1 ∅) as [t|] eqn:E; [|done]. cbn in Hr.
  case_decide as Ht; [|done].
  destruct (replay_entry es1 ∅ t token r E Ht) as [[Hn _]|H]; [by rewrite lookup_empty in Hn|done].
Qed.
End Promise.

(** ** The executor process *)

Import Framing Executor.

(** What a step of the control channel shows, and a dispatched event: a call that
    cancels, an answer that registers, a connection whose channel is opened. *)
Definition call_shows (k : call) : list fwd_event :=
  match k with CallCancel token => [Cancelled token] | _ => [] end.
Definition register_shows (session : Z) (address : str) (token : Z) (r : ExecutorResponse)
  : list fwd_event :=
  match r with
  | RequestOk _ (BoundPort port) =>
      [Started token {| session_handle := session; connected_address := address; connected_port := port |}]
  | _ => []
  end.

Section Control.
Context {request_serde : Serde ExecutorRequest} {response_serde : Serde ExecutorResponse}.

Inductive control_shows : system → list fwd_event → system → Prop :=
| shows_turn s s' : turn s s' → control_shows s [] s'
| shows_call k fd os s :
    next_request_id (inner s) < u64_max → (is_ok os = true → serving s = true) →
    control_shows s (call_shows k) (make_call k fd os s)
| shows_incoming token a port fd out s :
    serving s = true → is_Some (tasks (executor s) !! token) →
    control_shows s [] (report_incoming token a port fd out s)
| shows_receive_fails e s :
    listening s = true → control_shows s [] (receive (Err e) [] (sent s) s)
| shows_read_fails e s :
    reader_running s = true → control_shows s [] (read_response (Err e) (responses s) s)
| shows_register session address token w r s :
    (w, r) ∈ answered s →
    control_shows s (register_shows session address token r) (register session address token r s)
| shows_dispatch ev stream opened session address port a p s :
    dispatch_remote_forward_event ev stream opened (inner s) = Ok (session, address, port, a, p) →
    control_shows s
      [Accepted (event_token ev)
         {| session_handle := session; connected_address := address; connected_port := port |} (a, p)] s.

Lemma read_keeps_registrations p rest s :
  registrations (inner (read_response p rest s)) = registrations (inner s).
Proof.
  unfold read_response. destruct (reader_turn (recv p) (inner s)) as [[[c handed] evs] running] eqn:E. cbn.
  unfold reader_turn in E. repeat case_match; by simplify_eq.
Qed.

Lemma receive_keeps_inner p taken rest s : inner (receive p taken rest s) = inner s.
Proof. unfold receive. by destruct (recv p). Qed.

Lemma turn_keeps_registrations s s' : turn s s' → registrations (inner s') = registrations (inner s).
Proof.
  intros Ht. destruct Ht as [r p rest s Hl Hsent|m rest os out s Hv Hr|s Hv Hl Hr|m p rest s Hrun Hres|s Hrun Hv Hres].
  - by rewrite receive_keeps_inner.
  - unfold execute. destruct (handle_request _ _ _ _) as [[st es] resp]. by destruct (send resp None out).
  - done.
  - apply read_keeps_registrations.
  - apply read_keeps_registrations.
Qed.

Lemma control_shows_allowed s es s' :
  control_shows s es s' → replay es (registrations (inner s)) = Some (registrations (inner s')).
Proof.
  destruct 1 as [s s' Ht|k fd os s _ _|token a port fd out s _ _|e s _|e s _|session address token w r s Hw
    |ev stream opened session address port a p s H].
  - cbn. by rewrite (turn_keeps_registrations s s' Ht).
  - unfold make_call.
    assert (∀ r w sent c, registrations (request r w sent c).1 = registrations c) as Hreq.
    { intros r w st c. unfold request. destruct (request_id r), st; done. }
    destruct (begin_call k (inner s)) as [c r] eqn:E. destruct (send r fd os) as [p outcome].
    pose proof (Hreq r (next_waiter s) outcome c) as Hc.
    destruct (request r (next_waiter s) outcome c) as [c' res]. cbn in Hc |- *. rewrite Hc.
    by destruct k; cbn in E; simplify_eq.
  - done.
  - by rewrite receive_keeps_inner.
  - cbn [replay]. by rewrite read_keeps_registrations.
  - unfold register_shows, register. by destruct r as [|id [|port]|id m|t a p].
  - unfold dispatch_remote_forward_event in H.
    destruct (registrations (inner s) !! event_token ev) as [reg|] eqn:E; [|done].
    destruct (tcp_stream_from_fd stream), opened; try done. cbn in H. simplify_eq. cbn.
    rewrite decide_True; [done|]. by destruct reg.
Qed.

#[global] Instance control_forward_table : ForwardTable control_shows := {|
  table_of s := registrations (inner s);
  shows_allowed := control_shows_allowed;
|}.
End Control.

(** ** Witnesses *)

#[local] Existing Instances demo_request_serde demo_response_serde demo_request_laws
  demo_response_laws demo_request_prefix demo_response_prefix.

(** A forward is started, a connection comes in and is dispatched. *)
Definition demo_request : ExecutorRequest := StartRemoteForward 1 1 (lit "127.0.0.1") 0.
Definition demo_answer : ExecutorResponse := RequestOk 1 (BoundPort 4022).
Definition demo_called : system :=
  make_call (CallForward (lit "127.0.0.1") 0) None (Ok tt) (spawn demo_hello demo_os).
Definition demo_arrived : system := receive (Ok (packet_of demo_request None)) [demo_request] [] demo_called.
Definition demo_bound : system :=
  execute {| message := demo_request; attached_fd := None |} [] demo_os (Ok tt) demo_arrived.
Definition demo_told : system := read_response (Ok (packet_of demo_answer None)) [] demo_bound.
Definition demo_registered : system :=
  register 7 (lit "localhost") 1 demo_answer demo_told.
Definition demo_event : RemoteForwardEvent :=
  {| event_token := 1; event_address := lit "10.0.0.9"; event_port := 5555; stream_fd := 12 |}.
Definition demo_stream : stream_answers := {| set_nonblocking := Ok tt; from_std := Ok tt |}.
Definition demo_reg : registration :=
  {| session_handle := 7; connected_address := lit "localhost"; connected_port := 4022 |}.

Lemma demo_called_turn : turn demo_called demo_arrived.
Proof. by eapply (turn_receive demo_request). Qed.
Lemma demo_arrived_turn : turn demo_arrived demo_bound.
Proof.
  apply (turn_execute {| message := demo_request; attached_fd := None |} [] demo_os (Ok tt));
    vm_compute; reflexivity.
Qed.
Lemma demo_bound_turn : turn demo_bound demo_told.
Proof. apply (turn_read demo_answer (packet_of demo_answer None) []); vm_compute; reflexivity. Qed.

Lemma demo_forward_run :
  run control_shows (spawn demo_hello demo_os)
    [Started 1 demo_reg; Accepted 1 demo_reg (lit "10.0.0.9", 5555)] demo_registered.
Proof.
  apply (run_step _ _ demo_called _ []); [by apply (shows_call (CallForward (lit "127.0.0.1") 0) None (Ok tt))|].
  apply (run_step _ _ demo_arrived _ []); [apply shows_turn, demo_called_turn|].
  apply (run_step _ _ demo_bound _ []); [apply shows_turn, demo_arrived_turn|].
  apply (run_step _ _ demo_told _ []); [apply shows_turn, demo_bound_turn|].
  apply (run_step _ _ demo_registered _ [Started 1 demo_reg]).
  { apply (shows_register 7 (lit "localhost") 1 0 demo_answer). vm_compute. apply list_elem_of_here. }
  apply (run_step _ _ demo_registered _ [Accepted 1 demo_reg (lit "10.0.0.9", 5555)]); [|constructor].
  apply (shows_dispatch demo_event demo_stream (Ok tt) 7 (lit "localhost") 4022). vm_compute. reflexivity.
Qed.

(** ** A connection that comes before the registration

    The executor accepts connections from the moment it has bound the port; the
    client records the forward only when the task that asked for it goes on.  A
    connection that is dispatched in between is refused, although the port was
    open and the forward comes up. *)

Definition demo_incoming : ExecutorResponse := RemoteForwardIncoming 1 (lit "10.0.0.9") 5555.
Definition demo_early : system := report_incoming 1 (lit "10.0.0.9") 5555 12 (Ok tt) demo_bound.
Definition demo_early_told : system :=
  read_response (Ok (packet_of demo_answer None)) [(demo_incoming, packet_of demo_incoming (Some 12))]
    demo_early.

Lemma demo_early_reachable : rtc step (spawn demo_hello demo_os) demo_early_told.
Proof.
  eapply rtc_l; [by apply (step_call (CallForward (lit "127.0.0.1") 0) None (Ok tt))|].
  eapply rtc_l; [apply step_turn, demo_called_turn|].
  eapply rtc_l; [apply step_turn, demo_arrived_turn|].
  eapply rtc_l; [apply (step_incoming 1 (lit "10.0.0.9") 5555 12 (Ok tt) demo_bound);
    [vm_compute; reflexivity|by eexists; vm_compute]|].
  eapply rtc_l; [apply step_turn, (turn_read demo_answer (packet_of demo_answer None)
    [(demo_incoming, packet_of demo_incoming (Some 12))] demo_early); vm_compute; reflexivity|].
  apply rtc_refl.
Qed.

(** The caller has its answer, the next packet is the connection, the reader
    passes it on, and the dispatcher does not know its token; once the caller has
    registered the forward, the same event is accepted. *)
Theorem early_connections_are_refused :
  ∃ s, rtc step (spawn demo_hello demo_os) s ∧
    answered s = [(0, demo_answer)] ∧
    (reader_turn (recv (Ok (packet_of demo_incoming (Some 12)))) (inner s)).1.2 = [demo_event] ∧
    dispatch_remote_forward_event demo_event demo_stream (Ok tt) (inner s)
    = Err [Msg (lit "unknown remote-forward token 1")] ∧
    is_ok (dispatch_remote_forward_event demo_event demo_stream (Ok tt)
      (inner (register 7 (lit "localhost") 1 demo_answer s))) = true.
Proof.
  exists demo_early_told. split; [exact demo_early_reachable|]. by vm_compute.
Qed.

End Forwarding.
