(* ===== verification/InProcess.v ===== *)
(** * The in-process executor (src/src/executor.rs, targets other than Unix)

    Without a separate process each service is a task of the daemon, and the
    daemon itself listens for remote forwards.  A start takes its token, waits
    for the listener and only then registers: the state keeps the starts that
    wait, the tokens whose accept loop lives, the channels being opened and what
    was opened.  Steps are the stretches between two waits. *)

From S2P Require Import Prelude Rust Config Session Framing Process Executor Forwarding.

Local Open Scope Z_scope.

Module InProcess.
Import Forwarding.

(** ** State *)

Record ExecutorClientInner := {
  hello : Process.ExecutorHello;
  next_forward_token : Z;
  remote_forward_regs : gmap Z registration;
  remote_forwards : gset Z;
}.

Definition spawn_client (shell : str) (m : Config.ExecMode) (home : str) : ExecutorClientInner := {|
  hello := {| Process.hello_home_dir := home; Process.hello_shell := shell; Process.hello_exec_mode := m |};
  next_forward_token := 1; remote_forward_regs := ∅; remote_forwards := ∅;
|}.

(** The arguments of [start_remote_forward] once the token is taken. *)
Record start := {
  token : Z; session : Z; address : str; bind_address : str; bind_port : Z;
}.

#[global] Instance start_eq_dec : EqDecision start.
Proof. solve_decision. Defined.

(** What a task of the daemon serves on its end of a stream. *)
Inductive service :=
| PtyProcess (c : Process.child_command) (pty : Session.PtyRequest)
| PipedProcess (c : Process.child_command)
| SftpServer (root : str)
| TcpProxy (host : str) (port : Z).

Record system := {
  client : ExecutorClientInner;
  binding : list start;
  accepting : gset Z;
  opening : list (registration * origin);
  opened : list (Z * str * Z * str * Z);
  services : list service;
}.

Definition spawn (shell : str) (m : Config.ExecMode) (home : str) : system := {|
  client := spawn_client shell m home; binding := []; accepting := ∅; opening := []; opened := [];
  services := [];
|}.

(** ** Operations *)

(** The services that need no registration: the stream is there whether or not
    the task that serves it gets anywhere; only a TCP target is connected first. *)
Definition start_process (r : Session.ProcessRequest) (s : system) : system * result anyhow unit :=
  let c := Process.service_command (hello (client s)) r in
  ({| client := client s; binding := binding s; accepting := accepting s; opening := opening s;
      opened := opened s;
      services := services s ++ [match Session.request_pty r with
                                 | Some pty => PtyProcess c pty
                                 | None => PipedProcess c
                                 end] |}, Ok tt).

Definition start_sftp (s : system) : system * result anyhow unit :=
  ({| client := client s; binding := binding s; accepting := accepting s; opening := opening s;
      opened := opened s;
      services := services s ++ [SftpServer (Process.hello_home_dir (hello (client s)))] |}, Ok tt).

Definition connect_tcp (host : str) (port : Z) (connected : result io_error unit) (s : system)
  : system * result anyhow unit :=
  match with_context (lit "failed to connect to " ++ host ++ lit ":" ++ dec port) (io_result connected) with
  | Err e => (s, Err e)
  | Ok _ =>
      ({| client := client s; binding := binding s; accepting := accepting s; opening := opening s;
          opened := opened s; services := services s ++ [TcpProxy host port] |}, Ok tt)
  end.

(** [start_remote_forward] up to its wait for the listener. *)
Definition begin_forward (session : Z) (address bind_address : str) (bind_port : Z) (s : system)
  : system * start :=
  let c := client s in
  let st := {| token := next_forward_token c; session := session; address := address;
               bind_address := bind_address; bind_port := bind_port |} in
  ({| client := {| hello := hello c;
                   next_forward_token := wrapping_add u64_max (next_forward_token c) 1;
                   remote_forward_regs := remote_forward_regs c;
                   remote_forwards := remote_forwards c |};
      binding := binding s ++ [st]; accepting := accepting s; opening := opening s;
      opened := opened s; services := services s |}, st).

Definition registration_of (st : start) (port : Z) : registration := {|
  Executor.session_handle := session st; Executor.connected_address := address st;
  Executor.connected_port := port;
|}.

Definition drop_start (st : start) (s : system) : system :=
  {| client := client s; binding := List.remove start_eq_dec st (binding s); accepting := accepting s;
     opening := opening s; opened := opened s; services := services s |}.

(** The rest of it, on what the listener said. *)
Definition finish_forward (st : start) (bound : result io_error unit) (local_port : result io_error Z)
  (s : system) : system * result anyhow (Z * Z) :=
  let s := drop_start st s in
  match
    _ ← with_context (lit "failed to bind remote forward " ++ bind_address st ++ lit ":"
                      ++ dec (bind_port st)) (io_result bound);
    with_context (lit "failed to inspect remote-forward listener address") (io_result local_port)
  with
  | Err e => (s, Err e)
  | Ok port =>
      let c := client s in
      ({| client := {| hello := hello c; next_forward_token := next_forward_token c;
                       remote_forward_regs :=
                         <[token st := registration_of st port]> (remote_forward_regs c);
                       remote_forwards := {[token st]} ∪ remote_forwards c |};
          binding := binding s; accepting := {[token st]} ∪ accepting s; opening := opening s;
          opened := opened s; services := services s |}, Ok (token st, port))
  end.

Definition cancel_remote_forward (t : Z) (s : system) : system * result anyhow unit :=
  let c := client s in
  ({| client := {| hello := hello c; next_forward_token := next_forward_token c;
                   remote_forward_regs := delete t (remote_forward_regs c);
                   remote_forwards := remote_forwards c ∖ {[t]} |};
      binding := binding s;
      accepting := if decide (t ∈ remote_forwards c) then accepting s ∖ {[t]} else accepting s;
      opening := opening s; opened := opened s; services := services s |}, Ok tt).

Definition end_accepting (t : Z) (s : system) : system :=
  {| client := client s; binding := binding s; accepting := accepting s ∖ {[t]};
     opening := opening s; opened := opened s; services := services s |}.

(** One turn of the accept loop of a forward. *)
Definition accept_turn (t : Z) (accepted : result io_error origin) (s : system) : system :=
  match accepted with
  | Err _ => end_accepting t s
  | Ok o =>
      match remote_forward_regs (client s) !! t with
      | None => end_accepting t s
      | Some reg =>
          {| client := client s; binding := binding s; accepting := accepting s;
             opening := opening s ++ [(reg, o)]; opened := opened s; services := services s |}
      end
  end.

(** The channel asked of the session for an accepted connection. *)
Definition channel_of (reg : registration) (o : origin) : Z * str * Z * str * Z :=
  (Executor.session_handle reg, Executor.connected_address reg, Executor.connected_port reg, o.1, o.2).

(** The task of one accepted connection, on the session's answer. *)
Definition open_channel (reg : registration) (o : origin) (rest : list (registration * origin))
  (answer : result anyhow unit) (s : system) : system :=
  {| client := client s; binding := binding s; accepting := accepting s; opening := rest;
     opened := match answer with Ok _ => opened s ++ [channel_of reg o] | Err _ => opened s end;
     services := services s |}.

(** ** Steps *)

(** What a finished start and an accept turn show. *)
Definition finish_shows (st : start) (r : result anyhow (Z * Z)) : list fwd_event :=
  match r with Ok (t, port) => [Started t (registration_of st port)] | Err _ => [] end.
Definition accept_shows (t : Z) (accepted : result io_error origin) (s : system) : list fwd_event :=
  match accepted, remote_forward_regs (client s) !! t with
  | Ok o, Some reg => [Accepted t reg o]
  | _, _ => []
  end.

(** A start while fewer than 2^64 were made; a start may be given up while it
    waits.  The tasks that open channels may be overtaken by each other. *)
Inductive step : system → list fwd_event → system → Prop :=
| step_process r s : step s [] (start_process r s).1
| step_sftp s : step s [] (start_sftp s).1
| step_connect host port connected s : step s [] (connect_tcp host port connected s).1
| step_begin session address a p s :
    next_forward_token (client s) < u64_max → step s [] (begin_forward session address a p s).1
| step_give_up st s : st ∈ binding s → step s [] (drop_start st s)
| step_finish st bound local_port s :
    st ∈ binding s →
    step s (finish_shows st (finish_forward st bound local_port s).2)
      (finish_forward st bound local_port s).1
| step_cancel t s : step s [Cancelled t] (cancel_remote_forward t s).1
| step_accept t accepted s :
    t ∈ accepting s → step s (accept_shows t accepted s) (accept_turn t accepted s)
| step_open reg o l1 l2 answer s :
    opening s = l1 ++ (reg, o) :: l2 → step s [] (open_channel reg o (l1 ++ l2) answer s).

(** The in-process executor keeps the abstract table. *)
Lemma step_allowed s es s' :
  step s es s' → replay es (remote_forward_regs (client s)) = Some (remote_forward_regs (client s')).
Proof.
  destruct 1 as [r s|s|host port connected s|session address a p s Hlt|st s Hin|st bound local_port s Hin
    |t s|t accepted s Hin|reg o l1 l2 answer s Ho]; try done.
  - unfold connect_tcp. by destruct connected.
  - unfold finish_forward, finish_shows. by destruct bound, local_port.
  - unfold accept_shows, accept_turn. destruct accepted as [o|e]; [|done].
    destruct (remote_forward_regs (client s) !! t) as [reg|] eqn:E; [|done]. cbn. by rewrite decide_True.
Qed.

#[global] Instance inprocess_forward_table : ForwardTable step := {|
  table_of s := remote_forward_regs (client s);
  shows_allowed := step_allowed;
|}.

(** ** Invariant *)

Record system_inv (s : system) : Prop := {
  next_range : 1 ≤ next_forward_token (client s) ≤ u64_max;
  binding_below st : st ∈ binding s →
    token st < next_forward_token (client s) ∧ remote_forward_regs (client s) !! token st = None;
  binding_distinct : NoDup (token <$> binding s);
  regs_below t r : remote_forward_regs (client s) !! t = Some r → t < next_forward_token (client s);
  regs_tasks : dom (remote_forward_regs (client s)) = remote_forwards (client s);
  accepting_tasks : accepting s ⊆ remote_forwards (client s);
}.

Lemma elem_of_remove_start (st st' : start) l :
  st' ∈ List.remove start_eq_dec st l ↔ st' ∈ l ∧ st' ≠ st.
Proof. rewrite !list_elem_of_In. split; [apply in_remove|intros [??]; by apply in_in_remove]. Qed.

Lemma NoDup_remove_start (st : start) l :
  NoDup (token <$> l) → NoDup (token <$> List.remove start_eq_dec st l).
Proof.
  induction l as [|x l IH]; cbn; [done|]. intros [Hx Hl]%NoDup_cons.
  destruct (start_eq_dec st x); [by apply IH|]. cbn. apply NoDup_cons. split; [|by apply IH].
  intros (y & Hy & [Hin _]%elem_of_remove_start)%list_elem_of_fmap. apply Hx. rewrite Hy.
  by apply list_elem_of_fmap_2.
Qed.

(** Starts that wait have tokens of their own. *)
Lemma binding_token_inj s st st' :
  system_inv s → st ∈ binding s → st' ∈ binding s → token st = token st' → st = st'.
Proof.
  intros Hi Hs Hs' Ht. pose proof (binding_distinct s Hi) as Hn.
  apply list_elem_of_lookup in Hs as [i Hs]. apply list_elem_of_lookup in Hs' as [j Hs'].
  assert (i = j) as ->; [|congruence].
  eapply (NoDup_lookup _ _ _ (token st)); [exact Hn|..]; rewrite list_lookup_fmap;
    [by rewrite Hs|rewrite Hs'; cbn; by rewrite Ht].
Qed.

Lemma drop_start_inv st s : system_inv s → system_inv (drop_start st s).
Proof.
  intros []. split; cbn; try done.
  - intros st' [? _]%elem_of_remove_start. auto.
  - by apply NoDup_remove_start.
Qed.

Lemma finish_forward_inv st bound local_port s :
  system_inv s → st ∈ binding s → system_inv (finish_forward st bound local_port s).1.
Proof.
  intros Hi Hin. unfold finish_forward.
  destruct bound as [[]|e], local_port as [port|e']; cbn -[drop_start]; try by apply drop_start_inv.
  destruct (binding_below s Hi st Hin) as [Hlt Hnone].
  pose proof (binding_token_inj s st) as Hinj. apply (drop_start_inv st) in Hi as Hd.
  destruct Hd. split; cbn; try done.
  - intros st' [Hst' Hne]%elem_of_remove_start. destruct (binding_below0 st') as [? ?];
      [by apply elem_of_remove_start|]. split; [done|].
    rewrite lookup_insert_ne; [done|]. intros Ht. apply Hne. symmetry. by apply Hinj.
  - intros t r. rewrite lookup_insert_Some. intros [[<- _]|[_ ?]]; [done|by eapply regs_below0].
  - rewrite dom_insert_L. cbn in regs_tasks0. set_solver.
  - cbn in accepting_tasks0. set_solver.
Qed.

Lemma inprocess_step_inv s es s' : step s es s' → system_inv s → system_inv s'.
Proof.
  destruct 1 as [r s|s|host port connected s|session address a p s Hlt|st s Hin|st bound local_port s Hin
    |t s|t accepted s Hin|reg o l1 l2 answer s Ho]; intros Hi.
  - by destruct Hi.
  - by destruct Hi.
  - unfold connect_tcp. destruct connected; by destruct Hi.
  - destruct Hi. assert (wrapping_add u64_max (next_forward_token (client s)) 1
      = next_forward_token (client s) + 1) as E by (apply wrapping_add_small; lia).
    split; cbn; rewrite ?E; [lia| | | |done|done].
    + intros st [[? ?]%binding_below0| ->%list_elem_of_singleton]%elem_of_app; [split; [lia|done]|].
      cbn. split; [lia|]. destruct (_ !! _) as [r|] eqn:Hr; [|done]. apply regs_below0 in Hr. lia.
    + rewrite fmap_app. apply NoDup_app. split_and!; [done| |apply NoDup_singleton].
      intros t (st & -> & [? _]%binding_below0)%list_elem_of_fmap. cbn. rewrite list_elem_of_singleton. lia.
    + intros t r Hr%regs_below0. lia.
  - by apply drop_start_inv.
  - by apply finish_forward_inv.
  - destruct Hi. split; cbn; try done.
    + intros st [? ?]%binding_below0. split; [done|]. by apply lookup_delete_None; right.
    + intros t' r [_ ?]%lookup_delete_Some. by eapply regs_below0.
    + rewrite dom_delete_L. set_solver.
    + case_decide; set_solver.
  - unfold accept_turn, end_accepting. destruct Hi.
    destruct accepted; [destruct (_ !! t)|]; split; cbn; try done; set_solver.
  - by destruct Hi.
Qed.

Lemma inprocess_spawn_inv shell m home : system_inv (spawn shell m home).
Proof. split; cbn; try done; [intros st ?; set_solver|apply NoDup_nil_2]. Qed.

Lemma run_inv s es s' : run step s es s' → system_inv s → system_inv s'.
Proof. induction 1 as [|s s1 s' es es' H _ IH]; [done|]. intros. by eapply IH, inprocess_step_inv. Qed.

(** ** Traces *)

Definition started_token (e : fwd_event) : option Z :=
  match e with Started t _ => Some t | _ => None end.
Definition started (es : list fwd_event) : list Z := omap started_token es.

(** A token is started by a start that waits, which then is gone, or comes later. *)
Lemma step_started s es s' :
  step s es s' → system_inv s →
  next_forward_token (client s) ≤ next_forward_token (client s') ∧
  (started es = [] ∧
   (∀ st, st ∈ binding s' → st ∈ binding s ∨ next_forward_token (client s) ≤ token st) ∨
   ∃ st, started es = [token st] ∧ st ∈ binding s ∧
         binding s' = List.remove start_eq_dec st (binding s) ∧
         next_forward_token (client s') = next_forward_token (client s)).
Proof.
  destruct 1 as [r s|s|host port connected s|session address a p s Hlt|st s Hin|st bound local_port s Hin
    |t s|t accepted s Hin|reg o l1 l2 answer s Ho]; intros Hi;
    try (split; [done|]; left; split; [done|by left]).
  - unfold connect_tcp. destruct connected; (split; [done|]; left; split; [done|by left]).
  - pose proof (next_range s Hi). assert (wrapping_add u64_max (next_forward_token (client s)) 1
      = next_forward_token (client s) + 1) as E by (apply wrapping_add_small; lia).
    cbn. rewrite E. split; [lia|]. left. split; [done|].
    intros st [?| ->%list_elem_of_singleton]%elem_of_app; [by left|right; done].
  - split; [done|]. left. split; [done|]. intros st' [? _]%elem_of_remove_start. by left.
  - unfold finish_forward, finish_shows. destruct bound as [[]|e], local_port as [port|e']; cbn -[drop_start];
      (split; [done|]); try (left; split; [done|]; intros st' [? _]%elem_of_remove_start; by left).
    right. by exists st.
  - unfold accept_shows, accept_turn. destruct accepted as [o|e]; [destruct (_ !! t) eqn:E|];
      (split; [done|]; left; split; [done|by left]).
Qed.

(** No token is started twice. *)
Lemma run_started s es s' :
  run step s es s' → system_inv s →
  NoDup (started es) ∧
  ∀ t, t ∈ started es → (∃ st, st ∈ binding s ∧ token st = t) ∨ next_forward_token (client s) ≤ t.
Proof.
  unfold started. induction 1 as [s|s s1 s' es es' Hs _ IH]; intros Hi.
  { split; [apply NoDup_nil_2|]. intros t H. by apply elem_of_nil in H. }
  destruct (IH (inprocess_step_inv _ _ _ Hs Hi)) as [Hn Hb]. rewrite omap_app.
  destruct (step_started s es s1 Hs Hi) as [Hle [[E Hst]|(st & E & Hin & Hrm & Hnext)]];
    unfold started in E; rewrite E; cbn [app].
  - split; [done|]. intros t Ht. destruct (Hb t Ht) as [(st & Hst1 & <-)|?]; [|right; lia].
    destruct (Hst st Hst1); [left; by exists st|by right].
  - split.
    + apply NoDup_cons. split; [|done]. intros Ht. destruct (Hb _ Ht) as [(st' & Hst' & Heq)|Hge].
      * rewrite Hrm in Hst'. apply elem_of_remove_start in Hst' as [? Hne]. apply Hne.
        by apply (binding_token_inj s).
      * destruct (binding_below s Hi st Hin). lia.
    + intros t [->|Ht]%elem_of_cons; [left; by exists st|].
      destruct (Hb t Ht) as [(st' & Hst' & <-)|?]; [|right; lia].
      rewrite Hrm in Hst'. apply elem_of_remove_start in Hst' as [? _]. left. by exists st'.
Qed.

(** What is being opened, and what was, goes back to an accepted connection. *)
Definition accepted_in (es : list fwd_event) (reg : registration) (o : origin) : Prop :=
  ∃ t, Accepted t reg o ∈ es.

Lemma step_channels s es s' :
  step s es s' →
  (∀ reg o, (reg, o) ∈ opening s' → (reg, o) ∈ opening s ∨ accepted_in es reg o) ∧
  (∀ ch, ch ∈ opened s' → ch ∈ opened s ∨ ∃ reg o, ch = channel_of reg o ∧ (reg, o) ∈ opening s).
Proof.
  destruct 1 as [r s|s|host port connected s|session address a p s Hlt|st s Hin|st bound local_port s Hin
    |t s|t accepted s Hin|reg o l1 l2 answer s Ho]; try (split; by left).
  - unfold connect_tcp. destruct connected; split; by left.
  - unfold finish_forward. destruct bound, local_port; split; by left.
  - unfold accept_turn, accept_shows. destruct accepted as [o|e]; [|split; by left].
    destruct (remote_forward_regs (client s) !! t) as [reg|] eqn:E; [|split; by left].
    split; [|by left]. intros reg' o' [?|[= -> ->]%list_elem_of_singleton]%elem_of_app; [by left|right].
    exists t. apply list_elem_of_here.
  - split; cbn.
    + intros reg' o' H. left. rewrite Ho. set_solver.
    + intros ch H. destruct answer; [|by left].
      apply elem_of_app in H as [?| ->%list_elem_of_singleton]; [by left|right].
      exists reg, o. rewrite Ho. set_solver.
Qed.

Lemma run_channels s es s' :
  run step s es s' →
  (∀ reg o, (reg, o) ∈ opening s' → (reg, o) ∈ opening s ∨ accepted_in es reg o) ∧
  (∀ ch, ch ∈ opened s' → ch ∈ opened s ∨
     ∃ reg o, ch = channel_of reg o ∧ ((reg, o) ∈ opening s ∨ accepted_in es reg o)).
Proof.
  induction 1 as [s|s s1 s' es es' Hs _ [IH1 IH2]]; [by split; auto|].
  destruct (step_channels _ _ _ Hs) as [H1 H2].
  assert (Hap : ∀ reg o, accepted_in es reg o ∨ accepted_in es' reg o → accepted_in (es ++ es') reg o).
  { intros reg o [[t Ht]|[t Ht]]; exists t; set_solver. }
  assert (Hop : ∀ reg o, (reg, o) ∈ opening s1 ∨ accepted_in es' reg o →
            (reg, o) ∈ opening s ∨ accepted_in (es ++ es') reg o) by naive_solver.
  split; [auto|]. intros ch [Hch|(reg & o & -> & Hch)]%IH2.
  - destruct (H2 ch Hch) as [?|(reg & o & -> & ?)]; [by left|right]. exists reg, o. auto.
  - right. exists reg, o. split; [done|]. auto.
Qed.

(** ** Properties *)

(** C29: the in-process executor's forwards: no token is used twice; a cancelled
    forward accepts no connection any more; every channel opened on a session
    goes back to a connection accepted for a forward, with the address and port
    that forward was registered with; and a live accept loop always finds its
    registration, so that it ends only with its listener or its cancellation. *)
Theorem inprocess_forwards_are_sound shell m home es s :
  run step (spawn shell m home) es s →
  NoDup (started es) ∧
  (∀ es1 t es2, es = es1 ++ Cancelled t :: es2 → t ∈ started es1 →
     ∀ r o, Accepted t r o ∉ es2) ∧
  (∀ ch, ch ∈ opened s → ∃ t reg o, ch = channel_of reg o ∧ Accepted t reg o ∈ es) ∧
  (∀ t, t ∈ accepting s → is_Some (remote_forward_regs (client s) !! t)).
Proof.
  intros Hr. pose proof (run_started _ _ _ Hr (inprocess_spawn_inv shell m home)) as [Hn _].
  pose proof (run_inv _ _ _ Hr (inprocess_spawn_inv shell m home)) as Hi. split_and!; [done|..].
  - intros es1 t es2 -> Ht r o (a & b & ->)%list_elem_of_split.
    apply (run_replay step) in Hr. cbn [table_of inprocess_forward_table] in Hr. cbn [spawn client spawn_client remote_forward_regs] in Hr.
    rewrite replay_app in Hr. destruct (replay es1 ∅) as [t1|]; [|done]. cbn in Hr.
    rewrite replay_app in Hr. destruct (replay a (delete t t1)) as [t2|] eqn:E; [|done]. cbn in Hr.
    case_decide as Hl; [|done]. destruct (replay_entry _ _ _ _ _ E Hl) as [[Hd _]|(a1 & a2 & -> & _)].
    + by rewrite lookup_delete_eq in Hd.
    + unfold started in Hn, Ht. rewrite omap_app in Hn. apply NoDup_app in Hn as (_ & Hn & _).
      apply (Hn t Ht). cbn. rewrite !omap_app. set_solver.
  - intros ch Hch. destruct (proj2 (run_channels _ _ _ Hr) ch Hch) as [H|(reg & o & -> & [H|[t Ht]])];
      [by apply elem_of_nil in H..|]. by exists t, reg, o.
  - intros t Ht%(accepting_tasks s Hi). rewrite <- (regs_tasks s Hi) in Ht. by apply elem_of_dom.
Qed.

(** A forward that is up serves the connections it gets.  After a start whose
    listener came up, the next connection is offered to the session that asked,
    with the port that was bound, until the forward is cancelled. *)
Theorem inprocess_forward_serves st port s o :
  let s1 := (finish_forward st (Ok tt) (Ok port) s).1 in
  (finish_forward st (Ok tt) (Ok port) s).2 = Ok (token st, port) ∧
  token st ∈ accepting s1 ∧
  accept_shows (token st) (Ok o) s1 = [Accepted (token st) (registration_of st port) o] ∧
  opening (accept_turn (token st) (Ok o) s1) = opening s1 ++ [(registration_of st port, o)] ∧
  token st ∉ accepting (cancel_remote_forward (token st) s1).1.
Proof.
  cbn. unfold accept_shows, accept_turn. cbn. rewrite lookup_insert_eq. cbn.
  split_and!; [done|set_solver|done|done|]. case_decide; set_solver.
Qed.


(** ** Witnesses *)


Definition demo : system := spawn (lit "cmd.exe") Config.Cmd (lit "C:\Users\alice").
Definition demo_start : start := {|
  token := 1; session := 7; address := lit "localhost"; bind_address := lit "127.0.0.1"; bind_port := 0;
|}.
Definition demo_begun : system := (begin_forward 7 (lit "localhost") (lit "127.0.0.1") 0 demo).1.
Definition demo_up : system := (finish_forward demo_start (Ok tt) (Ok 4022) demo_begun).1.
Definition demo_from : origin := (lit "10.0.0.9", 5555).
Definition demo_accepted : system := accept_turn 1 (Ok demo_from) demo_up.
Definition demo_opened : system :=
  open_channel (registration_of demo_start 4022) demo_from [] (Ok tt) demo_accepted.

Lemma demo_run :
  run step demo [Started 1 (registration_of demo_start 4022);
                 Accepted 1 (registration_of demo_start 4022) demo_from] demo_opened.
Proof.
  apply (run_step _ _ demo_begun _ []); [by apply (step_begin 7 (lit "localhost") (lit "127.0.0.1") 0)|].
  apply (run_step _ _ demo_up _ [Started 1 (registration_of demo_start 4022)]).
  { apply (step_finish demo_start (Ok tt) (Ok 4022)). apply list_elem_of_here. }
  apply (run_step _ _ demo_accepted _ [Accepted 1 (registration_of demo_start 4022) demo_from]).
  { apply (step_accept 1 (Ok demo_from)). vm_compute. reflexivity. }
  apply (run_step _ _ demo_opened _ []); [|constructor].
  by apply (step_open (registration_of demo_start 4022) demo_from [] []).
Qed.

Lemma inprocess_forwards_are_sound_witness :
  ∃ t reg o, (7, lit "localhost", 4022, lit "10.0.0.9", 5555) = channel_of reg o ∧
    Accepted t reg o ∈ [Started 1 (registration_of demo_start 4022);
                        Accepted 1 (registration_of demo_start 4022) demo_from].
Proof.
  apply (inprocess_forwards_are_sound (lit "cmd.exe") Config.Cmd (lit "C:\Users\alice") _ demo_opened demo_run).
  vm_compute. apply list_elem_of_here.
Defined.

End InProcess.
