(* ===== verification/EndToEnd.v ===== *)
(** * From a client's request to the process it starts

    The session handler, the client of the executor, the control channel and
    the executor process, composed: one call sent on a quiet channel, handled by
    the executor, answered and read; the session's reply to its client is the
    answer of that call.  The in-process executor is compared with the executor
    process on the same requests. *)

From S2P Require Import Prelude Rust Config Session Framing Process Executor Forwarding InProcess.

Local Open Scope Z_scope.

Module EndToEnd.

Section Rounds.
Context {request_serde : Framing.Serde Executor.ExecutorRequest}
  {response_serde : Framing.Serde Executor.ExecutorResponse}.

(** A channel with nothing under way. *)
Definition quiet (s : Executor.system) : Prop :=
  Executor.sent s = [] ∧ Executor.received s = [] ∧ Executor.responses s = [] ∧
  Executor.listening s = true ∧ Executor.serving s = true ∧ Executor.reader_running s = true ∧
  Executor.next_request_id (Executor.inner s) < u64_max.

(** One call, start to end: it is sent with a descriptor, received, handled, and
    its response read. *)
Definition request_of (k : Executor.call) (s : Executor.system) : Executor.ExecutorRequest :=
  (Executor.begin_call k (Executor.inner s)).2.

Definition response_of (k : Executor.call) (fd : option Z) (os : Executor.os_answers) (s : Executor.system)
  : Executor.ExecutorResponse :=
  (Executor.handle_request (request_of k s) fd os (Executor.executor s)).2.

Definition effects_of (k : Executor.call) (fd : option Z) (os : Executor.os_answers) (s : Executor.system)
  : list Executor.executor_effect :=
  (Executor.handle_request (request_of k s) fd os (Executor.executor s)).1.2.

Definition round (k : Executor.call) (fd : option Z) (os : Executor.os_answers) (s : Executor.system)
  : Executor.system :=
  let r := request_of k s in
  let s1 := Executor.make_call k fd (Ok tt) s in
  let s2 := Executor.receive (Ok (Executor.packet_of r fd)) [r] [] s1 in
  let s3 := Executor.execute {| Executor.message := r; Executor.attached_fd := fd |} [] os (Ok tt) s2 in
  Executor.read_response (Ok (Executor.packet_of (response_of k fd os s) None)) [] s3.

(** ** Lemmas *)

Context {request_laws : Framing.SerdeLaws Executor.ExecutorRequest}
  {response_laws : Framing.SerdeLaws Executor.ExecutorResponse}.

(** A message that fits is sent, and arrives with its descriptor. *)
Lemma fits_sent {T} `{!Framing.Serde T, !Framing.SerdeLaws T} (m : T) fd :
  Executor.fits_control m →
  Executor.send m fd (Ok tt) = (Some (Executor.packet_of m fd), Ok tt) ∧
  Executor.recv (Ok (Executor.packet_of m fd))
  = Ok {| Executor.message := m; Executor.attached_fd := fd |}.
Proof.
  intros (v & Hv & Hne & Hlen). unfold Executor.packet_of.
  assert (Executor.send m fd (Ok tt)
    = (Some {| Executor.payload := v; Executor.fds := option_list fd |}, Ok tt)) as ->.
  { unfold Executor.send, Framing.encode_message. rewrite Hv. cbn. by destruct fd. }
  split; [done|]. cbn [fst default]. by apply Executor.recv_whole.
Qed.

(** The states a round goes through, when both messages fit. *)
Lemma round_states k fd os s :
  quiet s → 0 ≤ Executor.next_request_id (Executor.inner s) →
  Executor.fits_control (request_of k s) → Executor.fits_control (response_of k fd os s) →
  let r := request_of k s in
  let s1 := Executor.make_call k fd (Ok tt) s in
  let s2 := Executor.receive (Ok (Executor.packet_of r fd)) [r] [] s1 in
  let m := {| Executor.message := r; Executor.attached_fd := fd |} in
  let s3 := Executor.execute m [] os (Ok tt) s2 in
  Executor.sent s1 = [(r, Executor.packet_of r fd)] ∧ Executor.listening s1 = true ∧
  Executor.received s2 = [m] ∧ Executor.serving s2 = true ∧
  Executor.responses s3 = [(response_of k fd os s, Executor.packet_of (response_of k fd os s) None)] ∧
  Executor.reader_running s3 = true ∧ Executor.answered s3 = Executor.answered s ∧
  Executor.pending (Executor.inner s3) !! Executor.next_request_id (Executor.inner s)
  = Some (Executor.next_waiter s) ∧
  Executor.request_id r = Some (Executor.next_request_id (Executor.inner s)).
Proof.
  intros (Hs & Hr & Hrs & Hl & Hv & Hrun & Hlt) Hpos Hreq Hres. cbn zeta.
  destruct (fits_sent (request_of k s) fd Hreq) as [Hsend Hrecv].
  destruct (fits_sent (response_of k fd os s) None Hres) as [Hsend' _].
  unfold response_of, request_of in *. unfold Executor.make_call.
  destruct (Executor.begin_call k (Executor.inner s)) as [c r] eqn:E. cbn [snd] in *.
  destruct (Executor.begin_call_spec k _ _ _ E Hlt Hpos) as (Hid & Hp & _).
  rewrite Hsend. unfold Executor.request. rewrite Hid. cbn [is_ok].
  unfold Executor.receive. rewrite Hrecv. unfold Executor.execute.
  cbn [Executor.message Executor.attached_fd Executor.executor].
  destruct (Executor.handle_request r fd os (Executor.executor s)) as [[st es] m]. cbn [snd] in *.
  rewrite Hsend'. cbn. rewrite Hs, Hr, Hrs. split_and!; try done. by rewrite lookup_insert_eq.
Qed.

(** A round on a quiet channel is four steps of it, and hands its caller the
    response. *)
Lemma round_steps k fd os s :
  quiet s → 0 ≤ Executor.next_request_id (Executor.inner s) →
  Executor.fits_control (request_of k s) → Executor.fits_control (response_of k fd os s) →
  rtc Executor.step s (round k fd os s).
Proof.
  intros Hq Hpos Hreq Hres. pose proof (round_states k fd os s Hq Hpos Hreq Hres) as H. cbn zeta in H.
  destruct H as (H1 & H2 & H3 & H4 & H5 & H6 & _). destruct Hq as (_ & _ & _ & _ & Hv & _ & Hlt).
  unfold round. eapply rtc_l; [by apply (Executor.step_call k fd (Ok tt))|].
  eapply rtc_l; [by eapply Executor.step_turn, Executor.turn_receive|].
  eapply rtc_l; [by eapply Executor.step_turn, Executor.turn_execute|].
  eapply rtc_l; [by eapply Executor.step_turn, Executor.turn_read|]. apply rtc_refl.
Qed.

Lemma round_answers k fd os s :
  quiet s → 0 ≤ Executor.next_request_id (Executor.inner s) →
  Executor.fits_control (request_of k s) → Executor.fits_control (response_of k fd os s) →
  Executor.answered (round k fd os s)
  = Executor.answered s ++ [(Executor.next_waiter s, response_of k fd os s)].
Proof.
  intros Hq Hpos Hreq Hres. pose proof (round_states k fd os s Hq Hpos Hreq Hres) as H. cbn zeta in H.
  destruct H as (_ & _ & _ & _ & _ & _ & Ha & Hp & Hid). unfold round.
  destruct (fits_sent (response_of k fd os s) None Hres) as [_ Hrecv].
  unfold Executor.read_response. rewrite Hrecv. unfold Executor.reader_turn. cbn [Executor.message].
  pose proof (Executor.handle_request_id (request_of k s) fd os (Executor.executor s)) as Hrid.
  fold (response_of k fd os s) in Hrid. rewrite Hid in Hrid.
  destruct (response_of k fd os s) as [|id d|id e|t a port]; cbn in Hrid; try done; injection Hrid as ->;
    rewrite Hp; cbn [Executor.answered]; by rewrite Ha.
Qed.

Context {request_prefix : Executor.SerdePrefix Executor.ExecutorRequest}
  {response_prefix : Executor.SerdePrefix Executor.ExecutorResponse}.

(** The executor keeps the greeting it was given: no request of a caller is
    another one. *)
Lemma execute_keeps_greeting m rest os out s :
  Executor.system_inv s → Executor.received s = m :: rest →
  Executor.hello (Executor.executor (Executor.execute m rest os out s))
  = Executor.hello (Executor.executor s).
Proof.
  intros Hi Hreq.
  destruct (Executor.requests_issued s Hi (Executor.message m)) as [w Hw].
  { unfold Executor.unserved. rewrite Hreq. apply list_elem_of_here. }
  apply (Executor.issued_ids s Hi) in Hw as (id & Hid & _). unfold Executor.execute.
  assert (Executor.hello (Executor.handle_request (Executor.message m) (Executor.attached_fd m) os
            (Executor.executor s)).1.1 = Executor.hello (Executor.executor s)) as Hh.
  { destruct (Executor.message m) as [h'|id' p|id'|id' host port|id' t a p|id' t]; try done;
      cbn [Executor.handle_request]; try done.
    + unfold Executor.start_remote_forward.
      by destruct (Executor.bound os), (Executor.local_port os).
    + unfold Executor.cancel_remote_forward. by destruct (Executor.tasks (Executor.executor s) !! t). }
  destruct (Executor.handle_request _ _ _ _) as [[st es] resp]. by destruct (Executor.send resp None out).
Qed.

Lemma step_keeps_greeting s s' :
  Executor.system_inv s → Executor.step s s' →
  Executor.hello (Executor.executor s') = Executor.hello (Executor.executor s).
Proof.
  intros Hi Hstep. destruct Hstep as [s s' Ht|k fd os s _ _|token a port fd out s _ _|e s _|e s _
    |session address token w r s _];
    [destruct Ht as [r p rest s Hl Hs|m rest os out s Hv Hr|s _ _ _|m p rest s Hr Hres|s Hr _ _]|..]; try done.
  - unfold Executor.receive. by destruct (Executor.recv (Ok p)).
  - by apply execute_keeps_greeting.
  - unfold Executor.read_response. by destruct (Executor.reader_turn _ _) as [[[c handed] evs] running].
  - unfold Executor.make_call. destruct (Executor.begin_call k (Executor.inner s)) as [c r].
    destruct (Executor.send r fd os) as [p outcome]. by destruct (Executor.request r _ outcome c).
Qed.

Lemma greeting_kept h os s :
  rtc Executor.step (Executor.spawn h os) s → Executor.hello (Executor.executor s) = Some h.
Proof.
  intros H. assert (Executor.system_inv s ∧ Executor.hello (Executor.executor s) = Some h) as [_ ?]; [|done].
  revert H. apply (rtc_ind_r (λ s, Executor.system_inv s ∧ Executor.hello (Executor.executor s) = Some h)
    (Executor.spawn h os)); [split; [apply Executor.spawn_inv|done]|].
  intros s1 s2 Hr Hstep [Hi Hh].
  split; [by eapply Executor.system_inv_step|]. by rewrite (step_keeps_greeting s1 s2 Hi Hstep).
Qed.

(** What the executor does with a process request. *)
Lemma process_handled r fd os s h :
  Executor.hello (Executor.executor s) = Some h →
  effects_of (Executor.CallProcess r) (Some fd) os s
  = (if is_ok (Executor.adopt os) && is_ok (Executor.spawned os) then
       [match Session.request_pty r with
        | Some pty => Executor.SpawnPty (Process.service_command h r) pty fd
        | None => Executor.SpawnPiped (Process.service_command h r) fd
        end] else []) ∧
  is_ok (Executor.process_answer (response_of (Executor.CallProcess r) (Some fd) os s))
  = is_ok (Executor.adopt os) && is_ok (Executor.spawned os).
Proof.
  intros Hh. unfold effects_of, response_of, request_of. cbn [Executor.begin_call Executor.take_request_id snd].
  cbn [Executor.handle_request fst snd]. unfold Executor.start_process, Executor.hello_of. rewrite Hh.
  cbn [ok_or mbind result_bind Executor.service_fd].
  destruct (Executor.adopt os) as [[]|e]; [|done]. by destruct (Executor.spawned os) as [[]|e].
Qed.

(** ** Properties *)

(** C6: an exec request runs exactly the command the configuration stands for.
    On a quiet channel to an executor greeted with the daemon's configuration,
    for a session channel that is waiting, a configuration that permits commands,
    and a request and a response that fit the 64 KiB of a control packet: the
    executor starts the configured shell with its command flag and the client's
    command, in the home directory, with the filtered variables set over its own
    environment and on the pseudo-terminal the client asked for if any, and
    nothing else; the client is told of success exactly when the executor could
    start it; and the caller that was waiting gets that answer in four steps of
    the channel. *)
Theorem exec_runs_the_configured_shell c u ch cmd fd os os0 s h p :
  quiet s → rtc Executor.step (Executor.spawn {| Process.hello_home_dir := Session.home_dir u;
      Process.hello_shell := Config.shell c; Process.hello_exec_mode := Config.exec_mode c |} os0) s →
  Config.permit_exec c = true → Session.pending_channels h !! ch = Some p →
  let r := Session.process_request c u p (Some cmd) in
  let k := Executor.CallProcess r in
  Executor.fits_control (request_of k s) → Executor.fits_control (response_of k (Some fd) os s) →
  let answer := Executor.process_answer (response_of k (Some fd) os s) in
  let started := is_ok (Executor.adopt os) && is_ok (Executor.spawned os) in
  let child := {| Process.program := Config.shell c;
                  Process.args := [Config.command_flag (Config.exec_mode c); cmd];
                  Process.current_dir := Session.home_dir u;
                  Process.env_overrides := Session.build_child_env c u (Session.env p)
                                             (Session.term <$> Session.pty p) |} in
  effects_of k (Some fd) os s
  = (if started then [match Session.pty p with
                      | Some pty => Executor.SpawnPty child pty fd
                      | None => Executor.SpawnPiped child fd
                      end] else []) ∧
  Session.exec_request c u ch cmd answer h
  = (Session.take_channel ch h,
     [Session.StartProcess ch r; if started then Session.ChannelSuccess ch else Session.ChannelFailure ch],
     Ok tt) ∧
  rtc Executor.step s (round k (Some fd) os s) ∧
  (Executor.next_waiter s, response_of k (Some fd) os s) ∈ Executor.answered (round k (Some fd) os s).
Proof.
  intros Hq Hreach Hperm Hp. cbn zeta. intros Hreq Hres. pose proof (greeting_kept _ _ _ Hreach) as Hh.
  pose proof (Executor.ids_positive s (Executor.system_inv_reachable _ _ _ Hreach)).
  destruct (process_handled (Session.process_request c u p (Some cmd)) fd os s _ Hh) as [He Ha].
  split_and!.
  - exact He.
  - unfold Session.exec_request. rewrite Hperm. cbn [negb]. rewrite Hp. rewrite <- Ha.
    by destruct (Executor.process_answer _).
  - apply round_steps; [done|lia|done|done].
  - rewrite round_answers; [set_solver|done|lia|done|done].
Qed.
End Rounds.

(** The two executors run the same thing.  For the same greeting and request the
    in-process executor starts the very command, on the same kind of terminal,
    that the executor process starts; only it never reports that it could not. *)
Theorem executors_agree_on_processes r fd os s s' :
  Executor.hello (Executor.executor s) = Some (InProcess.hello (InProcess.client s')) →
  Executor.adopt os = Ok tt → Executor.spawned os = Ok tt →
  let '(s1, answer) := InProcess.start_process r s' in
  ∃ service effect, InProcess.services s1 = InProcess.services s' ++ [service] ∧
    effects_of (Executor.CallProcess r) (Some fd) os s = [effect] ∧ answer = Ok tt ∧
    match service, effect with
    | InProcess.PtyProcess c pty, Executor.SpawnPty c' pty' _ => c = c' ∧ pty = pty'
    | InProcess.PipedProcess c, Executor.SpawnPiped c' _ => c = c'
    | _, _ => False
    end.
Proof.
  intros Hh Ha Hs. destruct (process_handled r fd os s _ Hh) as [He _]. rewrite Ha, Hs in He. cbn in He.
  unfold InProcess.start_process. eexists _, _. split; [done|]. split; [exact He|]. split; [done|].
  by destruct (Session.request_pty r).
Qed.

(** ** Witnesses *)

Definition demo_user : Session.daemon_user :=
  {| Session.home_dir := lit "/home/alice"; Session.daemon_username := lit "alice" |}.
Definition demo_config : Config.AppConfig := Config.default_config (lit "/home/alice") (lit "/home/alice/.config").
Definition demo_handler : Session.ClientHandler :=
  (Session.channel_open_session 0 Session.ClientHandler_new).1.1.
Definition demo_system : Executor.system := Executor.spawn Executor.demo_hello Executor.demo_os.

#[local] Existing Instances Executor.demo_request_serde Executor.demo_response_serde
  Executor.demo_request_laws Executor.demo_response_laws Executor.demo_request_prefix
  Executor.demo_response_prefix.

Lemma exec_runs_the_configured_shell_witness :
  Session.exec_request demo_config demo_user 0 (lit "ls") (Ok tt) demo_handler
  = (Session.take_channel 0 demo_handler,
     [Session.StartProcess 0 (Session.process_request demo_config demo_user
        {| Session.pty := None; Session.env := ∅ |} (Some (lit "ls"))); Session.ChannelSuccess 0], Ok tt).
Proof.
  apply (exec_runs_the_configured_shell demo_config demo_user 0 (lit "ls") 9 Executor.demo_os Executor.demo_os demo_system
           demo_handler {| Session.pty := None; Session.env := ∅ |}).
  - split_and!; reflexivity.
  - apply rtc_refl.
  - reflexivity.
  - reflexivity.
  - eexists. split; [reflexivity|]. split; [vm_compute; discriminate|vm_compute; discriminate].
  - eexists. split; [reflexivity|]. split; [vm_compute; discriminate|vm_compute; discriminate].
Defined.

Definition demo_inprocess : InProcess.system :=
  InProcess.spawn (lit "/bin/bash") Config.ShellLogin (lit "/home/alice").

Lemma executors_agree_on_processes_witness :
  ∃ service effect,
    InProcess.services (InProcess.start_process (Session.process_request demo_config demo_user
       {| Session.pty := None; Session.env := ∅ |} None) demo_inprocess).1 = [service] ∧
    effects_of (Executor.CallProcess (Session.process_request demo_config demo_user
       {| Session.pty := None; Session.env := ∅ |} None)) (Some 9) Executor.demo_os demo_system = [effect].
Proof.
  destruct (executors_agree_on_processes (Session.process_request demo_config demo_user
       {| Session.pty := None; Session.env := ∅ |} None) 9 Executor.demo_os demo_system demo_inprocess
       eq_refl eq_refl eq_refl) as (service & effect & H1 & H2 & _).
  exists service, effect. split; [exact H1|exact H2].
Defined.

End EndToEnd.
