(* ===== verification/Sandbox.v ===== *)
(** * Pre-authentication sandbox (src/src/sandbox.rs)

    Before it accepts connections the daemon confines itself: Landlock leaves it
    one directory to read, and two stacked seccomp filters decide every system
    call.  A system call is its name; [nr] is the target's table of numbers,
    which is what the filters compare.  The kernel's part that matters here is
    that of several filters the strictest verdict counts, and that installing a
    filter is itself a system call, judged by the filters installed so far. *)

From S2P Require Import Prelude Rust Paths.

Local Open Scope Z_scope.

Module Sandbox.

(** ** Seccomp *)

Definition EPERM : Z := 1.

Inductive SeccompAction := Allow | Errno (e : Z) | KillProcess.

Record SeccompFilter := {
  rules : gset Z; mismatch_action : SeccompAction; match_action : SeccompAction;
}.

Definition errno_syscalls : list string := [
  "execve"; "execveat"; "fork"; "vfork"; "clone"; "clone3"; "socket"; "connect"; "bind"; "listen";
  "kill"; "tkill"; "tgkill"; "ptrace"; "process_vm_writev"; "bpf"; "perf_event_open"; "userfaultfd";
  "mount"; "umount2"; "pivot_root"; "swapon"; "swapoff"; "init_module"; "finit_module";
  "delete_module"; "kexec_load"; "open_by_handle_at"; "setns"; "unshare"]%string.

Definition allowed_syscalls : list string := [
  "accept"; "accept4"; "brk"; "clock_gettime"; "close"; "epoll_ctl"; "epoll_pwait"; "epoll_pwait2";
  "epoll_wait"; "exit"; "exit_group"; "fcntl"; "futex"; "getrandom"; "getsockopt"; "ioctl"; "lseek";
  "madvise"; "mlock"; "mmap"; "mprotect"; "mremap"; "munlock"; "munmap"; "newfstatat"; "openat";
  "prctl"; "read"; "readv"; "recvfrom"; "recvmsg"; "rseq"; "rt_sigaction"; "rt_sigprocmask";
  "rt_sigreturn"; "sendmsg"; "sendto"; "set_robust_list"; "setsockopt"; "shutdown"; "sigaltstack";
  "socketpair"; "statx"; "write"; "writev"]%string.

Section Seccomp.
Context (nr : string → Z).

Definition compile_seccomp_filter (syscalls : list string) (mismatch matched : SeccompAction)
  : SeccompFilter :=
  {| rules := list_to_set (nr <$> syscalls); mismatch_action := mismatch; match_action := matched |}.

Definition build_preauth_seccomp_filters : SeccompFilter * SeccompFilter :=
  (compile_seccomp_filter errno_syscalls Allow (Errno EPERM),
   compile_seccomp_filter (allowed_syscalls ++ errno_syscalls) KillProcess Allow).

(** One filter on one number, and the strictest of two verdicts. *)
Definition run_filter (n : Z) (f : SeccompFilter) : SeccompAction :=
  if decide (n ∈ rules f) then match_action f else mismatch_action f.

Definition strictest (a b : SeccompAction) : SeccompAction :=
  match a, b with
  | KillProcess, _ | _, KillProcess => KillProcess
  | Errno e, _ => Errno e
  | Allow, b => b
  end.

Definition verdict (filters : list SeccompFilter) (n : Z) : SeccompAction :=
  foldr (λ f a, strictest (run_filter n f) a) Allow filters.

(** [apply_filter_all_threads]: the filters installed after the call, or what
    the call met. *)
Inductive install := Installed (filters : list SeccompFilter) | Refused (e : Z) | Killed.

Definition apply_filter (f : SeccompFilter) (filters : list SeccompFilter) : install :=
  match verdict filters (nr "seccomp") with
  | Allow => Installed (f :: filters)
  | Errno e => Refused e
  | KillProcess => Killed
  end.

Definition install_both (first second : SeccompFilter) : install :=
  match apply_filter first [] with
  | Installed filters => apply_filter second filters
  | r => r
  end.

Definition install_preauth_seccomp_filter : install :=
  let '(errno_filter, allowlist_filter) := build_preauth_seccomp_filters in
  install_both errno_filter allowlist_filter.

(** What the two filters are meant to say together. *)
Definition policy (s : string) : SeccompAction :=
  if bool_decide (s ∈ errno_syscalls) then Errno EPERM
  else if bool_decide (s ∈ allowed_syscalls) then Allow else KillProcess.
End Seccomp.

(** ** The directory Landlock leaves readable *)

Section Landlock.
Context (is_dir : str → bool).

Fixpoint search_up (fuel : nat) (path current : str) : option (result anyhow str) :=
  match fuel with
  | O => None
  | S fuel =>
      if is_dir current then Some (Ok current)
      else match parent current with
           | None => Some (bail (lit "no existing directory found for " ++ path))
           | Some p => search_up fuel path p
           end
  end.

(** A parent is shorter, so the path's length bounds the search. *)
Definition nearest_existing_directory (path : str) : option (result anyhow str) :=
  let current := if is_dir path then path else default path (parent path) in
  search_up (S (length current)) path current.
End Landlock.

(** ** Lemmas *)

Section SeccompLemmas.
Context (nr : string → Z) `{!Inj (=) (=) nr}.

Lemma run_compiled s l a b :
  run_filter (nr s) (compile_seccomp_filter nr l a b) = if decide (s ∈ l) then b else a.
Proof.
  unfold run_filter, compile_seccomp_filter. cbn [rules match_action mismatch_action].
  assert (nr s ∈ (list_to_set (nr <$> l) : gset Z) ↔ s ∈ l) as H.
  { rewrite elem_of_list_to_set, list_elem_of_fmap. split; [|by eauto].
    intros (x & Hx & ?). by apply (inj nr) in Hx as ->. }
  repeat case_decide; naive_solver.
Qed.

Lemma run_compiled_unlisted n l a b :
  (∀ s, s ∈ l → nr s ≠ n) → run_filter n (compile_seccomp_filter nr l a b) = a.
Proof.
  intros Hn. unfold run_filter, compile_seccomp_filter. cbn [rules match_action mismatch_action].
  rewrite decide_False; [done|]. rewrite elem_of_list_to_set, list_elem_of_fmap.
  intros (x & -> & Hx). by apply (Hn x Hx).
Qed.

(** The allow-list over both lists and the errno filter over one, together. *)
Lemma stacked_verdict E A s :
  (s ∈ E → s ∈ A → False) →
  verdict [compile_seccomp_filter nr (A ++ E) KillProcess Allow;
           compile_seccomp_filter nr E Allow (Errno EPERM)] (nr s)
  = if bool_decide (s ∈ E) then Errno EPERM
    else if bool_decide (s ∈ A) then Allow else KillProcess.
Proof.
  intros Hdis. unfold verdict. cbn [foldr]. rewrite !run_compiled.
  repeat case_bool_decide; repeat case_decide; try done; set_solver.
Qed.

Lemma stacked_unlisted E A n :
  (∀ s, s ∈ E ++ A → nr s ≠ n) →
  verdict [compile_seccomp_filter nr (A ++ E) KillProcess Allow;
           compile_seccomp_filter nr E Allow (Errno EPERM)] n = KillProcess.
Proof.
  intros Hn. unfold verdict. cbn [foldr]. rewrite run_compiled_unlisted; [done|].
  intros s Hs. apply Hn. set_solver.
Qed.
End SeccompLemmas.

Lemma lists_disjoint s : s ∈ errno_syscalls → s ∈ allowed_syscalls → False.
Proof.
  assert (Forall (λ s, s ∉ allowed_syscalls) errno_syscalls) as H.
  { apply (bool_decide_unpack (Forall (λ s, s ∉ allowed_syscalls) errno_syscalls)). by vm_compute. }
  rewrite Forall_forall in H. intros He. by apply H.
Qed.

Lemma length_join_with (sep : N) l1 l2 :
  (length (join_with [sep] l1) ≤ length (join_with [sep] (l1 ++ l2)))%nat.
Proof.
  induction l1 as [|w l1 IH]; [simpl; lia|]. destruct l1 as [|w1 l1].
  - destruct l2; simpl; rewrite ?length_app; lia.
  - change (join_with [sep] ((w :: w1 :: l1) ++ l2))
      with (w ++ [sep] ++ join_with [sep] ((w1 :: l1) ++ l2)).
    change (join_with [sep] (w :: w1 :: l1)) with (w ++ [sep] ++ join_with [sep] (w1 :: l1)).
    rewrite !length_app. lia.
Qed.

Lemma length_join_with_lt (sep : N) l1 w l2 :
  w ≠ [] → (length (join_with [sep] l1) < length (join_with [sep] (l1 ++ w :: l2)))%nat.
Proof.
  intros Hw. induction l1 as [|w0 l1 IH].
  - simpl. destruct w; [done|]. destruct l2; simpl; lia.
  - destruct l1 as [|w1 l1].
    + simpl. rewrite !length_app. simpl. lia.
    + change (join_with [sep] ((w0 :: w1 :: l1) ++ w :: l2))
        with (w0 ++ [sep] ++ join_with [sep] ((w1 :: l1) ++ w :: l2)).
      change (join_with [sep] (w0 :: w1 :: l1)) with (w0 ++ [sep] ++ join_with [sep] (w1 :: l1)).
      rewrite !length_app. lia.
Qed.

Lemma trim_pieces_prefix ws : ∃ k, ws = trim_pieces ws ++ k.
Proof.
  unfold trim_pieces. destruct (drop_while_suffix skipped (reverse ws)) as [k Hk].
  exists (reverse k). apply (f_equal reverse) in Hk. rewrite reverse_involutive, reverse_app in Hk. done.
Qed.

Lemma trim_pieces_last ws ws' w : trim_pieces ws = ws' ++ [w] → w ≠ [].
Proof.
  unfold trim_pieces. intros H%(f_equal reverse).
  rewrite reverse_involutive, reverse_snoc in H. apply drop_while_head in H.
  unfold skipped in H. intros ->. by bool_to_prop.
Qed.

Lemma join_split s : join_with [SEP] (split_by (λ c, (c =? SEP)%N) s) = s.
Proof.
  induction s as [|c s IH]; [done|]. cbn [split_by].
  destruct (split_by (λ c, (c =? SEP)%N) s) as [|w ws] eqn:E.
  { by destruct s; cbn in E; repeat case_match. }
  destruct (c =? SEP)%N eqn:Hc.
  - apply N.eqb_eq in Hc as ->. change (join_with [SEP] ([] :: w :: ws))
      with (SEP :: join_with [SEP] (w :: ws)). by rewrite IH.
  - destruct ws as [|w' ws]; [by rewrite <- IH|].
    change (join_with [SEP] ((c :: w) :: w' :: ws)) with (c :: join_with [SEP] (w :: w' :: ws)).
    by rewrite IH.
Qed.

Lemma parent_shorter p q : parent p = Some q → (length q < length p)%nat.
Proof.
  unfold parent. destruct (reverse (trim_pieces (pieces p))) as [|w ws] eqn:E.
  - destruct (is_absolute p) eqn:Ha; [done|]. destruct (include_cur_dir p) eqn:Hc; [|done].
    intros [= <-]. destruct p; [done|]. simpl. lia.
  - intros [= <-]. apply (f_equal reverse) in E. rewrite reverse_involutive, reverse_cons in E.
    destruct (trim_pieces_prefix (pieces p)) as [k Hk], (trim_pieces_prefix (reverse ws)) as [k' Hk'].
    assert (w ≠ []) as Hw by (by eapply trim_pieces_last).
    assert (length p = length (path_prefix p) + length (body p))%nat as Hp.
    { unfold path_prefix, body. destruct (_ || _); [|done]. by rewrite <- length_app, take_drop. }
    rewrite Hp, length_app. rewrite <- (join_split (body p)). fold (pieces p).
    rewrite Hk, E, <- app_assoc. cbn [app].
    pose proof (length_join_with_lt SEP (reverse ws) w k Hw).
    pose proof (length_join_with SEP (trim_pieces (reverse ws)) k') as Hle. rewrite <- Hk' in Hle. lia.
Qed.

(** A search that is given the length of its start always ends. *)
Lemma search_up_ends is_dir fuel path current :
  (length current < fuel)%nat → is_Some (search_up is_dir fuel path current).
Proof.
  revert current. induction fuel as [|fuel IH]; intros current Hf; [lia|]. cbn [search_up].
  destruct (is_dir current); [by eexists|]. destruct (parent current) as [p|] eqn:Hp; [|by eexists].
  apply IH. apply parent_shorter in Hp. lia.
Qed.

Definition parent_of (a b : str) : Prop := parent a = Some b.

Lemma search_up_Ok is_dir fuel path current d :
  search_up is_dir fuel path current = Some (Ok d) →
  is_dir d = true ∧ rtc (λ a b, parent_of a b ∧ is_dir a = false) current d.
Proof.
  revert current. induction fuel as [|fuel IH]; intros current; [done|]. cbn [search_up].
  destruct (is_dir current) eqn:Hd; [by intros [= <-]|].
  destruct (parent current) as [p|] eqn:Hp; [|done]. intros [? Hr]%IH. split; [done|].
  by eapply rtc_l.
Qed.

Lemma search_up_Err is_dir fuel path current e :
  search_up is_dir fuel path current = Some (Err e) →
  ∀ a, rtc parent_of current a → is_dir a = false.
Proof.
  revert current. induction fuel as [|fuel IH]; intros current; [done|]. cbn [search_up].
  destruct (is_dir current) eqn:Hd; [done|]. intros Hs a Ha.
  destruct Ha as [|x y z Hxy Hyz]; [done|]. unfold parent_of in Hxy. rewrite Hxy in Hs. by eapply IH.
Qed.

(** ** Properties *)

(** C24: the two seccomp filters are one policy, and can be installed.  On a target
    whose system calls have distinct numbers, and unless the kernel fails for
    reasons of its own, installing the errno filter and then the allow-list
    succeeds, and together they answer EPERM to every call
    of the one list, allow every call of the other, and kill the process on
    everything else, a number that names no listed call included.  Installed
    the other way round, the first filter kills the process when it installs
    the second. *)
Theorem seccomp_filters_are_one_policy (nr : string → Z) :
  Inj (=) (=) nr →
  (∃ filters, install_preauth_seccomp_filter nr = Installed filters ∧
     (∀ s, verdict filters (nr s) = policy s) ∧
     (∀ n, (∀ s, s ∈ errno_syscalls ++ allowed_syscalls → nr s ≠ n) →
        verdict filters n = KillProcess)) ∧
  install_both nr (build_preauth_seccomp_filters nr).2 (build_preauth_seccomp_filters nr).1 = Killed.
Proof.
  intros Hinj. split.
  - exists [(build_preauth_seccomp_filters nr).2; (build_preauth_seccomp_filters nr).1]. split_and!.
    + unfold install_preauth_seccomp_filter, install_both, apply_filter. cbn [verdict foldr].
      unfold build_preauth_seccomp_filters. rewrite run_compiled by done. by vm_compute.
    + intros s. apply stacked_verdict; [done|]. apply lists_disjoint.
    + intros n. by apply stacked_unlisted.
  - unfold install_both, apply_filter. cbn [verdict foldr].
    unfold build_preauth_seccomp_filters. cbn [fst snd]. rewrite run_compiled by done. by vm_compute.
Qed.

(** The directory left readable is the nearest that exists.  The search for it
    ends on every path; what it returns is an existing directory above the file
    (or the file itself when that is a directory), with none below it on the way
    up; and it fails only when no directory above the file exists. *)
Theorem landlock_root_is_the_nearest_directory (is_dir : str → bool) (path : str) :
  ∃ r, nearest_existing_directory is_dir path = Some r ∧
  let start := if is_dir path then path else default path (parent path) in
  match r with
  | Ok d => is_dir d = true ∧ rtc (λ a b, parent_of a b ∧ is_dir a = false) start d
  | Err _ => ∀ a, rtc parent_of start a → is_dir a = false
  end.
Proof.
  unfold nearest_existing_directory. set (start := if is_dir path then path else _).
  destruct (search_up_ends is_dir (S (length start)) path start) as [r Hr]; [lia|].
  exists r. split; [done|]. destruct r as [d|e]; [by apply search_up_Ok in Hr|by eapply search_up_Err].
Qed.

(** A table of numbers: the name read as a number. *)
Definition demo_nr (s : string) : Z := Z.pos (encode s).

Lemma seccomp_filters_are_one_policy_witness :
  ∃ filters, install_preauth_seccomp_filter demo_nr = Installed filters ∧
    verdict filters (demo_nr "execve") = Errno EPERM ∧
    verdict filters (demo_nr "read") = Allow ∧
    verdict filters (demo_nr "memfd_create") = KillProcess.
Proof.
  destruct (seccomp_filters_are_one_policy demo_nr) as [(fs & Hi & Hp & _) _].
  - intros x y H. unfold demo_nr in H. apply (inj encode). congruence.
  - exists fs. split; [exact Hi|]. rewrite !Hp. split_and!; vm_compute; reflexivity.
Defined.

End Sandbox.
