(* ===== verification/Confinement.v ===== *)
(** * Confining the daemon, and the probes (src/src/sandbox.rs)

    [apply_preauth_sandbox] puts a Landlock domain and the two seccomp filters of
    Sandbox.v on the process, in that order; the probes do the same and report
    what is still possible.  A process has its no-new-privileges bit, its
    Landlock domains and its filters; every call into the kernel is judged by
    the filters installed so far, and answered by the kernel otherwise.  Which
    paths lie beneath a directory is the kernel's to say ([beneath]).  The access
    rights are those of Landlock's later ABI versions too, which the ruleset of
    version 1 does not handle. *)

From S2P Require Import Prelude Rust Paths Sandbox.

Local Open Scope Z_scope.

Module Confinement.
Import Sandbox.

(** ** Landlock *)

(** The access rights of the [landlock] crate: those of ABI version 1, and the
    later ones, [Refer] (2), [Truncate] (3) and [IoctlDev] (5). *)
Inductive AccessFs :=
| Execute | WriteFile | ReadFile | ReadDir | RemoveDir | RemoveFile | MakeChar | MakeDir | MakeReg
| MakeSock | MakeFifo | MakeBlock | MakeSym
| Refer | Truncate | IoctlDev.

#[global] Instance AccessFs_eq_dec : EqDecision AccessFs.
Proof. solve_decision. Defined.

(** [AccessFs::from_all(ABI::V1)]. *)
Definition from_all_v1 : list AccessFs :=
  [Execute; WriteFile; ReadFile; ReadDir; RemoveDir; RemoveFile; MakeChar; MakeDir; MakeReg;
   MakeSock; MakeFifo; MakeBlock; MakeSym].

Record domain := { handled_access : list AccessFs; beneath_root : str; allowed_access : list AccessFs }.

Inductive RulesetStatus := FullyEnforced | PartiallyEnforced | NotEnforced.

#[global] Instance RulesetStatus_eq_dec : EqDecision RulesetStatus.
Proof. solve_decision. Defined.

Record RestrictionStatus := { ruleset : RulesetStatus; status_no_new_privs : bool }.

(** ** Processes *)

Record process := { no_new_privs : bool; domains : list domain; filters : list SeccompFilter }.

Definition unconfined : process := {| no_new_privs := false; domains := []; filters := [] |}.

Definition set_no_new_privs (p : process) : process :=
  {| no_new_privs := true; domains := domains p; filters := filters p |}.
Definition add_domain (d : domain) (p : process) : process :=
  {| no_new_privs := no_new_privs p; domains := d :: domains p; filters := filters p |}.
Definition set_filters (fs : list SeccompFilter) (p : process) : process :=
  {| no_new_privs := no_new_privs p; domains := domains p; filters := fs |}.

(** A computation of the process: it returns, or is killed by a call. *)
Inductive ending (A : Type) := Returned (r : result anyhow A) | KilledBy (call : string).
Arguments Returned {A}. Arguments KilledBy {A}.

Definition proc (A : Type) : Type := process → process * ending A.

#[global] Instance proc_ret : MRet proc := λ A a p, (p, Returned (Ok a)).
#[global] Instance proc_bind : MBind proc := λ A B k m p,
  match m p with
  | (p, Returned (Ok a)) => k a p
  | (p, Returned (Err e)) => (p, Returned (Err e))
  | (p, KilledBy c) => (p, KilledBy c)
  end.

Definition pure_ {A} (r : result anyhow A) : proc A := λ p, (p, Returned r).

(** What the kernel will answer. *)
Record kernel := {
  prctl_no_new_privs : result io_error unit;
  configure : result anyhow unit;
  create_ruleset : result anyhow unit;
  open_root : result anyhow unit;
  add_rule : result anyhow unit;
  restrict : result anyhow RestrictionStatus;
  errno_filter_set : result anyhow unit;
  allowlist_set : result anyhow unit;
  is_dir : str → bool;
}.

Section Confine.
Context (nr : string → Z).

(** [name] is called; the kernel's answer, when the filters let it through, is
    [r], with [effect] on the process. *)
Definition call {A} (name : string) (r : result anyhow A) (effect : process → process) : proc A := λ p,
  match verdict (filters p) (nr name) with
  | Allow => (match r with Ok _ => effect p | Err _ => p end, Returned r)
  | Errno e => (p, Returned (Err [IoCause (IoError PermissionDenied (lit "Operation not permitted"))]))
  | KillProcess => (p, KilledBy name)
  end.

Definition contextual {A} (m : str) (c : proc A) : proc A := λ p,
  match c p with
  | (p, Returned r) => (p, Returned (with_context m r))
  | r => r
  end.

Definition enable_no_new_privs (k : kernel) : proc unit :=
  contextual (lit "failed to set no_new_privs")
    (call "prctl" (io_result (prctl_no_new_privs k)) set_no_new_privs).

(** The domain of [restrict_self], once the kernel reports that it is in force. *)
Definition keys_domain (root : str) : domain :=
  {| handled_access := from_all_v1; beneath_root := root; allowed_access := [ReadFile; ReadDir] |}.

Definition restricted (root : str) (k : kernel) (p : process) : process :=
  match restrict k with
  | Ok st =>
      let p := if status_no_new_privs st then set_no_new_privs p else p in
      match ruleset st with NotEnforced => p | _ => add_domain (keys_domain root) p end
  | Err _ => p
  end.

Definition install_authorized_keys_landlock (authorized_keys_file : str) (k : kernel) : proc str :=
  root ← match nearest_existing_directory (is_dir k) authorized_keys_file with
         | Some r =>
             pure_ (with_context (lit "failed to find an existing directory for " ++ authorized_keys_file) r)
         | None => pure_ (bail (lit "search ran out"))
         end;
  _ ← pure_ (with_context (lit "failed to configure the Landlock ABI v1 access rights") (configure k));
  _ ← contextual (lit "failed to create the Landlock ruleset")
        (call "landlock_create_ruleset" (create_ruleset k) (λ p, p));
  _ ← contextual (lit "failed to open sandbox root " ++ root ++ lit " for Landlock")
        (call "openat" (open_root k) (λ p, p));
  _ ← contextual (lit "failed to add a Landlock read-only rule for " ++ root)
        (call "landlock_add_rule" (add_rule k) (λ p, p));
  status ← contextual (lit "failed to apply the Landlock pre-auth sandbox")
             (call "landlock_restrict_self" (restrict k) (restricted root k));
  if negb (bool_decide (ruleset status = FullyEnforced)) || negb (status_no_new_privs status)
  then pure_ (bail (lit "Landlock sandbox was not fully enforced"))
  else mret root.

(** [apply_filter_all_threads]: judged by the filters, then answered by the
    kernel. *)
Definition set_filter (f : SeccompFilter) (answer : result anyhow unit) : proc unit := λ p,
  match apply_filter nr f (filters p) with
  | Killed => (p, KilledBy "seccomp")
  | Refused e => (p, Returned (bail (lit "Operation not permitted")))
  | Installed fs => (match answer with Ok _ => set_filters fs p | Err _ => p end, Returned answer)
  end.

(** [install_preauth_seccomp_filter] of Sandbox.v on this process. *)
Definition install_seccomp (k : kernel) : proc unit :=
  let '(errno_filter, allowlist_filter) := build_preauth_seccomp_filters nr in
  _ ← contextual (lit "failed to install the pre-auth seccomp errno filter")
        (set_filter errno_filter (errno_filter_set k));
  contextual (lit "failed to install the pre-auth seccomp allowlist")
    (set_filter allowlist_filter (allowlist_set k)).

Definition apply_preauth_sandbox (authorized_keys_file : str) (k : kernel) : proc unit :=
  _ ← install_authorized_keys_landlock authorized_keys_file k;
  install_seccomp k.

(** ** What a process may do *)

Context (beneath : str → str → bool).

(** A right that the domain does not handle is as it was, but for [Refer], which a
    domain refuses unless it is allowed. *)
Definition domain_permits (right : AccessFs) (path : str) (d : domain) : bool :=
  negb (bool_decide (right ∈ handled_access d) || bool_decide (right = Refer))
  || (bool_decide (right ∈ allowed_access d) && beneath (beneath_root d) path).

Definition permitted (p : process) (right : AccessFs) (path : str) : bool :=
  forallb (domain_permits right path) (domains p).

(** Opening a file for [rights]: a call, and the answer of the file system if
    every domain permits them. *)
Definition open_file {A} (rights : list AccessFs) (path : str) (r : result anyhow A) : proc A := λ p,
  call "openat"
    (if forallb (λ right, permitted p right path) rights then r
     else Err [IoCause (IoError PermissionDenied (lit "Permission denied"))]) (λ p, p) p.

(** [is_err()] of a call: the error is a value. *)
Definition attempt {A} (m : proc A) : proc (result anyhow A) := λ p,
  match m p with
  | (p, Returned r) => (p, Returned (Ok r))
  | (p, KilledBy c) => (p, KilledBy c)
  end.

Definition digit (b : bool) : str := if b then lit "1" else lit "0".

(** What the system answers to the probes where it lets them through. *)
Record probe_world := {
  file_text : result anyhow str;
  file_exists : bool;
  open_for_writing : result anyhow unit;
  spawn_call : string;
  spawned : result anyhow unit;
  socket_made : result anyhow unit;
}.

(** The mode is 2 once a filter is installed. *)
Definition secure_computing_mode : proc Z := λ p,
  call "prctl" (Ok (match filters p with [] => 0 | _ => 2 end)) (λ p, p) p.

Definition is_eperm (r : result anyhow unit) : bool :=
  match r with
  | Err [IoCause e] => bool_decide (kind e = PermissionDenied)
                       && bool_decide (io_message e = lit "Operation not permitted")
  | _ => false
  end.

Definition internal_probe (file : str) (k : kernel) (w : probe_world) : proc str :=
  _ ← enable_no_new_privs k;
  _ ← apply_preauth_sandbox file k;
  text ← contextual (lit "failed to read " ++ file) (open_file [ReadFile] file (file_text w));
  written ← attempt (open_file [WriteFile] file (open_for_writing w));
  spawned ← attempt (call (spawn_call w) (spawned w) (λ p, p));
  socket ← attempt (call "socket" (socket_made w) (λ p, p));
  mode ← secure_computing_mode;
  mret (lit "read_ok=" ++ digit (negb (bool_decide (text = [])) || file_exists w) ++ [10%N]
        ++ lit "write_denied=" ++ digit (negb (is_ok written)) ++ [10%N]
        ++ lit "exec_denied=" ++ digit (negb (is_ok spawned)) ++ [10%N]
        ++ lit "socket_eperm=" ++ digit (is_eperm socket) ++ [10%N]
        ++ lit "seccomp_mode=" ++ dec mode ++ [10%N]).

Definition internal_default_deny_probe (file : str) (k : kernel) : proc unit :=
  _ ← enable_no_new_privs k;
  _ ← apply_preauth_sandbox file k;
  _ ← attempt (call "memfd_create" (Ok tt) (λ p, p));
  mret tt.
End Confine.

(** ** Lemmas *)

Section Lemmas.
Context (nr : string → Z) `{!Inj (=) (=) nr}.

(** Before any filter every call goes through. *)
Lemma call_unfiltered {A} name (r : result anyhow A) effect p :
  filters p = [] → call nr name r effect p = (match r with Ok _ => effect p | Err _ => p end, Returned r).
Proof. intros H. unfold call. by rewrite H. Qed.

(** Under the two filters it goes the way of the policy. *)
Definition filtered (p : process) : Prop := ∀ s, verdict (filters p) (nr s) = policy s.

Lemma call_filtered {A} name (r : result anyhow A) effect p :
  filtered p → call nr name r effect p =
  match policy name with
  | Allow => (match r with Ok _ => effect p | Err _ => p end, Returned r)
  | Errno e => (p, Returned (Err [IoCause (IoError PermissionDenied (lit "Operation not permitted"))]))
  | KillProcess => (p, KilledBy name)
  end.
Proof. intros H. unfold call. by rewrite H. Qed.

Lemma proc_bind_Ok {A B} (m : proc A) (k : A → proc B) p p' b :
  (m ≫= k) p = (p', Returned (Ok b)) ↔
  ∃ a p1, m p = (p1, Returned (Ok a)) ∧ k a p1 = (p', Returned (Ok b)).
Proof.
  unfold mbind, proc_bind. split.
  - destruct (m p) as [p1 [[a|e]|c]]; [|done..]. intros H. by exists a, p1.
  - by intros (a & p1 & -> & H).
Qed.

Lemma contextual_Ok {A} ctx (m : proc A) p p' a :
  contextual ctx m p = (p', Returned (Ok a)) ↔ m p = (p', Returned (Ok a)).
Proof.
  unfold contextual. destruct (m p) as [p1 [[b|e]|c]]; cbn; split; intros H; simplify_eq/=; done.
Qed.

Lemma call_unfiltered_Ok {A} name (r : result anyhow A) effect p p' a :
  filters p = [] → call nr name r effect p = (p', Returned (Ok a)) → r = Ok a ∧ p' = effect p.
Proof. intros H. rewrite call_unfiltered by done. destruct r; intros; by simplify_eq. Qed.

(** Landlock in force: one domain more, and no new privileges. *)
Lemma landlock_Ok file k p p' root :
  filters p = [] → install_authorized_keys_landlock nr file k p = (p', Returned (Ok root)) →
  p' = add_domain (keys_domain root) (set_no_new_privs p) ∧
  nearest_existing_directory (is_dir k) file = Some (Ok root).
Proof.
  intros Hf. unfold install_authorized_keys_landlock. intros H.
  apply proc_bind_Ok in H as (root' & p1 & Hr & H).
  assert (p1 = p ∧ nearest_existing_directory (is_dir k) file = Some (Ok root')) as [-> Hn].
  { unfold pure_ in Hr. destruct (nearest_existing_directory (is_dir k) file) as [[d|e]|]; [|done..].
    by injection Hr as <- <-. }
  apply proc_bind_Ok in H as (? & p1 & H1 & H). unfold pure_ in H1.
  destruct (configure k); [|done]. injection H1 as <- <-.
  do 3 (apply proc_bind_Ok in H as (? & p1 & H1 & H); apply contextual_Ok in H1;
        apply call_unfiltered_Ok in H1 as [_ ->]; [|done]).
  apply proc_bind_Ok in H as (status & p1 & H1 & H). apply contextual_Ok in H1.
  apply call_unfiltered_Ok in H1 as [Hres ->]; [|done]. unfold restricted in H. rewrite Hres in H.
  destruct status as [[] []]; cbn in H; try done. by injection H as <- <-.
Qed.

(** A kernel that does what it is asked. *)
Definition all_granted (k : kernel) : Prop :=
  prctl_no_new_privs k = Ok tt ∧ configure k = Ok tt ∧ create_ruleset k = Ok tt ∧ open_root k = Ok tt ∧
  add_rule k = Ok tt ∧ restrict k = Ok {| ruleset := FullyEnforced; status_no_new_privs := true |} ∧
  errno_filter_set k = Ok tt ∧ allowlist_set k = Ok tt.

Lemma contextual_call_Ok {A} ctx name (r : result anyhow A) a effect p :
  filters p = [] → r = Ok a → contextual ctx (call nr name r effect) p = (effect p, Returned (Ok a)).
Proof. intros Hf ->. apply contextual_Ok. by rewrite call_unfiltered. Qed.

Lemma landlock_granted file k p root :
  filters p = [] → all_granted k → nearest_existing_directory (is_dir k) file = Some (Ok root) →
  install_authorized_keys_landlock nr file k p
  = (add_domain (keys_domain root) (set_no_new_privs p), Returned (Ok root)).
Proof.
  intros Hf (_ & K2 & K3 & K4 & K5 & K6 & _) Hn. unfold install_authorized_keys_landlock.
  apply proc_bind_Ok. exists root, p. split; [by rewrite Hn|].
  apply proc_bind_Ok. exists tt, p. split; [by rewrite K2|].
  apply proc_bind_Ok. exists tt, p. split; [by apply contextual_call_Ok|].
  apply proc_bind_Ok. exists tt, p. split; [by apply contextual_call_Ok|].
  apply proc_bind_Ok. exists tt, p. split; [by apply contextual_call_Ok|].
  apply proc_bind_Ok. eexists _, _. split; [by apply contextual_call_Ok|].
  unfold restricted. by rewrite K6.
Qed.

(** The filters of an installation that succeeded. *)
Definition both_filters (p : process) : process :=
  set_filters [(build_preauth_seccomp_filters nr).2; (build_preauth_seccomp_filters nr).1] p.

Lemma set_filter_allowed f answer p :
  verdict (filters p) (nr "seccomp") = Allow →
  set_filter nr f answer p
  = (match answer with Ok _ => set_filters (f :: filters p) p | Err _ => p end, Returned answer).
Proof. intros H. unfold set_filter, apply_filter. by rewrite H. Qed.

Lemma errno_filter_lets_seccomp p :
  filters p = [] →
  verdict (filters (set_filters ((build_preauth_seccomp_filters nr).1 :: filters p) p)) (nr "seccomp") = Allow.
Proof.
  intros Hf. cbn [filters set_filters]. rewrite Hf. unfold build_preauth_seccomp_filters. cbn [fst verdict foldr].
  rewrite run_compiled by done. by vm_compute.
Qed.

Lemma install_seccomp_cases k p :
  filters p = [] →
  install_seccomp nr k p =
  match errno_filter_set k with
  | Err e => (p, Returned (with_context (lit "failed to install the pre-auth seccomp errno filter") (Err e)))
  | Ok _ =>
      match allowlist_set k with
      | Err e => (set_filters [(build_preauth_seccomp_filters nr).1] p,
                  Returned (with_context (lit "failed to install the pre-auth seccomp allowlist") (Err e)))
      | Ok _ => (both_filters p, Returned (Ok tt))
      end
  end.
Proof.
  intros Hf. unfold install_seccomp.
  destruct (build_preauth_seccomp_filters nr) as [f g] eqn:E. unfold mbind, proc_bind, contextual.
  rewrite set_filter_allowed by (by rewrite Hf). destruct (errno_filter_set k) as [[]|e]; [|done].
  cbn [with_context]. rewrite set_filter_allowed.
  2: { pose proof (errno_filter_lets_seccomp p Hf) as Hl. by rewrite E in Hl. }
  unfold both_filters. rewrite E. cbn [filters set_filters]. rewrite Hf. by destruct (allowlist_set k) as [[]|e].
Qed.

Lemma install_seccomp_Ok k p p' :
  filters p = [] → install_seccomp nr k p = (p', Returned (Ok tt)) ↔
  p' = both_filters p ∧ errno_filter_set k = Ok tt ∧ allowlist_set k = Ok tt.
Proof.
  intros Hf. rewrite install_seccomp_cases by done.
  destruct (errno_filter_set k) as [[]|e]; [destruct (allowlist_set k) as [[]|e]|]; cbn; split; intros; naive_solver.
Qed.

Lemma installed_filtered p : filtered (both_filters p).
Proof. intros s. apply stacked_verdict; [done|]. apply lists_disjoint. Qed.

(** A process the sandbox was put on. *)
Definition confined_to (root : str) (p : process) : Prop :=
  no_new_privs p = true ∧ filtered p ∧ domains p = [keys_domain root] ∧ filters p ≠ [].

Lemma apply_preauth_sandbox_Ok file k p p' :
  filters p = [] → domains p = [] → apply_preauth_sandbox nr file k p = (p', Returned (Ok tt)) →
  ∃ root, nearest_existing_directory (is_dir k) file = Some (Ok root) ∧ confined_to root p'.
Proof.
  intros Hf Hd H. apply proc_bind_Ok in H as (root & p1 & H1 & H).
  apply landlock_Ok in H1 as [-> Hn]; [|done].
  apply install_seccomp_Ok in H as [-> _]; [|done]. exists root. split; [done|].
  split_and!; [done|apply installed_filtered|cbn; by rewrite Hd|done].
Qed.

Lemma sandbox_granted file k root :
  all_granted k → nearest_existing_directory (is_dir k) file = Some (Ok root) →
  ∃ p1 p, enable_no_new_privs nr k unconfined = (p1, Returned (Ok tt)) ∧
    apply_preauth_sandbox nr file k p1 = (p, Returned (Ok tt)) ∧ confined_to root p.
Proof.
  intros Hk Hn. exists (set_no_new_privs unconfined). eexists. split_and!.
  - apply contextual_call_Ok; [done|]. by rewrite (proj1 Hk).
  - apply proc_bind_Ok. eexists _, _. split; [by apply landlock_granted|].
    apply install_seccomp_Ok; [done|]. by destruct Hk as (_ & _ & _ & _ & _ & _ & ? & ?).
  - split_and!; [done|apply installed_filtered|done|done].
Qed.

(** What Landlock leaves of each right: reading beneath [root], and the rights its
    first version does not know. *)
Definition left_by_landlock (beneath : str → str → bool) (root : str) (right : AccessFs) (path : str) : bool :=
  match right with
  | ReadFile | ReadDir => beneath root path
  | Truncate | IoctlDev => true
  | _ => false
  end.

Lemma permitted_confined beneath root p right path :
  domains p = [keys_domain root] →
  permitted beneath p right path = left_by_landlock beneath root right path.
Proof.
  intros H. unfold permitted. rewrite H. cbn [forallb]. rewrite andb_true_r. unfold domain_permits.
  by destruct right; cbn [keys_domain handled_access allowed_access beneath_root].
Qed.
End Lemmas.

(** ** Properties *)

Section Properties.
Context (nr : string → Z) `{!Inj (=) (=) nr}.
Context (beneath : str → str → bool).

(** C18: the sandbox confines, as far as Landlock's first ABI version goes.  When
    putting it on a process succeeds, the process has no new privileges and every
    system call goes the way of the one policy.  Of the file accesses of that
    version Landlock leaves only reading files and directories beneath the nearest
    existing directory of the authorized keys file: nothing can be opened for
    writing, created, removed, linked or renamed across directories, or executed
    anywhere.  The rights of later versions are not handled: an open for reading
    that truncates is still let through and empties a file beneath that directory,
    and so are control calls on devices.  Put on in the other order, the filters
    kill the process when it turns to Landlock. *)
Theorem sandboxed_process_is_confined file k p p' :
  filters p = [] → domains p = [] → apply_preauth_sandbox nr file k p = (p', Returned (Ok tt)) →
  no_new_privs p' = true ∧
  (∀ s, verdict (filters p') (nr s) = policy s) ∧
  (∃ root, nearest_existing_directory (is_dir k) file = Some (Ok root) ∧
     (∀ right path, permitted beneath p' right path = left_by_landlock beneath root right path) ∧
     (∀ right path, right ∈ from_all_v1 ++ [Refer] →
        permitted beneath p' right path
        = bool_decide (right = ReadFile ∨ right = ReadDir) && beneath root path) ∧
     (∀ A (r : result anyhow A) path, beneath root path = true →
        open_file nr beneath [ReadFile; Truncate] path r p' = (p', Returned r))) ∧
  (∃ p'', (_ ← install_seccomp nr k; install_authorized_keys_landlock nr file k) p
          = (p'', KilledBy "landlock_create_ruleset")).
Proof.
  intros Hf Hd H. destruct (apply_preauth_sandbox_Ok nr file k p p' Hf Hd H) as (root & Hn & ? & Hv & Hdom & _).
  pose proof (λ right path, permitted_confined beneath root p' right path Hdom) as Hp.
  split_and!; [done|done| |].
  - exists root. split_and!; [done|done| |].
    + intros right path Hr. rewrite Hp. destruct right; try done; by set_unfold in Hr; naive_solver.
    + intros A r path Hb. unfold open_file. cbn [forallb]. rewrite !Hp. cbn [left_by_landlock]. rewrite Hb.
      rewrite call_filtered by done. replace (policy "openat") with Allow by (vm_compute; reflexivity). by destruct r.
  - apply proc_bind_Ok in H as (root' & p1 & H & Hi). apply landlock_Ok in H as H'; [|done]. destruct H' as [-> _].
    apply (install_seccomp_Ok nr) in Hi as (_ & He & Ha); [|done]. unfold install_authorized_keys_landlock in H.
    rewrite Hn in H. unfold pure_ in H. unfold mbind, proc_bind. rewrite install_seccomp_cases, He, Ha by done.
    unfold install_authorized_keys_landlock. rewrite Hn. unfold mbind, proc_bind, pure_ in *. cbn in *.
    destruct (configure k) as [[]|e]; cbn in *; [|done]. unfold contextual.
    rewrite call_filtered by exact (installed_filtered nr p).
    replace (policy "landlock_create_ruleset") with KillProcess by (vm_compute; reflexivity).
    by eexists.
Qed.

(** The probes see the policy.  On a system on which the sandbox goes on, and
    whose authorized keys file lies beneath the directory left readable and can
    be read, the probe reports that reading works and that writing, starting a
    program and opening a socket are refused under a filter, however the
    standard library starts programs; and the default-deny probe is killed by
    the call it makes, which is in neither list. *)
Theorem probes_report_the_policy file k w root text :
  all_granted k → nearest_existing_directory (is_dir k) file = Some (Ok root) →
  beneath root file = true → file_text w = Ok text → file_exists w = true →
  spawn_call w ∈ ["clone"; "clone3"; "fork"; "vfork"]%string →
  (∃ p, internal_probe nr beneath file k w unconfined
        = (p, Returned (Ok (join_with [10%N] [lit "read_ok=1"; lit "write_denied=1"; lit "exec_denied=1";
                              lit "socket_eperm=1"; lit "seccomp_mode=2"; []])))) ∧
  (∃ p, internal_default_deny_probe nr file k unconfined = (p, KilledBy "memfd_create")).
Proof.
  intros Hk Hn Hb Ht He Hs.
  destruct (sandbox_granted nr file k root Hk Hn) as (p1 & p & H1 & H2 & _ & Hf & Hd & Hne).
  assert (∀ name A (r : result anyhow A), policy name = Allow →
    call nr name r (λ p, p) p = (p, Returned r)) as Hallow.
  { intros name A r Hp. rewrite call_filtered by done. rewrite Hp. by destruct r. }
  assert (∀ name A (r : result anyhow A), policy name = Errno EPERM →
    attempt (call nr name r (λ p, p)) p
    = (p, Returned (Ok (Err [IoCause (IoError PermissionDenied (lit "Operation not permitted"))])))) as Heperm.
  { intros name A r Hp. unfold attempt. rewrite call_filtered by done. by rewrite Hp. }
  split.
  - exists p. unfold internal_probe.
    apply proc_bind_Ok. exists tt, p1. split; [done|]. apply proc_bind_Ok. exists tt, p. split; [done|].
    apply proc_bind_Ok. exists text, p. split.
    { apply contextual_Ok. unfold open_file. cbn [forallb]. rewrite (permitted_confined beneath root) by done.
      cbn [left_by_landlock]. rewrite Hb, Ht. by apply Hallow. }
    apply proc_bind_Ok. eexists _, p. split.
    { unfold attempt, open_file. cbn [forallb]. rewrite (permitted_confined beneath root) by done. by rewrite Hallow. }
    apply proc_bind_Ok. eexists _, p. split.
    { apply Heperm. repeat (apply elem_of_cons in Hs as [->|Hs]; [by vm_compute|]). by apply elem_of_nil in Hs. }
    apply proc_bind_Ok. eexists _, p. split; [by apply Heperm|].
    apply proc_bind_Ok. exists 2, p. split.
    { unfold secure_computing_mode. rewrite Hallow by done. by destruct (filters p). }
    rewrite He, orb_true_r. reflexivity.
  - exists p. unfold internal_default_deny_probe. unfold mbind, proc_bind. rewrite H1, H2.
    unfold attempt. rewrite call_filtered by done.
    by replace (policy "memfd_create") with KillProcess by (vm_compute; reflexivity).
Qed.
End Properties.

(** ** Witnesses *)

Definition demo_kernel : kernel := {|
  prctl_no_new_privs := Ok tt; configure := Ok tt; create_ruleset := Ok tt; open_root := Ok tt;
  add_rule := Ok tt; restrict := Ok {| ruleset := FullyEnforced; status_no_new_privs := true |};
  errno_filter_set := Ok tt; allowlist_set := Ok tt;
  is_dir := λ p, bool_decide (p = lit "/home/alice/.ssh");
|}.
Definition demo_file : str := lit "/home/alice/.ssh/authorized_keys".
Definition demo_beneath (root path : str) : bool := starts_with root path.

Lemma demo_nr_inj : Inj (=) (=) demo_nr.
Proof. intros x y H. unfold demo_nr in H. apply (inj encode). congruence. Qed.

Lemma demo_granted : all_granted demo_kernel.
Proof. by split_and!. Qed.

Lemma demo_nearest :
  nearest_existing_directory (is_dir demo_kernel) demo_file = Some (Ok (lit "/home/alice/.ssh")).
Proof. vm_compute. reflexivity. Qed.

Definition demo_confined : process := (apply_preauth_sandbox demo_nr demo_file demo_kernel unconfined).1.

Lemma demo_confined_Ok :
  apply_preauth_sandbox demo_nr demo_file demo_kernel unconfined = (demo_confined, Returned (Ok tt)).
Proof.
  pose proof demo_nr_inj. unfold demo_confined.
  assert ((apply_preauth_sandbox demo_nr demo_file demo_kernel unconfined).2 = Returned (Ok tt)) as H1
    by (vm_compute; reflexivity).
  destruct (apply_preauth_sandbox _ _ _ _) as [p r]. by cbn in *; subst.
Qed.

Lemma sandboxed_process_is_confined_witness :
  verdict (filters demo_confined) (demo_nr "execve") = Errno EPERM ∧
  verdict (filters demo_confined) (demo_nr "openat") = Allow.
Proof.
  destruct (sandboxed_process_is_confined demo_nr (Inj0 := demo_nr_inj) demo_beneath demo_file demo_kernel
    unconfined demo_confined eq_refl eq_refl demo_confined_Ok) as (_ & H & _).
  rewrite !H. split; vm_compute; reflexivity.
Defined.

Definition demo_world : probe_world := {|
  file_text := Ok (lit "ssh-ed25519 AAAA"); file_exists := true; open_for_writing := Ok tt;
  spawn_call := "clone3"; spawned := Ok tt; socket_made := Ok tt;
|}.

Lemma probes_report_the_policy_witness :
  ∃ p, internal_default_deny_probe demo_nr demo_file demo_kernel unconfined = (p, KilledBy "memfd_create").
Proof.
  apply (probes_report_the_policy demo_nr (Inj0 := demo_nr_inj) demo_beneath demo_file demo_kernel demo_world
           (lit "/home/alice/.ssh") (lit "ssh-ed25519 AAAA")).
  - exact demo_granted.
  - exact demo_nearest.
  - vm_compute. reflexivity.
  - reflexivity.
  - reflexivity.
  - right. left.
Defined.

End Confinement.
