(* ===== verification/Startup.v ===== *)
(** * Start-up (src/src/sshd.rs, [run_until_shutdown] and [AppState::bootstrap])

    From a configuration to the accept loop: the host key is read or generated,
    the authorized keys loaded, the executor spawned, the listener bound, and
    the daemon confined (on Linux; elsewhere confining does nothing), in that
    order and each only when everything before it succeeded.  A start-up is a computation that records what it does to the
    system and may fail or panic; the answers it gets are its [environment]. *)

From S2P Require Import Prelude Rust Float64 Net Paths Config Admission LogLimiter Metrics AuthorizedKeys Server.

Local Open Scope Z_scope.

Module Startup.

(** What start-up does to the system. *)
Inductive effect :=
| CreateDirAll (dir : str)
| SetMode (dir : str) (mode : Z)
| WriteHostKey (path : str)
| SpawnExecutor (program : option str) (shell : str) (m : Config.ExecMode) (home : str)
| BindListener (address : str) (port : Z)
| NoNewPrivs
| Confine (authorized_keys_file : str)
| Serve.

#[global] Instance effect_eq_dec : EqDecision effect.
Proof. solve_decision. Defined.

Definition startup (A : Type) : Type := list effect * run (result anyhow A).

#[global] Instance startup_ret : MRet startup := λ A a, ([], Ret (Ok a)).
#[global] Instance startup_bind : MBind startup := λ A B k m,
  match m with
  | (tr, Ret (Ok a)) => let '(tr', r) := k a in (tr ++ tr', r)
  | (tr, Ret (Err e)) => (tr, Ret (Err e))
  | (tr, Panic p) => (tr, Panic p)
  end.

Definition attempt {A} (r : result anyhow A) : startup A := ([], Ret r).
Definition may_panic {A} (r : run (result anyhow A)) : startup A := ([], r).
(** An effect and its outcome; one that fails was attempted all the same. *)
Definition effect_of {A} (e : effect) (r : result anyhow A) : startup A := ([e], Ret r).

Section Startup.
Context {PrivateKey : Type} (key_algorithm : PrivateKey → Server.Algorithm).
Context {PublicKey key_error : Type}.
Context (to_bytes : PublicKey → result key_error (list N)).
Context (key_error_display : key_error → str).
Context (entries : str → list (result key_error (str * PublicKey))).

(** The answers of the system; [cfg_unix] is whether the target is a Unix one,
    [cfg_linux] whether it is Linux.
    [passwd_name] is the name in the passwd entry of [uid], the two variables are
    those of the environment of the process. *)
Record environment := {
  cfg_unix : bool;
  cfg_linux : bool;
  home_dir : option str;
  host_key_exists : bool;
  read_openssh_file : result anyhow PrivateKey;
  host_key_mode : result io_error Z;
  create_dir_all : result io_error unit;
  set_permissions : result io_error unit;
  random_key : result anyhow PrivateKey;
  write_openssh_file : result anyhow unit;
  uid : Z;
  passwd_name : result io_error (option str);
  var_username : result anyhow str;
  var_user : result anyhow str;
  keys_file_exists : bool;
  keys_file : AuthorizedKeys.fs_view;
  spawn_executor : result anyhow unit;
  bind_listener : result io_error unit;
  set_no_new_privs : result anyhow unit;
  apply_sandbox : result anyhow unit;
  now : Instant;
}.

(** Three octal digits. *)
Definition octal3 (m : Z) : str :=
  (λ k, Z.to_N (48 + Z.land (Z.shiftr m k) 7)) <$> [6; 3; 0].

(** Targets other than Unix do not look at the mode of the file. *)
Definition verify_private_host_key_file_permissions (path : str) (env : environment)
  : result anyhow unit :=
  if negb (cfg_unix env) then Ok tt else
  mode ← with_context (lit "failed to stat host key " ++ path) (io_result (host_key_mode env));
  let mode := Z.land mode 511 in
  if negb (Z.land mode 63 =? 0)
  then bail (lit "host key " ++ path ++ lit " has insecure permissions " ++ octal3 mode
             ++ lit "; group/other access bits must be unset")
  else Ok tt.

Definition ensure_private_host_key_directory (dir : str) (env : environment) : startup unit :=
  if negb (cfg_unix env) then mret tt else
  effect_of (SetMode dir 448)
    (with_context (lit "failed to set directory mode 0700 on " ++ dir)
       (io_result (set_permissions env))).

Definition with_startup_context {A} (m : str) (s : startup A) : startup A :=
  (s.1, map_run (with_context m) s.2).

Definition load_or_generate_host_key (path : str) (env : environment) : startup PrivateKey :=
  if host_key_exists env then
    key ← attempt (with_context (lit "failed to read host key " ++ path) (read_openssh_file env));
    _ ← attempt (verify_private_host_key_file_permissions path env);
    mret key
  else
    _ ← match parent path with
        | Some dir =>
            _ ← effect_of (CreateDirAll dir)
                  (with_context (lit "failed to create " ++ dir) (io_result (create_dir_all env)));
            with_startup_context (lit "failed to secure " ++ dir)
              (ensure_private_host_key_directory dir env)
        | None => mret tt
        end;
    key ← attempt (with_context (lit "failed to generate host key") (random_key env));
    _ ← effect_of (WriteHostKey path)
          (with_context (lit "failed to write host key " ++ path) (write_openssh_file env));
    _ ← attempt (verify_private_host_key_file_permissions path env);
    mret key.

Definition daemon_username (env : environment) : result anyhow str :=
  if cfg_unix env then
    user ← with_context (lit "failed to resolve daemon user from current uid")
             (io_result (passwd_name env));
    ok_or [Msg (lit "no passwd entry for daemon uid " ++ dec (uid env))] user
  else
    with_context (lit "failed to determine current username from environment")
      (match var_username env with Ok u => Ok u | Err _ => var_user env end).

Definition load_keys (c : Config.AppConfig) (env : environment)
  : startup (mutex AuthorizedKeys.AuthorizedKeysState) :=
  let p := Config.authorized_keys_file c in
  let size := Config.authorized_keys_max_size c in
  let count := Config.authorized_keys_max_entries c in
  let interval := Config.authorized_keys_reload_interval c in
  may_panic
    (if keys_file_exists env
     then AuthorizedKeys.store_load to_bytes key_error_display entries p size count interval
            (now env) (keys_file env)
     else map_run Ok (AuthorizedKeys.store_empty_missing p size count interval (now env))).

(** [AppState::bootstrap]. *)
Definition bootstrap (c : Config.AppConfig) (executor_program : option str) (env : environment)
  : startup Server.AppState :=
  home ← attempt (ok_or [Msg (lit "unable to determine home directory")] (home_dir env));
  host_key ← load_or_generate_host_key (Config.host_key c) env;
  user ← attempt (daemon_username env);
  keys ← load_keys c env;
  _ ← attempt (match key_algorithm host_key with
               | Server.Ed25519 => Ok tt
               | _ => bail (lit "host key " ++ Config.host_key c
                            ++ lit " must be an Ed25519 key for the public exposure profile")
               end);
  _ ← effect_of (SpawnExecutor executor_program (Config.shell c) (Config.exec_mode c) home)
        (spawn_executor env);
  mret (Server.bootstrap_state c user keys (now env)).

(** [sandbox::enable_no_new_privs] and [sandbox::apply_preauth_sandbox]: targets
    other than Linux do nothing. *)
Definition enable_no_new_privs (env : environment) : startup unit :=
  if cfg_linux env then effect_of NoNewPrivs (set_no_new_privs env) else mret tt.

Definition apply_preauth_sandbox (authorized_keys_file : str) (env : environment) : startup unit :=
  if cfg_linux env then effect_of (Confine authorized_keys_file) (apply_sandbox env) else mret tt.

(** [run_until_shutdown] up to the accept loop. *)
Definition run_until_shutdown (c : Config.AppConfig) (env : environment) : startup Server.AppState :=
  state ← bootstrap c None env;
  _ ← effect_of (BindListener (Config.listen_address c) (Config.port c))
        (io_result (bind_listener env));
  _ ← enable_no_new_privs env;
  _ ← apply_preauth_sandbox (Config.authorized_keys_file c) env;
  _ ← effect_of Serve (Ok tt);
  mret state.

(** [run_on_listener_unsandboxed_for_tests], on a listener it is given. *)
Definition run_on_listener_unsandboxed_for_tests (c : Config.AppConfig)
  (executor_program : option str) (env : environment) : startup Server.AppState :=
  state ← bootstrap c executor_program env;
  _ ← effect_of Serve (Ok tt);
  mret state.

(** ** Lemmas *)

Lemma startup_bind_Ok {A B} (m : startup A) (k : A → startup B) tr b :
  (m ≫= k) = (tr, Ret (Ok b)) ↔
  ∃ a tr1 tr2, m = (tr1, Ret (Ok a)) ∧ k a = (tr2, Ret (Ok b)) ∧ tr = tr1 ++ tr2.
Proof.
  unfold mbind, startup_bind. split.
  - destruct m as [tr1 [[a|e]|p]]; [|done..]. destruct (k a) as [tr2 r] eqn:Hk.
    intros [= <- ->]. by exists a, tr1, tr2.
  - by intros (a & tr1 & tr2 & -> & -> & ->).
Qed.

(** Something done by [m ≫= k] was done by [m], or by [k] after [m] succeeded. *)
Lemma startup_bind_elem {A B} (m : startup A) (k : A → startup B) e :
  e ∈ (m ≫= k).1 → e ∈ m.1 ∨ ∃ a, m.2 = Ret (Ok a) ∧ e ∈ (k a).1.
Proof.
  unfold mbind, startup_bind. destruct m as [tr1 [[a|e']|p]]; cbn; [|by left..].
  destruct (k a) as [tr2 r] eqn:Hk. cbn. intros [?|?]%elem_of_app; [by left|right].
  exists a. by rewrite Hk.
Qed.

Lemma attempt_Ok {A} (r : result anyhow A) tr a :
  attempt r = (tr, Ret (Ok a)) ↔ tr = [] ∧ r = Ok a.
Proof. unfold attempt. naive_solver. Qed.

Lemma effect_of_Ok {A} e (r : result anyhow A) tr a :
  effect_of e r = (tr, Ret (Ok a)) ↔ tr = [e] ∧ r = Ok a.
Proof. unfold effect_of. naive_solver. Qed.

Lemma verify_Ok path env u :
  verify_private_host_key_file_permissions path env = Ok u →
  cfg_unix env = true → ∃ mode, host_key_mode env = Ok mode ∧ Z.land mode 63 = 0.
Proof.
  unfold verify_private_host_key_file_permissions. intros H Hunix. rewrite Hunix in H. revert H.
  destruct (host_key_mode env) as [mode|e]; [|done]. cbn -[lit]. intros H. exists mode. split; [done|].
  destruct (Z.land (Z.land mode 511) 63 =? 0) eqn:E; [|done]. apply Z.eqb_eq in E.
  by rewrite <- Z.land_assoc in E.
Qed.

Ltac inv_startup :=
  repeat match goal with
  | H : _ ≫= _ = (_, Ret (Ok _)) |- _ => apply startup_bind_Ok in H as (? & ? & ? & ? & H & ->)
  | H : attempt _ = (_, Ret (Ok _)) |- _ => apply attempt_Ok in H as [-> H]
  | H : effect_of _ _ = (_, Ret (Ok _)) |- _ => apply effect_of_Ok in H as [-> H]
  | H : mret _ = (_, Ret (Ok _)) |- _ => injection H as <- <-
  end.

(** What obtaining the host key does when it succeeds. *)
Definition key_effects (path : str) (env : environment) : list effect :=
  if host_key_exists env then []
  else match parent path with
       | Some dir => CreateDirAll dir :: if cfg_unix env then [SetMode dir 448] else []
       | None => []
       end ++ [WriteHostKey path].

Lemma load_or_generate_host_key_Ok path env tr key :
  load_or_generate_host_key path env = (tr, Ret (Ok key)) →
  tr = key_effects path env ∧
  (cfg_unix env = true → ∃ mode, host_key_mode env = Ok mode ∧ Z.land mode 63 = 0).
Proof.
  unfold load_or_generate_host_key, key_effects. destruct (host_key_exists env); intros H; inv_startup.
  - split; [done|]. by eapply verify_Ok.
  - destruct (parent path) as [dir|]; inv_startup.
    + unfold with_startup_context, ensure_private_host_key_directory, effect_of in *.
      destruct (cfg_unix env) eqn:Hu; simplify_eq/=; (split; [done|]); [|done].
      intros _. by eapply verify_Ok.
    + split; [done|]. by eapply verify_Ok.
Qed.

Lemma load_keys_quiet c env : (load_keys c env).1 = [].
Proof. done. Qed.

Lemma bootstrap_Ok c program env tr state :
  bootstrap c program env = (tr, Ret (Ok state)) →
  ∃ home key, tr = key_effects (Config.host_key c) env
                     ++ [SpawnExecutor program (Config.shell c) (Config.exec_mode c) home] ∧
    home_dir env = Some home ∧
    (load_or_generate_host_key (Config.host_key c) env).2 = Ret (Ok key) ∧
    key_algorithm key = Server.Ed25519 ∧
    daemon_username env = Ok (Server.daemon_username state) ∧
    (cfg_unix env = true → ∃ mode, host_key_mode env = Ok mode ∧ Z.land mode 63 = 0).
Proof.
  unfold bootstrap. intros H. inv_startup.
  match goal with H : load_or_generate_host_key _ _ = _ |- _ =>
    rewrite H; apply load_or_generate_host_key_Ok in H as (-> & Hmode) end.
  match goal with H : ok_or _ _ = Ok _ |- _ => apply ok_or_Ok in H end.
  match goal with H : load_keys _ _ = (?t, _) |- _ =>
    assert (t = []) as -> by (by rewrite <- (load_keys_quiet c env), H) end.
  match goal with H : match key_algorithm ?k with _ => _ end = _ |- _ =>
    destruct (key_algorithm k) eqn:Hk; [|done..] end.
  eexists _, _. by split_and!.
Qed.

(** Nothing before the last step serves a connection. *)
Lemma bootstrap_does_not_serve c program env : Serve ∉ (bootstrap c program env).1.
Proof.
  assert (Hkey : Serve ∉ (load_or_generate_host_key (Config.host_key c) env).1).
  { unfold load_or_generate_host_key, ensure_private_host_key_directory.
    destruct (host_key_exists env); [|destruct (parent (Config.host_key c)), (cfg_unix env)]; intros H;
      repeat first [ apply startup_bind_elem in H as [H|(? & _ & H)] | set_solver ]. }
  unfold bootstrap. intros H.
  repeat first [ done | apply startup_bind_elem in H as [H|(? & _ & H)] | set_solver ].
Qed.

(** ** Properties *)

(** C20: the daemon serves nobody before it is confined.  If start-up reaches the
    accept loop, then everything before it succeeded: the host key is an
    Ed25519 key, on a Unix target in a file that group and others cannot access,
    and one generated now was written after its directory was closed to others;
    the only user who can log in is the one the process runs as; the executor
    was spawned before the listener was bound, and on Linux no-new-privileges and
    the sandbox were applied, and the calls succeeded, before the first connection
    is accepted; on other targets there is no sandbox, and no trace of one. *)
Theorem daemon_serves_only_confined c env :
  Serve ∈ (run_until_shutdown c env).1 →
  ∃ home key state,
    run_until_shutdown c env
    = (key_effects (Config.host_key c) env
         ++ [SpawnExecutor None (Config.shell c) (Config.exec_mode c) home;
             BindListener (Config.listen_address c) (Config.port c)]
         ++ (if cfg_linux env then [NoNewPrivs; Confine (Config.authorized_keys_file c)] else [])
         ++ [Serve],
       Ret (Ok state)) ∧
    (cfg_linux env = true → set_no_new_privs env = Ok tt ∧ apply_sandbox env = Ok tt) ∧ home_dir env = Some home ∧
    (load_or_generate_host_key (Config.host_key c) env).2 = Ret (Ok key) ∧
    key_algorithm key = Server.Ed25519 ∧
    daemon_username env = Ok (Server.daemon_username state) ∧
    (cfg_unix env = true → ∃ mode, host_key_mode env = Ok mode ∧ Z.land mode 63 = 0).
Proof.
  pose proof (bootstrap_does_not_serve c None env) as Hno. unfold run_until_shutdown. intros H.
  destruct (bootstrap c None env) as [tr [[state|e]|p]] eqn:Hb; [|by cbn in *..].
  apply bootstrap_Ok in Hb as (home & key & -> & Hh & Hl & Hk & Hu & Hm).
  unfold mbind, startup_bind, effect_of, mret, startup_ret in *.
  unfold enable_no_new_privs, apply_preauth_sandbox in *.
  destruct (bind_listener env) as [[]|e]; cbn in *; [|set_solver].
  destruct (cfg_linux env); cbn in *; [|exists home, key, state; by rewrite <- app_assoc].
  unfold effect_of in *.
  destruct (set_no_new_privs env) as [[]|e]; cbn in *; [|set_solver].
  destruct (apply_sandbox env) as [[]|e]; cbn in *; [|set_solver].
  exists home, key, state. by rewrite <- app_assoc.
Qed.

(** The variant for tests differs in the confinement alone: where the daemon
    serves, it serves the same state, started the same way, without the listener
    bound and the sandbox applied here. *)
Theorem test_server_skips_only_confinement c env :
  Serve ∈ (run_until_shutdown c env).1 →
  (run_on_listener_unsandboxed_for_tests c None env).2 = (run_until_shutdown c env).2 ∧
  (run_on_listener_unsandboxed_for_tests c None env).1
  = List.filter (λ e, match e with BindListener _ _ | NoNewPrivs | Confine _ => false | _ => true end)
      (run_until_shutdown c env).1.
Proof.
  pose proof (bootstrap_does_not_serve c None env) as Hno.
  unfold run_until_shutdown, run_on_listener_unsandboxed_for_tests. intros H.
  destruct (bootstrap c None env) as [tr [[state|e]|p]] eqn:Hb; [|by cbn in *..].
  apply bootstrap_Ok in Hb as (home & key & -> & _).
  unfold mbind, startup_bind, effect_of, mret, startup_ret in *.
  unfold enable_no_new_privs, apply_preauth_sandbox in *.
  destruct (bind_listener env) as [[]|e]; cbn in *; [|set_solver].
  destruct (cfg_linux env); cbn in *; unfold effect_of in *;
    [destruct (set_no_new_privs env) as [[]|e]; cbn in *; [|set_solver];
     destruct (apply_sandbox env) as [[]|e]; cbn in *; [|set_solver]|];
  (split; [done|]); unfold key_effects; rewrite !List.filter_app;
  by destruct (host_key_exists env); [|destruct (parent (Config.host_key c)), (cfg_unix env)].
Qed.
End Startup.

(** A first start: no host key yet, an empty home. *)
Definition demo_config : Config.AppConfig :=
  Config.default_config (lit "/home/alice") (lit "/home/alice/.config/narrowd").

Definition demo_environment : environment (PrivateKey := unit) := {|
  cfg_unix := true; cfg_linux := true; home_dir := Some (lit "/home/alice"); host_key_exists := false;
  read_openssh_file := Err []; host_key_mode := Ok 33152; create_dir_all := Ok tt;
  set_permissions := Ok tt; random_key := Ok tt; write_openssh_file := Ok tt;
  uid := 1000; passwd_name := Ok (Some (lit "alice")); var_username := Err []; var_user := Err [];
  keys_file_exists := false;
  keys_file := {| AuthorizedKeys.fs_stat := Err (IoError NotFound []);
                  AuthorizedKeys.fs_open := Err (IoError NotFound []) |};
  spawn_executor := Ok tt; bind_listener := Ok tt; set_no_new_privs := Ok tt; apply_sandbox := Ok tt;
  now := 1000;
|}.

Definition demo_run : startup Server.AppState :=
  run_until_shutdown (λ _, Server.Ed25519) (λ k : list N, @Ok str _ k) (λ e, e) (λ _, [])
    demo_config demo_environment.

Lemma daemon_serves_only_confined_witness :
  Serve ∈ demo_run.1 ∧ ∃ mode, host_key_mode demo_environment = Ok mode ∧ Z.land mode 63 = 0.
Proof.
  assert (Serve ∈ demo_run.1) as H.
  { apply (bool_decide_unpack (Serve ∈ demo_run.1)). vm_compute. exact I. }
  split; [exact H|].
  destruct (daemon_serves_only_confined (λ _, Server.Ed25519) (λ k : list N, @Ok str _ k)
              (λ e, e) (λ _, []) demo_config demo_environment H) as (_ & _ & _ & _ & _ & _ & _ & _ & _ & Hm).
  exact (Hm eq_refl).
Defined.

End Startup.
