(* ===== verification/Logging.v ===== *)
(** * The rotating log file (src/src/logging.rs)

    [RotatingLogFile] appends to a file and moves it aside, replacing the copy
    moved aside before, when the next write would take it over its limit.  The
    disk holds the two files; each call that may fail gets its answer as an
    argument.  [init] builds the logger over such a file, and
    [append_bootstrap_error] writes to the log before there is a logger. *)

From S2P Require Import Prelude Rust Paths Config.

Local Open Scope Z_scope.

Module Logging.

Abbreviation bytes := (list N) (only parsing).

Definition DEFAULT_LOG_ROTATE_BYTES : Z := 10 * 1024 * 1024.

Definition rotated_log_path (path : str) : str :=
  let rotated_name := default (lit "narrowd.log") (file_name path) ++ lit ".1" in
  match parent path with
  | Some dir => join dir rotated_name
  | None => rotated_name
  end.

(** The log file and the copy moved aside. *)
Record disk := { log_file : option bytes; old_file : option bytes }.

(** The writer: an open file is always the log file, in append mode. *)
Record RotatingLogFile := { max_bytes : Z; current_len : Z; file_open : bool }.

(** What the operating system will answer. *)
Record answers := {
  create_dir : result io_error unit;
  open_file : result io_error unit;
  metadata : result io_error unit;
  flushed : result io_error unit;
  removed : result io_error unit;
  renamed : result io_error unit;
  written : result io_error nat;
}.

Definition all_fine (n : nat) : answers := {|
  create_dir := Ok tt; open_file := Ok tt; metadata := Ok tt; flushed := Ok tt; removed := Ok tt;
  renamed := Ok tt; written := Ok n;
|}.

(** [open_log_file]: the file is created when it does not exist. *)
Definition open_log_file (a : answers) (d : disk) : disk * result io_error Z :=
  match create_dir a with
  | Err e => (d, Err e)
  | Ok _ =>
      match open_file a with
      | Err e => (d, Err e)
      | Ok _ =>
          let content := default [] (log_file d) in
          ({| log_file := Some content; old_file := old_file d |},
           map_ok (λ _, Z.of_nat (length content)) (metadata a))
      end
  end.

Definition RotatingLogFile_new (limit : Z) (a : answers) (d : disk)
  : disk * result io_error RotatingLogFile :=
  let '(d, r) := open_log_file a d in
  (d, map_ok (λ n, {| max_bytes := limit; current_len := n; file_open := true |}) r).

Definition set_open (o : bool) (s : RotatingLogFile) : RotatingLogFile :=
  {| max_bytes := max_bytes s; current_len := current_len s; file_open := o |}.

(** The moves of a rotation once the handle was taken. *)
Definition move_aside (a : answers) (s : RotatingLogFile) (d : disk)
  : disk * RotatingLogFile * result io_error unit :=
  match (match old_file d with Some _ => removed a | None => Ok tt end) with
  | Err e => (d, s, Err e)
  | Ok _ =>
      let d := {| log_file := log_file d; old_file := None |} in
      match renamed a with
      | Err e => (d, s, Err e)
      | Ok _ =>
          let d := {| log_file := None; old_file := log_file d |} in
          let '(d, r) := open_log_file a d in
          match r with
          | Err e => (d, s, Err e)
          | Ok n => (d, {| max_bytes := max_bytes s; current_len := n; file_open := true |}, Ok tt)
          end
      end
  end.

Definition rotate_if_needed (incoming_len : Z) (a : answers) (s : RotatingLogFile) (d : disk)
  : disk * RotatingLogFile * result io_error unit :=
  if (incoming_len =? 0) || (current_len s =? 0)
     || (saturating_add u64_max (current_len s) incoming_len <=? max_bytes s)
  then (d, s, Ok tt)
  else
    if file_open s then
      match flushed a with
      | Err e => (d, set_open false s, Err e)
      | Ok _ => move_aside a (set_open false s) d
      end
    else move_aside a s d.

(** [Write::write]: the bytes of [buf] the system took are appended. *)
Definition write (buf : bytes) (a : answers) (s : RotatingLogFile) (d : disk)
  : disk * RotatingLogFile * run (result io_error nat) :=
  let '(d, s, r) := rotate_if_needed (Z.of_nat (length buf)) a s d in
  match r with
  | Err e => (d, s, Ret (Err e))
  | Ok _ =>
      if file_open s then
        match written a with
        | Err e => (d, s, Ret (Err e))
        | Ok n =>
            ({| log_file := (λ content, content ++ take n buf) <$> log_file d; old_file := old_file d |},
             {| max_bytes := max_bytes s;
                current_len := saturating_add u64_max (current_len s) (Z.of_nat n);
                file_open := true |}, Ret (Ok n))
        end
      else (d, s, Panic "log file handle must be open")
  end.

Definition flush (a : answers) (s : RotatingLogFile) : run (result io_error unit) :=
  if file_open s then Ret (flushed a) else Panic "log file handle must be open".

(** ** The logger *)

(** What [init] asked of env_logger: a level, a rotating file in place of the
    standard error (and then no colours), and overrides from RUST_LOG. *)
Record logger := {
  filter_level : Config.LevelFilter;
  pipe : option RotatingLogFile;
  write_style_never : bool;
  default_env : bool;
}.

(** [init]; env_logger accepts one logger per process. *)
Definition init (level : Config.LogLevel) (path : option str) (rust_log : bool)
  (try_init : result anyhow unit) (a : answers) (d : disk) : disk * result anyhow logger :=
  let '(d, file) :=
    match path with
    | None => (d, Ok None)
    | Some _ =>
        let '(d, r) := RotatingLogFile_new DEFAULT_LOG_ROTATE_BYTES a d in
        (d, map_ok Some (io_result r))
    end in
  (d, file ← file;
      _ ← with_context (lit "failed to initialize application logging") try_init;
      Ok {| filter_level := Config.to_level_filter level; pipe := file;
            write_style_never := bool_decide (is_Some path); default_env := rust_log |}).

(** ** The bootstrap log *)

(** Writing a whole buffer: what was taken, and the outcome. *)
Record bootstrap_answers := {
  parent_created : result io_error unit;
  opened : result io_error unit;
  all_written : nat * result io_error unit;
  all_flushed : result io_error unit;
}.

Definition append_bootstrap_line (message : bytes) (a : bootstrap_answers) (d : disk)
  : disk * result io_error unit :=
  match parent_created a with
  | Err e => (d, Err e)
  | Ok _ =>
      match opened a with
      | Err e => (d, Err e)
      | Ok _ =>
          let '(taken, r) := all_written a in
          let taken := match r with Ok _ => length message | Err _ => taken end in
          ({| log_file := Some (default [] (log_file d) ++ take taken message); old_file := old_file d |},
           match r with Ok _ => all_flushed a | Err e => Err e end)
      end
  end.

Definition bootstrap_line (message : str) : bytes :=
  lit "narrowd bootstrap error: " ++ message ++ [10%N].

Definition append_bootstrap_error (path : option str) (message : str) (a : bootstrap_answers) (d : disk)
  : disk :=
  match path with
  | None => d
  | Some _ => (append_bootstrap_line (bootstrap_line message) a d).1
  end.

(** ** Lemmas *)

Definition bootstrap_fine : bootstrap_answers := {|
  parent_created := Ok tt; opened := Ok tt; all_written := (0%nat, Ok tt); all_flushed := Ok tt;
|}.

(** A bootstrap error is appended, whole when the disk works, and never touches
    what the log held. *)
Lemma append_bootstrap_error_appends path message a d :
  ∃ k, default [] (log_file (append_bootstrap_error path message a d))
       = default [] (log_file d) ++ take k (bootstrap_line message) ∧
       old_file (append_bootstrap_error path message a d) = old_file d.
Proof.
  unfold append_bootstrap_error, append_bootstrap_line.
  destruct path; [|exists 0%nat; by rewrite take_0, app_nil_r].
  destruct (parent_created a), (opened a), (all_written a) as [k [|]];
    try (exists 0%nat; by rewrite take_0, app_nil_r); by eexists.
Qed.

Lemma append_bootstrap_error_fine path message d :
  log_file (append_bootstrap_error (Some path) message bootstrap_fine d)
  = Some (default [] (log_file d) ++ bootstrap_line message).
Proof.
  unfold append_bootstrap_error, append_bootstrap_line. cbn [parent_created opened all_written bootstrap_fine log_file fst].
  by rewrite take_ge.
Qed.

(** The writer knows the length of the file it has open. *)
Record log_inv (s : RotatingLogFile) (d : disk) : Prop := {
  len_known : ∃ content, log_file d = Some content ∧ current_len s = Z.of_nat (length content);
  len_small : current_len s ≤ max_bytes s;
  is_open : file_open s = true;
}.

(** Writes of at most [limit] bytes each, all of them taken whole. *)
Fixpoint write_all (bufs : list bytes) (s : RotatingLogFile) (d : disk)
  : disk * RotatingLogFile * run (result io_error unit) :=
  match bufs with
  | [] => (d, s, Ret (Ok tt))
  | buf :: bufs =>
      let '(d, s, r) := write buf (all_fine (length buf)) s d in
      match r with
      | Ret (Ok _) => write_all bufs s d
      | Ret (Err e) => (d, s, Ret (Err e))
      | Panic p => (d, s, Panic p)
      end
  end.

(** Everything the two files hold, oldest first. *)
Definition contents (d : disk) : bytes := default [] (old_file d) ++ default [] (log_file d).

(** One write: appended to the file as it is, or alone in a new file with the
    old one moved aside. *)
Lemma write_fits buf s d :
  log_inv s d → Z.of_nat (length buf) ≤ max_bytes s → max_bytes s < u64_max →
  ∃ s' d', write buf (all_fine (length buf)) s d = (d', s', Ret (Ok (length buf))) ∧
    log_inv s' d' ∧ max_bytes s' = max_bytes s ∧
    (log_file d' = (λ c, c ++ buf) <$> log_file d ∧ old_file d' = old_file d ∨
     log_file d' = Some buf ∧ old_file d' = log_file d).
Proof.
  intros [(c & Hc & Hlen) Hsmall Hopen] Hbuf Hmax. destruct s as [limit n open], d as [lf old]; cbn in *.
  subst lf n open. unfold write, rotate_if_needed. cbn [current_len max_bytes file_open].
  destruct ((Z.of_nat (length buf) =? 0) || (Z.of_nat (length c) =? 0)
            || (saturating_add u64_max (Z.of_nat (length c)) (Z.of_nat (length buf)) <=? limit)) eqn:E.
  - cbn. rewrite take_ge by lia. eexists _, _. split; [done|]. cbn.
    assert (Z.of_nat (length c) + Z.of_nat (length buf) ≤ limit) as Hfit.
    { apply orb_true_iff in E as [[E|E]%orb_true_iff|E].
      - apply Z.eqb_eq in E. lia.
      - apply Z.eqb_eq in E. lia.
      - apply Z.leb_le in E. unfold saturating_add in E. lia. }
    split; [|by split; [|left]]. split; cbn; [|unfold saturating_add; lia|done].
    exists (c ++ buf). split; [done|]. rewrite length_app. unfold saturating_add. lia.
  - unfold move_aside, open_log_file. cbn. rewrite take_ge by lia.
    destruct old; cbn; (eexists _, _; split; [done|]);
      (split; [|by split; [|right]]); (split; cbn; [|unfold saturating_add; lia|done]);
      (exists buf; split; [done|unfold saturating_add; lia]).
Qed.

(** ** Properties *)

(** The log stays within its limit and loses only the oldest of it.  With writes
    no longer than the limit and a disk that works, every write succeeds, the
    log file never exceeds the limit, and what the two files then hold is the
    end of everything that was in them and written since. *)
Theorem log_file_is_bounded (bufs : list bytes) (s : RotatingLogFile) (d : disk) :
  log_inv s d → max_bytes s < u64_max →
  Forall (λ b, Z.of_nat (length b) ≤ max_bytes s) bufs →
  ∃ d' s' content lost, write_all bufs s d = (d', s', Ret (Ok tt)) ∧
    log_file d' = Some content ∧ Z.of_nat (length content) ≤ max_bytes s ∧
    contents d ++ concat bufs = lost ++ contents d'.
Proof.
  intros Hinv Hmax Hbufs. revert s d Hinv Hmax Hbufs.
  induction bufs as [|b bufs IH]; intros s d Hinv Hmax Hbufs.
  - destruct Hinv as [(c & Hc & Hl) Hs Ho]. exists d, s, c, []. cbn. rewrite app_nil_r.
    split_and!; try done. lia.
  - apply Forall_cons in Hbufs as [Hb Hbufs].
    destruct (write_fits b s d Hinv Hb Hmax) as (s1 & d1 & Hw & Hinv1 & Hm & Hcase).
    destruct (IH s1 d1) as (d' & s' & content & lost & Hr & Hf & Hlen & Hall);
      [done|lia|by rewrite Hm|].
    exists d', s', content. rewrite Hm in Hlen.
    destruct Hinv as [(c & Hc & _) _ _]. unfold contents at 1 in Hall. unfold contents at 1.
    rewrite Hc in *. cbn [write_all fmap option_fmap option_map default concat] in *. rewrite Hw.
    destruct Hcase as [[H1 H2]|[H1 H2]]; rewrite H1, H2 in Hall; cbn in Hall |- *.
    + exists lost. split_and!; [done..|]. rewrite <- Hall, <- !app_assoc. done.
    + exists (default [] (old_file d) ++ lost). split_and!; [done..|].
      rewrite <- !app_assoc, <- Hall, <- !app_assoc. done.
Qed.

(** A rotation that fails leaves the log without a handle.  When the old copy
    cannot be removed or the file cannot be moved, the write fails with that
    error, and the next [flush] panics. *)
Theorem failed_rotation_makes_flush_panic (buf : bytes) (a a' : answers) (e : io_error)
  (s : RotatingLogFile) (d : disk) :
  buf ≠ [] → 0 < current_len s → max_bytes s < current_len s + Z.of_nat (length buf) ≤ u64_max →
  flushed a = Ok tt → (is_Some (old_file d) ∧ removed a = Err e ∨ old_file d = None ∧ renamed a = Err e) →
  ∃ d' s', write buf a s d = (d', s', Ret (Err e)) ∧
    flush a' s' = Panic "log file handle must be open".
Proof.
  intros Hbuf Hlen Hbig Hfl Hfail. unfold write, rotate_if_needed.
  rewrite (proj2 (Z.eqb_neq (Z.of_nat (length buf)) 0)) by (destruct buf; simpl; [done|lia]).
  rewrite (proj2 (Z.eqb_neq (current_len s) 0)) by lia.
  rewrite (proj2 (Z.leb_gt _ (max_bytes s))) by (unfold saturating_add; lia). cbn [orb].
  assert (∃ d' s', (if file_open s then
     match flushed a with
     | Err e => (d, set_open false s, Err e)
     | Ok _ => move_aside a (set_open false s) d
     end else move_aside a s d) = (d', s', Err e) ∧ file_open s' = false) as (d' & s' & -> & Ho).
  { rewrite Hfl. unfold move_aside.
    destruct (file_open s) eqn:Ho, Hfail as [[[x ->] ->]|[-> ->]]; by eexists _, _. }
  exists d', s'. split; [done|]. unfold flush. by rewrite Ho.
Qed.

Definition demo_log : RotatingLogFile := {| max_bytes := 4; current_len := 3; file_open := true |}.
Definition demo_disk : disk := {| log_file := Some (lit "abc"); old_file := Some (lit "old") |}.

Lemma log_file_is_bounded_witness :
  ∃ d' s' content lost, write_all [lit "d"; lit "ef"] demo_log demo_disk = (d', s', Ret (Ok tt)) ∧
    log_file d' = Some content ∧ Z.of_nat (length content) ≤ 4 ∧
    lit "oldabc" ++ lit "def" = lost ++ contents d'.
Proof.
  apply (log_file_is_bounded [lit "d"; lit "ef"] demo_log demo_disk).
  - split; [by exists (lit "abc")|done|done].
  - by vm_compute.
  - repeat constructor; by vm_compute.
Defined.

Definition failing : answers := {|
  create_dir := Ok tt; open_file := Ok tt; metadata := Ok tt; flushed := Ok tt;
  removed := Err (IoError PermissionDenied []); renamed := Ok tt; written := Ok 0%nat;
|}.

Lemma failed_rotation_makes_flush_panic_witness :
  ∃ d' s', write (lit "ef") failing demo_log demo_disk
           = (d', s', Ret (Err (IoError PermissionDenied []))) ∧
    flush (all_fine 0) s' = Panic "log file handle must be open".
Proof.
  apply (failed_rotation_makes_flush_panic (lit "ef") failing (all_fine 0)
           (IoError PermissionDenied []) demo_log demo_disk).
  - done.
  - reflexivity.
  - by vm_compute.
  - reflexivity.
  - left. split; [by exists (lit "old")|reflexivity].
Defined.

End Logging.
