(* ===== verification/WindowsService.v ===== *)
(** * The Windows service (src/src/windows_service_runtime.rs)

    Under the service control manager the daemon runs in [run_service], which
    reports its state, while the manager calls the control handler from a thread
    of its own.  The two share the status handle and the sender of the shutdown
    signal.  [run_service] is cut into turns at each report and each call that
    takes time, the handler at its delivery, its report and its signal, and a
    step relation interleaves them; the manager delivers a stop or shutdown
    only while the last status reported accepts it. *)

From S2P Require Import Prelude Rust Paths Config Logging.

Local Open Scope Z_scope.

Module WindowsService.

(** ** Data *)

Inductive ServiceState := StartPending | Running | StopPending | Stopped.

#[global] Instance ServiceState_eq_dec : EqDecision ServiceState.
Proof. solve_decision. Defined.

Inductive ServiceExitCode := NO_ERROR | ServiceSpecific (code : Z).

Inductive ServiceType := OWN_PROCESS.
Definition SERVICE_TYPE : ServiceType := OWN_PROCESS.

Record ServiceStatus := {
  service_type : ServiceType;
  current_state : ServiceState;
  accept_stop : bool;
  accept_shutdown : bool;
  exit_code : ServiceExitCode;
  checkpoint : Z;
  wait_hint : Duration;
  process_id : option Z;
}.

Inductive ServiceControl := Stop | Shutdown | Interrogate | OtherControl.
Inductive ServiceControlHandlerResult := NoError | NotImplemented.

Record WindowsServiceLaunchOptions := {
  service_name : str; config_path : option str; log_file : option str;
}.

Definition STARTUP_FAILURE_EXIT_CODE : Z := 1.
Definition RUNTIME_FAILURE_EXIT_CODE : Z := 2.

(** [service_status], with the controls accepted: none, or stop and shutdown. *)
Definition service_status (state : ServiceState) (accepted : bool) (code : ServiceExitCode)
  (checkpoint : Z) (wait_hint : Duration) : ServiceStatus := {|
  service_type := SERVICE_TYPE; current_state := state; accept_stop := accepted;
  accept_shutdown := accepted; exit_code := code; checkpoint := checkpoint; wait_hint := wait_hint;
  process_id := None;
|}.

Definition status_start_pending : ServiceStatus := service_status StartPending false NO_ERROR 1 (from_secs 30).
Definition status_running : ServiceStatus := service_status Running true NO_ERROR 0 0.
Definition status_stop_pending : ServiceStatus := service_status StopPending false NO_ERROR 1 (from_secs 15).
Definition status_stopped (code : ServiceExitCode) : ServiceStatus := service_status Stopped false code 0 0.

(** ** State *)

(** Where [run_service] is. *)
Inductive phase :=
| Register
| ReportStart
| Load
| InitLogging (c : Config.AppConfig)
| ReportRunning (c : Config.AppConfig)
| BuildRuntime (c : Config.AppConfig)
| Serve (c : Config.AppConfig)
| ReportStopped
| ReportFailed (code : Z) (e : anyhow)
| Done (r : result anyhow unit).

(** Where the control handler is with a stop or shutdown it was given. *)
Inductive stage := Delivered | Reported.

Record service := {
  launch : WindowsServiceLaunchOptions;
  at_ : phase;
  status_handle : bool;
  shutdown_tx : bool;
  shutdown_sent : bool;
  handler : option stage;
  reports : list ServiceStatus;
  disk : Logging.disk;
}.

Definition service_new (l : WindowsServiceLaunchOptions) (d : Logging.disk) : service := {|
  launch := l; at_ := Register; status_handle := false; shutdown_tx := true; shutdown_sent := false;
  handler := None; reports := []; disk := d;
|}.

Definition goto (p : phase) (s : service) : service :=
  {| launch := launch s; at_ := p; status_handle := status_handle s; shutdown_tx := shutdown_tx s;
     shutdown_sent := shutdown_sent s; handler := handler s; reports := reports s;
     disk := disk s |}.
Definition report (st : ServiceStatus) (s : service) : service :=
  {| launch := launch s; at_ := at_ s; status_handle := status_handle s; shutdown_tx := shutdown_tx s;
     shutdown_sent := shutdown_sent s; handler := handler s; reports := reports s ++ [st];
     disk := disk s |}.
Definition set_handler (h : option stage) (s : service) : service :=
  {| launch := launch s; at_ := at_ s; status_handle := status_handle s; shutdown_tx := shutdown_tx s;
     shutdown_sent := shutdown_sent s; handler := h; reports := reports s;
     disk := disk s |}.

(** [set_service_status]: fails without a handle or when the manager refuses. *)
Definition set_service_status (st : ServiceStatus) (answer : result anyhow unit) (s : service)
  : service * result anyhow unit :=
  if status_handle s then
    match answer with
    | Ok _ => (report st s, Ok tt)
    | Err e => (s, with_context (lit "failed to update the Windows service status") (Err e))
    end
  else (s, bail (lit "missing Windows service status handle")).

(** [logging::append_bootstrap_error] on the log file of the launch options. *)
Definition append_bootstrap_error (message : str) (b : Logging.bootstrap_answers) (s : service) : service :=
  {| launch := launch s; at_ := at_ s; status_handle := status_handle s; shutdown_tx := shutdown_tx s;
     shutdown_sent := shutdown_sent s; handler := handler s; reports := reports s;
     disk := Logging.append_bootstrap_error (log_file (launch s)) message b (disk s) |}.

(** ** The control handler *)

(** What the handler answers; only a stop or shutdown does more. *)
Definition event_handler_result (c : ServiceControl) : ServiceControlHandlerResult :=
  match c with Stop | Shutdown | Interrogate => NoError | OtherControl => NotImplemented end.

Definition stops (c : ServiceControl) : bool :=
  match c with Stop | Shutdown => true | _ => false end.

Definition handler_report (answer : result anyhow unit) (s : service) : service :=
  set_handler (Some Reported) (set_service_status status_stop_pending answer s).1.

Definition handler_signal (s : service) : service :=
  {| launch := launch s; at_ := at_ s; status_handle := status_handle s; shutdown_tx := false;
     shutdown_sent := shutdown_sent s || shutdown_tx s; handler := None; reports := reports s;
     disk := disk s |}.

(** One turn of the handler; [None] when it is not handling a stop. *)
Definition handler_turn (answer : result anyhow unit) (s : service) : option service :=
  match handler s with
  | Some Delivered => Some (handler_report answer s)
  | Some Reported => Some (handler_signal s)
  | None => None
  end.

(** ** [run_service] *)

(** The answers to the calls of one turn. *)
Record answers := {
  registered : result anyhow unit;
  status_set : result anyhow unit;
  loaded : result anyhow Config.AppConfig;
  logging_ready : result anyhow unit;
  runtime_built : result anyhow unit;
  served : result anyhow unit;
  bootstrap : Logging.bootstrap_answers;
}.

Definition set_handle (s : service) : service :=
  {| launch := launch s; at_ := at_ s; status_handle := true; shutdown_tx := shutdown_tx s;
     shutdown_sent := shutdown_sent s; handler := handler s; reports := reports s;
     disk := disk s |}.

(** A report whose failure ends [run_service] ([?]), and one whose failure is
    ignored. *)
Definition report_or_end (st : ServiceStatus) (a : answers) (next : phase) (s : service) : service :=
  let '(s, r) := set_service_status st (status_set a) s in
  match r with Ok _ => goto next s | Err e => goto (Done (Err e)) s end.

Definition report_anyway (st : ServiceStatus) (a : answers) (next : phase) (s : service) : service :=
  goto next (set_service_status st (status_set a) s).1.

(** One turn; [None] when [run_service] has returned, or while it serves and the
    shutdown signal has not come: the server returns an error at any time, but
    success only after the signal. *)
Definition run_service_turn (a : answers) (s : service) : option service :=
  let name := service_name (launch s) in
  match at_ s with
  | Register =>
      Some match registered a with
           | Ok _ => goto ReportStart (set_handle s)
           | Err e =>
               goto (Done (with_context (lit "failed to register the Windows service control handler")
                             (Err e)))
                 (append_bootstrap_error
                    (lit "failed to register service control handler for " ++ name ++ lit ": "
                     ++ error_text e) (bootstrap a) s)
           end
  | ReportStart => Some (report_or_end status_start_pending a Load s)
  | Load =>
      Some match loaded a with
           | Ok c => goto (InitLogging c) s
           | Err e =>
               goto (ReportFailed STARTUP_FAILURE_EXIT_CODE e)
                 (append_bootstrap_error
                    (lit "failed to load config for " ++ name ++ lit ": " ++ error_text e) (bootstrap a) s)
           end
  | InitLogging c =>
      Some match logging_ready a with
           | Ok _ => goto (ReportRunning c) s
           | Err e =>
               goto (ReportFailed STARTUP_FAILURE_EXIT_CODE e)
                 (append_bootstrap_error
                    (lit "failed to initialize logging for service " ++ name ++ lit ": "
                     ++ error_text e) (bootstrap a) s)
           end
  | ReportRunning c => Some (report_or_end status_running a (BuildRuntime c) s)
  | BuildRuntime c =>
      Some match runtime_built a with
           | Ok _ => goto (Serve c) s
           | Err e =>
               goto (Done (with_context
                             (lit "failed to create Tokio runtime for the Windows service") (Err e))) s
           end
  | Serve c =>
      match served a with
      | Ok _ => if shutdown_sent s then Some (goto ReportStopped s) else None
      | Err e => Some (goto (ReportFailed RUNTIME_FAILURE_EXIT_CODE e) s)
      end
  | ReportStopped => Some (report_or_end (status_stopped NO_ERROR) a (Done (Ok tt)) s)
  | ReportFailed code e =>
      Some (report_anyway (status_stopped (ServiceSpecific code)) a (Done (Err e)) s)
  | Done _ => None
  end.

(** The last status reported accepts the control. *)
Definition accepts (s : service) (c : ServiceControl) : bool :=
  match last (reports s), c with
  | Some st, Stop => accept_stop st
  | Some st, Shutdown => accept_shutdown st
  | _, _ => false
  end.

Inductive step : service → service → Prop :=
| step_main a s s' : run_service_turn a s = Some s' → step s s'
| step_deliver c s :
    stops c = true → accepts s c = true → handler s = None → step s (set_handler (Some Delivered) s)
| step_handler answer s s' : handler_turn answer s = Some s' → step s s'.

(** ** Abstract lifecycle *)





(** ** Invariant *)

Lemma set_service_status_cases st answer s :
  (set_service_status st answer s).1 = s ∧ is_ok (set_service_status st answer s).2 = false ∨
  (set_service_status st answer s).1 = report st s ∧ (set_service_status st answer s).2 = Ok tt
  ∧ status_handle s = true.
Proof.
  unfold set_service_status. destruct (status_handle s); [|by left].
  destruct answer as [[]|e]; [by right|by left].
Qed.

Definition started : list ServiceStatus := [status_start_pending].
Definition running : list ServiceStatus := [status_start_pending; status_running].
Definition stopping : list ServiceStatus := running ++ [status_stop_pending].

(** The reports while the daemon serves: a stop is being handled, or was
    reported, or neither. *)
Definition serving_reports (s : service) : Prop :=
  reports s = running ∨ reports s = stopping ∧ handler s ≠ Some Delivered.

(** The reports after [run_service] returned. *)
Definition final_reports (s : service) : Prop :=
  (reports s = [] ∨ reports s = started) ∧ handler s = None ∨
  (∃ code, reports s = started ++ [status_stopped code] ∧ handler s = None) ∨
  serving_reports s ∨
  (∃ code, reports s = running ++ [status_stopped code]) ∨
  (∃ code, reports s = stopping ++ [status_stopped code] ∧ handler s ≠ Some Delivered) ∨
  (∃ code, reports s = running ++ [status_stopped code; status_stop_pending]
           ∧ handler s ≠ Some Delivered).

Definition phase_reports (s : service) : Prop :=
  match at_ s with
  | Register | ReportStart => reports s = [] ∧ handler s = None
  | Load | InitLogging _ | ReportRunning _ => reports s = started ∧ handler s = None
  | BuildRuntime _ | Serve _ | ReportStopped => serving_reports s
  | ReportFailed _ _ => reports s = started ∧ handler s = None ∨ serving_reports s
  | Done (Ok _) =>
      ∃ l, reports s = running ++ l ∧ status_stopped NO_ERROR ∈ l ∧ final_reports s
  | Done (Err _) => final_reports s
  end.

Record service_inv (s : service) : Prop := {
  inv_reports : phase_reports s;
  inv_sender : shutdown_tx s = negb (shutdown_sent s);
  inv_success : at_ s = ReportStopped ∨ at_ s = Done (Ok tt) → shutdown_sent s = true;
}.

Lemma new_inv l d : service_inv (service_new l d).
Proof. split; [done|done|by intros [|]]. Qed.

(** Every report list of an invariant, one at a time. *)
Ltac reports_cases :=
  repeat match goal with
  | H : _ ∨ _ |- _ => destruct H
  | H : _ ∧ _ |- _ => destruct H
  | H : ∃ _, _ |- _ => destruct H
  end;
  try match goal with H : reports _ = _ |- _ => rewrite H in * end.

(** Only a running service is given a stop. *)
Lemma accepts_running s c :
  phase_reports s → accepts s c = true → reports s = running.
Proof.
  unfold phase_reports, accepts, final_reports, serving_reports. intros H A.
  destruct (at_ s) as [| | |cf|cf|cf|cf| |code e|[[]|e]]; reports_cases; by destruct c.
Qed.

(** [run_service] reports as its phase allows. *)
Lemma report_or_end_inv st a next s :
  service_inv s →
  (∀ e, phase_reports (goto (Done (Err e)) s)) → phase_reports (goto next (report st s)) →
  (next = Done (Ok tt) → shutdown_sent s = true) → next ≠ ReportStopped →
  service_inv (report_or_end st a next s).
Proof.
  intros [R T S] HE HN Hd Hs. unfold report_or_end.
  pose proof (set_service_status_cases st (status_set a) s) as C.
  destruct (set_service_status st (status_set a) s) as [s1 [u|e]]; cbn in C.
  - destruct C as [[_ C]|(-> & _)]; [done|].
    split; [done|done|]. intros [?|?]; [done|by apply Hd].
  - destruct C as [[-> _]|(_ & C & _)]; [|done]. split; [apply HE|done|by intros [|]].
Qed.

Lemma report_anyway_inv st a e s :
  service_inv s → phase_reports (goto (Done (Err e)) s) →
  phase_reports (goto (Done (Err e)) (report st s)) →
  service_inv (report_anyway st a (Done (Err e)) s).
Proof.
  intros [R T S] HE HN. unfold report_anyway.
  destruct (set_service_status_cases st (status_set a) s) as [[-> _]|(-> & _)];
    (split; [done|done|by intros [|]]).
Qed.

(** Appending to the bootstrap log touches nothing else. *)
Lemma bootstrap_inv m b p s :
  service_inv s → phase_reports (goto p s) → p ≠ ReportStopped → p ≠ Done (Ok tt) →
  service_inv (goto p (append_bootstrap_error m b s)).
Proof.
  intros [R T S] H ??. split; [done|done|by intros [|]].
Qed.

Lemma goto_inv p s :
  service_inv s → phase_reports (goto p s) → (p = ReportStopped → shutdown_sent s = true) →
  p ≠ Done (Ok tt) → service_inv (goto p s).
Proof. intros [R T S] ? H ?. split; [done|done|]. intros [|]; [by apply H|done]. Qed.

Lemma final_started s : reports s = started ∧ handler s = None → final_reports s.
Proof. intros [??]. left. auto. Qed.
Lemma final_serving s : serving_reports s → final_reports s.
Proof. intros. right; right; by left. Qed.
Lemma final_started_stopped code s :
  reports s = started ∧ handler s = None → final_reports (report (status_stopped code) s).
Proof. intros [H ?]. right; left. exists code. cbn. by rewrite H. Qed.
Lemma final_serving_stopped code s :
  serving_reports s → final_reports (report (status_stopped code) s).
Proof.
  intros [H|[H ?]]; right; right; right; [left|right; left]; exists code; cbn; by rewrite H.
Qed.

Lemma main_inv a s s' : service_inv s → run_service_turn a s = Some s' → service_inv s'.
Proof.
  intros I H. pose proof I as [R T S].
  unfold run_service_turn in H. unfold phase_reports in R.
  destruct (at_ s) eqn:E.
  - destruct (registered a); simplify_eq; [|apply bootstrap_inv; [done| |done|done]; left; naive_solver].
    destruct R. split; [done|done|by intros [|]].
  - simplify_eq. apply report_or_end_inv; [done| | |done|done].
    + intros e. left. naive_solver.
    + split; [cbn; by rewrite (proj1 R)|apply R].
  - destruct (loaded a); simplify_eq; [by apply goto_inv|apply bootstrap_inv; [done|by left|done|done]].
  - destruct (logging_ready a); simplify_eq;
      [by apply goto_inv|apply bootstrap_inv; [done|by left|done|done]].
  - simplify_eq. apply report_or_end_inv; [done|intros; by apply (final_started s)| |done|done].
    left. cbn. by rewrite (proj1 R).
  - destruct (runtime_built a); simplify_eq; apply goto_inv; try done. by apply (final_serving s).
  - destruct (served a); [destruct (shutdown_sent s) eqn:?|]; simplify_eq; apply goto_inv; try done.
    by right.
  - simplify_eq. apply report_or_end_inv; [done|intros; by apply (final_serving s)| |by auto|done].
    destruct R as [R|[R ?]].
    + exists [status_stopped NO_ERROR]. cbn. rewrite R. split; [done|split; [by constructor|]].
      right; right; right; left. exists NO_ERROR. cbn. by rewrite R.
    + exists [status_stop_pending; status_stopped NO_ERROR]. cbn. rewrite R.
      split; [done|split; [by do 2 constructor|]].
      right; right; right; right; left. exists NO_ERROR. cbn. by rewrite R.
  - simplify_eq. apply report_anyway_inv; [done| |]; destruct R as [R|R].
    + by apply (final_started s).
    + by apply (final_serving s).
    + by apply (final_started_stopped (ServiceSpecific code) s).
    + by apply (final_serving_stopped (ServiceSpecific code) s).
  - done.
Qed.

(** A stop while the service runs, whatever its phase, is reported as allowed. *)
Lemma handler_report_reports s :
  phase_reports s → handler s = Some Delivered →
  phase_reports (set_handler (Some Reported) (report status_stop_pending s)) ∧
  phase_reports (set_handler (Some Reported) s).
Proof.
  unfold phase_reports. intros R Hd.
  assert (serving_reports s →
          serving_reports (set_handler (Some Reported) (report status_stop_pending s))
          ∧ serving_reports (set_handler (Some Reported) s)) as V.
  { intros [H|[_ ?]]; [|done]. split; [right|left; done]. cbn. by rewrite H. }
  assert (final_reports s →
          final_reports (set_handler (Some Reported) (report status_stop_pending s))
          ∧ final_reports (set_handler (Some Reported) s)) as F.
  { intros [[_ ?]|[(code & _ & ?)|[W|[(code & H)|[(code & _ & ?)|(code & _ & ?)]]]]]; try congruence.
    - destruct (V W). split; right; right; by left.
    - split.
      + right; right; right; right; right. exists code. cbn. by rewrite H.
      + right; right; right; left. by exists code. }
  cbn. destruct (at_ s) as [| | |cf|cf|cf|cf| |code e|[[]|e]]; try (destruct R; congruence); auto.
  - destruct R as [[_ ?]|R]; [congruence|]. destruct (V R). auto.
  - destruct R as (l & H & Hin & W). destruct (F W). split; [exists (l ++ [status_stop_pending])|exists l].
    + split_and!; [|set_solver|done].
      change (reports s ++ [status_stop_pending] = running ++ (l ++ [status_stop_pending])).
      by rewrite H, app_assoc.
    + done.
Qed.

Lemma handler_report_inv answer s :
  service_inv s → handler s = Some Delivered → service_inv (handler_report answer s).
Proof.
  intros [R T S] Hd. destruct (handler_report_reports s R Hd). unfold handler_report.
  destruct (set_service_status_cases status_stop_pending answer s) as [[-> _]|(-> & _)];
    (split; [done|done|exact S]).
Qed.

(** Moving the handler away from [Delivered] keeps the reports allowed. *)
Lemma phase_reports_handler s s' :
  phase_reports s → at_ s' = at_ s → reports s' = reports s → handler s ≠ None →
  (handler s' = Some Delivered → handler s = Some Delivered) → phase_reports s'.
Proof.
  intros R Ea Er Hn Hd.
  assert (serving_reports s → serving_reports s') as V.
  { unfold serving_reports. rewrite Er. intros [?|[? ?]]; [by left|right; split; tauto]. }
  assert (final_reports s → final_reports s') as F.
  { unfold final_reports. rewrite Er.
    intros [[_ ?]|[(code & _ & ?)|[W|[(code & H)|[(code & H & ?)|(code & H & ?)]]]]]; try done.
    - right; right; left. auto.
    - right; right; right; left. eauto.
    - right; right; right; right; left. exists code. tauto.
    - right; right; right; right; right. exists code. tauto. }
  unfold phase_reports in *. rewrite Ea, Er.
  destruct (at_ s) as [| | |cf|cf|cf|cf| |code e|[[]|e]]; try (by destruct R); auto.
  - destruct R as [[_ ?]|R]; [done|auto].
  - destruct R as (l & ? & ? & ?). exists l. auto.
Qed.

Lemma deliver_inv s :
  service_inv s → reports s = running → service_inv (set_handler (Some Delivered) s).
Proof.
  intros [R T S] H. split; [|done|done]. unfold phase_reports, final_reports, serving_reports in *. cbn.
  destruct (at_ s) as [| | |cf|cf|cf|cf| |code e|[[]|e]]; rewrite H in *; naive_solver.
Qed.

Lemma service_step_inv s s' : service_inv s → step s s' → service_inv s'.
Proof.
  intros I. destruct 1 as [a s s' H|c s _ A _|answer s s' H].
  - by eapply main_inv.
  - apply deliver_inv; [done|]. eapply accepts_running; [apply I|done].
  - unfold handler_turn in H. destruct (handler s) as [[|]|] eqn:Hd; simplify_eq; [by apply handler_report_inv|].
    destruct I as [R T S]. split; cbn.
    + by eapply phase_reports_handler; [apply R|..]; cbn; rewrite ?Hd.
    + rewrite T. by destruct (shutdown_sent s).
    + intros H. by rewrite (S H).
Qed.

Lemma service_reachable_inv l d s : rtc step (service_new l d) s → service_inv s.
Proof.
  intros H. remember (service_new l d) as s0 eqn:E. assert (service_inv s0) as I by (subst; apply new_inv).
  clear E. induction H; [done|]. eauto using service_step_inv.
Qed.

(** A success reported is a success returned. *)
Definition clean (s : service) : Prop :=
  (status_stopped NO_ERROR ∈ reports s → at_ s = Done (Ok tt))
  ∧ (at_ s = Register ∨ (∃ e, at_ s = Done (Err e)) ∨ status_handle s = true).

Lemma clean_report_or_end st a next s :
  clean s → (∀ r, at_ s ≠ Done r) → at_ s ≠ Register →
  (st = status_stopped NO_ERROR → next = Done (Ok tt)) → clean (report_or_end st a next s).
Proof.
  intros [C Hh] Hr Hg Hst. unfold report_or_end.
  assert (status_handle s = true) as K by naive_solver.
  assert (status_stopped NO_ERROR ∉ reports s) as N by (intros H; by apply (Hr (Ok tt)), C).
  pose proof (set_service_status_cases st (status_set a) s) as D.
  destruct (set_service_status st (status_set a) s) as [s1 [u|e]]; cbn in D.
  - destruct D as [[_ D]|(-> & _)]; [done|].
    split; [|by right; right]. cbn. intros [?|?%list_elem_of_singleton]%elem_of_app; [done|]. auto.
  - destruct D as [[-> _]|(_ & D & _)]; [|done]. split; [done|by right; right].
Qed.

Lemma clean_report_anyway code a e s :
  clean s → (∀ r, at_ s ≠ Done r) →
  clean (report_anyway (status_stopped (ServiceSpecific code)) a (Done (Err e)) s).
Proof.
  intros [C Hh] Hr. unfold report_anyway.
  assert (status_stopped NO_ERROR ∉ reports s) as N by (intros H; by apply (Hr (Ok tt)), C).
  destruct (set_service_status_cases (status_stopped (ServiceSpecific code)) (status_set a) s)
    as [[-> _]|(-> & _)]; (split; [cbn|right; left; by eexists]); [done|].
  by intros [?|?%list_elem_of_singleton]%elem_of_app.
Qed.

Lemma clean_main a s s' : clean s → run_service_turn a s = Some s' → clean s'.
Proof.
  intros C H. pose proof C as [C1 C2]. unfold run_service_turn in H.
  destruct (at_ s) eqn:E; try done;
    repeat match type of H with
    | Some match ?x with _ => _ end = _ => destruct x
    | match ?x with _ => _ end = _ => destruct x
    | (if ?x then _ else _) = _ => destruct x
    end; simplify_eq;
    try (apply clean_report_or_end; [done|by rewrite E|by rewrite E|done]);
    try (apply clean_report_anyway; [done|by rewrite E]);
    (split; [intros H; by specialize (C1 H)|cbn]); naive_solver.
Qed.

Lemma reachable_clean l d s : rtc step (service_new l d) s → clean s.
Proof.
  intros H. remember (service_new l d) as s0 eqn:E.
  assert (clean s0) as I by (subst; split; [by intros ?%elem_of_nil|by left]).
  clear E. induction H as [|s1 s2 s3 S _ IH]; [done|]. apply IH.
  destruct S as [a s1 s2 H|c s _ A _|answer s s' H]; [by eapply clean_main|exact I|].
  unfold handler_turn in H. destruct (handler s) as [[|]|]; simplify_eq; [|exact I]. destruct I as [C1 C2]. unfold handler_report.
  destruct (set_service_status_cases status_stop_pending answer s) as [[-> _]|(-> & _)]; [done|].
  split; [cbn|done]. by intros [?|?%list_elem_of_singleton]%elem_of_app; auto.
Qed.



(** [run_service] leaves the handler and the signal alone. *)
Lemma main_leaves a s s' :
  run_service_turn a s = Some s' → handler s' = handler s ∧ shutdown_sent s' = shutdown_sent s.
Proof.
  assert (∀ st ans, handler (set_service_status st ans s).1 = handler s ∧
    shutdown_sent (set_service_status st ans s).1 = shutdown_sent s) as Hset.
  { intros st ans. destruct (set_service_status_cases st ans s) as [[-> _]|[-> _]]; done. }
  unfold run_service_turn, report_or_end, report_anyway.
  destruct (at_ s); intros H; simplify_eq;
    repeat match goal with
    | H : context [set_service_status ?st ?ans s] |- _ =>
        specialize (Hset st ans); destruct (set_service_status st ans s) as [? []]
    | |- context [set_service_status ?st ?ans s] =>
        specialize (Hset st ans); destruct (set_service_status st ans s) as [? []]
    end; try done; repeat case_match; by simplify_eq.
Qed.

(** A stop that is being handled is signalled before the handler is done. *)
Lemma pending_stop s s' :
  rtc step s s' → service_inv s → handler s ≠ None ∨ shutdown_sent s = true → handler s' = None →
  shutdown_sent s' = true.
Proof.
  intros H. induction H as [s|s s1 s2 S _ IH]; [by intros _ [?|?]|]. intros Hi Hp.
  apply IH; [by eapply service_step_inv|]. clear IH.
  destruct S as [a s s1 H|c s _ _ _|answer s s1 H].
  - apply main_leaves in H as [-> ->]. done.
  - by left.
  - unfold handler_turn in H. destruct (handler s) as [[|]|] eqn:Hh; simplify_eq; [by left|].
    right. cbn. by rewrite (inv_sender s Hi), orb_negb_r.
Qed.

(** ** Properties *)


(** A clean stop is asked for and reported.  [run_service] returns success
    exactly when [Stopped] with no error was reported, only after the control
    handler sent the shutdown signal, and the handler sends it at most once. *)
Theorem clean_stop_is_signalled l d s :
  rtc step (service_new l d) s →
  (at_ s = Done (Ok tt) ↔ status_stopped NO_ERROR ∈ reports s) ∧
  (at_ s = Done (Ok tt) → shutdown_sent s = true) ∧
  shutdown_tx s = negb (shutdown_sent s).
Proof.
  intros H. destruct (service_reachable_inv l d s H) as [R T S]. destruct (reachable_clean l d s H) as [C _].
  split_and!; [split; [|done]|auto|done].
  intros E. unfold phase_reports in R. rewrite E in R. destruct R as (l' & -> & ? & _). set_solver.
Qed.

(** C35: a stop is never lost.  When a stop or shutdown was delivered while the
    daemon serves, the handler takes two turns, the second even if the manager
    refuses the [StopPending] report of the first, and then the shutdown signal was
    sent; and in every interleaving it was sent when the handler is done.  When the
    server then returns, two more turns end [run_service]: with success and
    [Stopped] with no error as its last report if the manager takes that report,
    and with an error and without the report if it refuses it. *)
Theorem delivered_stop_stops l d s c answer answer' a :
  rtc step (service_new l d) s → at_ s = Serve c → handler s = Some Delivered →
  (∀ s', rtc step s s' → handler s' = None → shutdown_sent s' = true) ∧
  ∃ s1 s2, handler_turn answer s = Some s1 ∧ handler_turn answer' s1 = Some s2 ∧
    handler s2 = None ∧ shutdown_sent s2 = true ∧
    (served a = Ok tt →
     ∃ s3 s4, run_service_turn a s2 = Some s3 ∧ run_service_turn a s3 = Some s4 ∧
       match status_set a with
       | Ok _ => at_ s4 = Done (Ok tt) ∧ last (reports s4) = Some (status_stopped NO_ERROR)
       | Err _ => (∃ e, at_ s4 = Done (Err e)) ∧ reports s4 = reports s2
       end).
Proof.
  intros H E Hd. split; [intros s' Hs; apply (pending_stop s s' Hs); [by eapply service_reachable_inv|left; by rewrite Hd]|].
  destruct (service_reachable_inv l d s H) as [_ T _]. destruct (reachable_clean l d s H) as [_ K].
  assert (status_handle s = true) as Kh by (destruct K as [?|[[??]|?]]; congruence).
  exists (handler_report answer s), (handler_signal (handler_report answer s)).
  assert (at_ (handler_report answer s) = Serve c ∧ status_handle (handler_report answer s) = true ∧
    shutdown_tx (handler_report answer s) = negb (shutdown_sent (handler_report answer s)) ∧
    handler (handler_report answer s) = Some Reported) as (E1 & K1 & T1 & Hd1).
  { unfold handler_report.
    destruct (set_service_status_cases status_stop_pending answer s) as [[-> _]|(-> & _)]; by split_and!. }
  unfold handler_turn. rewrite Hd, Hd1. split_and!; [done..| |].
  { cbn [handler_signal shutdown_sent]. by rewrite T1, orb_negb_r. }
  intros Hv. exists (goto ReportStopped (handler_signal (handler_report answer s))).
  unfold run_service_turn, report_or_end, set_service_status.
  cbn [goto handler_signal at_ status_handle shutdown_sent]. rewrite E1, Hv, T1, orb_negb_r, K1.
  destruct (status_set a) as [[]|e]; eexists; (split; [done|]); (split; [done|]);
    [split; [done|apply last_snoc]|split; [by eexists|done]].
Qed.

(** ** Witnesses *)

Definition example_launch : WindowsServiceLaunchOptions := {|
  service_name := lit "narrowd"; config_path := None; log_file := Some (lit "C:\log");
|}.
Definition example_disk : Logging.disk := {| Logging.log_file := None; Logging.old_file := None |}.
Definition example_answers : answers := {|
  registered := Ok tt; status_set := Ok tt; loaded := Ok (Config.default_config (lit "C:\home") (lit "C:\home\narrowd"));
  logging_ready := Ok tt; runtime_built := Ok tt; served := Ok tt;
  bootstrap := Logging.bootstrap_fine;
|}.

(** [n] turns of [run_service]. *)
Fixpoint turns (n : nat) (a : answers) (s : service) : option service :=
  match n with O => Some s | S n => s ← run_service_turn a s; turns n a s end.

Lemma turns_steps n a s s' : turns n a s = Some s' → rtc step s s'.
Proof.
  revert s. induction n as [|n IH]; intros s H; cbn in H; [by simplify_eq; constructor|].
  apply bind_Some in H as (s1 & H1 & H2). eapply rtc_l; [by eapply step_main|by apply IH].
Qed.

(** A service that runs, is stopped and returns. *)
Definition example_serving : service := default (service_new example_launch example_disk) (turns 6 example_answers (service_new example_launch example_disk)).
Definition example_stopping : service := set_handler (Some Delivered) example_serving.
Definition example_signalled : service := handler_signal (handler_report (Ok tt) example_stopping).
Definition example_stopped : service := default example_signalled (turns 2 example_answers example_signalled).

Lemma example_stopping_reachable : rtc step (service_new example_launch example_disk) example_stopping.
Proof.
  eapply rtc_r; [apply (turns_steps 6 example_answers); reflexivity|].
  by apply (step_deliver Stop).
Qed.

Lemma example_stopped_reachable : rtc step (service_new example_launch example_disk) example_stopped.
Proof.
  etransitivity; [apply example_stopping_reachable|].
  eapply rtc_l; [by apply (step_handler (Ok tt))|]. eapply rtc_l; [by apply (step_handler (Ok tt))|].
  apply (turns_steps 2 example_answers). reflexivity.
Qed.

(** The exception of the lifecycle: the server fails while a stop is reported. *)
Definition failing_answers : answers := {|
  registered := Ok tt; status_set := Ok tt; loaded := Err []; logging_ready := Ok tt;
  runtime_built := Ok tt; served := bail (lit "accept failed");
  bootstrap := Logging.bootstrap_fine;
|}.
Definition example_raced : service :=
  handler_report (Ok tt) (default example_stopping (turns 2 failing_answers example_stopping)).

Lemma late_stop_pending_is_possible :
  rtc step (service_new example_launch example_disk) example_raced ∧
  reports example_raced = running ++ [status_stopped (ServiceSpecific 2); status_stop_pending].
Proof.
  split; [|reflexivity]. etransitivity; [apply example_stopping_reachable|].
  eapply rtc_r; [by apply (turns_steps 2 failing_answers)|]. by apply (step_handler (Ok tt)).
Qed.


Lemma clean_stop_is_signalled_witness :
  at_ example_stopped = Done (Ok tt) ∧ shutdown_sent example_stopped = true.
Proof.
  split; [reflexivity|].
  apply (clean_stop_is_signalled example_launch example_disk example_stopped example_stopped_reachable). reflexivity.
Defined.

(** The manager refuses the first report. *)
Lemma delivered_stop_stops_witness :
  ∃ s1 s2 s3 s4, handler_turn (Err []) example_stopping = Some s1 ∧ handler_turn (Ok tt) s1 = Some s2 ∧
    run_service_turn example_answers s2 = Some s3 ∧ run_service_turn example_answers s3 = Some s4 ∧
    at_ s4 = Done (Ok tt) ∧ last (reports s4) = Some (status_stopped NO_ERROR).
Proof.
  destruct (delivered_stop_stops example_launch example_disk example_stopping
              (Config.default_config (lit "C:\home") (lit "C:\home\narrowd")) (Err []) (Ok tt) example_answers)
    as [_ (s1 & s2 & H1 & H2 & _ & _ & H)]; [apply example_stopping_reachable|reflexivity..|].
  destruct H as (s3 & s4 & H3 & H4 & H5 & H6); [reflexivity|]. exists s1, s2, s3, s4.
  split; [exact H1|split; [exact H2|split; [exact H3|split; [exact H4|split; [exact H5|exact H6]]]]].
Defined.

End WindowsService.
