(* ===== verification/SessionLauncher.v ===== *)
(** * The Windows session launcher (src/src/bin/narrowd-session-launcher.rs)

    The launcher starts the daemon inside a user's session: it works out where
    the user's files are, writes a configuration the first time, loads it and
    serves.  Files are a map from paths to their text; the loader, the logger,
    the runtime and the daemon are what the launcher calls, and their answers
    are its [environment].  The configuration it writes is read back with
    [Config.apply_text], where only the resolution of the three paths is the
    platform's. *)

From S2P Require Import Prelude Rust Paths Config ConfigCorrect Logging.
From stdpp Require Import gmap.

Local Open Scope Z_scope.

Module SessionLauncher.

Definition DEFAULT_PORT : Z := 2223.
Definition DEFAULT_LISTEN_ADDRESS : str := lit "0.0.0.0".

Record SessionPaths := {
  narrowd_root : str;
  config_path : str;
  host_key_path : str;
  log_dir : str;
  log_file : str;
  authorized_keys_path : str;
  shell_path : str;
}.

(** ** Paths *)

Definition is_win_sep (c : char) : bool := ((c =? 92) || (c =? 47))%N.
Definition is_letter (c : char) : bool := ((97 <=? ascii_lower c) && (ascii_lower c <=? 122))%N.

(** [Path::join] on Windows, for a plain name: no separator after another one,
    after nothing, or after a bare drive. *)
Definition win_join (base name : str) : str :=
  match last base with
  | None => name
  | Some c =>
      if is_win_sep c then base ++ name
      else match base with
           | [l; k] => if is_letter l && (k =? 58)%N then base ++ name else base ++ 92%N :: name
           | _ => base ++ 92%N :: name
           end
  end.

(** What the launcher is told by the system. *)
Record environment := {
  home_dir : option str;
  data_local_dir : option str;
  var_localappdata : option str;
  is_file : str → bool;
  create_dir_all : str → result io_error unit;
  write_config : option nat * result io_error unit;
  load : (str → option str) → str → result anyhow Config.AppConfig;
  init_logging : result anyhow unit;
  build_runtime : result anyhow unit;
  sshd_run : Config.AppConfig → result anyhow unit;
  bootstrap : Logging.bootstrap_answers;
}.

Definition POWERSHELL : str := lit "C:\Windows\System32\WindowsPowerShell\v1.0\powershell.exe".

Definition default_shell_path (env : environment) : str :=
  if is_file env POWERSHELL then POWERSHELL else lit "powershell.exe".

Definition resolve_paths (env : environment) : result anyhow SessionPaths :=
  home ← ok_or [Msg (lit "unable to determine the user home directory")] (home_dir env);
  local_app_data ← ok_or [Msg (lit "unable to determine the Local AppData directory")]
                     (match data_local_dir env with
                      | Some p => Some p
                      | None => var_localappdata env
                      end);
  let root := win_join local_app_data (lit "narrowd") in
  let log := win_join root (lit "log") in
  Ok {| narrowd_root := root;
        config_path := win_join root (lit "narrowd.conf");
        host_key_path := win_join root (lit "ssh_host_ed25519_key");
        log_dir := log;
        log_file := win_join log (lit "narrowd.log");
        authorized_keys_path := win_join (win_join home (lit ".ssh")) (lit "authorized_keys");
        shell_path := default_shell_path env |}.

(** ** The generated configuration *)

(** The lines between the values that are filled in. *)
Definition config_head : list str := [
  lit "# Generated by the narrowd MSIX session launcher.";
  lit "# Edit this file to customize the session-scoped SSH daemon.";
  lit "Port " ++ dec DEFAULT_PORT;
  lit "ListenAddress " ++ DEFAULT_LISTEN_ADDRESS;
  lit "" ].

Definition config_tail : list str := [
  lit "ExecMode powershell";
  lit "PermitTTY yes";
  lit "PermitExec yes";
  lit "";
  lit "Subsystem sftp internal-sftp";
  lit "AllowTcpForwarding yes";
  lit "AllowRemoteForwarding yes";
  lit "GatewayPorts yes";
  lit "";
  lit "# Public exposure hardening defaults";
  lit "MaxUnauthConnectionsGlobal 16";
  lit "MaxUnauthConnectionsPerIp 3";
  lit "MaxUnauthConnectionsPerSubnet 8";
  lit "NewConnectionsPerMinutePerIp 12";
  lit "NewConnectionsBurstPerIp 4";
  lit "LoginGraceTime 15s";
  lit "ClientBannerTimeout 5s";
  lit "KexStartTimeout 5s";
  lit "MaxAuthAttempts 4";
  lit "AuthRejectionTime 2s";
  lit "AuthFailureBanThreshold 8";
  lit "AuthFailureBanWindow 10m";
  lit "AuthFailureBanDuration 15m";
  lit "InactivityTimeout 15m";
  lit "KeepaliveInterval 30s";
  lit "KeepaliveMax 3";
  lit "ChannelBufferSize 32";
  lit "EventBufferSize 16";
  lit "WindowSize 1048576";
  lit "MaximumPacketSize 32768";
  lit "NoDelay yes";
  lit "AuthorizedKeysMaxSize 256KiB";
  lit "AuthorizedKeysMaxEntries 128";
  lit "AuthorizedKeysReloadInterval 2s";
  lit "";
  lit "LogLevel info" ].

Definition config_lines (p : SessionPaths) : list str :=
  config_head
    ++ [lit "HostKey " ++ host_key_path p;
        lit "AuthorizedKeysFile " ++ authorized_keys_path p;
        lit "";
        lit "Shell " ++ shell_path p]
    ++ config_tail.

Definition render_default_config (p : SessionPaths) : str :=
  join_with [10%N] (config_lines p ++ [[]]).

(** ** The launcher *)

Abbreviation files := (gmap str str) (only parsing).

(** [fs::write] creates the file before it fills it: a write that fails may
    leave the first bytes. *)
Definition write_file (path text : str) (answer : option nat * result io_error unit) (fs : files)
  : files * result io_error unit :=
  match answer with
  | (_, Ok _) => (<[path := text]> fs, Ok tt)
  | (None, Err e) => (fs, Err e)
  | (Some taken, Err e) => (<[path := take taken text]> fs, Err e)
  end.

Definition ensure_default_config (p : SessionPaths) (env : environment) (fs : files)
  : files * result anyhow unit :=
  match fs !! config_path p with
  | Some _ => (fs, Ok tt)
  | None =>
      let '(fs, r) := write_file (config_path p) (render_default_config p) (write_config env) fs in
      (fs, with_context (lit "failed to write " ++ config_path p) (io_result r))
  end.

(** The part of [run] after the configuration file is there: what was served,
    and the result. *)
Definition serve (p : SessionPaths) (env : environment) (fs : files)
  : option Config.AppConfig * result anyhow unit :=
  match with_context (lit "failed to load session config " ++ config_path p)
          (load env (λ path, fs !! path) (config_path p)) with
  | Err e => (None, Err e)
  | Ok c =>
      match init_logging env with
      | Err e => (None, Err e)
      | Ok _ =>
          match with_context (lit "failed to create Tokio runtime for the session launcher")
                  (build_runtime env) with
          | Err e => (None, Err e)
          | Ok _ => (Some c, sshd_run env c)
          end
      end
  end.

Definition create_dir (dir : str) (env : environment) : result anyhow unit :=
  with_context (lit "failed to create " ++ dir) (io_result (create_dir_all env dir)).

Definition run (p : SessionPaths) (env : environment) (fs : files)
  : files * option Config.AppConfig * result anyhow unit :=
  match create_dir (narrowd_root p) env with
  | Err e => (fs, None, Err e)
  | Ok _ =>
      match create_dir (log_dir p) env with
      | Err e => (fs, None, Err e)
      | Ok _ =>
          let '(fs, r) := ensure_default_config p env fs in
          match r with
          | Err e => (fs, None, Err e)
          | Ok _ => let '(served, r) := serve p env fs in (fs, served, r)
          end
      end
  end.

(** [main], with the log file apart: it is written behind the files' back. *)
Definition main (env : environment) (fs : files) (log : Logging.disk)
  : files * Logging.disk * option Config.AppConfig * result anyhow unit :=
  match resolve_paths env with
  | Err e => (fs, log, None, Err e)
  | Ok p =>
      let '(fs, served, r) := run p env fs in
      match r with
      | Ok _ => (fs, log, served, Ok tt)
      | Err e =>
          (fs,
           Logging.append_bootstrap_error (Some (log_file p))
             (lit "session launcher failed: " ++ error_text e) (bootstrap env) log,
           served, Err e)
      end
  end.

(** ** Lemmas *)

(** A value the parser of the configuration reads back: words apart by single
    blanks, none with a comment sign. *)
Definition plain_word (w : str) : Prop :=
  w ≠ [] ∧ Forall (λ c, is_whitespace c = false ∧ c ≠ 35%N) w.
Definition plain (s : str) : Prop :=
  ∃ ws, ws ≠ [] ∧ Forall plain_word ws ∧ s = join_with [32%N] ws.

#[global] Instance plain_word_dec w : Decision (plain_word w).
Proof. unfold plain_word. apply _. Defined.

Lemma plain_word_blank w : plain_word w → Forall (λ c, is_whitespace c = false) w.
Proof. intros [_ H]. eapply Forall_impl; [exact H|]. by intros c [? _]. Qed.

(** The last character of a plain text is no blank. *)
Lemma plain_last ws :
  ws ≠ [] → Forall plain_word ws →
  ∃ s c, join_with [32%N] ws = s ++ [c] ∧ is_whitespace c = false.
Proof.
  intros Hne H. induction H as [|w ws [Hw Hc] Hws IH]; [done|].
  destruct ws as [|w' ws].
  - destruct (exists_last Hw) as (s & c & ->). exists s, c. split; [done|].
    apply Forall_app in Hc as [_ Hc]. by apply Forall_cons in Hc as [[? _] _].
  - destruct IH as (s & c & E & ?); [done|]. exists (w ++ [32%N] ++ s), c.
    split; [|done]. by rewrite join_with_cons, E, <- !app_assoc.
Qed.

Lemma trim_plain ws :
  ws ≠ [] → Forall plain_word ws → trim (join_with [32%N] ws) = join_with [32%N] ws.
Proof.
  intros Hne H. unfold trim, trim_end, trim_start.
  assert (drop_while is_whitespace (join_with [32%N] ws) = join_with [32%N] ws) as ->.
  { destruct H as [|w ws [Hw Hc] Hws]; [done|]. destruct Hc as [|c w [Hc _] _]; [done|].
    destruct ws; unfold drop_while; cbn; by rewrite Hc. }
  destruct (plain_last ws Hne H) as (s & c & -> & Hc).
  rewrite reverse_snoc. unfold drop_while; cbn. rewrite Hc, <- reverse_snoc. apply reverse_involutive.
Qed.

(** A line of plain words is read back as its words. *)
Lemma line_words_plain ws :
  ws ≠ [] → Forall plain_word ws → Config.line_words (join_with [32%N] ws) = ws.
Proof.
  intros Hne H. unfold Config.line_words. rewrite split_by_none.
  - change (split_whitespace (trim (join_with [32%N] ws)) = ws). rewrite trim_plain by done. unfold split_whitespace.
    rewrite split_by_join; [|done|done|].
    + clear Hne. induction H as [|w ws [? _] _ IH]; cbn; [done|]. by rewrite bool_decide_false, IH.
    + eapply Forall_impl; [exact H|]. apply plain_word_blank.
  - clear Hne. induction H as [|w ws [_ Hw] Hws IH]; [constructor|].
    assert (Forall (λ c, (c =? 35)%N = false) w) as Hw'.
    { eapply Forall_impl; [exact Hw|]. intros c [_ ?]. by apply N.eqb_neq. }
    destruct ws; [done|]. rewrite join_with_cons. apply Forall_app. split; [done|].
    apply Forall_app. split; [by repeat constructor|done].
Qed.

Lemma line_words_directive key v ws :
  plain_word key → v = join_with [32%N] ws → ws ≠ [] → Forall plain_word ws →
  Config.line_words (key ++ [32%N] ++ v) = key :: ws.
Proof.
  intros Hk -> Hne H. destruct ws as [|w ws]; [done|].
  rewrite <- join_with_cons. apply line_words_plain; [done|by constructor].
Qed.

(** Text that ends each of its lines is read as those lines. *)
Lemma lines_go_ended ls : Forall (λ l, strip_cr l = l) ls → lines_go (ls ++ [[]]) = ls.
Proof.
  induction 1 as [|l ls Hl Hls IH]; [done|]. cbn [app lines_go].
  destruct (ls ++ [[]]) eqn:E; [by destruct ls|]. by rewrite Hl, IH.
Qed.

Definition whole_line (l : str) : Prop := Forall (λ c, (c =? 10)%N = false) l ∧ strip_cr l = l.

Lemma lines_ended ls : Forall whole_line ls → lines (join_with [10%N] (ls ++ [[]])) = ls.
Proof.
  intros H. unfold lines. rewrite split_by_join; [|done|by destruct ls|].
  - apply lines_go_ended. eapply Forall_impl; [exact H|]. by intros l [_ ?].
  - apply Forall_app. split; [|by repeat constructor]. eapply Forall_impl; [exact H|]. by intros l [? _].
Qed.

(** A plain value makes a whole line. *)
Lemma plain_whole key v ws :
  plain_word key → v = join_with [32%N] ws → ws ≠ [] → Forall plain_word ws →
  whole_line (key ++ [32%N] ++ v).
Proof.
  intros Hk -> Hne H. split.
  - destruct ws as [|w ws]; [done|]. rewrite <- join_with_cons.
    assert (Forall plain_word (key :: w :: ws)) as H' by by constructor. clear Hne Hk H. revert H'.
    generalize (key :: w :: ws). intros l. induction 1 as [|x l Hx Hl IH]; [constructor|].
    assert (Forall (λ c, (c =? 10)%N = false) x) as Hn.
    { eapply Forall_impl; [by apply plain_word_blank|]. intros c Hc. apply N.eqb_neq. by intros ->. }
    destruct l; [done|]. rewrite join_with_cons. apply Forall_app. split; [done|].
    apply Forall_app. split; [by repeat constructor|done].
  - destruct (plain_last ws Hne H) as (s & c & -> & Hc). rewrite !app_assoc. unfold strip_cr.
    rewrite reverse_snoc. destruct (c =? 13)%N eqn:E; [|done]. by apply N.eqb_eq in E as ->.
Qed.

Lemma config_head_whole : Forall whole_line config_head.
Proof. repeat constructor; vm_compute; repeat constructor. Qed.
Lemma config_tail_whole : Forall whole_line config_tail.
Proof. repeat constructor; vm_compute; repeat constructor. Qed.

(** What the generated file changes in the defaults. *)
Definition launcher_settings (hk ak sh : str) (c : Config.AppConfig) : Config.AppConfig :=
  Config.set_exec_mode Config.PowerShell
    (Config.set_shell sh (Config.set_authorized_keys_file ak
       (Config.set_host_key hk (Config.set_port DEFAULT_PORT c)))).

Lemma config_head_applied d base home root :
  Config.apply_lines d base 1 config_head (Config.default_config home root)
  = Ok (Config.set_port DEFAULT_PORT (Config.default_config home root)).
Proof. vm_compute. reflexivity. Qed.

Lemma config_tail_applied d base n home root hk ak sh :
  Config.apply_lines d base n config_tail
    (Config.set_shell sh (Config.set_authorized_keys_file ak
       (Config.set_host_key hk (Config.set_port DEFAULT_PORT (Config.default_config home root)))))
  = Ok (launcher_settings hk ak sh (Config.default_config home root)).
Proof. vm_compute. reflexivity. Qed.

(** The directives with a value that is filled in. *)
Lemma apply_value_line key d base n v c r :
  plain_word key →
  (∀ w ws, Config.apply_directive d base n (to_ascii_lowercase key) w (w :: ws) c
           = r (join_with [32%N] (w :: ws))) →
  plain v → Config.apply_line d base n ((key ++ [32%N]) ++ v) c = r v.
Proof.
  intros Hk Hr (ws & Hne & H & ->). unfold Config.apply_line.
  rewrite <- app_assoc, (line_words_directive _ _ ws) by done.
  destruct ws as [|w ws]; [done|]. apply Hr.
Qed.

Lemma apply_host_key d base n v c :
  plain v →
  Config.apply_line d base n (lit "HostKey " ++ v) c
  = (p ← Config.resolve_config_path d v base; Ok (Config.set_host_key p c)).
Proof.
  apply (apply_value_line (lit "HostKey") d base n v c
           (λ v, p ← Config.resolve_config_path d v base; Ok (Config.set_host_key p c)));
    [by repeat constructor|reflexivity].
Qed.

Lemma apply_authorized_keys_file d base n v c :
  plain v →
  Config.apply_line d base n (lit "AuthorizedKeysFile " ++ v) c
  = (p ← Config.resolve_config_path d v base; Ok (Config.set_authorized_keys_file p c)).
Proof.
  apply (apply_value_line (lit "AuthorizedKeysFile") d base n v c
           (λ v, p ← Config.resolve_config_path d v base; Ok (Config.set_authorized_keys_file p c)));
    [by repeat constructor|reflexivity].
Qed.

Lemma apply_shell d base n v c :
  plain v →
  Config.apply_line d base n (lit "Shell " ++ v) c
  = (p ← Config.resolve_shell_command_or_path d v base; Ok (Config.set_shell p c)).
Proof.
  apply (apply_value_line (lit "Shell") d base n v c
           (λ v, p ← Config.resolve_shell_command_or_path d v base; Ok (Config.set_shell p c)));
    [by repeat constructor|reflexivity].
Qed.

Lemma plain_line key v : plain_word key → plain v → whole_line ((key ++ [32%N]) ++ v).
Proof. intros ? (ws & ? & ? & ?). rewrite <- app_assoc. by apply (plain_whole key v ws). Qed.

Lemma config_lines_whole p :
  plain (host_key_path p) → plain (authorized_keys_path p) → plain (shell_path p) →
  Forall whole_line (config_lines p).
Proof.
  intros H1 H2 H3. apply Forall_app. split; [apply config_head_whole|].
  apply Forall_app. split; [|apply config_tail_whole].
  repeat apply Forall_cons_2; [| | | |constructor].
  - apply (plain_line (lit "HostKey")); [by repeat constructor|done].
  - apply (plain_line (lit "AuthorizedKeysFile")); [by repeat constructor|done].
  - by repeat constructor.
  - apply (plain_line (lit "Shell")); [by repeat constructor|done].
Qed.

(** A run that loads reads the file as [ensure_default_config] left it. *)
Lemma run_serves p env fs fs' c r :
  run p env fs = (fs', Some c, r) → load env (λ path, fs' !! path) (config_path p) = Ok c.
Proof.
  unfold run, serve. destruct (create_dir (narrowd_root p) env); [|done].
  destruct (create_dir (log_dir p) env); [|done].
  destruct (ensure_default_config p env fs) as [fs1 [u|e]]; [|done].
  destruct (load env (λ path, fs1 !! path) (config_path p)) as [c'|] eqn:E; [|done].
  cbn. destruct (init_logging env); [|done]. destruct (build_runtime env); cbn; [|done].
  intros [= <- <- <-]. done.
Qed.

Lemma ensure_default_config_cases p env fs :
  (ensure_default_config p env fs).1 = fs ∧ is_Some (fs !! config_path p) ∨
  fs !! config_path p = None ∧
  ((ensure_default_config p env fs).1 = <[config_path p := render_default_config p]> fs ∨
   is_ok (ensure_default_config p env fs).2 = false).
Proof.
  unfold ensure_default_config, write_file. destruct (fs !! config_path p) eqn:E; [by left|].
  right. split; [done|]. destruct (write_config env) as [[n|] [u|e]]; cbn; auto.
Qed.

(** ** Properties *)

(** The generated configuration is understood as it was meant.  When the
    three values filled in are words apart by single blanks without a comment
    sign, reading the file the launcher writes into the defaults changes the
    port, the three paths (to what they resolve to) and the mode of the shell,
    and leaves every other setting, the hardening limits included, as it was. *)
Theorem launcher_config_round_trip p d base home root :
  plain (host_key_path p) → plain (authorized_keys_path p) → plain (shell_path p) →
  Config.apply_text d (render_default_config p) base (Config.default_config home root)
  = (hk ← Config.resolve_config_path d (host_key_path p) base;
     ak ← Config.resolve_config_path d (authorized_keys_path p) base;
     sh ← Config.resolve_shell_command_or_path d (shell_path p) base;
     Ok (launcher_settings hk ak sh (Config.default_config home root))).
Proof.
  intros H1 H2 H3. unfold Config.apply_text, render_default_config.
  rewrite lines_ended by by apply config_lines_whole.
  unfold config_lines. rewrite apply_lines_app, config_head_applied.
  unfold mbind at 1, result_bind at 1. rewrite apply_lines_app. cbn [Config.apply_lines].
  rewrite apply_host_key by done.
  destruct (Config.resolve_config_path d (host_key_path p) base) as [hk|e]; cbn [mbind result_bind]; [|done].
  rewrite apply_authorized_keys_file by done.
  destruct (Config.resolve_config_path d (authorized_keys_path p) base) as [ak|e]; cbn [mbind result_bind]; [|done].
  change (Config.apply_line d base ?n (lit "") ?c) with (@Ok anyhow _ c). cbn [mbind result_bind].
  rewrite apply_shell by done.
  destruct (Config.resolve_shell_command_or_path d (shell_path p) base) as [sh|e]; cbn [mbind result_bind]; [|done].
  apply config_tail_applied.
Qed.

(** The user's configuration is kept.  A configuration file that is there is
    never written; one that is not is either written as generated or the launch
    fails; and whatever is served was loaded from that file as it then is. *)
Theorem launcher_keeps_user_config p env fs fs' served r :
  run p env fs = (fs', served, r) →
  (∀ text, fs !! config_path p = Some text → fs' = fs) ∧
  (fs !! config_path p = None → is_ok r = true →
   fs' = <[config_path p := render_default_config p]> fs) ∧
  (∀ c, served = Some c → load env (λ path, fs' !! path) (config_path p) = Ok c) ∧
  (is_ok r = true → is_Some served).
Proof.
  intros H.
  assert (served_ok : ∀ c, served = Some c → load env (λ path, fs' !! path) (config_path p) = Ok c)
    by (intros c ->; by eapply run_serves).
  pose proof (ensure_default_config_cases p env fs) as C. unfold run in H.
  destruct (create_dir (narrowd_root p) env); [|by simplify_eq/=].
  destruct (create_dir (log_dir p) env); [|by simplify_eq/=].
  destruct (ensure_default_config p env fs) as [fs1 [u|e]]; cbn in C.
  2: { simplify_eq. destruct C as [[-> _]|[-> _]]; by split_and!. }
  destruct (serve p env fs1) as [s1 r1] eqn:E. simplify_eq. split_and!; [| |done|].
  - intros text Ht. destruct C as [[? _]|[C _]]; [done|congruence].
  - intros Hn Hr. destruct C as [[_ [x ?]]|[_ [?|?]]]; [congruence|done|done].
  - unfold serve in E. intros Hr. repeat case_match; simplify_eq; done.
Qed.

Definition example_paths : SessionPaths := {|
  narrowd_root := lit "C:\Users\Ann Lee\AppData\Local\narrowd";
  config_path := lit "C:\Users\Ann Lee\AppData\Local\narrowd\narrowd.conf";
  host_key_path := lit "C:\Users\Ann Lee\AppData\Local\narrowd\ssh_host_ed25519_key";
  log_dir := lit "C:\Users\Ann Lee\AppData\Local\narrowd\log";
  log_file := lit "C:\Users\Ann Lee\AppData\Local\narrowd\log\narrowd.log";
  authorized_keys_path := lit "C:\Users\Ann Lee\.ssh\authorized_keys";
  shell_path := POWERSHELL;
|}.
Definition example_environment : environment := {|
  home_dir := Some (lit "C:\Users\Ann Lee");
  data_local_dir := Some (lit "C:\Users\Ann Lee\AppData\Local"); var_localappdata := None;
  is_file := λ _, true; create_dir_all := λ _, Ok tt; write_config := (None, Ok tt);
  load := λ read path, match read path with
                       | Some _ => Ok (Config.default_config (lit "/home") (lit "/etc"))
                       | None => bail (lit "no file")
                       end;
  init_logging := Ok tt; build_runtime := Ok tt; sshd_run := λ _, Ok tt;
  bootstrap := Logging.bootstrap_fine;
|}.

Lemma example_paths_resolved : resolve_paths example_environment = Ok example_paths.
Proof. vm_compute. reflexivity. Qed.

Lemma plain_words s : Forall plain_word (Config.line_words s) → Config.line_words s ≠ [] →
  s = join_with [32%N] (Config.line_words s) → plain s.
Proof. intros. by exists (Config.line_words s). Qed.

Ltac plain_literal := apply plain_words; apply (bool_decide_unpack _); vm_compute; exact I.

Lemma launcher_config_round_trip_witness :
  Config.apply_text demo_dirs (render_default_config example_paths) (lit "/etc")
    (Config.default_config (lit "/home/alice") (lit "/home/alice/.config"))
  = Ok (launcher_settings (Paths.join (lit "/etc") (host_key_path example_paths))
          (Paths.join (lit "/etc") (authorized_keys_path example_paths)) POWERSHELL
          (Config.default_config (lit "/home/alice") (lit "/home/alice/.config"))).
Proof.
  etrans; [apply (launcher_config_round_trip example_paths); plain_literal|reflexivity].
Defined.

Lemma launcher_keeps_user_config_witness :
  (run example_paths example_environment ∅).1.1
  = <[config_path example_paths := render_default_config example_paths]> ∅.
Proof.
  destruct (run example_paths example_environment ∅) as [[fs' served] r] eqn:E.
  destruct (launcher_keeps_user_config _ _ _ _ _ _ E) as (_ & H & _).
  cbn [fst]. apply H; [reflexivity|].
  assert (r = (run example_paths example_environment ∅).2) as -> by (by rewrite E). vm_compute. reflexivity.
Defined.

(** A comment sign in the user's directory cuts the paths off. *)
Definition hash_paths : SessionPaths := {|
  narrowd_root := []; config_path := []; host_key_path := lit "C:\Users\a#b\ssh_host_ed25519_key";
  log_dir := []; log_file := []; authorized_keys_path := lit "C:\Users\a#b\.ssh\authorized_keys";
  shell_path := POWERSHELL;
|}.

Theorem comment_sign_cuts_generated_paths :
  map_ok Config.authorized_keys_file
    (Config.apply_text demo_dirs (render_default_config hash_paths) (lit "/etc")
       (Config.default_config (lit "/home/alice") (lit "/home/alice/.config")))
  = Ok (lit "/etc/C:\Users\a").
Proof. vm_compute. reflexivity. Qed.

End SessionLauncher.
