(* ===== verification/Cli.v ===== *)
(** * The command line (src/src/main.rs)

    [main] and [run_cli] pick what the program does: one of the internal modes,
    the sample configuration, a check of the configuration, or the daemon.  The
    parsed command line is a record; the components it calls are those of the
    other files or, where they only answer, part of the [world]. *)

From S2P Require Import Prelude Rust Paths Config ConfigCorrect Logging WindowsService.

Local Open Scope Z_scope.

Module Cli.

Record Cli := {
  config : option str;
  check_config : bool;
  print_sample_config : bool;
  log_file : option str;
  internal_executor : bool;
  internal_preauth_sandbox_probe : option str;
  internal_preauth_default_deny_probe : option str;
}.

(** The options of a Windows build. *)
Record WindowsCli := { unix_options : Cli; run_windows_service : bool; service_name : option str }.

Record world := {
  user : Config.user_dirs;
  exists_ : str → bool;
  read_to_string : str → result io_error str;
  rust_log : bool;
  try_init : result anyhow unit;
  log_answers : Logging.answers;
  run_from_control_stdin : result anyhow unit;
  preauth_probe : str → result anyhow str;
  default_deny_probe : str → result anyhow unit;
  sshd_run : Config.AppConfig → result anyhow unit;
  build_runtime : result anyhow unit;
  launch_options_set : bool;
  dispatcher_start : WindowsService.WindowsServiceLaunchOptions → result anyhow unit;
}.

(** What a run did: what it printed, what it served or ran, the log files. *)
Record outcome := {
  stdout : str;
  daemon : option Config.AppConfig;
  executor : bool;
  service : option WindowsService.WindowsServiceLaunchOptions;
  disk : Logging.disk;
  exit : result anyhow unit;
}.

Definition ended (d : Logging.disk) (r : result anyhow unit) : outcome :=
  {| stdout := []; daemon := None; executor := false; service := None; disk := d; exit := r |}.
Definition printed (text : str) (d : Logging.disk) : outcome :=
  {| stdout := text; daemon := None; executor := false; service := None; disk := d; exit := Ok tt |}.

(** The modes that load the configuration. *)
Definition run_configured (cli : Cli) (w : world) (d : Logging.disk) : outcome :=
  match Config.load (user w) (exists_ w) (read_to_string w) (config cli) with
  | Err e => ended d (Err e)
  | Ok c =>
      let '(d, r) := Logging.init (Config.log_level c) (log_file cli) (rust_log w) (try_init w)
                       (log_answers w) d in
      match r with
      | Err e => ended d (Err e)
      | Ok _ =>
          if check_config cli then printed (lit "config ok" ++ [10%N]) d
          else {| stdout := []; daemon := Some c; executor := false; service := None; disk := d;
                  exit := sshd_run w c |}
      end
  end.

Definition run_cli (cli : Cli) (w : world) (d : Logging.disk) : outcome :=
  if internal_executor cli then
    {| stdout := []; daemon := None; executor := true; service := None; disk := d;
       exit := run_from_control_stdin w |}
  else
    match internal_preauth_sandbox_probe cli with
    | Some path =>
        match preauth_probe w path with
        | Ok text => printed text d
        | Err e => ended d (Err e)
        end
    | None =>
        match internal_preauth_default_deny_probe cli with
        | Some path => ended d (default_deny_probe w path)
        | None =>
            if print_sample_config cli then printed Config.SAMPLE_CONFIG d else run_configured cli w d
        end
    end.

Definition main (cli : Cli) (w : world) (d : Logging.disk) : outcome :=
  match with_context (lit "failed to create Tokio runtime") (build_runtime w) with
  | Err e => ended d (Err e)
  | Ok _ => run_cli cli w d
  end.

(** [windows_service_runtime::dispatch]: the options are set once per process. *)
Definition dispatch (l : WindowsService.WindowsServiceLaunchOptions) (w : world) (d : Logging.disk)
  : outcome :=
  if launch_options_set w
  then ended d (bail (lit "windows service launch options were already initialized"))
  else {| stdout := []; daemon := None; executor := false; service := Some l; disk := d;
          exit := with_context (lit "failed to start the Windows service dispatcher")
                    (dispatcher_start w l) |}.

(** [main] of a Windows build: the service, or the same as elsewhere without the
    internal modes. *)
Definition main_windows (cli : WindowsCli) (w : world) (d : Logging.disk) : outcome :=
  if run_windows_service cli then
    match service_name cli with
    | None => ended d (bail (lit "missing --service-name for --run-windows-service mode"))
    | Some name =>
        dispatch {| WindowsService.service_name := name;
                    WindowsService.config_path := config (unix_options cli);
                    WindowsService.log_file := log_file (unix_options cli) |} w d
    end
  else
    match with_context (lit "failed to create Tokio runtime") (build_runtime w) with
    | Err e => ended d (Err e)
    | Ok _ =>
        if print_sample_config (unix_options cli) then printed Config.SAMPLE_CONFIG d
        else run_configured (unix_options cli) w d
    end.

(** ** Lemmas *)

Lemma init_without_file level rust_log try_init a d :
  Logging.init level None rust_log try_init a d
  = (d, _ ← with_context (lit "failed to initialize application logging") try_init;
        Ok {| Logging.filter_level := Config.to_level_filter level; Logging.pipe := None;
              Logging.write_style_never := false; Logging.default_env := rust_log |}).
Proof. done. Qed.

(** ** Properties *)

(** The daemon is started only by a command line without any other mode, with
    the configuration as loaded, and after logging is up; a check of the
    configuration never starts it. *)
Theorem daemon_is_the_default_mode cli w d c :
  (daemon (main cli w d) = Some c ↔
   build_runtime w = Ok tt ∧ internal_executor cli = false ∧
   internal_preauth_sandbox_probe cli = None ∧ internal_preauth_default_deny_probe cli = None ∧
   print_sample_config cli = false ∧ check_config cli = false ∧
   Config.load (user w) (exists_ w) (read_to_string w) (config cli) = Ok c ∧
   is_ok (Logging.init (Config.log_level c) (log_file cli) (rust_log w) (try_init w)
            (log_answers w) d).2 = true) ∧
  (check_config cli = true → daemon (main cli w d) = None).
Proof.
  unfold main, run_cli, run_configured. split; [split|].
  - destruct (build_runtime w) as [[]|e]; [|done]. cbn [with_context map_err].
    destruct (internal_executor cli); [done|].
    destruct (internal_preauth_sandbox_probe cli) as [q|]; [by destruct (preauth_probe w q)|].
    destruct (internal_preauth_default_deny_probe cli); [done|].
    destruct (print_sample_config cli); [done|].
    destruct (Config.load _ _ _ _) as [c'|e]; [|done].
    destruct (Logging.init _ _ _ _ _ d) as [d' [l|e]] eqn:E; [|done].
    destruct (check_config cli); [done|]. intros [= ->]. by rewrite E.
  - intros (-> & -> & -> & -> & -> & -> & -> & H). cbn [with_context map_err].
    by destruct (Logging.init _ _ _ _ _ d) as [d' [l|e]].
  - intros ->. destruct (build_runtime w); cbn [with_context map_err]; [|done].
    repeat case_match; done.
Qed.

(** The sample configuration round-trips through the program.  For every user
    whose home is an absolute path, a file that holds what the sample mode
    prints is accepted by the check of the configuration, and a daemon started
    on it runs with the defaults. *)
Theorem printed_sample_is_accepted cli w w' d home path :
  user w = {| Config.home_dir := Some home; Config.config_dir := None |} → is_absolute home = true →
  is_absolute path = true → build_runtime w = Ok tt → try_init w = Ok tt →
  config cli = Some path → log_file cli = None → internal_executor cli = false →
  internal_preauth_sandbox_probe cli = None → internal_preauth_default_deny_probe cli = None →
  print_sample_config cli = false →
  build_runtime w' = Ok tt →
  read_to_string w path = Ok (stdout (main {| config := None; check_config := false;
     print_sample_config := true; log_file := None; internal_executor := false;
     internal_preauth_sandbox_probe := None; internal_preauth_default_deny_probe := None |} w' d)) →
  if check_config cli
  then main cli w d = printed (lit "config ok" ++ [10%N]) d
  else daemon (main cli w d) = Some (Config.default_config home (Paths.join home (lit ".config"))).
Proof.
  intros Hu Hh Hp Hr Hi Hc Hl H1 H2 H3 H4 Hr' Hread.
  assert (Config.load (user w) (exists_ w) (read_to_string w) (config cli)
          = Ok (Config.default_config home (Paths.join home (lit ".config")))) as Hload.
  { unfold Config.load. rewrite Hu, Hc. unfold Config.defaults, Config.require_home, Config.config_root.
    cbn [Config.home_dir Config.config_dir ok_or mbind result_bind default].
    assert (∀ d, Config.expand_home d path = Ok path) as He.
    { intros ud. unfold Config.expand_home. destruct path as [|x path]; [done|]. cbn in Hp.
      apply N.eqb_eq in Hp as ->. by cbn. }
    rewrite He. cbn [mbind result_bind]. rewrite Hread.
    unfold main. rewrite Hr'. cbn [with_context map_err run_cli internal_executor
      internal_preauth_sandbox_probe internal_preauth_default_deny_probe print_sample_config
      printed stdout io_result mbind result_bind].
    rewrite sample_config_applied by done. by cbn. }
  unfold main. rewrite Hr. cbn [with_context map_err]. unfold run_cli. rewrite H1, H2, H3, H4.
  unfold run_configured. rewrite Hload, Hl, init_without_file, Hi. cbn [with_context map_err mbind result_bind].
  by destruct (check_config cli).
Qed.

Definition demo_world (text : str) : world := {|
  user := demo_dirs; exists_ := λ _, true; read_to_string := λ _, Ok text; rust_log := false;
  try_init := Ok tt; log_answers := Logging.all_fine 0; run_from_control_stdin := Ok tt;
  preauth_probe := λ _, Ok []; default_deny_probe := λ _, Ok tt; sshd_run := λ _, Ok tt;
  build_runtime := Ok tt; launch_options_set := false; dispatcher_start := λ _, Ok tt;
|}.
Definition demo_cli : Cli := {|
  config := Some (lit "/etc/narrowd.conf"); check_config := true; print_sample_config := false;
  log_file := None; internal_executor := false; internal_preauth_sandbox_probe := None;
  internal_preauth_default_deny_probe := None;
|}.
Definition demo_disk : Logging.disk := {| Logging.log_file := None; Logging.old_file := None |}.

Lemma daemon_is_the_default_mode_witness :
  daemon (main demo_cli (demo_world Config.SAMPLE_CONFIG) demo_disk) = None.
Proof.
  apply (daemon_is_the_default_mode demo_cli (demo_world Config.SAMPLE_CONFIG) demo_disk demo_defaults).
  reflexivity.
Defined.

Lemma printed_sample_is_accepted_witness :
  main demo_cli (demo_world Config.SAMPLE_CONFIG) demo_disk = printed (lit "config ok" ++ [10%N]) demo_disk.
Proof.
  exact (printed_sample_is_accepted demo_cli (demo_world Config.SAMPLE_CONFIG)
           (demo_world Config.SAMPLE_CONFIG) demo_disk (lit "/home/alice") (lit "/etc/narrowd.conf")
           eq_refl eq_refl eq_refl eq_refl eq_refl eq_refl eq_refl eq_refl eq_refl eq_refl eq_refl
           eq_refl eq_refl).
Defined.

End Cli.
