(* ===== verification/UnitTests.v ===== *)
(** * The repository's unit tests, on the model

    The definitions of the other files are executable, so the unit tests of
    src/src can be run on them: each definition below is a test of the module
    named by its section, with the calls, the times and the assertions of the
    source.  A test that fails an [unwrap] or an assertion is [false].  The tests
    of the authorized keys file run for every parser that finds the keys the
    tests wrote (class [TestKeys]). *)

From S2P Require Import Prelude Rust Net Paths Config Admission LogLimiter Metrics AuthorizedKeys Server Daemon LogText Startup Framing Process Executor Sftp.

Local Open Scope Z_scope.

Module UnitTests.

(** A test in the option monad: [None] is a failed [unwrap]. *)
Definition passes (t : option bool) : bool := default false t.

Definition err_contains {A} (text : str) (r : result anyhow A) : bool :=
  match r with Err (c :: _) => contains text (cause_text c) | _ => false end.

(** ** admission.rs *)

Module AdmissionTests.

Definition test_config : AdmissionConfig := {|
  max_unauth_connections_global := 4;
  max_unauth_connections_per_ip := 2;
  max_unauth_connections_per_subnet := 3;
  new_connections_per_minute_per_ip := 12;
  new_connections_burst_per_ip := 2;
  auth_failure_ban_threshold := 3;
  auth_failure_ban_window := from_secs 30;
  auth_failure_ban_duration := from_secs 60;
|}.

Definition v4 (a b c d : Z) : IpAddr := V4 {| o0 := a; o1 := b; o2 := c; o3 := d |}.

Definition now : Instant := from_secs 1000.

Abbreviation controller := (mutex AdmissionState) (only parsing).

(** [try_acquire_at(..).unwrap()], [.unwrap_err()] and a dropped guard. *)
Definition acquired (c : controller) (peer : IpAddr) (at_ : Instant)
  : option (controller * AdmissionGuard) :=
  match try_acquire_at c peer at_ with (c, Ret (Ok g)) => Some (c, g) | _ => None end.
Definition refused (c : controller) (peer : IpAddr) (at_ : Instant)
  : option (controller * RejectReason) :=
  match try_acquire_at c peer at_ with (c, Ret (Err r)) => Some (c, r) | _ => None end.
Definition dropped (c : controller) (g : AdmissionGuard) (at_ : Instant) : option controller :=
  match guard_drop c g at_ with (c, Ret _) => Some c | _ => None end.
Definition failed (c : controller) (peer : IpAddr) (at_ : Instant) : option (controller * bool) :=
  match record_auth_failure_at c peer at_ with (c, Ret b) => Some (c, b) | _ => None end.
Definition known (c : controller) (peer : IpAddr) : option bool :=
  match c with Unpoisoned s => Some (bool_decide (is_Some (per_peer s !! peer))) | Poisoned => None end.

Definition enforces_per_ip_limit_until_guard_released : option bool :=
  let c := AdmissionController_new test_config now in
  let peer := v4 10 0 0 1 in
  '(c, guard1) ← acquired c peer now;
  '(c, guard2) ← acquired c peer (now + from_millis 1);
  '(c, reject) ← refused c peer (now + from_secs 10);
  c ← dropped c guard1 (now + from_secs 10);
  '(c, _) ← acquired c peer (now + from_secs 5);
  _ ← dropped c guard2 (now + from_secs 10);
  Some (bool_decide (reject = TooManyUnauthenticatedConnectionsForIp)).

Definition roomy_config : AdmissionConfig := {|
  max_unauth_connections_global := 8;
  max_unauth_connections_per_ip := 8;
  max_unauth_connections_per_subnet := 8;
  new_connections_per_minute_per_ip := 12;
  new_connections_burst_per_ip := 2;
  auth_failure_ban_threshold := 3;
  auth_failure_ban_window := from_secs 30;
  auth_failure_ban_duration := from_secs 60;
|}.

Definition enforces_rate_limit_and_refills_over_time : option bool :=
  let c := AdmissionController_new roomy_config now in
  let peer := v4 10 0 0 5 in
  '(c, first) ← acquired c peer now;
  '(c, second) ← acquired c peer (now + from_millis 1);
  '(c, reject) ← refused c peer (now + from_millis 2);
  c ← dropped c first (now + from_millis 2);
  c ← dropped c second (now + from_millis 2);
  _ ← acquired c peer (now + from_secs 10);
  Some (bool_decide (reject = ConnectionRateLimited)).

Definition bans_after_repeated_auth_failures_and_expires : option bool :=
  let c := AdmissionController_new test_config now in
  let peer := v4 192 168 1 10 in
  '(c, b1) ← failed c peer now;
  '(c, b2) ← failed c peer (now + from_secs 1);
  '(c, b3) ← failed c peer (now + from_secs 2);
  '(c, reject) ← refused c peer (now + from_secs 3);
  _ ← acquired c peer (now + from_secs 65);
  Some (negb b1 && negb b2 && b3 && bool_decide (reject = TemporarilyBanned)).

Definition enforces_per_subnet_limit : option bool :=
  let c := AdmissionController_new test_config now in
  '(c, _) ← acquired c (v4 10 0 0 1) now;
  '(c, _) ← acquired c (v4 10 0 0 2) now;
  '(c, _) ← acquired c (v4 10 0 0 3) now;
  '(c, reject) ← refused c (v4 10 0 0 4) now;
  Some (bool_decide (reject = TooManyUnauthenticatedConnectionsForSubnet)).

Definition one_slot_config : AdmissionConfig := {|
  max_unauth_connections_global := 1;
  max_unauth_connections_per_ip := 4;
  max_unauth_connections_per_subnet := 4;
  new_connections_per_minute_per_ip := 60;
  new_connections_burst_per_ip := 1;
  auth_failure_ban_threshold := 3;
  auth_failure_ban_window := from_secs 30;
  auth_failure_ban_duration := from_secs 60;
|}.

Definition cap_rejections_do_not_consume_rate_limit_tokens : option bool :=
  let c := AdmissionController_new one_slot_config now in
  let blocked_peer := v4 10 0 1 1 in
  '(c, guard) ← acquired c (v4 10 0 0 1) now;
  '(c, first_reject) ← refused c blocked_peer (now + from_millis 1);
  '(c, second_reject) ← refused c blocked_peer (now + from_millis 2);
  c ← dropped c guard (now + from_millis 2);
  _ ← acquired c blocked_peer (now + from_millis 3);
  Some (bool_decide (first_reject = TooManyUnauthenticatedConnections)
        && bool_decide (second_reject = TooManyUnauthenticatedConnections)).

Definition sweeps_stale_auth_failure_entries_during_later_traffic : option bool :=
  let c := AdmissionController_new test_config now in
  let stale_peer := v4 10 0 0 5 in
  '(c, banned) ← failed c stale_peer now;
  before ← known c stale_peer;
  '(c, _) ← acquired c (v4 10 0 0 6) (now + PEER_SWEEP_INTERVAL + from_secs 1);
  after_ ← known c stale_peer;
  Some (negb banned && before && negb after_).

End AdmissionTests.

(** ** config.rs *)

Module ConfigTests.

Definition user : Config.user_dirs :=
  {| Config.home_dir := Some (lit "/home/alice"); Config.config_dir := None |}.

(** The lines of a configuration, each ended. *)
Definition text (ls : list str) : str := join_with [10%N] (ls ++ [[]]).

(** [AppConfig::defaults().unwrap()] with a text applied. *)
Definition applied (ls : list str) : result anyhow Config.AppConfig :=
  c ← Config.defaults user; Config.apply_text user (text ls) (lit "/tmp") c.

Definition parses_basic_config : option bool :=
  config ← ok (applied [lit "Port 9922"; lit "ListenAddress 127.0.0.1"; lit "PasswordAuthentication no";
                        lit "LoginGraceTime 20s"; lit "AuthorizedKeysMaxSize 64KiB"]);
  Some ((Config.port config =? 9922)
        && bool_decide (Config.listen_address config = lit "127.0.0.1")
        && (Config.login_grace_time config =? from_secs 20)
        && (Config.authorized_keys_max_size config =? 64 * 1024)
        && (Config.kex_start_timeout config =? from_secs 5)).

Definition parses_public_exposure_limits : option bool :=
  config ← ok (applied [lit "MaxUnauthConnectionsGlobal 10"; lit "MaxUnauthConnectionsPerIp 2";
                        lit "AuthFailureBanThreshold 5"; lit "AuthFailureBanWindow 30s";
                        lit "AuthorizedKeysReloadInterval 3s"; lit "KexStartTimeout 7s";
                        lit "ExecMode shell-command"]);
  Some ((Config.max_unauth_connections_global config =? 10)
        && (Config.max_unauth_connections_per_ip config =? 2)
        && (Config.auth_failure_ban_threshold config =? 5)
        && (Config.auth_failure_ban_window config =? from_secs 30)
        && (Config.authorized_keys_reload_interval config =? from_secs 3)
        && (Config.kex_start_timeout config =? from_secs 7)
        && bool_decide (Config.exec_mode config = Config.ShellCommand)).

Definition rejects_password_auth_enable : option bool :=
  Some (err_contains (lit "unsupported") (applied [lit "PasswordAuthentication yes"])).

Definition parses_duration_suffixes : option bool :=
  a ← ok (Config.parse_duration (lit "1500ms"));
  b ← ok (Config.parse_duration (lit "15s"));
  c ← ok (Config.parse_duration (lit "2m"));
  d ← ok (Config.parse_duration (lit "1h"));
  Some ((a =? from_millis 1500) && (b =? from_secs 15) && (c =? from_secs 120) && (d =? from_secs 3600)).

Definition parses_byte_sizes : option bool :=
  a ← ok (Config.parse_byte_size (lit "256"));
  b ← ok (Config.parse_byte_size (lit "64KiB"));
  c ← ok (Config.parse_byte_size (lit "1MiB"));
  Some ((a =? 256) && (b =? 64 * 1024) && (c =? 1024 * 1024)).

Definition shell_directive_keeps_bare_command_name : option bool :=
  config ← ok (applied [lit "Shell powershell.exe"]);
  Some (bool_decide (Config.shell config = lit "powershell.exe")).

Definition shell_directive_resolves_relative_path_from_config_dir : option bool :=
  config ← ok (applied [lit "Shell bin/custom-shell.exe"]);
  Some (bool_decide (Config.shell config = Paths.join (lit "/tmp") (lit "bin/custom-shell.exe"))).

Definition rejects_incompatible_exec_mode_shell_combo : option bool :=
  config ← ok (applied [lit "Shell /bin/bash"; lit "ExecMode powershell"; lit "PermitExec yes"]);
  Some (err_contains (lit "ExecMode powershell") (Config.validate config)).

End ConfigTests.

(** ** log_limiter.rs *)

Module LogLimiterTests.
Import AdmissionTests.

Definition key (octet : Z) : LogKey :=
  {| log_peer_ip := Some (v4 10 0 0 octet); log_category := lit "auth-failure" |}.

(** [check_at], its decision asserted. *)
Definition decides (k : LogKey) (at_ : Instant) (d : LogDecision) (s : LogLimiterState)
  : option LogLimiterState :=
  let '(s, d') := check map_to_list k at_ s in
  match d, d' with
  | Suppress, Suppress => Some s
  | Emit a, Emit b => if a =? b then Some s else None
  | _, _ => None
  end.

Definition suppresses_duplicates_within_window_and_reports_summary : option bool :=
  let s := LogLimiterState_new (from_secs 30) 64 now in
  s ← decides (key 1) now (Emit 0) s;
  s ← decides (key 1) (now + from_secs 1) Suppress s;
  _ ← decides (key 1) (now + from_secs 31) (Emit 1) s;
  Some true.

Definition evicts_old_entries_when_map_grows : option bool :=
  let s := LogLimiterState_new (from_secs 10) 2 now in
  s ← decides (key 1) now (Emit 0) s;
  s ← decides (key 2) (now + from_secs 1) (Emit 0) s;
  s ← decides (key 3) (now + from_secs 25) (Emit 0) s;
  Some ((Z.of_nat (size (entries s)) <=? 2) && bool_decide (entries s !! key 1 = None)).

End LogLimiterTests.

(** ** metrics.rs *)

Module MetricsTests.
Import AdmissionTests Metrics.

Definition tracks_security_counters : option bool :=
  let m := Metrics.new 8 in
  let m := preauth_connection_opened m in
  let m := record_rejected_connection (lit "banner-timeout") m in
  let m := Metrics.record_auth_failure (Some (v4 10 0 0 2)) false m in
  let m := Metrics.record_auth_failure (Some (v4 10 0 0 2)) true m in
  let m := record_preauth_timeout m in
  let m := record_malformed_disconnect m in
  let m := record_cache_reload_success m in
  let m := record_cache_reload_failure m in
  let m := preauth_connection_closed m in
  let s := snapshot m in
  Some ((snap_unauthenticated s =? 0)
        && bool_decide (snap_rejected s !! lit "banner-timeout" = Some 1)
        && bool_decide (snap_auth_failures s !! lit "10.0.0.2" = Some 2)
        && (snap_bans s =? 1) && (snap_timeouts s =? 1) && (snap_malformed s =? 1)
        && (snap_reload_successes s =? 1) && (snap_reload_failures s =? 1)).

Definition bounds_auth_failure_ips_and_tracks_overflow : option bool :=
  let m := Metrics.new 1 in
  let m := Metrics.record_auth_failure (Some (v4 10 0 0 1)) false m in
  let m := Metrics.record_auth_failure (Some (v4 10 0 0 2)) false m in
  let s := snapshot m in
  Some (bool_decide (size (snap_auth_failures s) = 1%nat) && (snap_overflow s =? 1)).

End MetricsTests.

(** ** sshd.rs *)

Module SshdTests.
Import Server Daemon.

Definition rejects_non_matching_login_usernames : option bool :=
  Some (login_user_matches_daemon (lit "uli") (lit "uli")
        && negb (login_user_matches_daemon (lit "root") (lit "uli"))).

Definition auth_rejection_logs_do_not_include_login_names : option bool :=
  let message := LogText.auth_rejection_log_message (λ _, false)
    (Some {| sock_ip := AdmissionTests.v4 192 0 2 1; sock_port := 2222 |})
    (lit "auth-reject-username") (lit "requested login user is not permitted") (Some true) in
  Some (bool_decide (message
          = lit "event=auth_rejected peer=192.0.2.1:2222 category=auth-reject-username reason="
            ++ LogText.quote ++ lit "requested login user is not permitted" ++ LogText.quote
            ++ lit " temporary_ban=true")
        && negb (contains (lit "user=") message) && negb (contains (lit "uli") message)
        && negb (contains (lit "alice") message)).

Definition allows_only_modern_user_key_algorithms : option bool :=
  Some (is_user_key_algorithm_allowed Ed25519 && is_user_key_algorithm_allowed SkEd25519
        && negb (is_user_key_algorithm_allowed (OtherAlgorithm (lit "Dsa")))
        && negb (is_user_key_algorithm_allowed (OtherAlgorithm (lit "Rsa { hash: None }")))).

Definition public_exposure_preference_disables_host_key_certificates : option bool :=
  Some (match host_key_certificates public_exposure_preferred with [] => true | _ => false end).

(** A directory that exists with mode 755, and no host key in it. *)
Definition host_key_path : str := lit "/tmp/test/config/ssh_host_ed25519_key".

Definition tightens_host_key_parent_directory_permissions : option bool :=
  match Startup.load_or_generate_host_key host_key_path Startup.demo_environment with
  | (effects, Ret (Ok _)) =>
      Some (bool_decide (Startup.SetMode (lit "/tmp/test/config") 448 ∈ effects))
  | _ => None
  end.

(** A host key whose file has mode 644. *)
Definition open_key_environment : Startup.environment (PrivateKey := unit) := {|
  Startup.home_dir := Some (lit "/home/alice"); Startup.host_key_exists := true;
  Startup.read_openssh_file := Ok tt; Startup.host_key_mode := Ok 33188;
  Startup.create_dir_all := Ok tt; Startup.set_permissions := Ok tt; Startup.random_key := Ok tt;
  Startup.write_openssh_file := Ok tt; Startup.uid := 1000;
  Startup.passwd_name := Ok (Some (lit "alice")); Startup.var_username := Err [];
  Startup.var_user := Err []; Startup.cfg_unix := true; Startup.cfg_linux := true;
  Startup.keys_file_exists := false;
  Startup.keys_file := {| AuthorizedKeys.fs_stat := Err (IoError NotFound []);
                          AuthorizedKeys.fs_open := Err (IoError NotFound []) |};
  Startup.spawn_executor := Ok tt; Startup.bind_listener := Ok tt; Startup.set_no_new_privs := Ok tt;
  Startup.apply_sandbox := Ok tt; Startup.now := 1000;
|}.

Definition rejects_host_keys_with_group_or_other_permissions : option bool :=
  match Startup.load_or_generate_host_key host_key_path open_key_environment with
  | (_, Ret r) => Some (err_contains (lit "insecure permissions") r)
  | _ => None
  end.

Definition builds_public_exposure_ssh_config_from_app_config : option bool :=
  config ← ok (Config.defaults ConfigTests.user);
  let config := Config.set_max_auth_attempts 7 config in
  let config := Config.set_auth_rejection_time (from_secs 4) config in
  let config := Config.set_keepalive_interval (from_secs 42) config in
  let config := Config.set_keepalive_max 5 config in
  let config := Config.set_channel_buffer_size 24 config in
  let config := Config.set_event_buffer_size 12 config in
  let config := Config.set_window_size 123456 config in
  let config := Config.set_maximum_packet_size 16384 config in
  let config := Config.set_nodelay false config in
  let s := build_ssh_config tt config in
  Some (match methods s with [MethodPublicKey] => true | _ => false end
        && (ssh_auth_rejection_time _ s =? from_secs 4)
        && bool_decide (auth_rejection_time_initial _ s = Some (from_secs 4))
        && (ssh_max_auth_attempts _ s =? 7)
        && bool_decide (ssh_keepalive_interval _ s = Some (from_secs 42))
        && (ssh_keepalive_max _ s =? 5) && (ssh_channel_buffer_size _ s =? 24)
        && (ssh_event_buffer_size _ s =? 12) && (ssh_window_size _ s =? 123456)
        && (ssh_maximum_packet_size _ s =? 16384) && negb (ssh_nodelay _ s)
        && match pref_kex (preferred s) with
           | [MLKEM768X25519_SHA256; CURVE25519; CURVE25519_PRE_RFC_8731;
              EXTENSION_SUPPORT_AS_SERVER; EXTENSION_OPENSSH_STRICT_KEX_AS_SERVER] => true
           | _ => false
           end
        && match pref_key (preferred s) with [Ed25519; SkEd25519] => true | _ => false end
        && match pref_cipher (preferred s) with
           | [CHACHA20_POLY1305; AES_256_GCM; AES_256_CTR; AES_128_CTR] => true
           | _ => false
           end
        && match pref_mac (preferred s) with
           | [HMAC_SHA512_ETM; HMAC_SHA256_ETM; HMAC_SHA512; HMAC_SHA256] => true
           | _ => false
           end
        && match pref_compression (preferred s) with [CompressionNone] => true | _ => false end).

End SshdTests.

(** ** executor.rs *)

Module ExecutorTests.

(** The message is refused before it is decoded, whatever the decoder. *)
Definition rejects_control_messages_with_multiple_attached_fds (payload : list N)
  `{!Framing.Serde Executor.ExecutorRequest} : option bool :=
  Some (err_contains (lit "more than one attached fd")
          (Executor.recv (T := Executor.ExecutorRequest)
             (Ok {| Executor.payload := payload; Executor.fds := [7; 8] |}))).

(** No signal goes out, where the source reports an error its callers ignore. *)
Definition rejects_child_pids_that_do_not_fit_i32 : option bool :=
  Some (match Process.send_signal_to_pid (Process.i32_max + 1) Process.SIGTERM with [] => true | _ => false end).

End ExecutorTests.

(** ** authorized_keys.rs *)

Module AuthorizedKeysTests.
Import AuthorizedKeys.

Definition PLAIN_ED25519_KEY : str := lit
  "ssh-ed25519 AAAAC3NzaC1lZDI1NTE5AAAAILM+rvN+ot98qgEN796jTiQfZfG1KaT0PtFDJ/XFSqti user@example.com".
Definition SECOND_ED25519_KEY : str := lit
  "ssh-ed25519 AAAAC3NzaC1lZDI1NTE5AAAAIKkBZe9F+Q52g8f+k38RXvJY8A8+P9MNm+8cTxS55U8W second@example.com".
Definition newline : str := [10%N].
Definition DUPLICATE_KEYS : str :=
  PLAIN_ED25519_KEY ++ newline
  ++ lit "ssh-ed25519 AAAAC3NzaC1lZDI1NTE5AAAAILM+rvN+ot98qgEN796jTiQfZfG1KaT0PtFDJ/XFSqti second@example.com"
  ++ newline.

(** A file written at a time. *)
Definition written (at_ : Z) (text : str) : fs_view :=
  let m := {| meta_modified := Some at_; meta_len := Z.of_nat (length text) |} in
  {| fs_stat := Ok m; fs_open := Ok {| file_metadata := Ok m; file_text := Ok text |} |}.

Definition key_count (c : AuthorizedKeysCache) : Z := Z.of_nat (size (accepted_keys c)).

Section Tests.
(** The ssh_key crate, and the keys its parser finds in the texts. *)
Context {PublicKey key_error : Type} (to_bytes : PublicKey → result key_error (list N)).
Context (key_error_display : key_error → str).
Context (entries : str → list (result key_error (str * PublicKey))).
Context (OPTIONED_RSA_ENTRY : str) (first_key second_key : PublicKey).

Abbreviation read_text := (from_text to_bytes key_error_display entries) (only parsing).
Abbreviation store := (mutex AuthorizedKeysState) (only parsing).

Definition stored (text : str) (interval : Duration) : option store :=
  match store_load to_bytes key_error_display entries (lit "/tmp/test/authorized_keys") 1024 8 interval
          0 (written 0 text) with
  | Ret (Ok s) => Some s
  | _ => None
  end.
Definition has (s : store) (k : PublicKey) : option bool :=
  match store_contains to_bytes key_error_display s k with Ret (Ok b) => Some b | _ => None end.
Definition refreshed (s : store) (at_ : Instant) (fs : fs_view)
  : option (store * option AuthorizedKeysReloadEvent) :=
  match store_refresh_if_due to_bytes key_error_display entries s at_ fs with
  | (s, Ret (Ok e)) => Some (s, e)
  | _ => None
  end.
Definition stored_status (s : store) : option AuthorizedKeysReloadStatus :=
  match store_status s with Ret st => Some (status_last_reload_status st) | _ => None end.

Definition accepts_plain_keys_and_ignores_optioned_entries : option bool :=
  cache ← ok (read_text (PLAIN_ED25519_KEY ++ newline ++ OPTIONED_RSA_ENTRY ++ newline) 8);
  found ← ok (contains to_bytes key_error_display first_key cache);
  Some (found && (key_count cache =? 1) && (ignored_entries cache =? 1)).

Definition rejects_duplicate_plain_keys : option bool :=
  Some (err_contains (lit "duplicate") (read_text DUPLICATE_KEYS 8)).

Definition rejects_too_many_entries : option bool :=
  Some (err_contains (lit "entry limit") (read_text PLAIN_ED25519_KEY 0)).

Definition reloads_after_file_change : option bool :=
  s ← stored (PLAIN_ED25519_KEY ++ newline) 0;
  a ← has s first_key;
  b ← has s second_key;
  '(s, event) ← refreshed s (from_millis 20) (written (from_millis 20) (SECOND_ED25519_KEY ++ newline));
  c ← has s first_key;
  d ← has s second_key;
  Some (a && negb b && match event with Some (EventLoaded 2 0) => true | _ => false end
        && negb c && d).

Definition keeps_last_known_good_cache_when_reload_fails : option bool :=
  s ← stored (PLAIN_ED25519_KEY ++ newline) 0;
  let bad := written (from_millis 20) (PLAIN_ED25519_KEY ++ newline ++ PLAIN_ED25519_KEY ++ newline
                                       ++ lit "invalid line without a key" ++ newline) in
  '(s, failed) ← refreshed s (from_millis 20) bad;
  a ← has s first_key;
  b ← has s second_key;
  status ← stored_status s;
  '(s, again) ← refreshed s (from_millis 20) bad;
  '(s, loaded) ← refreshed s (from_millis 40) (written (from_millis 40) (SECOND_ED25519_KEY ++ newline));
  c ← has s first_key;
  d ← has s second_key;
  Some (match failed with Some (EventFailed _) => true | _ => false end && a && negb b
        && match status with
           | StatusFailed m =>
               bool_decide (m = lit "authorized keys file contains a duplicate plain key entry")
           | _ => false
           end
        && match again with None => true | _ => false end
        && match loaded with Some (EventLoaded 2 _) => true | _ => false end && negb c && d).

Definition delays_reload_until_debounce_interval_passes : option bool :=
  s ← stored (PLAIN_ED25519_KEY ++ newline) (from_secs 60);
  '(s, event) ← refreshed s (from_millis 20) (written (from_millis 20) (SECOND_ED25519_KEY ++ newline));
  a ← has s first_key;
  b ← has s second_key;
  Some (match event with None => true | _ => false end && a && negb b).

Definition authorized_keys_tests : list (option bool) := [
  accepts_plain_keys_and_ignores_optioned_entries;
  rejects_duplicate_plain_keys;
  rejects_too_many_entries;
  reloads_after_file_change;
  keeps_last_known_good_cache_when_reload_fails;
  delays_reload_until_debounce_interval_passes
].

(** What the tests take from the parser: the entries of their texts, and that
    the wire form of a key does not depend on its comment. *)
Class TestKeys (b1 b2 : list N) : Prop := {
  first_bytes : to_bytes first_key = Ok b1;
  second_bytes : to_bytes second_key = Ok b2;
  keys_differ : b1 ≠ b2;
  plain_entry : entries PLAIN_ED25519_KEY = [Ok ([], first_key)];
  plain_file : entries (PLAIN_ED25519_KEY ++ newline) = [Ok ([], first_key)];
  second_file : entries (SECOND_ED25519_KEY ++ newline) = [Ok ([], second_key)];
  optioned_file : ∃ o opts rsa,
    entries (PLAIN_ED25519_KEY ++ newline ++ OPTIONED_RSA_ENTRY ++ newline)
    = [Ok ([], first_key); Ok (o :: opts, rsa)];
  duplicate_file : ∃ key,
    entries DUPLICATE_KEYS = [Ok ([], first_key); Ok ([], key)] ∧ to_bytes key = Ok b1;
  bad_file : ∃ rest,
    entries (PLAIN_ED25519_KEY ++ newline ++ PLAIN_ED25519_KEY ++ newline
             ++ lit "invalid line without a key" ++ newline)
    = Ok ([], first_key) :: Ok ([], first_key) :: rest;
}.

Section Pass.
Context {b1 b2 : list N} `{!TestKeys b1 b2}.

Definition one_key (b : list N) : AuthorizedKeysCache :=
  {| accepted_keys := {[ b ]} ∪ ∅; ignored_entries := 0 |}.

Lemma plain_entry_taken max i c k b es :
  i < max → to_bytes k = Ok b → b ∉ accepted_keys c →
  from_entries to_bytes key_error_display max i c (Ok ([], k) :: es)
  = from_entries to_bytes key_error_display max (i + 1)
      {| accepted_keys := {[ b ]} ∪ accepted_keys c; ignored_entries := ignored_entries c |} es.
Proof.
  intros Hi Hk Hb. cbn. rewrite (proj2 (Z.leb_gt max i)) by done. rewrite Hk. cbn.
  by rewrite bool_decide_eq_false_2.
Qed.

Lemma duplicate_entry_refused max i c k b es :
  i < max → to_bytes k = Ok b → b ∈ accepted_keys c →
  from_entries to_bytes key_error_display max i c (Ok ([], k) :: es)
  = bail (lit "authorized keys file contains a duplicate plain key entry").
Proof.
  intros Hi Hk Hb. cbn [from_entries]. rewrite (proj2 (Z.leb_gt max i)) by done. cbn. rewrite Hk. cbn.
  by rewrite bool_decide_eq_true_2.
Qed.

Lemma one_key_text text k b :
  entries text = [Ok ([], k)] → to_bytes k = Ok b → read_text text 8 = Ok (one_key b).
Proof. intros He Hk. unfold from_text. rewrite He. by rewrite (plain_entry_taken _ _ _ _ b). Qed.

Lemma optioned_entry_ignored max i c o opts k :
  i < max →
  from_entries to_bytes key_error_display max i c [Ok (o :: opts, k)]
  = Ok {| accepted_keys := accepted_keys c;
          ignored_entries := wrapping_add usize_max (ignored_entries c) 1 |}.
Proof. intros Hi. cbn [from_entries]. by rewrite (proj2 (Z.leb_gt max i)). Qed.

Lemma contains_bytes k b c :
  to_bytes k = Ok b →
  contains to_bytes key_error_display k c = Ok (bool_decide (b ∈ accepted_keys c)).
Proof. intros Hk. unfold contains. by rewrite Hk. Qed.

Lemma one_key_contains k b b' :
  to_bytes k = Ok b' →
  contains to_bytes key_error_display k (one_key b) = Ok (bool_decide (b' = b)).
Proof.
  intros Hk. rewrite (contains_bytes _ b') by done. f_equal. apply bool_decide_ext. cbn. set_solver.
Qed.

Lemma load_written p at_ text :
  (1024 <? Z.of_nat (length text)) = false →
  load to_bytes key_error_display entries p 1024 8 (written at_ text)
  = map_ok (λ c, (c, from_metadata {| meta_modified := Some at_; meta_len := Z.of_nat (length text) |}))
      (read_text text 8).
Proof.
  intros H. unfold load. cbn [written fs_open io_result with_context map_err mbind result_bind
    file_metadata file_text meta_len]. rewrite H. by destruct (from_text _ _ _ text 8).
Qed.

Lemma first_has b : contains to_bytes key_error_display first_key (one_key b) = Ok (bool_decide (b1 = b)).
Proof. apply one_key_contains, first_bytes. Qed.
Lemma second_has b : contains to_bytes key_error_display second_key (one_key b) = Ok (bool_decide (b2 = b)).
Proof. apply one_key_contains, second_bytes. Qed.

Lemma differ12 : bool_decide (b1 = b2) = false.
Proof. apply bool_decide_eq_false_2, keys_differ. Qed.
Lemma differ21 : bool_decide (b2 = b1) = false.
Proof. apply bool_decide_eq_false_2. intros H. by apply keys_differ. Qed.

Lemma plain_text : read_text (PLAIN_ED25519_KEY ++ newline) 8 = Ok (one_key b1).
Proof. apply (one_key_text _ first_key); [apply plain_file|apply first_bytes]. Qed.
Lemma second_text : read_text (SECOND_ED25519_KEY ++ newline) 8 = Ok (one_key b2).
Proof. apply (one_key_text _ second_key); [apply second_file|apply second_bytes]. Qed.
Lemma bad_text :
  read_text (PLAIN_ED25519_KEY ++ newline ++ PLAIN_ED25519_KEY ++ newline
             ++ lit "invalid line without a key" ++ newline) 8
  = bail (lit "authorized keys file contains a duplicate plain key entry").
Proof.
  destruct bad_file as [rest H]. unfold from_text. rewrite H.
  rewrite (plain_entry_taken _ _ _ _ b1); [|done|apply first_bytes|set_solver].
  apply (duplicate_entry_refused _ _ _ _ b1); [done|apply first_bytes|set_solver].
Qed.

Definition printed (at_ : Z) (text : str) : AuthorizedKeysFingerprint :=
  from_metadata {| meta_modified := Some at_; meta_len := Z.of_nat (length text) |}.

(** The store after its first load. *)
Definition plain_state (interval : Duration) : AuthorizedKeysState := {|
  path := lit "/tmp/test/authorized_keys"; max_size := 1024; max_entries := 8;
  reload_interval := interval; cache := one_key b1; generation := 1;
  observed_fingerprint := printed 0 (PLAIN_ED25519_KEY ++ newline);
  last_failed_reload_fingerprint := None; last_reload_status := StatusLoaded;
  next_reload_check_at := interval;
|}.

Lemma stored_plain interval :
  (interval <=? instant_max) = true →
  stored (PLAIN_ED25519_KEY ++ newline) interval = Some (Unpoisoned (plain_state interval)).
Proof.
  intros Hi. unfold stored, store_load. rewrite load_written by (by vm_compute).
  rewrite plain_text. cbn [map_ok]. unfold loaded, instant_add. by rewrite Z.add_0_l, Hi.
Qed.

(** One turn of the store on a file that changed: [st'] is the state with the
    next check set. *)
Lemma refreshed_written st at_ text :
  max_size st = 1024 → max_entries st = 8 → reload_interval st = 0 →
  (at_ <? next_reload_check_at st) = false → (at_ <=? instant_max) = true →
  (1024 <? Z.of_nat (length text)) = false →
  bool_decide (printed at_ text = observed_fingerprint st) = false →
  bool_decide (last_failed_reload_fingerprint st = Some (printed at_ text)) = false →
  let st' := set_next_reload_check_at at_ st in
  refreshed (Unpoisoned st) at_ (written at_ text)
  = Some match read_text text 8 with
         | Ok c =>
             let gen := saturating_add u64_max (generation st) 1 in
             (Unpoisoned (set_reload c gen (printed at_ text) None StatusLoaded st'),
              Some (EventLoaded gen (ignored_entries c)))
         | Err e =>
             (Unpoisoned (set_reload (cache st) (generation st) (observed_fingerprint st)
                            (Some (printed at_ text)) (StatusFailed (outermost e)) st'),
              Some (EventFailed (outermost e)))
         end.
Proof.
  intros Hs He Hi Hn Ha Hl Ho Hf st'. unfold refreshed, store_refresh_if_due, with_lock, refresh_if_due.
  rewrite Hn, Hi. unfold instant_add. rewrite Z.add_0_r, Ha.
  cbn [mbind run_bind mret run_ret path max_size max_entries set_next_reload_check_at
    observed_fingerprint last_failed_reload_fingerprint generation cache].
  unfold from_path. cbn [written fs_stat]. fold (printed at_ text). rewrite Ho, Hf.
  fold (written at_ text). rewrite Hs, He, load_written by done.
  by destruct (from_text _ _ _ text 8).
Qed.

Lemma refreshed_not_due st at_ fs :
  (at_ <? next_reload_check_at st) = true →
  refreshed (Unpoisoned st) at_ fs = Some (Unpoisoned st, None).
Proof. intros H. unfold refreshed, store_refresh_if_due, with_lock, refresh_if_due. by rewrite H. Qed.

(** A file whose load failed is not read again before it changes. *)
Lemma refreshed_failed_file st at_ since text :
  reload_interval st = 0 → (at_ <? next_reload_check_at st) = false → (at_ <=? instant_max) = true →
  bool_decide (printed since text = observed_fingerprint st) = false →
  last_failed_reload_fingerprint st = Some (printed since text) →
  refreshed (Unpoisoned st) at_ (written since text)
  = Some (Unpoisoned (set_next_reload_check_at at_ st), None).
Proof.
  intros Hi Hn Ha Ho Hf. unfold refreshed, store_refresh_if_due, with_lock, refresh_if_due.
  rewrite Hn, Hi. unfold instant_add. rewrite Z.add_0_r, Ha.
  cbn [mbind run_bind mret run_ret path set_next_reload_check_at observed_fingerprint
    last_failed_reload_fingerprint].
  unfold from_path. cbn [written fs_stat]. fold (printed since text). rewrite Ho, Hf.
  by rewrite bool_decide_eq_true_2.
Qed.

Theorem authorized_keys_tests_pass : forallb passes authorized_keys_tests = true.
Proof.
  cbn [forallb authorized_keys_tests]. rewrite !andb_true_iff. split_and!; [..|done].
  - unfold accepts_plain_keys_and_ignores_optioned_entries. destruct optioned_file as (o & opts & rsa & H).
    unfold from_text. rewrite H.
    rewrite (plain_entry_taken _ _ _ _ b1); [|done|apply first_bytes|set_solver].
    rewrite optioned_entry_ignored by done. cbn [ok mbind option_bind].
    rewrite (contains_bytes _ b1) by apply first_bytes. rewrite bool_decide_eq_true_2 by set_solver.
    unfold key_count. cbn [accepted_keys empty_cache ignored_entries].
    by rewrite (right_id_L ∅ (∪)), size_singleton.
  - unfold rejects_duplicate_plain_keys. destruct duplicate_file as (k & H & Hk).
    unfold from_text. rewrite H.
    rewrite (plain_entry_taken _ _ _ _ b1); [|done|apply first_bytes|set_solver].
    rewrite (duplicate_entry_refused _ _ _ _ b1); [|done|done|set_solver]. by vm_compute.
  - unfold rejects_too_many_entries, from_text. rewrite plain_entry. by vm_compute.
  - unfold reloads_after_file_change. rewrite stored_plain by done. cbn [mbind option_bind].
    unfold has, store_contains. cbn [cache plain_state mret run_ret].
    rewrite first_has, second_has, refreshed_written by (by vm_compute).
    rewrite second_text. cbn [mbind option_bind cache set_reload].
    rewrite first_has, second_has, differ12, differ21, !bool_decide_eq_true_2 by done. by vm_compute.
  - unfold keeps_last_known_good_cache_when_reload_fails. rewrite stored_plain by done.
    cbn [mbind option_bind]. rewrite refreshed_written by (by vm_compute).
    rewrite bad_text. cbn [mbind option_bind bail].
    unfold has, store_contains. cbn [cache plain_state set_reload set_next_reload_check_at mret run_ret].
    rewrite first_has, second_has. cbn [mbind option_bind stored_status store_status mret run_ret].
    rewrite refreshed_failed_file by (by vm_compute). cbn [mbind option_bind].
    rewrite refreshed_written by (by vm_compute). rewrite second_text. cbn [mbind option_bind].
    cbn [cache set_reload set_next_reload_check_at mret run_ret].
    rewrite first_has, second_has, differ12, differ21, !bool_decide_eq_true_2 by done. by vm_compute.
  - unfold delays_reload_until_debounce_interval_passes. rewrite stored_plain by done.
    cbn [mbind option_bind]. rewrite refreshed_not_due by done. cbn [mbind option_bind].
    unfold has, store_contains. cbn [cache plain_state mret run_ret].
    rewrite first_has, second_has, differ21, bool_decide_eq_true_2 by done. by vm_compute.
Qed.
End Pass.
End Tests.

(** A parser that knows the texts of the tests: keys are their wire form. *)
Definition known_entries (text : str) : list (result unit (str * list N)) :=
  let first := Ok ([], [1%N]) in
  if decide (text = PLAIN_ED25519_KEY ++ newline ++ newline) then [first; Ok (lit "no-pty", [3%N])]
  else if decide (text = DUPLICATE_KEYS) then [first; first]
  else if decide (text = SECOND_ED25519_KEY ++ newline) then [Ok ([], [2%N])]
  else if decide (text = PLAIN_ED25519_KEY) then [first]
  else if decide (text = PLAIN_ED25519_KEY ++ newline) then [first]
  else [first; first; Err tt].

Lemma known_test_keys :
  TestKeys (λ k, @Ok unit _ k) known_entries [] [1%N] [2%N] [1%N] [2%N].
Proof.
  split; [done|done|done|by vm_compute|by vm_compute|by vm_compute|..].
  - eexists _, _, _. vm_compute. reflexivity.
  - eexists. split; [vm_compute; reflexivity|done].
  - eexists. vm_compute. reflexivity.
Qed.

Lemma authorized_keys_tests_run :
  forallb passes (authorized_keys_tests (λ k, @Ok unit _ k) (λ _, []) known_entries [] [1%N] [2%N]) = true.
Proof. apply (authorized_keys_tests_pass _ _ _ _ _ _ (TestKeys0 := known_test_keys)). Qed.

End AuthorizedKeysTests.

(** ** sftp.rs *)

Module SftpTests.
Import Sftp.

(** On the file system in memory. *)
Definition content : list N := replicate (Z.to_nat (MAX_SFTP_READ_LEN + 4096)) 120%N.

Definition read_caps_large_client_lengths : option bool :=
  let world : mem_world := ({[ lit "/tmp/test/large.bin" := content ]}, ∅) in
  match open 1 (lit "large.bin") tt (world, LocalSftp_new (lit "/tmp/test")) with
  | (s, Ok (_, handle)) =>
      match read 2 handle 0 u32_max s with
      | (_, Ok (_, data)) =>
          Some ((Z.of_nat (length data) =? MAX_SFTP_READ_LEN) && forallb (N.eqb 120) data)
      | _ => None
      end
  | _ => None
  end.

Definition large_world (data : list N) : mem_world := ({[ lit "/tmp/test/large.bin" := data ]}, ∅).

Lemma large_opened (data : list N) :
  let r := open 1 (lit "large.bin") tt (large_world data, LocalSftp_new (lit "/tmp/test")) in
  r.1.1 = large_world data ∧ r.2 = Ok (1, handle_name 1) ∧
  handles r.1.2 !! handle_name 1 = Some (FileHandle (lit "/tmp/test/large.bin")).
Proof. split_and!; reflexivity. Qed.

(** What a read at the start of the file gives. *)
Lemma large_read (data : list N) st handle len :
  handles st !! handle = Some (FileHandle (lit "/tmp/test/large.bin")) →
  take (Z.to_nat (Z.min len MAX_SFTP_READ_LEN)) data ≠ [] →
  (read 2 handle 0 len (large_world data, st)).2
  = Ok (2, take (Z.to_nat (Z.min len MAX_SFTP_READ_LEN)) data).
Proof.
  intros Hh Hne. unfold read, file_handle, lookup_handle, mbind, handler_bind, get.
  cbn -[MAX_SFTP_READ_LEN lookup lit Z.min Z.eqb]. rewrite Hh.
  cbn -[MAX_SFTP_READ_LEN lookup lit Z.min Z.eqb]. unfold mem_read.
  cbn -[MAX_SFTP_READ_LEN lookup lit Z.min Z.eqb].
  rewrite lookup_insert_eq, lookup_singleton_eq.
  cbn -[MAX_SFTP_READ_LEN lookup lit Z.min Z.eqb].
  change (drop (Z.to_nat 0) data) with data. by destruct (take _ data).
Qed.

Theorem sftp_test_passes : passes read_caps_large_client_lengths = true.
Proof.
  unfold read_caps_large_client_lengths. fold (large_world content).
  destruct (large_opened content) as (Hw & Hr & Hh).
  destruct (open 1 _ _ _) as [[w st] r]. cbn [fst snd] in Hw, Hr, Hh. subst w r.
  assert (length (take (Z.to_nat (Z.min u32_max MAX_SFTP_READ_LEN)) content)
          = Z.to_nat MAX_SFTP_READ_LEN) as Hlen.
  { unfold content. rewrite length_take, length_replicate.
    assert (Z.min u32_max MAX_SFTP_READ_LEN = MAX_SFTP_READ_LEN) as -> by done.
    assert (0 ≤ MAX_SFTP_READ_LEN) by done. lia. }
  pose proof (large_read content st (handle_name 1) u32_max Hh) as Hread.
  revert Hread. destruct (read 2 _ 0 u32_max _) as [s' r]. cbn [snd]. intros Hread.
  rewrite Hread.
  - unfold passes. cbn [default]. rewrite Hlen, Z2Nat.id by done. rewrite Z.eqb_refl. apply forallb_forall.
    intros x Hx%list_elem_of_In%elem_of_take. destruct Hx as (i & Hi & _).
    unfold content in Hi. apply lookup_replicate in Hi as [-> _]. done.
  - intros E. rewrite E in Hlen. cbn [length] in Hlen. assert (0 < MAX_SFTP_READ_LEN) by done. lia.
Qed.

End SftpTests.

(** ** The tests pass *)

Import AdmissionTests ConfigTests LogLimiterTests MetricsTests SshdTests ExecutorTests.

Definition unit_tests : list (option bool) := [
  enforces_per_ip_limit_until_guard_released;
  enforces_rate_limit_and_refills_over_time;
  bans_after_repeated_auth_failures_and_expires;
  enforces_per_subnet_limit;
  cap_rejections_do_not_consume_rate_limit_tokens;
  sweeps_stale_auth_failure_entries_during_later_traffic;
  parses_basic_config;
  parses_public_exposure_limits;
  rejects_password_auth_enable;
  parses_duration_suffixes;
  parses_byte_sizes;
  shell_directive_keeps_bare_command_name;
  shell_directive_resolves_relative_path_from_config_dir;
  rejects_incompatible_exec_mode_shell_combo;
  suppresses_duplicates_within_window_and_reports_summary;
  evicts_old_entries_when_map_grows;
  tracks_security_counters;
  bounds_auth_failure_ips_and_tracks_overflow;
  rejects_non_matching_login_usernames;
  auth_rejection_logs_do_not_include_login_names;
  allows_only_modern_user_key_algorithms;
  public_exposure_preference_disables_host_key_certificates;
  tightens_host_key_parent_directory_permissions;
  rejects_host_keys_with_group_or_other_permissions;
  builds_public_exposure_ssh_config_from_app_config;
  rejects_child_pids_that_do_not_fit_i32
].

Theorem unit_tests_pass : forallb passes unit_tests = true.
Proof. vm_compute. reflexivity. Qed.

Theorem multiple_fds_test_passes `{!Framing.Serde Executor.ExecutorRequest} (x : N) payload :
  passes (rejects_control_messages_with_multiple_attached_fds (x :: payload)) = true.
Proof. vm_compute. reflexivity. Qed.

End UnitTests.
