(* ===== verification/IntegrationTests.v ===== *)
(** * The repository's integration tests, on the model (src/tests/public_exposure.rs)

    The tests that drive a running daemon over the network, replayed on the
    definitions of the server: a server is started by
    [run_on_listener_unsandboxed_for_tests] as the tests do, connections are
    opened and closed, keys are offered, and files change, at the times the
    tests sleep to.  A key stands for the line of it; the tests of timeouts,
    processes and the sandbox are about what lies outside these definitions. *)

From S2P Require Import Prelude Rust Net Config Admission LogLimiter Metrics AuthorizedKeys Server Daemon LogText Startup UnitTests.

Local Open Scope Z_scope.

Module IntegrationTests.
Import Server Daemon.
Import UnitTests.AuthorizedKeysTests.

(** ** The harness *)

Definition key_line (k : str) : str := k ++ newline.
Definition key_algorithm (k : str) : Algorithm := Ed25519.

(** The keys file of a test, written when the test starts. *)
Definition environment_with (fs : AuthorizedKeys.fs_view) : Startup.environment (PrivateKey := str) := {|
  Startup.cfg_unix := true; Startup.cfg_linux := true; Startup.home_dir := Some (lit "/home/alice");
  Startup.host_key_exists := true; Startup.read_openssh_file := Ok (lit "host");
  Startup.host_key_mode := Ok 33152; Startup.create_dir_all := Ok tt; Startup.set_permissions := Ok tt;
  Startup.random_key := Ok (lit "host"); Startup.write_openssh_file := Ok tt; Startup.uid := 1000;
  Startup.passwd_name := Ok (Some (lit "alice")); Startup.var_username := Err [];
  Startup.var_user := Err []; Startup.keys_file_exists := true; Startup.keys_file := fs;
  Startup.spawn_executor := Ok tt; Startup.bind_listener := Ok tt; Startup.set_no_new_privs := Ok tt;
  Startup.apply_sandbox := Ok tt; Startup.now := from_secs 1;
|}.

Definition test_config (adjust : Config.AppConfig → Config.AppConfig) : Config.AppConfig :=
  let c := Config.default_config (lit "/home/alice") (lit "/home/alice/.config/narrowd") in
  let c := Config.set_listen_address (lit "127.0.0.1") c in
  let c := Config.set_port 0 c in
  let c := Config.set_host_key (lit "/tmp/test/ssh_host_ed25519_key") c in
  let c := Config.set_authorized_keys_file (lit "/tmp/test/authorized_keys") c in
  let c := Config.set_auth_rejection_time (from_millis 10) c in
  let c := Config.set_keepalive_interval (from_secs 1) c in
  let c := Config.set_keepalive_max 2 c in
  adjust c.

Definition spawn_server (c : Config.AppConfig) (fs : AuthorizedKeys.fs_view) : option AppState :=
  match Startup.run_on_listener_unsandboxed_for_tests key_algorithm AuthorizedKeys.demo_bytes
          AuthorizedKeys.demo_error AuthorizedKeys.demo_entries c (Some (lit "narrowd"))
          (environment_with fs) with
  | (_, Ret (Ok s)) => Some s
  | _ => None
  end.

(** Times of a test, from the start of the server. *)
Definition at_ms (ms : Z) : Instant := from_secs 1 + from_millis ms.

Definition client (port : Z) : SocketAddr := {| sock_ip := V4 (V4Octets 127 0 0 1); sock_port := port |}.

(** A connection: [None] when it is closed without a banner. *)
Definition connect (port ms : Z) (s : AppState) : option (AppState * option PreauthContext) :=
  match open_connection map_to_list (client port) (Ok tt) (at_ms ms) s with
  | (s, Ret (Opened ctx)) => Some (s, Some ctx)
  | (s, Ret NotAdmitted) => Some (s, None)
  | _ => None
  end.

Definition offer (port : Z) (user : str) (k : str) (ms : Z) (fs : AuthorizedKeys.fs_view) (s : AppState)
  : option (AppState * bool) :=
  match auth_publickey map_to_list AuthorizedKeys.demo_bytes AuthorizedKeys.demo_error
          AuthorizedKeys.demo_entries key_algorithm (Some (client port)) user k (at_ms ms) fs s with
  | (s, Ret (Ok Accept)) => Some (s, true)
  | (s, Ret (Ok _)) => Some (s, false)
  | _ => None
  end.

Definition disconnect (ctx : PreauthContext) (ms : Z) (s : AppState) : option AppState :=
  match preauth_drop ctx (at_ms ms) s with (s, Ret _) => Some s | _ => None end.

(** [authenticate_with_key]: connect, offer the key, and go. *)
Definition authenticate (port : Z) (user k : str) (ms : Z) (fs : AuthorizedKeys.fs_view) (s : AppState)
  : option (AppState * bool) :=
  '(s, ctx) ← connect port ms s;
  ctx ← ctx;
  '(s, accepted) ← offer port user k ms fs s;
  s ← disconnect ctx ms s;
  Some (s, accepted).

(** ** The tests *)

Definition no_keys : AuthorizedKeys.fs_view := written 0 [].
Definition one_file (at_ : Z) (k : str) : AuthorizedKeys.fs_view := written at_ (key_line k).
Definition first_key : str := lit "first".
Definition second_key : str := lit "second".

Definition limits (global per_ip per_subnet per_minute burst : Z) (c : Config.AppConfig)
  : Config.AppConfig :=
  let c := Config.set_max_unauth_connections_global global c in
  let c := Config.set_max_unauth_connections_per_ip per_ip c in
  let c := Config.set_max_unauth_connections_per_subnet per_subnet c in
  let c := Config.set_new_connections_per_minute_per_ip per_minute c in
  Config.set_new_connections_burst_per_ip burst c.
Definition times (banner grace : Duration) (c : Config.AppConfig) : Config.AppConfig :=
  Config.set_login_grace_time grace (Config.set_client_banner_timeout banner c).

Definition is_open (c : option PreauthContext) : bool := bool_decide (is_Some c).

Definition authenticated_sessions_release_unauth_slots : option bool :=
  let fs := one_file 0 first_key in
  s ← spawn_server (test_config (λ c, times (from_millis 500) (from_secs 1) (limits 1 1 4 60 8 c))) fs;
  '(s, ctx) ← connect 40001 50 s;
  ctx ← ctx;
  '(s, accepted) ← offer 40001 (lit "alice") first_key 60 fs s;
  s ← match auth_succeeded (Some (client 40001)) ctx (at_ms 60) s with (s, Ret _) => Some s | _ => None end;
  '(s, second) ← connect 40002 70 s;
  Some (accepted && is_open second).

(** One connection is open; is the next one? *)
Definition second_connection (adjust : Config.AppConfig → Config.AppConfig) : option bool :=
  s ← spawn_server (test_config adjust) no_keys;
  '(s, first) ← connect 40001 50 s;
  '(s, second) ← connect 40002 60 s;
  Some (is_open first && negb (is_open second)).

Definition rejects_connections_over_global_unauth_limit_before_banner : option bool :=
  second_connection (λ c, times (from_secs 1) (from_secs 1) (limits 1 4 8 60 8 c)).

Definition rejects_connections_over_per_ip_unauth_limit_before_banner : option bool :=
  second_connection (λ c, times (from_secs 1) (from_secs 1) (limits 8 1 8 60 8 c)).

Definition repeated_auth_failures_trigger_temporary_bans : option bool :=
  let fs := one_file 0 first_key in
  s ← spawn_server (test_config (λ c,
        let c := times (from_millis 500) (from_millis 500) (limits 4 4 8 60 8 c) in
        let c := Config.set_auth_failure_ban_threshold 2 c in
        let c := Config.set_auth_failure_ban_window (from_secs 5) c in
        let c := Config.set_auth_failure_ban_duration (from_millis 500) c in
        Config.set_auth_rejection_time (from_millis 20) c)) fs;
  '(s, a) ← authenticate 40001 (lit "alice") second_key 50 fs s;
  '(s, b) ← authenticate 40002 (lit "alice") second_key 120 fs s;
  '(s, banned) ← connect 40003 190 s;
  '(s, recovered) ← connect 40004 1140 s;
  Some (negb a && negb b && negb (is_open banned) && is_open recovered).

Definition wrong_user : str := lit "wrong-user-log-limit-test".

(** [n] attempts, ten milliseconds apart: how many were refused. *)
Fixpoint attempts (n : nat) (ms : Z) (s : AppState) : option (AppState * nat) :=
  match n with
  | 0%nat => Some (s, 0%nat)
  | S n =>
      '(s, accepted) ← authenticate (40000 + Z.of_nat n) wrong_user second_key ms no_keys s;
      '(s, refused) ← attempts n (ms + 10) s;
      Some (s, if accepted : bool then refused else S refused)
  end.

Definition repeated_auth_rejects_are_log_limited : option bool :=
  s ← spawn_server (test_config (λ c,
        let c := times (from_millis 500) (from_secs 1) c in
        let c := Config.set_auth_failure_ban_threshold 64 c in
        let c := Config.set_new_connections_per_minute_per_ip 120 c in
        Config.set_new_connections_burst_per_ip 16 c)) no_keys;
  '(s, refused) ← attempts 5 50 s;
  let logs := (LogText.log_lines (λ _, false) 0 s).*2 in
  let matching := List.filter (λ entry, contains (lit "event=auth_rejected") entry
                                        && contains (lit "category=auth-reject-username") entry) logs in
  Some ((refused =? 5)%nat && (length matching =? 1)%nat
        && forallb (λ entry, negb (contains wrong_user entry)) logs).

Definition reloading (c : Config.AppConfig) : Config.AppConfig :=
  times (from_millis 500) (from_secs 1) (Config.set_authorized_keys_reload_interval (from_millis 30) c).

Definition reloads_authorized_keys_after_file_change : option bool :=
  let before := one_file 0 first_key in
  let after := one_file 120 second_key in
  s ← spawn_server (test_config reloading) before;
  '(s, a) ← authenticate 40001 (lit "alice") first_key 50 before s;
  '(s, b) ← authenticate 40002 (lit "alice") second_key 60 before s;
  '(s, c) ← authenticate 40003 (lit "alice") first_key 200 after s;
  '(s, d) ← authenticate 40004 (lit "alice") second_key 210 after s;
  Some (a && negb b && negb c && d).

Definition keeps_last_known_good_authorized_keys_after_failed_reload : option bool :=
  let before := one_file 0 first_key in
  let bad := written 120 (key_line first_key ++ key_line first_key) in
  let after := one_file 270 second_key in
  s ← spawn_server (test_config reloading) before;
  '(s, a) ← authenticate 40001 (lit "alice") first_key 50 before s;
  '(s, b) ← authenticate 40002 (lit "alice") first_key 200 bad s;
  '(s, c) ← authenticate 40003 (lit "alice") second_key 210 bad s;
  '(s, d) ← authenticate 40004 (lit "alice") first_key 350 after s;
  '(s, e) ← authenticate 40005 (lit "alice") second_key 360 after s;
  Some (a && b && negb c && negb d && e).

Definition uses_warm_authorized_keys_cache_without_retouching_disk_each_auth : option bool :=
  let before := one_file 0 first_key in
  let gone := {| AuthorizedKeys.fs_stat := Err (IoError NotFound []);
                 AuthorizedKeys.fs_open := Err (IoError NotFound []) |} in
  s ← spawn_server (test_config (λ c, times (from_millis 500) (from_secs 1)
        (Config.set_authorized_keys_reload_interval (from_secs 60) c))) before;
  '(s, a) ← authenticate 40001 (lit "alice") first_key 50 before s;
  '(s, b) ← authenticate 40002 (lit "alice") first_key 60 gone s;
  Some (a && b).

Definition integration_tests : list (option bool) := [
  authenticated_sessions_release_unauth_slots;
  rejects_connections_over_global_unauth_limit_before_banner;
  rejects_connections_over_per_ip_unauth_limit_before_banner;
  repeated_auth_failures_trigger_temporary_bans;
  repeated_auth_rejects_are_log_limited;
  reloads_authorized_keys_after_file_change;
  keeps_last_known_good_authorized_keys_after_failed_reload;
  uses_warm_authorized_keys_cache_without_retouching_disk_each_auth
].

Theorem integration_tests_pass : forallb UnitTests.passes integration_tests = true.
Proof. vm_compute. reflexivity. Qed.

End IntegrationTests.
